(* ===== verification/_CoqProject ===== *)
-Q . S2P
Prelude.v
Machine.v
Doubles.v
Fairness.v
Request.v
RequestQueue.v
Engine.v
Scheduler.v
Counters.v
System.v
Lifecycle.v
Delivery.v
Accounting.v
Monitoring.v
Liveness.v
FineLiveness.v
MemoryPool.v
Buffers.v
StreamPool.v
Normalize.v
CudaEngine.v
CudaThreads.v
OnnxImpl.v
OnnxEngine.v
Binding.v
PythonCalls.v
Deployed.v
BenchTool.v
