(* ===== verification/Prelude.v ===== *)
(** * CUDA inference server: verification development

    The program is the C++ core of a dynamic-batching inference server (src/cpp). Callers,
    Python threads in the deployed server, submit one input row each; a request queue holds
    them, a scheduler's worker thread drains them in batches, hands each batch to an
    execution engine and resolves every caller's promise with its own output row. Three
    engines implement the interface: a stub that echoes rows, an engine that normalizes
    rows on the GPU with pooled memory and streams, and one that runs an ONNX model.

    ** Parts, files and correspondence

    - [Prelude]: tactics, hint databases, reachability of transition systems,
      lemmas on rows of concatenated lists and on the values of finite maps.
    - [Machine]: what the sources use of C++: exceptions and undefined behaviour
      ([outcome]), state with exceptions ([stepM]), 64-bit and 32-bit arithmetic, IEEE
      floats (the Standard Library's [SpecFloat]), clocks, range-checked vector access.
    - [Doubles]: the order of doubles and where a NaN cannot arise.
    - [Fairness]: infinite executions, weak and strong fairness, rules for what one
      condition leads to, and the same for a run that is only observed through the states
      of a coarser system.
    - [Request]: [InferenceRequest], [InferenceResult] (include/cuda_db/scheduler/request.hpp,
      result.hpp); promises and futures as handles on a store of shared states.
    - [RequestQueue]: src/scheduler/request_queue.cpp. [push], [shutdown], [size], and
      [wait_and_drain] as [wait_step], cut at the points where the mutex is released.
      [qstep] interleaves producers, shutdown, notifications, time and the consumer.
    - [Engine]: include/cuda_db/engine/execution_engine.hpp as the class
      [IExecutionEngine], its documented contract as the class [EngineContract] (whose
      last parameter says which exceptions an engine may throw), and the stub engine.
    - [Scheduler]: the body of [run_loop] in src/scheduler/scheduler.cpp, one definition per
      stage, the counters, and [submit].
    - [Counters]: the atomic counters access by access ([instr], [run_instr]) and the
      updates their accesses amount to.
    - [System]: the running scheduler: worker, producers, [start], [stop] and statistics
      resets interleaved over the queue's system ([sstep]).
    - [Lifecycle]: [start], [stop] and the destructors access by access, called by any
      number of threads ([lstep]); the life of the binding's runtime object, which starts
      the scheduler in its constructor ([runtime_lives]).
    - [Delivery]: [run_loop] cut at every promise it settles and every counter access it
      makes ([fstep]), with the other threads in between.
    - [Accounting]: what the counters of that system hold at every moment, and how long an
      iteration can take. A run is labelled with its events (a batch drained and checked, a
      clock read, an engine call back, a reset); the [ledger] of the batches and the updates
      it owes are functions of that trace.
    - [Monitoring]: [stats] called while the counters change.
    - [Liveness]: the fair runs of [System]: what is bound to happen.
    - [FineLiveness]: the same for the fair runs of [Delivery]'s system.
    - [MemoryPool]: src/memory/memory_pool.cpp, with the handles as named C++ objects.
    - [Buffers]: include/cuda_db/memory/device_buffer.hpp and pinned_buffer.hpp.
    - [StreamPool]: src/kernels/cuda_stream_pool.cpp.
    - [Normalize]: src/kernels/normalize.cu, the kernel's threads in any interleaving.
    - [CudaEngine]: src/engine/cuda_execution_engine.cpp, over the pool, the streams and the
      kernel, with a device that executes its queues at its own pace.
    - [CudaThreads]: [run_inference] called by several threads on one CUDA engine, each with
      its own sizes, cut at its accesses to shared state and interleaved with the device.
    - [OnnxImpl]: options and CUDA resources of src/engine/onnx_execution_engine.cpp:
      [Impl], [allocate_device_buffers] call by call, the destructor.
    - [OnnxEngine]: the rest of that file: construction, warm-up, host path and bound path.
    - [Binding]: src/bindings/module.cpp: configuration, choice of the engine, [predict].
    - [PythonCalls]: the same file's methods as Python threads call them: the interpreter
      lock (GIL) and where [predict], [shutdown] and [__exit__] hold it ([pymove]; [pystep] are
      the steps of programs whose calls of [stop] do not overlap).
    - [Deployed]: Python threads, binding, scheduler and ONNX engine composed.
    - [BenchTool]: tools/bench_engine.cpp: bucket parser, median and the whole of [main].

    The scheduler's theorems are proved for every engine that meets [EngineContract]; the
    stub, CUDA and ONNX engines each discharge it, so they compose.

    ** What the theorems show

    - Queue: order and exactly-once delivery, no lost wake-up, the dual batching trigger,
      progress, refinement of an abstract channel.
    - Scheduler: each row goes to its own request, a bad request fails alone, an engine
      failure reaches every caller, the counters are exact, the compare-and-swap loops
      end; as a system: every accepted request is accounted for in every reachable state,
      results are final, the worker survives, [stop] terminates with nothing left.
      Settling the promises and updating the counters of a batch one by one, with other
      threads in between, refines settling them in one step: a future that is ready holds
      the same in both systems. The counters are linearizable: at every moment they are
      the outcome of a sequence of instantaneous updates, each at one step of the run, which
      are exactly those the batches drained so far owe, in program order, and the resets in
      theirs. No interference keeps an iteration in its loops.
    - Lifecycle: concurrent calls of [start], and calls of [stop] that overlap no other
      call, behave like [System]'s single controlling thread: one worker, no race on the
      thread object; destroying the runtime, which stops twice, ends cleanly, with the worker
      joined and every accepted request resolved.
    - Liveness: in every fair run each accepted request is answered and [stop] returns, in
      [System] and access by access; a run is fair when the worker, pending notifications
      and time are not held up for ever.
    - Memory: blocks are owned once, counters are exact, buckets are least, destruction
      frees everything, raw buffers free exactly once, streams balance.
    - Engines: the normalize kernel is right under every interleaving; the CUDA and ONNX
      engines meet the contract; concurrent calls into one CUDA engine are isolated, do
      not deadlock and clean up, as long as no call fails while operations are queued; the two ONNX paths agree; the bound path's resources are
      freed whatever failed; construction establishes what the calls rely on.
    - Binding: each [predict] call returns its own row under its own id; end to end, with a
      model and the default geometry, the model's output for the caller's own image. The
      GIL is held wherever Python objects are touched and never while a call blocks in
      [submit], [future.get()] or [shutdown]; in every fair run each [predict] call
      returns, and no call deadlocks on the lock, [__exit__] included, which joins the
      worker while holding it.
    - Monitoring: a snapshot of the counters is well-formed however it is torn.
    - Benchmark tool: the parser is the split at commas and inverts printing, the median is
      a median, and [main] prints the report its clock readings determine.
    - Behaviour that departs from what the comments say or the code intends is stated too:
      a copy failure after the first row, the restart after a stop, a zero batch limit, the
      start of the batching window, stale padding rows, oversize batches without
      normalization, blocks released in flight (and with them the isolation of concurrent
      calls), leaked streams, an endless bucket loop, a
      geometry that the binding does not forward, overlapping calls of [stop] or of [start]
      and [stop], a benchmark row measured on another path than the one reported, and bucket
      arguments of the benchmark so large that buffer sizes wrap.

    ** Standing conditions

    Each theorem carries its conditions as hypotheses; those that recur are: the copies of
    result rows allocate ([alloc_ok] is constantly true; otherwise
    [Scheduler.copy_failure_after_first_row]); the batch limit is positive; for what is
    bound to happen, the worker was started (the runtime's constructor does that); for the
    CUDA engine, no launch, copy back or synchronization fails, that is, no call made while
    operations are queued ([CudaEngine.late_failure_releases_in_flight] and
    [CudaThreads.late_failure_breaks_isolation] show why); for the Python threads, calls
    that stop the scheduler do not overlap ([PythonCalls.stops_apart],
    [Lifecycle.overlapping_calls_break]); for the benchmark, buckets below 2^31
    ([BenchTool.bench_huge_bucket_undefined]).

    ** Code outside the sources

    The CUDA runtime and ONNX Runtime are arguments of the model: the answers of their
    calls, the pace of the device, the contents of fresh memory, the interleaving of kernel
    threads and the function a session computes. What is assumed of them is stated in the
    classes [CudaEngine.RuntimeOk] (fresh pointers, threads run in some interleaving) and
    [OnnxEngine.SessionOk] (rows of a batch are computed independently), each with an
    instance, and in [OnnxImpl.fresh_answers]. The benchmark tool's clock and random
    numbers are arguments too.

    ** Fuel and bounds

    [bucket_loop] runs on fuel 64: a 64-bit bucket that starts at 2^12 reaches 2^63 in 51
    doublings; that no fuel suffices beyond 2^63 is part of the theorem. [thread_indices]
    gets one unit per index below the total, and the stride is positive. [cas_max] consumes
    one entry of its environment per failed exchange. [parse_loop] gets one unit more than
    the string has characters, and every iteration but the last consumes a comma. All other
    recursion is structural.
    Sizes are 64-bit, kernel dimensions 32-bit; theorems carry explicit bounds where a
    product must not wrap, and theorems about counters are modulo 2^64 or bounded.

    ** Not modelled

    Failures of allocations other than the ones listed above (they end the process);
    relaxed memory ordering beyond the atomicity of single accesses; concurrent calls into
    one ONNX engine (its header makes no such promise, and the scheduler has one worker);
    deadlines that overflow the clock; the formatting of printed numbers; what happens
    after a race on the thread object (its being reachable is shown in [Lifecycle]; the
    Python threads of [PythonCalls] keep the discipline that excludes it); the conversions
    and registrations of pybind11; the Python layer, the tests and the
    compiler-identification files of the build tree. What is left of the C++ sources is
    declarations, comments and four empty kernel files. *)

From Stdlib Require Import ZArith Lia.
From stdpp Require Import base numbers relations gmap list.

(** ** Reduction *)

#[global] Arguments Z.max : simpl never.
#[global] Arguments Z.min : simpl never.

(** ** Tactics *)

(** [split_if]: case split on the first boolean or decidable test of the goal,
    turning integer comparisons into propositions. *)
Ltac bool_to_prop :=
  repeat match goal with
  | H : (_ && _)%bool = true |- _ => apply andb_true_iff in H; destruct H
  | H : (_ || _)%bool = false |- _ => apply orb_false_iff in H; destruct H
  | H : negb _ = true |- _ => apply negb_true_iff in H
  | H : negb _ = false |- _ => apply negb_false_iff in H
  | H : (_ <? _)%Z = true |- _ => apply Z.ltb_lt in H
  | H : (_ <? _)%Z = false |- _ => apply Z.ltb_ge in H
  | H : (_ <=? _)%Z = true |- _ => apply Z.leb_le in H
  | H : (_ <=? _)%Z = false |- _ => apply Z.leb_gt in H
  | H : (_ =? _)%Z = true |- _ => apply Z.eqb_eq in H
  | H : (_ =? _)%Z = false |- _ => apply Z.eqb_neq in H
  end.

Ltac split_if :=
  match goal with
  | |- context [if ?b then _ else _] => destruct b eqn:?; bool_to_prop
  | H : context [if ?b then _ else _] |- _ => destruct b eqn:?; bool_to_prop
  end.

(** ** Hint databases

    [serving] collects the length and arithmetic facts the components share,
    [inv] the preservation lemmas of the components' invariants. *)

Create HintDb serving discriminated.
Create HintDb inv discriminated.

(** ** Transition systems: reachability and invariants *)

Section Reachability.
Context {S : Type} (init : S → Prop) (step : S → S → Prop).

(** The states some run starting in an initial state goes through. *)
Definition reachable (s : S) : Prop := ∃ s0, init s0 ∧ rtc step s0 s.

Lemma reachable_init s : init s → reachable s.
Proof. intros H. exists s. split; [done | apply rtc_refl]. Qed.

Lemma reachable_step s s' : reachable s → step s s' → reachable s'.
Proof. intros (s0 & H0 & Hr) Hs. exists s0. split; [done | by eapply rtc_r]. Qed.

Lemma reachable_steps s s' : reachable s → rtc step s s' → reachable s'.
Proof. intros (s0 & H0 & Hr) Hs. exists s0. split; [done | by etrans]. Qed.

(** Rule induction: an inductive invariant holds in every reachable state. *)
Lemma invariant_reachable (I : S → Prop) :
  (∀ s, init s → I s) →
  (∀ s s', I s → step s s' → I s') →
  ∀ s, reachable s → I s.
Proof.
  intros Hi Hs s (s0 & H0 & Hr). apply Hi in H0.
  induction Hr as [|a b c Hab _ IH]; [done | eauto].
Qed.

(** The same with an invariant that may use a previously established one. *)
Lemma invariant_reachable_strong (J I : S → Prop) :
  (∀ s, reachable s → J s) →
  (∀ s, init s → I s) →
  (∀ s s', J s → J s' → I s → step s s' → I s') →
  ∀ s, reachable s → I s.
Proof.
  intros HJ Hi Hs s (s0 & H0 & Hr).
  assert (Hr0 : reachable s0) by by apply reachable_init.
  apply Hi in H0. revert Hr0 H0.
  induction Hr as [|a b c Hab Hbc IH]; intros Hra Ha; [done |].
  assert (reachable b) by (eapply reachable_step; eauto).
  apply IH; [done |]. exact (Hs a b (HJ _ Hra) (HJ _ H) Ha Hab).
Qed.
End Reachability.

(** ** Row-major buffers: slicing a concatenation of equal-length rows *)

Section Rows.
Context {A : Type}.
Implicit Types (ls : list (list A)) (l : list A).

Lemma length_concat_uniform ls k :
  Forall (λ r, length r = k) ls → length (concat ls) = length ls * k.
Proof. induction 1 as [|r ls Hr _ IH]; simpl; [done |]. rewrite length_app. lia. Qed.

(** Slice [i] of the concatenation is row [i]. *)
Lemma slice_concat_uniform ls k i r :
  Forall (λ r, length r = k) ls → ls !! i = Some r →
  take k (drop (i * k) (concat ls)) = r.
Proof.
  intros Hf. revert i. induction Hf as [|r0 ls Hr0 Hls IH]; intros i Hi; [done |].
  destruct i as [|i]; simpl in *.
  - simplify_eq. by rewrite drop_0, take_app_length.
  - rewrite drop_app_ge by lia. rewrite Hr0.
    replace (k + i * k - k) with (i * k) by lia. by apply IH.
Qed.

(** A buffer cut into [n] consecutive slices of length [k]. *)
Definition slices (n k : nat) (l : list A) : list (list A) :=
  (λ i, take k (drop (i * k) l)) <$> seq 0 n.

Lemma length_slices n k l : length (slices n k l) = n.
Proof. unfold slices. by rewrite length_fmap, length_seq. Qed.

Lemma lookup_slices n k l i :
  i < n → slices n k l !! i = Some (take k (drop (i * k) l)).
Proof.
  intros Hi. unfold slices. rewrite list_lookup_fmap.
  rewrite lookup_seq_lt by done. by simpl.
Qed.

Lemma slices_S n k l : slices (S n) k l = take k l :: slices n k (drop k l).
Proof.
  unfold slices. simpl. rewrite drop_0. f_equal.
  rewrite <- fmap_S_seq, <- list_fmap_compose.
  apply list_fmap_ext. intros j x _. simpl. by rewrite drop_drop.
Qed.

(** Slicing undoes concatenation. *)
Lemma slices_concat ls k :
  Forall (λ r, length r = k) ls → slices (length ls) k (concat ls) = ls.
Proof.
  induction 1 as [|r ls Hr Hls IH]; [done |].
  change (length (r :: ls)) with (S (length ls)). rewrite slices_S. simpl.
  rewrite take_app_length', drop_app_length' by done. by rewrite IH.
Qed.

Lemma slices_uniform n k l :
  length l = n * k → Forall (λ r, length r = k) (slices n k l).
Proof.
  revert l. induction n as [|n IH]; intros l Hl; [constructor |].
  rewrite slices_S. constructor; [rewrite length_take; lia |].
  apply IH. rewrite length_drop. lia.
Qed.

(** Concatenation undoes slicing. *)
Lemma concat_slices n k l : length l = n * k → concat (slices n k l) = l.
Proof.
  revert l. induction n as [|n IH]; intros l Hl.
  - by destruct l.
  - rewrite slices_S. simpl. rewrite IH by (rewrite length_drop; lia).
    apply take_drop.
Qed.

(** The first [m] slices only read the first [m * k] elements. *)
Lemma slices_app_l m k l l' :
  m * k ≤ length l → slices m k (l ++ l') = slices m k l.
Proof.
  revert l. induction m as [|m IH]; intros l Hl; [done |].
  rewrite !slices_S. rewrite take_app_le by lia. rewrite drop_app_le by lia.
  rewrite IH; [done |]. rewrite length_drop. lia.
Qed.

Lemma take_slices m n k l : m ≤ n → take m (slices n k l) = slices m k l.
Proof.
  intros Hmn. unfold slices. rewrite <- fmap_take. f_equal.
  rewrite take_seq. f_equal. lia.
Qed.
End Rows.

#[export] Hint Resolve length_slices slices_uniform : serving.

(** ** What the entries of a finite map own

    [map_values f m]: the parts [f] finds in the entries of [m], in some order. *)
Section MapValues.
Context `{Countable K} {A B : Type} (f : A → option B).
Implicit Types m : gmap K A.

Definition map_values m : list B := omap (λ o, f o.2) (map_to_list m).

Lemma map_values_insert k a m :
  m !! k = None → map_values (<[k := a]> m) ≡ₚ option_list (f a) ++ map_values m.
Proof. intros Hk. unfold map_values. rewrite map_to_list_insert by done. simpl. by destruct (f a). Qed.

Lemma map_values_delete k a m :
  m !! k = Some a → map_values m ≡ₚ option_list (f a) ++ map_values (delete k m).
Proof. intros Hk. rewrite <- map_values_insert by apply lookup_delete_eq. by rewrite insert_delete_id. Qed.

(** Overwriting an entry. *)
Lemma map_values_update k a m :
  map_values (<[k := a]> m) ≡ₚ option_list (f a) ++ map_values (delete k m).
Proof. rewrite <- insert_delete_eq. apply map_values_insert, lookup_delete_eq. Qed.

Lemma elem_of_map_values k a b m : m !! k = Some a → f a = Some b → b ∈ map_values m.
Proof. intros Hk Hb. rewrite (map_values_delete k a) by done. rewrite Hb. by left. Qed.
End MapValues.

(** A list re-indexed by an injection of its positions is a permutation of it. *)
Lemma Permutation_reindex {A} (l1 l2 : list A) (f : nat → nat) :
  length l1 = length l2 → (∀ i, (i < length l2)%nat → (f i < length l2)%nat) →
  (∀ i j, (i < length l2)%nat → (j < length l2)%nat → f i = f j → i = j) →
  (∀ i, (i < length l2)%nat → l1 !! i = l2 !! f i) → l1 ≡ₚ l2.
Proof.
  intros Hlen Hrange Hinj Heq. apply Permutation_inj. split; [done |].
  exists (λ i, if decide (i < length l2)%nat then f i else i). split.
  - intros i j. destruct (decide (i < _)%nat) as [Hi|Hi], (decide (j < _)%nat) as [Hj|Hj]; intros Hij; auto.
    + specialize (Hrange i Hi). lia.
    + specialize (Hrange j Hj). lia.
  - intros i. destruct (decide (i < _)%nat) as [Hi|Hi]; [by apply Heq |].
    rewrite !lookup_ge_None_2 by lia. done.
Qed.
