(* ===== verification/Machine.v ===== *)
(** * The C++ machine layer

    What every component uses of the language and its standard library:
    exceptions and undefined behaviour as an outcome monad, 64-bit unsigned and
    32-bit signed arithmetic with its wrap-around, IEEE-754 binary32/binary64
    arithmetic, [std::chrono] durations, and bounds-checked reads and writes of
    [std::vector] ranges. *)

From Stdlib Require Import ZArith Lia.
From Stdlib Require Import SpecFloat.
From stdpp Require Import base numbers strings list.
From S2P Require Import Prelude.

Open Scope Z_scope.

(** ** Exceptions and outcomes *)

Inductive future_errc := broken_promise | future_already_retrieved | promise_already_satisfied.

#[global] Instance future_errc_eq_dec : EqDecision future_errc.
Proof. solve_decision. Defined.

(** The exception types the sources throw or let through. *)
Inductive exn :=
  | InferenceError (what : string)
  | CudaError (what : string)
  | InvalidArgument (what : string)
  | OutOfRange (what : string)
  | LengthError (what : string)
  | RuntimeError (what : string)
  | ValueError (what : string)
  | OrtException (what : string)
  | BadAlloc
  | FutureError (code : future_errc).

#[global] Instance exn_eq_dec : EqDecision exn.
Proof. solve_decision. Defined.

(** A computation returns, throws, or has undefined behaviour (an access out of
    the range of a buffer). *)
Inductive outcome (A : Type) :=
  | Ret (a : A)
  | Throw (e : exn)
  | Undefined.
Arguments Ret {A} a.
Arguments Throw {A} e.
Arguments Undefined {A}.

#[global] Instance outcome_ret : MRet outcome := λ A a, Ret a.
#[global] Instance outcome_bind : MBind outcome := λ A B f m,
  match m with
  | Ret a => f a
  | Throw e => Throw e
  | Undefined => Undefined
  end.

Definition returns {A} (m : outcome A) : Prop := ∃ a, m = Ret a.

Lemma bind_Ret {A B} (m : outcome A) (f : A → outcome B) b :
  m ≫= f = Ret b ↔ ∃ a, m = Ret a ∧ f a = Ret b.
Proof.
  split.
  - destruct m as [a|e|]; simpl; intros H; [by exists a | done | done].
  - intros (a & -> & H). exact H.
Qed.

(** [fold_outcome f a l]: a loop over [l] whose body may throw. *)
Fixpoint fold_outcome {A B} (f : A → B → outcome A) (a : A) (l : list B) : outcome A :=
  match l with
  | [] => Ret a
  | b :: l => a' ← f a b; fold_outcome f a' l
  end.

Lemma fold_outcome_app {A B} (f : A → B → outcome A) a l1 l2 :
  fold_outcome f a (l1 ++ l2) = (a' ← fold_outcome f a l1; fold_outcome f a' l2).
Proof.
  revert a. induction l1 as [|b l1 IH]; intros a; simpl; [done |].
  destruct (f a b); simpl; [apply IH | done | done].
Qed.

(** ** Machine integers *)

Abbreviation two64 := 18446744073709551616 (only parsing).
Abbreviation two63 := 9223372036854775808 (only parsing).
Abbreviation two32 := 4294967296 (only parsing).
Abbreviation two31 := 2147483648 (only parsing).

(** [std::size_t] and [std::uint64_t]: arithmetic modulo 2^64. *)
Definition u64 (z : Z) : Z := z mod two64.
Definition is_u64 (z : Z) : Prop := 0 ≤ z < two64.

Definition u64_add (a b : Z) : Z := u64 (a + b).
Definition u64_sub (a b : Z) : Z := u64 (a - b).
Definition u64_mul (a b : Z) : Z := u64 (a * b).
Definition u64_shl1 (a : Z) : Z := u64 (Z.shiftl a 1).

(** [static_cast<int>] of a [std::size_t]: the low 32 bits in two's complement. *)
Definition i32 (z : Z) : Z := (z + two31) mod two32 - two31.

Lemma u64_range z : is_u64 (u64 z).
Proof. unfold is_u64, u64. apply Z.mod_pos_bound. lia. Qed.

Lemma u64_id z : is_u64 z → u64 z = z.
Proof. intros H. unfold u64. by apply Z.mod_small. Qed.

Lemma u64_mul_small a b : 0 ≤ a → 0 ≤ b → a * b < two64 → u64_mul a b = a * b.
Proof. intros. unfold u64_mul. apply u64_id. unfold is_u64. nia. Qed.

Lemma u64_add_small a b : 0 ≤ a → 0 ≤ b → a + b < two64 → u64_add a b = a + b.
Proof. intros. unfold u64_add. apply u64_id. unfold is_u64. lia. Qed.

Lemma u64_sub_small a b : 0 ≤ b ≤ a → a < two64 → u64_sub a b = a - b.
Proof. intros. unfold u64_sub. apply u64_id. unfold is_u64. lia. Qed.

(** A counter kept modulo 2^64 follows its exact value modulo 2^64. *)
Lemma u64_add_u64 a b : u64_add (u64 a) b = u64 (a + b).
Proof. unfold u64_add, u64. apply Zplus_mod_idemp_l. Qed.

Lemma u64_sub_u64 a b : u64_sub (u64 a) b = u64 (a - b).
Proof. unfold u64_sub, u64. apply Zminus_mod_idemp_l. Qed.

Lemma u64_shl1_small a : 0 ≤ a < two63 → u64_shl1 a = 2 * a.
Proof.
  intros. unfold u64_shl1. rewrite Z.shiftl_mul_pow2 by lia.
  change (2 ^ 1) with 2. rewrite u64_id; unfold is_u64; lia.
Qed.

Lemma i32_small z : 0 ≤ z < two31 → i32 z = z.
Proof. intros. unfold i32. rewrite Z.mod_small by lia. lia. Qed.

(** ** Floating point

    [float] is IEEE-754 binary32 and [double] binary64, both as Stdlib's
    executable specification floats; arithmetic rounds to nearest even, which is
    the mode of the host code and of CUDA's subtraction and division. NaNs carry
    no payload. *)

Definition float := spec_float.
Definition double := spec_float.

Definition f32_zero : float := S754_zero false.
Definition f32_sub : float → float → float := SFsub 24 128.
Definition f32_div : float → float → float := SFdiv 24 128.
(** [operator==]: signed zeros are equal, a NaN equals nothing. *)
Definition f32_eqb : float → float → bool := SFeqb.
(** The float nearest to the decimal literal [n / d]. *)
Definition f32_lit (n d : Z) : float :=
  f32_div (binary_normalize 24 128 n 0 false) (binary_normalize 24 128 d 0 false).

(** [static_cast<double>] of an unsigned integer, and double division. *)
Definition f64_of_u64 (z : Z) : double := binary_normalize 53 1024 z 0 false.
Definition f64_div : double → double → double := SFdiv 53 1024.
Definition f64_zero : double := S754_zero false.
Definition f64_add : double → double → double := SFadd 53 1024.
Definition f64_mul : double → double → double := SFmul 53 1024.
(** [operator<]: false when an operand is a NaN. *)
Definition f64_ltb : double → double → bool := SFltb.

#[global] Instance spec_float_eq_dec : EqDecision spec_float.
Proof. solve_decision. Defined.

(** ** State and exceptions

    Code that updates a state [S] and may throw; a throw keeps the updates made before. *)

Definition stepM (S A : Type) : Type := S → S * outcome A.

Definition retM {S A} (a : A) : stepM S A := λ s, (s, Ret a).
Definition liftM {S A} (o : outcome A) : stepM S A := λ s, (s, o).
Definition bindM {S A B} (m : stepM S A) (k : A → stepM S B) : stepM S B := λ s,
  match m s with
  | (s', Ret a) => k a s'
  | (s', Throw x) => (s', Throw x)
  | (s', Undefined) => (s', Undefined)
  end.

(** A loop over [l] that carries [a]. *)
Fixpoint foldS {S A B} (f : A → B → stepM S A) (a : A) (l : list B) : stepM S A :=
  match l with
  | [] => retM a
  | b :: l => bindM (f a b) (λ a', foldS f a' l)
  end.

Declare Scope engine_scope.
Delimit Scope engine_scope with engine.
Notation "x <- m ;; k" := (bindM m (λ x, k)) (at level 100, m at next level, right associativity) : engine_scope.
Notation "m ;; k" := (bindM m (λ _, k)) (at level 100, right associativity) : engine_scope.

(** ** [std::chrono]

    Time points and durations of [steady_clock] are counts of nanoseconds;
    [duration_cast] to microseconds truncates toward zero. *)

Definition ns_per_ms : Z := 1000000.
Definition duration_cast_us (ns : Z) : Z := Z.quot ns 1000.

Lemma duration_cast_us_nonneg ns : 0 ≤ ns → duration_cast_us ns = ns / 1000.
Proof. intros. unfold duration_cast_us. by rewrite Z.quot_div_nonneg by lia. Qed.

(** ** Vectors and raw ranges *)

Definition vec_size {A} (l : list A) : Z := Z.of_nat (length l).

(** [std::vector<float>::max_size()]: PTRDIFF_MAX / sizeof(float). *)
Definition vec_max_size : Z := 2305843009213693951.

Section Ranges.
Context {A : Type}.
Implicit Types l : list A.

(** [std::vector<T>(n, v)]. *)
Definition vec_fill (n : Z) (v : A) : outcome (list A) :=
  if vec_max_size <? n then Throw (LengthError "cannot create std::vector larger than max_size()")
  else Ret (replicate (Z.to_nat n) v).

(** Reading the [n] elements at [l.begin() + off]. *)
Definition read_range (l : list A) (off n : Z) : outcome (list A) :=
  if (0 <=? off) && (0 <=? n) && (off + n <=? vec_size l)
  then Ret (take (Z.to_nat n) (drop (Z.to_nat off) l))
  else Undefined.

(** Overwriting [l] from [l.begin() + off] on with [src]. *)
Definition write_range (l : list A) (off : Z) (src : list A) : outcome (list A) :=
  if (0 <=? off) && (off + vec_size src <=? vec_size l)
  then Ret (take (Z.to_nat off) l ++ src ++ drop (Z.to_nat off + length src) l)
  else Undefined.

Lemma vec_size_nonneg l : 0 ≤ vec_size l.
Proof. unfold vec_size. lia. Qed.

Lemma to_nat_vec_size l : Z.to_nat (vec_size l) = length l.
Proof. unfold vec_size. lia. Qed.

Lemma vec_size_app l1 l2 : vec_size (l1 ++ l2) = vec_size l1 + vec_size l2.
Proof. unfold vec_size. rewrite length_app. lia. Qed.

Lemma vec_size_replicate n (v : A) : 0 ≤ n → vec_size (replicate (Z.to_nat n) v) = n.
Proof. intros. unfold vec_size. rewrite length_replicate. lia. Qed.

Lemma read_range_Ret l off n :
  0 ≤ off → 0 ≤ n → off + n ≤ vec_size l →
  read_range l off n = Ret (take (Z.to_nat n) (drop (Z.to_nat off) l)).
Proof. intros. unfold read_range. split_if; [done |]. lia. Qed.

Lemma write_range_Ret l off src :
  0 ≤ off → off + vec_size src ≤ vec_size l →
  write_range l off src =
    Ret (take (Z.to_nat off) l ++ src ++ drop (Z.to_nat off + length src) l).
Proof. intros. unfold write_range. split_if; [done |]. lia. Qed.

Lemma write_range_length l off src l' :
  write_range l off src = Ret l' → length l' = length l.
Proof.
  unfold write_range, vec_size. split_if; intros; simplify_eq.
  rewrite !length_app, length_take, length_drop. lia.
Qed.
End Ranges.

#[export] Hint Resolve vec_size_nonneg u64_range : serving.
