(* ===== verification/Doubles.v ===== *)
(** * Doubles: order and absence of NaN

    What the statistics and the benchmark tool rely on: [operator<] is a total preorder on
    doubles other than NaN, and converting an integer or dividing by a non-zero number
    makes no NaN. *)

From Stdlib Require Import ZArith Lia SpecFloat.
From stdpp Require Import base numbers list.
From S2P Require Import Prelude Machine.

Definition is_nan (x : double) : bool := match x with S754_nan => true | _ => false end.

(** Finite and not zero. *)
Definition is_finite_nonzero (x : double) : bool := match x with S754_finite _ _ _ => true | _ => false end.

(** ** Order *)

(** The position of a number on the line, compared lexicographically. *)
Definition f64_key (x : double) : Z * Z * Z :=
  match x with
  | S754_nan => (0, 0, 0)
  | S754_zero _ => (0, 0, 0)
  | S754_infinity s => ((if s then -2 else 2), 0, 0)
  | S754_finite false m e => (1, e, Z.pos m)
  | S754_finite true m e => (-1, - e, Z.neg m)
  end.

Definition key_le (a b : Z * Z * Z) : Prop :=
  a.1.1 < b.1.1 ∨ a.1.1 = b.1.1 ∧ (a.1.2 < b.1.2 ∨ a.1.2 = b.1.2 ∧ a.2 ≤ b.2).

#[export] Instance key_le_trans : Transitive key_le.
Proof. intros [[a1 a2] a3] [[b1 b2] b3] [[c1 c2] c3]. unfold key_le. simpl. lia. Qed.

(** [!(y < x)] is the order of the keys. *)
Lemma f64_ltb_key x y :
  is_nan x = false → is_nan y = false → f64_ltb y x = false ↔ key_le (f64_key x) (f64_key y).
Proof.
  intros Hx Hy. unfold f64_ltb, SFltb, key_le.
  destruct x as [sx|sx| |sx mx ex], y as [sy|sy| |sy my ey]; try done; try destruct sx; try destruct sy; simpl;
    try (split; intros; try done; lia).
  all: destruct (Z.compare_spec ey ex); simpl; try (split; intros; try done; lia).
  all: change (Pos.compare_cont Eq my mx) with (my ?= mx)%positive; destruct (Pos.compare_spec my mx); simpl;
    split; intros; try done; lia.
Qed.

(** [not_after x y]: [y] is not less than [x], as [std::sort] leaves neighbours. *)
Definition not_after (x y : double) : Prop := f64_ltb y x = false.

#[export] Instance not_after_dec : RelDecision not_after.
Proof. intros x y. unfold not_after. apply _. Defined.

#[export] Instance not_after_total : Total not_after.
Proof.
  intros x y. unfold not_after. destruct (is_nan x) eqn:Hx.
  { left. destruct x; try done. unfold f64_ltb, SFltb. by destruct y. }
  destruct (is_nan y) eqn:Hy.
  { left. destruct y; try done. }
  rewrite !f64_ltb_key by done. unfold key_le. lia.
Qed.

Lemma not_after_trans x y z :
  is_nan x = false → is_nan y = false → is_nan z = false → not_after x y → not_after y z → not_after x z.
Proof. unfold not_after. intros ???. rewrite !f64_ltb_key by done. apply key_le_trans. Qed.

(** ** No NaN *)

Lemma iter_pos_inv {A} (P : A → Prop) (f : A → A) p x : (∀ y, P y → P (f y)) → P x → P (SpecFloat.iter_pos f p x).
Proof. intros Hf. revert x. induction p; simpl; auto. Qed.

Lemma shr_fexp_nonneg prec emax m e l : 0 ≤ m → 0 ≤ shr_m (shr_fexp prec emax m e l).1.
Proof.
  intros Hm. unfold shr_fexp, shr.
  assert (H0 : 0 ≤ shr_m (shr_record_of_loc m l)) by by destruct l as [|[]].
  destruct (_ - _); simpl; [done | | done].
  apply (iter_pos_inv (λ r, 0 ≤ shr_m r)); [| done].
  intros [[|[q|q|]|q] r s] Hr; simpl in *; lia.
Qed.

Lemma round_not_nan prec emax s m e l : 0 ≤ m → is_nan (binary_round_aux prec emax s m e l) = false.
Proof.
  intros Hm. unfold binary_round_aux.
  pose proof (shr_fexp_nonneg prec emax m e l Hm) as H1. destruct (shr_fexp prec emax m e l) as [mrs e1]. simpl in H1.
  set (m2 := round_nearest_even _ _).
  assert (H2 : 0 ≤ m2).
  { unfold m2, round_nearest_even. destruct (loc_of_shr_record mrs) as [|[]]; try lia. destruct (Z.even _); lia. }
  pose proof (shr_fexp_nonneg prec emax m2 e1 loc_Exact H2) as H3.
  destruct (shr_fexp prec emax m2 e1 loc_Exact) as [mrs2 e2]. simpl in H3.
  destruct (shr_m mrs2); [done | by destruct (_ <=? _) | lia].
Qed.

Lemma f64_of_u64_not_nan z : is_nan (f64_of_u64 z) = false.
Proof.
  unfold f64_of_u64, binary_normalize, binary_round. destruct z as [|p|p]; [done | |];
    destruct (shl_align _ _ _); by apply round_not_nan.
Qed.

Lemma f64_div_not_nan x y : is_nan x = false → is_finite_nonzero y = true → is_nan (f64_div x y) = false.
Proof.
  intros Hx Hy. destruct y as [| | |sy my ey]; try done. unfold f64_div.
  destruct x as [sx|sx| |sx mx ex]; try done. unfold SFdiv, SFdiv_core_binary.
  set (m' := match _ with Z0 => _ | Zpos _ => _ | Zneg _ => _ end).
  assert (Hm : 0 ≤ m').
  { unfold m'. destruct (_ - _ - _); [lia | apply Z.shiftl_nonneg; lia | lia]. }
  pose proof (Z.div_pos m' (Z.pos my) Hm ltac:(lia)) as Hq. unfold Z.div in Hq.
  destruct (Z.div_eucl m' (Z.pos my)) as [q r]. by apply round_not_nan.
Qed.

(** ** Conversion of 64-bit integers is exact enough to stay finite and non-zero *)

Lemma digits2_bounds p : 2 ^ (Z.pos (digits2_pos p) - 1) ≤ Z.pos p < 2 ^ Z.pos (digits2_pos p).
Proof.
  induction p as [p IH|p IH|]; simpl digits2_pos; [| | done].
  all: rewrite Pos2Z.inj_succ; unfold Z.succ; rewrite Z.add_simpl_r;
    replace (Z.pos (digits2_pos p)) with (Z.succ (Z.pos (digits2_pos p) - 1)) in IH |- * by lia;
    rewrite ?Z.pow_add_r, ?Z.pow_succ_r in * by lia; replace (Z.succ (Z.pos (digits2_pos p) - 1) - 1)
      with (Z.pos (digits2_pos p) - 1) in * by lia; lia.
Qed.

Lemma digits2_le p n : 0 ≤ n → Z.pos p < 2 ^ n → Z.pos (digits2_pos p) ≤ n.
Proof.
  intros Hn Hp. destruct (digits2_bounds p) as [Hlo _].
  assert (Hlt : 2 ^ (Z.pos (digits2_pos p) - 1) < 2 ^ n) by lia.
  apply Z.pow_lt_mono_r_iff in Hlt; lia.
Qed.

Lemma shr_1_half mrs : 0 ≤ shr_m mrs → shr_m (shr_1 mrs) = shr_m mrs / 2.
Proof.
  destruct mrs as [[|[p|p|]|p] r s]; simpl; intros; try done; try lia.
  - rewrite Pos2Z.inj_xI. apply (Z.div_unique _ _ _ 1); lia.
  - rewrite Pos2Z.inj_xO. apply (Z.div_unique _ _ _ 0); lia.
Qed.

Lemma shr_iter p mrs : 0 ≤ shr_m mrs → shr_m (SpecFloat.iter_pos shr_1 p mrs) = shr_m mrs / 2 ^ Z.pos p.
Proof.
  revert mrs. induction p as [p IH|p IH|]; intros mrs Hm; simpl SpecFloat.iter_pos.
  - pose proof (shr_1_half mrs Hm) as H1. assert (H2 : 0 ≤ shr_m (shr_1 mrs)) by (rewrite H1; apply Z.div_pos; lia).
    assert (H3 : 0 ≤ shr_m (SpecFloat.iter_pos shr_1 p (shr_1 mrs))) by (rewrite IH by done; apply Z.div_pos; lia).
    rewrite (IH _ H3), (IH _ H2), H1, !Z.div_div by lia. f_equal.
    rewrite Pos2Z.inj_xI. replace (2 * Z.pos p + 1) with (1 + Z.pos p + Z.pos p) by lia.
    rewrite !Z.pow_add_r by lia. lia.
  - assert (H3 : 0 ≤ shr_m (SpecFloat.iter_pos shr_1 p mrs)) by (rewrite IH by done; apply Z.div_pos; lia).
    rewrite (IH _ H3), (IH _ Hm), !Z.div_div by lia. f_equal. rewrite Pos2Z.inj_xO, <- Z.pow_add_r by lia. f_equal. lia.
  - by rewrite shr_1_half.
Qed.

(** Shifting a positive mantissa to the format's precision leaves it positive. *)
Lemma shr_fexp_pos m e l :
  0 < m → -1074 ≤ e →
  let '(mrs, e') := shr_fexp 53 1024 m e l in
  0 < shr_m mrs ≤ m ∧ -1074 ≤ e' ∧ (m < 2 ^ 65 → e' ≤ e + 12).
Proof.
  intros Hm He. destruct m as [|p|]; [lia | | lia]. unfold shr_fexp, shr, fexp, emin, Zdigits2.
  assert (Hr : shr_m (shr_record_of_loc (Z.pos p) l) = Z.pos p) by by destruct l as [|[]].
  destruct (digits2_bounds p) as [Hlo Hhi].
  destruct (Z.max _ _ - e) as [|k|k] eqn:Hk; rewrite ?Hr; [lia | | lia].
  rewrite shr_iter, Hr by (rewrite Hr; lia).
  assert (Hd : Z.pos k ≤ Z.pos (digits2_pos p) - 1) by lia.
  split_and!; [| | lia |].
  - apply Z.div_str_pos. split; [apply Z.pow_pos_nonneg; lia |]. etrans; [| exact Hlo]. apply Z.pow_le_mono_r; lia.
  - apply Z.div_le_upper_bound; [apply Z.pow_pos_nonneg; lia |].
    assert (0 < 2 ^ Z.pos k) by (apply Z.pow_pos_nonneg; lia). nia.
  - intros Hp. pose proof (digits2_le p 65 ltac:(lia) Hp). lia.
Qed.

Lemma round_finite s m e l :
  0 < m < 2 ^ 64 → -1074 ≤ e ≤ 100 → is_finite_nonzero (binary_round_aux 53 1024 s m e l) = true.
Proof.
  intros [Hm Hm64] [He He2]. unfold binary_round_aux.
  pose proof (shr_fexp_pos m e l Hm He) as H1. destruct (shr_fexp 53 1024 m e l) as [mrs e1].
  destruct H1 as ([Hm1 Hm1'] & He1 & Hb1). set (m2 := round_nearest_even _ _).
  assert (H2 : 0 < m2 ≤ m + 1).
  { unfold m2, round_nearest_even. destruct (loc_of_shr_record mrs) as [|[]]; try lia. destruct (Z.even _); lia. }
  pose proof (shr_fexp_pos m2 e1 loc_Exact ltac:(lia) He1) as H3.
  destruct (shr_fexp 53 1024 m2 e1 loc_Exact) as [mrs2 e2]. destruct H3 as ([Hm2 _] & _ & Hb2).
  destruct (shr_m mrs2); [lia | | lia]. by rewrite (proj2 (Z.leb_le _ _)) by lia.
Qed.

Lemma iter_xO p d : Z.pos (Pos.iter xO p d) = Z.pos p * 2 ^ Z.pos d.
Proof.
  revert p. induction d as [|d IH] using Pos.peano_ind; intros p; [simpl; lia |].
  rewrite Pos.iter_succ, Pos2Z.inj_xO, IH, Pos2Z.inj_succ, Z.pow_succ_r by lia. lia.
Qed.

Lemma f64_of_u64_finite z : 0 < z < two64 → is_finite_nonzero (f64_of_u64 z) = true.
Proof.
  intros Hz. unfold f64_of_u64, binary_normalize. destruct z as [|p|]; [lia | | lia].
  unfold binary_round, shl_align, fexp, emin. destruct (digits2_bounds p) as [Hlo Hhi].
  pose proof (digits2_le p 64 ltac:(lia) ltac:(lia)) as Hd.
  destruct (Z.max _ _ - 0) as [|k|k] eqn:Hk; [apply round_finite; lia | apply round_finite; lia |].
  apply round_finite; [| lia]. rewrite iter_xO. split; [lia |].
  assert (Hkd : Z.pos k = 53 - Z.pos (digits2_pos p)) by lia.
  apply Z.lt_le_trans with (2 ^ Z.pos (digits2_pos p) * 2 ^ Z.pos k).
  - apply Z.mul_lt_mono_pos_r; [apply Z.pow_pos_nonneg |]; lia.
  - rewrite <- Z.pow_add_r by lia. apply Z.pow_le_mono_r; lia.
Qed.
