(* ===== verification/Fairness.v ===== *)
(** * Infinite executions, fairness and leads-to

    What the liveness theorems of [Liveness] and [PythonCalls] are stated and proved with:
    an execution of a transition system is a sequence of states in which every step is a
    step of the system or a stutter, an action is treated fairly when it is taken or
    disabled again and again, and [leads_to] says that a state with one property is
    followed by a state with another. An [observed_run] is a run of one system watched
    through the states of another: the rules that hold of it are those of the other
    system's own fair executions, so what is derived from them holds of both. *)

From Stdlib Require Import ZArith Lia.
From stdpp Require Import base numbers relations.
From S2P Require Import Prelude.

Section Executions.
Context {S : Type}.
Implicit Types (e : nat → S) (P Q R I : S → Prop) (step act : S → S → Prop).

(** A run of the system, observed at every step of any of its parts; a part that is not
    observed may move while the state stays. *)
Definition execution step e : Prop := ∀ n, step (e n) (e (Datatypes.S n)) ∨ e (Datatypes.S n) = e n.

(** Weak fairness: from any point on the action is taken or not possible at some time. *)
Definition weakly_fair act e : Prop :=
  ∀ n, ∃ m, (n ≤ m)%nat ∧ (act (e m) (e (Datatypes.S m)) ∨ ∀ s', ¬ act (e m) s').

(** Strong fairness: the action is taken or at some time not possible any more. *)
Definition strongly_fair act e : Prop :=
  ∀ n, ∃ m, (n ≤ m)%nat ∧
    (act (e m) (e (Datatypes.S m)) ∨ ∀ k, (m ≤ k)%nat → ∀ s', ¬ act (e k) s').

(** Time passes every bound. *)
Definition diverges (clock : S → Z) e : Prop := ∀ n t, ∃ m, (n ≤ m)%nat ∧ (t ≤ clock (e m))%Z.

Definition leads_to e P Q : Prop := ∀ n, P (e n) → ∃ m, (n ≤ m)%nat ∧ Q (e m).

(** [P] holds until [Q] does, if ever. *)
Definition unless e P Q : Prop := ∀ n, P (e n) → P (e (Datatypes.S n)) ∨ Q (e (Datatypes.S n)).

#[export] Instance leads_to_preorder e : PreOrder (leads_to e).
Proof.
  split; [intros P n Hn; by exists n |]. intros P Q R HPQ HQR n Hn.
  destruct (HPQ n Hn) as (m & Hm & HQ). destruct (HQR m HQ) as (k & Hk & HR). exists k. split; [lia | done].
Qed.

Lemma leads_to_impl e P Q : (∀ n, P (e n) → Q (e n)) → leads_to e P Q.
Proof. intros H n Hn. exists n. auto. Qed.

Lemma leads_to_or e P Q R : leads_to e P R → leads_to e Q R → leads_to e (λ s, P s ∨ Q s) R.
Proof. intros HP HQ n [Hn|Hn]; auto. Qed.

Lemma leads_to_exists {A} e (P : A → S → Prop) Q :
  (∀ a, leads_to e (P a) Q) → leads_to e (λ s, ∃ a, P a s) Q.
Proof. intros H n [a Ha]. by apply (H a). Qed.

(** To reach [R] it is enough to reach it from the intermediate states. *)
Lemma leads_to_via e P Q R :
  leads_to e P (λ s, Q s ∨ R s) → leads_to e Q R → leads_to e P R.
Proof. intros HP HQ. etrans; [exact HP |]. apply leads_to_or; [done | by apply leads_to_impl]. Qed.

(** A measure that keeps decreasing until the goal. *)
Lemma leads_to_measure e P Q (f : S → nat) :
  (∀ k, leads_to e (λ s, P s ∧ f s = k) (λ s, (P s ∧ (f s < k)%nat) ∨ Q s)) → leads_to e P Q.
Proof.
  intros H n Hn. remember (f (e n)) as k eqn:Hk. revert n Hn Hk.
  induction (lt_wf k) as [k _ IH]. intros n Hn Hk.
  destruct (H k n (conj Hn (eq_sym Hk))) as (m & Hm & [[HP Hlt]|HQ]); [| by exists m].
  destruct (IH _ Hlt m HP eq_refl) as (j & Hj & HQ). exists j. split; [lia | done].
Qed.

(** Between two points either [P] lasts or what ends it happens. *)
Lemma persists (P A : nat → Prop) n m :
  (∀ k, P k → P (Datatypes.S k) ∨ A k) → P n → (n ≤ m)%nat → P m ∨ ∃ k, (n ≤ k < m)%nat ∧ A k.
Proof.
  intros HU Hn Hm. induction Hm as [|m Hm [IH|(k & Hk & HA)]]; [by left | |].
  - destruct (HU m IH); [by left | right]. exists m. split; [lia | done].
  - right. exists k. split; [lia | done].
Qed.

Lemma unless_until e P Q n m :
  unless e P Q → P (e n) → (n ≤ m)%nat → P (e m) ∨ ∃ k, (n ≤ k ≤ m)%nat ∧ Q (e k).
Proof.
  intros HU Hn Hm. destruct (persists (λ k, P (e k)) (λ k, Q (e (Datatypes.S k))) n m HU Hn Hm)
    as [|(k & Hk & HQ)]; [by left | right]. exists (Datatypes.S k). split; [lia | done].
Qed.

(** An invariant of the system holds along its executions. *)
Lemma execution_always step e I :
  execution step e → I (e 0%nat) → (∀ s s', I s → step s s' → I s') → ∀ n, I (e n).
Proof. intros He H0 HI n. induction n as [|n IH]; [done |]. destruct (He n) as [Hs| ->]; eauto. Qed.

Lemma execution_reachable init step e :
  execution step e → reachable init step (e 0%nat) → ∀ n, reachable init step (e n).
Proof. intros He H0. apply (execution_always step); [done | done |]. intros. by eapply reachable_step. Qed.

Section Ensures.
Context (step : S → S → Prop) (I : S → Prop) (e : nat → S).
Hypothesis (He : execution step e) (HI : ∀ n, I (e n)).

(** What every step keeps or turns into [Q] holds unless [Q]. *)
Lemma execution_unless P Q :
  (∀ s s', I s → I s' → P s → step s s' → P s' ∨ Q s') → unless e P Q.
Proof. intros H n Hn. destruct (He n) as [Hs| ->]; [| by left]. by eapply H. Qed.

Lemma unless_leads_to P Q (hit : nat → Prop) :
  unless e P Q → (∀ n, ∃ m, (n ≤ m)%nat ∧ hit m) →
  (∀ m, P (e m) → hit m → ∃ k, (m ≤ k)%nat ∧ Q (e k)) → leads_to e P Q.
Proof.
  intros HU Hhit Hact n Hn. destruct (Hhit n) as (m & Hm & Hh).
  destruct (unless_until e P Q n m HU Hn Hm) as [HP|(k & Hk & HQ)].
  - destruct (Hact m HP Hh) as (k & Hk & HQ). exists k. split; [lia | done].
  - exists k. split; [lia | done].
Qed.

(** A fair action that stays possible while [P] holds and establishes [Q] is taken. *)
Lemma ensures_leads_to act P Q :
  weakly_fair act e →
  (∀ s, I s → P s → ∃ s', act s s') →
  (∀ s s', I s → I s' → P s → act s s' → Q s') →
  (∀ s s', I s → I s' → P s → step s s' → P s' ∨ Q s') →
  leads_to e P Q.
Proof.
  intros Hfair Hen Hact Hstep.
  apply (unless_leads_to P Q (λ m, act (e m) (e (Datatypes.S m)) ∨ ∀ s', ¬ act (e m) s'));
    [by apply execution_unless | exact Hfair |].
  intros m HP [Ha|Hno].
  - exists (Datatypes.S m). split; [lia |]. by eapply Hact.
  - destruct (Hen (e m) (HI m) HP) as [s' Hs]. by destruct (Hno s').
Qed.

(** Waiting for the clock to reach [t]. *)
Lemma clock_leads_to clock P Q t :
  diverges clock e → (∀ s s', I s → I s' → P s → step s s' → P s' ∨ Q s') →
  leads_to e P (λ s, (P s ∧ (t ≤ clock s)%Z) ∨ Q s).
Proof.
  intros Hc Hstep n Hn. destruct (Hc n t) as (m & Hm & Ht).
  destruct (unless_until e P Q n m (execution_unless P Q Hstep) Hn Hm) as [HP|(k & Hk & HQ)].
  - exists m. auto.
  - exists k. split; [lia | by right].
Qed.

End Ensures.
End Executions.

(** ** Runs observed through another system *)

Section Observed.
Context {S A : Type} (view : S → A → Prop) (e : nat → S).
Context (inv : A → Prop) (step : A → A → Prop) (clock : A → Z).
Implicit Types (P Q R : A → Prop).

Definition seen P (s : S) : Prop := ∃ a, view s a ∧ P a.

(** Every step of the observed system keeps [P] or establishes [Q]. *)
Definition keeps P Q : Prop := ∀ a a', inv a → inv a' → P a → step a a' → P a' ∨ Q a'.

(** The rule of an action that is treated fairly. *)
Definition fair_rule (act : A → A → Prop) : Prop := ∀ P Q,
  (∀ a, inv a → P a → ∃ a', act a a') →
  (∀ a a', inv a → inv a' → P a → act a a' → Q a') →
  keeps P Q → leads_to e (seen P) (seen Q).

Record observed_run : Prop := {
  or_view : ∀ n, ∃ a, view (e n) a;
  or_inv : ∀ n a, view (e n) a → inv a;
  or_unless : ∀ P Q, keeps P Q → unless e (seen P) (seen Q);
  or_clock : ∀ n t, ∃ m, (n ≤ m)%nat ∧ ∀ a, view (e m) a → (t ≤ clock a)%Z
}.

Lemma seen_impl P Q : (∀ n a, view (e n) a → P a → Q a) → leads_to e (seen P) (seen Q).
Proof. intros H. apply leads_to_impl. intros n (a & Ha & HP). exists a. eauto. Qed.

Lemma seen_or P Q R :
  leads_to e (seen P) (seen R) → leads_to e (seen Q) (seen R) → leads_to e (seen (λ a, P a ∨ Q a)) (seen R).
Proof. intros HP HQ n (a & Ha & [H|H]); [apply HP | apply HQ]; by exists a. Qed.

Lemma seen_exists {B} (P : B → A → Prop) Q :
  (∀ b, leads_to e (seen (P b)) (seen Q)) → leads_to e (seen (λ a, ∃ b, P b a)) (seen Q).
Proof. intros H n (a & Ha & b & Hb). apply (H b). by exists a. Qed.

Lemma seen_via P Q R :
  leads_to e (seen P) (seen (λ a, Q a ∨ R a)) → leads_to e (seen Q) (seen R) → leads_to e (seen P) (seen R).
Proof. intros HP HQ. etrans; [exact HP |]. apply seen_or; [done | by apply seen_impl]. Qed.

(** A measure that keeps decreasing until the goal. *)
Lemma seen_measure P Q (f : A → nat) :
  (∀ k, leads_to e (seen (λ a, P a ∧ f a = k)) (seen (λ a, (P a ∧ (f a < k)%nat) ∨ Q a))) →
  leads_to e (seen P) (seen Q).
Proof.
  intros H n (a & Ha & HP). remember (f a) as k eqn:Hk. revert n a Ha HP Hk.
  induction (lt_wf k) as [k _ IH]. intros n a Ha HP Hk.
  destruct (H k n) as (m & Hm & b & Hb & [[HPb Hlt]|HQ]); [by exists a | | by exists m; split; [| exists b]].
  destruct (IH _ Hlt m b Hb HPb eq_refl) as (j & Hj & HQ). exists j. split; [lia | done].
Qed.

Lemma seen_clock P Q t :
  observed_run → keeps P Q → leads_to e (seen P) (seen (λ a, (P a ∧ (t ≤ clock a)%Z) ∨ Q a)).
Proof.
  intros HR HK n Hn. destruct (or_clock HR n t) as (m & Hm & Ht).
  destruct (unless_until e _ _ n m (or_unless HR P Q HK) Hn Hm) as [(a & Ha & HP)|(k & Hk & a & Ha & HQ)].
  - exists m. split; [done |]. exists a. auto.
  - exists k. split; [lia |]. exists a. auto.
Qed.
End Observed.

(** A fair execution, observed as it is. *)
Section Itself.
Context {A : Type} (e : nat → A) (inv : A → Prop) (step : A → A → Prop) (clock : A → Z).
Hypothesis (He : execution step e) (HI : ∀ n, inv (e n)).

Lemma seen_itself (P : A → Prop) a : seen eq P a ↔ P a.
Proof. split; [by intros (? & <- & H) | by exists a]. Qed.

Lemma leads_to_itself P Q : leads_to e (seen eq P) (seen eq Q) ↔ leads_to e P Q.
Proof. unfold leads_to. by setoid_rewrite seen_itself. Qed.

Lemma itself_observed : diverges clock e → observed_run eq e inv step clock.
Proof.
  intros Hc. split.
  - intros n. by exists (e n).
  - by intros n a <-.
  - intros P Q HK n (? & <- & HP). destruct (He n) as [Hs| ->]; [| left; by exists (e n)].
    destruct (HK (e n) (e (S n)) (HI _) (HI _) HP Hs); [left | right]; by exists (e (S n)).
  - intros n t. destruct (Hc n t) as (m & Hm & Ht). exists m. split; [done |]. by intros a <-.
Qed.

Lemma itself_fair act : weakly_fair act e → fair_rule eq e inv step act.
Proof.
  intros Hf P Q Hen Hact HK. apply leads_to_itself.
  by apply (ensures_leads_to step inv e He HI act P Q Hf Hen Hact).
Qed.
End Itself.
