(* ===== verification/Request.v ===== *)
(** * Requests, results and their promises

    [InferenceRequest] and [InferenceResult] as src/cpp/include/cuda_db/scheduler/
    declares them. The [std::promise] inside a request is a handle on a shared
    state that the future returned to the caller also refers to; the shared
    states live in a store, so that moving a request moves only the handle. *)

From Stdlib Require Import ZArith Lia.
From stdpp Require Import base numbers strings gmap list.
From S2P Require Import Prelude Machine.

Record InferenceResult := {
  res_request_id : Z;
  logits : list float
}.

(** Handle of a promise's shared state. *)
Abbreviation promise := positive (only parsing).

Record InferenceRequest := {
  request_id : Z;
  input_data : list float;
  arrival_time : Z;
  result_promise : promise
}.

(** What a shared state holds. *)
Inductive future_state :=
  | Pending
  | Value (r : InferenceResult)
  | Failed (e : exn).

Record shared_state := {
  future_retrieved : bool;
  state : future_state
}.

Abbreviation pstore := (gmap positive shared_state).

#[global] Instance InferenceResult_eq_dec : EqDecision InferenceResult.
Proof. solve_decision. Defined.
#[global] Instance InferenceRequest_eq_dec : EqDecision InferenceRequest.
Proof. solve_decision. Defined.
#[global] Instance future_state_eq_dec : EqDecision future_state.
Proof. solve_decision. Defined.

(** ** [std::promise] operations *)

Definition new_promise (p : promise) (ps : pstore) : pstore :=
  <[p := {| future_retrieved := false; state := Pending |}]> ps.

(** [promise::get_future]: one future per promise. *)
Definition get_future (p : promise) (ps : pstore) : outcome pstore :=
  match ps !! p with
  | Some s =>
      if future_retrieved s then Throw (FutureError future_already_retrieved)
      else Ret (<[p := {| future_retrieved := true; state := state s |}]> ps)
  | None => Undefined
  end.

(** [promise::set_value] and [promise::set_exception]: a shared state is made
    ready at most once. *)
Definition make_ready (f : future_state) (p : promise) (ps : pstore) : outcome pstore :=
  match ps !! p with
  | Some s =>
      match state s with
      | Pending => Ret (<[p := {| future_retrieved := future_retrieved s; state := f |}]> ps)
      | _ => Throw (FutureError promise_already_satisfied)
      end
  | None => Undefined
  end.

Definition set_value (p : promise) (r : InferenceResult) : pstore → outcome pstore :=
  make_ready (Value r) p.
Definition set_exception (p : promise) (e : exn) : pstore → outcome pstore :=
  make_ready (Failed e) p.

(** [future::get] on a shared state: blocks ([None]) while it is pending. *)
Definition future_get (p : promise) (ps : pstore) : option (outcome InferenceResult) :=
  match state <$> ps !! p with
  | Some (Value r) => Some (Ret r)
  | Some (Failed e) => Some (Throw e)
  | _ => None
  end.

(** ** Facts *)

Definition state_of (ps : pstore) (p : promise) : option future_state := state <$> ps !! p.

Definition pending (ps : pstore) (p : promise) : Prop := state_of ps p = Some Pending.

Lemma make_ready_Ret f p ps :
  pending ps p → ∃ ps', make_ready f p ps = Ret ps' ∧ state_of ps' p = Some f ∧
    (∀ p', p' ≠ p → ps' !! p' = ps !! p').
Proof.
  unfold pending, state_of, make_ready. intros H.
  destruct (ps !! p) as [s|]; simpl in *; simplify_eq. rewrite H.
  eexists. split; [done |]. split; [by rewrite lookup_insert_eq |].
  intros. by rewrite lookup_insert_ne.
Qed.

Lemma make_ready_inv f p ps ps' :
  make_ready f p ps = Ret ps' →
  pending ps p ∧ state_of ps' p = Some f ∧ (∀ p', p' ≠ p → ps' !! p' = ps !! p').
Proof.
  intros H. destruct (ps !! p) as [s|] eqn:E; [| unfold make_ready in H; by rewrite E in H].
  destruct (state s) eqn:Es.
  - assert (Hp : pending ps p) by (unfold pending, state_of; by rewrite E; simpl; rewrite Es).
    destruct (make_ready_Ret f p ps Hp) as (ps1 & H1 & H2 & H3).
    rewrite H in H1. by simplify_eq.
  - unfold make_ready in H. by rewrite E, Es in H.
  - unfold make_ready in H. by rewrite E, Es in H.
Qed.

Lemma make_ready_other f p ps ps' p' :
  make_ready f p ps = Ret ps' → p' ≠ p → state_of ps' p' = state_of ps p'.
Proof.
  intros H Hne. apply make_ready_inv in H as (_ & _ & H). unfold state_of. by rewrite H.
Qed.

(** A satisfied promise cannot be satisfied again. *)
Lemma make_ready_twice f g p ps ps' :
  make_ready f p ps = Ret ps' → f ≠ Pending →
  make_ready g p ps' = Throw (FutureError promise_already_satisfied).
Proof.
  intros H Hf. apply make_ready_inv in H as (_ & H & _).
  unfold state_of in H. unfold make_ready.
  destruct (ps' !! p) as [s|]; simpl in *; simplify_eq. by destruct (state s).
Qed.

(** ** A ready shared state stays as it is *)

Definition store_le (ps ps' : pstore) : Prop :=
  ∀ p f, state_of ps p = Some f → f ≠ Pending → state_of ps' p = Some f.

#[export] Instance store_le_preorder : PreOrder store_le.
Proof. split; [by intros ps p f | intros ps1 ps2 ps3 H1 H2 p f Hf Hne; auto]. Qed.

Lemma make_ready_le f p ps ps' : make_ready f p ps = Ret ps' → store_le ps ps'.
Proof.
  intros H p' g Hg Hne. apply make_ready_inv in H as (Hp & _ & Hfr). unfold pending in Hp.
  destruct (decide (p' = p)) as [->|Hd]; [congruence |]. unfold state_of in *. by rewrite Hfr.
Qed.

Lemma new_promise_le p ps : ps !! p = None → store_le ps (new_promise p ps).
Proof.
  intros Hp q f Hf _. unfold new_promise, state_of in *. rewrite lookup_insert_ne; [done |].
  intros ->. by rewrite Hp in Hf.
Qed.

Lemma get_future_le p ps ps' : get_future p ps = Ret ps' → store_le ps ps'.
Proof.
  unfold get_future. destruct (ps !! p) as [sh|] eqn:Hp; [| done]. destruct (future_retrieved sh); [done |].
  intros [= <-] q f Hf _. unfold state_of in *. destruct (decide (q = p)) as [->|Hd].
  - rewrite lookup_insert_eq. by rewrite Hp in Hf.
  - by rewrite lookup_insert_ne.
Qed.
Lemma set_value_le p r ps ps' : set_value p r ps = Ret ps' → store_le ps ps'.
Proof. apply make_ready_le. Qed.

Lemma set_exception_le p e ps ps' : set_exception p e ps = Ret ps' → store_le ps ps'.
Proof. apply make_ready_le. Qed.

#[export] Hint Resolve set_value_le set_exception_le new_promise_le get_future_le : serving.
