(* ===== verification/RequestQueue.v ===== *)
(** * RequestQueue (src/cpp/src/scheduler/request_queue.cpp)

    The deque behind a mutex and a condition variable that producers push into
    and the scheduler's worker drains in batches.

    Granularity: the mutex makes every critical section atomic, so one
    definition runs a thread from acquiring [mutex_] to releasing it. [push] and
    [shutdown] release the mutex before they notify, which is a separate step of
    the transition system ([signals] counts the notifications still to be
    issued). [wait_step] is the consumer's side: from entry or wake-up until the
    next wait on [cv_] or the return. Waking up may be due to a notification, to
    the timeout, or spurious. *)

From Stdlib Require Import ZArith Lia.
From stdpp Require Import base numbers strings relations gmap list.
From S2P Require Import Prelude Machine Request.

Record RequestQueue := {
  queue_ : list InferenceRequest;
  stop_requested_ : bool
}.

Definition empty_queue : RequestQueue := {| queue_ := []; stop_requested_ := false |}.

(** ** Operations *)

Definition push (q : RequestQueue) (r : InferenceRequest) : RequestQueue * bool :=
  if stop_requested_ q then (q, false)
  else ({| queue_ := queue_ q ++ [r]; stop_requested_ := stop_requested_ q |}, true).

Definition shutdown (q : RequestQueue) : RequestQueue :=
  {| queue_ := queue_ q; stop_requested_ := true |}.

Definition size (q : RequestQueue) : Z := vec_size (queue_ q).

Definition queue_empty (q : RequestQueue) : bool :=
  match queue_ q with [] => true | _ => false end.

(** The two wait predicates of [wait_and_drain]. *)
Definition phase1_ready (q : RequestQueue) : bool := negb (queue_empty q) || stop_requested_ q.
Definition phase2_ready (max_batch_size : Z) (q : RequestQueue) : bool :=
  (max_batch_size <=? size q) || stop_requested_ q.

(** The drain loop: [n] times move the front of the deque to the batch. *)
Fixpoint drain_loop (n : nat) (batch : list InferenceRequest) (q : RequestQueue) :
  RequestQueue * list InferenceRequest :=
  match n with
  | O => (q, batch)
  | S n =>
      match queue_ q with
      | [] => (q, batch)
      | r :: rest =>
          drain_loop n (batch ++ [r]) {| queue_ := rest; stop_requested_ := stop_requested_ q |}
      end
  end.

Definition drain (max_batch_size : Z) (q : RequestQueue) : RequestQueue * list InferenceRequest :=
  drain_loop (Z.to_nat (Z.min max_batch_size (size q))) [] q.

(** Where the consumer is inside [wait_and_drain]: about to lock, waiting in
    phase 1, waiting in phase 2 until a deadline (each with the flag that a
    notification has reached it), or returning a batch. *)
Inductive drain_pc :=
  | Entering
  | Parked (notified : bool)
  | Window (deadline : Z) (notified : bool)
  | Drained (batch : list InferenceRequest).

(** From the end of phase 1 on, at time [now]. *)
Definition open_window (max_batch_size timeout now : Z) (q : RequestQueue) : RequestQueue * drain_pc :=
  if queue_empty q then (q, Drained [])
  else if (0 <? timeout) && negb (phase2_ready max_batch_size q)
  then (q, Window (now + timeout * ns_per_ms) false)
  else let '(q', batch) := drain max_batch_size q in (q', Drained batch).

(** [wait_and_drain] from acquiring the mutex until it is released. [timeout] is
    in milliseconds, [now] in nanoseconds. *)
Definition wait_step (max_batch_size timeout now : Z) (q : RequestQueue) (pc : drain_pc) :
  RequestQueue * drain_pc :=
  match pc with
  | Entering | Parked _ =>
      if phase1_ready q then open_window max_batch_size timeout now q else (q, Parked false)
  | Window deadline _ =>
      if phase2_ready max_batch_size q || (deadline <=? now)
      then let '(q', batch) := drain max_batch_size q in (q', Drained batch)
      else (q, Window deadline false)
  | Drained _ => (q, pc)
  end.

(** [notify_one] / [notify_all] with the single consumer as the only waiter. *)
Definition notify (pc : drain_pc) : drain_pc :=
  match pc with
  | Parked _ => Parked true
  | Window d _ => Window d true
  | _ => pc
  end.

(** Whether the consumer can run without a spurious wake-up. *)
Definition runnable (now : Z) (pc : drain_pc) : bool :=
  match pc with
  | Entering => true
  | Parked notified => notified
  | Window deadline notified => notified || (deadline <=? now)
  | Drained _ => false
  end.

(** What the consumer holds but has not handed over. *)
Definition in_hand (pc : drain_pc) : list InferenceRequest :=
  match pc with Drained b => b | _ => [] end.

(** ** The drain loop is a split of the deque *)

Lemma drain_loop_spec n b q :
  drain_loop n b q =
    ({| queue_ := drop n (queue_ q); stop_requested_ := stop_requested_ q |}, b ++ take n (queue_ q)).
Proof.
  revert b q. induction n as [|n IH]; intros b [l s]; simpl.
  - by rewrite app_nil_r.
  - destruct l as [|r l]; simpl; [by rewrite app_nil_r |].
    rewrite IH. simpl. by rewrite <- app_assoc.
Qed.

Lemma drain_spec m q :
  drain m q = ({| queue_ := drop (Z.to_nat m) (queue_ q); stop_requested_ := stop_requested_ q |},
               take (Z.to_nat m) (queue_ q)).
Proof.
  unfold drain, size, vec_size. rewrite drain_loop_spec. simpl.
  destruct (Z.le_gt_cases m (Z.of_nat (length (queue_ q)))) as [Hle|Hgt].
  - by rewrite Z.min_l.
  - rewrite Z.min_r by lia. rewrite Nat2Z.id.
    by rewrite !firstn_all, !drop_all, (take_ge _ (Z.to_nat m)), (drop_ge _ (Z.to_nat m)) by lia.
Qed.

Lemma push_accepted q r q' :
  push q r = (q', true) →
  stop_requested_ q = false ∧ q' = {| queue_ := queue_ q ++ [r]; stop_requested_ := false |}.
Proof. unfold push. destruct (stop_requested_ q); intros; by simplify_eq. Qed.

Lemma push_refused q r q' : push q r = (q', false) → stop_requested_ q = true ∧ q' = q.
Proof. unfold push. destruct (stop_requested_ q); intros; by simplify_eq. Qed.

Lemma queue_empty_true q : queue_empty q = true ↔ queue_ q = [].
Proof. unfold queue_empty. by destruct (queue_ q). Qed.

Lemma queue_empty_false q : queue_empty q = false ↔ queue_ q ≠ [].
Proof. unfold queue_empty. by destruct (queue_ q). Qed.

(** Every critical section of the consumer splits the deque: what it returns
    followed by what it leaves is what it found; the stop flag is not touched. *)
Lemma wait_step_split m t now q pc q' pc' :
  wait_step m t now q pc = (q', pc') →
  in_hand pc ++ queue_ q = in_hand pc' ++ queue_ q' ∧ stop_requested_ q' = stop_requested_ q.
Proof.
  unfold wait_step, open_window. rewrite drain_spec.
  destruct pc; repeat split_if; intros; simplify_eq/=; rewrite ?take_drop; done.
Qed.

(** ** The concurrent queue as a transition system *)

(** The shared queue, the clock, the consumer, the notifications that producers
    and [shutdown] have still to issue, and three history variables: the
    requests [push] accepted, those the consumer has handed over, and the time
    at which the consumer last left phase 1. *)
Record qsys := {
  qs_queue : RequestQueue;
  qs_now : Z;
  qs_consumer : drain_pc;
  qs_signals : nat;
  qs_accepted : list InferenceRequest;
  qs_delivered : list InferenceRequest;
  qs_opened : Z
}.

Definition qs_init (now : Z) : qsys :=
  {| qs_queue := empty_queue; qs_now := now; qs_consumer := Entering; qs_signals := 0;
     qs_accepted := []; qs_delivered := []; qs_opened := now |}.

Section QueueSystem.
Variables (max_batch_size timeout : Z).

(** The critical section of the consumer, as a function on the system. *)
Definition run_consumer (s : qsys) : qsys :=
  let '(q, pc) := wait_step max_batch_size timeout (qs_now s) (qs_queue s) (qs_consumer s) in
  {| qs_queue := q; qs_now := qs_now s; qs_consumer := pc; qs_signals := qs_signals s;
     qs_accepted := qs_accepted s; qs_delivered := qs_delivered s;
     qs_opened := match qs_consumer s with
                  | Entering | Parked _ => qs_now s
                  | _ => qs_opened s
                  end |}.

Inductive qstep : qsys → qsys → Prop :=
  | qs_tick s d : 0 ≤ d →
      qstep s {| qs_queue := qs_queue s; qs_now := qs_now s + d; qs_consumer := qs_consumer s;
                 qs_signals := qs_signals s; qs_accepted := qs_accepted s;
                 qs_delivered := qs_delivered s; qs_opened := qs_opened s |}
  | qs_push s r q : push (qs_queue s) r = (q, true) →
      qstep s {| qs_queue := q; qs_now := qs_now s; qs_consumer := qs_consumer s;
                 qs_signals := S (qs_signals s); qs_accepted := qs_accepted s ++ [r];
                 qs_delivered := qs_delivered s; qs_opened := qs_opened s |}
  | qs_push_rejected s r q : push (qs_queue s) r = (q, false) →
      qstep s {| qs_queue := q; qs_now := qs_now s; qs_consumer := qs_consumer s;
                 qs_signals := qs_signals s; qs_accepted := qs_accepted s;
                 qs_delivered := qs_delivered s; qs_opened := qs_opened s |}
  | qs_shutdown s :
      qstep s {| qs_queue := shutdown (qs_queue s); qs_now := qs_now s;
                 qs_consumer := qs_consumer s; qs_signals := S (qs_signals s);
                 qs_accepted := qs_accepted s; qs_delivered := qs_delivered s;
                 qs_opened := qs_opened s |}
  | qs_signal s n : qs_signals s = S n →
      qstep s {| qs_queue := qs_queue s; qs_now := qs_now s;
                 qs_consumer := notify (qs_consumer s); qs_signals := n;
                 qs_accepted := qs_accepted s; qs_delivered := qs_delivered s;
                 qs_opened := qs_opened s |}
  | qs_run s : runnable (qs_now s) (qs_consumer s) = true → qstep s (run_consumer s)
  | qs_spurious s : runnable (qs_now s) (qs_consumer s) = false → qstep s (run_consumer s)
  | qs_handover s b : qs_consumer s = Drained b →
      qstep s {| qs_queue := qs_queue s; qs_now := qs_now s; qs_consumer := Entering;
                 qs_signals := qs_signals s; qs_accepted := qs_accepted s;
                 qs_delivered := qs_delivered s ++ b; qs_opened := qs_opened s |}.

Definition qreachable : qsys → Prop := reachable (λ s, ∃ now, s = qs_init now) qstep.

(** The steps that need neither a producer nor a spurious wake-up: time passes,
    issued notifications arrive, the consumer runs when it can. *)
Inductive qprogress : qsys → qsys → Prop :=
  | qp_tick s s' d : 0 ≤ d → qs_now s + d ≤ qs_opened s + timeout * ns_per_ms →
      s' = {| qs_queue := qs_queue s; qs_now := qs_now s + d; qs_consumer := qs_consumer s;
              qs_signals := qs_signals s; qs_accepted := qs_accepted s;
              qs_delivered := qs_delivered s; qs_opened := qs_opened s |} →
      qprogress s s'
  | qp_signal s s' n : qs_signals s = S n →
      s' = {| qs_queue := qs_queue s; qs_now := qs_now s;
              qs_consumer := notify (qs_consumer s); qs_signals := n;
              qs_accepted := qs_accepted s; qs_delivered := qs_delivered s;
              qs_opened := qs_opened s |} →
      qprogress s s'
  | qp_run s : runnable (qs_now s) (qs_consumer s) = true → qprogress s (run_consumer s).

(** *** Invariants *)

Definition fifo_inv (s : qsys) : Prop :=
  qs_accepted s = qs_delivered s ++ in_hand (qs_consumer s) ++ queue_ (qs_queue s).

(** A consumer asleep with its predicate true has a notification under way. *)
Definition wakeup_inv (s : qsys) : Prop :=
  match qs_consumer s with
  | Parked false => phase1_ready (qs_queue s) = true → (0 < qs_signals s)%nat
  | Window _ false => phase2_ready max_batch_size (qs_queue s) = true → (0 < qs_signals s)%nat
  | _ => True
  end.

(** The batching window and what a returned batch looks like. *)
Definition window_inv (s : qsys) : Prop :=
  qs_opened s ≤ qs_now s ∧
  match qs_consumer s with
  | Window d _ => d = qs_opened s + timeout * ns_per_ms ∧ queue_ (qs_queue s) ≠ [] ∧ 0 < timeout
  | Drained b =>
      vec_size b ≤ Z.max 0 max_batch_size ∧
      (b = [] → max_batch_size ≤ 0 ∨
                (stop_requested_ (qs_queue s) = true ∧ queue_ (qs_queue s) = [])) ∧
      (b ≠ [] → vec_size b = max_batch_size ∨ stop_requested_ (qs_queue s) = true ∨ timeout ≤ 0 ∨
                qs_opened s + timeout * ns_per_ms ≤ qs_now s)
  | _ => True
  end.

Lemma fifo_inv_step s s' : fifo_inv s → qstep s s' → fifo_inv s'.
Proof.
  unfold fifo_inv. intros HI Hstep.
  assert (Hrun : fifo_inv (run_consumer s)).
  { unfold run_consumer, fifo_inv.
    destruct (wait_step _ _ _ _ _) as [q pc] eqn:E.
    apply wait_step_split in E as [E _]. simpl. by rewrite HI, E. }
  destruct Hstep as [s d ?|s r q Hp|s r q Hp|s|s n ?|s ?|s ?|s b Hb]; simpl in *; try done.
  - apply push_accepted in Hp as [_ ->]. simpl. by rewrite HI, !app_assoc.
  - by apply push_refused in Hp as [_ ->].
  - by destruct (qs_consumer s).
  - rewrite HI, Hb. simpl. by rewrite app_assoc.
Qed.

(** Going to sleep re-checks the predicate under the mutex. *)
Lemma wakeup_inv_run s : wakeup_inv (run_consumer s).
Proof.
  unfold wakeup_inv, run_consumer, wait_step, open_window. rewrite drain_spec.
  destruct (qs_consumer s); repeat split_if; simpl; try done; try congruence.
Qed.

Lemma wakeup_inv_step s s' : wakeup_inv s → qstep s s' → wakeup_inv s'.
Proof.
  intros HI Hstep. destruct Hstep; try apply wakeup_inv_run; unfold wakeup_inv in *; simpl; try done.
  - destruct (qs_consumer s) as [|[]|? []|]; auto with lia.
  - match goal with H : push _ _ = _ |- _ => apply push_refused in H as [_ ->] end. done.
  - destruct (qs_consumer s) as [|[]|? []|]; auto with lia.
  - by destruct (qs_consumer s).
Qed.

(** What a drain returns. *)
Lemma drain_batch m q :
  vec_size (drain m q).2 ≤ Z.max 0 m ∧
  (queue_ q ≠ [] → 0 < m → (drain m q).2 ≠ []) ∧
  (m ≤ size q → 0 ≤ m → vec_size (drain m q).2 = m).
Proof.
  rewrite drain_spec. unfold vec_size, size, vec_size. simpl. rewrite length_take.
  repeat split; [lia | | lia].
  intros Hq Hm. destruct (queue_ q) as [|r l]; [done |].
  destruct (Z.to_nat m) eqn:E; [lia | done].
Qed.

Lemma window_inv_drained s q b :
  qs_opened s ≤ qs_now s → queue_ (qs_queue s) ≠ [] →
  phase2_ready max_batch_size (qs_queue s) = true ∨ timeout ≤ 0 ∨
    qs_opened s + timeout * ns_per_ms ≤ qs_now s →
  drain max_batch_size (qs_queue s) = (q, b) →
  window_inv {| qs_queue := q; qs_now := qs_now s; qs_consumer := Drained b;
                qs_signals := qs_signals s; qs_accepted := qs_accepted s;
                qs_delivered := qs_delivered s; qs_opened := qs_opened s |}.
Proof.
  intros Hle Hne Hwhy Hd. pose proof (drain_batch max_batch_size (qs_queue s)) as (H1 & H2 & H3).
  rewrite Hd in H1, H2, H3. simpl in *.
  assert (Hs : stop_requested_ q = stop_requested_ (qs_queue s)).
  { rewrite drain_spec in Hd. by simplify_eq. }
  split; [done |]. simpl. split; [done |]. split.
  - intros ->. destruct (Z.le_gt_cases max_batch_size 0); [by left |]. by destruct H2.
  - intros Hb. rewrite Hs. unfold phase2_ready in Hwhy.
    destruct Hwhy as [Hw|[Hw|Hw]]; [| tauto | tauto].
    apply orb_true_iff in Hw as [Hw|Hw]; [| tauto]. bool_to_prop.
    destruct (Z.le_gt_cases 0 max_batch_size); [left; auto |].
    exfalso. apply Hb. destruct b; [done |]. unfold vec_size in H1. simpl in H1. lia.
Qed.

Lemma window_inv_run s : window_inv s → window_inv (run_consumer s).
Proof.
  intros [Hle HI]. unfold run_consumer, wait_step, open_window.
  destruct (qs_consumer s) as [|b|d b|b] eqn:Ec.
  1,2: destruct (phase1_ready (qs_queue s)) eqn:Hp1; [| by split];
    destruct (queue_empty (qs_queue s)) eqn:He;
    [ split; simpl; [lia |]; split; [unfold vec_size; simpl; lia |]; split; [| done];
      intros _; right; unfold phase1_ready in Hp1; rewrite He in Hp1;
      split; [done | by apply queue_empty_true]
    | apply queue_empty_false in He;
      destruct ((0 <? timeout) && _) eqn:Ht; bool_to_prop;
      [ split; simpl; [lia |]; auto
      | destruct (drain _ _) as [q b'] eqn:Hd;
        apply (window_inv_drained {| qs_queue := qs_queue s; qs_now := qs_now s; qs_consumer := Entering;
          qs_signals := qs_signals s; qs_accepted := qs_accepted s;
          qs_delivered := qs_delivered s; qs_opened := qs_now s |}); simpl; try done;
        apply andb_false_iff in Ht as [Ht|Ht]; bool_to_prop; auto ] ].
  - destruct HI as (-> & Hne & Ht). split_if.
    + destruct (drain _ _) as [q b'] eqn:Hd. apply window_inv_drained; try done.
      match goal with H : _ || _ = true |- _ => apply orb_true_iff in H as [|] end;
        bool_to_prop; auto.
    + by split.
  - split; [done |]. simpl. done.
Qed.

Lemma window_inv_step s s' : window_inv s → qstep s s' → window_inv s'.
Proof.
  intros HI Hstep. destruct Hstep; try by apply window_inv_run.
  all: destruct HI as [Hle HI]; split; simpl in *; [lia |].
  - destruct (qs_consumer s) as [| |dl nt|b]; try done.
    destruct HI as (? & ? & HI). repeat split; try done. intros Hb.
    destruct (HI Hb) as [|[|[|]]]; auto with lia.
  - match goal with H : push _ _ = _ |- _ => apply push_accepted in H as [Hs ->] end.
    rewrite Hs in HI. destruct (qs_consumer s) as [| |dl nt|b]; simpl; try done.
    + destruct HI as (? & ? & ?). repeat split; try done. by destruct (queue_ (qs_queue s)).
    + destruct HI as (? & He & ?). repeat split; try done. intros Hb.
      destruct (He Hb) as [|[? _]]; [by left | done].
  - match goal with H : push _ _ = _ |- _ => apply push_refused in H as [_ ->] end. done.
  - destruct (qs_consumer s) as [| |dl nt|b]; try done. simpl. tauto.
  - by destruct (qs_consumer s).
  - done.
Qed.

#[local] Hint Resolve fifo_inv_step wakeup_inv_step window_inv_step : inv.

Lemma reachable_fifo s : qreachable s → fifo_inv s.
Proof. apply invariant_reachable; [by intros ? [? ->] | eauto with inv]. Qed.

Lemma reachable_wakeup s : qreachable s → wakeup_inv s.
Proof. apply invariant_reachable; [by intros ? [? ->] | eauto with inv]. Qed.

Lemma reachable_window s : qreachable s → window_inv s.
Proof.
  apply invariant_reachable; [| eauto with inv].
  intros ? [now ->]. split; simpl; [lia | done].
Qed.

(** *** Progress of the consumer *)

Lemma run_from_phase1 s :
  0 < max_batch_size → queue_ (qs_queue s) ≠ [] →
  qs_consumer s = Entering ∨ (∃ n, qs_consumer s = Parked n) →
  queue_ (qs_queue (run_consumer s)) ≠ [] ∧ qs_opened (run_consumer s) = qs_now s ∧
    0 < timeout ∧ qs_consumer (run_consumer s) = Window (qs_now s + timeout * ns_per_ms) false
  ∨ ∃ b, qs_consumer (run_consumer s) = Drained b ∧ b ≠ [].
Proof.
  intros Hm Hq Hc.
  assert (Hw : wait_step max_batch_size timeout (qs_now s) (qs_queue s) (qs_consumer s) =
               open_window max_batch_size timeout (qs_now s) (qs_queue s)).
  { unfold wait_step, phase1_ready. pose proof (proj2 (queue_empty_false (qs_queue s)) Hq) as ->.
    by destruct Hc as [->|[n ->]]. }
  unfold run_consumer. rewrite Hw. unfold open_window.
  rewrite (proj2 (queue_empty_false _) Hq).
  destruct ((0 <? timeout) && _) eqn:Ht; bool_to_prop.
  - left. simpl. repeat split; try done. by destruct Hc as [->|[n ->]].
  - right. destruct (drain _ _) as [q b] eqn:Hd. exists b. split; [done |].
    pose proof (drain_batch max_batch_size (qs_queue s)) as (_ & H & _).
    rewrite Hd in H. by apply H.
Qed.

Lemma run_from_window s d n :
  0 < max_batch_size → queue_ (qs_queue s) ≠ [] →
  qs_consumer s = Window d n → d ≤ qs_now s →
  ∃ b, qs_consumer (run_consumer s) = Drained b ∧ b ≠ [].
Proof.
  intros Hm Hq Hc Hd. unfold run_consumer, wait_step. rewrite Hc.
  rewrite (proj2 (Z.leb_le d (qs_now s)) Hd), orb_true_r.
  destruct (drain _ _) as [q b] eqn:Hdr. exists b. split; [done |].
  pose proof (drain_batch max_batch_size (qs_queue s)) as (_ & H & _).
  rewrite Hdr in H. by apply H.
Qed.

(** An open window closes at its deadline at the latest. *)
Lemma progress_from_window s d n :
  0 < max_batch_size → queue_ (qs_queue s) ≠ [] →
  qs_consumer s = Window d n → d = qs_opened s + timeout * ns_per_ms →
  ∃ s' b, rtc qprogress s s' ∧ qs_consumer s' = Drained b ∧ b ≠ [].
Proof.
  intros Hm Hq Hc ->.
  destruct (Z.le_gt_cases (qs_opened s + timeout * ns_per_ms) (qs_now s)) as [Hle|Hgt].
  - destruct (run_from_window s _ n Hm Hq Hc Hle) as (b & Hb & Hne).
    exists (run_consumer s), b. split; [| done]. apply rtc_once, qp_run.
    rewrite Hc. simpl. apply orb_true_iff. right. by apply Z.leb_le.
  - set (s1 := {| qs_queue := qs_queue s;
                  qs_now := qs_now s + (qs_opened s + timeout * ns_per_ms - qs_now s);
                  qs_consumer := qs_consumer s; qs_signals := qs_signals s;
                  qs_accepted := qs_accepted s; qs_delivered := qs_delivered s;
                  qs_opened := qs_opened s |}).
    assert (H1 : qprogress s s1).
    { eapply (qp_tick s s1 (qs_opened s + timeout * ns_per_ms - qs_now s)); [lia | lia | done]. }
    assert (Hle : qs_opened s + timeout * ns_per_ms ≤ qs_now s1) by (simpl; lia).
    destruct (run_from_window s1 _ n Hm Hq Hc Hle) as (b & Hb & Hne).
    exists (run_consumer s1), b. split; [| done].
    eapply rtc_l; [exact H1 |]. apply rtc_once, qp_run.
    simpl. rewrite Hc. simpl. apply orb_true_iff. right. apply Z.leb_le. lia.
Qed.

Lemma progress_from_phase1 s :
  0 < max_batch_size → queue_ (qs_queue s) ≠ [] →
  qs_consumer s = Entering ∨ qs_consumer s = Parked true →
  ∃ s' b, rtc qprogress s s' ∧ qs_consumer s' = Drained b ∧ b ≠ [].
Proof.
  intros Hm Hq Hc.
  assert (Hr : qprogress s (run_consumer s)) by (apply qp_run; by destruct Hc as [->| ->]).
  destruct (run_from_phase1 s Hm Hq) as [(Hq' & Ho & _ & Hw)|(b & Hb & Hne)].
  - destruct Hc; eauto.
  - destruct (progress_from_window (run_consumer s) _ false Hm Hq' Hw) as (s' & b & Hs & Hb).
    { by rewrite Ho. }
    exists s', b. split; [by eapply rtc_l | done].
  - exists (run_consumer s), b. split; [by apply rtc_once | done].
Qed.

(** *** The abstract channel the queue implements *)

(** A bounded-batch FIFO channel: what was sent, what was received, whether it
    is closed. A receive takes a batch of at most [max_batch_size] requests off
    the front. *)
Record chan := {
  ch_sent : list InferenceRequest;
  ch_received : list InferenceRequest;
  ch_closed : bool
}.

Inductive chan_step : chan → chan → Prop :=
  | ch_send c r : ch_closed c = false →
      chan_step c {| ch_sent := ch_sent c ++ [r]; ch_received := ch_received c; ch_closed := false |}
  | ch_close c :
      chan_step c {| ch_sent := ch_sent c; ch_received := ch_received c; ch_closed := true |}
  | ch_receive c b rest :
      vec_size b ≤ max_batch_size → b ≠ [] → ch_sent c = ch_received c ++ b ++ rest →
      chan_step c {| ch_sent := ch_sent c; ch_received := ch_received c ++ b;
                     ch_closed := ch_closed c |}.

Definition chan_init : chan := {| ch_sent := []; ch_received := []; ch_closed := false |}.

(** The abstraction: a request is received as soon as it left the deque. *)
Definition chan_of (s : qsys) : chan :=
  {| ch_sent := qs_accepted s;
     ch_received := qs_delivered s ++ in_hand (qs_consumer s);
     ch_closed := stop_requested_ (qs_queue s) |}.

Lemma run_refines s :
  fifo_inv s → window_inv (run_consumer s) → in_hand (qs_consumer s) = [] →
  rtc chan_step (chan_of s) (chan_of (run_consumer s)).
Proof.
  intros HF [_ HW] Hh. unfold fifo_inv in HF. unfold run_consumer in *.
  destruct (wait_step _ _ _ _ _) as [q pc] eqn:E.
  pose proof (wait_step_split _ _ _ _ _ _ _ E) as [Hsplit Hstop].
  rewrite Hh in Hsplit, HF. simpl in *. unfold chan_of. simpl. rewrite Hh, Hstop, app_nil_r.
  destruct (in_hand pc) as [|r b] eqn:Hp; [by rewrite app_nil_r |].
  destruct pc as [| | |bb]; simpl in Hp; simplify_eq. destruct HW as (Hlen & _ & _).
  apply rtc_once. apply (ch_receive {| ch_sent := qs_accepted s; ch_received := qs_delivered s;
    ch_closed := stop_requested_ (qs_queue s) |} (r :: b) (queue_ q)); simpl; [| done |].
  - unfold vec_size in *. simpl in *. lia.
  - by rewrite HF, Hsplit.
Qed.

Lemma drained_stays s b : qs_consumer s = Drained b → chan_of (run_consumer s) = chan_of s.
Proof. intros H. unfold run_consumer, wait_step, chan_of. by rewrite !H. Qed.

Lemma qstep_refines s s' :
  fifo_inv s → window_inv s → qstep s s' → rtc chan_step (chan_of s) (chan_of s').
Proof.
  intros HF HW Hstep.
  assert (Hrun : rtc chan_step (chan_of s) (chan_of (run_consumer s))).
  { destruct (qs_consumer s) as [| | |b] eqn:Ec; [..| rewrite (drained_stays s b Ec); apply rtc_refl].
    all: apply run_refines; [done | by apply window_inv_run | by rewrite Ec]. }
  destruct Hstep as [s d ?|s r q Hp|s r q Hp|s|s n ?|s ?|s ?|s b Hb]; try done.
  - apply push_accepted in Hp as [Hs ->]. apply rtc_once. by apply (ch_send (chan_of s) r).
  - by apply push_refused in Hp as [_ ->].
  - apply rtc_once. apply (ch_close (chan_of s)).
  - unfold chan_of. simpl. by destruct (qs_consumer s).
  - unfold chan_of. simpl. rewrite Hb. simpl. by rewrite app_nil_r.
Qed.
End QueueSystem.

(** ** Properties *)

(** C17: in every reachable state the accepted requests are, in arrival order and
    each exactly once, those handed over, then those in the batch being
    returned, then those still queued: nothing is lost, duplicated or reordered
    under any interleaving of producers, shutdown and consumer. *)
Theorem queue_fifo_exactly_once (max_batch_size timeout : Z) (s : qsys)
  (Hr : qreachable max_batch_size timeout s) :
  qs_accepted s = qs_delivered s ++ in_hand (qs_consumer s) ++ queue_ (qs_queue s).
Proof. exact (reachable_fifo _ _ _ Hr). Qed.

(** C19: no wake-up is lost: a consumer that sleeps unnotified although the
    predicate it waits for has become true always has a notification under way,
    in phase 1 and in phase 2, although producers notify after unlocking. *)
Theorem queue_no_lost_wakeup (max_batch_size timeout : Z) (s : qsys)
  (Hr : qreachable max_batch_size timeout s) :
  (qs_consumer s = Parked false → phase1_ready (qs_queue s) = true → (0 < qs_signals s)%nat) ∧
  (∀ d, qs_consumer s = Window d false → phase2_ready max_batch_size (qs_queue s) = true →
        (0 < qs_signals s)%nat).
Proof.
  pose proof (reachable_wakeup _ _ _ Hr) as HW. unfold wakeup_inv in HW.
  split; [intros Hc | intros d Hc]; by rewrite Hc in HW.
Qed.

(** C20: the dual trigger. A returned batch never exceeds [max_batch_size]; a
    non-empty one is full, or shutdown was requested, or the window is disabled,
    or the whole window has elapsed since phase 1 was left; an empty one is
    returned only after shutdown with nothing queued, never by the timeout. The limit is
    positive. *)
Theorem queue_batch_trigger (max_batch_size timeout : Z) (s : qsys) (b : list InferenceRequest)
  (Hr : qreachable max_batch_size timeout s) (Hmax : 0 < max_batch_size)
  (Hb : qs_consumer s = Drained b) :
  vec_size b ≤ max_batch_size ∧
  (b = [] → stop_requested_ (qs_queue s) = true ∧ queue_ (qs_queue s) = []) ∧
  (b ≠ [] → vec_size b = max_batch_size ∨ stop_requested_ (qs_queue s) = true ∨ timeout ≤ 0 ∨
            qs_opened s + timeout * ns_per_ms ≤ qs_now s).
Proof.
  pose proof (reachable_window _ _ _ Hr) as [_ HW]. rewrite Hb in HW.
  destruct HW as (H1 & H2 & H3). split; [lia |]. split; [| done].
  intros He. destruct (H2 He); [lia | done].
Qed.

(** A queued request is always handed to a batch: from every reachable state
    with a non-empty queue, the consumer returns a non-empty batch after steps
    that involve only notifications already issued, its own critical sections
    and time not passing beyond the end of the window (no further arrival and no
    spurious wake-up is needed). *)
Theorem queue_progress (max_batch_size timeout : Z) (s : qsys)
  (Hr : qreachable max_batch_size timeout s) (Hmax : 0 < max_batch_size)
  (Hq : queue_ (qs_queue s) ≠ []) :
  ∃ s' b, rtc (qprogress max_batch_size timeout) s s' ∧ qs_consumer s' = Drained b ∧ b ≠ [].
Proof.
  pose proof (reachable_wakeup _ _ _ Hr) as HW.
  pose proof (reachable_window _ _ _ Hr) as [_ HI].
  unfold wakeup_inv in HW. destruct (qs_consumer s) as [|[]|d n|b] eqn:Hc.
  - apply progress_from_phase1; auto.
  - apply progress_from_phase1; auto.
  - assert (Hp : phase1_ready (qs_queue s) = true).
    { unfold phase1_ready. by rewrite (proj2 (queue_empty_false _) Hq). }
    destruct (qs_signals s) as [|k] eqn:Hk; [specialize (HW Hp); lia |].
    set (s1 := {| qs_queue := qs_queue s; qs_now := qs_now s; qs_consumer := Parked true;
                  qs_signals := k; qs_accepted := qs_accepted s;
                  qs_delivered := qs_delivered s; qs_opened := qs_opened s |}).
    destruct (progress_from_phase1 max_batch_size timeout s1) as (s' & b & Hs & Hb); auto.
    exists s', b. split; [| done]. eapply rtc_l; [| exact Hs].
    eapply (qp_signal _ _ s s1 k); [done |]. by rewrite Hc.
  - destruct HI as (Hd & _ & _). by eapply progress_from_window.
  - exists s, b. split; [apply rtc_refl |]. split; [done |].
    destruct HI as (_ & He & _). intros ->. destruct (He eq_refl) as [|[_ ?]]; [lia | done].
Qed.

(** C18: every run of the queue is a run of the abstract channel: a FIFO from
    which batches of at most [max_batch_size] are received off the front and
    which accepts nothing once closed. *)
Theorem queue_refines_channel (max_batch_size timeout now : Z) (s : qsys)
  (Hr : rtc (qstep max_batch_size timeout) (qs_init now) s) :
  rtc (chan_step max_batch_size) chan_init (chan_of s).
Proof.
  assert (Hreach : qreachable max_batch_size timeout (qs_init now)).
  { apply reachable_init. by exists now. }
  change chan_init with (chan_of (qs_init now)). revert Hreach.
  induction Hr as [s|s s1 s2 Hstep _ IH]; intros Hreach; [done |].
  etrans.
  - eapply qstep_refines; eauto using reachable_fifo, reachable_window.
  - apply IH. by eapply reachable_step.
Qed.

(** The batching window is opened when the consumer next leaves phase 1, not
    when the first request arrives: a request pushed at time [t] while the
    consumer is away processing a batch, and found [d] nanoseconds later, waits
    for a window that ends at [t + d + timeout], for every [d]. *)
Theorem queue_window_opens_on_return (max_batch_size timeout d : Z) (s : qsys)
  (b : list InferenceRequest) (r : InferenceRequest)
  (Hmax : 1 < max_batch_size) (Ht : 0 < timeout) (Hd : 0 ≤ d)
  (Hc : qs_consumer s = Drained b) (Hq : qs_queue s = empty_queue) :
  ∃ s', rtc (qstep max_batch_size timeout) s s' ∧ queue_ (qs_queue s') = [r] ∧
        qs_consumer s' = Window (qs_now s + d + timeout * ns_per_ms) false.
Proof.
  eexists. split; [| shelve].
  eapply rtc_l; [apply (qs_push _ _ s r {| queue_ := [r]; stop_requested_ := false |});
                 by rewrite Hq |].
  eapply rtc_l; [apply (qs_tick _ _ _ d Hd) |].
  eapply rtc_l; [eapply (qs_handover _ _ _ b); exact Hc |].
  eapply rtc_l; [apply qs_run; reflexivity |]. apply rtc_refl.
  Unshelve. unfold run_consumer, wait_step, open_window. simpl.
  assert (Hp : phase2_ready max_batch_size {| queue_ := [r]; stop_requested_ := false |} = false).
  { unfold phase2_ready, size, vec_size. simpl. rewrite orb_false_r. apply Z.leb_gt. lia. }
  rewrite Hp, (proj2 (Z.ltb_lt 0 timeout) Ht). done.
Qed.

(** ** Witnesses: one producer pushes two requests, the consumer drains them *)

Definition demo_request (id : Z) : InferenceRequest :=
  {| request_id := id; input_data := [f32_lit id 1]; arrival_time := 0;
     result_promise := Z.to_pos (id + 1) |}.

(** Two requests pushed, the consumer still asleep in phase 1. *)
Definition demo_asleep : qsys :=
  {| qs_queue := {| queue_ := [demo_request 1; demo_request 2]; stop_requested_ := false |};
     qs_now := 0; qs_consumer := Parked false; qs_signals := 2;
     qs_accepted := [demo_request 1; demo_request 2]; qs_delivered := []; qs_opened := 0 |}.

(** The same after the wake-up: both requests drained. *)
Definition demo_drained : qsys :=
  {| qs_queue := empty_queue; qs_now := 0; qs_consumer := Drained [demo_request 1; demo_request 2];
     qs_signals := 1; qs_accepted := [demo_request 1; demo_request 2]; qs_delivered := [];
     qs_opened := 0 |}.

Lemma demo_asleep_run : rtc (qstep 2 5) (qs_init 0) demo_asleep.
Proof.
  eapply rtc_l; [apply qs_run; reflexivity |].
  eapply rtc_l; [eapply (qs_push _ _ _ (demo_request 1)); reflexivity |].
  eapply rtc_l; [eapply (qs_push _ _ _ (demo_request 2)); reflexivity |].
  apply rtc_refl.
Qed.

Lemma demo_asleep_reachable : qreachable 2 5 demo_asleep.
Proof. exists (qs_init 0). split; [by exists 0 | apply demo_asleep_run]. Qed.

Lemma demo_drained_run : rtc (qstep 2 5) (qs_init 0) demo_drained.
Proof.
  etrans; [apply demo_asleep_run |].
  eapply rtc_l; [apply (qs_signal _ _ demo_asleep 1); reflexivity |].
  eapply rtc_l; [apply qs_run; reflexivity |]. apply rtc_refl.
Qed.

Lemma demo_drained_reachable : qreachable 2 5 demo_drained.
Proof. exists (qs_init 0). split; [by exists 0 | apply demo_drained_run]. Qed.

Lemma queue_fifo_exactly_once_witness :
  qs_accepted demo_drained =
  qs_delivered demo_drained ++ in_hand (qs_consumer demo_drained) ++ queue_ (qs_queue demo_drained).
Proof. exact (queue_fifo_exactly_once 2 5 demo_drained demo_drained_reachable). Defined.

Lemma queue_no_lost_wakeup_witness : (0 < qs_signals demo_asleep)%nat.
Proof.
  exact (proj1 (queue_no_lost_wakeup 2 5 demo_asleep demo_asleep_reachable) eq_refl eq_refl).
Defined.

Lemma queue_batch_trigger_witness : vec_size [demo_request 1; demo_request 2] ≤ 2.
Proof.
  exact (proj1 (queue_batch_trigger 2 5 demo_drained _ demo_drained_reachable eq_refl eq_refl)).
Defined.

Lemma queue_progress_witness :
  ∃ s' b, rtc (qprogress 2 5) demo_asleep s' ∧ qs_consumer s' = Drained b ∧ b ≠ [].
Proof. apply (queue_progress 2 5 demo_asleep demo_asleep_reachable); [reflexivity | done]. Defined.

Lemma queue_refines_channel_witness : rtc (chan_step 2) chan_init (chan_of demo_drained).
Proof. exact (queue_refines_channel 2 5 0 demo_drained demo_drained_run). Defined.

Lemma queue_window_opens_on_return_witness :
  ∃ s', rtc (qstep 8 5) demo_drained s' ∧ queue_ (qs_queue s') = [demo_request 3] ∧
        qs_consumer s' = Window (0 + 40000000 + 5 * ns_per_ms) false.
Proof.
  apply (queue_window_opens_on_return 8 5 40000000 demo_drained [demo_request 1; demo_request 2]);
    done.
Defined.
