(* ===== verification/Engine.v ===== *)
(** * The execution-engine interface and the stub engine

    [IExecutionEngine] (src/cpp/include/cuda_db/engine/execution_engine.hpp) as a
    type class over the engine's state, the contract its comment states as a
    second class the scheduler's theorems are proved against, and
    [StubExecutionEngine] (src/cpp/src/engine/execution_engine.cpp), which
    discharges it. The row-copy loop is shared with the CUDA engine. *)

From Stdlib Require Import ZArith Lia.
From stdpp Require Import base numbers strings list.
From S2P Require Import Prelude Machine.

(** ** The interface *)

(** [run_inference engine batched_input batch_size input_elems output_elems];
    engines keep state (buffers, sessions), so the call threads it. *)
Class IExecutionEngine (E : Type) :=
  run_inference : E → list float → Z → Z → Z → E * outcome (list float).

(** The contract of the interface, for batches of at most [max_rows] rows:
    output row [i] is [row] of input row [i], concatenated in the same order; or
    the call throws one of [errors] (none, for an engine that always returns). It
    never runs out of the range of a buffer. *)
Class EngineContract (E : Type) `{IExecutionEngine E} (good : E → Prop)
    (max_rows input_elems output_elems : Z) (row : list float → list float)
    (errors : exn → Prop) : Prop := {
  row_size r : vec_size r = input_elems → vec_size (row r) = output_elems;
  run_sound e rows e' o :
    good e → rows ≠ [] → vec_size rows ≤ max_rows →
    Forall (λ r, vec_size r = input_elems) rows →
    run_inference e (concat rows) (vec_size rows) input_elems output_elems = (e', o) →
    good e' ∧ (o = Ret (concat (row <$> rows)) ∨ ∃ x, o = Throw x ∧ errors x)
}.

(** ** The row-copy loop *)

(** [for (i = 0; i < batch_size; ++i) copy_n(src + i * input_elems, copy_elems,
    out + i * output_elems)] with [copy_elems = min(input_elems, output_elems)]. *)
Definition copy_row (src : list float) (input_elems output_elems : Z)
    (out : list float) (i : nat) : outcome (list float) :=
  row ← read_range src (u64_mul (Z.of_nat i) input_elems) (Z.min input_elems output_elems);
  write_range out (u64_mul (Z.of_nat i) output_elems) row.

Definition copy_rows (src : list float) (batch_size input_elems output_elems : Z)
    (out : list float) : outcome (list float) :=
  fold_outcome (copy_row src input_elems output_elems) out (seq 0 (Z.to_nat batch_size)).

(** ** StubExecutionEngine *)

Definition stub_run (batched_input : list float) (batch_size input_elems output_elems : Z) :
  outcome (list float) :=
  if negb (vec_size batched_input =? u64_mul batch_size input_elems)
  then Throw (InferenceError "batched input size does not match batch_size * input_elems")
  else
    batched_output ← vec_fill (u64_mul batch_size output_elems) f32_zero;
    copy_rows batched_input batch_size input_elems output_elems batched_output.

Record StubExecutionEngine := stub_engine {}.

#[export] Instance stub_IExecutionEngine : IExecutionEngine StubExecutionEngine :=
  λ e batched_input batch_size input_elems output_elems,
    (e, stub_run batched_input batch_size input_elems output_elems).

(** What one row becomes: truncated or zero-padded to [output_elems]. *)
Definition fit_row (output_elems : Z) (r : list float) : list float :=
  take (Z.to_nat output_elems) r ++ replicate (Z.to_nat output_elems - length r) f32_zero.

(** ** The loop computes [fit_row] of every row *)

Lemma fit_row_size oe r : 0 ≤ oe → vec_size (fit_row oe r) = oe.
Proof.
  intros. unfold fit_row, vec_size. rewrite length_app, length_take, length_replicate. lia.
Qed.

Lemma uniform_nat {A} (rows : list (list A)) ie :
  0 ≤ ie → Forall (λ r, vec_size r = ie) rows → Forall (λ r, length r = Z.to_nat ie) rows.
Proof. intros ? Hf. eapply Forall_impl; [exact Hf |]. intros r. unfold vec_size. lia. Qed.

Lemma vec_size_concat {A} (rows : list (list A)) ie :
  0 ≤ ie → Forall (λ r, vec_size r = ie) rows → vec_size (concat rows) = vec_size rows * ie.
Proof.
  intros Hie Hf. unfold vec_size.
  rewrite (length_concat_uniform _ (Z.to_nat ie)) by by apply uniform_nat. lia.
Qed.

Section CopyRows.
Variables (ie oe : Z).
Hypotheses (Hie : 0 ≤ ie) (Hoe : 0 ≤ oe).

(** One iteration: the zero row [i] of the output becomes the fitted row [i]. *)
Lemma copy_row_step pre r post tail done_ rest :
  Forall (λ r, vec_size r = ie) pre → vec_size r = ie →
  vec_size done_ = vec_size pre * oe →
  (vec_size pre + 1) * ie < two64 → (vec_size pre + 1) * oe < two64 →
  copy_row (concat pre ++ r ++ post ++ tail) ie oe
    (done_ ++ replicate (Z.to_nat oe) f32_zero ++ rest) (length pre) =
  Ret (done_ ++ fit_row oe r ++ rest).
Proof.
  intros Hpre Hr Hdone Hb1 Hb2. unfold copy_row. change (Z.of_nat (length pre)) with (vec_size pre).
  pose proof (vec_size_nonneg pre) as Hp.
  pose proof (vec_size_concat pre ie Hie Hpre) as Hcat.
  rewrite !u64_mul_small by nia.
  rewrite read_range_Ret; [| nia | lia | rewrite !vec_size_app; pose proof (vec_size_nonneg post);
                                         pose proof (vec_size_nonneg tail); nia].
  rewrite <- Hcat, to_nat_vec_size, drop_app_length. simpl.
  assert (Hlr : length r = Z.to_nat ie) by (unfold vec_size in Hr; lia).
  rewrite take_app_le by lia.
  assert (Hmin : take (Z.to_nat (Z.min ie oe)) r = take (Z.to_nat oe) r).
  { destruct (Z.le_gt_cases oe ie); [by rewrite Z.min_r |].
    rewrite Z.min_l by lia. by rewrite !take_ge by lia. }
  rewrite Hmin.
  assert (Hlen : length (take (Z.to_nat oe) r) = (Z.to_nat oe `min` length r)%nat)
    by apply length_take.
  assert (Hfit : vec_size (take (Z.to_nat oe) r) ≤ oe) by (unfold vec_size; lia).
  rewrite write_range_Ret; [| nia | rewrite !vec_size_app, vec_size_replicate by done;
    pose proof (vec_size_nonneg rest); lia].
  rewrite <- Hdone, to_nat_vec_size, take_app_length.
  f_equal. f_equal. unfold fit_row. rewrite <- app_assoc. f_equal.
  rewrite drop_app_add. rewrite drop_app_le by (rewrite length_replicate; lia).
  rewrite drop_replicate. f_equal. f_equal. lia.
Qed.

Lemma copy_rows_loop pre post tail :
  Forall (λ r, vec_size r = ie) (pre ++ post) →
  vec_size (pre ++ post) * ie < two64 → vec_size (pre ++ post) * oe < two64 →
  fold_outcome (copy_row (concat (pre ++ post) ++ tail) ie oe)
    (concat (fit_row oe <$> pre) ++ replicate (length post * Z.to_nat oe) f32_zero)
    (seq (length pre) (length post)) =
  Ret (concat (fit_row oe <$> (pre ++ post))).
Proof.
  revert pre. induction post as [|r post IH]; intros pre Hf Hb1 Hb2; simpl.
  - by rewrite !app_nil_r.
  - assert (Hsnoc : pre ++ r :: post = (pre ++ [r]) ++ post) by by rewrite <- app_assoc.
    pose proof (proj1 (Forall_app _ _ _) Hf) as [Hpre Hrp]. apply Forall_cons_1 in Hrp as [Hr Hpost].
    rewrite vec_size_app in Hb1, Hb2.
    assert (Hcons : vec_size (r :: post) = 1 + vec_size post) by (unfold vec_size; simpl; lia).
    pose proof (vec_size_nonneg post).
    rewrite replicate_add, concat_app. simpl. rewrite <- !app_assoc.
    rewrite (copy_row_step pre r (concat post)); [| done | done | | nia | nia].
    2: { erewrite (vec_size_concat _ oe Hoe); [unfold vec_size; by rewrite length_fmap |].
         apply Forall_fmap. apply Forall_forall. intros. by apply fit_row_size. }
    simpl. specialize (IH (pre ++ [r])).
    rewrite <- Hsnoc, length_app in IH. simpl in IH. rewrite Nat.add_1_r in IH.
    rewrite fmap_app, !concat_app in IH. simpl in IH.
    rewrite app_nil_r, <- !app_assoc in IH.
    apply IH; [done | |]; rewrite vec_size_app; nia.
Qed.

Lemma copy_rows_spec rows tail :
  Forall (λ r, vec_size r = ie) rows →
  vec_size rows * ie < two64 → vec_size rows * oe < two64 →
  copy_rows (concat rows ++ tail) (vec_size rows) ie oe
    (replicate (Z.to_nat (vec_size rows * oe)) f32_zero) =
  Ret (concat (fit_row oe <$> rows)).
Proof.
  intros Hf Hb1 Hb2. unfold copy_rows.
  pose proof (copy_rows_loop [] rows tail Hf Hb1 Hb2) as H. simpl in H.
  rewrite <- H. unfold vec_size. rewrite Nat2Z.id. f_equal. f_equal. lia.
Qed.
End CopyRows.

(** ** The stub meets the contract *)

Lemma stub_run_rows rows ie oe :
  0 ≤ ie → 0 ≤ oe → Forall (λ r, vec_size r = ie) rows →
  vec_size rows * ie < two64 → vec_size rows * oe ≤ vec_max_size →
  stub_run (concat rows) (vec_size rows) ie oe = Ret (concat (fit_row oe <$> rows)).
Proof.
  intros Hie Hoe Hf Hb1 Hb2. unfold stub_run. pose proof (vec_size_nonneg rows).
  assert (Hb2' : vec_size rows * oe < two64) by (unfold vec_max_size in Hb2; lia).
  rewrite (vec_size_concat rows ie), !u64_mul_small, Z.eqb_refl by (done || nia). simpl.
  unfold vec_fill. rewrite (proj2 (Z.ltb_ge _ _) Hb2). simpl.
  rewrite <- (app_nil_r (concat rows)). by apply copy_rows_spec.
Qed.

Section StubContract.
Variables (max_rows ie oe : Z).
Hypotheses (Hie : 0 ≤ ie) (Hoe : 0 ≤ oe).
Hypotheses (Hin : max_rows * ie < two64) (Hout : max_rows * oe ≤ vec_max_size).

Lemma stub_run_within rows :
  vec_size rows ≤ max_rows → Forall (λ r, vec_size r = ie) rows →
  stub_run (concat rows) (vec_size rows) ie oe = Ret (concat (fit_row oe <$> rows)).
Proof. intros Hn Hf. apply stub_run_rows; try done; nia. Qed.

Lemma stub_contract : EngineContract StubExecutionEngine (λ _, True) max_rows ie oe (fit_row oe) (λ _, False).
Proof.
  split.
  - intros r _. by apply fit_row_size.
  - intros e rows e' o _ _ Hn Hf Hrun. unfold run_inference, stub_IExecutionEngine in Hrun.
    rewrite stub_run_within in Hrun by done. simplify_eq. auto.
Qed.
End StubContract.

(** ** Properties *)

(** The stub engine echoes: on a buffer that is the concatenation of rows of
    [input_elems] floats it returns, in the same order, every row truncated or
    zero-padded to [output_elems], and never accesses a buffer out of range; a
    buffer whose length is not [batch_size * input_elems] is refused with an
    [InferenceError]. *)
Lemma stub_echoes_rows (rows : list (list float)) (ie oe : Z)
  (Hie : 0 ≤ ie) (Hoe : 0 ≤ oe) (Hf : Forall (λ r, vec_size r = ie) rows)
  (Hin : vec_size rows * ie < two64) (Hout : vec_size rows * oe ≤ vec_max_size) :
  stub_run (concat rows) (vec_size rows) ie oe = Ret (concat (fit_row oe <$> rows)) ∧
  ∀ buffer, vec_size buffer ≠ u64_mul (vec_size rows) ie →
    stub_run buffer (vec_size rows) ie oe =
      Throw (InferenceError "batched input size does not match batch_size * input_elems").
Proof.
  split; [by apply stub_run_rows |].
  intros buffer Hne. unfold stub_run. by rewrite (proj2 (Z.eqb_neq _ _) Hne).
Qed.

Example stub_echoes_two_rows :
  stub_run (concat [[f32_lit 1 1; f32_lit 2 1]; [f32_lit 3 1; f32_lit 4 1]]) 2 2 3 =
    Ret [f32_lit 1 1; f32_lit 2 1; f32_zero; f32_lit 3 1; f32_lit 4 1; f32_zero].
Proof.
  refine (proj1 (stub_echoes_rows [[f32_lit 1 1; f32_lit 2 1]; [f32_lit 3 1; f32_lit 4 1]] 2 3
    _ _ _ _ _)); try done. repeat constructor.
Defined.
