(* ===== verification/Scheduler.v ===== *)
(** * Scheduler (src/cpp/src/scheduler/scheduler.cpp)

    The body of the worker loop as functions on the promise store, the counters
    and the engine: validating a drained batch, updating the statistics, calling
    the engine and resolving or failing every promise. The concurrent behaviour
    (worker, producers, start and stop) is in [System]. *)

From Stdlib Require Import ZArith Lia.
From stdpp Require Import base numbers strings gmap list.
From S2P Require Import Prelude Machine Request RequestQueue Engine.

(** ** Configuration and counters *)

Record SchedulerConfig := {
  max_batch_size : Z;
  max_wait : Z;
  input_elems : Z;
  output_elems : Z
}.

Definition default_SchedulerConfig : SchedulerConfig :=
  {| max_batch_size := 1; max_wait := 5; input_elems := 0; output_elems := 0 |}.

(** The six counters; the worker's atomics and the snapshot have the same fields. *)
Record SchedulerStats := {
  total_batches : Z;
  total_requests : Z;
  max_batch_size_seen : Z;
  total_queue_wait_us : Z;
  max_queue_wait_us : Z;
  total_exec_us : Z
}.

Definition zero_stats : SchedulerStats :=
  {| total_batches := 0; total_requests := 0; max_batch_size_seen := 0;
     total_queue_wait_us := 0; max_queue_wait_us := 0; total_exec_us := 0 |}.

Definition avg_queue_wait_ms (s : SchedulerStats) : double :=
  if total_requests s =? 0 then f64_zero
  else f64_div (f64_div (f64_of_u64 (total_queue_wait_us s)) (f64_of_u64 (total_requests s)))
               (f64_of_u64 1000).

Definition max_queue_wait_ms (s : SchedulerStats) : double :=
  f64_div (f64_of_u64 (max_queue_wait_us s)) (f64_of_u64 1000).

Definition avg_exec_ms (s : SchedulerStats) : double :=
  if total_batches s =? 0 then f64_zero
  else f64_div (f64_div (f64_of_u64 (total_exec_us s)) (f64_of_u64 (total_batches s)))
               (f64_of_u64 1000).

(** [stats()] reads the six atomics one after the other, so other threads may
    write between two loads: [cells i] is what the memory holds at the [i]-th. *)
Definition stats (cells : nat → SchedulerStats) : SchedulerStats :=
  {| total_batches := total_batches (cells 0%nat);
     total_requests := total_requests (cells 1%nat);
     max_batch_size_seen := max_batch_size_seen (cells 2%nat);
     total_queue_wait_us := total_queue_wait_us (cells 3%nat);
     max_queue_wait_us := max_queue_wait_us (cells 4%nat);
     total_exec_us := total_exec_us (cells 5%nat) |}.

(** [reset_stats()]: six separate stores, in this order. *)
Definition reset_store (i : nat) (s : SchedulerStats) : SchedulerStats :=
  {| total_batches := if decide (i = 0%nat) then 0 else total_batches s;
     total_requests := if decide (i = 1%nat) then 0 else total_requests s;
     max_batch_size_seen := if decide (i = 2%nat) then 0 else max_batch_size_seen s;
     total_queue_wait_us := if decide (i = 3%nat) then 0 else total_queue_wait_us s;
     max_queue_wait_us := if decide (i = 4%nat) then 0 else max_queue_wait_us s;
     total_exec_us := if decide (i = 5%nat) then 0 else total_exec_us s |}.

Definition reset_stats (s : SchedulerStats) : SchedulerStats :=
  foldl (λ s i, reset_store i s) s (seq 0 6).

(** ** Atomic maximum by compare-and-swap *)

(** What can disturb one [compare_exchange_weak]: another thread's store just
    before it, or a spurious failure. *)
Record cas_env := {
  cas_store : option Z;
  cas_spurious : bool
}.

Definition cas_quiet : cas_env := {| cas_store := None; cas_spurious := false |}.

(** [while (candidate > previous && !cell.compare_exchange_weak(previous,
    candidate))]: the final value of the cell, [None] if the loop is still
    running after the attempts described by [env]. *)
Fixpoint cas_max (env : list cas_env) (cell previous candidate : Z) : option Z :=
  if previous <? candidate then
    match env with
    | [] => None
    | a :: env =>
        let cell := default cell (cas_store a) in
        if negb (cas_spurious a) && (cell =? previous) then Some candidate
        else cas_max env cell cell candidate
    end
  else Some cell.

(** The loop when no other thread writes the cell meanwhile. *)
Definition atomic_max (cell candidate : Z) : Z :=
  default cell (cas_max [cas_quiet] cell cell candidate).

(** ** The worker loop's body *)

Definition elapsed_us_since (start now : Z) : Z :=
  let delta := duration_cast_us (now - start) in
  if 0 <? delta then u64 delta else 0.

Definition size_error : exn := InferenceError "input size does not match configured input_elems".

(** One iteration of the loop over [drained]. *)
Definition validate_one (cfg : SchedulerConfig) (acc : list InferenceRequest * pstore)
    (req : InferenceRequest) : outcome (list InferenceRequest * pstore) :=
  let '(batch, ps) := acc in
  if negb (vec_size (input_data req) =? input_elems cfg)
  then ps' ← set_exception (result_promise req) size_error ps; Ret (batch, ps')
  else Ret (batch ++ [req], ps).

Definition validate (cfg : SchedulerConfig) (drained : list InferenceRequest) (ps : pstore) :
  outcome (list InferenceRequest * pstore) :=
  fold_outcome (validate_one cfg) ([], ps) drained.

Definition count_batch (n : Z) (s : SchedulerStats) : SchedulerStats :=
  {| total_batches := u64_add (total_batches s) 1;
     total_requests := u64_add (total_requests s) n;
     max_batch_size_seen := atomic_max (max_batch_size_seen s) n;
     total_queue_wait_us := total_queue_wait_us s;
     max_queue_wait_us := max_queue_wait_us s;
     total_exec_us := total_exec_us s |}.

Definition waited_us (dequeued_at : Z) (req : InferenceRequest) : Z :=
  let waited := duration_cast_us (dequeued_at - arrival_time req) in
  if 0 <? waited then u64 waited else 0.

Definition record_wait (dequeued_at : Z) (s : SchedulerStats) (req : InferenceRequest) :
  SchedulerStats :=
  {| total_batches := total_batches s; total_requests := total_requests s;
     max_batch_size_seen := max_batch_size_seen s;
     total_queue_wait_us := u64_add (total_queue_wait_us s) (waited_us dequeued_at req);
     max_queue_wait_us := atomic_max (max_queue_wait_us s) (waited_us dequeued_at req);
     total_exec_us := total_exec_us s |}.

Definition record_exec (exec_us : Z) (s : SchedulerStats) : SchedulerStats :=
  {| total_batches := total_batches s; total_requests := total_requests s;
     max_batch_size_seen := max_batch_size_seen s;
     total_queue_wait_us := total_queue_wait_us s; max_queue_wait_us := max_queue_wait_us s;
     total_exec_us := u64_add (total_exec_us s) exec_us |}.

(** From the validated batch to the engine call. *)
Definition finalize_stats (dequeued_at : Z) (batch : list InferenceRequest) (s : SchedulerStats) :
  SchedulerStats :=
  foldl (record_wait dequeued_at) (count_batch (vec_size batch) s) batch.

Definition gather (batch : list InferenceRequest) : list float :=
  foldl (λ buf req, buf ++ input_data req) [] batch.

(** [alloc_ok i] says whether the copy of row [i] into a fresh vector gets its
    memory ([logits.assign] throws [std::bad_alloc] otherwise). A throw keeps
    the promises already resolved. *)
Fixpoint resolve_loop (cfg : SchedulerConfig) (alloc_ok : nat → bool) (batched_output : list float)
    (i : nat) (batch : list InferenceRequest) (ps : pstore) : pstore * outcome unit :=
  match batch with
  | [] => (ps, Ret tt)
  | req :: rest =>
      let first := u64_mul (Z.of_nat i) (output_elems cfg) in
      let last := u64_mul (Z.of_nat i + 1) (output_elems cfg) in
      match
        row ← read_range batched_output first (last - first);
        if alloc_ok i
        then set_value (result_promise req) {| res_request_id := request_id req; logits := row |} ps
        else Throw BadAlloc
      with
      | Ret ps' => resolve_loop cfg alloc_ok batched_output (S i) rest ps'
      | Throw e => (ps, Throw e)
      | Undefined => (ps, Undefined)
      end
  end.

(** The handler: the same exception for every request of the batch. A throw out
    of it leaves [run_loop] and ends the process. *)
Fixpoint fail_all (e : exn) (batch : list InferenceRequest) (ps : pstore) : pstore * outcome unit :=
  match batch with
  | [] => (ps, Ret tt)
  | req :: rest =>
      match set_exception (result_promise req) e ps with
      | Ret ps' => fail_all e rest ps'
      | Throw e' => (ps, Throw e')
      | Undefined => (ps, Undefined)
      end
  end.

(** The try block over the engine's outcome, and its handler. *)
Definition try_block (cfg : SchedulerConfig) (alloc_ok : nat → bool) (o : outcome (list float))
    (batch : list InferenceRequest) (ps : pstore) : pstore * outcome unit :=
  match o with
  | Ret batched_output =>
      if negb (vec_size batched_output =? u64_mul (vec_size batch) (output_elems cfg))
      then (ps, Throw (InferenceError "engine returned an unexpected output size"))
      else resolve_loop cfg alloc_ok batched_output 0 batch ps
  | Throw e => (ps, Throw e)
  | Undefined => (ps, Undefined)
  end.

Definition deliver (cfg : SchedulerConfig) (alloc_ok : nat → bool) (o : outcome (list float))
    (batch : list InferenceRequest) (ps : pstore) : pstore * outcome unit :=
  match try_block cfg alloc_ok o batch ps with
  | (ps', Throw e) => fail_all e batch ps'
  | r => r
  end.

Section Execute.
Context {E : Type} `{IExecutionEngine E}.

(** From the engine call to the end of the iteration; [exec_started] and
    [exec_ended] are the clock readings around the call. *)
Definition execute_batch (cfg : SchedulerConfig) (alloc_ok : nat → bool)
    (exec_started exec_ended : Z) (engine : E) (s : SchedulerStats) (ps : pstore)
    (batch : list InferenceRequest) : E * SchedulerStats * (pstore * outcome unit) :=
  let '(engine', o) := run_inference engine (gather batch) (vec_size batch)
                         (input_elems cfg) (output_elems cfg) in
  (engine', record_exec (elapsed_us_since exec_started exec_ended) s,
   deliver cfg alloc_ok o batch ps).
End Execute.

(** ** [submit] *)

Definition stopped_error : exn := InferenceError "scheduler is stopped and cannot accept requests".

(** The queue and the promise store after the call, and whether it returned the
    future or threw. *)
Definition submit (q : RequestQueue) (ps : pstore) (req : InferenceRequest) :
  RequestQueue * pstore * outcome unit :=
  match get_future (result_promise req) ps with
  | Ret ps' =>
      let '(q', accepted) := push q req in
      (q', ps', if accepted then Ret tt else Throw stopped_error)
  | Throw e => (q, ps, Throw e)
  | Undefined => (q, ps, Undefined)
  end.

(** ** Lemmas on the loop's body *)

Definition promises (l : list InferenceRequest) : list promise := result_promise <$> l.

(** The promises of [batch] were all pending and are now as [f] says (by
    position and request); every other shared state is untouched. *)
Definition settled (f : nat → InferenceRequest → future_state) (batch : list InferenceRequest)
    (ps ps' : pstore) : Prop :=
  (∀ i r, batch !! i = Some r → state_of ps' (result_promise r) = Some (f i r)) ∧
  (∀ p, p ∉ promises batch → ps' !! p = ps !! p).

Definition all_pending (ps : pstore) (l : list InferenceRequest) : Prop :=
  Forall (λ r, pending ps (result_promise r)) l.

Definition well_sized (cfg : SchedulerConfig) (r : InferenceRequest) : Prop :=
  vec_size (input_data r) = input_elems cfg.
#[export] Instance well_sized_dec cfg r : Decision (well_sized cfg r).
Proof. unfold well_sized. apply _. Defined.

Lemma all_pending_frame ps ps' l :
  (∀ p, p ∈ promises l → ps' !! p = ps !! p) → all_pending ps l → all_pending ps' l.
Proof.
  unfold all_pending. rewrite !Forall_forall. intros Hf Hp r Hr.
  unfold pending, state_of. rewrite Hf; [by apply Hp |].
  unfold promises. by apply list_elem_of_fmap_2.
Qed.

(** The step all three promise loops share: making the head's promise ready
    keeps the rest pending. *)
Lemma settle_head f g r batch ps :
  NoDup (promises (r :: batch)) → all_pending ps (r :: batch) → g ≠ Pending →
  ∃ ps1, make_ready g (result_promise r) ps = Ret ps1 ∧ all_pending ps1 batch ∧
    ∀ ps', settled (λ i, f (S i)) batch ps1 ps' → f 0%nat r = g → settled f (r :: batch) ps ps'.
Proof.
  intros Hnd Hp Hg. unfold promises in Hnd. simpl in Hnd.
  apply NoDup_cons in Hnd as [Hni Hnd]. apply Forall_cons_1 in Hp as [Hr Hp].
  destruct (make_ready_Ret g _ _ Hr) as (ps1 & H1 & Hst & Hframe).
  exists ps1. split; [done |]. split.
  { apply (all_pending_frame ps); [| done]. intros p Hin. apply Hframe. by intros ->. }
  intros ps' [Ha Hb] Hf. split.
  - intros [|i] r' Hi; simpl in Hi; simplify_eq; [| by apply Ha].
    unfold state_of in *. rewrite Hb by done. by rewrite Hst.
  - intros p Hin. unfold promises in Hin. simpl in Hin. apply not_elem_of_cons in Hin as [? ?].
    rewrite Hb by done. by apply Hframe.
Qed.

Lemma settled_nil f ps : settled f [] ps ps.
Proof. split; [by intros i r Hi; rewrite lookup_nil in Hi | done]. Qed.

Lemma fail_all_settles e batch ps :
  NoDup (promises batch) → all_pending ps batch →
  ∃ ps', fail_all e batch ps = (ps', Ret tt) ∧ settled (λ _ _, Failed e) batch ps ps'.
Proof.
  revert ps. induction batch as [|r batch IH]; intros ps Hnd Hp; simpl.
  - exists ps. split; [done | apply settled_nil].
  - destruct (settle_head (λ _ _, Failed e) (Failed e) r batch ps Hnd Hp) as (ps1 & H1 & Hp1 & Hs);
      [done |].
    unfold set_exception. rewrite H1.
    destruct (IH ps1) as (ps' & H2 & H3); [by apply NoDup_cons in Hnd as [_ ?] | done |].
    exists ps'. split; [done | by apply Hs].
Qed.

(** Row [i] of the output goes to request [i] of the batch. *)
Definition row_result (oe : Z) (out : list float) (i : nat) (r : InferenceRequest) : future_state :=
  Value {| res_request_id := request_id r;
           logits := take (Z.to_nat oe) (drop (i * Z.to_nat oe) out) |}.

Lemma resolve_loop_settles cfg alloc_ok out k batch ps :
  NoDup (promises batch) → all_pending ps batch →
  0 ≤ output_elems cfg →
  (Z.of_nat k + vec_size batch) * output_elems cfg ≤ vec_size out → vec_size out < two64 →
  (∀ i, (k ≤ i < k + length batch)%nat → alloc_ok i = true) →
  ∃ ps', resolve_loop cfg alloc_ok out k batch ps = (ps', Ret tt) ∧
    settled (λ i, row_result (output_elems cfg) out (k + i)) batch ps ps'.
Proof.
  revert k ps. induction batch as [|r batch IH]; intros k ps Hnd Hp Hoe Hout Hmax Hal; simpl.
  - exists ps. split; [done | apply settled_nil].
  - assert (Hc : vec_size (r :: batch) = 1 + vec_size batch) by (unfold vec_size; simpl; lia).
    pose proof (vec_size_nonneg batch).
    rewrite !u64_mul_small by nia.
    replace ((Z.of_nat k + 1) * output_elems cfg - Z.of_nat k * output_elems cfg)
      with (output_elems cfg) by lia.
    rewrite read_range_Ret by nia. simpl. rewrite Hal by (simpl; lia).
    destruct (settle_head (λ i, row_result (output_elems cfg) out (k + i))
      (row_result (output_elems cfg) out k r) r batch ps Hnd Hp) as (ps1 & H1 & Hp1 & Hs); [done |].
    unfold set_value, row_result in *.
    replace (Z.to_nat (Z.of_nat k * output_elems cfg)) with (k * Z.to_nat (output_elems cfg))%nat by lia.
    rewrite H1. destruct (IH (S k) ps1) as (ps' & H2 & H3); try done.
    + by apply NoDup_cons in Hnd as [_ ?].
    + nia.
    + intros i Hi. apply Hal. simpl. lia.
    + exists ps'. split; [done |]. apply Hs; [| by rewrite Nat.add_0_r].
      destruct H3 as [H3 H4]. split; [| done]. intros i r' Hi.
      rewrite (H3 i r' Hi). by rewrite Nat.add_succ_r.
Qed.

Lemma gather_concat batch : gather batch = concat (input_data <$> batch).
Proof.
  unfold gather.
  assert (H : ∀ buf, foldl (λ buf req, buf ++ input_data req) buf batch =
                     buf ++ concat (input_data <$> batch)); [| apply H].
  induction batch as [|r batch IH]; intros buf; simpl; [by rewrite app_nil_r |].
  rewrite IH. by rewrite <- app_assoc.
Qed.

(** *** Validation *)

(** Validation keeps the well-sized requests in order and fails the others. *)
Lemma validate_settles cfg drained ps :
  NoDup (promises drained) → all_pending ps drained →
  ∃ ps', validate cfg drained ps = Ret (filter (well_sized cfg) drained, ps') ∧
    settled (λ _ _, Failed size_error) (filter (λ r, ¬ well_sized cfg r) drained) ps ps'.
Proof.
  unfold validate.
  assert (H : ∀ acc, NoDup (promises drained) → all_pending ps drained →
    ∃ ps', fold_outcome (validate_one cfg) (acc, ps) drained =
             Ret (acc ++ filter (well_sized cfg) drained, ps') ∧
      settled (λ _ _, Failed size_error) (filter (λ r, ¬ well_sized cfg r) drained) ps ps');
    [| apply (H [])].
  revert ps. induction drained as [|r drained IH]; intros ps acc Hnd Hp; simpl.
  - exists ps. rewrite app_nil_r. split; [done | apply settled_nil].
  - rewrite !filter_cons.
    destruct (Z.eqb_spec (vec_size (input_data r)) (input_elems cfg)) as [Hw|Hw]; simpl.
    + rewrite decide_True by exact Hw. rewrite decide_False by (intros Hn; by apply Hn).
      destruct (IH ps (acc ++ [r])) as (ps' & H1 & H2).
      { by apply NoDup_cons in Hnd as [_ ?]. } { by apply Forall_cons_1 in Hp as [_ ?]. }
      exists ps'. rewrite H1, <- app_assoc. done.
    + rewrite decide_False by exact Hw. rewrite decide_True by exact Hw.
      apply NoDup_cons in Hnd as [Hni Hnd]. apply Forall_cons_1 in Hp as [Hr Hp].
      destruct (make_ready_Ret (Failed size_error) _ _ Hr) as (ps1 & H1 & Hst & Hframe).
      unfold set_exception. rewrite H1. simpl.
      destruct (IH ps1 acc) as (ps' & H2 & Ha & Hb); [done | |].
      { apply (all_pending_frame ps); [| done]. intros p Hin. apply Hframe. by intros ->. }
      exists ps'. split; [done |].
      assert (Hni' : result_promise r ∉ promises (filter (λ r, ¬ well_sized cfg r) drained)).
      { intros Hin. apply Hni. apply list_elem_of_fmap in Hin as (x & -> & Hx).
        apply list_elem_of_filter in Hx as [_ Hx]. by apply list_elem_of_fmap_2. }
      split.
      * intros [|i] r' Hi; simpl in Hi; simplify_eq; [| by apply Ha in Hi].
        unfold state_of in *. rewrite Hb by done. by rewrite Hst.
      * intros p Hin. unfold promises in Hin. rewrite fmap_cons in Hin.
        apply not_elem_of_cons in Hin as [? ?]. rewrite Hb by done. by apply Hframe.
Qed.

(** *** Delivery *)

Lemma deliver_rows cfg alloc_ok out batch ps :
  NoDup (promises batch) → all_pending ps batch → 0 ≤ output_elems cfg →
  vec_size out = vec_size batch * output_elems cfg → vec_size out < two64 →
  (∀ i, (i < length batch)%nat → alloc_ok i = true) →
  ∃ ps', deliver cfg alloc_ok (Ret out) batch ps = (ps', Ret tt) ∧
    settled (row_result (output_elems cfg) out) batch ps ps'.
Proof.
  intros Hnd Hp Hoe Hout Hmax Hal. unfold deliver, try_block.
  rewrite u64_mul_small by (pose proof (vec_size_nonneg batch); lia).
  rewrite (proj2 (Z.eqb_eq _ _) Hout). simpl.
  destruct (resolve_loop_settles cfg alloc_ok out 0 batch ps) as (ps' & H1 & H2); try done; try lia.
  { intros i Hi. apply Hal. lia. }
  rewrite H1. exists ps'. split; [done |]. exact H2.
Qed.

Lemma deliver_throw cfg alloc_ok o e batch ps :
  try_block cfg alloc_ok o batch ps = (ps, Throw e) →
  NoDup (promises batch) → all_pending ps batch →
  ∃ ps', deliver cfg alloc_ok o batch ps = (ps', Ret tt) ∧
    settled (λ _ _, Failed e) batch ps ps'.
Proof. intros Ht Hnd Hp. unfold deliver. rewrite Ht. by apply fail_all_settles. Qed.

(** Once one promise of the batch is resolved, the handler itself throws. *)
Lemma fail_all_satisfied e r batch ps v :
  state_of ps (result_promise r) = Some v → v ≠ Pending →
  fail_all e (r :: batch) ps = (ps, Throw (FutureError promise_already_satisfied)).
Proof.
  intros Hs Hv. simpl. unfold set_exception, make_ready, state_of in *.
  destruct (ps !! result_promise r) as [s|]; simpl in *; simplify_eq. by destruct (state s).
Qed.

(** *** The atomic maximum *)

Lemma atomic_max_spec cell candidate : atomic_max cell candidate = Z.max cell candidate.
Proof.
  unfold atomic_max. simpl. destruct (Z.ltb_spec cell candidate); simpl; [| lia].
  rewrite Z.eqb_refl. simpl. lia.
Qed.

Lemma atomic_max_foldl {A} (f : A → Z) l m0 :
  foldl (λ m a, atomic_max m (f a)) m0 l = foldr Z.max m0 (f <$> l).
Proof.
  revert m0. induction l as [|a l IH]; intros m0; csimpl; [done |].
  rewrite IH, atomic_max_spec. clear IH. generalize (f <$> l) as zs. intros zs.
  induction zs as [|z zs IH]; simpl; lia.
Qed.

(** *** Statistics of a sequence of batches *)

Lemma record_wait_foldl t batch s :
  foldl (record_wait t) s batch =
    {| total_batches := total_batches s; total_requests := total_requests s;
       max_batch_size_seen := max_batch_size_seen s;
       total_queue_wait_us := foldl (λ z r, u64_add z (waited_us t r)) (total_queue_wait_us s) batch;
       max_queue_wait_us := foldl (λ z r, atomic_max z (waited_us t r)) (max_queue_wait_us s) batch;
       total_exec_us := total_exec_us s |}.
Proof. revert s. induction batch as [|r batch IH]; intros []; simpl; [done | by rewrite IH]. Qed.

Definition sumZ (l : list Z) : Z := foldr Z.add 0 l.

Lemma sumZ_app l1 l2 : sumZ (l1 ++ l2) = sumZ l1 + sumZ l2.
Proof. induction l1; simpl; lia. Qed.

Lemma u64_add_foldl {A} (f : A → Z) l z0 :
  foldl (λ z a, u64_add z (f a)) (u64 z0) l = u64 (z0 + sumZ (f <$> l)).
Proof.
  revert z0. induction l as [|a l IH]; intros z0; csimpl; [by rewrite Z.add_0_r |].
  assert (Hadd : u64_add (u64 z0) (f a) = u64 (z0 + f a)).
  { unfold u64_add, u64. by rewrite Zplus_mod_idemp_l. }
  rewrite Hadd, IH. f_equal. lia.
Qed.

(** The counters after a sequence of batches, each with the clock reading at
    which it was finalized, starting from a cold server. *)
Definition stats_after (log : list (Z * list InferenceRequest)) : SchedulerStats :=
  foldl (λ s e, finalize_stats e.1 e.2 s) zero_stats log.

Definition log_waits (log : list (Z * list InferenceRequest)) : list Z :=
  concat ((λ e : Z * list InferenceRequest, waited_us e.1 <$> e.2) <$> log).
Definition log_sizes (log : list (Z * list InferenceRequest)) : list Z :=
  (λ e : Z * list InferenceRequest, vec_size e.2) <$> log.

Definition maxZ (l : list Z) : Z := foldr Z.max 0 l.

Lemma foldr_max_app l1 l2 m : foldr Z.max m (l1 ++ l2) = Z.max (foldr Z.max m l1) (foldr Z.max m l2).
Proof. induction l1 as [|z l1 IH]; simpl; [induction l2; simpl; lia | lia]. Qed.

Lemma foldr_max_base l m : foldr Z.max m l = Z.max m (foldr Z.max m l).
Proof. induction l; simpl; lia. Qed.

Lemma foldr_max_start l m : 0 ≤ m → foldr Z.max m l = Z.max m (maxZ l).
Proof. unfold maxZ. induction l; simpl; lia. Qed.

Lemma stats_after_spec log :
  stats_after log =
    {| total_batches := u64 (vec_size log);
       total_requests := u64 (sumZ (log_sizes log));
       max_batch_size_seen := maxZ (log_sizes log);
       total_queue_wait_us := u64 (sumZ (log_waits log));
       max_queue_wait_us := maxZ (log_waits log);
       total_exec_us := 0 |}.
Proof.
  induction log as [|[t b] log IH] using rev_ind; [done |].
  unfold stats_after in *. rewrite foldl_app, IH. csimpl.
  unfold finalize_stats. rewrite record_wait_foldl. unfold count_batch. csimpl.
  unfold log_sizes, log_waits. rewrite !fmap_app, concat_app. csimpl.
  rewrite app_nil_r, !sumZ_app, vec_size_app. unfold maxZ. rewrite !foldr_max_app.
  rewrite u64_add_foldl, atomic_max_foldl, atomic_max_spec. csimpl.
  f_equal.
  - unfold u64_add, u64. by rewrite Zplus_mod_idemp_l.
  - unfold u64_add, u64. rewrite Zplus_mod_idemp_l. f_equal. lia.
  - pose proof (vec_size_nonneg b). lia.
  - apply foldr_max_start. clear. generalize (concat ((λ e : Z * list InferenceRequest,
      waited_us e.1 <$> e.2) <$> log)). induction l; simpl; lia.
Qed.

(** *** The engine call on a validated batch *)

Section ExecuteLemmas.
Context {E : Type} `{HE : IExecutionEngine E} (good : E → Prop) (max_rows : Z)
  (row : list float → list float) (errors : exn → Prop) (cfg : SchedulerConfig).
Context `{HC : !EngineContract E good max_rows (input_elems cfg) (output_elems cfg) row errors}.

Lemma gather_rows batch :
  Forall (well_sized cfg) batch → Forall (λ r, vec_size r = input_elems cfg) (input_data <$> batch).
Proof. intros Hw. apply Forall_fmap. exact Hw. Qed.

(** Slicing the engine's output gives request [i] the row computed from its own
    input. *)
Lemma row_result_contract batch i r :
  0 ≤ output_elems cfg → Forall (well_sized cfg) batch → batch !! i = Some r →
  row_result (output_elems cfg) (concat (row <$> (input_data <$> batch))) i r =
    Value {| res_request_id := request_id r; logits := row (input_data r) |}.
Proof.
  intros Hoe Hw Hi. unfold row_result. do 2 f_equal.
  apply slice_concat_uniform.
  - apply uniform_nat; [done |]. rewrite !Forall_fmap.
    eapply Forall_impl; [exact Hw |]. intros x Hx. simpl. by apply row_size.
  - by rewrite !list_lookup_fmap, Hi.
Qed.

Lemma output_size batch :
  0 ≤ output_elems cfg → Forall (well_sized cfg) batch →
  vec_size (concat (row <$> (input_data <$> batch))) = vec_size batch * output_elems cfg.
Proof.
  intros Hoe Hw. rewrite (vec_size_concat _ (output_elems cfg)); [| done |].
  - unfold vec_size. by rewrite !length_fmap.
  - rewrite !Forall_fmap. eapply Forall_impl; [exact Hw |]. intros x Hx. simpl. by apply row_size.
Qed.

Lemma execute_batch_settles alloc_ok t0 t1 e s ps batch e' s' ps' o :
  good e → batch ≠ [] → vec_size batch ≤ max_rows → Forall (well_sized cfg) batch →
  0 ≤ output_elems cfg → max_rows * output_elems cfg < two64 →
  NoDup (promises batch) → all_pending ps batch → (∀ i, alloc_ok i = true) →
  execute_batch cfg alloc_ok t0 t1 e s ps batch = (e', s', (ps', o)) →
  good e' ∧ o = Ret tt ∧
  (settled (λ _ r, Value {| res_request_id := request_id r; logits := row (input_data r) |})
     batch ps ps' ∨
   ∃ x, errors x ∧ settled (λ _ _, Failed x) batch ps ps').
Proof.
  intros Hg Hne Hn Hw Hoe Hmax Hnd Hp Hal. unfold execute_batch. rewrite gather_concat.
  destruct (run_inference _ _ _ _ _) as [e1 o1] eqn:Hrun. intros Heq.
  assert (Hn' : vec_size (input_data <$> batch) = vec_size batch)
    by (unfold vec_size; by rewrite length_fmap).
  rewrite <- Hn' in Hrun.
  destruct (run_sound e (input_data <$> batch) e1 o1 Hg) as [Hg' [->|[x [-> Hx]]]];
    [by destruct batch | lia | by apply gather_rows | done | |].
  - destruct (deliver_rows cfg alloc_ok (concat (row <$> (input_data <$> batch))) batch ps)
      as (ps1 & H1 & Ha & Hb); auto using output_size.
    { rewrite output_size by done. nia. }
    rewrite H1 in Heq. simplify_eq. split; [done |]. split; [done |]. left.
    split; [| done]. intros i r Hi. rewrite (Ha i r Hi). by rewrite row_result_contract.
  - destruct (deliver_throw cfg alloc_ok (Throw x) x batch ps eq_refl Hnd Hp) as (ps1 & H1 & H2).
    rewrite H1 in Heq. simplify_eq. split; [done |]. split; [done |]. right. by exists x.
Qed.
End ExecuteLemmas.

(** *** The loop when memory for a row runs out *)

Lemma resolve_loop_stops cfg alloc_ok out k batch ps j :
  NoDup (promises batch) → all_pending ps batch → 0 ≤ output_elems cfg →
  (Z.of_nat k + vec_size batch) * output_elems cfg ≤ vec_size out → vec_size out < two64 →
  (j < length batch)%nat → (∀ i, (k ≤ i < k + j)%nat → alloc_ok i = true) →
  alloc_ok (k + j)%nat = false →
  ∃ ps', resolve_loop cfg alloc_ok out k batch ps = (ps', Throw BadAlloc) ∧
    settled (λ i, row_result (output_elems cfg) out (k + i)) (take j batch) ps ps'.
Proof.
  revert k ps j. induction batch as [|r batch IH]; intros k ps j Hnd Hp Hoe Hout Hmax Hj Hal Hbad;
    simpl in Hj; [lia |].
  assert (Hc : vec_size (r :: batch) = 1 + vec_size batch) by (unfold vec_size; simpl; lia).
  pose proof (vec_size_nonneg batch). simpl. rewrite !u64_mul_small by nia.
  replace ((Z.of_nat k + 1) * output_elems cfg - Z.of_nat k * output_elems cfg)
    with (output_elems cfg) by lia.
  rewrite read_range_Ret by nia. simpl.
  destruct j as [|j].
  { rewrite Nat.add_0_r in Hbad. rewrite Hbad. exists ps. split; [done | apply settled_nil]. }
  rewrite Hal by lia.
  assert (Hnd1 : NoDup (promises (r :: take j batch))).
  { unfold promises in *. rewrite <- (take_drop j batch) in Hnd. rewrite fmap_cons, fmap_app in Hnd.
    rewrite app_comm_cons in Hnd. by apply NoDup_app in Hnd as [? _]. }
  assert (Hp1 : all_pending ps (r :: take j batch)).
  { apply Forall_cons_1 in Hp as [? ?]. constructor; [done | by apply Forall_take]. }
  destruct (settle_head (λ i, row_result (output_elems cfg) out (k + i))
    (row_result (output_elems cfg) out k r) r (take j batch) ps Hnd1 Hp1)
    as (ps1 & H1 & Hp2 & Hs); [done |].
  unfold set_value, row_result in *.
  replace (Z.to_nat (Z.of_nat k * output_elems cfg)) with (k * Z.to_nat (output_elems cfg))%nat by lia.
  rewrite H1. destruct (IH (S k) ps1 j) as (ps' & H2 & Ha & Hb); try done; try lia.
  - by apply NoDup_cons in Hnd as [_ ?].
  - apply NoDup_cons in Hnd as [Hni _]. apply Forall_cons_1 in Hp as [_ Hp].
    apply (all_pending_frame ps); [| done]. intros p Hin.
    apply make_ready_inv in H1 as (_ & _ & H1). apply H1. by intros ->.
  - intros i Hi. apply Hal. lia.
  - by rewrite Nat.add_succ_comm.
  - exists ps'. split; [done |]. apply Hs; [| by rewrite Nat.add_0_r].
    split; [| done]. intros i r' Hi. rewrite (Ha i r' Hi). by rewrite Nat.add_succ_r.
Qed.

(** ** Properties *)

(** C4: batch-row to request mapping. For every engine that meets the interface
    contract, executing a validated batch resolves every promise of the batch
    exactly once: either each request [r] gets a result with its own
    [request_id] and the row the engine computes from [r]'s own input, or all of
    them get the same exception, one of those the engine may throw (with an engine
    that never throws, every request gets its row); no other promise is touched
    and the worker survives. The copies of result rows allocate;
    [copy_failure_after_first_row] is the other case. *)
Theorem execute_batch_correct (E : Type) (HE : IExecutionEngine E) (good : E → Prop) (max_rows : Z)
  (row : list float → list float) (errors : exn → Prop) (cfg : SchedulerConfig) (alloc_ok : nat → bool)
  (exec_started exec_ended : Z) (e : E) (s : SchedulerStats) (ps : pstore)
  (batch : list InferenceRequest)
  (HC : EngineContract E good max_rows (input_elems cfg) (output_elems cfg) row errors)
  (Hgood : good e) (Hne : batch ≠ []) (Hn : vec_size batch ≤ max_rows)
  (Hw : Forall (well_sized cfg) batch) (Hoe : 0 ≤ output_elems cfg)
  (Hfit : max_rows * output_elems cfg < two64)
  (Hnd : NoDup (promises batch)) (Hp : all_pending ps batch) (Hal : ∀ i, alloc_ok i = true) :
  ∃ e' s' ps', execute_batch cfg alloc_ok exec_started exec_ended e s ps batch = (e', s', (ps', Ret tt)) ∧
    good e' ∧
    (settled (λ _ r, Value {| res_request_id := request_id r; logits := row (input_data r) |})
       batch ps ps' ∨
     ∃ x, errors x ∧ settled (λ _ _, Failed x) batch ps ps').
Proof.
  destruct (execute_batch cfg alloc_ok exec_started exec_ended e s ps batch) as [[e' s'] [ps' o]] eqn:He.
  destruct (execute_batch_settles good max_rows row errors cfg alloc_ok exec_started exec_ended e s ps batch
    e' s' ps' o) as (Hg & -> & Hs); try done.
  by exists e', s', ps'.
Qed.

(** C28: a mis-sized request fails alone. Validation of a drained batch succeeds,
    keeps exactly the well-sized requests in their order, sets the size error on
    the promise of every other one, and leaves all remaining promises (those of
    the batch-mates included) untouched. *)
Theorem validate_isolates_bad_input (cfg : SchedulerConfig) (drained : list InferenceRequest)
  (ps : pstore) (Hnd : NoDup (promises drained)) (Hp : all_pending ps drained) :
  ∃ ps', validate cfg drained ps = Ret (filter (well_sized cfg) drained, ps') ∧
    (∀ r, r ∈ drained → ¬ well_sized cfg r →
          state_of ps' (result_promise r) = Some (Failed size_error)) ∧
    (∀ r, r ∈ drained → well_sized cfg r → pending ps' (result_promise r)) ∧
    (∀ p, p ∉ promises drained → ps' !! p = ps !! p).
Proof.
  destruct (validate_settles cfg drained ps Hnd Hp) as (ps' & H1 & Ha & Hb).
  assert (Hbad : ∀ p, p ∈ promises (filter (λ r, ¬ well_sized cfg r) drained) →
    ∃ r, p = result_promise r ∧ r ∈ drained ∧ ¬ well_sized cfg r).
  { intros p Hin. apply list_elem_of_fmap in Hin as (x & -> & Hx).
    apply list_elem_of_filter in Hx as [? ?]. eauto. }
  exists ps'. split; [done |]. split; [| split].
  - intros r Hr Hw. assert (Hin : r ∈ filter (λ r, ¬ well_sized cfg r) drained)
      by by apply list_elem_of_filter.
    apply list_elem_of_lookup in Hin as [i Hi]. by apply Ha in Hi.
  - intros r Hr Hw. unfold pending, state_of. rewrite Hb; [by eapply Forall_forall in Hp |].
    intros Hin. apply Hbad in Hin as (x & Heq & Hx & Hnw). apply Hnw.
    assert (x = r) as ->; [| done].
    apply list_elem_of_lookup in Hx as [i Hi], Hr as [j Hj].
    assert (i = j) as ->; [| by simplify_eq].
    eapply NoDup_lookup; [exact Hnd | |]; unfold promises; rewrite list_lookup_fmap.
    + by rewrite Hi. + rewrite Hj. simpl. by rewrite Heq.
  - intros p Hin. apply Hb. intros Hin'. apply Hbad in Hin' as (x & -> & Hx & _).
    apply Hin. by apply list_elem_of_fmap_2.
Qed.

(** C29: an engine failure reaches every caller. Whether the engine throws [e] or
    returns a buffer of the wrong size, every promise of the batch gets that
    exception, so no caller waits forever, and the worker goes on. *)
Theorem engine_failure_reaches_all (cfg : SchedulerConfig) (alloc_ok : nat → bool) (e : exn)
  (out : list float) (batch : list InferenceRequest) (ps : pstore)
  (Hnd : NoDup (promises batch)) (Hp : all_pending ps batch)
  (Hsize : vec_size out ≠ u64_mul (vec_size batch) (output_elems cfg)) :
  (∃ ps', deliver cfg alloc_ok (Throw e) batch ps = (ps', Ret tt) ∧
          settled (λ _ _, Failed e) batch ps ps') ∧
  (∃ ps', deliver cfg alloc_ok (Ret out) batch ps = (ps', Ret tt) ∧
          settled (λ _ _, Failed (InferenceError "engine returned an unexpected output size"))
            batch ps ps').
Proof.
  split; apply deliver_throw; try done.
  unfold try_block. by rewrite (proj2 (Z.eqb_neq _ _) Hsize).
Qed.

(** Memory exhaustion while results are copied out. If the first row cannot
    be copied, every caller gets [std::bad_alloc]; but if row [j] is the first
    that cannot be copied and [j > 0], the handler meets a promise that already
    holds its value: the second [set_exception] throws out of the worker thread
    (the process terminates) and the callers of rows [j], [j+1], ... get nothing. *)
Theorem copy_failure_after_first_row (cfg : SchedulerConfig) (alloc_ok : nat → bool)
  (out : list float) (batch : list InferenceRequest) (ps : pstore) (j : nat)
  (Hnd : NoDup (promises batch)) (Hp : all_pending ps batch) (Hoe : 0 ≤ output_elems cfg)
  (Hsize : vec_size out = vec_size batch * output_elems cfg) (Hmax : vec_size out < two64)
  (Hj : (j < length batch)%nat) (Hok : ∀ i, (i < j)%nat → alloc_ok i = true)
  (Hbad : alloc_ok j = false) :
  (j = 0%nat → ∃ ps', deliver cfg alloc_ok (Ret out) batch ps = (ps', Ret tt) ∧
                settled (λ _ _, Failed BadAlloc) batch ps ps') ∧
  (j ≠ 0%nat → ∃ ps', deliver cfg alloc_ok (Ret out) batch ps =
                  (ps', Throw (FutureError promise_already_satisfied)) ∧
                all_pending ps' (drop j batch)).
Proof.
  assert (Htry : ∃ ps', try_block cfg alloc_ok (Ret out) batch ps = (ps', Throw BadAlloc) ∧
    settled (λ i, row_result (output_elems cfg) out i) (take j batch) ps ps').
  { unfold try_block. pose proof (vec_size_nonneg batch).
    rewrite u64_mul_small by lia. rewrite (proj2 (Z.eqb_eq _ _) Hsize). simpl.
    apply (resolve_loop_stops cfg alloc_ok out 0 batch ps j); try done; [lia |].
    intros i Hi. apply Hok. lia. }
  destruct Htry as (ps1 & Ht & Ha & Hb). split; intros Hj0.
  - subst j. assert (Hps : ps1 = ps) by (apply map_eq; intros p; apply Hb; apply not_elem_of_nil).
    subst ps1. by apply (deliver_throw _ _ _ BadAlloc).
  - destruct batch as [|r batch]; [simpl in Hj; lia |]. destruct j as [|j]; [done |].
    exists ps1. split.
    + unfold deliver. rewrite Ht. eapply fail_all_satisfied; [by apply (Ha 0%nat r) | done].
    + apply (all_pending_frame ps); [| by apply Forall_drop].
      intros p Hin. apply Hb. intros Hin'.
      rewrite <- (take_drop (S j) (r :: batch)) in Hnd. unfold promises in *.
      rewrite fmap_app in Hnd. apply NoDup_app in Hnd as (_ & Hdisj & _). by apply (Hdisj p).
Qed.

(** The compare-and-swap loops that maintain the maxima terminate after any
    finite number of spurious failures and concurrent stores (a reset, say), and
    leave the cell holding the maximum of the candidate and a value the cell
    held during the loop. *)
Theorem cas_max_terminates (env : list cas_env) (cell candidate : Z) :
  ∃ seen, seen ∈ cell :: omap cas_store env ∧
    cas_max (env ++ [cas_quiet]) cell cell candidate = Some (Z.max seen candidate).
Proof.
  revert cell. induction env as [|a env IH]; intros cell; simpl.
  - exists cell. split; [set_solver |]. destruct (Z.ltb_spec cell candidate).
    + rewrite Z.eqb_refl. simpl. f_equal. lia.
    + f_equal. lia.
  - destruct (Z.ltb_spec cell candidate) as [Hlt|Hge].
    + destruct (negb (cas_spurious a) && _) eqn:Hs.
      * exists cell. split; [set_solver |]. f_equal. lia.
      * destruct (IH (default cell (cas_store a))) as (seen & Hin & Heq).
        exists seen. split; [| done]. destruct (cas_store a); simpl in *; [| done]. by apply list_elem_of_further.
    + exists cell. split; [set_solver |]. f_equal. lia.
Qed.

(** The counters account for every served request. After any sequence of
    finalized batches, as long as the sums stay below 2^64, [total_requests] is
    the number of requests in them, [total_batches] their number,
    [max_batch_size_seen] the largest, and the queue-wait counters the sum and
    the maximum of the waits of all requests. *)
Theorem stats_account_for_all (log : list (Z * list InferenceRequest))
  (Hb : vec_size log < two64) (Hr : sumZ (log_sizes log) < two64)
  (Hw : sumZ (log_waits log) < two64) :
  total_batches (stats_after log) = vec_size log ∧
  total_requests (stats_after log) = sumZ (log_sizes log) ∧
  max_batch_size_seen (stats_after log) = maxZ (log_sizes log) ∧
  total_queue_wait_us (stats_after log) = sumZ (log_waits log) ∧
  max_queue_wait_us (stats_after log) = maxZ (log_waits log).
Proof.
  rewrite stats_after_spec. simpl.
  assert (Hnn : ∀ l : list Z, Forall (λ z, 0 ≤ z) l → 0 ≤ sumZ l)
    by (induction 1; simpl; lia).
  pose proof (vec_size_nonneg log).
  assert (0 ≤ sumZ (log_sizes log)).
  { apply Hnn. unfold log_sizes. apply Forall_fmap, Forall_true. intros. apply vec_size_nonneg. }
  assert (0 ≤ sumZ (log_waits log)).
  { apply Hnn. unfold log_waits. apply Forall_concat, Forall_fmap, Forall_true. intros x.
    simpl. apply Forall_fmap, Forall_true. intros r. unfold compose, waited_us.
    destruct (0 <? _); [apply u64_range | lia]. }
  repeat split; apply u64_id; unfold is_u64; lia.
Qed.

(** ** Witnesses: the stub engine on one-float rows *)

Definition demo_cfg : SchedulerConfig :=
  {| max_batch_size := 4; max_wait := 50; input_elems := 1; output_elems := 1 |}.

Definition demo_batch : list InferenceRequest := [demo_request 1; demo_request 2; demo_request 3].

Definition demo_store : pstore :=
  new_promise 2%positive (new_promise 3%positive (new_promise 4%positive (new_promise 5%positive ∅))).

(** The same batch with a two-float input in the middle. *)
Definition demo_bad : InferenceRequest :=
  {| request_id := 4; input_data := [f32_lit 1 1; f32_lit 2 1]; arrival_time := 0;
     result_promise := 5%positive |}.

Lemma demo_batch_nodup : NoDup (promises demo_batch).
Proof. apply (bool_decide_unpack _). by vm_compute. Qed.

Lemma demo_batch_pending : all_pending demo_store demo_batch.
Proof. repeat constructor. Qed.

Lemma demo_batch_sized : Forall (well_sized demo_cfg) demo_batch.
Proof. repeat constructor. Qed.

Lemma execute_batch_correct_witness :
  ∃ e' s' ps', execute_batch demo_cfg (λ _, true) 0 1000 stub_engine zero_stats demo_store demo_batch =
      (e', s', (ps', Ret tt)) ∧
    settled (λ _ r, Value {| res_request_id := request_id r; logits := fit_row 1 (input_data r) |})
       demo_batch demo_store ps'.
Proof.
  destruct (execute_batch_correct StubExecutionEngine _ (λ _, True) 4 (fit_row 1) (λ _, False) demo_cfg (λ _, true)
    0 1000 stub_engine zero_stats demo_store demo_batch) as (e' & s' & ps' & Hex & _ & [Hset|(x & [] & _)]);
    try done; [by apply (stub_contract 4 1 1) | exact demo_batch_sized | exact demo_batch_nodup |
      exact demo_batch_pending | by eexists _, _, _].
Defined.

Lemma validate_isolates_bad_input_witness :
  ∃ ps', validate demo_cfg [demo_request 1; demo_bad; demo_request 3] demo_store =
           Ret ([demo_request 1; demo_request 3], ps') ∧
         state_of ps' 5%positive = Some (Failed size_error) ∧ pending ps' 4%positive.
Proof.
  destruct (validate_isolates_bad_input demo_cfg [demo_request 1; demo_bad; demo_request 3] demo_store)
    as (ps' & H1 & H2 & H3 & _).
  - apply (bool_decide_unpack _). by vm_compute.
  - repeat constructor.
  - exists ps'. split; [exact H1 |]. split.
    + apply (H2 demo_bad); [set_solver | done].
    + apply (H3 (demo_request 3)); [set_solver | done].
Defined.

Lemma engine_failure_reaches_all_witness :
  ∃ ps', deliver demo_cfg (λ _, true) (Throw (CudaError "out of memory")) demo_batch demo_store =
           (ps', Ret tt) ∧
         settled (λ _ _, Failed (CudaError "out of memory")) demo_batch demo_store ps'.
Proof.
  refine (proj1 (engine_failure_reaches_all demo_cfg (λ _, true) (CudaError "out of memory") []
    demo_batch demo_store demo_batch_nodup demo_batch_pending _)). done.
Defined.

Lemma copy_failure_after_first_row_witness :
  ∃ ps', deliver demo_cfg (λ i, Nat.eqb i 0) (Ret [f32_zero; f32_zero; f32_zero]) demo_batch demo_store =
           (ps', Throw (FutureError promise_already_satisfied)) ∧
         all_pending ps' [demo_request 2; demo_request 3].
Proof.
  refine (proj2 (copy_failure_after_first_row demo_cfg (λ i, Nat.eqb i 0)
    [f32_zero; f32_zero; f32_zero] demo_batch demo_store 1 demo_batch_nodup demo_batch_pending
    _ _ _ _ _ _) _); try done; try (simpl; lia).
  intros i Hi. by assert (i = 0%nat) as -> by lia.
Defined.

Lemma stats_account_for_all_witness :
  total_requests (stats_after [(5000, demo_batch); (9000, [demo_request 1])]) = 4 ∧
  total_queue_wait_us (stats_after [(5000, demo_batch); (9000, [demo_request 1])]) = 24.
Proof.
  destruct (stats_account_for_all [(5000, demo_batch); (9000, [demo_request 1])])
    as (_ & H1 & _ & H2 & _); [done | done | done |].
  split; [exact H1 | exact H2].
Defined.
