(* ===== verification/Counters.v ===== *)
(** * The counters, access by access

    The six atomic counters of the scheduler (src/cpp/include/cuda_db/scheduler/scheduler.hpp)
    as [run_loop] and [reset_stats] access them (src/cpp/src/scheduler/scheduler.cpp): every
    [fetch_add], [load], [compare_exchange_weak] and [store] is one instruction, and other
    threads may store between any two of the worker's. [Scheduler] has the same updates as
    functions on the whole record ([finalize_stats], [record_exec], [reset_store]); here
    they are shown to be what the instructions amount to. *)

From Stdlib Require Import ZArith Lia.
From stdpp Require Import base numbers strings list.
From S2P Require Import Prelude Machine Request Scheduler.

(** ** Cells *)

Inductive counter :=
  | TotalBatches | TotalRequests | MaxBatchSizeSeen | TotalQueueWaitUs | MaxQueueWaitUs | TotalExecUs.

#[export] Instance counter_eq_dec : EqDecision counter.
Proof. solve_decision. Defined.

Definition load (c : counter) (s : SchedulerStats) : Z :=
  match c with
  | TotalBatches => total_batches s
  | TotalRequests => total_requests s
  | MaxBatchSizeSeen => max_batch_size_seen s
  | TotalQueueWaitUs => total_queue_wait_us s
  | MaxQueueWaitUs => max_queue_wait_us s
  | TotalExecUs => total_exec_us s
  end.

Definition store (c : counter) (v : Z) (s : SchedulerStats) : SchedulerStats :=
  {| total_batches := if decide (c = TotalBatches) then v else total_batches s;
     total_requests := if decide (c = TotalRequests) then v else total_requests s;
     max_batch_size_seen := if decide (c = MaxBatchSizeSeen) then v else max_batch_size_seen s;
     total_queue_wait_us := if decide (c = TotalQueueWaitUs) then v else total_queue_wait_us s;
     max_queue_wait_us := if decide (c = MaxQueueWaitUs) then v else max_queue_wait_us s;
     total_exec_us := if decide (c = TotalExecUs) then v else total_exec_us s |}.

Lemma load_store c c' v s : load c (store c' v s) = if decide (c' = c) then v else load c s.
Proof. by destruct c, c'. Qed.

Lemma store_load c s : store c (load c s) s = s.
Proof. by destruct c, s. Qed.

(** The stores of [reset_stats], in its order. *)
Definition reset_cells : list counter :=
  [TotalBatches; TotalRequests; MaxBatchSizeSeen; TotalQueueWaitUs; MaxQueueWaitUs; TotalExecUs].

Lemma reset_store_cells i s : reset_store i s = from_option (λ c, store c 0 s) s (reset_cells !! i).
Proof. destruct s. by do 6 (destruct i as [|i]; [done |]). Qed.

(** ** The worker's instructions *)

(** [fetch_add]; the load before a compare-and-swap loop; an iteration of that loop, with
    the value last seen. *)
Inductive instr :=
  | FetchAdd (c : counter) (n : Z)
  | Load (c : counter) (candidate : Z)
  | Exchange (c : counter) (previous candidate : Z).

(** One instruction: the cells afterwards, and what is left to do of it. A failed exchange
    leaves the cell's value in [previous]; a weak one may fail for no reason. *)
Definition run_instr (spurious : bool) (i : instr) (s : SchedulerStats) : SchedulerStats * list instr :=
  match i with
  | FetchAdd c n => (store c (u64_add (load c s) n) s, [])
  | Load c candidate => (s, [Exchange c (load c s) candidate])
  | Exchange c previous candidate =>
      if previous <? candidate then
        if negb spurious && (load c s =? previous) then (store c candidate s, [])
        else (s, [Exchange c (load c s) candidate])
      else (s, [])
  end.

(** The counters of a batch, before and after its clock reading. *)
Definition count_instrs (n : Z) : list instr :=
  [FetchAdd TotalBatches 1; FetchAdd TotalRequests n; Load MaxBatchSizeSeen n].

Definition wait_instrs (dequeued_at : Z) (batch : list InferenceRequest) : list instr :=
  batch ≫= λ req, [FetchAdd TotalQueueWaitUs (waited_us dequeued_at req);
                   Load MaxQueueWaitUs (waited_us dequeued_at req)].

(** ** What they amount to *)

(** Updates of a cell in one go. *)
Inductive update :=
  | Add (c : counter) (n : Z)
  | Raise (c : counter) (candidate : Z)
  | Zero (c : counter).

Definition apply_update (s : SchedulerStats) (u : update) : SchedulerStats :=
  match u with
  | Add c n => store c (u64_add (load c s) n) s
  | Raise c candidate => store c (Z.max (load c s) candidate) s
  | Zero c => store c 0 s
  end.

Definition replay (h : list update) (s : SchedulerStats) : SchedulerStats := foldl apply_update s h.

Lemma replay_app h1 h2 s : replay (h1 ++ h2) s = replay h2 (replay h1 s).
Proof. apply foldl_app. Qed.

(** The update an instruction still has to make. An exchange whose [previous] is not below
    the candidate has found the maximum in place, at the moment it read that value. *)
Definition due (i : instr) : list update :=
  match i with
  | FetchAdd c n => [Add c n]
  | Load c candidate => [Raise c candidate]
  | Exchange c previous candidate => if previous <? candidate then [Raise c candidate] else []
  end.

(** Every instruction makes its update at one instant, or none yet. *)
Lemma run_instr_linear spurious i s s' l :
  run_instr spurious i s = (s', l) → ∃ h, s' = replay h s ∧ due i = h ++ (l ≫= due).
Proof.
  assert (Hreread : ∀ c candidate, ∃ h, s = replay h s ∧
    [Raise c candidate] = h ++ ([Exchange c (load c s) candidate] ≫= due)).
  { intros c candidate. simpl. rewrite app_nil_r. destruct (Z.ltb_spec (load c s) candidate); [by exists [] |].
    exists [Raise c candidate]. split; [| done]. simpl. by rewrite Z.max_l, store_load by lia. }
  destruct i as [c n|c candidate|c previous candidate]; simpl.
  - intros [= <- <-]. by exists [Add c n].
  - intros [= <- <-]. apply Hreread.
  - destruct (Z.ltb_spec previous candidate) as [Hlt|Hge]; [| intros [= <- <-]; by exists []].
    destruct (negb spurious && (load c s =? previous)) eqn:Hok; intros [= <- <-]; [| apply Hreread].
    apply andb_true_iff in Hok as [_ Heq%Z.eqb_eq]. exists [Raise c candidate]. split; [| done]. simpl.
    by rewrite Z.max_r by lia.
Qed.

(** The updates of a batch are the ones [Scheduler] makes at once. *)
Definition batch_updates (dequeued_at : Z) (batch : list InferenceRequest) : list update :=
  (count_instrs (vec_size batch) ++ wait_instrs dequeued_at batch) ≫= due.

Lemma replay_waits t batch s : replay (wait_instrs t batch ≫= due) s = foldl (record_wait t) s batch.
Proof.
  revert s. induction batch as [|r batch IH]; intros s; [done |]. simpl. rewrite <- IH. f_equal.
  destruct s. unfold record_wait. by rewrite atomic_max_spec.
Qed.

Lemma replay_batch t batch s : replay (batch_updates t batch) s = finalize_stats t batch s.
Proof.
  unfold batch_updates, finalize_stats. rewrite bind_app, replay_app, replay_waits. f_equal.
  destruct s. unfold count_batch. by rewrite atomic_max_spec.
Qed.

Lemma replay_exec us s : replay [Add TotalExecUs us] s = record_exec us s.
Proof. by destruct s. Qed.

Lemma replay_reset i s : replay (Zero <$> option_list (reset_cells !! i)) s = reset_store i s.
Proof. rewrite reset_store_cells. by destruct (reset_cells !! i). Qed.

(** ** How long they take *)

(** Instructions an undisturbed or disturbed worker still needs, spurious failures apart.
    Other threads only store zeros, so an exchange that has lost once has read zero and
    cannot lose again. *)
Definition instr_rank (i : instr) : nat :=
  match i with
  | FetchAdd _ _ => 1
  | Load _ _ => 3
  | Exchange _ previous candidate => if (previous <? candidate) && negb (previous =? 0) then 2 else 1
  end.

Definition instrs_rank (l : list instr) : nat := sum_list (instr_rank <$> l).

(** The cell of an exchange holds what was read, or was reset since. *)
Definition undisturbed (s : SchedulerStats) (i : instr) : Prop :=
  match i with
  | Exchange c previous _ => load c s = previous ∨ load c s = 0
  | _ => True
  end.

Lemma run_instr_rank i s s' l :
  undisturbed s i → run_instr false i s = (s', l) → (instrs_rank l < instr_rank i)%nat.
Proof.
  destruct i as [c n|c candidate|c previous candidate]; simpl; intros Hu.
  - intros [= <- <-]. cbn. lia.
  - intros [= <- <-]. cbn. destruct (_ && _); lia.
  - destruct (Z.ltb_spec previous candidate) as [Hlt|Hge]; [| intros [= <- <-]; cbn; lia].
    destruct (Z.eqb_spec (load c s) previous) as [Heq|Hne]; intros [= <- <-]; cbn; [destruct (previous =? 0); cbn; lia |].
    destruct Hu as [Hu|Hu]; [done |]. rewrite Hu in *. rewrite Z.eqb_refl, andb_false_r.
    destruct (Z.eqb_spec previous 0); [by subst |]. cbn. lia.
Qed.

Lemma run_instr_undisturbed spurious i s s' l :
  run_instr spurious i s = (s', l) → Forall (undisturbed s') l.
Proof.
  destruct i as [c n|c candidate|c previous candidate]; simpl.
  - by intros [= <- <-].
  - intros [= <- <-]. repeat constructor.
  - destruct (previous <? candidate); [| by intros [= <- <-]].
    destruct (_ && _); intros [= <- <-]; repeat constructor.
Qed.

Lemma reset_undisturbed i s j : undisturbed s i → undisturbed (reset_store j s) i.
Proof.
  rewrite reset_store_cells. destruct (reset_cells !! j) as [c|]; simpl; [| done].
  destruct i as [| |c' previous candidate]; simpl; [done | done |]. rewrite load_store. case_decide; auto.
Qed.
