(* ===== verification/System.v ===== *)
(** * The running scheduler: worker, producers, start and stop

    The concurrent behaviour of src/cpp/src/scheduler/scheduler.cpp on top of the
    queue's transition system: the worker thread runs [run_loop], any number of
    producers call [submit], any thread may reset the statistics, and one
    controlling thread calls [start] and [stop] (as the binding does from its
    constructor, [shutdown] and destructor).

    Granularity: the worker's code between two points where it blocks or calls the engine
    is one step: [begin_iteration] from the return of [wait_and_drain] to the engine call,
    [end_iteration] from the engine call to the end of the iteration. What it touches in
    between is its own batch, the promises of that batch (each written once, read by one
    caller) and the counters, whose concurrent updates are the subject of [cas_max] and
    [reset_store] in [Scheduler]. [Delivery] cuts the worker at every promise it settles and
    every counter it touches, [Lifecycle] cuts [start] and [stop] at every access; both
    are proved to refine the system below. *)

From Stdlib Require Import ZArith Lia.
From stdpp Require Import base numbers strings relations gmap list.
From S2P Require Import Prelude Machine Request RequestQueue Engine Scheduler.

(** The worker thread outside [wait_and_drain]: not created, in its loop, inside
    the engine call with a validated batch, returned from [run_loop], or left by
    an exception ([std::terminate]). *)
Inductive worker_mode :=
  | NotStarted
  | Looping
  | Executing (batch : list InferenceRequest) (exec_started : Z)
  | Exited
  | Crashed.

#[export] Instance worker_mode_eq_dec : EqDecision worker_mode.
Proof. solve_decision. Defined.

(** The controlling thread inside [stop]: after clearing [running_], after
    [queue_.shutdown()] (about to join). *)
Inductive ctrl_pc := CtrlIdle | StopCleared | StopJoining.

(** The queue and its consumer ([sy_core]; while the worker executes a batch the
    consumer holds the drained requests), and the scheduler's own members. *)
Record sys (E : Type) := {
  sy_core : qsys;
  sy_worker : worker_mode;
  sy_joinable : bool;
  sy_running : bool;
  sy_ctrl : ctrl_pc;
  sy_store : pstore;
  sy_engine : E;
  sy_stats : SchedulerStats
}.
Arguments sy_core {E} _.
Arguments sy_worker {E} _.
Arguments sy_joinable {E} _.
Arguments sy_running {E} _.
Arguments sy_ctrl {E} _.
Arguments sy_store {E} _.
Arguments sy_engine {E} _.
Arguments sy_stats {E} _.

Section Updates.
Context {E : Type}.

Definition with_core (c : qsys) (s : sys E) : sys E :=
  {| sy_core := c; sy_worker := sy_worker s; sy_joinable := sy_joinable s;
     sy_running := sy_running s; sy_ctrl := sy_ctrl s; sy_store := sy_store s;
     sy_engine := sy_engine s; sy_stats := sy_stats s |}.
Definition with_worker (w : worker_mode) (s : sys E) : sys E :=
  {| sy_core := sy_core s; sy_worker := w; sy_joinable := sy_joinable s;
     sy_running := sy_running s; sy_ctrl := sy_ctrl s; sy_store := sy_store s;
     sy_engine := sy_engine s; sy_stats := sy_stats s |}.
Definition with_store (ps : pstore) (s : sys E) : sys E :=
  {| sy_core := sy_core s; sy_worker := sy_worker s; sy_joinable := sy_joinable s;
     sy_running := sy_running s; sy_ctrl := sy_ctrl s; sy_store := ps;
     sy_engine := sy_engine s; sy_stats := sy_stats s |}.
Definition with_stats (st : SchedulerStats) (s : sys E) : sys E :=
  {| sy_core := sy_core s; sy_worker := sy_worker s; sy_joinable := sy_joinable s;
     sy_running := sy_running s; sy_ctrl := sy_ctrl s; sy_store := sy_store s;
     sy_engine := sy_engine s; sy_stats := st |}.
Definition with_engine (e : E) (s : sys E) : sys E :=
  {| sy_core := sy_core s; sy_worker := sy_worker s; sy_joinable := sy_joinable s;
     sy_running := sy_running s; sy_ctrl := sy_ctrl s; sy_store := sy_store s;
     sy_engine := e; sy_stats := sy_stats s |}.
Definition with_ctrl (joinable running : bool) (c : ctrl_pc) (s : sys E) : sys E :=
  {| sy_core := sy_core s; sy_worker := sy_worker s; sy_joinable := joinable;
     sy_running := running; sy_ctrl := c; sy_store := sy_store s;
     sy_engine := sy_engine s; sy_stats := sy_stats s |}.

(** [Scheduler(engine, config)]: only stores its arguments. *)
Definition new_scheduler (now : Z) (e : E) : sys E :=
  {| sy_core := qs_init now; sy_worker := NotStarted; sy_joinable := false; sy_running := false;
     sy_ctrl := CtrlIdle; sy_store := ∅; sy_engine := e; sy_stats := zero_stats |}.
End Updates.

(** The consumer hands the drained requests over and calls [wait_and_drain] again. *)
Definition handover (c : qsys) : qsys :=
  match qs_consumer c with
  | Drained b =>
      {| qs_queue := qs_queue c; qs_now := qs_now c; qs_consumer := Entering;
         qs_signals := qs_signals c; qs_accepted := qs_accepted c;
         qs_delivered := qs_delivered c ++ b; qs_opened := qs_opened c |}
  | _ => c
  end.

Definition core_shutdown (c : qsys) : qsys :=
  {| qs_queue := shutdown (qs_queue c); qs_now := qs_now c; qs_consumer := qs_consumer c;
     qs_signals := S (qs_signals c); qs_accepted := qs_accepted c;
     qs_delivered := qs_delivered c; qs_opened := qs_opened c |}.

(** What [queue_.push] did to the system: queue, pending notification, history. *)
Definition core_push (q : RequestQueue) (accepted : bool) (r : InferenceRequest) (c : qsys) : qsys :=
  {| qs_queue := q; qs_now := qs_now c; qs_consumer := qs_consumer c;
     qs_signals := if accepted then S (qs_signals c) else qs_signals c;
     qs_accepted := if accepted then qs_accepted c ++ [r] else qs_accepted c;
     qs_delivered := qs_delivered c; qs_opened := qs_opened c |}.

Section Steps.
Context {E : Type} `{IExecutionEngine E}.
Variables (cfg : SchedulerConfig) (alloc_ok : nat → bool).

(** [run_loop] from the return of [wait_and_drain] with [drained] to the engine
    call (or to the next iteration, or to the exit). *)
Definition begin_iteration (drained : list InferenceRequest) (s : sys E) : sys E :=
  match drained with
  | [] =>
      if negb (sy_running s) then with_worker Exited s
      else with_core (handover (sy_core s)) s
  | _ =>
      match validate cfg drained (sy_store s) with
      | Ret ([], ps) => with_core (handover (sy_core s)) (with_store ps s)
      | Ret (batch, ps) =>
          let now := qs_now (sy_core s) in
          with_worker (Executing batch now)
            (with_stats (finalize_stats now batch (sy_stats s)) (with_store ps s))
      | _ => with_worker Crashed s
      end
  end.

(** [run_loop] from the engine call to the end of the iteration. *)
Definition end_iteration (batch : list InferenceRequest) (exec_started : Z) (s : sys E) : sys E :=
  let '(e, st, (ps, o)) := execute_batch cfg alloc_ok exec_started (qs_now (sy_core s))
                             (sy_engine s) (sy_stats s) (sy_store s) batch in
  let s' := with_engine e (with_stats st (with_store ps s)) in
  match o with
  | Ret _ => with_core (handover (sy_core s)) (with_worker Looping s')
  | _ => with_worker Crashed s'
  end.

(** [submit] by a producer whose request carries a fresh promise. *)
Definition submit_step (r : InferenceRequest) (s : sys E) : sys E * outcome unit :=
  let '(q, ps, o) := submit (qs_queue (sy_core s)) (new_promise (result_promise r) (sy_store s)) r in
  let accepted := match o with Ret _ => true | _ => false end in
  (with_core (core_push q accepted r (sy_core s)) (with_store ps s), o).

(** [start]: no-op when [running_] was already set, else spawn the worker.
    Assigning to a joinable [std::thread] would terminate. *)
Definition start (s : sys E) : sys E :=
  if sy_running s then s
  else if sy_joinable s then with_worker Crashed (with_ctrl true true (sy_ctrl s) s)
  else with_core (handover (sy_core s)) (with_worker Looping (with_ctrl true true (sy_ctrl s) s)).

(** [stop], up to its three scheduling points. *)
Definition stop_clear (s : sys E) : sys E := with_ctrl (sy_joinable s) false StopCleared s.
Definition stop_shutdown (s : sys E) : sys E :=
  with_core (core_shutdown (sy_core s)) (with_ctrl (sy_joinable s) (sy_running s) StopJoining s).
Definition stop_return (s : sys E) : sys E := with_ctrl false (sy_running s) CtrlIdle s.

(** Steps of the worker's own thread, when it can run. *)
Inductive worker_step : sys E → sys E → Prop :=
  | ws_wait s : sy_worker s = Looping → runnable (qs_now (sy_core s)) (qs_consumer (sy_core s)) = true →
      worker_step s (with_core (run_consumer (max_batch_size cfg) (max_wait cfg) (sy_core s)) s)
  | ws_begin s d : sy_worker s = Looping → qs_consumer (sy_core s) = Drained d →
      worker_step s (begin_iteration d s)
  | ws_end s batch t0 : sy_worker s = Executing batch t0 →
      worker_step s (end_iteration batch t0 s).

(** A notification that was issued reaches the worker. *)
Inductive signal_step : sys E → sys E → Prop :=
  | ss_signal s n : qs_signals (sy_core s) = S n →
      signal_step s
        (with_core {| qs_queue := qs_queue (sy_core s); qs_now := qs_now (sy_core s);
                      qs_consumer := notify (qs_consumer (sy_core s)); qs_signals := n;
                      qs_accepted := qs_accepted (sy_core s);
                      qs_delivered := qs_delivered (sy_core s);
                      qs_opened := qs_opened (sy_core s) |} s).

Inductive sstep : sys E → sys E → Prop :=
  | st_tick s d : 0 ≤ d →
      sstep s (with_core {| qs_queue := qs_queue (sy_core s); qs_now := qs_now (sy_core s) + d;
                            qs_consumer := qs_consumer (sy_core s);
                            qs_signals := qs_signals (sy_core s);
                            qs_accepted := qs_accepted (sy_core s);
                            qs_delivered := qs_delivered (sy_core s);
                            qs_opened := qs_opened (sy_core s) |} s)
  | st_submit s r : sy_store s !! result_promise r = None → sstep s (submit_step r s).1
  | st_signal s s' : signal_step s s' → sstep s s'
  | st_worker s s' : worker_step s s' → sstep s s'
  | st_spurious s : sy_worker s = Looping →
      runnable (qs_now (sy_core s)) (qs_consumer (sy_core s)) = false →
      sstep s (with_core (run_consumer (max_batch_size cfg) (max_wait cfg) (sy_core s)) s)
  | st_reset s i : sstep s (with_stats (reset_store i (sy_stats s)) s)
  | st_start s : sy_ctrl s = CtrlIdle → sstep s (start s)
  | st_stop_clear s : sy_ctrl s = CtrlIdle → sstep s (stop_clear s)
  | st_stop_shutdown s : sy_ctrl s = StopCleared → sstep s (stop_shutdown s)
  | st_stop_return s : sy_ctrl s = StopJoining →
      sy_joinable s = false ∨ sy_worker s = Exited → sstep s (stop_return s).

Definition sreachable (good : E → Prop) : sys E → Prop :=
  reachable (λ s, ∃ now e, good e ∧ s = new_scheduler now e) sstep.
End Steps.

(** ** The scheduler drives the queue as its transition system allows *)

Section Simulation.
Context {E : Type} `{IExecutionEngine E}.
Variables (cfg : SchedulerConfig) (alloc_ok : nat → bool).

Abbreviation cstep := (qstep (max_batch_size cfg) (max_wait cfg)).

Lemma handover_step c : rtc cstep c (handover c).
Proof.
  unfold handover. destruct (qs_consumer c) as [| | |b] eqn:Hc; try apply rtc_refl.
  apply rtc_once. by apply qs_handover.
Qed.

Lemma submit_core r s :
  cstep (sy_core s) (sy_core (submit_step (E := E) r s).1) ∨
  sy_core (submit_step (E := E) r s).1 = sy_core s.
Proof.
  unfold submit_step, submit, get_future, new_promise. rewrite lookup_insert_eq. simpl.
  destruct (push _ r) as [q [|]] eqn:Hp; simpl; left; [by apply qs_push | by eapply qs_push_rejected].
Qed.

Lemma begin_core d s : rtc cstep (sy_core s) (sy_core (begin_iteration (E := E) cfg d s)).
Proof.
  unfold begin_iteration. destruct d as [|r d].
  - destruct (sy_running s); simpl; [apply handover_step | apply rtc_refl].
  - destruct (validate _ _ _) as [[[|] ?]|?|]; simpl; try apply rtc_refl. apply handover_step.
Qed.

Lemma sstep_core s s' : sstep (E := E) cfg alloc_ok s s' → rtc cstep (sy_core s) (sy_core s').
Proof.
  destruct 1 as [s d Hd|s r Hr|s s' Hs|s s' Hs|s Hw Hr|s i|s Hc|s Hc|s Hc|s Hc Hj].
  - by apply rtc_once, qs_tick.
  - destruct (submit_core r s) as [Hc| ->]; [by apply rtc_once | apply rtc_refl].
  - destruct Hs. by apply rtc_once, qs_signal.
  - destruct Hs as [s Hw Hr|s d Hw Hd|s batch t0 Hw].
    + by apply rtc_once, qs_run.
    + apply begin_core.
    + unfold end_iteration. destruct (execute_batch _ _ _ _ _ _ _ _) as [[e st] [ps []]]; simpl;
        try apply rtc_refl. apply handover_step.
  - by apply rtc_once, qs_spurious.
  - apply rtc_refl.
  - unfold start. destruct (sy_running s); [apply rtc_refl |].
    destruct (sy_joinable s); [apply rtc_refl | apply handover_step].
  - apply rtc_refl.
  - apply rtc_once, qs_shutdown.
  - apply rtc_refl.
Qed.

Lemma sreachable_core good s :
  sreachable (E := E) cfg alloc_ok good s → qreachable (max_batch_size cfg) (max_wait cfg) (sy_core s).
Proof.
  revert s. apply (invariant_reachable _ _
    (λ s, qreachable (max_batch_size cfg) (max_wait cfg) (sy_core s))).
  - intros ? (now & e & _ & ->). apply reachable_init. by exists now.
  - intros s1 s2 Hr Hs. eapply reachable_steps; [exact Hr | by apply sstep_core].
Qed.
End Simulation.

(** ** The scheduler's invariant *)

Section Invariant.
Context {E : Type} `{HE : IExecutionEngine E} (good : E → Prop) (max_rows : Z)
  (row : list float → list float) (errors : exn → Prop) (cfg : SchedulerConfig) (alloc_ok : nat → bool).

(** How the promise of [r] may end: with the engine's row for [r]'s own input, or
    with an exception: the size error for a mis-sized input, else one of the engine's. *)
Definition resolution (r : InferenceRequest) (f : future_state) : Prop :=
  match f with
  | Pending => False
  | Value v => well_sized cfg r ∧ v = {| res_request_id := request_id r; logits := row (input_data r) |}
  | Failed e => if decide (well_sized cfg r) then errors e else e = size_error
  end.

Definition resolved (ps : pstore) (r : InferenceRequest) : Prop :=
  ∃ f, state_of ps (result_promise r) = Some f ∧ resolution r f.

(** The accepted requests still to be resolved, and those already resolved. *)
Definition pending_list (s : sys E) : list InferenceRequest :=
  match sy_worker s with
  | Executing batch _ => batch
  | _ => in_hand (qs_consumer (sy_core s))
  end ++ queue_ (qs_queue (sy_core s)).

Definition done_list (s : sys E) : list InferenceRequest :=
  qs_delivered (sy_core s) ++
  match sy_worker s with
  | Executing _ _ => filter (λ r, ¬ well_sized cfg r) (in_hand (qs_consumer (sy_core s)))
  | _ => []
  end.

Definition worker_inv (s : sys E) : Prop :=
  match sy_worker s with
  | NotStarted => qs_consumer (sy_core s) = Entering
  | Looping => True
  | Executing batch _ =>
      ∃ d, qs_consumer (sy_core s) = Drained d ∧ batch = filter (well_sized cfg) d ∧ batch ≠ []
  | Exited => qs_consumer (sy_core s) = Drained []
  | Crashed => False
  end.

Definition ctrl_inv (s : sys E) : Prop :=
  (sy_joinable s = true → sy_worker s ≠ NotStarted ∧ (sy_ctrl s = CtrlIdle → sy_running s = true)) ∧
  (sy_joinable s = false → sy_worker s = NotStarted ∨ sy_worker s = Exited) ∧
  (sy_ctrl s ≠ CtrlIdle → sy_running s = false) ∧
  (sy_ctrl s = StopJoining → stop_requested_ (qs_queue (sy_core s)) = true).

Record sys_inv (s : sys E) : Prop := {
  si_split : done_list s ++ pending_list s ≡ₚ qs_accepted (sy_core s);
  si_nodup : NoDup (promises (done_list s ++ pending_list s));
  si_done : Forall (resolved (sy_store s)) (done_list s);
  si_pending : all_pending (sy_store s) (pending_list s);
  si_worker : worker_inv s;
  si_ctrl : ctrl_inv s;
  si_good : good (sy_engine s)
}.

(** *** Framing *)

Lemma resolved_frame ps ps' r :
  ps' !! result_promise r = ps !! result_promise r → resolved ps r → resolved ps' r.
Proof. intros Heq (f & Hf & Hr). exists f. split; [| done]. unfold state_of in *. by rewrite Heq. Qed.

Lemma resolved_list_frame ps ps' l :
  (∀ p, p ∈ promises l → ps' !! p = ps !! p) → Forall (resolved ps) l → Forall (resolved ps') l.
Proof.
  rewrite !Forall_forall. intros Hf Hp r Hr. apply (resolved_frame ps); [| by apply Hp].
  apply Hf. by apply list_elem_of_fmap_2.
Qed.

(** Settling the requests [b] of [done ++ (b ++ rest)]: what was resolved stays so,
    [b] becomes resolved, [rest] stays pending. *)
Lemma settle_split f b ps ps' done_ rest :
  settled f b ps ps' → (∀ i r, b !! i = Some r → resolution r (f i r)) →
  NoDup (promises (done_ ++ b ++ rest)) →
  Forall (resolved ps) done_ → all_pending ps rest →
  Forall (resolved ps') (done_ ++ b) ∧ all_pending ps' rest.
Proof.
  intros [Ha Hb] Hf Hnd Hd Hr. unfold promises in Hnd. rewrite !fmap_app in Hnd.
  apply NoDup_app in Hnd as (_ & Hdb & Hnd). apply NoDup_app in Hnd as (_ & Hbr & _).
  split.
  - apply Forall_app. split.
    + apply (resolved_list_frame ps); [| done]. intros p Hp. apply Hb. intros Hin.
      apply (Hdb p Hp). apply elem_of_app. by left.
    + apply Forall_lookup. intros i r Hi. exists (f i r). split; [by apply Ha | by apply Hf].
  - apply (all_pending_frame ps); [| done]. intros p Hp. apply Hb. intros Hin. by apply (Hbr p Hin).
Qed.

Lemma filter_split (d : list InferenceRequest) :
  filter (λ r, ¬ well_sized cfg r) d ++ filter (well_sized cfg) d ≡ₚ d.
Proof.
  induction d as [|r d IH]; [done |]. rewrite !filter_cons.
  destruct (decide (well_sized cfg r)) as [Hw|Hw].
  - rewrite decide_False by (intros Hn; by apply Hn). rewrite <- Permutation_middle. by rewrite IH.
  - rewrite decide_True by done. simpl. by rewrite IH.
Qed.

Context `{HC : !EngineContract E good max_rows (input_elems cfg) (output_elems cfg) row errors}.
Hypotheses (Hmax : 0 < max_batch_size cfg ≤ max_rows) (Hoe : 0 ≤ output_elems cfg)
  (Hfit : max_rows * output_elems cfg < two64) (Hal : ∀ i, alloc_ok i = true).

(** *** Preservation, step by step *)

(** Steps that only move requests between the deque and the consumer's hands. *)
Lemma sys_inv_core s c :
  sys_inv s →
  qs_delivered c = qs_delivered (sy_core s) → qs_accepted c = qs_accepted (sy_core s) →
  match sy_worker s with
  | Looping => in_hand (qs_consumer c) ++ queue_ (qs_queue c) =
               in_hand (qs_consumer (sy_core s)) ++ queue_ (qs_queue (sy_core s))
  | _ => qs_consumer c = qs_consumer (sy_core s) ∧
         queue_ (qs_queue c) = queue_ (qs_queue (sy_core s))
  end →
  (stop_requested_ (qs_queue (sy_core s)) = true → stop_requested_ (qs_queue c) = true) →
  sys_inv (with_core c s).
Proof.
  intros [] Hdel Hacc Hsplit Hstop.
  assert (Hd : done_list (with_core c s) = done_list s).
  { unfold done_list. simpl. rewrite Hdel. destruct (sy_worker s) eqn:Hw; try done.
    by destruct Hsplit as [-> _]. }
  assert (Hp : pending_list (with_core c s) = pending_list s).
  { unfold pending_list. simpl. destruct (sy_worker s) eqn:Hw; simpl in Hsplit; try done;
      destruct Hsplit as [Hc Hq]; by rewrite ?Hc, ?Hq. }
  split; rewrite ?Hd, ?Hp; simpl; try done.
  - by rewrite Hacc.
  - unfold worker_inv in *. simpl. destruct (sy_worker s) eqn:Hw; simpl in Hsplit; try done;
      destruct Hsplit as [-> _]; done.
  - destruct si_ctrl0 as (H1 & H2 & H3 & H4). split_and!; simpl; auto.
Qed.

(** The consumer's critical section. *)
Lemma sys_inv_run s :
  sys_inv s → sy_worker s = Looping →
  sys_inv (with_core (run_consumer (max_batch_size cfg) (max_wait cfg) (sy_core s)) s).
Proof.
  intros HI Hw. unfold run_consumer.
  destruct (wait_step _ _ _ _ _) as [q pc] eqn:Hst. apply wait_step_split in Hst as [Hsplit Hstop].
  apply sys_inv_core; simpl; try done; [by rewrite Hw | by rewrite Hstop].
Qed.

Lemma sys_inv_signal s s' : sys_inv s → signal_step s s' → sys_inv s'.
Proof.
  intros HI Hs. destruct Hs as [s n Hn]. pose proof (si_worker s HI) as Hwi. unfold worker_inv in Hwi.
  apply sys_inv_core; simpl; try done.
  destruct (sy_worker s).
  - by rewrite Hwi.
  - by destruct (qs_consumer (sy_core s)).
  - by destruct Hwi as (d & -> & _).
  - by rewrite Hwi.
  - done.
Qed.

(** A producer's [submit]: a fresh promise cannot belong to an accepted request. *)
Lemma known_promise s p : sys_inv s → p ∈ promises (done_list s ++ pending_list s) →
  is_Some (sy_store s !! p).
Proof.
  intros [] Hin. apply list_elem_of_fmap in Hin as (r & -> & Hr). apply elem_of_app in Hr as [Hr|Hr].
  - eapply Forall_forall in si_done0 as (f & Hf & _); [| exact Hr]. unfold state_of in Hf.
    by destruct (sy_store s !! result_promise r).
  - eapply Forall_forall in si_pending0 as Hp; [| exact Hr]. unfold pending, state_of in Hp.
    by destruct (sy_store s !! result_promise r).
Qed.

(** Changing the store at a promise no accepted request owns. *)
Lemma sys_inv_store s p sh :
  sys_inv s → sy_store s !! p = None → sys_inv (with_store (<[p := sh]> (sy_store s)) s).
Proof.
  intros HI Hp.
  assert (Hf : ∀ q, q ∈ promises (done_list s ++ pending_list s) →
                    <[p := sh]> (sy_store s) !! q = sy_store s !! q).
  { intros q Hq. apply lookup_insert_ne. intros <-. apply known_promise in Hq; [| done].
    rewrite Hp in Hq. by destruct Hq. }
  unfold promises in Hf. rewrite fmap_app in Hf.
  destruct HI. split; try done; simpl.
  - apply (resolved_list_frame (sy_store s)); [| done]. intros q Hq. apply Hf, elem_of_app. by left.
  - apply (all_pending_frame (sy_store s)); [| done]. intros q Hq. apply Hf, elem_of_app. by right.
Qed.

Lemma sys_inv_submit s r :
  sys_inv s → sy_store s !! result_promise r = None → sys_inv (submit_step r s).1.
Proof.
  intros HI Hfresh. unfold submit_step, submit, get_future, new_promise.
  rewrite lookup_insert_eq. simpl. rewrite insert_insert_eq.
  set (sh := {| future_retrieved := true; state := Pending |}).
  pose proof (sys_inv_store s (result_promise r) sh HI Hfresh) as HI'.
  assert (Hni : result_promise r ∉ promises (done_list s ++ pending_list s)).
  { intros Hin. apply known_promise in Hin; [| done]. rewrite Hfresh in Hin. by destruct Hin. }
  destruct (push _ r) as [q [|]] eqn:Hpush; simpl.
  - apply push_accepted in Hpush as [Hstop ->]. destruct HI'.
    set (s1 := with_store _ s) in *.
    assert (Hpl : pending_list (with_core (core_push {| queue_ := queue_ (qs_queue (sy_core s)) ++ [r];
        stop_requested_ := false |} true r (sy_core s)) s1) = pending_list s ++ [r]).
    { unfold pending_list. simpl. by rewrite app_assoc. }
    split; rewrite ?Hpl; simpl; try done.
    + rewrite app_assoc. change (done_list (with_core _ s1)) with (done_list s).
      change (done_list s1) with (done_list s) in *. change (pending_list s1) with (pending_list s) in *.
      by rewrite si_split0.
    + change (done_list (with_core _ s1)) with (done_list s). rewrite app_assoc. unfold promises in *.
      rewrite fmap_app. apply NoDup_app. split; [exact si_nodup0 |]. split; [| apply NoDup_singleton].
      intros q Hq Hr. apply list_elem_of_singleton in Hr as ->. done.
    + apply Forall_app. split; [exact si_pending0 |]. repeat constructor. unfold pending, state_of.
      by rewrite lookup_insert_eq.
    + destruct si_ctrl0 as (H1 & H2 & H3 & H4). split_and!; simpl; try done.
      intros Hc. specialize (H4 Hc). simpl in H4. congruence.
  - apply push_refused in Hpush as [Hstop ->].
    apply sys_inv_core; simpl; try done. by destruct (sy_worker s).
Qed.

(** Handing the drained requests over once they are all resolved. *)
Lemma sys_inv_handover s d ps e st :
  sys_inv s → qs_consumer (sy_core s) = Drained d →
  Forall (resolved ps) (qs_delivered (sy_core s) ++ d) →
  all_pending ps (queue_ (qs_queue (sy_core s))) → good e →
  sy_joinable s = true →
  sys_inv (with_core (handover (sy_core s)) (with_worker Looping
             (with_engine e (with_stats st (with_store ps s))))).
Proof.
  intros HI Hd Hres Hpend He Hj.
  assert (Hsplit : done_list s ++ pending_list s ≡ₚ
                   (qs_delivered (sy_core s) ++ d) ++ queue_ (qs_queue (sy_core s))).
  { unfold done_list, pending_list. rewrite Hd. simpl. pose proof (si_worker s HI) as Hw.
    unfold worker_inv in Hw. destruct (sy_worker s); rewrite ?app_nil_r, ?app_assoc; try done.
    destruct Hw as (d' & Hd' & -> & _). rewrite Hd in Hd'. simplify_eq.
    rewrite <- !app_assoc. apply Permutation_app_head. rewrite app_assoc. by rewrite filter_split. }
  destruct HI as [H1 H2 _ _ _ (Hc1 & Hc2 & Hc3 & Hc4) _]. unfold handover. rewrite Hd.
  split; simpl; unfold done_list, pending_list; simpl; rewrite ?app_nil_r; try done.
  - by rewrite <- Hsplit.
  - unfold promises in *. by rewrite <- Hsplit.
  - split_and!; simpl; try done; intros Hj'; [by destruct (Hc1 Hj') | congruence].
Qed.

Lemma looping_joinable s : sys_inv s → sy_worker s = Looping → sy_joinable s = true.
Proof.
  intros [_ _ _ _ _ (_ & H2 & _) _] Hw. destruct (sy_joinable s); [done |].
  destruct H2; [done | congruence | congruence].
Qed.

Lemma executing_joinable s b t : sys_inv s → sy_worker s = Executing b t → sy_joinable s = true.
Proof.
  intros [_ _ _ _ _ (_ & H2 & _) _] Hw. destruct (sy_joinable s); [done |].
  destruct H2; [done | congruence | congruence].
Qed.

(** An empty batch: exit or go round again. *)
Lemma sys_inv_begin_empty s :
  sys_inv s → sy_worker s = Looping → qs_consumer (sy_core s) = Drained [] →
  sys_inv (begin_iteration cfg [] s).
Proof.
  intros HI Hw Hd. unfold begin_iteration. destruct (sy_running s) eqn:Hrun; simpl.
  - apply sys_inv_core; [done | ..]; unfold handover; rewrite Hd; simpl; try done.
    + by rewrite app_nil_r.
    + by rewrite Hw.
  - destruct HI as [H1 H2 H3 H4 H5 (Hc1 & Hc2 & Hc3 & Hc4) H7].
    unfold done_list, pending_list, worker_inv in *. rewrite Hw in *.
    split; simpl; unfold done_list, pending_list, worker_inv; simpl; try done.
    split_and!; simpl; try done; intros Hj'; [by destruct (Hc1 Hj') | by right].
Qed.

Lemma sys_inv_begin s d :
  sys_inv s → sy_worker s = Looping → qs_consumer (sy_core s) = Drained d → d ≠ [] →
  sys_inv (begin_iteration cfg d s).
Proof.
  intros HI Hw Hd Hne. pose proof (looping_joinable s HI Hw) as Hj.
  assert (Hdone : done_list s = qs_delivered (sy_core s)).
  { unfold done_list. by rewrite Hw, app_nil_r. }
  assert (Hpl : pending_list s = d ++ queue_ (qs_queue (sy_core s))).
  { unfold pending_list. by rewrite Hw, Hd. }
  pose proof HI as [H1 H2 H3 H4 _ _ H7]. rewrite Hdone, Hpl in *.
  apply Forall_app in H4 as [Hpd Hpq].
  assert (Hnd : NoDup (promises d)).
  { unfold promises in *. rewrite !fmap_app in H2. apply NoDup_app in H2 as (_ & _ & H2).
    by apply NoDup_app in H2 as [? _]. }
  destruct (validate_settles cfg d (sy_store s) Hnd Hpd) as (ps & Hval & Hset).
  assert (Hperm : qs_delivered (sy_core s) ++ d ++ queue_ (qs_queue (sy_core s)) ≡ₚ
    qs_delivered (sy_core s) ++ filter (λ r, ¬ well_sized cfg r) d ++
      (filter (well_sized cfg) d ++ queue_ (qs_queue (sy_core s)))).
  { apply Permutation_app_head. rewrite app_assoc. by rewrite filter_split. }
  destruct (settle_split _ _ _ _ (qs_delivered (sy_core s))
    (filter (well_sized cfg) d ++ queue_ (qs_queue (sy_core s))) Hset) as [Hres Hpend].
  { intros i r Hi. apply list_elem_of_lookup_2, list_elem_of_filter in Hi as [Hi _]. simpl. by rewrite decide_False. }
  { unfold promises in *. by rewrite <- Hperm. }
  { done. }
  { apply Forall_app. split; [| done]. apply Forall_forall. intros x Hx.
    apply list_elem_of_filter in Hx as [_ Hx]. by eapply Forall_forall in Hpd. }
  unfold begin_iteration. destruct d as [|r0 d0]; [done |]. rewrite Hval.
  set (d := r0 :: d0) in *. destruct (filter (well_sized cfg) d) as [|b0 bs] eqn:Hf.
  - assert (Hall : filter (λ r, ¬ well_sized cfg r) d ≡ₚ d).
    { rewrite <- (filter_split d) at 2. by rewrite Hf, app_nil_r. }
    rewrite Hall in Hres.
    pose proof (sys_inv_handover s d ps (sy_engine s) (sy_stats s) HI Hd Hres Hpend H7 Hj) as Hfin.
    unfold with_core, with_worker, with_engine, with_stats, with_store in *. simpl in *.
    by rewrite Hw.
  - destruct HI as [_ _ _ _ _ (Hc1 & Hc2 & Hc3 & Hc4) _].
    split; simpl; unfold done_list, pending_list, worker_inv; simpl; rewrite ?Hd; simpl; try done.
    + rewrite <- app_assoc, <- H1. symmetry. exact Hperm.
    + unfold promises in *. rewrite <- app_assoc. by rewrite <- Hperm.
    + exists d. done.
    + split_and!; simpl; try done; intros Hj'; [by destruct (Hc1 Hj') | congruence].
Qed.

Lemma sys_inv_end s batch t0 :
  sys_inv s → sy_worker s = Executing batch t0 →
  vec_size (in_hand (qs_consumer (sy_core s))) ≤ max_batch_size cfg →
  sys_inv (end_iteration cfg alloc_ok batch t0 s).
Proof.
  intros HI Hw Hn. pose proof (executing_joinable s _ _ HI Hw) as Hj.
  pose proof HI as [H1 H2 H3 H4 H5 _ H7]. unfold worker_inv in H5. rewrite Hw in H5.
  destruct H5 as (d & Hd & Hb & Hne). rewrite Hd in Hn. simpl in Hn.
  assert (Hdone : done_list s = qs_delivered (sy_core s) ++ filter (λ r, ¬ well_sized cfg r) d).
  { unfold done_list. by rewrite Hw, Hd. }
  assert (Hpl : pending_list s = batch ++ queue_ (qs_queue (sy_core s))).
  { unfold pending_list. by rewrite Hw. }
  rewrite Hdone, Hpl in *. apply Forall_app in H4 as [Hpb Hpq].
  assert (Hws : Forall (well_sized cfg) batch).
  { rewrite Hb. apply Forall_forall. intros r Hr. by apply list_elem_of_filter in Hr as [? _]. }
  assert (Hnb : vec_size batch ≤ max_rows).
  { rewrite Hb. pose proof (length_filter (well_sized cfg) d). unfold vec_size in *. lia. }
  assert (Hnd : NoDup (promises batch)).
  { unfold promises in *. rewrite !fmap_app in H2. apply NoDup_app in H2 as (_ & _ & H2).
    by apply NoDup_app in H2 as [? _]. }
  unfold end_iteration.
  destruct (execute_batch _ _ _ _ _ _ _ _) as [[e st] [ps o]] eqn:Hex.
  destruct (execute_batch_settles good max_rows row errors cfg alloc_ok _ _ _ _ _ _ _ _ _ _ H7 Hne Hnb Hws
    Hoe Hfit Hnd Hpb Hal Hex) as (Hg & -> & Hset).
  assert (Hres : Forall (resolved ps) (qs_delivered (sy_core s) ++ d) ∧
                 all_pending ps (queue_ (qs_queue (sy_core s)))).
  { assert (Hperm : (qs_delivered (sy_core s) ++ filter (λ r, ¬ well_sized cfg r) d) ++ batch ≡ₚ
                    qs_delivered (sy_core s) ++ d).
    { rewrite Hb, <- app_assoc. by rewrite filter_split. }
    rewrite <- Hperm.
    destruct Hset as [Hset|(x & Hx & Hset)]; (eapply settle_split; [exact Hset | | done | done | done]).
    - intros i r Hi. split; [| done]. by eapply Forall_lookup_1 in Hws.
    - intros i r Hi. simpl. rewrite decide_True; [done |]. by eapply Forall_lookup_1 in Hws. }
  destruct Hres. by apply sys_inv_handover with (d := d).
Qed.

Lemma sys_inv_start s : sys_inv s → sy_ctrl s = CtrlIdle → sys_inv (start s).
Proof.
  intros HI Hc. unfold start. destruct (sy_running s) eqn:Hr; [done |].
  pose proof HI as [H1 H2 H3 H4 H5 (Hc1 & Hc2 & Hc3 & Hc4) H7].
  destruct (sy_joinable s) eqn:Hj; [by destruct (Hc1 eq_refl) as [_ H]; rewrite H in Hr |].
  assert (Hh : ∃ opc, qs_consumer (handover (sy_core s)) = opc ∧ in_hand opc = [] ∧
    in_hand (qs_consumer (sy_core s)) = [] ∧
    qs_delivered (handover (sy_core s)) = qs_delivered (sy_core s) ∧
    qs_queue (handover (sy_core s)) = qs_queue (sy_core s) ∧
    qs_accepted (handover (sy_core s)) = qs_accepted (sy_core s)).
  { unfold worker_inv in H5. unfold handover.
    destruct (Hc2 eq_refl) as [Hw|Hw]; rewrite Hw in H5; rewrite H5; simpl; [eauto 10 |].
    eexists. by rewrite app_nil_r. }
  destruct Hh as (opc & Hpc & Hih & Hih0 & Hdel & Hq & Hacc).
  assert (Hdone : done_list s = qs_delivered (sy_core s)).
  { unfold done_list. destruct (Hc2 eq_refl) as [-> | ->]; apply app_nil_r. }
  assert (Hpl : pending_list s = queue_ (qs_queue (sy_core s))).
  { unfold pending_list. by destruct (Hc2 eq_refl) as [-> | ->]; rewrite Hih0. }
  rewrite Hdone, Hpl in *.
  split; simpl; unfold done_list, pending_list; simpl; rewrite ?Hpc, ?Hih, ?Hdel, ?Hq, ?Hacc, ?app_nil_r; try done.
  split_and!; simpl; try done. intros Hcj. congruence.
Qed.

(** Steps that only touch the controlling thread's members or the counters. *)
Lemma sys_inv_ctrl s j r c :
  sys_inv s → ctrl_inv (with_ctrl j r c s) → sys_inv (with_ctrl j r c s).
Proof. intros [] Hc. by split. Qed.

Lemma sys_inv_step s s' :
  sys_inv s → vec_size (in_hand (qs_consumer (sy_core s))) ≤ max_batch_size cfg →
  sstep cfg alloc_ok s s' → sys_inv s'.
Proof.
  intros HI Hn Hstep. pose proof (si_ctrl s HI) as (Hc1 & Hc2 & Hc3 & Hc4).
  destruct Hstep as [s d Hd|s r Hr|s s' Hs|s s' Hs|s Hw Hr|s i|s Hc|s Hc|s Hc|s Hc Hj].
  - apply sys_inv_core; simpl; try done. by destruct (sy_worker s).
  - by apply sys_inv_submit.
  - by eapply sys_inv_signal.
  - destruct Hs as [s Hw Hr|s d Hw Hd|s batch t0 Hw].
    + by apply sys_inv_run.
    + destruct d; [by apply sys_inv_begin_empty | by apply sys_inv_begin].
    + by apply sys_inv_end.
  - by apply sys_inv_run.
  - destruct HI. by split.
  - by apply sys_inv_start.
  - apply sys_inv_ctrl; [done |]. split_and!; simpl; try done. intros Hj. by destruct (Hc1 Hj).
  - change (sys_inv (with_ctrl (sy_joinable s) (sy_running s) StopJoining
                       (with_core (core_shutdown (sy_core s)) s))).
    apply sys_inv_ctrl.
    + apply sys_inv_core; simpl; try done. by destruct (sy_worker s).
    + split_and!; simpl; try done; [intros Hj; by destruct (Hc1 Hj) | intros _; apply Hc3; by rewrite Hc].
  - apply sys_inv_ctrl; [done |]. split_and!; simpl; try done.
    intros _. destruct Hj as [Hj|Hj]; auto.
Qed.

Lemma drained_within s :
  sreachable cfg alloc_ok good s → vec_size (in_hand (qs_consumer (sy_core s))) ≤ max_batch_size cfg.
Proof.
  intros Hr. apply sreachable_core in Hr. apply reachable_window in Hr as [_ Hw].
  destruct (qs_consumer (sy_core s)) as [| | |b]; simpl; unfold vec_size in *; simpl; lia.
Qed.

Lemma sys_inv_reachable s : sreachable cfg alloc_ok good s → sys_inv s.
Proof.
  apply (invariant_reachable_strong _ _
    (λ s, vec_size (in_hand (qs_consumer (sy_core s))) ≤ max_batch_size cfg)).
  - apply drained_within.
  - intros ? (now & e & He & ->). split; simpl; unfold done_list, pending_list, worker_inv, ctrl_inv; simpl; try done.
    all: try constructor; try (repeat split; auto; done).
  - intros s1 s2 Hn _ HI Hs. by eapply sys_inv_step.
Qed.

(** A worker that was started exists or has returned for ever after. *)
Lemma started_step s s' : sy_worker s ≠ NotStarted → sstep cfg alloc_ok s s' → sy_worker s' ≠ NotStarted.
Proof.
  intros Hns Hs. destruct Hs as [s d Hd|s r Hr|s s' Hs|s s' Hs|s Hw Hr|s i|s Hc|s Hc|s Hc|s Hc Hj]; try done.
  - unfold submit_step. by destruct (submit _ _ _) as [[q ps] o].
  - by destruct Hs.
  - destruct Hs as [s Hw Hr|s d Hw Hd|s b t Hw]; [done | |].
    + unfold begin_iteration. destruct d as [|r d]; [by destruct (sy_running s) |].
      by destruct (validate _ _ _) as [[[|] ?]|?|].
    + unfold end_iteration. by destruct (execute_batch _ _ _ _ _ _ _ _) as [[? ?] [? []]].
  - unfold start. by destruct (sy_running s), (sy_joinable s).
Qed.

(** As long as no worker was started, every accepted request is queued and unresolved. *)
Lemma unstarted_state s :
  sreachable cfg alloc_ok good s → sy_worker s = NotStarted →
  queue_ (qs_queue (sy_core s)) = qs_accepted (sy_core s) ∧ all_pending (sy_store s) (qs_accepted (sy_core s)).
Proof.
  intros Hs Hw.
  assert (Hdel : qs_delivered (sy_core s) = []).
  { revert s Hs Hw. apply (invariant_reachable _ _ (λ s, sy_worker s = NotStarted → qs_delivered (sy_core s) = [])).
    - by intros ? (now & e & _ & ->).
    - intros s s' IH Hst Hw'. destruct (decide (sy_worker s = NotStarted)) as [Hw|Hw]; [| by destruct (started_step s s' Hw Hst)].
      specialize (IH Hw). destruct Hst as [s d Hd|s r Hr|s s' Hs|s s' Hs|s Hl Hr|s i|s Hc|s Hc|s Hc|s Hc Hj]; try done.
      + revert IH. unfold submit_step. by destruct (submit _ _ _) as [[q ps] o].
      + by destruct Hs.
      + destruct Hs; congruence.
      + congruence.
      + unfold start in *. by destruct (sy_running s), (sy_joinable s). }
  pose proof (sys_inv_reachable s Hs) as HI. pose proof (si_pending s HI) as Hp. pose proof (si_worker s HI) as Hc.
  apply sreachable_core in Hs. pose proof (reachable_fifo _ _ _ Hs) as Hfifo. unfold fifo_inv in Hfifo.
  unfold worker_inv in Hc. unfold pending_list in Hp. rewrite Hw in Hc, Hp. rewrite Hdel, Hc in Hfifo. rewrite Hc in Hp.
  simpl in *. by rewrite Hfifo.
Qed.

(** What [stop] leaves behind. *)
Lemma stopped_state s :
  sreachable cfg alloc_ok good s → sy_joinable s = false →
  sy_worker s = NotStarted ∨
  (sy_worker s = Exited ∧ queue_ (qs_queue (sy_core s)) = [] ∧
   Forall (resolved (sy_store s)) (qs_accepted (sy_core s))).
Proof.
  intros Hs Hj. pose proof (sys_inv_reachable s Hs) as HI. destruct (si_ctrl s HI) as (_ & Hw & _).
  destruct (Hw Hj) as [Hw'|Hw']; [by left | right]. split; [done |].
  pose proof (si_worker s HI) as Hd. unfold worker_inv in Hd. rewrite Hw' in Hd.
  apply sreachable_core in Hs. pose proof (reachable_fifo _ _ _ Hs) as Hfifo. unfold fifo_inv in Hfifo.
  apply reachable_window in Hs as [_ Hwin]. rewrite Hd in Hwin, Hfifo. destruct Hwin as (_ & Hnil & _).
  destruct (Hnil eq_refl) as [?|[_ Hq]]; [lia |]. split; [done |].
  rewrite Hfifo, Hq. simpl. rewrite app_nil_r. pose proof (si_done s HI) as Hdone.
  unfold done_list in Hdone. by rewrite Hw', app_nil_r in Hdone.
Qed.

(** *** Stopping terminates *)

(** Steps of the worker thread and delivery of notifications already issued. *)
Definition drive (s s' : sys E) : Prop := worker_step cfg alloc_ok s s' ∨ signal_step s s'.

Definition stopping (s : sys E) : Prop :=
  sreachable cfg alloc_ok good s ∧ sy_ctrl s = StopJoining.

Lemma begin_ctrl d (s : sys E) : sy_ctrl (begin_iteration cfg d s) = sy_ctrl s.
Proof.
  unfold begin_iteration. destruct d; [by destruct (sy_running s) |].
  by destruct (validate _ _ _) as [[[|] ?]|?|].
Qed.

Lemma end_ctrl b t (s : sys E) : sy_ctrl (end_iteration cfg alloc_ok b t s) = sy_ctrl s.
Proof. unfold end_iteration. by destruct (execute_batch _ _ _ _ _ _ _ _) as [[e st] [ps []]]. Qed.

Lemma stopping_drive s s' : stopping s → drive s s' → stopping s'.
Proof.
  intros [Hr Hc] Hd. split.
  - eapply reachable_step; [exact Hr |]. destruct Hd; [by apply st_worker | by apply st_signal].
  - destruct Hd as [Hd|Hd]; destruct Hd; simpl; rewrite ?begin_ctrl, ?end_ctrl; done.
Qed.

Lemma stopping_facts s :
  stopping s → sys_inv s ∧ sy_running s = false ∧ stop_requested_ (qs_queue (sy_core s)) = true.
Proof.
  intros [Hr Hc]. pose proof (sys_inv_reachable s Hr) as HI. split; [done |].
  destruct (si_ctrl s HI) as (_ & _ & H3 & H4). split; [apply H3; by rewrite Hc | by apply H4].
Qed.

(** When shutdown is requested, the consumer's critical section returns at once: with
    nothing if the deque is empty, else with a non-empty batch. *)
Lemma run_stopped c :
  stop_requested_ (qs_queue c) = true →
  (∀ b, qs_consumer c ≠ Drained b) →
  ∃ b, qs_consumer (run_consumer (max_batch_size cfg) (max_wait cfg) c) = Drained b ∧
    qs_signals (run_consumer (max_batch_size cfg) (max_wait cfg) c) = qs_signals c ∧
    (4 * length (queue_ (qs_queue (run_consumer (max_batch_size cfg) (max_wait cfg) c))) +
       (if b is [] then 1 else 4) < 4 * length (queue_ (qs_queue c)) + 2)%nat.
Proof.
  intros Hs Hnd. unfold run_consumer, wait_step, open_window, phase1_ready, phase2_ready.
  rewrite Hs, !orb_true_r. simpl. rewrite andb_false_r, drain_spec. simpl.
  assert (Hdr : (4 * length (drop (Z.to_nat (max_batch_size cfg)) (queue_ (qs_queue c))) +
    (if take (Z.to_nat (max_batch_size cfg)) (queue_ (qs_queue c)) is [] then 1 else 4) <
    4 * length (queue_ (qs_queue c)) + 2)%nat).
  { rewrite length_drop. destruct (queue_ (qs_queue c)) as [|r l]; [rewrite take_nil; simpl; lia |].
    destruct (Z.to_nat (max_batch_size cfg)) eqn:Hm; simpl; lia. }
  destruct (qs_consumer c) as [| | |b]; [| | | by destruct (Hnd b)];
    try (destruct (queue_empty (qs_queue c))); simpl;
    first [eexists; split_and!; [done | done | done] | eexists; split_and!; [done | done | simpl; lia]].
Qed.

(** What remains to be done before the worker exits: notifications to deliver, queued
    requests, and the worker's position in its loop. *)
Definition stop_rank (s : sys E) : nat :=
  qs_signals (sy_core s) + 4 * length (queue_ (qs_queue (sy_core s))) +
  match sy_worker s with
  | Looping =>
      match qs_consumer (sy_core s) with Drained [] => 1 | Drained _ => 4 | _ => 2 end
  | Executing _ _ => 3
  | _ => 0
  end.

Lemma stop_rank_run s :
  stopping s → sy_worker s = Looping → (∀ b, qs_consumer (sy_core s) ≠ Drained b) →
  (stop_rank (with_core (run_consumer (max_batch_size cfg) (max_wait cfg) (sy_core s)) s) < stop_rank s)%nat.
Proof.
  intros Hst Hw Hnd. destruct (stopping_facts s Hst) as (_ & _ & Hstop).
  destruct (run_stopped (sy_core s) Hstop Hnd) as (b & Hb & Hsig & Hlt).
  unfold stop_rank. simpl. rewrite Hw, Hb, Hsig.
  destruct (qs_consumer (sy_core s)) as [| | |b']; [| | | by destruct (Hnd b')]; destruct b; lia.
Qed.

Lemma handover_rank c :
  qs_signals (handover c) = qs_signals c ∧ qs_queue (handover c) = qs_queue c ∧
  (∀ d, qs_consumer c = Drained d → qs_consumer (handover c) = Entering).
Proof. unfold handover. by destruct (qs_consumer c). Qed.

Lemma stop_rank_begin s d :
  sy_worker s = Looping → sy_running s = false → qs_consumer (sy_core s) = Drained d →
  (stop_rank (begin_iteration cfg d s) < stop_rank s)%nat.
Proof.
  intros Hw Hrun Hd. unfold begin_iteration, stop_rank.
  destruct (handover_rank (sy_core s)) as (Hs & Hq & Hc). specialize (Hc d Hd).
  rewrite Hw, Hd. destruct d as [|r d]; [rewrite Hrun; simpl; lia |].
  destruct (validate _ _ _) as [[[|r1 b] ps]|x|]; simpl; rewrite ?Hw, ?Hs, ?Hq, ?Hc; lia.
Qed.

Lemma stop_rank_end s batch t0 :
  sys_inv s → sy_worker s = Executing batch t0 →
  (stop_rank (end_iteration cfg alloc_ok batch t0 s) < stop_rank s)%nat.
Proof.
  intros HI Hw. apply si_worker in HI. unfold worker_inv in HI. rewrite Hw in HI.
  destruct HI as (d & Hd & _). destruct (handover_rank (sy_core s)) as (Hs & Hq & Hc).
  specialize (Hc d Hd). unfold end_iteration, stop_rank. rewrite Hw.
  destruct (execute_batch _ _ _ _ _ _ _ _) as [[e st] [ps [u|?|]]]; simpl; rewrite ?Hs, ?Hq, ?Hc; lia.
Qed.

Lemma stop_rank_drive s s' : stopping s → drive s s' → (stop_rank s' < stop_rank s)%nat.
Proof.
  intros Hst Hd. destruct (stopping_facts s Hst) as (HI & Hrun & _). destruct Hd as [Hd|Hd].
  - destruct Hd as [s Hw Hr|s d Hw Hd|s batch t0 Hw].
    + apply stop_rank_run; [done | done |]. intros b Hb. by rewrite Hb in Hr.
    + by apply stop_rank_begin.
    + by apply stop_rank_end.
  - destruct Hd as [s n Hn]. unfold stop_rank. simpl. rewrite Hn.
    destruct (sy_worker s); try lia. destruct (qs_consumer (sy_core s)) as [| | |[]]; simpl; lia.
Qed.

(** No other step adds work: producers are refused, the clock and the counters do not
    matter. *)
Lemma stop_rank_step s s' :
  stopping s → sstep cfg alloc_ok s s' → (stop_rank s' ≤ stop_rank s)%nat.
Proof.
  intros Hst Hstep. destruct (stopping_facts s Hst) as (HI & _ & Hstop). pose proof Hst as [_ Hctrl].
  destruct Hstep as [s d Hd|s r Hr|s s' Hs|s s' Hs|s Hw Hr|s i|s Hc|s Hc|s Hc|s Hc Hj]; try congruence; try done.
  - unfold submit_step, submit, get_future, new_promise. rewrite lookup_insert_eq. simpl.
    destruct (push _ r) as [q [|]] eqn:Hp; simpl.
    + apply push_accepted in Hp as [Hp _]. congruence.
    + by apply push_refused in Hp as [_ ->].
  - apply Nat.lt_le_incl, stop_rank_drive; [done | by right].
  - apply Nat.lt_le_incl, stop_rank_drive; [done | by left].
  - destruct (qs_consumer (sy_core s)) as [| | |b] eqn:Hc;
      try (apply Nat.lt_le_incl, stop_rank_run; [done | done | congruence]).
    unfold stop_rank, run_consumer. rewrite Hc. simpl. lia.
Qed.

(** Until it has exited, the worker or a notification can move. *)
Lemma stopping_enabled s :
  stopping s → sy_joinable s = true → sy_worker s ≠ Exited → ∃ s', drive s s'.
Proof.
  intros Hst Hj Hne. destruct (stopping_facts s Hst) as (HI & Hrun & Hstop).
  pose proof (si_worker s HI) as Hwi. pose proof (si_ctrl s HI) as (Hns & _). unfold worker_inv in Hwi.
  destruct (sy_worker s) as [| |batch t0| |] eqn:Hw; try done.
  - by destruct (Hns Hj).
  - destruct (runnable (qs_now (sy_core s)) (qs_consumer (sy_core s))) eqn:Hr;
      [eexists; left; by apply ws_wait |].
    destruct (qs_consumer (sy_core s)) as [| | |b] eqn:Hc; [done | | | eexists; left; by eapply ws_begin].
    all: destruct (qs_signals (sy_core s)) as [|n] eqn:Hn; [| eexists; right; by eapply ss_signal].
    all: exfalso; destruct Hst as [Hre _]; apply sreachable_core, reachable_wakeup in Hre;
      unfold wakeup_inv, phase1_ready, phase2_ready in Hre;
      rewrite Hc, Hstop, ?orb_true_r, Hn in Hre; destruct notified; simpl in *; try done;
      specialize (Hre eq_refl); lia.
  - eexists. left. by apply ws_end.
Qed.

Lemma stopping_nsteps n s s' : stopping s → nsteps drive n s s' → stopping s' ∧ (n + stop_rank s' ≤ stop_rank s)%nat.
Proof.
  intros Hst Hn. revert Hst. induction Hn as [s|n s s1 s2 Hd Hn IH]; intros Hst; [by split; [| lia] |].
  destruct IH as [Hst2 Hle]; [by eapply stopping_drive |]. split; [done |].
  pose proof (stop_rank_drive s s1 Hst Hd). lia.
Qed.
End Invariant.

(** ** Facts that need no engine contract *)

Section Unconditional.
Context {E : Type} `{HE : IExecutionEngine E} (cfg : SchedulerConfig) (alloc_ok : nat → bool).

(** *** Ready promises stay ready *)

Lemma validate_le drained batch ps batch' ps' :
  fold_outcome (validate_one cfg) (batch, ps) drained = Ret (batch', ps') → store_le ps ps'.
Proof.
  revert batch ps. induction drained as [|r drained IH]; intros batch ps; simpl; [by intros [= _ <-] |].
  destruct (vec_size (input_data r) =? input_elems cfg); simpl; [apply IH |].
  destruct (set_exception _ _ ps) as [ps1|x|] eqn:H1; simpl; try done.
  intros H2. etrans; [| by eapply IH]. eauto with serving.
Qed.

Lemma resolve_loop_le out k batch ps : store_le ps (resolve_loop cfg alloc_ok out k batch ps).1.
Proof.
  revert k ps. induction batch as [|r batch IH]; intros k ps; simpl; [done |].
  destruct (read_range _ _ _) as [row|x|]; simpl; try done. destruct (alloc_ok k); [| done].
  destruct (set_value _ _ ps) as [ps1|x|] eqn:H1; simpl; try done.
  etrans; [| apply IH]. eauto with serving.
Qed.

Lemma fail_all_le e batch ps : store_le ps (fail_all e batch ps).1.
Proof.
  revert ps. induction batch as [|r batch IH]; intros ps; simpl; [done |].
  destruct (set_exception _ _ ps) as [ps1|x|] eqn:H1; simpl; try done.
  etrans; [| apply IH]. eauto with serving.
Qed.

Lemma deliver_le o batch ps : store_le ps (deliver cfg alloc_ok o batch ps).1.
Proof.
  unfold deliver. assert (Ht : store_le ps (try_block cfg alloc_ok o batch ps).1).
  { unfold try_block. destruct o as [out|x|]; try done. split_if; [done | apply resolve_loop_le]. }
  destruct (try_block cfg alloc_ok o batch ps) as [ps1 [u|x|]]; simpl in *; try done.
  etrans; [exact Ht | apply fail_all_le].
Qed.

Lemma submit_step_le r (s : sys E) :
  sy_store s !! result_promise r = None → store_le (sy_store s) (sy_store (submit_step r s).1).
Proof.
  intros Hf. unfold submit_step, submit.
  destruct (get_future _ _) as [ps|x|] eqn:Hg; simpl; try by auto with serving.
  destruct (push _ r) as [q a]; simpl.
  etrans; eauto with serving.
Qed.

Lemma sstep_store_le (s s' : sys E) : sstep cfg alloc_ok s s' → store_le (sy_store s) (sy_store s').
Proof.
  destruct 1 as [s d Hd|s r Hr|s s' Hs|s s' Hs|s Hw Hr|s i|s Hc|s Hc|s Hc|s Hc Hj]; try done.
  - by apply submit_step_le.
  - by destruct Hs.
  - destruct Hs as [s Hw Hr|s d Hw Hd|s batch t0 Hw]; [done | |].
    + unfold begin_iteration. destruct d as [|r d]; [by destruct (sy_running s) |].
      destruct (validate cfg (r :: d) (sy_store s)) as [[[|b0 b] ps]|x|] eqn:Hv; simpl; try done;
        by eapply validate_le.
    + unfold end_iteration, execute_batch. destruct (run_inference _ _ _ _ _) as [e o].
      pose proof (deliver_le o batch (sy_store s)) as Hle.
      destruct (deliver cfg alloc_ok o batch (sy_store s)) as [ps [u|x|]]; done.
  - unfold start. by destruct (sy_running s), (sy_joinable s).
Qed.

(** *** Shutdown is permanent *)

Definition closed (acc : list InferenceRequest) (s : sys E) : Prop :=
  stop_requested_ (qs_queue (sy_core s)) = true ∧ qs_accepted (sy_core s) = acc.

Lemma handover_closed c : qs_queue (handover c) = qs_queue c ∧ qs_accepted (handover c) = qs_accepted c.
Proof. unfold handover. by destruct (qs_consumer c). Qed.

Lemma run_closed m t c :
  stop_requested_ (qs_queue (run_consumer m t c)) = stop_requested_ (qs_queue c) ∧
  qs_accepted (run_consumer m t c) = qs_accepted c.
Proof.
  unfold run_consumer. destruct (wait_step _ _ _ _ _) as [q pc] eqn:Hst.
  apply wait_step_split in Hst as [_ Hst]. done.
Qed.

(** Entering with shutdown requested and nothing queued: the consumer returns empty, and
    after going round it returns empty again in the same state. *)
Lemma spin_core m t c :
  qs_consumer c = Entering → stop_requested_ (qs_queue c) = true → queue_ (qs_queue c) = [] →
  qs_consumer (run_consumer m t c) = Drained [] ∧
  qs_consumer (handover (run_consumer m t c)) = Entering ∧
  run_consumer m t (handover (run_consumer m t c)) = run_consumer m t c.
Proof.
  destruct c as [[q st] now pc sig acc del op]. simpl. intros -> -> ->.
  unfold run_consumer, handover. simpl. by rewrite app_nil_r.
Qed.

Lemma closed_submit acc r (s : sys E) :
  closed acc s → (submit_step r s).2 = Throw stopped_error ∧ closed acc (submit_step r s).1.
Proof.
  intros [Hs Ha]. unfold submit_step, submit, get_future, new_promise. rewrite lookup_insert_eq. simpl.
  destruct (push _ r) as [q [|]] eqn:Hp; simpl.
  - apply push_accepted in Hp as [Hp _]. congruence.
  - apply push_refused in Hp as [_ ->]. done.
Qed.

Lemma closed_step acc (s s' : sys E) : sstep cfg alloc_ok s s' → closed acc s → closed acc s'.
Proof.
  intros Hstep HC. pose proof HC as [Hs Ha].
  destruct (handover_closed (sy_core s)) as [Hh1 Hh2].
  destruct (run_closed (max_batch_size cfg) (max_wait cfg) (sy_core s)) as [Hr1 Hr2].
  destruct Hstep as [s d Hd|s r Hr|s s' Hst|s s' Hst|s Hw Hr|s i|s Hc|s Hc|s Hc|s Hc Hj]; try done.
  - by apply closed_submit.
  - by destruct Hst.
  - destruct Hst as [s Hw Hr|s d Hw Hd|s batch t0 Hw].
    + split; simpl; congruence.
    + unfold begin_iteration. destruct d as [|r d].
      * destruct (sy_running s); split; simpl; congruence.
      * destruct (validate _ _ _) as [[[|] ?]|?|]; split; simpl; congruence.
    + unfold end_iteration. destruct (execute_batch _ _ _ _ _ _ _ _) as [[e st] [ps []]];
        split; simpl; congruence.
  - split; simpl; congruence.
  - unfold start. destruct (sy_running s), (sy_joinable s); split; simpl; congruence.
Qed.

(** *** A batch limit of zero serves nothing *)

Definition starved (s : sys E) : Prop :=
  queue_ (qs_queue (sy_core s)) = qs_accepted (sy_core s) ∧
  qs_delivered (sy_core s) = [] ∧ in_hand (qs_consumer (sy_core s)) = [] ∧
  (∀ b t, sy_worker s ≠ Executing b t) ∧ all_pending (sy_store s) (qs_accepted (sy_core s)).

Lemma starved_run m t c :
  m ≤ 0 → in_hand (qs_consumer c) = [] →
  queue_ (qs_queue (run_consumer m t c)) = queue_ (qs_queue c) ∧
  in_hand (qs_consumer (run_consumer m t c)) = [].
Proof.
  intros Hm Hc. unfold run_consumer. destruct (wait_step _ _ _ _ _) as [q pc] eqn:Hst.
  unfold wait_step, open_window in Hst. rewrite !drain_spec in Hst.
  replace (Z.to_nat m) with 0%nat in Hst by lia. simpl in *.
  destruct (qs_consumer c); repeat split_if; simplify_eq; simpl in *; done.
Qed.

Lemma starved_handover c :
  in_hand (qs_consumer c) = [] →
  qs_queue (handover c) = qs_queue c ∧ qs_accepted (handover c) = qs_accepted c ∧
  qs_delivered (handover c) = qs_delivered c ∧ in_hand (qs_consumer (handover c)) = [].
Proof.
  unfold handover. destruct (qs_consumer c) eqn:Hc; simpl; try (by rewrite Hc). intros ->.
  by rewrite app_nil_r.
Qed.

Lemma starved_submit r (s : sys E) :
  starved s → sy_store s !! result_promise r = None → starved (submit_step r s).1.
Proof.
  intros (Hq & Hd & Hh & Hw & Hp) Hf. unfold submit_step, submit, get_future, new_promise.
  rewrite lookup_insert_eq. simpl. rewrite insert_insert_eq.
  assert (Hp' : all_pending (<[result_promise r:={| future_retrieved := true; state := Pending |}]>
    (sy_store s)) (qs_accepted (sy_core s))).
  { apply (all_pending_frame (sy_store s)); [| done]. intros p Hin. apply lookup_insert_ne. intros <-.
    apply list_elem_of_fmap in Hin as (x & Hx & Hin). eapply Forall_forall in Hp; [| exact Hin].
    unfold pending, state_of in Hp. by rewrite <- Hx, Hf in Hp. }
  destruct (push _ r) as [q [|]] eqn:Hpush; simpl.
  - apply push_accepted in Hpush as [_ ->]. split_and!; simpl; try done; [by rewrite Hq |].
    apply Forall_app. split; [done |]. repeat constructor. unfold pending, state_of.
    by rewrite lookup_insert_eq.
  - by apply push_refused in Hpush as [_ ->].
Qed.

Lemma starved_step (s s' : sys E) :
  max_batch_size cfg ≤ 0 → starved s → sstep cfg alloc_ok s s' → starved s'.
Proof.
  intros Hm HS Hstep. pose proof HS as (Hq & Hd & Hh & Hw & Hp).
  destruct (starved_handover (sy_core s) Hh) as (Hh1 & Hh2 & Hh3 & Hh4).
  destruct (starved_run (max_batch_size cfg) (max_wait cfg) (sy_core s) Hm Hh) as [Hr1 Hr2].
  assert (Hrun : starved (with_core (run_consumer (max_batch_size cfg) (max_wait cfg) (sy_core s)) s)).
  { destruct (run_closed (max_batch_size cfg) (max_wait cfg) (sy_core s)) as [_ Ha].
    unfold starved. simpl. rewrite Ha, Hr1, Hr2. split_and!; try done. unfold run_consumer.
    by destruct (wait_step _ _ _ _ _). }
  assert (Hho : ∀ c, sy_core c = sy_core s → sy_store c = sy_store s →
    (∀ b t, sy_worker c ≠ Executing b t) → starved (with_core (handover (sy_core s)) c)).
  { intros c Hc1 Hc2 Hc3. unfold starved. simpl. rewrite Hh1, Hh2, Hh3, Hh4, Hc2. done. }
  destruct Hstep as [s d ?|s r Hr|s s' Hst|s s' Hst|s Hw' Hr|s i|s Hc|s Hc|s Hc|s Hc Hj]; try done.
  - by apply starved_submit.
  - destruct Hst. split_and!; simpl; try done. by destruct (qs_consumer (sy_core s)).
  - destruct Hst as [s Hw' Hr|s d Hw' Hd'|s batch t0 Hw'].
    + done.
    + rewrite Hd' in Hh. simpl in Hh. subst d. unfold begin_iteration.
      destruct (sy_running s); [by apply Hho |]. split_and!; simpl; try done. by rewrite Hd'.
    + by destruct (Hw batch t0).
  - unfold start. destruct (sy_running s); [done |]. destruct (sy_joinable s); [by split_and! |].
    by apply Hho.
Qed.

Lemma starved_reachable good s :
  max_batch_size cfg ≤ 0 → sreachable cfg alloc_ok good s → starved s.
Proof.
  intros Hm. revert s. apply (invariant_reachable _ _ starved).
  - intros ? (now & e & _ & ->). split_and!; simpl; try done. constructor.
  - intros s s' HS Hst. by eapply starved_step.
Qed.
End Unconditional.

(** ** Properties *)

(** C1: every accepted request is accounted for, in every reachable state of every
    interleaving. The requests accepted by [submit] are exactly (without loss or
    duplication) those already served and those still in the deque, in the drained
    batch or in the engine call. The promise of a served request holds the engine's row
    for its own input under its own [request_id]; or the size error when its input is
    mis-sized; or else an exception the engine may throw, so that with an engine that
    never throws every well-sized served request has its row. The promise of every other
    request is still pending. The batch limit is positive and the copies of result rows
    allocate. *)
Theorem accepted_requests_accounted (E : Type) (HE : IExecutionEngine E) (good : E → Prop)
  (max_rows : Z) (row : list float → list float) (errors : exn → Prop) (cfg : SchedulerConfig) (alloc_ok : nat → bool)
  (s : sys E)
  (HC : EngineContract E good max_rows (input_elems cfg) (output_elems cfg) row errors)
  (Hmax : 0 < max_batch_size cfg ≤ max_rows) (Hoe : 0 ≤ output_elems cfg)
  (Hfit : max_rows * output_elems cfg < two64) (Hal : ∀ i, alloc_ok i = true)
  (Hr : sreachable cfg alloc_ok good s) :
  done_list cfg s ++ pending_list s ≡ₚ qs_accepted (sy_core s) ∧
  NoDup (promises (qs_accepted (sy_core s))) ∧
  Forall (resolved row errors cfg (sy_store s)) (done_list cfg s) ∧
  all_pending (sy_store s) (pending_list s).
Proof.
  destruct (sys_inv_reachable good max_rows row errors cfg alloc_ok Hmax Hoe Hfit Hal s Hr).
  split_and!; try done. unfold promises in *. by rewrite <- si_split0.
Qed.

(** C3: the shutdown-drain guarantee. When the worker thread has left [run_loop],
    nothing is left in the queue and the promise of every request [submit] ever accepted
    is resolved, each with its own row, the size error or an engine's exception; and the exit
    happened only after a shutdown was requested. The batch limit is positive and the copies
    of result rows allocate. *)
Theorem worker_exit_leaves_nothing (E : Type) (HE : IExecutionEngine E) (good : E → Prop)
  (max_rows : Z) (row : list float → list float) (errors : exn → Prop) (cfg : SchedulerConfig) (alloc_ok : nat → bool)
  (s : sys E)
  (HC : EngineContract E good max_rows (input_elems cfg) (output_elems cfg) row errors)
  (Hmax : 0 < max_batch_size cfg ≤ max_rows) (Hoe : 0 ≤ output_elems cfg)
  (Hfit : max_rows * output_elems cfg < two64) (Hal : ∀ i, alloc_ok i = true)
  (Hr : sreachable cfg alloc_ok good s) (Hw : sy_worker s = Exited) :
  queue_ (qs_queue (sy_core s)) = [] ∧ stop_requested_ (qs_queue (sy_core s)) = true ∧
  Forall (resolved row errors cfg (sy_store s)) (qs_accepted (sy_core s)).
Proof.
  destruct (sys_inv_reachable good max_rows row errors cfg alloc_ok Hmax Hoe Hfit Hal s Hr).
  unfold worker_inv in si_worker0. rewrite Hw in si_worker0.
  apply sreachable_core, reachable_window in Hr as [_ Hwin]. rewrite si_worker0 in Hwin.
  destruct Hwin as (_ & Hnil & _). destruct (Hnil eq_refl) as [?|[Hstop Hq]]; [lia |].
  split_and!; [done | done |]. rewrite <- si_split0. unfold pending_list.
  rewrite Hw, si_worker0, Hq. simpl. by rewrite app_nil_r.
Qed.

(** C21: no engine failure and no bad request kills the worker. As long as the copies of
    the result rows allocate ([Hal]; a copy that fails after the first row of a batch does
    escape [run_loop], see [Scheduler.copy_failure_after_first_row]), whatever the engine
    throws and whatever sizes callers submit, the worker thread does not leave [run_loop]
    by an exception; and while it is in the engine call its batch is not empty, within
    [max_batch_size], and all its requests are well-sized. *)
Theorem worker_survives (E : Type) (HE : IExecutionEngine E) (good : E → Prop)
  (max_rows : Z) (row : list float → list float) (errors : exn → Prop) (cfg : SchedulerConfig) (alloc_ok : nat → bool)
  (s : sys E)
  (HC : EngineContract E good max_rows (input_elems cfg) (output_elems cfg) row errors)
  (Hmax : 0 < max_batch_size cfg ≤ max_rows) (Hoe : 0 ≤ output_elems cfg)
  (Hfit : max_rows * output_elems cfg < two64) (Hal : ∀ i, alloc_ok i = true)
  (Hr : sreachable cfg alloc_ok good s) :
  sy_worker s ≠ Crashed ∧
  (∀ batch t0, sy_worker s = Executing batch t0 →
     batch ≠ [] ∧ Forall (well_sized cfg) batch ∧ vec_size batch ≤ max_batch_size cfg).
Proof.
  pose proof (drained_within good max_rows cfg alloc_ok Hmax s Hr) as Hn.
  destruct (sys_inv_reachable good max_rows row errors cfg alloc_ok Hmax Hoe Hfit Hal s Hr).
  unfold worker_inv in si_worker0. split; [intros Hw; by rewrite Hw in si_worker0 |].
  intros batch t0 Hw. rewrite Hw in si_worker0. destruct si_worker0 as (d & Hd & -> & Hne).
  rewrite Hd in Hn. simpl in Hn. split_and!; [done | |].
  - apply Forall_forall. intros r Hin. by apply list_elem_of_filter in Hin as [? _].
  - pose proof (length_filter (well_sized cfg) d). unfold vec_size in *. lia.
Qed.

(** [stop] terminates. Once [stop] has requested the shutdown and waits in [join],
    every sequence of worker steps and notification deliveries is at most [stop_rank]
    long, no other step of the system ever adds to that bound, and the sequence can only
    end with the worker having returned from [run_loop] (so that [join] returns). *)
Theorem stop_terminates (E : Type) (HE : IExecutionEngine E) (good : E → Prop)
  (max_rows : Z) (row : list float → list float) (errors : exn → Prop) (cfg : SchedulerConfig) (alloc_ok : nat → bool)
  (s : sys E)
  (HC : EngineContract E good max_rows (input_elems cfg) (output_elems cfg) row errors)
  (Hmax : 0 < max_batch_size cfg ≤ max_rows) (Hoe : 0 ≤ output_elems cfg)
  (Hfit : max_rows * output_elems cfg < two64) (Hal : ∀ i, alloc_ok i = true)
  (Hr : sreachable cfg alloc_ok good s) (Hc : sy_ctrl s = StopJoining) :
  (∀ n s', nsteps (drive cfg alloc_ok) n s s' → (n ≤ stop_rank s)%nat) ∧
  (∀ s', sstep cfg alloc_ok s s' → (stop_rank s' ≤ stop_rank s)%nat) ∧
  (∀ s', rtc (drive cfg alloc_ok) s s' → sy_joinable s' = true →
     (∀ s'', ¬ drive cfg alloc_ok s' s'') → sy_worker s' = Exited).
Proof.
  assert (Hst : stopping good cfg alloc_ok s) by done. split_and!.
  - intros n s' Hn. destruct (stopping_nsteps good max_rows row errors cfg alloc_ok Hmax Hoe Hfit Hal _ _ _ Hst Hn). lia.
  - intros s' Hs. by eapply (stop_rank_step good max_rows row).
  - intros s' Hrtc Hj Hstuck. apply rtc_nsteps in Hrtc as [n Hn].
    destruct (stopping_nsteps good max_rows row errors cfg alloc_ok Hmax Hoe Hfit Hal _ _ _ Hst Hn) as [Hst' _].
    destruct (decide (sy_worker s' = Exited)) as [|Hne]; [done |].
    destruct (stopping_enabled good max_rows row errors cfg alloc_ok Hmax Hoe Hfit Hal s' Hst' Hj Hne) as [s'' Hd].
    by destruct (Hstuck s'').
Qed.

(** A result is final. Once a promise is resolved, no later step of the system
    (other batches, later submissions, statistics resets, stop and restart) changes
    what its future holds; no engine contract is needed. *)
Theorem results_are_final (E : Type) (HE : IExecutionEngine E) (cfg : SchedulerConfig)
  (alloc_ok : nat → bool) (s s' : sys E) (p : positive) (f : future_state)
  (Hsteps : rtc (sstep cfg alloc_ok) s s') (Hf : state_of (sy_store s) p = Some f)
  (Hne : f ≠ Pending) :
  state_of (sy_store s') p = Some f.
Proof.
  induction Hsteps as [|s s1 s2 Hs _ IH]; [done |]. apply IH. by eapply sstep_store_le.
Qed.

(** Shutdown is permanent. After [queue_.shutdown()], in every later state
    (after [stop] and after any further [start] too) no request is accepted any more and
    every [submit] throws the stopped error without enqueueing. *)
Theorem stopped_scheduler_rejects (E : Type) (HE : IExecutionEngine E) (cfg : SchedulerConfig)
  (alloc_ok : nat → bool) (s s' : sys E)
  (Hstop : stop_requested_ (qs_queue (sy_core s)) = true)
  (Hsteps : rtc (sstep cfg alloc_ok) s s') :
  qs_accepted (sy_core s') = qs_accepted (sy_core s) ∧
  ∀ r, (submit_step r s').2 = Throw stopped_error ∧
       qs_queue (sy_core (submit_step r s').1) = qs_queue (sy_core s').
Proof.
  assert (HC : closed (qs_accepted (sy_core s)) s) by done. revert HC.
  generalize (qs_accepted (sy_core s)). clear Hstop. intros acc HC.
  induction Hsteps as [s|s s1 s2 Hs _ IH]; [| apply IH; by eapply closed_step].
  split; [apply HC |]. intros r. split; [by eapply closed_submit |].
  destruct HC as [Hst _]. unfold submit_step, submit, get_future, new_promise.
  rewrite lookup_insert_eq. simpl. destruct (push _ r) as [q [|]] eqn:Hp; simpl.
  - apply push_accepted in Hp as [Hp _]. congruence.
  - by apply push_refused in Hp as [_ ->].
Qed.

(** Restarting a stopped scheduler busy-waits. [start] after [stop] sets [running_]
    and spawns a worker, but [stop_requested_] is never reset: the worker's
    [wait_and_drain] returns empty at once, the loop goes round, and after its
    first step the worker alternates between two states for ever, without sleeping. *)
Theorem restart_spins (E : Type) (HE : IExecutionEngine E) (good : E → Prop)
  (max_rows : Z) (row : list float → list float) (errors : exn → Prop) (cfg : SchedulerConfig) (alloc_ok : nat → bool)
  (s : sys E)
  (HC : EngineContract E good max_rows (input_elems cfg) (output_elems cfg) row errors)
  (Hmax : 0 < max_batch_size cfg ≤ max_rows) (Hoe : 0 ≤ output_elems cfg)
  (Hfit : max_rows * output_elems cfg < two64) (Hal : ∀ i, alloc_ok i = true)
  (Hr : sreachable cfg alloc_ok good s) (Hw : sy_worker s = Exited)
  (Hidle : sy_ctrl s = CtrlIdle) (Hrun : sy_running s = false) :
  ∃ s1 s2, worker_step cfg alloc_ok (start s) s1 ∧
    worker_step cfg alloc_ok s1 s2 ∧ worker_step cfg alloc_ok s2 s1.
Proof.
  destruct (sys_inv_reachable good max_rows row errors cfg alloc_ok Hmax Hoe Hfit Hal s Hr) as [_ _ _ _ Hwi Hci _].
  unfold worker_inv in Hwi. rewrite Hw in Hwi. destruct Hci as (Hj & _).
  apply sreachable_core, reachable_window in Hr as [_ Hwin]. rewrite Hwi in Hwin.
  destruct Hwin as (_ & Hnil & _). destruct (Hnil eq_refl) as [?|[Hstop Hq]]; [lia |].
  destruct (sy_joinable s) eqn:Hjo; [destruct (Hj eq_refl) as [_ Hx]; by rewrite Hx in Hrun |].
  unfold start. rewrite Hrun, Hjo.
  assert (Hent : qs_consumer (handover (sy_core s)) = Entering) by (unfold handover; by rewrite Hwi).
  destruct (handover_closed (sy_core s)) as [Hhq _].
  destruct (spin_core (max_batch_size cfg) (max_wait cfg) (handover (sy_core s)))
    as (Hd & Hent2 & Hback); [done | by rewrite Hhq | by rewrite Hhq |].
  set (s0 := with_core _ _). set (c1 := run_consumer (max_batch_size cfg) (max_wait cfg) (sy_core s0)).
  exists (with_core c1 s0), (with_core (handover c1) s0). split_and!.
  - apply ws_wait; [done | simpl; by rewrite Hent].
  - by apply (ws_begin cfg alloc_ok (with_core c1 s0) []).
  - assert (Hc1 : with_core c1 s0 = with_core (run_consumer (max_batch_size cfg) (max_wait cfg)
      (handover c1)) s0) by (unfold c1; simpl; by rewrite Hback).
    rewrite Hc1. apply (ws_wait cfg alloc_ok (with_core (handover c1) s0)); [done |].
    simpl. unfold c1. simpl. by rewrite Hent2.
Qed.

(** With [max_batch_size = 0] nothing is ever
    served. The worker keeps draining empty batches: at every reachable point, also
    after [stop] has returned, all accepted requests are still in the deque and all
    their promises are still pending. *)
Theorem zero_batch_limit_starves (E : Type) (HE : IExecutionEngine E) (good : E → Prop)
  (cfg : SchedulerConfig) (alloc_ok : nat → bool) (s : sys E)
  (Hm : max_batch_size cfg = 0) (Hr : sreachable cfg alloc_ok good s) :
  queue_ (qs_queue (sy_core s)) = qs_accepted (sy_core s) ∧
  all_pending (sy_store s) (qs_accepted (sy_core s)).
Proof. by destruct (starved_reachable cfg alloc_ok good s (Z.eq_le_incl _ _ Hm) Hr) as (H1 & _ & _ & _ & H2). Qed.

(** ** Witnesses: two good requests and a mis-sized one, served by the stub engine *)

Abbreviation demo_step := (sstep (E := StubExecutionEngine) demo_cfg (λ _, true)).

Definition demo_sys0 : sys StubExecutionEngine :=
  (submit_step demo_bad (submit_step (demo_request 2) (submit_step (demo_request 1)
    (new_scheduler 0 stub_engine)).1).1).1.

(** The worker waits for its 50 ms window to close, then drains all three. *)
Definition demo_tick (d : Z) (s : sys StubExecutionEngine) : sys StubExecutionEngine :=
  with_core {| qs_queue := qs_queue (sy_core s); qs_now := qs_now (sy_core s) + d;
               qs_consumer := qs_consumer (sy_core s); qs_signals := qs_signals (sy_core s);
               qs_accepted := qs_accepted (sy_core s); qs_delivered := qs_delivered (sy_core s);
               qs_opened := qs_opened (sy_core s) |} s.

Definition demo_run (s : sys StubExecutionEngine) : sys StubExecutionEngine :=
  with_core (run_consumer (max_batch_size demo_cfg) (max_wait demo_cfg) (sy_core s)) s.

Definition demo_window : sys StubExecutionEngine := demo_run (start demo_sys0).
Definition demo_taken : sys StubExecutionEngine := demo_run (demo_tick 50000000 demo_window).
Definition demo_executing : sys StubExecutionEngine :=
  begin_iteration demo_cfg [demo_request 1; demo_request 2; demo_bad] demo_taken.
Definition demo_served : sys StubExecutionEngine :=
  end_iteration demo_cfg (λ _, true) [demo_request 1; demo_request 2] 50000000 demo_executing.
Definition demo_joining : sys StubExecutionEngine := stop_shutdown (stop_clear demo_served).
Definition demo_exited : sys StubExecutionEngine :=
  begin_iteration demo_cfg [] (demo_run demo_joining).
Definition demo_stopped : sys StubExecutionEngine := stop_return demo_exited.

Lemma demo_executing_run : rtc demo_step (new_scheduler 0 stub_engine) demo_executing.
Proof.
  eapply rtc_l; [apply (st_submit _ _ _ (demo_request 1)); reflexivity |].
  eapply rtc_l; [apply (st_submit _ _ _ (demo_request 2)); reflexivity |].
  eapply rtc_l; [apply (st_submit _ _ _ demo_bad); reflexivity |].
  fold demo_sys0.
  apply (rtc_l _ _ (start demo_sys0)); [apply st_start; reflexivity |].
  apply (rtc_l _ _ demo_window); [apply st_worker, ws_wait; reflexivity |].
  apply (rtc_l _ _ (demo_tick 50000000 demo_window)); [by apply st_tick |].
  apply (rtc_l _ _ demo_taken); [apply st_worker, ws_wait; vm_compute; reflexivity |].
  apply rtc_once, st_worker, ws_begin; vm_compute; reflexivity.
Qed.

Lemma demo_joining_run : rtc demo_step demo_executing demo_joining.
Proof.
  apply (rtc_l _ _ demo_served); [apply st_worker, ws_end; vm_compute; reflexivity |].
  apply (rtc_l _ _ (stop_clear demo_served)); [apply st_stop_clear; vm_compute; reflexivity |].
  apply rtc_once, st_stop_shutdown. vm_compute. reflexivity.
Qed.

Lemma demo_stopped_run : rtc demo_step demo_joining demo_stopped.
Proof.
  apply (rtc_l _ _ (demo_run demo_joining)); [apply st_worker, ws_wait; vm_compute; reflexivity |].
  apply (rtc_l _ _ demo_exited); [apply st_worker, ws_begin; vm_compute; reflexivity |].
  apply rtc_once, st_stop_return; [| right]; vm_compute; reflexivity.
Qed.

Lemma demo_reachable s :
  rtc demo_step (new_scheduler 0 stub_engine) s →
  sreachable (E := StubExecutionEngine) demo_cfg (λ _, true) (λ _, True) s.
Proof. intros Hs. eexists. split; [| exact Hs]. by exists 0, stub_engine. Qed.

Lemma demo_contract :
  EngineContract StubExecutionEngine (λ _, True) 4 (input_elems demo_cfg) (output_elems demo_cfg) (fit_row 1) (λ _, False).
Proof. by apply (stub_contract 4 1 1). Qed.

Lemma accepted_requests_accounted_witness :
  Forall (resolved (fit_row 1) (λ _, False) demo_cfg (sy_store demo_executing)) (done_list demo_cfg demo_executing) ∧
  all_pending (sy_store demo_executing) [demo_request 1; demo_request 2].
Proof.
  refine (proj2 (proj2 (accepted_requests_accounted StubExecutionEngine _ (λ _, True) 4 (fit_row 1) (λ _, False)
    demo_cfg (λ _, true) demo_executing demo_contract _ _ _ _ (demo_reachable _ demo_executing_run)))); done.
Defined.

Lemma worker_exit_leaves_nothing_witness :
  Forall (resolved (fit_row 1) (λ _, False) demo_cfg (sy_store demo_stopped)) [demo_request 1; demo_request 2; demo_bad].
Proof.
  refine (proj2 (proj2 (worker_exit_leaves_nothing StubExecutionEngine _ (λ _, True) 4 (fit_row 1) (λ _, False)
    demo_cfg (λ _, true) demo_stopped demo_contract _ _ _ _ (demo_reachable _ _) _))); try done.
  etrans; [exact demo_executing_run |]. etrans; [exact demo_joining_run | exact demo_stopped_run].
Defined.

Lemma worker_survives_witness : Forall (well_sized demo_cfg) [demo_request 1; demo_request 2].
Proof.
  refine (proj1 (proj2 (proj2 (worker_survives StubExecutionEngine _ (λ _, True) 4 (fit_row 1) (λ _, False)
    demo_cfg (λ _, true) demo_executing demo_contract _ _ _ _ (demo_reachable _ demo_executing_run))
    _ 50000000 _))); done.
Defined.

Lemma demo_exited_run : nsteps (drive demo_cfg (λ _, true)) 2 demo_joining demo_exited.
Proof.
  apply (nsteps_l _ 1 _ (demo_run demo_joining)); [left; apply ws_wait; vm_compute; reflexivity |].
  apply nsteps_once. left. apply ws_begin; vm_compute; reflexivity.
Qed.

Lemma stop_terminates_witness : (2 ≤ stop_rank demo_joining)%nat.
Proof.
  refine (proj1 (stop_terminates StubExecutionEngine _ (λ _, True) 4 (fit_row 1) (λ _, False)
    demo_cfg (λ _, true) demo_joining demo_contract _ _ _ _ (demo_reachable _ _) _) 2%nat demo_exited demo_exited_run);
    try done.
  etrans; [exact demo_executing_run | exact demo_joining_run].
Defined.

Lemma results_are_final_witness :
  state_of (sy_store demo_stopped) 5%positive = Some (Failed size_error).
Proof.
  apply (results_are_final StubExecutionEngine _ demo_cfg (λ _, true) demo_executing demo_stopped);
    [| vm_compute; reflexivity | done].
  etrans; [exact demo_joining_run | exact demo_stopped_run].
Defined.

Lemma stopped_scheduler_rejects_witness :
  (submit_step (demo_request 7) demo_stopped).2 = Throw stopped_error.
Proof.
  refine (proj1 (proj2 (stopped_scheduler_rejects StubExecutionEngine _ demo_cfg (λ _, true)
    demo_joining demo_stopped _ demo_stopped_run) (demo_request 7))). vm_compute. reflexivity.
Defined.

Lemma restart_spins_witness :
  ∃ s1 s2, worker_step demo_cfg (λ _, true) (start demo_stopped) s1 ∧
    worker_step demo_cfg (λ _, true) s1 s2 ∧ worker_step demo_cfg (λ _, true) s2 s1.
Proof.
  refine (restart_spins StubExecutionEngine _ (λ _, True) 4 (fit_row 1) (λ _, False)
    demo_cfg (λ _, true) demo_stopped demo_contract _ _ _ _ (demo_reachable _ _) _ _ _); try done.
  etrans; [exact demo_executing_run |]. etrans; [exact demo_joining_run | exact demo_stopped_run].
Defined.

(** The same program with a batch limit of zero: the window never needs to open. *)
Definition demo_zero : SchedulerConfig :=
  {| max_batch_size := 0; max_wait := 50; input_elems := 1; output_elems := 1 |}.

Lemma demo_zero_run :
  rtc (sstep (E := StubExecutionEngine) demo_zero (λ _, true)) (new_scheduler 0 stub_engine)
    (with_core (run_consumer 0 50 (sy_core (start demo_sys0))) (start demo_sys0)).
Proof.
  eapply rtc_l; [apply (st_submit _ _ _ (demo_request 1)); reflexivity |].
  eapply rtc_l; [apply (st_submit _ _ _ (demo_request 2)); reflexivity |].
  eapply rtc_l; [apply (st_submit _ _ _ demo_bad); reflexivity |].
  eapply rtc_l; [apply st_start; reflexivity |].
  eapply rtc_l; [apply st_worker, ws_wait; reflexivity |]. apply rtc_refl.
Qed.

Lemma zero_batch_limit_starves_witness :
  all_pending (sy_store (start demo_sys0)) [demo_request 1; demo_request 2; demo_bad].
Proof.
  refine (proj2 (zero_batch_limit_starves StubExecutionEngine _ (λ _, True) demo_zero (λ _, true)
    (with_core (run_consumer 0 50 (sy_core (start demo_sys0))) (start demo_sys0)) eq_refl _)).
  eexists. split; [| exact demo_zero_run]. by exists 0, stub_engine.
Defined.
