(* ===== verification/Lifecycle.v ===== *)
(** * Starting and stopping from any thread

    [Scheduler::start] and [Scheduler::stop] (src/cpp/src/scheduler/scheduler.cpp) as any
    number of threads call them, access by access: the exchange of [running_] and the
    assignment of [worker_] in [start]; the store to [running_], [queue_.shutdown()], the
    test of [joinable] and the [join] in [stop]. [System] takes [start] as one step and one
    controlling thread at a time; here that is a theorem, for callers that do not let a
    [stop] overlap another call, and what happens when they do is shown too. Then the
    life of a runtime of the binding, from its constructor, which starts the scheduler, to
    its destructor, which stops it twice. *)

From Stdlib Require Import ZArith Lia.
From stdpp Require Import base numbers strings relations gmap list.
From S2P Require Import Prelude Machine Request RequestQueue Engine Scheduler System.

(** ** Calls and their steps *)

Inductive life_call := CallStart | CallStop.

(** What a thread inside [start] or [stop] does next: assign [worker_], call
    [queue_.shutdown()], test [worker_.joinable()], or wait in [worker_.join()]. *)
Inductive life_pc := Spawning | Closing | Testing | Joining.

#[export] Instance life_pc_eq_dec : EqDecision life_pc.
Proof. solve_decision. Defined.

(** The accesses to [worker_], a plain [std::thread]: [Some true] is a write. *)
Definition worker_access (p : life_pc) : option bool :=
  match p with
  | Spawning | Joining => Some true
  | Testing => Some false
  | Closing => None
  end.

Record lsys (E : Type) := { lf_sys : sys E; lf_calls : gmap positive life_pc }.
Arguments lf_sys {E} _.
Arguments lf_calls {E} _.

Section Operations.
Context {E : Type}.

Definition at_calls (y : sys E) (calls : gmap positive life_pc) : lsys E := {| lf_sys := y; lf_calls := calls |}.

(** [running_.exchange(true)]: the call returns if the flag was set. *)
Definition start_exchange (t : positive) (l : lsys E) : lsys E :=
  let y := lf_sys l in
  if sy_running y then l
  else at_calls (with_ctrl (sy_joinable y) true (sy_ctrl y) y) (<[t := Spawning]> (lf_calls l)).

(** [worker_ = std::thread(...)]: terminates the process if [worker_] is joinable. *)
Definition spawn (y : sys E) : sys E :=
  if sy_joinable y then with_worker Crashed y
  else with_core (handover (sy_core y)) (with_worker Looping (with_ctrl true (sy_running y) (sy_ctrl y) y)).
Definition start_spawn (t : positive) (l : lsys E) : lsys E := at_calls (spawn (lf_sys l)) (delete t (lf_calls l)).

(** [running_ = false]. *)
Definition stop_store (t : positive) (l : lsys E) : lsys E :=
  let y := lf_sys l in
  at_calls (with_ctrl (sy_joinable y) false (sy_ctrl y) y) (<[t := Closing]> (lf_calls l)).

(** [queue_.shutdown()]. *)
Definition stop_close (t : positive) (l : lsys E) : lsys E :=
  let y := lf_sys l in at_calls (with_core (core_shutdown (sy_core y)) y) (<[t := Testing]> (lf_calls l)).

(** [if (worker_.joinable())]. *)
Definition stop_test (t : positive) (l : lsys E) : lsys E :=
  at_calls (lf_sys l) (if sy_joinable (lf_sys l) then <[t := Joining]> (lf_calls l) else delete t (lf_calls l)).

(** [worker_.join()], once the worker has returned. *)
Definition stop_joined (t : positive) (l : lsys E) : lsys E :=
  let y := lf_sys l in at_calls (with_ctrl false (sy_running y) (sy_ctrl y) y) (delete t (lf_calls l)).

(** Two threads are about to access [worker_], one of them to write it. *)
Definition race (l : lsys E) : Prop :=
  ∃ t t' p p', t ≠ t' ∧ lf_calls l !! t = Some p ∧ lf_calls l !! t' = Some p' ∧
    worker_access p = Some true ∧ is_Some (worker_access p').
End Operations.

(** When a call may begin: always, or such that a [stop] overlaps no other call. *)
Definition anytime (calls : gmap positive life_pc) (k : life_call) : Prop := True.
Definition disciplined (calls : gmap positive life_pc) (k : life_call) : Prop :=
  match k with
  | CallStart => map_Forall (λ _ p, p = Spawning) calls
  | CallStop => calls = ∅
  end.

Section Steps.
Context {E : Type} `{IExecutionEngine E}.
Variables (cfg : SchedulerConfig) (alloc_ok : nat → bool).
Variable allowed : gmap positive life_pc → life_call → Prop.

(** A step of the worker, a producer, a notification, a reset or the clock. *)
Definition serving (y y' : sys E) : Prop :=
  sstep cfg alloc_ok y y' ∧ sy_joinable y' = sy_joinable y ∧ sy_running y' = sy_running y ∧ sy_ctrl y' = sy_ctrl y.

Inductive lstep (l : lsys E) : lsys E → Prop :=
  | ls_serving y' : serving (lf_sys l) y' → lstep l (at_calls y' (lf_calls l))
  | ls_start t : lf_calls l !! t = None → allowed (lf_calls l) CallStart → lstep l (start_exchange t l)
  | ls_spawn t : lf_calls l !! t = Some Spawning → lstep l (start_spawn t l)
  | ls_stop t : lf_calls l !! t = None → allowed (lf_calls l) CallStop → lstep l (stop_store t l)
  | ls_close t : lf_calls l !! t = Some Closing → lstep l (stop_close t l)
  | ls_test t : lf_calls l !! t = Some Testing → lstep l (stop_test t l)
  | ls_joined t : lf_calls l !! t = Some Joining → sy_worker (lf_sys l) = Exited → lstep l (stop_joined t l).

Definition lreachable (good : E → Prop) : lsys E → Prop :=
  reachable (λ l, ∃ now e, good e ∧ l = at_calls (new_scheduler now e) ∅) lstep.

(** [InferenceRuntime]'s constructor starts the scheduler it has made. *)
Definition runtime_ctor (t : positive) (now : Z) (e : E) : lsys E :=
  start_spawn t (start_exchange t (at_calls (new_scheduler now e) ∅)).

(** The life of a runtime, from the end of its construction. *)
Definition runtime_lives (good : E → Prop) : lsys E → Prop :=
  reachable (λ l, ∃ t now e, good e ∧ l = runtime_ctor t now e) lstep.

(** Destruction. The other threads go on, then one step is made. *)
Definition meanwhile (l l' : lsys E) : Prop :=
  rtc (λ l1 l2, ∃ y, serving (lf_sys l1) y ∧ l2 = at_calls y (lf_calls l1)) l l'.

(** A whole call of [stop] by thread [t]. *)
Inductive stop_call (t : positive) (l : lsys E) : lsys E → Prop :=
  | sc_none l1 l2 l3 :
      meanwhile l l1 → meanwhile (stop_store t l1) l2 → meanwhile (stop_close t l2) l3 →
      sy_joinable (lf_sys l3) = false → stop_call t l (stop_test t l3)
  | sc_join l1 l2 l3 l4 :
      meanwhile l l1 → meanwhile (stop_store t l1) l2 → meanwhile (stop_close t l2) l3 →
      sy_joinable (lf_sys l3) = true → meanwhile (stop_test t l3) l4 → sy_worker (lf_sys l4) = Exited →
      stop_call t l (stop_joined t l4).

(** [~Scheduler] calls [stop]; [~InferenceRuntime] calls it too, before its members are
    destroyed. *)
Definition scheduler_dtor (t : positive) (l l' : lsys E) : Prop := stop_call t l l'.
Definition runtime_dtor (t : positive) (l l' : lsys E) : Prop := ∃ l1, stop_call t l l1 ∧ scheduler_dtor t l1 l'.

(** [~thread] of [worker_]: terminates the process if it is joinable. *)
Definition thread_dtor (y : sys E) : outcome unit := if sy_joinable y then Undefined else Ret tt.
End Steps.

(** ** Overlapping calls of [start], and [stop] on its own *)

Section Disciplined.
Context {E : Type} `{HE : IExecutionEngine E} (good : E → Prop) (max_rows : Z)
  (row : list float → list float) (errors : exn → Prop) (cfg : SchedulerConfig) (alloc_ok : nat → bool).
Context `{HC : !EngineContract E good max_rows (input_elems cfg) (output_elems cfg) row errors}.
Hypothesis Hmax : 0 < max_batch_size cfg ≤ max_rows.
Hypothesis Hoe : 0 ≤ output_elems cfg.
Hypothesis Hfit : max_rows * output_elems cfg < two64.
Hypothesis Hal : ∀ i, alloc_ok i = true.

Implicit Types (l : lsys E) (s y : sys E).

Abbreviation reach := (sreachable cfg alloc_ok good).
Abbreviation step := (sstep cfg alloc_ok).

(** How the calls in progress show in the flag and the controlling thread of [System]:
    a thread between exchange and assignment has not started anything yet. *)
Inductive calls_view (y : sys E) : gmap positive life_pc → bool → ctrl_pc → Prop :=
  | cv_none : calls_view y ∅ (sy_running y) CtrlIdle
  | cv_spawning t : sy_running y = true → calls_view y {[t := Spawning]} false CtrlIdle
  | cv_closing t : calls_view y {[t := Closing]} (sy_running y) StopCleared
  | cv_testing t : calls_view y {[t := Testing]} (sy_running y) StopJoining
  | cv_joining t : sy_joinable y = true → calls_view y {[t := Joining]} (sy_running y) StopJoining.

(** The state of [System] a state stands for. *)
Definition stands_for l s : Prop :=
  sy_ctrl (lf_sys l) = CtrlIdle ∧
  ∃ r c, s = with_ctrl (sy_joinable (lf_sys l)) r c (lf_sys l) ∧ calls_view (lf_sys l) (lf_calls l) r c.

Lemma with_ctrl_self y : with_ctrl (sy_joinable y) (sy_running y) (sy_ctrl y) y = y.
Proof. by destruct y. Qed.

(** The worker alone reads the flag. *)
Lemma serving_frame y y' j r c :
  serving cfg alloc_ok y y' → sy_ctrl y = CtrlIdle →
  r = sy_running y ∨ sy_worker y = NotStarted ∨ sy_worker y = Exited →
  step (with_ctrl j r c y) (with_ctrl j r c y') ∨ y' = y.
Proof.
  intros (Hs & _ & Hrun & Hct) Hc Hr.
  destruct Hs as [s d Hd|s r' Hr'|s s' Hs|s s' Hs|s Hw Hq|s i|s Hc'|s Hc'|s Hc'|s Hc' Hj]; try done; try congruence.
  - left. by apply (st_tick _ _ (with_ctrl j r c s)).
  - left. replace (with_ctrl j r c (submit_step r' s).1) with ((submit_step r' (with_ctrl j r c s)).1);
      [by apply st_submit |]. unfold submit_step. simpl. by destruct (submit _ _ _) as [[q ps] o].
  - left. destruct Hs as [s n Hn]. apply st_signal. by apply (ss_signal (with_ctrl j r c s)).
  - left. apply st_worker. destruct Hs as [s Hw Hq|s d Hw Hd|s b t Hw].
    + by apply (ws_wait _ _ (with_ctrl j r c s)).
    + destruct Hr as [-> | [? | ?]]; [| congruence | congruence].
      replace (with_ctrl j (sy_running s) c (begin_iteration cfg d s))
        with (begin_iteration cfg d (with_ctrl j (sy_running s) c s)); [by apply ws_begin |].
      unfold begin_iteration. simpl. destruct d; [by destruct (sy_running s) |].
      by destruct (validate _ _ _) as [[[] ?]| |].
    + replace (with_ctrl j r c (end_iteration cfg alloc_ok b t s))
        with (end_iteration cfg alloc_ok b t (with_ctrl j r c s)); [by apply ws_end |].
      unfold end_iteration. simpl. by destruct (execute_batch _ _ _ _ _ _ _ _) as [[e st] [ps []]].
  - left. by apply (st_spurious _ _ (with_ctrl j r c s)).
  - left. by apply (st_reset _ _ (with_ctrl j r c s)).
  - unfold start in *. destruct (sy_running s) eqn:Hrs; [by right |]. by destruct (sy_joinable s).
  - simpl in Hct. congruence.
Qed.

Lemma calls_view_insert y calls r c t p :
  calls_view y calls r c → calls !! t = Some p → calls = {[t := p]}.
Proof. intros [] Ht; [done | ..]; by apply lookup_singleton_Some in Ht as [-> ->]. Qed.

Lemma calls_view_none y r c : calls_view y ∅ r c → r = sy_running y ∧ c = CtrlIdle.
Proof.
  remember ∅ as calls eqn:Heq. destruct 1 as [|t|t|t|t]; [done | ..];
    apply (f_equal (lookup t)) in Heq; by rewrite lookup_singleton_eq in Heq.
Qed.

(** What a call in progress implies. *)
Lemma stands_for_call l s t p :
  stands_for l s → lf_calls l !! t = Some p →
  sy_ctrl (lf_sys l) = CtrlIdle ∧ lf_calls l = {[t := p]} ∧
  match p with
  | Spawning => sy_running (lf_sys l) = true ∧ s = with_ctrl (sy_joinable (lf_sys l)) false CtrlIdle (lf_sys l)
  | Closing => s = with_ctrl (sy_joinable (lf_sys l)) (sy_running (lf_sys l)) StopCleared (lf_sys l)
  | Testing => s = with_ctrl (sy_joinable (lf_sys l)) (sy_running (lf_sys l)) StopJoining (lf_sys l)
  | Joining => sy_joinable (lf_sys l) = true ∧ s = with_ctrl true (sy_running (lf_sys l)) StopJoining (lf_sys l)
  end.
Proof.
  intros (Hc & r & c & -> & Hv) Ht. pose proof (calls_view_insert _ _ _ _ _ _ Hv Ht) as Hcalls.
  split; [done |]. split; [done |]. rewrite Hcalls in Hv. remember {[t := p]} as calls eqn:Heq.
  destruct Hv as [|t'|t'|t'|t' Hj]; try (apply (f_equal (lookup t')) in Heq; rewrite lookup_singleton_eq in Heq;
    symmetry in Heq; apply lookup_singleton_Some in Heq as [_ ->]; rewrite ?Hj; done).
  apply (f_equal (lookup t)) in Heq. by rewrite lookup_singleton_eq in Heq.
Qed.

(** A thread about to assign [worker_] finds it empty, and no worker running. *)
Lemma spawning_fresh l s t :
  reach s → stands_for l s → lf_calls l !! t = Some Spawning →
  sy_joinable (lf_sys l) = false ∧ (sy_worker (lf_sys l) = NotStarted ∨ sy_worker (lf_sys l) = Exited).
Proof.
  intros Hs HV Ht. destruct (stands_for_call l s t _ HV Ht) as (_ & _ & _ & ->).
  destruct (sys_inv_reachable good max_rows row errors cfg alloc_ok Hmax Hoe Hfit Hal _ Hs) as [_ _ _ _ _ (Hc1 & Hc2 & _) _].
  simpl in *. destruct (sy_joinable (lf_sys l)); [by destruct (Hc1 eq_refl) as [_ Hx]; discriminate Hx | by auto].
Qed.

Lemma stands_for_serving l s y' :
  reach s → stands_for l s → serving cfg alloc_ok (lf_sys l) y' →
  ∃ s', stands_for (at_calls y' (lf_calls l)) s' ∧ (step s s' ∨ s' = s).
Proof.
  intros Hs HV Hy. pose proof HV as (Hc & r & c & -> & Hv). pose proof Hy as (_ & Hj & Hr & Hct).
  exists (with_ctrl (sy_joinable (lf_sys l)) r c y'). split.
  - split; [by rewrite <- Hc |]. exists r, c. simpl. rewrite Hj. split; [done |].
    destruct Hv; rewrite <- ?Hr; constructor; congruence.
  - destruct (serving_frame _ _ (sy_joinable (lf_sys l)) r c Hy Hc) as [H'| ->]; [| by left | by right].
    remember (lf_calls l) as calls eqn:Hcalls. destruct Hv as [|t Hrun|t|t|t Hjo]; auto. right.
    apply (spawning_fresh l _ t Hs HV). by rewrite <- Hcalls, lookup_singleton_eq.
Qed.

Lemma stands_for_step l l' s :
  reach s → stands_for l s → lstep cfg alloc_ok disciplined l l' → ∃ s', stands_for l' s' ∧ (step s s' ∨ s' = s).
Proof.
  intros Hs HV Hst. destruct Hst as [y' Hy|t Ht Ha|t Ht|t Ht Ha|t Ht|t Ht|t Ht Hw].
  - by apply stands_for_serving.
  - unfold start_exchange. destruct (sy_running (lf_sys l)) eqn:Hrun; [by exists s; auto |].
    pose proof HV as (Hc & r & c & -> & Hv). eexists. split; [| by right]. split; [done |].
    exists r, c. simpl. split; [done |]. remember (lf_calls l) as calls eqn:Hcalls.
    destruct Hv as [|t' Hrun'|t'|t'|t' Hjo]; simpl; rewrite ?Hrun.
    + rewrite insert_empty. by constructor.
    + congruence.
    + by apply map_Forall_singleton in Ha.
    + by apply map_Forall_singleton in Ha.
    + by apply map_Forall_singleton in Ha.
  - destruct (spawning_fresh l s t Hs HV Ht) as [Hj _].
    destruct (stands_for_call l s t _ HV Ht) as (Hc & Hcalls & Hrun & ->). unfold start_spawn, spawn. rewrite Hj, Hcalls, delete_singleton_eq.
    eexists. split; [| left; by apply st_start].
    split; [done |]. exists true, CtrlIdle. unfold start. simpl. rewrite Hrun. split; [done |].
    apply (cv_none (with_core _ (with_worker Looping (with_ctrl true true _ (lf_sys l))))).
  - simpl in Ha. pose proof HV as (Hc & r & c & -> & Hv). rewrite Ha in Hv.
    apply calls_view_none in Hv as [-> ->]. unfold stop_store. rewrite Ha, insert_empty.
    eexists. split; [| left; by apply st_stop_clear]. split; [done |]. do 2 eexists. split; [| apply cv_closing]. done.
  - destruct (stands_for_call l s t _ HV Ht) as (Hc & Hcalls & ->). unfold stop_close. rewrite Hcalls, insert_singleton_eq.
    eexists. split; [| left; by apply st_stop_shutdown]. split; [done |]. do 2 eexists. split; [| apply cv_testing]. done.
  - destruct (stands_for_call l s t _ HV Ht) as (Hc & Hcalls & ->). unfold stop_test.
    destruct (sy_joinable (lf_sys l)) eqn:Hj; rewrite Hcalls.
    + rewrite insert_singleton_eq. eexists. split; [| by right]. split; [done |]. do 2 eexists. split; [| by apply cv_joining]. simpl. by rewrite Hj.
    + rewrite delete_singleton_eq. eexists. split; [| left; apply st_stop_return; [done | by left]].
      split; [done |]. do 2 eexists. split; [| apply cv_none]. simpl. by rewrite Hj.
  - destruct (stands_for_call l s t _ HV Ht) as (Hc & Hcalls & Hj & ->). unfold stop_joined. rewrite Hcalls, delete_singleton_eq.
    eexists. split; [| left; apply st_stop_return; [done | by right]]. split; [done |]. do 2 eexists. split; [| apply cv_none]. done.
Qed.

Lemma stands_for_reachable l : lreachable cfg alloc_ok disciplined good l → ∃ s, reach s ∧ stands_for l s.
Proof.
  revert l. apply invariant_reachable.
  - intros l (now & e & He & ->). exists (new_scheduler now e). split; [apply reachable_init; eauto |].
    split; [done |]. do 2 eexists. split; [| apply cv_none]. done.
  - intros l l' (s & Hs & HV) Hst. destruct (stands_for_step l l' s Hs HV Hst) as (s' & HV' & [H'| ->]); [| by exists s].
    exists s'. split; [by eapply reachable_step | done].
Qed.

(** A call of [stop] is a run of steps of the discipline. *)
Lemma meanwhile_calls l l' : meanwhile cfg alloc_ok l l' → lf_calls l' = lf_calls l.
Proof. induction 1 as [l|l l1 l2 (y & _ & ->) _ IH]; [done |]. by rewrite IH. Qed.

Abbreviation lreach := (runtime_lives cfg alloc_ok disciplined good).

Lemma lstep_started l l' :
  lstep cfg alloc_ok disciplined l l' → sy_worker (lf_sys l) ≠ NotStarted → sy_worker (lf_sys l') ≠ NotStarted.
Proof.
  intros Hst Hn. destruct Hst as [y' [Hy _]|t Ht Ha|t Ht|t Ht Ha|t Ht|t Ht|t Ht Hw]; try done.
  - by eapply started_step.
  - unfold start_exchange. by destruct (sy_running (lf_sys l)).
  - simpl. unfold spawn. by destruct (sy_joinable (lf_sys l)).
Qed.

(** A runtime's scheduler has been started. *)
Lemma lives_started l : lreach l → lreachable cfg alloc_ok disciplined good l ∧ sy_worker (lf_sys l) ≠ NotStarted.
Proof.
  revert l. apply invariant_reachable.
  - intros l (t & now & e & He & ->). split; [| done].
    set (l0 := at_calls (new_scheduler now e) ∅). apply (reachable_step _ _ (start_exchange t l0)).
    + apply (reachable_step _ _ l0); [apply reachable_init; by exists now, e |].
      apply (ls_start _ _ _ l0); [apply lookup_empty | apply map_Forall_empty].
    + apply (ls_spawn _ _ _ (start_exchange t l0)). simpl. apply lookup_insert_eq.
  - intros l l' [Hl Hn] Hst. split; [by eapply reachable_step | by eapply lstep_started].
Qed.

Lemma meanwhile_reachable l l' : lreach l → meanwhile cfg alloc_ok l l' → lreach l'.
Proof.
  intros Hl. induction 1 as [l|l l1 l2 (y & Hy & ->) _ IH]; [done |]. apply IH.
  eapply reachable_step; [exact Hl |]. by apply ls_serving.
Qed.

Lemma stop_call_lives t l l' :
  lreach l → lf_calls l = ∅ → stop_call cfg alloc_ok t l l' →
  lreach l' ∧ lf_calls l' = ∅ ∧ sy_joinable (lf_sys l') = false.
Proof.
  intros Hl He Hc.
  assert (Hpre : ∀ l1 l2 l3, meanwhile cfg alloc_ok l l1 → meanwhile cfg alloc_ok (stop_store t l1) l2 →
    meanwhile cfg alloc_ok (stop_close t l2) l3 → lreach l3 ∧ lf_calls l3 = {[t := Testing]}).
  { intros l1 l2 l3 H1 H2 H3. pose proof (meanwhile_reachable _ _ Hl H1) as Hl1.
    pose proof (meanwhile_calls _ _ H1) as Hc1. rewrite He in Hc1.
    assert (Hl2 : lreach l2).
    { eapply meanwhile_reachable; [| exact H2]. eapply reachable_step; [exact Hl1 |]. apply ls_stop; [by rewrite Hc1 | done]. }
    pose proof (meanwhile_calls _ _ H2) as Hc2. simpl in Hc2. rewrite Hc1, insert_empty in Hc2.
    pose proof (meanwhile_calls _ _ H3) as Hc3. simpl in Hc3. rewrite Hc2, insert_singleton_eq in Hc3. split; [| done].
    eapply meanwhile_reachable; [| exact H3]. eapply reachable_step; [exact Hl2 |].
    apply ls_close. by rewrite Hc2, lookup_singleton_eq. }
  destruct Hc as [l1 l2 l3 H1 H2 H3 Hj|l1 l2 l3 l4 H1 H2 H3 Hj H4 Hw]; destruct (Hpre l1 l2 l3 H1 H2 H3) as [Hl3 Hc3].
  - assert (Ht : lreach (stop_test t l3)).
    { eapply reachable_step; [exact Hl3 |]. apply ls_test. by rewrite Hc3, lookup_singleton_eq. }
    split; [done |]. simpl. by rewrite Hj, Hc3, delete_singleton_eq.
  - assert (Hl4 : lreach l4).
    { eapply meanwhile_reachable; [| exact H4]. eapply reachable_step; [exact Hl3 |].
      apply ls_test. by rewrite Hc3, lookup_singleton_eq. }
    pose proof (meanwhile_calls _ _ H4) as Hc4. simpl in Hc4. rewrite Hj, Hc3, insert_singleton_eq in Hc4.
    split; [| simpl; by rewrite Hc4, delete_singleton_eq].
    eapply reachable_step; [exact Hl4 |]. apply ls_joined; [by rewrite Hc4, lookup_singleton_eq | done].
Qed.

Lemma stands_for_race l s : stands_for l s → ¬ race l.
Proof.
  intros HV (t & t' & p & p' & Hne & Ht & Ht' & _). destruct (stands_for_call l s t p HV Ht) as (_ & Hc & _).
  rewrite Hc in Ht'. by apply lookup_singleton_Some in Ht' as [? _].
Qed.

Lemma stands_for_idle l s : stands_for l s → lf_calls l = ∅ → s = lf_sys l.
Proof.
  intros (Hc & r & c & -> & Hv) He. rewrite He in Hv. apply calls_view_none in Hv as [-> ->].
  rewrite <- Hc. apply with_ctrl_self.
Qed.
End Disciplined.

(** ** Properties *)

(** C13: the lifecycle, from any number of threads. Threads may call [start] whenever no
    [stop] is in progress, also at the same time, and [stop] when no other call is in
    progress. Then at every point of every interleaving of their accesses with the worker
    and the producers the scheduler is in a state of the system in which [start] is one
    step and one thread controls it (the very state, between calls); no two threads ever
    race on [worker_]; at most one thread is between the exchange and the assignment, it
    finds no worker running and [worker_] empty, so that one worker at most exists and
    the process does not terminate. *)
Theorem lifecycle_refines_system (E : Type) (HE : IExecutionEngine E) (good : E → Prop)
  (max_rows : Z) (row : list float → list float) (errors : exn → Prop) (cfg : SchedulerConfig) (alloc_ok : nat → bool)
  (l : lsys E)
  (HC : EngineContract E good max_rows (input_elems cfg) (output_elems cfg) row errors)
  (Hmax : 0 < max_batch_size cfg ≤ max_rows) (Hoe : 0 ≤ output_elems cfg)
  (Hfit : max_rows * output_elems cfg < two64) (Hal : ∀ i, alloc_ok i = true)
  (Hr : lreachable cfg alloc_ok disciplined good l) :
  (∃ s, sreachable cfg alloc_ok good s ∧ stands_for l s ∧ (lf_calls l = ∅ → s = lf_sys l)) ∧
  ¬ race l ∧ sy_worker (lf_sys l) ≠ Crashed ∧
  (∀ t, lf_calls l !! t = Some Spawning → lf_calls l = {[t := Spawning]} ∧ sy_joinable (lf_sys l) = false ∧
     (sy_worker (lf_sys l) = NotStarted ∨ sy_worker (lf_sys l) = Exited)).
Proof.
  destruct (stands_for_reachable good max_rows row errors cfg alloc_ok Hmax Hoe Hfit Hal l Hr) as (s & Hs & HV).
  split_and!.
  - exists s. split_and!; [done | done |]. by apply stands_for_idle.
  - by eapply stands_for_race.
  - destruct HV as (_ & r & c & -> & _). intros Hw.
    destruct (sys_inv_reachable good max_rows row errors cfg alloc_ok Hmax Hoe Hfit Hal _ Hs) as [_ _ _ _ Hwi _ _].
    unfold worker_inv in Hwi. simpl in Hwi. by rewrite Hw in Hwi.
  - intros t Ht. split; [by destruct (stands_for_call l s t _ HV Ht) as (_ & ? & _) |].
    by eapply (spawning_fresh good max_rows row errors cfg alloc_ok).
Qed.

(** C14: destroying the runtime. The constructor of [InferenceRuntime] starts the worker;
    [~InferenceRuntime] calls [stop] and [~Scheduler] calls it again, with the worker and
    the producers going on in between. From any state in the life of a runtime with no call
    of [start] or [stop] in progress: once the first call has returned, the second has
    nothing to wait for (its three accesses in a row complete it); after the two, [worker_]
    is not joinable, so that its destructor does not terminate the process, and the worker
    has returned, with the deque empty and every accepted request resolved. *)
Theorem runtime_destruction (E : Type) (HE : IExecutionEngine E) (good : E → Prop)
  (max_rows : Z) (row : list float → list float) (errors : exn → Prop) (cfg : SchedulerConfig) (alloc_ok : nat → bool)
  (t : positive) (l : lsys E)
  (HC : EngineContract E good max_rows (input_elems cfg) (output_elems cfg) row errors)
  (Hmax : 0 < max_batch_size cfg ≤ max_rows) (Hoe : 0 ≤ output_elems cfg)
  (Hfit : max_rows * output_elems cfg < two64) (Hal : ∀ i, alloc_ok i = true)
  (Hr : runtime_lives cfg alloc_ok disciplined good l) (Hidle : lf_calls l = ∅) :
  (∀ l1, stop_call cfg alloc_ok t l l1 →
     runtime_dtor cfg alloc_ok t l (stop_test t (stop_close t (stop_store t l1)))) ∧
  (∀ l', runtime_dtor cfg alloc_ok t l l' →
     let y := lf_sys l' in
     thread_dtor y = Ret tt ∧ lf_calls l' = ∅ ∧
     sy_worker y = Exited ∧ queue_ (qs_queue (sy_core y)) = [] ∧
     Forall (resolved row errors cfg (sy_store y)) (qs_accepted (sy_core y))).
Proof.
  split.
  - intros l1 H1. exists l1. split; [done |].
    destruct (stop_call_lives good cfg alloc_ok t l l1 Hr Hidle H1) as (_ & _ & Hj).
    by apply (sc_none _ _ t l1 l1 (stop_store t l1) (stop_close t (stop_store t l1))); [apply rtc_refl.. |].
  - intros l' (l1 & H1 & H2).
    destruct (stop_call_lives good cfg alloc_ok t l l1 Hr Hidle H1) as (Hl1 & Hc1 & _).
    destruct (stop_call_lives good cfg alloc_ok t l1 l' Hl1 Hc1 H2) as (Hl' & Hc' & Hj').
    destruct (lives_started good cfg alloc_ok l' Hl') as [Hreach Hns].
    destruct (stands_for_reachable good max_rows row errors cfg alloc_ok Hmax Hoe Hfit Hal l' Hreach) as (s & Hs & HV).
    rewrite (stands_for_idle l' s HV Hc') in Hs. split; [unfold thread_dtor; by rewrite Hj' |]. split; [done |].
    by destruct (stopped_state good max_rows row errors cfg alloc_ok Hmax Hoe Hfit Hal _ Hs Hj') as [Hn|Hend].
Qed.

(** Without that discipline: two overlapping calls of [stop] (two threads in [shutdown] of
    the binding, which releases the interpreter lock around it) race on [worker_]; a
    [start] that overlaps a [stop] assigns to a joinable [worker_], which terminates the
    process. *)
Theorem overlapping_calls_break (E : Type) (HE : IExecutionEngine E) (good : E → Prop)
  (cfg : SchedulerConfig) (alloc_ok : nat → bool) (e : E) (He : good e) :
  (∃ l, lreachable cfg alloc_ok anytime good l ∧ race l) ∧
  (∃ l, lreachable cfg alloc_ok anytime good l ∧ sy_worker (lf_sys l) = Crashed).
Proof.
  set (l0 := at_calls (new_scheduler 0 e) ∅).
  set (started := start_spawn 1 (start_exchange 1 l0)).
  assert (Hs : lreachable cfg alloc_ok anytime good started).
  { apply (reachable_step _ _ (start_exchange 1 l0)); [apply (reachable_step _ _ l0); [apply reachable_init; by exists 0, e |] |].
    - by apply (ls_start _ _ _ l0).
    - by apply (ls_spawn _ _ _ (start_exchange 1 l0)). }
  set (clear := stop_store 1 started). set (close := stop_close 1 clear).
  set (join := stop_test 1 close). set (again := stop_store 2 join). set (exchanged := start_exchange 2 clear).
  pose proof (reachable_step _ _ _ _ Hs (ls_stop cfg alloc_ok anytime started 1 eq_refl I)) as H1. split.
  - pose proof (reachable_step _ _ _ _ H1 (ls_close cfg alloc_ok anytime clear 1 eq_refl)) as H2.
    pose proof (reachable_step _ _ _ _ H2 (ls_test cfg alloc_ok anytime close 1 eq_refl)) as H3.
    pose proof (reachable_step _ _ _ _ H3 (ls_stop cfg alloc_ok anytime join 2 eq_refl I)) as H4.
    pose proof (reachable_step _ _ _ _ H4 (ls_close cfg alloc_ok anytime again 2 eq_refl)) as H5.
    eexists. split; [exact H5 |]. exists 1%positive, 2%positive, Joining, Testing. by repeat split.
  - pose proof (reachable_step _ _ _ _ H1 (ls_start cfg alloc_ok anytime clear 2 eq_refl I)) as H2.
    by exists (start_spawn 2 exchanged); split; [apply (reachable_step _ _ _ _ H2 (ls_spawn cfg alloc_ok anytime exchanged 2 eq_refl)) |].
Qed.

(** ** Witness *)

(** Two threads call [start] at once; the first has done its exchange. *)
Definition demo_starting : lsys StubExecutionEngine :=
  start_exchange 2 (start_exchange 1 (at_calls (new_scheduler 0 stub_engine) ∅)).

Lemma demo_starting_reachable :
  lreachable (E := StubExecutionEngine) demo_cfg (λ _, true) disciplined (λ _, True) demo_starting.
Proof.
  eapply reachable_step; [eapply reachable_step; [apply reachable_init; by exists 0, stub_engine |] |].
  - apply (ls_start _ _ _ (at_calls (new_scheduler 0 stub_engine) ∅)); [done | apply map_Forall_empty].
  - apply (ls_start _ _ _ (start_exchange 1 (at_calls (new_scheduler 0 stub_engine) ∅))); [done |].
    by apply map_Forall_insert_2; [| apply map_Forall_empty].
Qed.

Lemma lifecycle_refines_system_witness :
  ¬ race demo_starting ∧ lf_calls demo_starting = {[1%positive := Spawning]} ∧ sy_joinable (lf_sys demo_starting) = false.
Proof.
  destruct (lifecycle_refines_system StubExecutionEngine _ (λ _, True) 4 (fit_row 1) (λ _, False) demo_cfg (λ _, true)
    demo_starting demo_contract) as (_ & Hrace & _ & Hsp);
    [done | done | done | done | apply demo_starting_reachable |].
  by destruct (Hsp 1%positive) as (Hc & Hj & _).
Defined.

(** Three requests are submitted to a runtime; the first [stop] of the destructors waits in
    [join] until the worker has served them. *)
Definition demo_made : lsys StubExecutionEngine := runtime_ctor 1 0 stub_engine.
Definition demo_up : lsys StubExecutionEngine :=
  at_calls (submit_step demo_bad (submit_step (demo_request 2) (submit_step (demo_request 1) (lf_sys demo_made)).1).1).1 ∅.
Definition demo_waiting : lsys StubExecutionEngine := stop_test 1 (stop_close 1 (stop_store 1 demo_up)).

Abbreviation demo_serve := (serving (E := StubExecutionEngine) demo_cfg (λ _, true)).

Definition demo_drain : sys StubExecutionEngine := demo_run (lf_sys demo_waiting).
Definition demo_running : sys StubExecutionEngine :=
  begin_iteration demo_cfg [demo_request 1; demo_request 2; demo_bad] demo_drain.
Definition demo_answered : sys StubExecutionEngine :=
  end_iteration demo_cfg (λ _, true) [demo_request 1; demo_request 2] 0 demo_running.
Definition demo_returned : sys StubExecutionEngine := begin_iteration demo_cfg [] (demo_run demo_answered).
Definition demo_down : lsys StubExecutionEngine := stop_joined 1 (at_calls demo_returned (lf_calls demo_waiting)).

Lemma serve_submit y r : sy_store y !! result_promise r = None → demo_serve y (submit_step r y).1.
Proof.
  intros Hr. split; [by apply st_submit |]. unfold submit_step. by destruct (submit _ _ _) as [[? ?] ?].
Qed.

Lemma demo_up_lives : runtime_lives (E := StubExecutionEngine) demo_cfg (λ _, true) disciplined (λ _, True) demo_up.
Proof.
  unfold demo_up.
  do 3 (eapply (reachable_step _ _ (at_calls _ ∅)); [| apply (ls_serving _ _ _ (at_calls _ ∅)), serve_submit; reflexivity]).
  apply reachable_init. by exists 1%positive, 0, stub_engine.
Qed.

Lemma demo_serves : rtc demo_serve (lf_sys demo_waiting) demo_returned.
Proof.
  apply (rtc_l _ _ demo_drain).
  { split; [apply st_worker, (ws_wait demo_cfg _ (lf_sys demo_waiting)) | split_and!]; vm_compute; reflexivity. }
  apply (rtc_l _ _ demo_running).
  { split; [apply st_worker, (ws_begin demo_cfg _ demo_drain) | split_and!]; vm_compute; reflexivity. }
  apply (rtc_l _ _ demo_answered).
  { split; [apply st_worker, (ws_end demo_cfg _ demo_running) | split_and!]; vm_compute; reflexivity. }
  apply (rtc_l _ _ (demo_run demo_answered)).
  { split; [apply st_worker, (ws_wait demo_cfg _ demo_answered) | split_and!]; vm_compute; reflexivity. }
  apply rtc_once. split; [apply st_worker, (ws_begin demo_cfg _ (demo_run demo_answered)) | split_and!]; vm_compute; reflexivity.
Qed.

Lemma serves_meanwhile l y :
  rtc demo_serve (lf_sys l) y → meanwhile (E := StubExecutionEngine) demo_cfg (λ _, true) l (at_calls y (lf_calls l)).
Proof.
  destruct l as [x calls]. simpl. induction 1 as [x|x y1 y2 Hy _ IH]; [apply rtc_refl |].
  eapply rtc_l; [| exact IH]. by exists y1.
Qed.

Lemma demo_stop_call : stop_call (E := StubExecutionEngine) demo_cfg (λ _, true) 1 demo_up demo_down.
Proof.
  apply (sc_join _ _ 1 demo_up demo_up (stop_store 1 demo_up) (stop_close 1 (stop_store 1 demo_up))
    (at_calls demo_returned (lf_calls demo_waiting))); [apply rtc_refl | apply rtc_refl | apply rtc_refl | ..].
  - vm_compute. reflexivity.
  - exact (serves_meanwhile demo_waiting demo_returned demo_serves).
  - vm_compute. reflexivity.
Qed.

Lemma runtime_destruction_witness :
  let l' := stop_test 1 (stop_close 1 (stop_store 1 demo_down)) in
  runtime_dtor (E := StubExecutionEngine) demo_cfg (λ _, true) 1 demo_up l' ∧ thread_dtor (lf_sys l') = Ret tt ∧
  state_of (sy_store (lf_sys l')) (result_promise demo_bad) = Some (Failed size_error).
Proof.
  destruct (runtime_destruction StubExecutionEngine _ (λ _, True) 4 (fit_row 1) (λ _, False) demo_cfg (λ _, true) 1 demo_up
    demo_contract) as [Hsecond Hend]; [done | done | done | done | apply demo_up_lives | vm_compute; reflexivity |].
  pose proof (Hsecond demo_down demo_stop_call) as Hd. intros l'. split; [exact Hd |].
  split; [apply (Hend _ Hd) | vm_compute; reflexivity].
Defined.
