(* ===== verification/Delivery.v ===== *)
(** * The worker loop access by access

    [run_loop] (src/cpp/src/scheduler/scheduler.cpp) cut finer than in [System]: every step
    of the worker settles at most one promise or makes at most one access to a counter,
    and between any two steps producers submit, callers read their futures, notifications
    arrive, statistics are reset and [start] and [stop] run.

    [fine_refines_system] shows that this makes no difference to anyone but the counters:
    every state of the fine system is matched by a reachable state of [System] in which the
    loop the worker is in has already run to its end. [Accounting] says what the counters
    hold meanwhile, and that an iteration cannot be held up by anything other threads do. *)

From Stdlib Require Import ZArith Lia.
From stdpp Require Import base numbers strings relations gmap list.
From S2P Require Import Prelude Machine Request RequestQueue Engine Scheduler Counters System.

(** Where the worker is inside an iteration: at a point [System] also distinguishes; in the
    loop over [drained] with the batch so far; at the counters of the batch, before or after
    the clock reading [dequeued_at], with the instructions still to come; in the loop over
    the rows, at row [i]; in the handler with the requests still to be failed. *)
Inductive fine_pc :=
  | Between
  | Validating (rest batch : list InferenceRequest)
  | Counting (dequeued_at : option Z) (todo : list instr) (batch : list InferenceRequest)
  | Resolving (batched_output : list float) (i : nat) (rest batch : list InferenceRequest)
  | Failing (e : exn) (rest : list InferenceRequest).

Definition in_loop (pc : fine_pc) : bool := match pc with Between => false | _ => true end.

Record fsys (E : Type) := { fy_sys : sys E; fy_pc : fine_pc }.
Arguments fy_sys {E} _.
Arguments fy_pc {E} _.

Section Fine.
Context {E : Type} `{HE : IExecutionEngine E} (cfg : SchedulerConfig) (alloc_ok : nat → bool).

Definition fine_at (pc : fine_pc) (y : sys E) : fsys E := {| fy_sys := y; fy_pc := pc |}.

(** ** Steps *)

(** One request of the loop over [drained]; an exception leaves [run_loop]. *)
Definition validate_step (r : InferenceRequest) (rest batch : list InferenceRequest) (y : sys E) : fsys E :=
  match validate_one cfg (batch, sy_store y) r with
  | Ret (batch', ps) => fine_at (Validating rest batch') (with_store ps y)
  | _ => fine_at Between (with_worker Crashed y)
  end.

(** After that loop: the next iteration, or the counters. *)
Definition validated (batch : list InferenceRequest) (y : sys E) : fsys E :=
  match batch with
  | [] => fine_at Between (with_core (handover (sy_core y)) y)
  | _ => fine_at (Counting None (count_instrs (vec_size batch)) batch) y
  end.

(** One access to a counter. *)
Definition count_step (spurious : bool) (dequeued_at : option Z) (i : instr) (todo : list instr)
    (batch : list InferenceRequest) (y : sys E) : fsys E :=
  let '(s, l) := run_instr spurious i (sy_stats y) in
  fine_at (Counting dequeued_at (l ++ todo) batch) (with_stats s y).

(** The clock is read and the queue waits follow, or the clock is read and the engine is
    called with the gathered input. *)
Definition counted (dequeued_at : option Z) (batch : list InferenceRequest) (y : sys E) : fsys E :=
  let now := qs_now (sy_core y) in
  match dequeued_at with
  | None => fine_at (Counting (Some now) (wait_instrs now batch) batch) y
  | Some _ => fine_at Between (with_worker (Executing batch now) y)
  end.

(** The engine has returned: its time is recorded and the size of its output checked. *)
Definition engine_returned (batch : list InferenceRequest) (t0 : Z) (y : sys E) : fsys E :=
  let '(e, o) := run_inference (sy_engine y) (gather batch) (vec_size batch) (input_elems cfg) (output_elems cfg) in
  let y' := with_engine e (with_stats (record_exec (elapsed_us_since t0 (qs_now (sy_core y))) (sy_stats y)) y) in
  match o with
  | Ret out =>
      if negb (vec_size out =? u64_mul (vec_size batch) (output_elems cfg))
      then fine_at (Failing (InferenceError "engine returned an unexpected output size") batch) y'
      else fine_at (Resolving out 0 batch batch) y'
  | Throw x => fine_at (Failing x batch) y'
  | Undefined => fine_at Between (with_worker Crashed y')
  end.

(** One row handed out; an exception enters the handler, which starts from the front. *)
Definition resolve_step (out : list float) (i : nat) (r : InferenceRequest) (rest batch : list InferenceRequest)
    (y : sys E) : fsys E :=
  let first := u64_mul (Z.of_nat i) (output_elems cfg) in
  let last := u64_mul (Z.of_nat i + 1) (output_elems cfg) in
  match
    row ← read_range out first (last - first);
    if alloc_ok i
    then set_value (result_promise r) {| res_request_id := request_id r; logits := row |} (sy_store y)
    else Throw BadAlloc
  with
  | Ret ps => fine_at (Resolving out (S i) rest batch) (with_store ps y)
  | Throw x => fine_at (Failing x batch) y
  | Undefined => fine_at Between (with_worker Crashed y)
  end.

(** One request failed by the handler. *)
Definition fail_step (x : exn) (r : InferenceRequest) (rest : list InferenceRequest) (y : sys E) : fsys E :=
  match set_exception (result_promise r) x (sy_store y) with
  | Ret ps => fine_at (Failing x rest) (with_store ps y)
  | _ => fine_at Between (with_worker Crashed y)
  end.

(** The end of the iteration. *)
Definition iteration_done (y : sys E) : fsys E :=
  fine_at Between (with_core (handover (sy_core y)) (with_worker Looping y)).

Inductive fworker : fsys E → fsys E → Prop :=
  | fw_wait y : sy_worker y = Looping → runnable (qs_now (sy_core y)) (qs_consumer (sy_core y)) = true →
      fworker (fine_at Between y)
        (fine_at Between (with_core (run_consumer (max_batch_size cfg) (max_wait cfg) (sy_core y)) y))
  | fw_empty y : sy_worker y = Looping → qs_consumer (sy_core y) = Drained [] →
      fworker (fine_at Between y) (fine_at Between (begin_iteration cfg [] y))
  | fw_begin y d : sy_worker y = Looping → qs_consumer (sy_core y) = Drained d → d ≠ [] →
      fworker (fine_at Between y) (fine_at (Validating d []) y)
  | fw_validate y r rest batch : fworker (fine_at (Validating (r :: rest) batch) y) (validate_step r rest batch y)
  | fw_validated y batch : fworker (fine_at (Validating [] batch) y) (validated batch y)
  | fw_count y dequeued_at i todo batch :
      fworker (fine_at (Counting dequeued_at (i :: todo) batch) y) (count_step false dequeued_at i todo batch y)
  | fw_counted y dequeued_at batch : fworker (fine_at (Counting dequeued_at [] batch) y) (counted dequeued_at batch y)
  | fw_engine y batch t0 : sy_worker y = Executing batch t0 →
      fworker (fine_at Between y) (engine_returned batch t0 y)
  | fw_resolve y out i r rest batch :
      fworker (fine_at (Resolving out i (r :: rest) batch) y) (resolve_step out i r rest batch y)
  | fw_resolved y out i batch : fworker (fine_at (Resolving out i [] batch) y) (iteration_done y)
  | fw_fail y x r rest : fworker (fine_at (Failing x (r :: rest)) y) (fail_step x r rest y)
  | fw_failed y x : fworker (fine_at (Failing x []) y) (iteration_done y).

(** Every other thread, statistics resets apart, and time. *)
Inductive others : sys E → sys E → Prop :=
  | ot_tick y d : 0 ≤ d →
      others y (with_core {| qs_queue := qs_queue (sy_core y); qs_now := qs_now (sy_core y) + d;
                             qs_consumer := qs_consumer (sy_core y); qs_signals := qs_signals (sy_core y);
                             qs_accepted := qs_accepted (sy_core y); qs_delivered := qs_delivered (sy_core y);
                             qs_opened := qs_opened (sy_core y) |} y)
  | ot_submit y r : sy_store y !! result_promise r = None → others y (submit_step r y).1
  | ot_signal y y' : signal_step y y' → others y y'
  | ot_start y : sy_ctrl y = CtrlIdle → others y (start y)
  | ot_stop_clear y : sy_ctrl y = CtrlIdle → others y (stop_clear y)
  | ot_stop_shutdown y : sy_ctrl y = StopCleared → others y (stop_shutdown y)
  | ot_stop_return y : sy_ctrl y = StopJoining → sy_joinable y = false ∨ sy_worker y = Exited →
      others y (stop_return y).

(** The worker woken for no reason, and an exchange that fails for none. *)
Inductive spurious : fsys E → fsys E → Prop :=
  | sp_wait y : sy_worker y = Looping → runnable (qs_now (sy_core y)) (qs_consumer (sy_core y)) = false →
      spurious (fine_at Between y)
        (fine_at Between (with_core (run_consumer (max_batch_size cfg) (max_wait cfg) (sy_core y)) y))
  | sp_exchange y dequeued_at c previous candidate todo batch :
      spurious (fine_at (Counting dequeued_at (Exchange c previous candidate :: todo) batch) y)
        (count_step true dequeued_at (Exchange c previous candidate) todo batch y).

Inductive fmove : fsys E → fsys E → Prop :=
  | fm_worker f f' : fworker f f' → fmove f f'
  | fm_spurious f f' : spurious f f' → fmove f f'
  | fm_others pc y y' : others y y' → fmove (fine_at pc y) (fine_at pc y').

(** One of the stores of [reset_stats], by any thread. *)
Inductive fstep : fsys E → fsys E → Prop :=
  | fs_move f f' : fmove f f' → fstep f f'
  | fs_reset pc y i : fstep (fine_at pc y) (fine_at pc (with_stats (reset_store i (sy_stats y)) y)).

Definition freachable (good : E → Prop) : fsys E → Prop :=
  reachable (λ f, ∃ now e, good e ∧ f = fine_at Between (new_scheduler now e)) fstep.
End Fine.

(** ** Settling promises commutes with submitting *)

(** [f], which may change the store, does to a store with one more promise what it does
    without it. *)
Definition frames (p : positive) (sh : shared_state) (f : pstore → pstore * outcome unit) (ps ps' : pstore) : Prop :=
  ps' !! p = None ∧ f (<[p := sh]> ps) = (<[p := sh]> ps', Ret tt).

Lemma make_ready_frame p sh f q ps :
  ps !! p = None → make_ready f q ps ≠ Undefined →
  make_ready f q (<[p := sh]> ps) = (ps' ← make_ready f q ps; Ret (<[p := sh]> ps')).
Proof.
  intros Hp. unfold make_ready. destruct (decide (q = p)) as [->|Hne]; [by rewrite Hp |].
  rewrite lookup_insert_ne by done. destruct (ps !! q) as [s|]; [| done]. intros _.
  destruct (state s); simpl; [| done | done]. by rewrite insert_insert_ne by done.
Qed.

Lemma make_ready_fresh p f q ps ps' : ps !! p = None → make_ready f q ps = Ret ps' → ps' !! p = None.
Proof.
  intros Hp Hm. apply make_ready_inv in Hm as (Hq & _ & Hf). rewrite Hf; [done |]. intros ->.
  unfold pending, state_of in Hq. by rewrite Hp in Hq.
Qed.

Lemma fail_all_frame p sh x batch ps ps' :
  ps !! p = None → fail_all x batch ps = (ps', Ret tt) → frames p sh (fail_all x batch) ps ps'.
Proof.
  revert ps. induction batch as [|r batch IH]; intros ps Hp; simpl; [by intros [= <-] |].
  destruct (set_exception (result_promise r) x ps) as [ps1|y|] eqn:Hm; [| done | done].
  intros Hf. destruct (IH ps1) as [Hp' Hf']; [by eapply make_ready_fresh | done |]. split; [done |]. simpl.
  unfold set_exception in *. rewrite make_ready_frame by (done || by rewrite Hm). rewrite Hm. exact Hf'.
Qed.

Section Relation.
Context {E : Type} `{HE : IExecutionEngine E} (good : E → Prop) (max_rows : Z)
  (row : list float → list float) (errors : exn → Prop) (cfg : SchedulerConfig) (alloc_ok : nat → bool).
Context `{HC : !EngineContract E good max_rows (input_elems cfg) (output_elems cfg) row errors}.
Hypothesis Hmax : 0 < max_batch_size cfg ≤ max_rows.
Hypothesis Hoe : 0 ≤ output_elems cfg.
Hypothesis Hfit : max_rows * output_elems cfg < two64.
Hypothesis Hal : ∀ i, alloc_ok i = true.

Abbreviation reach := (sreachable cfg alloc_ok good).

(** What remains of the try block and its handler. *)
Definition rest_of (out : list float) (i : nat) (rest batch : list InferenceRequest) (ps : pstore) : pstore * outcome unit :=
  match resolve_loop cfg alloc_ok out i rest ps with
  | (ps', Throw x) => fail_all x batch ps'
  | r => r
  end.

Lemma rest_of_frame p sh out i rest batch ps ps' :
  ps !! p = None → rest_of out i rest batch ps = (ps', Ret tt) → frames p sh (rest_of out i rest batch) ps ps'.
Proof.
  unfold rest_of, frames. revert i ps. induction rest as [|r rest IH]; intros i ps Hp; simpl; [by intros [= <-] |].
  destruct (read_range _ _ _) as [row0|x|]; simpl; [| by apply fail_all_frame | done].
  destruct (alloc_ok i); [| by apply fail_all_frame]. unfold set_value.
  destruct (make_ready _ (result_promise r) ps) as [ps1|x|] eqn:Hm; [| | done];
    rewrite make_ready_frame by (done || by rewrite Hm); rewrite Hm; simpl.
  - apply IH. by eapply make_ready_fresh.
  - by apply fail_all_frame.
Qed.

Lemma validate_frame p sh drained batch ps b' ps' :
  ps !! p = None → fold_outcome (validate_one cfg) (batch, ps) drained = Ret (b', ps') →
  ps' !! p = None ∧
  fold_outcome (validate_one cfg) (batch, <[p := sh]> ps) drained = Ret (b', <[p := sh]> ps').
Proof.
  revert batch ps. induction drained as [|r drained IH]; intros batch ps Hp; simpl; [by intros [= <- <-] |].
  destruct (vec_size (input_data r) =? input_elems cfg); simpl; [by apply IH |].
  unfold set_exception. destruct (make_ready _ (result_promise r) ps) as [ps1|x|] eqn:Hm; simpl; [| done | done].
  rewrite make_ready_frame by (done || by rewrite Hm). rewrite Hm. simpl. apply IH. by eapply make_ready_fresh.
Qed.

(** ** The matching state of [System] *)

Definition same_mode (w w' : worker_mode) : Prop :=
  match w, w' with Executing b _, Executing b' _ => b = b' | _, _ => w = w' end.

(** Queue, worker and store of the matching state: the loop the worker is in has run to
    its end, and an iteration whose promises are being handed out is over. *)
Definition pc_rel (pc : fine_pc) (y : sys E) (c : qsys) (w : worker_mode) (ps : pstore) : Prop :=
  match pc with
  | Between => c = sy_core y ∧ same_mode w (sy_worker y) ∧ ps = sy_store y
  | Validating rest batch =>
      sy_worker y = Looping ∧
      ∃ b', fold_outcome (validate_one cfg) (batch, sy_store y) rest = Ret (b', ps) ∧
        match b' with
        | [] => c = handover (sy_core y) ∧ w = Looping
        | _ => c = sy_core y ∧ ∃ t, w = Executing b' t
        end
  | Counting _ _ batch =>
      sy_worker y = Looping ∧ c = sy_core y ∧ ps = sy_store y ∧ ∃ t, w = Executing batch t
  | Resolving out i rest batch =>
      (∃ b t, sy_worker y = Executing b t) ∧ c = handover (sy_core y) ∧ w = Looping ∧
      rest_of out i rest batch (sy_store y) = (ps, Ret tt)
  | Failing x rest =>
      (∃ b t, sy_worker y = Executing b t) ∧ c = handover (sy_core y) ∧ w = Looping ∧
      fail_all x rest (sy_store y) = (ps, Ret tt)
  end.

(** All else is equal, the counters excepted. *)
Definition with_parts (st : SchedulerStats) (c : qsys) (w : worker_mode) (ps : pstore) (y : sys E) : sys E :=
  with_stats st (with_worker w (with_core c (with_store ps y))).

Definition matches (f : fsys E) (s : sys E) : Prop :=
  ∃ st c w ps, s = with_parts st c w ps (fy_sys f) ∧ pc_rel (fy_pc f) (fy_sys f) c w ps.

Lemma matches_between y s : matches (fine_at Between y) s →
  ∃ st w, s = with_stats st (with_worker w y) ∧ same_mode w (sy_worker y).
Proof. intros (st & c & w & ps & -> & -> & Hw & ->). exists st, w. split; [by destruct y | done]. Qed.

(** *** Steps of other threads *)

Lemma pc_rel_core g pc y c w ps :
  (∀ c, handover (g c) = g (handover c)) → pc_rel pc y c w ps → pc_rel pc (with_core (g (sy_core y)) y) (g c) w ps.
Proof.
  intros Hg. destruct pc as [|rest batch|dq todo batch|out i rest batch|x rest]; simpl.
  - intros (-> & Hw & ->). done.
  - intros (Hw & b' & Hv & Hb). split; [done |]. exists b'. split; [done |].
    destruct b'; destruct Hb as [-> ?]; [by rewrite Hg | done].
  - by intros (Hw & -> & Hx).
  - intros (Hw & -> & Hx). by rewrite Hg.
  - intros (Hw & -> & Hx). by rewrite Hg.
Qed.

Lemma pc_rel_store p sh pc y c w ps :
  sy_store y !! p = None → pc_rel pc y c w ps →
  ps !! p = None ∧ pc_rel pc (with_store (<[p := sh]> (sy_store y)) y) c w (<[p := sh]> ps).
Proof.
  intros Hp. destruct pc as [|rest batch|dq todo batch|out i rest batch|x rest]; simpl.
  - intros (-> & Hw & ->). done.
  - intros (Hw & b' & Hv & Hb). destruct (validate_frame p sh _ _ _ _ _ Hp Hv) as [Hp' Hv'].
    split; [done |]. split; [done |]. by exists b'.
  - by intros (Hw & -> & -> & Hx).
  - intros (Hw & -> & -> & Hx). destruct (rest_of_frame p sh _ _ _ _ _ _ Hp Hx) as [Hp' Hx']. done.
  - intros (Hw & -> & -> & Hx). destruct (fail_all_frame p sh _ _ _ _ Hp Hx) as [Hp' Hx']. done.
Qed.

(** [push] on the queue's system. *)
Definition push_core (r : InferenceRequest) (c : qsys) : qsys :=
  let '(q, accepted) := push (qs_queue c) r in core_push q accepted r c.

Lemma submit_step_eq r (y : sys E) :
  (submit_step r y).1 =
  with_core (push_core r (sy_core y))
    (with_store (<[result_promise r := {| future_retrieved := true; state := Pending |}]> (sy_store y)) y).
Proof.
  unfold submit_step, submit, get_future, new_promise, push_core. rewrite lookup_insert_eq. simpl.
  rewrite insert_insert_eq. by destruct (push _ r) as [q [|]].
Qed.

Lemma handover_push_core r c : handover (push_core r c) = push_core r (handover c).
Proof. unfold handover, push_core. destruct (qs_consumer c) eqn:Hc, (push (qs_queue c) r) eqn:Hp; simpl; by rewrite ?Hc, ?Hp. Qed.

Lemma handover_shutdown c : handover (core_shutdown c) = core_shutdown (handover c).
Proof. unfold handover. simpl. by destruct (qs_consumer c). Qed.

Definition tick_core (d : Z) (c : qsys) : qsys :=
  {| qs_queue := qs_queue c; qs_now := qs_now c + d; qs_consumer := qs_consumer c; qs_signals := qs_signals c;
     qs_accepted := qs_accepted c; qs_delivered := qs_delivered c; qs_opened := qs_opened c |}.

Lemma handover_tick d c : handover (tick_core d c) = tick_core d (handover c).
Proof. unfold handover. simpl. by destruct (qs_consumer c). Qed.

Definition signal_core (n : nat) (c : qsys) : qsys :=
  {| qs_queue := qs_queue c; qs_now := qs_now c; qs_consumer := notify (qs_consumer c); qs_signals := n;
     qs_accepted := qs_accepted c; qs_delivered := qs_delivered c; qs_opened := qs_opened c |}.

Lemma handover_signal n c : handover (signal_core n c) = signal_core n (handover c).
Proof. unfold handover. simpl. by destruct (qs_consumer c) eqn:Hc; simpl; rewrite ?Hc. Qed.

Lemma pc_rel_signals pc y c w ps : pc_rel pc y c w ps → qs_signals c = qs_signals (sy_core y).
Proof.
  destruct (handover_rank (sy_core y)) as (Hs & _ & _).
  destruct pc; simpl.
  - by intros (-> & _).
  - intros (_ & b' & _ & Hb). by destruct b'; destruct Hb as [-> _].
  - by intros (_ & -> & _).
  - by intros (_ & -> & _).
  - by intros (_ & -> & _).
Qed.

(** [start] finds the worker running, or there is no iteration to be in. *)
Lemma matches_start pc y s :
  reach s → sy_ctrl y = CtrlIdle → matches (fine_at pc y) s → matches (fine_at pc (start y)) (start s).
Proof.
  intros Hs Hc (st & c & w & ps & -> & Hrel). simpl in *.
  pose proof (sys_inv_reachable good max_rows row errors cfg alloc_ok Hmax Hoe Hfit Hal _ Hs) as HI.
  apply si_ctrl in HI as (Hj & Hnj & _). unfold start. simpl in *.
  destruct (sy_running y) eqn:Hr; [by exists st, c, w, ps |].
  destruct (sy_joinable y) eqn:Hb; [destruct (Hj eq_refl) as [_ Hx]; specialize (Hx Hc); congruence |].
  assert (Hbt : pc = Between).
  { destruct (Hnj eq_refl) as [Hw|Hw]; subst w; destruct pc; try done; simpl in Hrel.
    all: try (destruct Hrel as (_ & _ & Hx & _); discriminate Hx).
    all: try (destruct Hrel as (_ & _ & _ & t & Hx); discriminate Hx).
    all: destruct Hrel as (_ & b' & _ & Hb'); destruct b'; [destruct Hb' as [_ Hx] | destruct Hb' as (_ & t & Hx)];
      discriminate Hx. }
  subst pc. simpl in Hrel. destruct Hrel as (-> & _ & ->).
  eexists st, _, Looping, (sy_store y). split; [| simpl; split_and!; reflexivity]. done.
Qed.

Lemma matches_others pc y y' s :
  reach s → matches (fine_at pc y) s → others y y' →
  ∃ s', sstep cfg alloc_ok s s' ∧ matches (fine_at pc y') s'.
Proof.
  intros Hs HM Ho. pose proof HM as (st & c & w & ps & -> & Hrel). simpl in Hrel.
  destruct Ho as [y d Hd|y r Hr|y y' Hy|y Hc|y Hc|y Hc|y Hc Hj].
  - eexists. split; [by apply st_tick |]. exists st, (tick_core d c), w, ps. split; [done |].
    by apply (pc_rel_core (tick_core d)); [apply handover_tick |].
  - destruct (pc_rel_store (result_promise r) {| future_retrieved := true; state := Pending |} pc y c w ps Hr Hrel)
      as [Hfresh Hrel'].
    eexists. split; [by apply (st_submit cfg alloc_ok _ r) |]. rewrite !submit_step_eq.
    eexists st, (push_core r c), w, _. split; [done |].
    by apply (pc_rel_core (push_core r)) in Hrel'; [| apply handover_push_core].
  - destruct Hy as [y n Hn]. eexists. split.
    + apply st_signal, (ss_signal _ n). simpl. by rewrite (pc_rel_signals pc y c w ps).
    + exists st, (signal_core n c), w, ps. split; [done |].
      by apply (pc_rel_core (signal_core n)); [apply handover_signal |].
  - eexists. split; [by apply st_start |]. by apply matches_start.
  - eexists. split; [by apply st_stop_clear |]. exists st, c, w, ps. split; [done |]. by destruct pc.
  - eexists. split; [by apply st_stop_shutdown |]. exists st, (core_shutdown c), w, ps. split; [done |].
    apply (pc_rel_core core_shutdown) in Hrel; [| apply handover_shutdown]. by destruct pc.
  - eexists. split.
    + apply st_stop_return; [done |]. destruct Hj as [Hj|Hj]; [by left | right]. simpl.
      destruct pc; simpl in Hrel.
      * destruct Hrel as (_ & Hw & _). rewrite Hj in Hw. by destruct w.
      * destruct Hrel as [Hw _]. congruence.
      * destruct Hrel as [Hw _]. congruence.
      * destruct Hrel as [(b & t & Hw) _]. congruence.
      * destruct Hrel as [(b & t & Hw) _]. congruence.
    + exists st, c, w, ps. split; [done |]. by destruct pc.
Qed.

(** *** Steps of the worker *)

(** A reachable state is not one the worker crashed in. *)
Lemma reach_alive s : reach s → sy_worker s ≠ Crashed.
Proof.
  intros Hs Hw. apply (sys_inv_reachable good max_rows row errors cfg alloc_ok Hmax Hoe Hfit Hal) in Hs.
  apply si_worker in Hs. unfold worker_inv in Hs. by rewrite Hw in Hs.
Qed.

Lemma matches_wait y s :
  matches (fine_at Between y) s → sy_worker y = Looping →
  ∃ s', (if runnable (qs_now (sy_core y)) (qs_consumer (sy_core y)) then worker_step cfg alloc_ok s s'
         else sstep cfg alloc_ok s s') ∧
    matches (fine_at Between (with_core (run_consumer (max_batch_size cfg) (max_wait cfg) (sy_core y)) y)) s'.
Proof.
  intros HM Hw. apply matches_between in HM as (st & w & -> & Hm). rewrite Hw in Hm.
  assert (w = Looping) as -> by by destruct w.
  exists (with_core (run_consumer (max_batch_size cfg) (max_wait cfg) (sy_core y)) (with_stats st (with_worker Looping y))).
  split.
  - destruct (runnable (qs_now (sy_core y)) (qs_consumer (sy_core y))) eqn:Hr.
    + by apply (ws_wait cfg alloc_ok (with_stats st (with_worker Looping y))).
    + by apply (st_spurious cfg alloc_ok (with_stats st (with_worker Looping y))).
  - eexists st, _, Looping, (sy_store y). split; [done |]. simpl. by rewrite Hw.
Qed.

(** An empty batch ends the loop or goes round. *)
Lemma matches_empty y s :
  matches (fine_at Between y) s → sy_worker y = Looping → qs_consumer (sy_core y) = Drained [] →
  ∃ s', worker_step cfg alloc_ok s s' ∧ matches (fine_at Between (begin_iteration cfg [] y)) s'.
Proof.
  intros HM Hw Hd. apply matches_between in HM as (st & w & -> & Hm). rewrite Hw in Hm.
  assert (w = Looping) as -> by by destruct w.
  eexists. split; [by apply (ws_begin cfg alloc_ok _ []) |]. unfold begin_iteration. simpl.
  destruct (sy_running y); simpl.
  - exists st, (handover (sy_core y)), Looping, (sy_store y). split; [reflexivity |]. simpl. by rewrite Hw.
  - exists st, (sy_core y), Exited, (sy_store y). split; [reflexivity |]. by simpl.
Qed.

(** Taking up a batch: [System] validates it at once. *)
Lemma matches_begin y s d :
  reach s → matches (fine_at Between y) s → sy_worker y = Looping → qs_consumer (sy_core y) = Drained d → d ≠ [] →
  ∃ s', worker_step cfg alloc_ok s s' ∧ matches (fine_at (Validating d []) y) s'.
Proof.
  intros Hs HM Hw Hd Hne. apply matches_between in HM as (st & w & -> & Hm). rewrite Hw in Hm.
  assert (w = Looping) as -> by by destruct w. set (s := with_stats st (with_worker Looping y)) in *.
  assert (Hst : worker_step cfg alloc_ok s (begin_iteration cfg d s)) by by apply ws_begin.
  pose proof (reach_alive _ (reachable_step _ _ _ _ Hs (st_worker _ _ _ _ Hst))) as Hal'.
  exists (begin_iteration cfg d s). split; [done |]. unfold begin_iteration in *. destruct d as [|r d]; [done |].
  change (sy_store s) with (sy_store y) in *.
  destruct (validate cfg (r :: d) (sy_store y)) as [[[|b0 b] ps]|x|] eqn:Hv; [| | done | done].
  - exists st, (handover (sy_core y)), Looping, ps. split; [reflexivity |]. simpl. split; [done |]. by exists [].
  - eexists _, (sy_core y), (Executing (b0 :: b) (qs_now (sy_core y))), ps. split; [reflexivity |]. simpl.
    split; [done |]. exists (b0 :: b). eauto.
Qed.

(** The engine returns: [System] hands out all rows, or fails all requests, at once. *)
Lemma matches_engine y s batch t0 :
  reach s → matches (fine_at Between y) s → sy_worker y = Executing batch t0 →
  ∃ s', worker_step cfg alloc_ok s s' ∧ matches (engine_returned cfg batch t0 y) s'.
Proof.
  intros Hs HM Hw. apply matches_between in HM as (st & w & -> & Hm). rewrite Hw in Hm.
  destruct w as [| |b t| |]; try done. simpl in Hm. subst b. set (s := with_stats st (with_worker (Executing batch t) y)) in *.
  assert (Hst : worker_step cfg alloc_ok s (end_iteration cfg alloc_ok batch t s)) by by apply ws_end.
  pose proof (reach_alive _ (reachable_step _ _ _ _ Hs (st_worker _ _ _ _ Hst))) as Hal'.
  exists (end_iteration cfg alloc_ok batch t s). split; [done |].
  unfold end_iteration, execute_batch, engine_returned in *.
  change (sy_engine s) with (sy_engine y) in *. change (sy_store s) with (sy_store y) in *.
  destruct (run_inference (sy_engine y) (gather batch) (vec_size batch) (input_elems cfg) (output_elems cfg)) as [e o].
  destruct (deliver cfg alloc_ok o batch (sy_store y)) as [ps [u|x|]] eqn:Hdel; [| by destruct Hal' | by destruct Hal'].
  assert (Hm : ∀ pc, (∃ ps0, ps0 = (ps, Ret tt) ∧
      match pc with
      | Resolving out i rest b => rest_of out i rest b (sy_store y) = ps0
      | Failing x rest => fail_all x rest (sy_store y) = ps0
      | _ => False
      end) →
    matches (fine_at pc (with_engine e (with_stats (record_exec (elapsed_us_since t0 (qs_now (sy_core y))) (sy_stats y)) y)))
      (with_core (handover (sy_core s)) (with_worker Looping (with_engine e
         (with_stats (record_exec (elapsed_us_since t (qs_now (sy_core s))) (sy_stats s)) (with_store ps s)))))).
  { intros pc (? & -> & Hpc). eexists _, (handover (sy_core y)), Looping, ps. split; [reflexivity |].
    destruct pc; try done; simpl; eauto 10. }
  unfold deliver, try_block in Hdel. destruct u.
  destruct o as [out|x|]; [| by apply Hm; eexists | done].
  destruct (negb _); apply Hm; by eexists.
Qed.

(** The counters are not part of what is matched. *)
Lemma matches_count sp dq i todo batch y s :
  matches (fine_at (Counting dq (i :: todo) batch) y) s → matches (count_step sp dq i todo batch y) s.
Proof.
  intros (st & c & w & ps & -> & Hrel). unfold count_step. destruct (run_instr sp i (sy_stats y)) as [s l].
  exists st, c, w, ps. by split.
Qed.

(** Inside the loops [System] does not move. *)
Lemma matches_loop f f' s :
  matches f s → fworker cfg alloc_ok f f' → fy_pc f ≠ Between → matches f' s.
Proof.
  intros HM Hf Hb.
  destruct Hf as [y Hw|y Hw Hd|y d Hw Hd Hne|y r rest batch|y batch|y dq i todo batch|y dq batch|y batch t0 Hw
    |y out i r rest batch|y out i batch|y x r rest|y x]; try done; [| | by apply matches_count |..];
    destruct HM as (st & c & w & ps & -> & Hrel); simpl in *.
  - destruct Hrel as (Hw & b' & Hv & Hc). unfold validate_step. simpl.
    destruct (negb _); [destruct (set_exception _ _ _) as [ps1|x|]; simpl in *; [| done | done] |];
      (eexists st, c, w, ps; split; [reflexivity |]); simpl; eauto.
  - destruct Hrel as (Hw & b' & [= <- <-] & Hc). unfold validated. destruct batch as [|r batch].
    + destruct Hc as [-> ->]. exists st, (handover (sy_core y)), Looping, (sy_store y). split; [reflexivity |].
      simpl. by rewrite Hw.
    + destruct Hc as [-> [t ->]]. exists st, (sy_core y), (Executing (r :: batch) t), (sy_store y).
      split; [reflexivity |]. simpl. eauto.
  - destruct Hrel as (Hw & -> & -> & t & ->). exists st, (sy_core y), (Executing batch t), (sy_store y).
    unfold counted. destruct dq; (split; [reflexivity |]); simpl; eauto.
  - destruct Hrel as (Hw & -> & -> & Hr). unfold resolve_step, rest_of in *. simpl in *.
    destruct (x ← read_range _ _ _; _) as [ps1|x|]; [| | done];
      (exists st, (handover (sy_core y)), Looping, ps; split; [reflexivity |]); simpl; eauto.
  - destruct Hrel as (Hw & -> & -> & [= <-]). exists st, (handover (sy_core y)), Looping, (sy_store y).
    split; [reflexivity |]. by simpl.
  - destruct Hrel as (Hw & -> & -> & Hr). unfold fail_step. simpl in *.
    destruct (set_exception _ _ _) as [ps1|y'|]; [| done | done].
    exists st, (handover (sy_core y)), Looping, ps. split; [reflexivity |]. simpl. eauto.
  - destruct Hrel as (Hw & -> & -> & [= <-]). exists st, (handover (sy_core y)), Looping, (sy_store y).
    split; [reflexivity |]. by simpl.
Qed.

(** Everything settled so far is settled the same way in the matching state. *)
Lemma pc_rel_le pc y c w ps : pc_rel pc y c w ps → store_le (sy_store y) ps.
Proof.
  destruct pc as [|rest batch|dq todo batch|out i rest batch|x rest]; simpl.
  - by intros (_ & _ & ->).
  - intros (_ & b' & Hv & _). by eapply validate_le.
  - by intros (_ & _ & -> & _).
  - intros (_ & _ & _ & Hr). unfold rest_of in Hr. pose proof (resolve_loop_le cfg alloc_ok out i rest (sy_store y)) as Hle.
    destruct (resolve_loop _ _ _ _ _ _) as [ps1 [u|x|]]; simpl in Hle; [by simplify_eq | | by simplify_eq].
    etrans; [exact Hle |]. pose proof (fail_all_le x batch ps1) as Hle2. by rewrite Hr in Hle2.
  - intros (_ & _ & _ & Hr). pose proof (fail_all_le x rest (sy_store y)) as Hle. by rewrite Hr in Hle.
Qed.

Lemma pc_rel_queue pc y c w ps :
  pc_rel pc y c w ps → qs_queue c = qs_queue (sy_core y) ∧ qs_accepted c = qs_accepted (sy_core y).
Proof.
  pose proof (handover_closed (sy_core y)) as Hh. destruct pc; simpl.
  - by intros (-> & _).
  - intros (_ & b' & _ & Hb). by destruct b'; destruct Hb as [-> _].
  - by intros (_ & -> & _).
  - by intros (_ & -> & _).
  - by intros (_ & -> & _).
Qed.

(** ** The simulation *)

(** A step of the worker between iterations is one of [System]'s worker; inside the loops
    it is none. *)
Lemma fworker_matched f f' s :
  reach s → matches f s → fworker cfg alloc_ok f f' →
  ∃ s', matches f' s' ∧ (if in_loop (fy_pc f) then s' = s else worker_step cfg alloc_ok s s').
Proof.
  intros Hs HM Hf. pose proof Hf as Hf'. destruct (in_loop (fy_pc f)) eqn:Hb.
  - exists s. split; [| done]. eapply matches_loop; [done | done |]. by intros Hbt; rewrite Hbt in Hb.
  - destruct Hf as [y Hw Hr|y Hw Hd|y d Hw Hd Hne|y r rest batch|y batch|y dq i todo batch|y dq batch|y batch t0 Hw
      |y out i r rest batch|y out i batch|y x r rest|y x]; try discriminate Hb.
    + destruct (matches_wait y s HM Hw) as (s' & Hst & HM'). rewrite Hr in Hst. by exists s'.
    + destruct (matches_empty y s HM Hw Hd) as (s' & Hst & HM'). by exists s'.
    + destruct (matches_begin y s d Hs HM Hw Hd Hne) as (s' & Hst & HM'). by exists s'.
    + destruct (matches_engine y s batch t0 Hs HM Hw) as (s' & Hst & HM'). by exists s'.
Qed.

Lemma spurious_matched f f' s :
  matches f s → spurious cfg f f' → ∃ s', matches f' s' ∧ (sstep cfg alloc_ok s s' ∨ s' = s).
Proof.
  intros HM Hf. destruct Hf as [y Hw Hr|y dq c previous candidate todo batch].
  - destruct (matches_wait y s HM Hw) as (s' & Hst & HM'). rewrite Hr in Hst. eauto.
  - exists s. split; [by apply matches_count | by right].
Qed.

Lemma fine_step_matched f f' s :
  reach s → matches f s → fstep cfg alloc_ok f f' → ∃ s', matches f' s' ∧ (sstep cfg alloc_ok s s' ∨ s' = s).
Proof.
  intros Hs HM Hf. destruct Hf as [f f' Hf|pc y i].
  2: { pose proof HM as (st & c & w & ps & -> & Hrel). eexists. split; [| left; by apply (st_reset _ _ _ i)].
       eexists _, c, w, ps. split; [done |]. by destruct pc. }
  destruct Hf as [f f' Hw|f f' Hsp|pc y y' Ho].
  - destruct (fworker_matched f f' s Hs HM Hw) as (s' & HM' & Hst). exists s'. split; [done |].
    destruct (in_loop _); [by right | left; by apply st_worker].
  - by eapply spurious_matched.
  - destruct (matches_others pc y y' s Hs HM Ho) as (s' & Hst & HM'). eauto.
Qed.

Lemma fine_matched f : freachable cfg alloc_ok good f → ∃ s, reach s ∧ matches f s.
Proof.
  revert f. apply (invariant_reachable _ _ (λ f, ∃ s, reach s ∧ matches f s)).
  - intros ? (now & e & He & ->). exists (new_scheduler now e). split; [apply reachable_init; by exists now, e |].
    exists zero_stats, (qs_init now), NotStarted, ∅. split; [reflexivity |]. by simpl.
  - intros f f' (s & Hs & HM) Hf. destruct (fine_step_matched f f' s Hs HM Hf) as (s' & HM' & [Hst| ->]); [| by exists s].
    exists s'. split; [by eapply reachable_step | done].
Qed.
End Relation.

(** ** Properties *)

(** C10: handing out results promise by promise is as good as at once. Every reachable state
    of the fine system, with any steps of other threads between two promises of a batch, is
    matched by a reachable state of the system of [System] with the same queue, the same
    accepted requests, the same engine, flags and controlling thread (statistics apart: they
    are the subject of [Accounting]), in which every
    promise the fine system has settled is settled the same way (and which is the same
    state between iterations); so a future that is ready at any moment holds the engine's
    row for its own request's input under its own id, or the exception that is due. *)
Theorem fine_refines_system (E : Type) (HE : IExecutionEngine E) (good : E → Prop)
  (max_rows : Z) (row : list float → list float) (errors : exn → Prop) (cfg : SchedulerConfig) (alloc_ok : nat → bool)
  (f : fsys E)
  (HC : EngineContract E good max_rows (input_elems cfg) (output_elems cfg) row errors)
  (Hmax : 0 < max_batch_size cfg ≤ max_rows) (Hoe : 0 ≤ output_elems cfg)
  (Hfit : max_rows * output_elems cfg < two64) (Hal : ∀ i, alloc_ok i = true)
  (Hr : freachable cfg alloc_ok good f) :
  (∃ s, sreachable cfg alloc_ok good s ∧
     qs_queue (sy_core s) = qs_queue (sy_core (fy_sys f)) ∧
     qs_accepted (sy_core s) = qs_accepted (sy_core (fy_sys f)) ∧
     (sy_engine s, sy_joinable s, sy_running s, sy_ctrl s) =
       (sy_engine (fy_sys f), sy_joinable (fy_sys f), sy_running (fy_sys f), sy_ctrl (fy_sys f)) ∧
     store_le (sy_store (fy_sys f)) (sy_store s) ∧
     (fy_pc f = Between → sy_core s = sy_core (fy_sys f) ∧ sy_store s = sy_store (fy_sys f) ∧
        same_mode (sy_worker s) (sy_worker (fy_sys f)))) ∧
  (∀ r g, r ∈ qs_accepted (sy_core (fy_sys f)) → state_of (sy_store (fy_sys f)) (result_promise r) = Some g →
     g ≠ Pending → resolution row errors cfg r g).
Proof.
  destruct (fine_matched good max_rows row errors cfg alloc_ok Hmax Hoe Hfit Hal f Hr) as (s & Hs & st & c & w & ps & -> & Hrel).
  destruct (pc_rel_queue _ _ _ _ _ _ _ Hrel) as [Hq Ha]. pose proof (pc_rel_le _ _ _ _ _ _ _ Hrel) as Hle. split.
  - eexists. split_and!; [exact Hs | done | done | done | done |]. intros Hb. rewrite Hb in Hrel. simpl in *.
    by destruct Hrel as (-> & Hw & ->).
  - intros r g Hin Hg Hne. apply (Hle _ _ Hg) in Hne as Hg'.
    destruct (sys_inv_reachable good max_rows row errors cfg alloc_ok Hmax Hoe Hfit Hal _ Hs) as [Hsplit _ Hd Hp _ _ _].
    rewrite <- Ha in Hin. change (r ∈ qs_accepted (sy_core (with_parts st c w ps (fy_sys f)))) in Hin.
    rewrite <- Hsplit in Hin. apply elem_of_app in Hin as [Hin|Hin].
    + rewrite Forall_forall in Hd. destruct (Hd r Hin) as (g' & Hst & Hres). simpl in Hst. congruence.
    + unfold all_pending in Hp. rewrite Forall_forall in Hp. pose proof (Hp r Hin) as Hpr. unfold pending in Hpr. simpl in Hpr.
      congruence.
Qed.

(** ** Witness: the first of two rows is handed out, the second is not *)

Abbreviation demo_fmove := (fmove (E := StubExecutionEngine) demo_cfg (λ _, true)).

(** The worker at the counters, undisturbed. *)
Definition next_count {E} (f : fsys E) : fsys E :=
  match fy_pc f with
  | Counting dq (i :: todo) batch => count_step false dq i todo batch (fy_sys f)
  | Counting dq [] batch => counted dq batch (fy_sys f)
  | _ => f
  end.

Lemma next_count_steps (n : nat) f : rtc demo_fmove f (Nat.iter n next_count f).
Proof.
  induction n as [|n IH]; simpl; [apply rtc_refl |]. etrans; [exact IH |].
  generalize (Nat.iter n next_count f). intros [y pc]. unfold next_count. simpl.
  destruct pc as [| |dq [|i todo] batch| |]; try apply rtc_refl; apply rtc_once, fm_worker;
    [apply (fw_counted demo_cfg _ y) | apply (fw_count demo_cfg _ y)].
Qed.

Definition fine0 : fsys StubExecutionEngine := fine_at Between demo_taken.
Definition demo_drained_list : list InferenceRequest := [demo_request 1; demo_request 2; demo_bad].
Definition fine1 : fsys StubExecutionEngine := fine_at (Validating demo_drained_list []) demo_taken.
Definition fine2 : fsys StubExecutionEngine := validate_step demo_cfg (demo_request 1) [demo_request 2; demo_bad] [] (fy_sys fine1).
Definition fine3 : fsys StubExecutionEngine :=
  validate_step demo_cfg (demo_request 2) [demo_bad] [demo_request 1] (fy_sys fine2).
Definition fine4 : fsys StubExecutionEngine :=
  validate_step demo_cfg demo_bad [] [demo_request 1; demo_request 2] (fy_sys fine3).
(** Ten accesses to the counters and two readings of the clock. *)
Definition fine5 : fsys StubExecutionEngine :=
  Nat.iter 12 next_count (validated [demo_request 1; demo_request 2] (fy_sys fine4)).
Definition fine6 : fsys StubExecutionEngine :=
  engine_returned demo_cfg [demo_request 1; demo_request 2] 50000000 (fy_sys fine5).
Definition demo_rows : list float := gather [demo_request 1; demo_request 2].
Definition fine7 : fsys StubExecutionEngine :=
  resolve_step demo_cfg (λ _, true) demo_rows 0 (demo_request 1) [demo_request 2] [demo_request 1; demo_request 2]
    (fy_sys fine6).

Definition fine_new : fsys StubExecutionEngine := fine_at Between (new_scheduler 0 stub_engine).

Lemma fine_moves f : rtc demo_fmove fine_new f → freachable (E := StubExecutionEngine) demo_cfg (λ _, true) (λ _, True) f.
Proof.
  intros Hr. exists fine_new. split; [by exists 0, stub_engine |].
  eapply rtc_subrel; [| exact Hr]. intros f1 f2 Hm. by apply fs_move.
Qed.

Lemma fine0_run : rtc demo_fmove fine_new fine0.
Proof.
  eapply rtc_l; [apply fm_others, (ot_submit _ (demo_request 1)); reflexivity |].
  eapply rtc_l; [apply fm_others, (ot_submit _ (demo_request 2)); reflexivity |].
  eapply rtc_l; [apply fm_others, (ot_submit _ demo_bad); reflexivity |].
  apply (rtc_l _ _ (fine_at Between (start demo_sys0))); [by apply fm_others, ot_start |].
  apply (rtc_l _ _ (fine_at Between demo_window)); [apply fm_worker, fw_wait; reflexivity |].
  apply (rtc_l _ _ (fine_at Between (demo_tick 50000000 demo_window))); [by apply fm_others, ot_tick |].
  apply rtc_once. apply fm_worker, fw_wait; vm_compute; reflexivity.
Qed.

Lemma fine4_run : rtc demo_fmove fine_new (validated [demo_request 1; demo_request 2] (fy_sys fine4)).
Proof.
  etrans; [exact fine0_run |].
  apply (rtc_l _ _ fine1); [apply fm_worker, fw_begin; [vm_compute; reflexivity | vm_compute; reflexivity | done] |].
  apply (rtc_l _ _ fine2); [apply fm_worker, fw_validate |].
  apply (rtc_l _ _ fine3); [apply fm_worker, (fw_validate demo_cfg _ (fy_sys fine2)) |].
  apply (rtc_l _ _ fine4); [apply fm_worker, (fw_validate demo_cfg _ (fy_sys fine3)) |].
  apply rtc_once, fm_worker, (fw_validated demo_cfg _ (fy_sys fine4)).
Qed.

Lemma fine7_reachable : freachable (E := StubExecutionEngine) demo_cfg (λ _, true) (λ _, True) fine7.
Proof.
  apply fine_moves. etrans; [exact fine4_run |]. trans fine5; [exact (next_count_steps 12 _) |].
  assert (H5 : fine5 = fine_at Between (fy_sys fine5)) by (vm_compute; reflexivity). rewrite H5. clear H5.
  apply (rtc_l _ _ fine6).
  { apply fm_worker, (fw_engine demo_cfg _ (fy_sys fine5) [demo_request 1; demo_request 2] 50000000). vm_compute. reflexivity. }
  apply rtc_once. apply fm_worker, (fw_resolve demo_cfg _ (fy_sys fine6)).
Qed.

Lemma fine_refines_system_witness :
  pending (sy_store (fy_sys fine7)) (result_promise (demo_request 2)) ∧
  resolution (fit_row 1) (λ _, False) demo_cfg (demo_request 1)
    (Value {| res_request_id := 1; logits := [f32_lit 1 1] |}).
Proof.
  split; [vm_compute; reflexivity |].
  apply (proj2 (fine_refines_system StubExecutionEngine _ (λ _, True) 4 (fit_row 1) (λ _, False) demo_cfg (λ _, true) fine7
    demo_contract ltac:(done) ltac:(done) ltac:(done) ltac:(done) fine7_reachable)); [vm_compute; by left | vm_compute; reflexivity | done].
Defined.
