(* ===== verification/Accounting.v ===== *)
(** * What the counters count

    The counters of the scheduler in the system of [Delivery], where the worker updates
    them one access at a time while any thread may reset them and read them
    (src/cpp/src/scheduler/scheduler.cpp, [run_loop] and [reset_stats]): every update takes
    effect exactly once and at one instant, and the updates are those that are due for the
    batches the worker drained and for the moments at which it dequeued them, called the
    engine and got its answer. And how long an iteration of the worker can take. *)

From Stdlib Require Import ZArith Lia.
From stdpp Require Import base numbers strings relations gmap list.
From S2P Require Import Prelude Machine Request RequestQueue Engine Scheduler Counters System Delivery.

(** ** The ledger *)

(** What happens in a run, counters apart: the worker has been through the size check of
    the requests it drained; it reads the clock for the queue waits; it reads the clock and
    calls the engine; the engine has returned; a thread resets a cell. *)
Inductive event :=
  | Checked (drained : list InferenceRequest)
  | Dequeued (now : Z)
  | Called (now : Z)
  | Answered (now : Z)
  | Cleared (c : counter).

Definition cleared (ev : event) : option counter := match ev with Cleared c => Some c | _ => None end.

(** A drained batch and the clock readings made for it so far. *)
Record batch_entry := {
  en_drained : list InferenceRequest;
  en_dequeued_at : option Z;
  en_called_at : option Z;
  en_answered_at : option Z
}.

Definition open_entry (drained : list InferenceRequest) (dequeued_at called_at : option Z) : batch_entry :=
  {| en_drained := drained; en_dequeued_at := dequeued_at; en_called_at := called_at; en_answered_at := None |}.

(** The ledger of a run: an entry per drained batch, in order, with its clock readings. *)
Definition amend (f : batch_entry → batch_entry) (log : list batch_entry) : list batch_entry :=
  alter f (pred (length log)) log.

Definition enter (log : list batch_entry) (ev : event) : list batch_entry :=
  match ev with
  | Checked drained => log ++ [open_entry drained None None]
  | Dequeued now => amend (λ e, open_entry (en_drained e) (Some now) (en_called_at e)) log
  | Called now => amend (λ e, open_entry (en_drained e) (en_dequeued_at e) (Some now)) log
  | Answered now =>
      amend (λ e, {| en_drained := en_drained e; en_dequeued_at := en_dequeued_at e;
                     en_called_at := en_called_at e; en_answered_at := Some now |}) log
  | Cleared _ => log
  end.

Definition ledger (tr : list event) : list batch_entry := foldl enter [] tr.

Lemma amend_last f log e : amend f (log ++ [e]) = log ++ [f e].
Proof.
  unfold amend. rewrite length_app, Nat.add_1_r. simpl. rewrite alter_app_r_alt, Nat.sub_diag by lia. done.
Qed.

Lemma ledger_app tr ev : ledger (tr ++ ev) = foldl enter (ledger tr) ev.
Proof. apply foldl_app. Qed.

(** The instructions the worker has begun and not finished. *)
Definition todo (pc : fine_pc) : list instr := match pc with Counting _ l _ => l | _ => [] end.

Definition by_worker (u : update) : bool := match u with Zero _ => false | _ => true end.
Definition reset_of (u : update) : option counter := match u with Zero c => Some c | _ => None end.

Section Accounting.
Context {E : Type} `{HE : IExecutionEngine E} (cfg : SchedulerConfig) (alloc_ok : nat → bool).

Definition en_batch (e : batch_entry) : list InferenceRequest := filter (well_sized cfg) (en_drained e).

(** The updates that are due for a batch: its size, once it has been checked; the wait of
    each of its requests, once they have been dequeued; and the time in the engine, once it
    has answered. Nothing is counted for a batch without a well-sized request. *)
Definition size_updates (n : Z) : list update :=
  [Add TotalBatches 1; Add TotalRequests n; Raise MaxBatchSizeSeen n].
Definition wait_updates (dequeued_at : Z) (batch : list InferenceRequest) : list update :=
  batch ≫= λ req, [Add TotalQueueWaitUs (waited_us dequeued_at req); Raise MaxQueueWaitUs (waited_us dequeued_at req)].
Definition exec_updates (called_at answered_at : Z) : list update :=
  [Add TotalExecUs (elapsed_us_since called_at answered_at)].

Definition entry_updates (e : batch_entry) : list update :=
  match en_batch e with
  | [] => []
  | batch =>
      size_updates (vec_size batch) ++
      from_option (λ t, wait_updates t batch) [] (en_dequeued_at e) ++
      match en_called_at e, en_answered_at e with Some t, Some t' => exec_updates t t' | _, _ => [] end
  end.

(** All updates of the batch are due. *)
Definition settled (e : batch_entry) : Prop :=
  en_batch e = [] ∨ is_Some (en_dequeued_at e) ∧ is_Some (en_called_at e) ∧ is_Some (en_answered_at e).

(** ** Runs *)

(** What a step of the worker shows, judging by the place it leaves and the clock. *)
Definition observe (f : fsys E) : list event :=
  let y := fy_sys f in
  match fy_pc f with
  | Validating [] _ => [Checked (in_hand (qs_consumer (sy_core y)))]
  | Counting None [] _ => [Dequeued (qs_now (sy_core y))]
  | Counting (Some _) [] _ => [Called (qs_now (sy_core y))]
  | Between => match sy_worker y with Executing _ _ => [Answered (qs_now (sy_core y))] | _ => [] end
  | _ => []
  end.

Inductive fevent : fsys E → list event → fsys E → Prop :=
  | fe_worker f f' : fworker cfg alloc_ok f f' → fevent f (observe f) f'
  | fe_spurious f f' : spurious cfg f f' → fevent f [] f'
  | fe_others pc y y' : others y y' → fevent (fine_at pc y) [] (fine_at pc y')
  | fe_reset pc y i :
      fevent (fine_at pc y) (Cleared <$> option_list (reset_cells !! i))
        (fine_at pc (with_stats (reset_store i (sy_stats y)) y)).

Lemma fevent_fstep f ev f' : fevent f ev f' → fstep cfg alloc_ok f f'.
Proof.
  destruct 1 as [f f' Hw|f f' Hs|pc y y' Ho|pc y i]; [| | | apply fs_reset]; apply fs_move;
    [by apply fm_worker | by apply fm_spurious | by apply fm_others].
Qed.

Inductive frun (f0 : fsys E) : list event → fsys E → Prop :=
  | fr_start : frun f0 [] f0
  | fr_step tr f ev f' : frun f0 tr f → fevent f ev f' → frun f0 (tr ++ ev) f'.

Lemma frun_rtc f0 tr f : frun f0 tr f → rtc (fstep cfg alloc_ok) f0 f.
Proof. induction 1; [apply rtc_refl |]. eapply rtc_r; [done | by eapply fevent_fstep]. Qed.

(** A run together with the updates its steps make, each at one step: a step changes the
    counters by its updates, which contain the resets it makes; and at every moment the
    updates the worker has made and those it still has to make of the instructions under
    way are exactly the ones due for the batches in the ledger, in order. *)
Inductive linearized (f0 : fsys E) : list event → list update → fsys E → Prop :=
  | ln_start : linearized f0 [] [] f0
  | ln_step tr h f ev made f' :
      linearized f0 tr h f → fevent f ev f' →
      sy_stats (fy_sys f') = replay made (sy_stats (fy_sys f)) → omap reset_of made = omap cleared ev →
      filter by_worker (h ++ made) ++ (todo (fy_pc f') ≫= due) = ledger (tr ++ ev) ≫= entry_updates →
      linearized f0 (tr ++ ev) (h ++ made) f'.

Lemma linearized_stats f0 tr h f :
  linearized f0 tr h f → sy_stats (fy_sys f) = replay h (sy_stats (fy_sys f0)) ∧ omap reset_of h = omap cleared tr.
Proof.
  induction 1 as [|tr h f ev made f' _ [IH1 IH2] _ Hs Hr _]; [done |].
  by rewrite replay_app, <- IH1, Hs, !omap_app, IH2, Hr.
Qed.

(** The drained requests once they have been through the size check. *)
Definition taken (f : fsys E) : list InferenceRequest :=
  let held := in_hand (qs_consumer (sy_core (fy_sys f))) in
  match fy_pc f with
  | Between => match sy_worker (fy_sys f) with Executing _ _ => held | _ => [] end
  | Validating _ _ => []
  | _ => held
  end.

Definition checked_requests (f : fsys E) : list InferenceRequest := qs_delivered (sy_core (fy_sys f)) ++ taken f.

(** Where the ledger is, given where the worker is: every batch but the one in hand has
    all its clock readings. *)
Definition position (f : fsys E) (log : list batch_entry) : Prop :=
  let in_hand_at dequeued_at called_at :=
    ∃ log0 d, log = log0 ++ [open_entry d dequeued_at called_at] ∧ Forall settled log0 ∧
      qs_consumer (sy_core (fy_sys f)) = Drained d in
  match fy_pc f with
  | Between =>
      match sy_worker (fy_sys f) with
      | Executing _ t => ∃ t0, in_hand_at (Some t0) (Some t)
      | _ => Forall settled log
      end
  | Counting dequeued_at _ _ => in_hand_at dequeued_at None
  | _ => Forall settled log
  end.

(** The worker's locals against the drained requests. *)
Definition locals_ok (f : fsys E) : Prop :=
  let c := qs_consumer (sy_core (fy_sys f)) in
  match fy_pc f with
  | Between => ∀ batch t, sy_worker (fy_sys f) = Executing batch t →
      ∃ d, c = Drained d ∧ batch = filter (well_sized cfg) d ∧ batch ≠ []
  | Validating rest batch =>
      sy_worker (fy_sys f) = Looping ∧ ∃ pre, c = Drained (pre ++ rest) ∧ batch = filter (well_sized cfg) pre
  | Counting _ _ batch =>
      sy_worker (fy_sys f) = Looping ∧ ∃ d, c = Drained d ∧ batch = filter (well_sized cfg) d ∧ batch ≠ []
  | Resolving _ _ _ _ | Failing _ _ => (∃ b t, sy_worker (fy_sys f) = Executing b t) ∧ ∃ d, c = Drained d
  end.

Record accounts (f : fsys E) (log : list batch_entry) (h : list update) : Prop := {
  ac_locals : locals_ok f;
  ac_updates : filter by_worker h ++ (todo (fy_pc f) ≫= due) = log ≫= entry_updates;
  ac_drained : log ≫= en_drained = checked_requests f;
  ac_position : position f log
}.

(** A step keeps the books, with the updates it makes. *)
Definition advances (f : fsys E) (ev : list event) (f' : fsys E) : Prop :=
  ∀ log h, accounts f log h → ∃ made,
    sy_stats (fy_sys f') = replay made (sy_stats (fy_sys f)) ∧ omap reset_of made = omap cleared ev ∧
    accounts f' (foldl enter log ev) (h ++ made).

(** *** Steps that leave the counters and the ledger alone *)

Lemma advances_keep f f' :
  sy_stats (fy_sys f') = sy_stats (fy_sys f) → todo (fy_pc f') = todo (fy_pc f) →
  (locals_ok f → checked_requests f' = checked_requests f ∧ locals_ok f' ∧ ∀ log, position f log → position f' log) →
  advances f [] f'.
Proof.
  intros Hs Ht Hrest log h [Hl Hu Hd Hp]. destruct (Hrest Hl) as (Hc & Hl' & Hp'). exists []. split; [done |]. split; [done |].
  rewrite app_nil_r. split; [done | by rewrite Ht | by rewrite Hc | by apply Hp'].
Qed.

(** Steps of other threads that leave the worker, its batch and the counters alone. *)
Record leaves (y y' : sys E) : Prop := {
  lv_stats : sy_stats y' = sy_stats y;
  lv_worker : sy_worker y' = sy_worker y;
  lv_delivered : qs_delivered (sy_core y') = qs_delivered (sy_core y);
  lv_held : in_hand (qs_consumer (sy_core y')) = in_hand (qs_consumer (sy_core y));
  lv_drained : ∀ d, qs_consumer (sy_core y) = Drained d → qs_consumer (sy_core y') = Drained d
}.

Lemma leaves_advances pc y y' : leaves y y' → advances (fine_at pc y) [] (fine_at pc y').
Proof.
  intros [Hs Hw Hd Hh Hc]. apply advances_keep; [done | done |]. unfold checked_requests, taken, locals_ok, position. simpl.
  rewrite Hw, Hd, Hh. intros Hl. split; [done |].
  assert (Hex : ∀ log dq ct, (∃ log0 d, log = log0 ++ [open_entry d dq ct] ∧ Forall settled log0 ∧ qs_consumer (sy_core y) = Drained d) →
    ∃ log0 d, log = log0 ++ [open_entry d dq ct] ∧ Forall settled log0 ∧ qs_consumer (sy_core y') = Drained d).
  { intros log dq ct (log0 & d & Hlog & Hset & Hx). exists log0, d. auto. }
  split.
  - destruct pc as [|rest batch|dq l batch|out i rest batch|x rest].
    + intros batch t Hb. destruct (Hl batch t Hb) as (d & Hx & Hf). eauto.
    + destruct Hl as (H & pre & Hx & Hf). eauto.
    + destruct Hl as (H & d & Hx & Hf). eauto.
    + destruct Hl as (H & d & Hx). eauto.
    + destruct Hl as (H & d & Hx). eauto.
  - intros log. destruct pc; [| done | apply Hex | done | done]. destruct (sy_worker y); [done | done | | done | done].
    intros [t0 Hp]. exists t0. by apply Hex.
Qed.

Lemma others_leaves y y' :
  (sy_joinable y = true → sy_ctrl y = CtrlIdle → sy_running y = true) →
  others y y' → leaves y y' ∨ (sy_joinable y = false ∧ y' = start y).
Proof.
  intros Hj Ho. destruct Ho as [y d Hd|y r Hr|y y' Hy|y Hc|y Hc|y Hc|y Hc Hj']; try (left; by split).
  - left. rewrite submit_step_eq. unfold push_core. destruct (push _ r) as [q a]. by split.
  - left. destruct Hy as [y n Hn]. split; simpl; try done; destruct (qs_consumer (sy_core y)); simpl; try done;
      intros d; by intros [= ->].
  - destruct (sy_joinable y) eqn:Hb; [| by right]. left. unfold start. rewrite (Hj eq_refl Hc). by split.
Qed.

Lemma handover_drained c d : qs_consumer c = Drained d → qs_delivered (handover c) = qs_delivered c ++ d.
Proof. intros Hc. unfold handover. by rewrite Hc. Qed.

(** The consumer runs between iterations. *)
Lemma consumer_advances y :
  sy_worker y = Looping →
  advances (fine_at Between y) []
    (fine_at Between (with_core (run_consumer (max_batch_size cfg) (max_wait cfg) (sy_core y)) y)).
Proof.
  intros Hw. apply advances_keep; [done | done |]. unfold checked_requests, taken, locals_ok, position. simpl. rewrite Hw.
  intros _. split_and!; [| done | done]. unfold run_consumer. by destruct (wait_step _ _ _ _ _).
Qed.

(** The end of an iteration: the batch is delivered. *)
Lemma iteration_advances pc y :
  match pc with Resolving _ _ _ _ | Failing _ _ => True | _ => False end →
  advances (fine_at pc y) [] (iteration_done y).
Proof.
  intros Hpc. apply advances_keep; [done | by destruct pc |]. intros Hl.
  assert (Hd : ∃ d, qs_consumer (sy_core y) = Drained d) by (destruct pc; try done; by destruct Hl as [_ ?]).
  destruct Hd as [d Hd]. unfold checked_requests, taken, position. simpl. split_and!.
  - rewrite (handover_drained _ d) by done. destruct pc; try done; rewrite Hd; simpl; by rewrite app_nil_r.
  - done.
  - by destruct pc.
Qed.

(** *** Steps of the worker *)

Lemma count_due n : count_instrs n ≫= due = size_updates n.
Proof. done. Qed.

Lemma wait_due t batch : wait_instrs t batch ≫= due = wait_updates t batch.
Proof. induction batch as [|r batch IH]; [done |]. simpl. by rewrite <- IH. Qed.

(** What the entry of the batch in hand adds. *)
Lemma entry_updates_open d dq ct :
  filter (well_sized cfg) d ≠ [] →
  entry_updates (open_entry d dq ct) =
    size_updates (vec_size (filter (well_sized cfg) d)) ++ from_option (λ t, wait_updates t (filter (well_sized cfg) d)) [] dq.
Proof.
  intros Hne. unfold entry_updates, en_batch. simpl. destruct (filter (well_sized cfg) d); [done |].
  destruct ct; by rewrite app_nil_r.
Qed.

(** An access to a counter. *)
Lemma count_advances sp dq i l batch y :
  advances (fine_at (Counting dq (i :: l) batch) y) [] (count_step sp dq i l batch y).
Proof.
  intros log h [Hl Hu Hd Hp]. unfold count_step. destruct (run_instr sp i (sy_stats y)) as [s' l'] eqn:Hi.
  apply run_instr_linear in Hi as (h' & -> & Hdue).
  assert (Hw : filter by_worker h' = h' ∧ omap reset_of h' = []).
  { assert (Hdu : Forall (λ u, by_worker u = true ∧ reset_of u = None) (due i))
      by (destruct i; simpl; repeat case_match; by repeat constructor).
    rewrite Hdue in Hdu. apply Forall_app in Hdu as [Hdu _]. clear Hdue.
    induction Hdu as [|u h' [H1 H2] _ [IH1 IH2]]; [done |]. split; [by rewrite filter_cons, H1, IH1 |].
    csimpl. by rewrite H2. }
  destruct Hw as [Hw1 Hw2]. exists h'. split; [done |]. split; [done |]. simpl in *. split; [exact Hl | | exact Hd | exact Hp].
  simpl. rewrite filter_app, Hw1, <- Hu, Hdue, bind_app, <- !(assoc_L (++)). done.
Qed.

Lemma validate_advances r rest batch y :
  sy_worker (fy_sys (validate_step cfg r rest batch y)) ≠ Crashed →
  advances (fine_at (Validating (r :: rest) batch) y) [] (validate_step cfg r rest batch y).
Proof.
  assert (Hgo : ∀ b' (y' : sys E), sy_stats y' = sy_stats y → sy_core y' = sy_core y → sy_worker y' = sy_worker y →
    b' = (if decide (well_sized cfg r) then batch ++ [r] else batch) →
    advances (fine_at (Validating (r :: rest) batch) y) [] (fine_at (Validating rest b') y')).
  { intros b' y' Hs Hc Hw ->. apply advances_keep; [done | done |]. unfold checked_requests, taken, locals_ok, position. simpl.
    rewrite Hc, Hw. intros (Hl & pre & Hdr & Hb). split; [done |]. split; [| done]. split; [done |]. exists (pre ++ [r]).
    rewrite <- (assoc_L (++)). split; [done |]. rewrite filter_app, filter_cons, filter_nil, <- Hb.
    case_decide; [done | by rewrite app_nil_r]. }
  unfold validate_step, validate_one. unfold well_sized in Hgo.
  destruct (Z.eqb_spec (vec_size (input_data r)) (input_elems cfg)) as [He|He]; simpl.
  - intros _. apply Hgo; try done. by rewrite decide_True.
  - destruct (set_exception _ _ _) as [ps|x|]; simpl; [| done | done]. intros _. apply Hgo; try done. by rewrite decide_False.
Qed.

(** The size check is over: a batch with a well-sized request is to be counted. *)
Lemma validated_advances batch y :
  advances (fine_at (Validating [] batch) y) (observe (fine_at (Validating [] batch) y)) (validated batch y).
Proof.
  intros log h [(Hw & pre & Hc & Hb) Hu Hd Hp]. simpl in *. rewrite app_nil_r in *. rewrite Hc. simpl.
  exists []. rewrite app_nil_r. unfold checked_requests, taken in Hd. simpl in Hd. rewrite app_nil_r in Hd.
  destruct batch as [|r batch]; simpl; (split; [done |]; split; [done |]; split; simpl).
  - intros b t Hx. simpl in Hx. congruence.
  - rewrite bind_app, app_nil_r, Hu. simpl. unfold entry_updates, en_batch. simpl. by rewrite <- Hb, app_nil_r.
  - rewrite bind_app, Hd. unfold checked_requests, taken. simpl. by rewrite Hw, (handover_drained _ pre), !app_nil_r.
  - unfold position. simpl. rewrite Hw. apply Forall_app. split; [done |]. apply Forall_singleton. left. done.
  - split; [done |]. by exists pre.
  - rewrite bind_app, <- Hu. cbn [mbind list_bind]. rewrite app_nil_r, entry_updates_open, <- Hb by by rewrite <- Hb.
    simpl. by rewrite ?app_nil_r.
  - rewrite bind_app, Hd. unfold checked_requests, taken. simpl. by rewrite Hc, app_nil_r.
  - unfold position. simpl. by exists log, pre.
Qed.

(** The clock is read. *)
Lemma counted_advances dq batch y :
  advances (fine_at (Counting dq [] batch) y) (observe (fine_at (Counting dq [] batch) y)) (counted dq batch y).
Proof.
  intros log h [(Hw & d & Hc & Hb & Hne) Hu Hd (log0 & d' & Hlog & Hset & Hc')]. simpl in *.
  rewrite Hc in Hc'. injection Hc' as <-. set (now := qs_now (sy_core y)). exists []. rewrite app_nil_r in *.
  rewrite Hlog, bind_app in Hu. cbn [mbind list_bind] in Hu. rewrite app_nil_r, entry_updates_open in Hu by by rewrite <- Hb.
  rewrite Hlog, bind_app in Hd. simpl in Hd.
  destruct dq as [t|]; simpl; (split; [done |]; split; [done |]); rewrite Hlog, amend_last; (split; simpl).
  - intros b t' [= <- _]. by exists d.
  - rewrite bind_app, app_nil_r, Hu. cbn [mbind list_bind]. by rewrite app_nil_r, entry_updates_open by by rewrite <- Hb.
  - rewrite bind_app. exact Hd.
  - unfold position. simpl. exists t, log0, d. done.
  - split; [done |]. by exists d.
  - rewrite bind_app, Hu. cbn [mbind list_bind]. rewrite app_nil_r, entry_updates_open, wait_due, <- Hb by by rewrite <- Hb.
    simpl. by rewrite app_nil_r, <- (assoc_L (++)).
  - rewrite bind_app. exact Hd.
  - unfold position. simpl. exists log0, d. done.
Qed.

Lemma engine_advances batch t0 y :
  sy_worker y = Executing batch t0 → sy_worker (fy_sys (engine_returned cfg batch t0 y)) ≠ Crashed →
  advances (fine_at Between y) (observe (fine_at Between y)) (engine_returned cfg batch t0 y).
Proof.
  intros Hw Hnc log h [Hl Hu Hd Hp]. unfold observe, position, checked_requests, taken in *. simpl in *. rewrite Hw in *.
  destruct (Hl batch t0 Hw) as (d & Hc & Hb & Hne). simpl in Hc. destruct Hp as (t1 & log0 & d' & Hlog & Hset & Hc').
  rewrite Hc in Hc'. injection Hc' as <-. set (now := qs_now (sy_core y)).
  rewrite Hlog, bind_app in Hu. cbn [mbind list_bind] in Hu. rewrite !app_nil_r, entry_updates_open in Hu by by rewrite <- Hb.
  rewrite Hlog, bind_app in Hd. simpl in Hd. simpl. rewrite Hlog, amend_last. simpl.
  assert (Hgo : ∀ pc e, match pc with Resolving _ _ _ _ | Failing _ _ => True | _ => False end →
    let f' := fine_at pc (with_engine e (with_stats (record_exec (elapsed_us_since t0 now) (sy_stats y)) y)) in
    ∃ made, sy_stats (fy_sys f') = replay made (sy_stats y) ∧ omap reset_of made = [] ∧
      accounts f' (log0 ++ [{| en_drained := d; en_dequeued_at := Some t1; en_called_at := Some t0; en_answered_at := Some now |}]) (h ++ made)).
  { intros pc e Hpc. exists (exec_updates t0 now). split; [symmetry; apply replay_exec |]. split; [done |].
    assert (Ht : todo pc = []) by by destruct pc. split; simpl.
    - destruct pc; try done; (split; [by eauto | by exists d]).
    - rewrite Ht, filter_app, app_nil_r, Hu, bind_app. cbn [mbind list_bind]. rewrite app_nil_r. unfold entry_updates, en_batch. simpl.
      destruct (filter (well_sized cfg) d); [congruence |]. by rewrite <- !(assoc_L (++)).
    - rewrite bind_app. unfold checked_requests, taken. simpl. by destruct pc.
    - unfold position. simpl. destruct pc; try done; apply Forall_app; (split; [done |]); apply Forall_singleton; right; by split_and!; eexists. }
  revert Hnc. unfold engine_returned. destruct (run_inference _ _ _ _ _) as [e [out|x|]]; simpl; [| | done].
  - intros _. destruct (negb _); by apply Hgo.
  - intros _. by apply Hgo.
Qed.

Lemma fworker_advances f f' :
  fworker cfg alloc_ok f f' → sy_worker (fy_sys f') ≠ Crashed → advances f (observe f) f'.
Proof.
  intros Hf Hnc.
  destruct Hf as [y Hw Hr|y Hw Hd|y d Hw Hd Hne|y r rest batch|y batch|y dq i l batch|y dq batch|y batch t0 Hw
    |y out i r rest batch|y out i batch|y x r rest|y x].
  - unfold observe. simpl. rewrite Hw. by apply consumer_advances.
  - unfold observe. simpl. rewrite Hw. unfold begin_iteration. destruct (sy_running y); apply advances_keep; try done;
      unfold checked_requests, taken, locals_ok, position; simpl; rewrite Hw; [| done].
    intros _. split_and!; [by rewrite (handover_drained _ []), app_nil_r | done | done].
  - unfold observe. simpl. rewrite Hw. apply advances_keep; try done.
    unfold checked_requests, taken, locals_ok, position. simpl. rewrite Hw. intros _. split_and!; [done | done | | done]. by exists [].
  - by apply validate_advances.
  - by apply validated_advances.
  - destruct dq; by apply count_advances.
  - by apply counted_advances.
  - by apply engine_advances.
  - revert Hnc. unfold resolve_step. destruct (x ← read_range _ _ _; _) as [ps|x|]; simpl; [| | done]; intros _; by apply advances_keep.
  - by apply iteration_advances.
  - revert Hnc. unfold fail_step. destruct (set_exception _ _ _) as [ps|x'|]; simpl; [| done | done]. intros _. by apply advances_keep.
  - by apply iteration_advances.
Qed.

Lemma reset_advances pc (y : sys E) i :
  advances (fine_at pc y) (Cleared <$> option_list (reset_cells !! i))
    (fine_at pc (with_stats (reset_store i (sy_stats y)) y)).
Proof.
  intros log h [Hl Hu Hd Hp]. exists (Zero <$> option_list (reset_cells !! i)).
  split; [simpl; by rewrite replay_reset |]. split; [by destruct (reset_cells !! i) |].
  assert (Hlog : foldl enter log (Cleared <$> option_list (reset_cells !! i)) = log) by by destruct (reset_cells !! i).
  rewrite Hlog. split; [exact Hl | | exact Hd | exact Hp]. simpl in *.
  rewrite filter_app. destruct (reset_cells !! i); simpl; by rewrite ?filter_cons, ?filter_nil, app_nil_r.
Qed.
End Accounting.

(** ** In the running scheduler *)

Section Running.
Context {E : Type} `{HE : IExecutionEngine E} (good : E → Prop) (max_rows : Z)
  (row : list float → list float) (errors : exn → Prop) (cfg : SchedulerConfig) (alloc_ok : nat → bool).
Context `{HC : !EngineContract E good max_rows (input_elems cfg) (output_elems cfg) row errors}.
Hypothesis Hmax : 0 < max_batch_size cfg ≤ max_rows.
Hypothesis Hoe : 0 ≤ output_elems cfg.
Hypothesis Hfit : max_rows * output_elems cfg < two64.
Hypothesis Hal : ∀ i, alloc_ok i = true.

Abbreviation freach := (freachable cfg alloc_ok good).

(** What the matching state of [System] says of the worker's thread. *)
Lemma fine_thread f : freach f →
  sy_worker (fy_sys f) ≠ Crashed ∧
  (sy_joinable (fy_sys f) = true → sy_ctrl (fy_sys f) = CtrlIdle → sy_running (fy_sys f) = true) ∧
  (sy_joinable (fy_sys f) = false → fy_pc f = Between ∧
     (sy_worker (fy_sys f) = NotStarted ∧ qs_consumer (sy_core (fy_sys f)) = Entering ∨
      sy_worker (fy_sys f) = Exited ∧ qs_consumer (sy_core (fy_sys f)) = Drained [])).
Proof.
  intros Hf. destruct (fine_matched good max_rows row errors cfg alloc_ok Hmax Hoe Hfit Hal f Hf)
    as (s & Hs & st & c & w & ps & -> & Hrel).
  destruct (sys_inv_reachable good max_rows row errors cfg alloc_ok Hmax Hoe Hfit Hal _ Hs) as [_ _ _ _ Hw Hc _].
  unfold worker_inv in Hw. simpl in Hw. destruct Hc as (Hj & Hnj & _). simpl in Hj, Hnj.
  destruct f as [y pc]. simpl in *. split_and!.
  - intros Hcr. destruct pc; simpl in Hrel; try (by destruct Hrel as [Hx _]; congruence).
    + destruct Hrel as (-> & Hm & ->). rewrite Hcr in Hm. by destruct w.
    + destruct Hrel as ((b & t & Hx) & _). congruence.
    + destruct Hrel as ((b & t & Hx) & _). congruence.
  - intros Hb Hi. by apply (Hj Hb).
  - intros Hb. destruct pc; simpl in Hrel.
    + destruct Hrel as (-> & Hm & ->). split; [done |].
      destruct (Hnj Hb) as [->| ->]; destruct (sy_worker y); try done; auto.
    + destruct Hrel as (_ & b' & _ & Hb'). destruct (Hnj Hb) as [->| ->];
        destruct b'; [destruct Hb' as [_ Hx] | destruct Hb' as (_ & t & Hx) | destruct Hb' as [_ Hx] | destruct Hb' as (_ & t & Hx)];
        discriminate Hx.
    + destruct Hrel as (_ & _ & _ & t & Hx). destruct (Hnj Hb); congruence.
    + destruct Hrel as (_ & _ & Hx & _). destruct (Hnj Hb); congruence.
    + destruct Hrel as (_ & _ & Hx & _). destruct (Hnj Hb); congruence.
Qed.

(** Starting a worker. *)
Lemma start_advances pc y :
  freach (fine_at pc y) → sy_joinable y = false → advances cfg (fine_at pc y) [] (fine_at pc (start y)).
Proof.
  intros Hf Hj. destruct (fine_thread _ Hf) as (_ & _ & Hnj). destruct (Hnj Hj) as [Hpc Hw]. simpl in Hpc, Hw. subst pc.
  unfold start. rewrite Hj. destruct (sy_running y); [by apply advances_keep |].
  apply advances_keep; [done | done |]. unfold checked_requests, taken, locals_ok, position. simpl.
  intros _. destruct Hw as [[-> Hc]|[-> Hc]]; (split_and!; [| done | done]).
  - unfold handover. by rewrite Hc.
  - by rewrite (handover_drained _ []), app_nil_r.
Qed.

Lemma fevent_advances f ev f' : freach f → fevent cfg alloc_ok f ev f' → advances cfg f ev f'.
Proof.
  intros Hf He. assert (Hf' : freach f') by (eapply reachable_step; [exact Hf | by eapply fevent_fstep]).
  destruct He as [f f' Hw|f f' Hsp|pc y y' Ho|pc y i].
  - eapply fworker_advances; [exact Hw | by apply fine_thread].
  - destruct Hsp as [y Hw Hr|y dq c p v l batch]; [by apply consumer_advances | by apply count_advances].
  - destruct (fine_thread _ Hf) as (_ & Hj & _).
    destruct (others_leaves y y' Hj Ho) as [Hl|[Hnj ->]]; [by apply leaves_advances | by apply start_advances].
  - apply reset_advances.
Qed.

Lemma run_accounted now e tr f :
  good e → frun cfg alloc_ok (fine_at Between (new_scheduler now e)) tr f →
  ∃ h, linearized cfg alloc_ok (fine_at Between (new_scheduler now e)) tr h f ∧ accounts cfg f (ledger tr) h.
Proof.
  intros He. induction 1 as [|tr f ev f' Hrun (h & Hlin & Hacc) Hev].
  - exists []. split; [constructor |]. split; [done | done | done | by apply Forall_nil].
  - assert (Hf : freach f) by (eexists; split; [by exists now, e | by eapply frun_rtc]).
    destruct (fevent_advances f ev f' Hf Hev (ledger tr) h Hacc) as (made & Hs & Hr & Hacc').
    rewrite <- ledger_app in Hacc'. exists (h ++ made). split; [| done].
    eapply ln_step; [done | done | done | done | apply Hacc'].
Qed.

(** ** How long an iteration takes *)

Definition not_exchange (i : instr) : Prop := match i with Exchange _ _ _ => False | _ => True end.

(** Only the first instruction may be in the middle of its loop. *)
Definition todo_ok (s : SchedulerStats) (l : list instr) : Prop :=
  match l with [] => True | i :: l => undisturbed s i ∧ Forall not_exchange l end.

Lemma fresh_todo_ok s l : Forall not_exchange l → todo_ok s l.
Proof. intros Hl. destruct Hl as [|i l Hi Hl]; simpl; [done | split; [by destruct i | done]]. Qed.

Lemma instrs_fresh n t batch : Forall not_exchange (count_instrs n) ∧ Forall not_exchange (wait_instrs t batch).
Proof.
  split; [by repeat constructor |]. unfold wait_instrs. induction batch as [|r batch IH]; simpl; [done |].
  by repeat constructor.
Qed.

Lemma run_instr_todo sp i s s' l rest :
  Forall not_exchange rest → run_instr sp i s = (s', l) → todo_ok s' (l ++ rest).
Proof.
  intros Hr Hi. pose proof (run_instr_undisturbed sp i s s' l Hi) as Hu.
  assert (Hl : l = [] ∨ ∃ j, l = [j]).
  { destruct i; simpl in Hi; repeat case_match; simplify_eq; eauto. }
  destruct Hl as [->|[j ->]]; simpl; [by apply fresh_todo_ok |]. split; [by inversion Hu | done].
Qed.

(** What a step does to the counters and to the instructions under way. *)
Inductive cells_step (f : fsys E) : SchedulerStats → list instr → Prop :=
  | cs_same : cells_step f (sy_stats (fy_sys f)) (todo (fy_pc f))
  | cs_count batch : batch ≠ [] → fy_pc f = Validating [] batch →
      cells_step f (sy_stats (fy_sys f)) (count_instrs (vec_size batch))
  | cs_wait t batch : cells_step f (sy_stats (fy_sys f)) (wait_instrs t batch)
  | cs_instr sp i l s l' : todo (fy_pc f) = i :: l → run_instr sp i (sy_stats (fy_sys f)) = (s, l') →
      cells_step f s (l' ++ l)
  | cs_exec t t' : cells_step f (record_exec (elapsed_us_since t t') (sy_stats (fy_sys f))) []
  | cs_reset i : cells_step f (reset_store i (sy_stats (fy_sys f))) (todo (fy_pc f)).

Lemma others_stats (y y' : sys E) : others y y' → sy_stats y' = sy_stats y.
Proof.
  destruct 1 as [y d Hd|y r Hr|y y' Hy|y Hc|y Hc|y Hc|y Hc Hj']; try done.
  - unfold submit_step. by destruct (submit _ _ _) as [[? ?] ?].
  - by destruct Hy.
  - unfold start. by destruct (sy_running y), (sy_joinable y).
Qed.

Lemma fworker_cells f f' : fworker cfg alloc_ok f f' → cells_step f (sy_stats (fy_sys f')) (todo (fy_pc f')).
Proof.
  destruct 1 as [y Hw Hr|y Hw Hd|y d Hw Hd Hne|y r rest batch|y batch|y dq i l batch|y dq batch|y batch t0 Hw
    |y out i r rest batch|y out i batch|y x r rest|y x].
  - apply (cs_same (fine_at Between y)).
  - unfold begin_iteration. destruct (sy_running y); apply (cs_same (fine_at Between y)).
  - apply (cs_same (fine_at Between y)).
  - unfold validate_step. destruct (validate_one _ _ _) as [[? ?]|?|]; apply (cs_same (fine_at (Validating (r :: rest) batch) y)).
  - unfold validated. destruct batch as [|r batch]; [apply (cs_same (fine_at (Validating [] []) y)) |].
    by apply (cs_count (fine_at (Validating [] (r :: batch)) y)).
  - unfold count_step. destruct (run_instr _ _ _) as [s l'] eqn:Hi.
    by apply (cs_instr (fine_at (Counting dq (i :: l) batch) y) false i).
  - unfold counted. destruct dq as [t|]; [apply (cs_same (fine_at (Counting (Some t) [] batch) y)) |].
    apply (cs_wait (fine_at (Counting None [] batch) y)).
  - unfold engine_returned. destruct (run_inference _ _ _ _ _) as [e [out|x|]]; [destruct (negb _) | |];
      apply (cs_exec (fine_at Between y)).
  - unfold resolve_step. destruct (x ← read_range _ _ _; _) as [ps|x|];
      apply (cs_same (fine_at (Resolving out i (r :: rest) batch) y)).
  - apply (cs_same (fine_at (Resolving out i [] batch) y)).
  - unfold fail_step. destruct (set_exception _ _ _) as [ps|x'|]; apply (cs_same (fine_at (Failing x (r :: rest)) y)).
  - apply (cs_same (fine_at (Failing x []) y)).
Qed.

Lemma fstep_cells f f' : fstep cfg alloc_ok f f' → cells_step f (sy_stats (fy_sys f')) (todo (fy_pc f')).
Proof.
  destruct 1 as [f f' Hm|pc y i]; [| apply (cs_reset (fine_at pc y))].
  destruct Hm as [f f' Hw|f f' Hsp|pc y y' Ho]; [by apply fworker_cells | |].
  - destruct Hsp as [y Hw Hr|y dq c p v l batch]; [apply (cs_same (fine_at Between y)) |].
    unfold count_step. destruct (run_instr _ _ _) as [s l'] eqn:Hi.
    by apply (cs_instr (fine_at (Counting dq (Exchange c p v :: l) batch) y) true (Exchange c p v)).
  - simpl. rewrite (others_stats y y' Ho). apply (cs_same (fine_at pc y)).
Qed.

Lemma todo_step f f' :
  todo_ok (sy_stats (fy_sys f)) (todo (fy_pc f)) → fstep cfg alloc_ok f f' →
  todo_ok (sy_stats (fy_sys f')) (todo (fy_pc f')).
Proof.
  intros Ht Hf. destruct (fstep_cells f f' Hf) as [|batch _ _|t batch|sp i l s l' Hi Hs|t t'|i]; try done.
  - apply fresh_todo_ok, (instrs_fresh _ 0 []).
  - apply fresh_todo_ok, (instrs_fresh 0).
  - rewrite Hi in Ht. by eapply run_instr_todo; [apply Ht |].
  - destruct (todo (fy_pc f)) as [|j l]; [done |]. destruct Ht as [Hu Hl]. split; [by apply reset_undisturbed | done].
Qed.

Lemma todo_reachable f : freach f → todo_ok (sy_stats (fy_sys f)) (todo (fy_pc f)).
Proof.
  revert f. apply (invariant_reachable _ _ (λ f, todo_ok (sy_stats (fy_sys f)) (todo (fy_pc f)))).
  - by intros ? (now & e & _ & ->).
  - apply todo_step.
Qed.

(** Steps of the worker until it calls the engine or the iteration is over. *)
Definition loop_rank (pc : fine_pc) : nat :=
  match pc with
  | Between => 0
  | Validating rest batch => 8 + length rest + 4 * (length batch + length rest)
  | Counting None l batch => 2 + instrs_rank l + 4 * length batch
  | Counting (Some _) l _ => 1 + instrs_rank l
  | Resolving _ _ rest batch => 2 + length rest + length batch
  | Failing _ rest => 1 + length rest
  end.

Lemma instrs_rank_app l1 l2 : instrs_rank (l1 ++ l2) = (instrs_rank l1 + instrs_rank l2)%nat.
Proof. unfold instrs_rank. by rewrite fmap_app, sum_list_with_app. Qed.

Lemma wait_rank t batch : instrs_rank (wait_instrs t batch) = (4 * length batch)%nat.
Proof.
  induction batch as [|r batch IH]; [done |].
  change (wait_instrs t (r :: batch)) with
    ([FetchAdd TotalQueueWaitUs (waited_us t r); Load MaxQueueWaitUs (waited_us t r)] ++ wait_instrs t batch).
  rewrite instrs_rank_app, IH. cbn. lia.
Qed.

Lemma count_rank sp dq i l batch (y : sys E) :
  undisturbed (sy_stats y) i → (sp = true → ¬ not_exchange i) →
  (loop_rank (fy_pc (count_step sp dq i l batch y)) + (if sp then 0 else 1) ≤ loop_rank (Counting dq (i :: l) batch))%nat.
Proof.
  intros Hu Hsp. unfold count_step. destruct (run_instr sp i (sy_stats y)) as [s l'] eqn:Hi.
  assert (Hle : (instrs_rank l' + (if sp then 0 else 1) ≤ instr_rank i)%nat).
  { destruct sp; [| by pose proof (run_instr_rank i _ s l' Hu Hi); lia].
    destruct i as [c n|c v|c p v]; [by destruct Hsp | by destruct Hsp |]. simpl in *.
    destruct (Z.ltb_spec p v); simplify_eq; cbn; [| lia].
    destruct Hu as [Hu|Hu]; rewrite Hu; [destruct (p <? v), (negb (p =? 0)); simpl; lia |].
    rewrite andb_false_r. destruct (negb (p =? 0)); lia. }
  cbn [fy_pc fine_at]. pose proof (instrs_rank_app [i] l) as Hc. pose proof (instrs_rank_app l' l) as Ha.
  change (instrs_rank [i]) with (instr_rank i + 0)%nat in Hc. simpl app in Hc.
  unfold loop_rank. destruct dq; rewrite Hc, Ha; lia.
Qed.

Lemma fworker_rank f f' :
  freach f → fworker cfg alloc_ok f f' → in_loop (fy_pc f) = true → (loop_rank (fy_pc f') < loop_rank (fy_pc f))%nat.
Proof.
  intros Hf Hw Hl. pose proof (todo_reachable f Hf) as Ht.
  destruct Hw as [y Hw Hr|y Hw Hd|y d Hw Hd Hne|y r rest batch|y batch|y dq i l batch|y dq batch|y batch t0 Hw
    |y out i r rest batch|y out i batch|y x r rest|y x]; simpl in Hl; try discriminate Hl.
  - unfold validate_step, validate_one. destruct (negb _); simpl.
    + destruct (set_exception _ _ _); simpl; lia.
    + rewrite length_app. simpl. lia.
  - unfold validated. destruct batch; simpl; [lia |]. cbn. lia.
  - pose proof (count_rank false dq i l batch y (proj1 Ht)) as Hc. simpl in *. lia.
  - unfold counted. destruct dq; simpl; [lia |]. rewrite wait_rank. cbn. lia.
  - unfold resolve_step. destruct (x ← read_range _ _ _; _); simpl; lia.
  - simpl. lia.
  - unfold fail_step. destruct (set_exception _ _ _); simpl; lia.
  - simpl. lia.
Qed.

Lemma loop_enabled (f : fsys E) : in_loop (fy_pc f) = true → ∃ f', fworker cfg alloc_ok f f'.
Proof.
  destruct f as [y pc]. simpl. intros Hl.
  destruct pc as [|[|r rest] batch|dq [|i l] batch|out i [|r rest] batch|x [|r rest]]; [done |..]; eexists;
    [apply (fw_validated cfg alloc_ok y) | apply (fw_validate cfg alloc_ok y) | apply (fw_counted cfg alloc_ok y)
    | apply (fw_count cfg alloc_ok y) | apply (fw_resolved cfg alloc_ok y) | apply (fw_resolve cfg alloc_ok y)
    | apply (fw_failed cfg alloc_ok y) | apply (fw_fail cfg alloc_ok y)].
Qed.

(** Other threads and spurious failures do not set the worker back. *)
Lemma fstep_rank f f' :
  freach f → fstep cfg alloc_ok f f' → in_loop (fy_pc f) = true →
  fworker cfg alloc_ok f f' ∨ (in_loop (fy_pc f') = true ∧ (loop_rank (fy_pc f') ≤ loop_rank (fy_pc f))%nat).
Proof.
  intros Hf Hs Hl. pose proof (todo_reachable f Hf) as Ht. destruct Hs as [f f' Hm|pc y i]; [| by right].
  destruct Hm as [f f' Hw|f f' Hsp|pc y y' Ho]; [by left | right | by right].
  destruct Hsp as [y Hw Hr|y dq c p v l batch]; [done |].
  pose proof (count_rank true dq (Exchange c p v) l batch y (proj1 Ht)) as Hc.
  split; [unfold count_step; by destruct (run_instr _ _ _) |]. specialize (Hc ltac:(auto)). cbv beta iota in Hc. cbn [fy_pc fine_at]. lia.
Qed.

(** Runs through the loop the worker is in, with the number of its own steps. *)
Inductive during (f0 : fsys E) : nat → fsys E → Prop :=
  | du_start : during f0 0 f0
  | du_worker n f f' : during f0 n f → in_loop (fy_pc f) = true → fworker cfg alloc_ok f f' → during f0 (S n) f'
  | du_step n f f' : during f0 n f → in_loop (fy_pc f) = true → fstep cfg alloc_ok f f' → during f0 n f'.

Lemma during_rank f0 n f :
  freach f0 → during f0 n f → freach f ∧ (n + loop_rank (fy_pc f) ≤ loop_rank (fy_pc f0))%nat.
Proof.
  intros H0. induction 1 as [|n f f' _ [Hf IH] Hl Hw|n f f' _ [Hf IH] Hl Hs]; [done | |].
  - split; [by eapply reachable_step; [| by apply fs_move, fm_worker] |].
    pose proof (fworker_rank f f' Hf Hw Hl). lia.
  - split; [by eapply reachable_step |]. destruct (fstep_rank f f' Hf Hs Hl) as [Hw|[_ Hle]]; [| lia].
    pose proof (fworker_rank f f' Hf Hw Hl). lia.
Qed.
End Running.

(** ** Totals when nothing was reset *)

Section Totals.
Context (cfg : SchedulerConfig).

Definition en_waits (e : batch_entry) : list Z :=
  from_option (λ t, waited_us t <$> en_batch cfg e) [] (en_dequeued_at e).

Definition en_times (e : batch_entry) : list Z :=
  match en_batch cfg e, en_called_at e, en_answered_at e with
  | _ :: _, Some t, Some t' => [elapsed_us_since t t']
  | _, _, _ => []
  end.

Definition nonempty (e : batch_entry) : bool := match en_batch cfg e with [] => false | _ => true end.

(** What the counters should hold. *)
Definition totals (log : list batch_entry) : SchedulerStats :=
  {| total_batches := u64 (vec_size (filter nonempty log));
     total_requests := u64 (vec_size (log ≫= en_batch cfg));
     max_batch_size_seen := maxZ (vec_size ∘ en_batch cfg <$> log);
     total_queue_wait_us := u64 (sumZ (log ≫= en_waits));
     max_queue_wait_us := maxZ (log ≫= en_waits);
     total_exec_us := u64 (sumZ (log ≫= en_times)) |}.

Lemma maxZ_app l l' : maxZ (l ++ l') = Z.max (maxZ l) (maxZ l').
Proof. induction l as [|z l IH]; simpl; [| lia]. assert (0 ≤ maxZ l') by (induction l'; simpl; lia). lia. Qed.

(** The waits of a batch, in one go. *)
Lemma replay_wait_updates t batch s k :
  total_queue_wait_us s = u64 k → 0 ≤ max_queue_wait_us s →
  replay (wait_updates t batch) s =
    {| total_batches := total_batches s; total_requests := total_requests s;
       max_batch_size_seen := max_batch_size_seen s;
       total_queue_wait_us := u64 (k + sumZ (waited_us t <$> batch));
       max_queue_wait_us := Z.max (max_queue_wait_us s) (maxZ (waited_us t <$> batch));
       total_exec_us := total_exec_us s |}.
Proof.
  revert s k. induction batch as [|r batch IH]; intros s k Hk Hm; csimpl.
  - rewrite Z.add_0_r, <- Hk, Z.max_l by done. by destruct s.
  - unfold replay in *. simpl. erewrite IH; simpl; [| rewrite Hk; apply u64_add_u64 | lia]. f_equal; [f_equal; lia | lia].
Qed.

Lemma maxZ_nonneg l : 0 ≤ maxZ l.
Proof. induction l; simpl; lia. Qed.

Lemma totals_entry log e : replay (entry_updates cfg e) (totals log) = totals (log ++ [e]).
Proof.
  assert (Ht : totals (log ++ [e]) =
    {| total_batches := u64 (vec_size (filter nonempty log) + vec_size (filter nonempty [e]));
       total_requests := u64 (vec_size (log ≫= en_batch cfg) + vec_size (en_batch cfg e));
       max_batch_size_seen := Z.max (maxZ (vec_size ∘ en_batch cfg <$> log)) (vec_size (en_batch cfg e));
       total_queue_wait_us := u64 (sumZ (log ≫= en_waits) + sumZ (en_waits e));
       max_queue_wait_us := Z.max (maxZ (log ≫= en_waits)) (maxZ (en_waits e));
       total_exec_us := u64 (sumZ (log ≫= en_times) + sumZ (en_times e)) |}).
  { unfold totals. rewrite !bind_app, fmap_app, !maxZ_app, !sumZ_app, filter_app, !vec_size_app.
    cbn [mbind list_bind fmap list_fmap]. rewrite !app_nil_r. f_equal. simpl.
    pose proof (vec_size_nonneg (en_batch cfg e)). lia. }
  assert (Hn : filter nonempty [e] = match en_batch cfg e with [] => [] | _ => [e] end).
  { rewrite filter_cons. case_decide as Hd; unfold nonempty in Hd; by destruct (en_batch cfg e). }
  assert (Hw : en_waits e = from_option (λ t, waited_us t <$> en_batch cfg e) [] (en_dequeued_at e)) by done.
  assert (Hx : en_times e = match en_batch cfg e, en_called_at e, en_answered_at e with
    | _ :: _, Some t, Some t' => [elapsed_us_since t t'] | _, _, _ => [] end) by done.
  rewrite Ht, Hn, Hw, Hx. clear Ht Hn Hw Hx. unfold entry_updates.
  pose proof (maxZ_nonneg (vec_size ∘ en_batch cfg <$> log)). pose proof (maxZ_nonneg (log ≫= en_waits)).
  destruct (en_batch cfg e) as [|r batch] eqn:Hb.
  - unfold totals, replay. destruct (en_dequeued_at e); simpl; by rewrite !Z.add_0_r, !Z.max_l.
  - set (b := r :: batch). rewrite !replay_app. set (s1 := replay (size_updates (vec_size b)) (totals log)).
    assert (Hs1 : s1 = {| total_batches := u64 (vec_size (filter nonempty log) + 1);
      total_requests := u64 (vec_size (log ≫= en_batch cfg) + vec_size b);
      max_batch_size_seen := Z.max (maxZ (vec_size ∘ en_batch cfg <$> log)) (vec_size b);
      total_queue_wait_us := u64 (sumZ (log ≫= en_waits)); max_queue_wait_us := maxZ (log ≫= en_waits);
      total_exec_us := u64 (sumZ (log ≫= en_times)) |}).
    { unfold s1, totals, replay. simpl. by rewrite !u64_add_u64. }
    set (waits := from_option (λ t, waited_us t <$> b) [] (en_dequeued_at e)).
    assert (Hs2 : replay (from_option (λ t, wait_updates t b) [] (en_dequeued_at e)) s1 =
      {| total_batches := total_batches s1; total_requests := total_requests s1; max_batch_size_seen := max_batch_size_seen s1;
         total_queue_wait_us := u64 (sumZ (log ≫= en_waits) + sumZ waits);
         max_queue_wait_us := Z.max (maxZ (log ≫= en_waits)) (maxZ waits); total_exec_us := total_exec_us s1 |}).
    { unfold waits. rewrite Hs1. destruct (en_dequeued_at e) as [t|].
      - cbn [from_option]. by rewrite (replay_wait_updates t b _ (sumZ (log ≫= en_waits))).
      - unfold replay. simpl. by rewrite Z.add_0_r, (Z.max_l (maxZ (log ≫= en_waits))). }
    rewrite Hs2, Hs1. unfold replay. destruct (en_called_at e) as [t|], (en_answered_at e) as [t'|];
      cbn; rewrite ?u64_add_u64, ?Z.add_0_r; reflexivity.
Qed.

Lemma replay_ledger log : replay (log ≫= entry_updates cfg) zero_stats = totals log.
Proof.
  induction log as [|e log IH] using rev_ind; [done |].
  rewrite bind_app, replay_app, IH. cbn [mbind list_bind]. rewrite app_nil_r. apply totals_entry.
Qed.
End Totals.

Lemma no_resets h : omap reset_of h = [] → filter by_worker h = h.
Proof.
  induction h as [|u h IH]; [done |]. csimpl. destruct u as [c n|c n|c]; simpl; [| | done];
    intros Hr; rewrite filter_cons; simpl; by rewrite IH.
Qed.

(** ** Properties *)

(** C11: the counters are exact at every moment. Take any run of the fine system from a new
    scheduler, with the trace [tr] of what happened in it: batches drained and checked,
    the clock readings made for them, engine calls answered, cells reset. The counters can
    be explained by updates that each take effect at one step of the run: a reset at the
    step that makes it, and the worker's in program order, so that at every moment of the
    run (not only at the end) those it has made and those left of the instructions under
    way are exactly the ones due for the batches in the ledger: the size of each batch with
    a well-sized request, the wait of each of its requests at the reading made for it, and
    the time between the reading before the engine call and the one after it. The batches
    in the ledger are all the batches drained and checked, in order, and each has its
    readings, the one in hand as far as the worker has got. In particular no update is lost
    to a concurrent reset and no reset is undone; and if there was none, then between
    accesses all six counters are the totals of the ledger. *)
Theorem fine_counters_exact (E : Type) (HE : IExecutionEngine E) (good : E → Prop) (max_rows : Z)
  (row : list float → list float) (errors : exn → Prop) (cfg : SchedulerConfig) (alloc_ok : nat → bool)
  (now : Z) (e : E) (tr : list event) (f : fsys E)
  (HC : EngineContract E good max_rows (input_elems cfg) (output_elems cfg) row errors)
  (Hmax : 0 < max_batch_size cfg ≤ max_rows) (Hoe : 0 ≤ output_elems cfg)
  (Hfit : max_rows * output_elems cfg < two64) (Hal : ∀ i, alloc_ok i = true) (He : good e)
  (Hrun : frun cfg alloc_ok (fine_at Between (new_scheduler now e)) tr f) :
  ∃ h,
    linearized cfg alloc_ok (fine_at Between (new_scheduler now e)) tr h f ∧
    sy_stats (fy_sys f) = replay h zero_stats ∧ omap reset_of h = omap cleared tr ∧
    filter by_worker h ++ (todo (fy_pc f) ≫= due) = ledger tr ≫= entry_updates cfg ∧
    ledger tr ≫= en_drained = qs_delivered (sy_core (fy_sys f)) ++ taken f ∧
    position cfg f (ledger tr) ∧
    (omap cleared tr = [] → todo (fy_pc f) = [] → sy_stats (fy_sys f) = totals cfg (ledger tr)).
Proof.
  destruct (run_accounted good max_rows row errors cfg alloc_ok Hmax Hoe Hfit Hal now e tr f He Hrun) as (h & Hlin & [_ Hu Hd Hp]).
  destruct (linearized_stats _ _ _ _ _ _ Hlin) as [Hs Hr]. exists h. split_and!; try done. intros Hnr Ht.
  rewrite Hnr in Hr. rewrite Ht, app_nil_r, (no_resets h Hr) in Hu. rewrite Hs, Hu. apply replay_ledger.
Qed.

(** C12: nothing other threads do can hold up an iteration. From any reachable state with
    the worker inside one of its loops (validation, counters with their compare-and-swap
    loops, results, handler), the worker has a next step, and whatever happens in between
    (submissions, notifications, resets of the counters, [start], [stop], spurious
    failures of an exchange) it leaves the loops after at most [loop_rank] steps that are
    not such failures. *)
Theorem fine_iteration_ends (E : Type) (HE : IExecutionEngine E) (good : E → Prop) (cfg : SchedulerConfig)
  (alloc_ok : nat → bool) (f : fsys E) (Hr : freachable cfg alloc_ok good f) :
  (in_loop (fy_pc f) = true → ∃ f', fworker cfg alloc_ok f f') ∧
  ∀ n f', during cfg alloc_ok f n f' → (n + loop_rank (fy_pc f') ≤ loop_rank (fy_pc f))%nat.
Proof.
  split; [apply loop_enabled |]. intros n f' Hd. by apply (during_rank good cfg alloc_ok f n f' Hr).
Qed.

(** ** Witnesses: a reset between two accesses of a batch of two *)

Abbreviation demo_frun := (frun (E := StubExecutionEngine) demo_cfg (λ _, true) fine_new).

Lemma observe_cleared {E : Type} (f : fsys E) : omap cleared (observe f) = [].
Proof. unfold observe. by repeat case_match. Qed.

Lemma frun_moves tr f f' :
  demo_frun tr f → rtc demo_fmove f f' → ∃ tr', demo_frun tr' f' ∧ omap cleared tr' = omap cleared tr.
Proof.
  intros Hf Hr. revert tr Hf. induction Hr as [f|f f1 f2 Hm _ IH]; intros tr Hf; [by exists tr |].
  assert (He : ∃ ev, fevent demo_cfg (λ _, true) f ev f1 ∧ omap cleared ev = []).
  { destruct Hm as [f f1 Hw|f f1 Hs|pc y y' Ho].
    - exists (observe f). split; [by apply fe_worker | apply observe_cleared].
    - exists []. split; [by apply fe_spurious | done].
    - exists []. split; [by apply fe_others | done]. }
  destruct He as (ev & He & Hc). destruct (IH (tr ++ ev)) as (tr' & Hr' & Hc'); [by eapply fr_step |].
  exists tr'. split; [done |]. by rewrite Hc', omap_app, Hc, app_nil_r.
Qed.

(** Both additions and the load have been made when [total_requests] is reset. *)
Definition fine_counting : fsys StubExecutionEngine :=
  Nat.iter 3 next_count (validated [demo_request 1; demo_request 2] (fy_sys fine4)).
Definition fine_after_reset : fsys StubExecutionEngine :=
  fine_at (fy_pc fine_counting) (with_stats (reset_store 1 (sy_stats (fy_sys fine_counting))) (fy_sys fine_counting)).
Definition fine_counted : fsys StubExecutionEngine := Nat.iter 9 next_count fine_after_reset.

Lemma fine_counted_run : ∃ tr, demo_frun tr fine_counted ∧ omap cleared tr = [TotalRequests].
Proof.
  destruct (frun_moves [] fine_new fine_counting) as (tr & Hr & Hc); [apply fr_start | |].
  { etrans; [exact fine4_run | exact (next_count_steps 3 _)]. }
  assert (Heta : fine_at (fy_pc fine_counting) (fy_sys fine_counting) = fine_counting) by by destruct fine_counting.
  rewrite <- Heta in Hr. pose proof (fe_reset demo_cfg (λ _, true) (fy_pc fine_counting) (fy_sys fine_counting) 1) as He.
  destruct (frun_moves (tr ++ [Cleared TotalRequests]) fine_after_reset fine_counted) as (tr' & Hr' & Hc').
  - eapply fr_step; [exact Hr | exact He].
  - exact (next_count_steps 9 fine_after_reset).
  - exists tr'. split; [exact Hr' |]. by rewrite Hc', omap_app, Hc.
Qed.

Lemma fine_counters_exact_witness :
  total_requests (sy_stats (fy_sys fine_counted)) = 0 ∧ total_batches (sy_stats (fy_sys fine_counted)) = 1 ∧
  max_batch_size_seen (sy_stats (fy_sys fine_counted)) = 2 ∧
  ∃ tr h, sy_stats (fy_sys fine_counted) = replay h zero_stats ∧ omap reset_of h = [TotalRequests] ∧
    ledger tr ≫= en_drained = demo_drained_list.
Proof.
  split_and!; [vm_compute; reflexivity.. |]. destruct fine_counted_run as (tr & Hrun & Hc).
  destruct (fine_counters_exact StubExecutionEngine _ (λ _, True) 4 (fit_row 1) (λ _, False) demo_cfg (λ _, true) 0
    stub_engine tr fine_counted demo_contract ltac:(done) ltac:(done) ltac:(done) ltac:(done) I Hrun)
    as (h & _ & Hs & Hr & _ & Hd & _).
  exists tr, h. split_and!; [exact Hs | by rewrite Hr | rewrite Hd; vm_compute; reflexivity].
Defined.

(** Three drained requests: at most 23 steps to the engine call. *)
Lemma fine_iteration_ends_witness :
  (∃ f', fworker demo_cfg (λ _, true) fine1 f') ∧
  ∀ n f', during demo_cfg (λ _, true) fine1 n f' → (n ≤ 23)%nat.
Proof.
  destruct (fine_iteration_ends StubExecutionEngine _ (λ _, True) demo_cfg (λ _, true) fine1) as [Hen Hle].
  - apply fine_moves. etrans; [exact fine0_run |]. apply rtc_once, fm_worker, fw_begin;
      [vm_compute; reflexivity | vm_compute; reflexivity | done].
  - split; [by apply Hen |]. intros n f' Hd. specialize (Hle n f' Hd). change (loop_rank (fy_pc fine1)) with 23%nat in Hle. lia.
Defined.
