(* ===== verification/Monitoring.v ===== *)
(** * Monitoring

    [Scheduler::stats] as any thread may call it while the worker and other threads write
    the counters (src/cpp/src/scheduler/scheduler.cpp, include/cuda_db/scheduler/scheduler.hpp):
    the six loads may see six different moments, of [System] or of the system of
    [Delivery], in which each access to a counter is a step. *)

From Stdlib Require Import ZArith Lia.
From stdpp Require Import base numbers strings relations gmap list.
From S2P Require Import Prelude Machine Doubles Request RequestQueue Engine Scheduler Counters System.
From S2P Require Import Delivery Accounting.

(** ** The counters are 64-bit numbers *)

Definition stats_u64 (s : SchedulerStats) : Prop :=
  is_u64 (total_batches s) ∧ is_u64 (total_requests s) ∧ is_u64 (max_batch_size_seen s) ∧
  is_u64 (total_queue_wait_us s) ∧ is_u64 (max_queue_wait_us s) ∧ is_u64 (total_exec_us s).

Lemma atomic_max_u64 cell candidate : is_u64 cell → is_u64 candidate → is_u64 (atomic_max cell candidate).
Proof. rewrite atomic_max_spec. unfold is_u64. lia. Qed.

Lemma waited_us_u64 t r : is_u64 (waited_us t r).
Proof. unfold waited_us. destruct (0 <? _); [apply u64_range | unfold is_u64; lia]. Qed.

Lemma elapsed_us_u64 a b : is_u64 (elapsed_us_since a b).
Proof. unfold elapsed_us_since. destruct (0 <? _); [apply u64_range | unfold is_u64; lia]. Qed.

Lemma reset_store_u64 i s : stats_u64 s → stats_u64 (reset_store i s).
Proof.
  intros (? & ? & ? & ? & ? & ?). unfold stats_u64, reset_store; simpl.
  split_and!; case_decide; try done; unfold is_u64; lia.
Qed.

Lemma record_exec_u64 us s : stats_u64 s → stats_u64 (record_exec us s).
Proof. intros (? & ? & ? & ? & ? & ?). split_and!; simpl; try done. apply u64_range. Qed.

Lemma finalize_stats_u64 t batch s :
  is_u64 (vec_size batch) → stats_u64 s → stats_u64 (finalize_stats t batch s).
Proof.
  intros Hn (? & ? & ? & ? & ? & ?). unfold finalize_stats.
  assert (Hc : stats_u64 (count_batch (vec_size batch) s)).
  { split_and!; simpl; try done; try apply u64_range. by apply atomic_max_u64. }
  revert Hc. generalize (count_batch (vec_size batch) s). clear.
  induction batch as [|r batch IH]; intros s Hs; simpl; [done |]. apply IH.
  destruct Hs as (? & ? & ? & ? & ? & ?). split_and!; simpl; try done; [apply u64_range |].
  apply atomic_max_u64; [done | apply waited_us_u64].
Qed.

#[export] Hint Resolve reset_store_u64 record_exec_u64 finalize_stats_u64 : inv.

Section Counters.
Context {E : Type} `{HE : IExecutionEngine E} (cfg : SchedulerConfig) (alloc_ok : nat → bool).
Hypothesis (Hmax : max_batch_size cfg < two64).

Lemma validate_length d batch ps batch' ps' :
  fold_outcome (validate_one cfg) (batch, ps) d = Ret (batch', ps') →
  (length batch' ≤ length batch + length d)%nat.
Proof.
  revert batch ps. induction d as [|r d IH]; intros batch ps; simpl; [intros [= <- _]; lia |].
  destruct (vec_size (input_data r) =? input_elems cfg); simpl.
  - intros Hv%IH. rewrite length_app in Hv. simpl in Hv. lia.
  - destruct (set_exception _ _ ps); simpl; [| done | done]. intros Hv%IH. lia.
Qed.

Lemma stats_u64_step s s' :
  qreachable (max_batch_size cfg) (max_wait cfg) (sy_core s) →
  stats_u64 (sy_stats s) → sstep (E := E) cfg alloc_ok s s' → stats_u64 (sy_stats s').
Proof.
  intros Hq HI Hs. destruct Hs as [s d ?|s r Hr|s s' Hs|s s' Hs|s Hw Hr|s i|s Hc|s Hc|s Hc|s Hc Hj]; simpl; auto with inv.
  - unfold submit_step. by destruct (submit _ _ _) as [[? ?] ?].
  - by destruct Hs.
  - destruct Hs as [s Hw Hr|s d Hw Hd|s batch t0 Hw]; [done | |].
    + unfold begin_iteration. destruct d as [|r d]; [by destruct (sy_running s) |].
      destruct (validate cfg (r :: d) (sy_store s)) as [[[|b0 b] ps]|x|] eqn:Hv; simpl; try done.
      apply finalize_stats_u64; [| done]. apply validate_length in Hv. simpl in Hv.
      apply reachable_window in Hq as [_ Hb]. rewrite Hd in Hb. simpl in Hb.
      unfold is_u64, vec_size in *. simpl in *. lia.
    + unfold end_iteration, execute_batch. destruct (run_inference _ _ _ _ _) as [e o].
      destruct (deliver cfg alloc_ok o batch (sy_store s)) as [ps [u|x|]]; simpl; auto with inv.
  - unfold start. by destruct (sy_running s), (sy_joinable s).
Qed.

Lemma stats_u64_reachable good s : sreachable cfg alloc_ok good s → stats_u64 (sy_stats s).
Proof.
  revert s. apply (invariant_reachable_strong _ _
    (λ s, qreachable (max_batch_size cfg) (max_wait cfg) (sy_core s)) (λ s, stats_u64 (sy_stats s))).
  - apply sreachable_core.
  - intros ? (now & e & _ & ->). unfold stats_u64, is_u64; simpl. lia.
  - intros s1 s2 Hq _ HI Hs. by eapply stats_u64_step.
Qed.
End Counters.

(** ** Access by access *)

(** The values the worker is about to write. *)
Definition instr_u64 (i : instr) : Prop :=
  match i with FetchAdd _ _ => True | Load _ v | Exchange _ _ v => is_u64 v end.

Lemma stats_u64_cells s : stats_u64 s ↔ ∀ c, is_u64 (load c s).
Proof.
  split; [intros (? & ? & ? & ? & ? & ?) []; done |]. intros H. unfold stats_u64.
  exact (conj (H TotalBatches) (conj (H TotalRequests) (conj (H MaxBatchSizeSeen) (conj (H TotalQueueWaitUs)
    (conj (H MaxQueueWaitUs) (H TotalExecUs)))))).
Qed.

Lemma store_u64 c v s : is_u64 v → stats_u64 s → stats_u64 (store c v s).
Proof. rewrite !stats_u64_cells. intros Hv Hs c'. rewrite load_store. by case_decide. Qed.

Lemma run_instr_u64 sp i s s' l :
  run_instr sp i s = (s', l) → stats_u64 s → instr_u64 i → stats_u64 s' ∧ Forall instr_u64 l.
Proof.
  intros Hi Hs Hv. destruct i as [c n|c v|c p v]; simpl in Hi.
  - simplify_eq. split; [| done]. apply store_u64; [apply u64_range | done].
  - simplify_eq. split; [done |]. by apply Forall_singleton.
  - destruct (p <? v); [| by simplify_eq]. destruct (negb sp && _); simplify_eq; (split; [| by rewrite ?Forall_singleton]).
    + by apply store_u64.
    + done.
Qed.

Lemma wait_instrs_u64 t batch : Forall instr_u64 (wait_instrs t batch).
Proof.
  unfold wait_instrs. induction batch as [|r batch IH]; simpl; [done |].
  constructor; [done |]. constructor; [apply waited_us_u64 | done].
Qed.

Section Fine.
Context {E : Type} `{HE : IExecutionEngine E} (good : E → Prop) (max_rows : Z)
  (row : list float → list float) (errors : exn → Prop) (cfg : SchedulerConfig) (alloc_ok : nat → bool).
Context `{HC : !EngineContract E good max_rows (input_elems cfg) (output_elems cfg) row errors}.
Hypothesis Hmax : 0 < max_batch_size cfg ≤ max_rows.
Hypothesis Hoe : 0 ≤ output_elems cfg.
Hypothesis Hfit : max_rows * output_elems cfg < two64.
Hypothesis Hal : ∀ i, alloc_ok i = true.
Hypothesis H64 : max_batch_size cfg < two64.

Abbreviation freach := (freachable cfg alloc_ok good).

(** A validated batch is within the limit. *)
Lemma validated_u64 (f : fsys E) batch : freach f → fy_pc f = Validating [] batch → batch ≠ [] → is_u64 (vec_size batch).
Proof.
  intros Hf Hpc Hne.
  destruct (fine_matched good max_rows row errors cfg alloc_ok Hmax Hoe Hfit Hal f Hf) as (s & Hs & st & c & w & ps & -> & Hrel).
  rewrite Hpc in Hrel. destruct Hrel as (_ & b' & Hv & Hb). simpl in Hv. injection Hv as <- <-.
  destruct batch as [|r batch]; [done |]. destruct Hb as (-> & t & ->).
  pose proof (drained_within good max_rows cfg alloc_ok Hmax _ Hs) as Hd.
  destruct (sys_inv_reachable good max_rows row errors cfg alloc_ok Hmax Hoe Hfit Hal _ Hs) as [_ _ _ _ Hwi _ _].
  unfold worker_inv in Hwi. simpl in Hwi, Hd. destruct Hwi as (d & Hc & Hb & _). rewrite Hc in Hd. simpl in Hd. rewrite Hb.
  pose proof (length_filter (well_sized cfg) d). unfold is_u64, vec_size in *. lia.
Qed.

Lemma cells_u64_reachable (f : fsys E) : freach f → stats_u64 (sy_stats (fy_sys f)) ∧ Forall instr_u64 (todo (fy_pc f)).
Proof.
  revert f. apply (invariant_reachable_strong _ _ freach (λ f, stats_u64 (sy_stats (fy_sys f)) ∧ Forall instr_u64 (todo (fy_pc f)))).
  - done.
  - intros ? (now & e & _ & ->). split; [| done]. unfold stats_u64, is_u64; simpl. lia.
  - intros f f' Hf _ [Hs Ht] Hst.
    destruct (fstep_cells cfg alloc_ok f f' Hst) as [|batch Hne Hpc|t batch|sp i l s l' Hi Hs'|t t'|i].
    + done.
    + split; [done |]. constructor; [done |]. constructor; [done |]. constructor; [by eapply validated_u64 | done].
    + split; [done | apply wait_instrs_u64].
    + rewrite Hi in Ht. apply Forall_cons in Ht as [Hv Hl]. destruct (run_instr_u64 _ _ _ _ _ Hs' Hs Hv) as [Hs1 Hl1].
      split; [done | by apply Forall_app].
    + split; [by apply record_exec_u64 | done].
    + split; [by apply reset_store_u64 | done].
Qed.
End Fine.

(** ** The derived averages *)

Lemma avg_not_nan total count :
  is_u64 count →
  is_nan (if count =? 0 then f64_zero
          else f64_div (f64_div (f64_of_u64 total) (f64_of_u64 count)) (f64_of_u64 1000)) = false.
Proof.
  intros Hc. destruct (Z.eqb_spec count 0); [done |].
  apply f64_div_not_nan; [| by apply f64_of_u64_finite].
  apply f64_div_not_nan; [apply f64_of_u64_not_nan | apply f64_of_u64_finite; unfold is_u64 in Hc; lia].
Qed.

(** A snapshot made of 64-bit values, wherever each comes from. *)
Lemma snapshot_well_formed (cells : nat → SchedulerStats) :
  (∀ i, stats_u64 (cells i)) →
  stats_u64 (stats cells) ∧ is_nan (avg_queue_wait_ms (stats cells)) = false ∧
  is_nan (max_queue_wait_ms (stats cells)) = false ∧ is_nan (avg_exec_ms (stats cells)) = false.
Proof.
  intros HI. assert (Hs : stats_u64 (stats cells)) by (split_and!; simpl; apply HI).
  split; [done |]. split_and!.
  - apply avg_not_nan, Hs.
  - apply f64_div_not_nan; [apply f64_of_u64_not_nan | by apply f64_of_u64_finite].
  - apply avg_not_nan, Hs.
Qed.

(** ** Properties *)

(** A snapshot whose loads fall into states of [System]. *)
Theorem stats_snapshot_well_formed (E : Type) (HE : IExecutionEngine E) (cfg : SchedulerConfig)
  (alloc_ok : nat → bool) (good : E → Prop) (states : nat → sys E)
  (Hmax : max_batch_size cfg < two64) (Hr : ∀ i, sreachable cfg alloc_ok good (states i)) :
  let snapshot := stats (λ i, sy_stats (states i)) in
  stats_u64 snapshot ∧ is_nan (avg_queue_wait_ms snapshot) = false ∧
  is_nan (max_queue_wait_ms snapshot) = false ∧ is_nan (avg_exec_ms snapshot) = false.
Proof. apply snapshot_well_formed. intros i. by apply (stats_u64_reachable cfg alloc_ok Hmax good). Qed.

(** C33: a snapshot of the counters is well-formed however it is torn. [stats] may read its
    six counters in six different states of the running scheduler, between any two
    accesses of the worker (of the same batch, inside its compare-and-swap loops, with
    submissions and resets in between); each value is a 64-bit number, and the derived
    averages and the maximum are never NaN, also before the first request and after a
    reset caught halfway. *)
Theorem fine_snapshot_well_formed (E : Type) (HE : IExecutionEngine E) (good : E → Prop)
  (max_rows : Z) (row : list float → list float) (errors : exn → Prop) (cfg : SchedulerConfig) (alloc_ok : nat → bool)
  (states : nat → fsys E)
  (HC : EngineContract E good max_rows (input_elems cfg) (output_elems cfg) row errors)
  (Hmax : 0 < max_batch_size cfg ≤ max_rows) (Hoe : 0 ≤ output_elems cfg)
  (Hfit : max_rows * output_elems cfg < two64) (Hal : ∀ i, alloc_ok i = true) (H64 : max_batch_size cfg < two64)
  (Hr : ∀ i, freachable cfg alloc_ok good (states i)) :
  let snapshot := stats (λ i, sy_stats (fy_sys (states i))) in
  stats_u64 snapshot ∧ is_nan (avg_queue_wait_ms snapshot) = false ∧
  is_nan (max_queue_wait_ms snapshot) = false ∧ is_nan (avg_exec_ms snapshot) = false.
Proof.
  apply snapshot_well_formed. intros i.
  apply (cells_u64_reachable good max_rows row errors cfg alloc_ok Hmax Hoe Hfit Hal H64 (states i) (Hr i)).
Qed.

(** ** Witness: loads before a batch, between its counters and after them *)

Definition demo_moments (i : nat) : fsys StubExecutionEngine :=
  if (i <? 1)%nat then fine0 else if (i <? 4)%nat then fine_counting else fine5.

Lemma fine_snapshot_well_formed_witness :
  let snapshot := stats (λ i, sy_stats (fy_sys (demo_moments i))) in
  total_batches snapshot = 0 ∧ total_requests snapshot = 2 ∧ stats_u64 snapshot ∧
  is_nan (avg_queue_wait_ms snapshot) = false.
Proof.
  intros snapshot. split; [vm_compute; reflexivity |]. split; [vm_compute; reflexivity |].
  destruct (fine_snapshot_well_formed StubExecutionEngine _ (λ _, True) 4 (fit_row 1) (λ _, False) demo_cfg (λ _, true)
    demo_moments demo_contract ltac:(done) ltac:(done) ltac:(done) ltac:(done) ltac:(done)) as (H1 & H2 & _); [| by split].
  intros i. apply fine_moves. unfold demo_moments. destruct (i <? 1)%nat; [exact fine0_run |].
  etrans; [exact fine4_run |].
  destruct (i <? 4)%nat; [exact (next_count_steps 3 _) | exact (next_count_steps 12 _)].
Defined.
