(* ===== verification/Liveness.v ===== *)
(** * Every request is answered, and [stop] returns

    Liveness of the running scheduler ([System]) over its infinite executions: the worker
    thread is scheduled fairly, notifications that were issued arrive, and time passes.
    Producers, statistics resets, spurious wake-ups, [start] and [stop] interleave at
    will, and executions may stutter. *)

From Stdlib Require Import ZArith Lia.
From stdpp Require Import base numbers strings relations gmap list.
From S2P Require Import Prelude Machine Fairness Request RequestQueue Engine Scheduler System.

(** ** The consumer's critical section on a non-empty deque *)

Section Run.
Variables (max_batch_size timeout : Z).

Abbreviation run := (run_consumer max_batch_size timeout).

Lemma run_delivered c : qs_delivered (run c) = qs_delivered c.
Proof. unfold run_consumer. by destruct (wait_step _ _ _ _ _). Qed.

(** In an open window: still the same window and nothing taken, or a non-empty batch. *)
Lemma run_window_cases c d n :
  0 < max_batch_size → queue_ (qs_queue c) ≠ [] → qs_consumer c = Window d n →
  (qs_consumer (run c) = Window d false ∧ queue_ (qs_queue (run c)) ≠ []) ∨
  (∃ b, qs_consumer (run c) = Drained b ∧ b ≠ []).
Proof.
  intros Hm Hq Hc. unfold run_consumer, wait_step. rewrite Hc.
  destruct (_ || _); [right | by left]. destruct (drain _ _) as [q b] eqn:Hd. exists b. split; [done |].
  pose proof (drain_batch max_batch_size (qs_queue c)) as (_ & H & _). rewrite Hd in H. by apply H.
Qed.
End Run.

Section Liveness.
Context {E : Type} `{HE : IExecutionEngine E} (good : E → Prop) (max_rows : Z)
  (row : list float → list float) (errors : exn → Prop) (cfg : SchedulerConfig) (alloc_ok : nat → bool).
Context `{HC : !EngineContract E good max_rows (input_elems cfg) (output_elems cfg) row errors}.
Hypothesis Hmax : 0 < max_batch_size cfg ≤ max_rows.
Hypothesis Hoe : 0 ≤ output_elems cfg.
Hypothesis Hfit : max_rows * output_elems cfg < two64.
Hypothesis Hal : ∀ i, alloc_ok i = true.

Abbreviation inv := (sys_inv good row errors cfg).
Abbreviation reach := (sreachable cfg alloc_ok good).

(** A fair run: every thread of the scheduler gets its turn and time passes. *)
Record fair_run (e : nat → sys E) : Prop := {
  fr_exec : execution (sstep cfg alloc_ok) e;
  fr_worker : weakly_fair (worker_step cfg alloc_ok) e;
  fr_signal : weakly_fair signal_step e;
  fr_clock : diverges (λ s, qs_now (sy_core s)) e
}.

Lemma reach_inv s : reach s → inv s.
Proof. apply (sys_inv_reachable good max_rows row errors cfg alloc_ok Hmax Hoe Hfit Hal). Qed.

(** ** Where the worker can be while requests are outstanding *)

Definition alive (s : sys E) : Prop := sy_worker s = Looping ∨ ∃ b t, sy_worker s = Executing b t.

Definition served (s : sys E) : nat := length (qs_delivered (sy_core s)).

(** Inside [wait_and_drain] with a non-empty deque. *)
Definition waiting (pc : drain_pc → Prop) (k : nat) (s : sys E) : Prop :=
  sy_worker s = Looping ∧ pc (qs_consumer (sy_core s)) ∧ queue_ (qs_queue (sy_core s)) ≠ [] ∧ served s = k.

Definition awake (c : drain_pc) : Prop := c = Entering ∨ c = Parked true.
Definition asleep (c : drain_pc) : Prop := c = Parked false.
Definition window (d : Z) (c : drain_pc) : Prop := ∃ n, c = Window d n.

(** Holding a drained batch, and inside the engine call. *)
Definition holding (k : nat) (s : sys E) : Prop :=
  sy_worker s = Looping ∧ (∃ b, qs_consumer (sy_core s) = Drained b ∧ b ≠ []) ∧ served s = k.
Definition executing (k : nat) (s : sys E) : Prop :=
  (∃ b t, sy_worker s = Executing b t) ∧ served s = k.

(** The next batch has been handed over. *)
Definition passed (k : nat) (s : sys E) : Prop := (k < served s)%nat.

(** What steps of other threads leave alone. *)
Record quiet (s s' : sys E) : Prop := {
  qt_worker : sy_worker s' = sy_worker s;
  qt_consumer : qs_consumer (sy_core s') = qs_consumer (sy_core s);
  qt_delivered : qs_delivered (sy_core s') = qs_delivered (sy_core s);
  qt_queue : queue_ (qs_queue (sy_core s)) ≠ [] → queue_ (qs_queue (sy_core s')) ≠ [];
  qt_now : qs_now (sy_core s) ≤ qs_now (sy_core s')
}.

Lemma alive_joinable s : inv s → alive s → sy_joinable s = true.
Proof.
  intros HI [Hw|(b & t & Hw)]; [by eapply looping_joinable | by eapply executing_joinable].
Qed.

Lemma submit_quiet r s : quiet s (submit_step r s).1.
Proof.
  unfold submit_step, submit, get_future, new_promise. rewrite lookup_insert_eq. simpl.
  destruct (push _ r) as [q [|]] eqn:Hp; simpl.
  - apply push_accepted in Hp as [_ ->]. split; simpl; try done. by destruct (queue_ _).
  - apply push_refused in Hp as [_ ->]. by split.
Qed.

(** Steps while the worker is alive: its own, a notification, a spurious wake-up, or one
    that leaves its thread alone. *)
Lemma sstep_cases s s' :
  inv s → alive s → sstep cfg alloc_ok s s' →
  worker_step cfg alloc_ok s s' ∨ signal_step s s' ∨ quiet s s' ∨
  (sy_worker s = Looping ∧ runnable (qs_now (sy_core s)) (qs_consumer (sy_core s)) = false ∧
   s' = with_core (run_consumer (max_batch_size cfg) (max_wait cfg) (sy_core s)) s).
Proof.
  intros HI Ha Hs. pose proof (alive_joinable s HI Ha) as Hj.
  destruct Hs as [s d Hd|s r Hr|s s' Hs|s s' Hs|s Hw Hr|s i|s Hc|s Hc|s Hc|s Hc Hj'].
  - right; right; left. split; simpl; auto with lia.
  - right; right; left. apply submit_quiet.
  - by right; left.
  - by left.
  - by right; right; right.
  - right; right; left. by split.
  - right; right; left. destruct (si_ctrl _ _ _ _ s HI) as (Hrun & _).
    destruct (Hrun Hj) as [_ Hr]. unfold start. rewrite (Hr Hc). by split.
  - right; right; left. by split.
  - right; right; left. by split.
  - right; right; left. by split.
Qed.

Lemma quiet_waiting pc k s s' : quiet s s' → waiting pc k s → waiting pc k s'.
Proof.
  intros [Hw Hc Hd Hq _] (H1 & H2 & H3 & H4). unfold waiting, served in *. rewrite Hw, Hc, Hd. auto.
Qed.

Lemma quiet_holding k s s' : quiet s s' → holding k s → holding k s'.
Proof. intros [Hw Hc Hd _ _] (H1 & H2 & H3). unfold holding, served in *. by rewrite Hw, Hc, Hd. Qed.

Lemma quiet_executing k s s' : quiet s s' → executing k s → executing k s'.
Proof. intros [Hw _ Hd _ _] (H1 & H2). unfold executing, served in *. by rewrite Hw, Hd. Qed.

(** Steps of the system only add to the accepted requests and never undo [start]. *)
Lemma sstep_accepted s s' :
  sstep cfg alloc_ok s s' → qs_accepted (sy_core s) `prefix_of` qs_accepted (sy_core s').
Proof.
  intros Hs. apply sstep_core in Hs.
  induction Hs as [c|c c1 c2 Hc _ IH]; [done |]. etrans; [| exact IH].
  destruct Hc; simpl; try done; try (by apply prefix_app_r); unfold run_consumer; by destruct (wait_step _ _ _ _ _).
Qed.

(** ** The worker's own steps *)

Lemma run_awake k s :
  waiting (λ c, awake c ∨ asleep c) k s →
  (∃ d, waiting (window d) k (with_core (run_consumer (max_batch_size cfg) (max_wait cfg) (sy_core s)) s)) ∨
  holding k (with_core (run_consumer (max_batch_size cfg) (max_wait cfg) (sy_core s)) s).
Proof.
  intros (Hw & Hc & Hq & Hk).
  destruct (run_from_phase1 (max_batch_size cfg) (max_wait cfg) (sy_core s)) as [(Hq' & _ & _ & Hwin)|(b & Hb & Hne)];
    [lia | done | destruct Hc as [[Hc|Hc]|Hc]; eauto | left | right].
  - eexists. split_and!; simpl; [done | by eexists | done | by unfold served in *; simpl; rewrite run_delivered].
  - split_and!; simpl; [done | by exists b | by unfold served in *; simpl; rewrite run_delivered].
Qed.

Lemma run_window d k s :
  waiting (window d) k s →
  waiting (window d) k (with_core (run_consumer (max_batch_size cfg) (max_wait cfg) (sy_core s)) s) ∨
  holding k (with_core (run_consumer (max_batch_size cfg) (max_wait cfg) (sy_core s)) s).
Proof.
  intros (Hw & [n Hc] & Hq & Hk).
  destruct (run_window_cases (max_batch_size cfg) (max_wait cfg) (sy_core s) d n) as [[Hc' Hq']|(b & Hb & Hne)];
    [lia | done | done | left | right].
  - split_and!; simpl; [done | by eexists | done | by unfold served in *; simpl; rewrite run_delivered].
  - split_and!; simpl; [done | by exists b | by unfold served in *; simpl; rewrite run_delivered].
Qed.

(** A worker step inside [wait_and_drain] is its critical section. *)
Lemma worker_waiting pc k s s' :
  (∀ b, ¬ pc (Drained b)) → waiting pc k s → worker_step cfg alloc_ok s s' →
  runnable (qs_now (sy_core s)) (qs_consumer (sy_core s)) = true ∧
  s' = with_core (run_consumer (max_batch_size cfg) (max_wait cfg) (sy_core s)) s.
Proof.
  intros Hpc (Hw & Hc & _ & _) Hs. destruct Hs as [s Hw' Hr|s d Hw' Hd|s b t Hw']; [done | | congruence].
  rewrite Hd in Hc. by destruct (Hpc d).
Qed.

(** A drained batch is rejected as a whole or handed to the engine. *)
Lemma worker_holding k s s' :
  inv s' → holding k s → worker_step cfg alloc_ok s s' → executing k s' ∨ passed k s'.
Proof.
  intros HI' (Hw & (b & Hb & Hne) & Hk) Hs.
  destruct Hs as [s Hw' Hr|s d Hw' Hd|s b' t Hw']; [by rewrite Hb in Hr | | congruence].
  rewrite Hb in Hd. injection Hd as <-. apply si_worker in HI'. unfold begin_iteration, served in *.
  destruct b as [|r b]; [done |]. destruct (validate _ _ _) as [[[|r1 l] ps]|x|]; [| | done | done].
  - right. unfold passed, served, handover. simpl. rewrite Hb. simpl. rewrite length_app. simpl. lia.
  - left. split; simpl; eauto.
Qed.

(** The engine call ends with the batch handed over. *)
Lemma worker_executing k s s' :
  inv s → inv s' → executing k s → worker_step cfg alloc_ok s s' → passed k s'.
Proof.
  intros HI HI' ((b & t & Hw) & Hk) Hs. apply si_worker in HI, HI'. unfold worker_inv in HI. rewrite Hw in HI.
  destruct HI as (d & Hd & Hb & Hne).
  destruct Hs as [s Hw' Hr|s d' Hw' Hd'|s b' t' Hw']; [congruence | congruence |].
  rewrite Hw in Hw'. injection Hw' as <- <-. unfold end_iteration, passed, served in *.
  destruct (execute_batch _ _ _ _ _ _ _ _) as [[e st] [ps [u|x|]]]; [| done | done].
  unfold handover. simpl. rewrite Hd. simpl. rewrite length_app.
  destruct d; [by rewrite filter_nil in Hb | simpl; lia].
Qed.

(** ** One batch *)

(** The run may be one of a finer system, observed through states of this one that agree on
    the queue. *)
Section Run.
Context {T : Type} (view : T → sys E → Prop) (e : nat → T).
Hypothesis Hrun : observed_run view e reach (sstep cfg alloc_ok) (λ s, qs_now (sy_core s)).
Hypothesis Hworker : fair_rule view e reach (sstep cfg alloc_ok) (worker_step cfg alloc_ok).
Hypothesis Hsignal : fair_rule view e reach (sstep cfg alloc_ok) signal_step.
Hypothesis Hcore : ∀ t s s', view t s → view t s' → sy_core s = sy_core s'.

Local Notation "P ⇝ Q" := (leads_to e (seen view P) (seen view Q)) (at level 70, no associativity).

(** The rule for the worker's fairness. *)
Lemma worker_leads_to P Q :
  (∀ s, P s → alive s) →
  (∀ s, reach s → P s → ∃ s', worker_step cfg alloc_ok s s') →
  (∀ s s', inv s → inv s' → P s → worker_step cfg alloc_ok s s' → Q s') →
  (∀ s s', P s → signal_step s s' → P s' ∨ Q s') →
  (∀ s s', P s → quiet s s' → P s') →
  (∀ s, P s → sy_worker s = Looping → runnable (qs_now (sy_core s)) (qs_consumer (sy_core s)) = false →
     P (with_core (run_consumer (max_batch_size cfg) (max_wait cfg) (sy_core s)) s) ∨
     Q (with_core (run_consumer (max_batch_size cfg) (max_wait cfg) (sy_core s)) s)) →
  P ⇝ Q.
Proof.
  intros Hal' Hen Hw Hsig Hq Hsp. apply (Hworker P Q Hen).
  - intros s s' Hs Hs' HP Hst. apply (Hw s s'); [by apply reach_inv | by apply reach_inv | done | done].
  - intros s s' Hs Hs' HP Hst.
    destruct (sstep_cases s s' (reach_inv s Hs) (Hal' s HP) Hst) as [Hst'|[Hst'|[Hst'|(Hl & Hr & ->)]]].
    + right. apply (Hw s s'); [by apply reach_inv | by apply reach_inv | done | done].
    + by eapply Hsig.
    + left. by eapply Hq.
    + by apply Hsp.
Qed.

Lemma executing_leads_to k : executing k ⇝ passed k.
Proof.
  apply worker_leads_to.
  - intros s [Hw _]. by right.
  - intros s _ [(b & t & Hw) _]. eexists. by eapply ws_end.
  - intros s s'. apply worker_executing.
  - intros s s' HP Hs. destruct Hs. by left.
  - intros s s' HP Hq. by eapply quiet_executing.
  - intros s [(b & t & Hw) _] Hl. congruence.
Qed.

Lemma holding_leads_to k : holding k ⇝ passed k.
Proof.
  apply (seen_via view e _ (executing k)); [| apply executing_leads_to]. apply worker_leads_to.
  - intros s [Hw _]. by left.
  - intros s _ (Hw & (b & Hb & _) & _). eexists. by eapply ws_begin.
  - intros s s' _. apply worker_holding.
  - intros s s' (Hw & (b & Hb & Hne) & Hk) Hs. destruct Hs. left. split_and!; simpl; [done | | done]. exists b. by rewrite Hb.
  - intros s s' HP Hq. by eapply quiet_holding.
  - intros s (Hw & (b & Hb & Hne) & Hk) _ _. left. unfold run_consumer, wait_step. rewrite Hb.
    split_and!; simpl; [done | by exists b | done].
Qed.

(** While the window is open, only its closing ends it. *)
Lemma window_unless d k s s' :
  reach s → reach s' → waiting (window d) k s → sstep cfg alloc_ok s s' →
  waiting (window d) k s' ∨ holding k s'.
Proof.
  intros Hs Hs' HP Hst. assert (Ha : alive s) by (left; apply HP).
  destruct (sstep_cases s s' (reach_inv s Hs) Ha Hst) as [Hst'|[Hst'|[Hst'|(Hl & Hr & ->)]]].
  - apply (worker_waiting (window d) k) in Hst' as [_ ->]; [by apply run_window | by intros b [n ?] | done].
  - left. destruct Hst' as [s n Hn]. destruct HP as (Hw & [m Hc] & Hq & Hk).
    split_and!; simpl; [done | rewrite Hc; by eexists | done | done].
  - left. by eapply quiet_waiting.
  - by apply run_window.
Qed.

Lemma window_leads_to d k : waiting (window d) k ⇝ passed k.
Proof.
  apply (seen_via view e _ (λ s, (waiting (window d) k s ∧ d ≤ qs_now (sy_core s)) ∨ holding k s)).
  { etrans; [apply (seen_clock view e reach (sstep cfg alloc_ok) _ _ (holding k) d Hrun) |].
    - intros s s' Hs Hs' HP. by apply (window_unless d k s s').
    - apply seen_impl. auto. }
  apply seen_or; [| apply holding_leads_to]. etrans; [| apply holding_leads_to]. apply worker_leads_to.
  - intros s [[Hw _] _]. by left.
  - intros s _ [(Hw & [n Hc] & _) Hd]. eexists. apply ws_wait; [done |]. rewrite Hc. simpl.
    apply orb_true_iff. right. by apply Z.leb_le.
  - intros s s' _ _ [HP Hd] Hst. apply (worker_waiting (window d) k) in Hst as [_ ->]; [| by intros b [n ?] | done].
    destruct HP as (Hw & [n Hc] & Hq & Hk).
    destruct (run_from_window (max_batch_size cfg) (max_wait cfg) (sy_core s) d n) as (b & Hb & Hne); [lia | done.. |].
    split_and!; simpl; [done | by exists b | by unfold served in *; simpl; rewrite run_delivered].
  - intros s s' [(Hw & [m Hc] & Hq & Hk) Hd] Hs. destruct Hs. left. split; [| done].
    split_and!; simpl; [done | rewrite Hc; by eexists | done | done].
  - intros s s' [HP Hd] Hq. split; [by eapply quiet_waiting |]. apply qt_now in Hq. lia.
  - intros s [(Hw & [n Hc] & _) Hd] _ Hr. rewrite Hc in Hr. simpl in Hr. bool_to_prop. lia.
Qed.

Lemma awake_leads_to k : waiting awake k ⇝ passed k.
Proof.
  apply (seen_via view e _ (λ s, (∃ d, waiting (window d) k s) ∨ holding k s)).
  2: { apply seen_or; [apply seen_exists; intros d; apply window_leads_to | apply holding_leads_to]. }
  apply worker_leads_to.
  - intros s [Hw _]. by left.
  - intros s _ (Hw & Hc & _). eexists. apply ws_wait; [done |]. by destruct Hc as [-> | ->].
  - intros s s' _ _ HP Hst. left. apply (worker_waiting awake k) in Hst as [_ ->]; [| by intros b [?|?] | done].
    apply run_awake. destruct HP as (? & ? & ?). split_and!; auto; tauto.
  - intros s s' (Hw & Hc & Hq & Hk) Hs. destruct Hs. left. split_and!; simpl; [done | | done | done].
    destruct Hc as [-> | ->]; [by left | by right].
  - intros s s' HP Hq. by eapply quiet_waiting.
  - intros s (Hw & Hc & _) _ Hr. by destruct Hc as [Hc|Hc]; rewrite Hc in Hr.
Qed.

(** A sleeping worker is woken by the notification that is under way. *)
Lemma asleep_leads_to k : waiting asleep k ⇝ passed k.
Proof.
  apply (seen_via view e _ (λ s, waiting awake k s ∨ ((∃ d, waiting (window d) k s) ∨ holding k s))).
  2: { apply seen_or; [apply awake_leads_to |].
       apply seen_or; [apply seen_exists; intros d; apply window_leads_to | apply holding_leads_to]. }
  apply Hsignal.
  - intros s Hs (Hw & Hc & Hq & _). apply sreachable_core, reachable_wakeup in Hs.
    unfold wakeup_inv in Hs. rewrite Hc in Hs. unfold phase1_ready in Hs.
    rewrite (proj2 (queue_empty_false _) Hq) in Hs. specialize (Hs eq_refl).
    destruct (qs_signals (sy_core s)) as [|n] eqn:Hn; [lia |]. eexists. by eapply ss_signal.
  - intros s s' _ _ (Hw & Hc & Hq & Hk) Hs. destruct Hs. left. left.
    split_and!; simpl; [done | rewrite Hc; by right | done | done].
  - intros s s' Hs Hs' HP Hst. assert (Ha : alive s) by (left; apply HP).
    assert (Hphase1 : waiting (λ c, awake c ∨ asleep c) k s) by (destruct HP as (? & ? & ?); split_and!; auto; tauto).
    destruct (sstep_cases s s' (reach_inv s Hs) Ha Hst) as [Hst'|[Hst'|[Hst'|(Hl & Hr & ->)]]].
    + apply (worker_waiting asleep k) in Hst' as [Hr _]; [| by intros b ? | done].
      destruct HP as (_ & Hc & _). by rewrite Hc in Hr.
    + right. left. left. destruct Hst'. destruct HP as (Hw & Hc & Hq & Hk).
      split_and!; simpl; [done | rewrite Hc; by right | done | done].
    + left. by eapply quiet_waiting.
    + right. left. right. by apply run_awake.
Qed.

(** ** Every accepted request *)

(** Request number [i] of those accepted is not served yet. *)
Definition outstanding (i : nat) (s : sys E) : Prop :=
  sy_worker s ≠ NotStarted ∧ (i < length (qs_accepted (sy_core s)))%nat ∧ (served s ≤ i)%nat.

Lemma outstanding_cases i s :
  reach s → outstanding i s →
  executing (served s) s ∨ holding (served s) s ∨ waiting awake (served s) s ∨
  waiting asleep (served s) s ∨ (∃ d, waiting (window d) (served s) s).
Proof.
  intros Hs (Hns & Hi & Hle). pose proof (reach_inv s Hs) as HI.
  apply sreachable_core in Hs. pose proof (reachable_fifo _ _ _ Hs) as Hfifo.
  apply reachable_window in Hs as [_ Hwin]. apply si_worker in HI. unfold fifo_inv in Hfifo. unfold worker_inv in HI.
  assert (Hne : in_hand (qs_consumer (sy_core s)) ++ queue_ (qs_queue (sy_core s)) ≠ []).
  { intros Hnil. rewrite Hnil, app_nil_r in Hfifo. unfold served in Hle. rewrite Hfifo in Hi. lia. }
  assert (Hnil : qs_consumer (sy_core s) = Drained [] → False).
  { intros Hc. rewrite Hc in Hwin, Hne. destruct Hwin as (_ & Hw & _). destruct (Hw eq_refl) as [?|[_ Hq]]; [lia |].
    by rewrite Hq in Hne. }
  destruct (sy_worker s) as [| |b t| |] eqn:Hw; [done | right | left; split; eauto | by destruct Hnil | done].
  unfold waiting, holding. rewrite Hw.
  destruct (qs_consumer (sy_core s)) as [|[]|d n|b] eqn:Hc; simpl in Hne.
  - right; left. split_and!; [done | by left | done | done].
  - right; left. split_and!; [done | by right | done | done].
  - do 2 right; left. split_and!; done.
  - do 3 right. exists d. split_and!; [done | by exists n | done | done].
  - left. split_and!; [done | | done]. exists b. split; [done |]. intros ->. by destruct Hnil.
Qed.

Lemma outstanding_unless i s s' :
  outstanding i s → sstep cfg alloc_ok s s' → outstanding i s' ∨ passed i s'.
Proof.
  intros (Hns & Hi & Hle) Hst. destruct (le_lt_dec (served s') i) as [Hle'|]; [left | by right].
  split_and!; [by eapply started_step | | done].
  apply sstep_accepted, prefix_length in Hst. lia.
Qed.

(** The next batch is served, and then the one after it. *)
Lemma observed_passed i : outstanding i ⇝ passed i.
Proof.
  apply (seen_measure view e _ _ (λ s, i - served s)%nat). intros k n (s & Hs & Ho & Hk).
  assert (Hnext : ∃ m, (n ≤ m)%nat ∧ seen view (passed (served s)) (e m)).
  { destruct (outstanding_cases i s (or_inv _ _ _ _ _ Hrun n s Hs) Ho) as [H|[H|[H|[H|[d H]]]]].
    - apply executing_leads_to. by exists s.
    - apply holding_leads_to. by exists s.
    - apply awake_leads_to. by exists s.
    - apply asleep_leads_to. by exists s.
    - apply (window_leads_to d). by exists s. }
  destruct Hnext as (m & Hm & s' & Hs' & Hp).
  destruct (unless_until e (seen view (outstanding i)) (seen view (passed i)) n m) as [(s2 & Hs2 & Ho2)|(j & Hj & s2 & Hs2 & Hp2)];
    [| by exists s | done | |].
  - apply (or_unless _ _ _ _ _ Hrun). intros s1 s2 _ _. apply outstanding_unless.
  - exists m. split; [done |]. exists s2. split; [done |]. left. split; [done |].
    unfold passed, served in *. rewrite (Hcore (e m) s' s2) in Hp by done. destruct Ho2 as (_ & _ & Hle).
    unfold served in Hle. lia.
  - exists j. split; [lia |]. exists s2. auto.
Qed.

(** A request that has been served is resolved. *)
Lemma passed_resolved i r s :
  reach s → qs_accepted (sy_core s) !! i = Some r → passed i s → resolved row errors cfg (sy_store s) r.
Proof.
  intros Hs Hi Hp. pose proof (reach_inv s Hs) as HI. apply sreachable_core, reachable_fifo in Hs. unfold fifo_inv in Hs.
  unfold passed, served in Hp. rewrite Hs, lookup_app_l in Hi by done.
  pose proof (si_done _ _ _ _ s HI) as Hd. rewrite Forall_forall in Hd. apply Hd.
  unfold done_list. apply elem_of_app. left. by eapply list_elem_of_lookup_2.
Qed.

(** ** [stop] *)

(** The worker's thread can take a step. *)
Definition ready (s : sys E) : Prop :=
  match sy_worker s with
  | Looping =>
      runnable (qs_now (sy_core s)) (qs_consumer (sy_core s)) = true ∨ ∃ b, qs_consumer (sy_core s) = Drained b
  | Executing _ _ => True
  | _ => False
  end.

Lemma ready_dec s : {ready s} + {¬ ready s}.
Proof.
  unfold ready. destruct (sy_worker s); [right; by intros [] | | by left | right; by intros [] | right; by intros []].
  destruct (runnable _ _); [by left; left |].
  destruct (qs_consumer (sy_core s)) as [| | |b]; [right..| left; right; by exists b]; by intros [?|[b ?]].
Defined.

Lemma ready_alive s : ready s → alive s.
Proof. unfold ready, alive. destruct (sy_worker s); eauto; done. Qed.

Lemma ready_enabled s : ready s → ∃ s', worker_step cfg alloc_ok s s'.
Proof.
  unfold ready. destruct (sy_worker s) as [| |b t| |] eqn:Hw; try done.
  - intros [Hr|[b Hb]]; eexists; [by apply ws_wait | by eapply ws_begin].
  - intros _. eexists. by eapply ws_end.
Qed.

Lemma runnable_mono now now' c : now ≤ now' → runnable now c = true → runnable now' c = true.
Proof.
  intros Hle. destruct c as [| |d n|]; simpl; try done. rewrite !orb_true_iff, !Z.leb_le. intuition lia.
Qed.

(** Steps of other threads leave it so. *)
Lemma ready_unless s s' :
  inv s → ready s → sstep cfg alloc_ok s s' → ready s' ∨ worker_step cfg alloc_ok s s'.
Proof.
  intros HI Hr Hst. destruct (sstep_cases s s' HI (ready_alive s Hr) Hst) as [Hs|[Hs|[Hs|(Hl & Hno & ->)]]];
    [by right | left..]; unfold ready in *.
  - destruct Hs. simpl. destruct (sy_worker s); try exact Hr. destruct Hr as [Hr|[b Hb]]; [left | right; exists b].
    + by destruct (qs_consumer (sy_core s)).
    + by rewrite Hb.
  - destruct Hs as [Hw Hc _ _ Hn]. rewrite Hw, Hc. destruct (sy_worker s); try exact Hr.
    destruct Hr as [Hr|Hr]; [left | by right]. by eapply runnable_mono.
  - rewrite Hl in Hr. destruct Hr as [Hr|[b Hb]]; [congruence |]. simpl. rewrite Hl.
    right. exists b. unfold run_consumer, wait_step. by rewrite Hb.
Qed.

Definition joined (s : sys E) : Prop := sy_joinable s = false ∨ sy_worker s = Exited.
#[local] Instance joined_dec s : Decision (joined s) := _.

(** [stop] waits in [join], with at most [k] steps of the worker to wait for. *)
Definition joining (k : nat) (s : sys E) : Prop :=
  sy_ctrl s = StopJoining ∧ ¬ joined s ∧ (stop_rank s ≤ k)%nat.
Definition join_ready (s : sys E) : Prop := sy_ctrl s = StopJoining ∧ joined s.

(** Steps while [join] waits: the rank does not grow, worker and notifications reduce it. *)
Lemma joining_step k s s' :
  reach s → joining k s → sstep cfg alloc_ok s s' → joining (stop_rank s) s' ∨ join_ready s'.
Proof.
  intros Hr (Hc & Hj & _) Hst.
  pose proof (stop_rank_step good max_rows row errors cfg alloc_ok Hmax Hoe Hfit Hal s s' (conj Hr Hc) Hst) as Hle.
  assert (Hc' : sy_ctrl s' = StopJoining).
  { destruct Hst as [s d Hd|s r Hr'|s s' Hs|s s' Hs|s Hw Hr'|s i|s Hc'|s Hc'|s Hc'|s Hc' Hj']; try done; try congruence.
    - unfold submit_step. by destruct (submit _ _ _) as [[q ps] o].
    - by destruct Hs.
    - destruct Hs; simpl; by rewrite ?begin_ctrl, ?end_ctrl. }
  destruct (decide (joined s')); [by right | by left].
Qed.

Lemma joining_drive k s s' :
  reach s → joining k s → drive cfg alloc_ok s s' → (∃ j, (j < k)%nat ∧ joining j s') ∨ join_ready s'.
Proof.
  intros Hr HJ Hd.
  assert (Hst : sstep cfg alloc_ok s s') by (destruct Hd; [by apply st_worker | by apply st_signal]).
  destruct (joining_step k s s' Hr HJ Hst) as [(Hc & Hj & _)|]; [left | by right].
  pose proof (stop_rank_drive good max_rows row errors cfg alloc_ok Hmax Hoe Hfit Hal s s') as Hlt.
  destruct HJ as (HcJ & _ & Hk). specialize (Hlt (conj Hr HcJ) Hd). exists (stop_rank s'). split; [lia | done].
Qed.

Lemma joining_weaken j k s : (j ≤ k)%nat → joining j s → joining k s.
Proof. intros Hle (H1 & H2 & H3). split_and!; [done | done | lia]. Qed.

(** When the worker can run, it does, and the rank goes down. *)
Lemma joining_ready_leads_to k :
  (λ s, joining k s ∧ ready s) ⇝ (λ s, (∃ j, (j < k)%nat ∧ joining j s) ∨ join_ready s).
Proof.
  apply Hworker.
  - intros s _ [_ Hr]. by apply ready_enabled.
  - intros s s' Hs _ [HJ _] Hst. eapply joining_drive; [done | exact HJ | by left].
  - intros s s' Hs _ [HJ Hr] Hst. destruct (ready_unless s s' (reach_inv s Hs) Hr Hst) as [Hr'|Hw].
    + destruct (joining_step k s s' Hs HJ Hst) as [HJ'|]; [left | by right; right].
      split; [| done]. eapply joining_weaken; [| exact HJ']. apply HJ.
    + right. eapply joining_drive; [done | exact HJ | by left].
Qed.

(** Otherwise a notification is under way. *)
Lemma joining_signal s k : reach s → joining k s → ready s ∨ ∃ s', signal_step s s'.
Proof.
  intros Hs (Hc & Hj & _).
  destruct (stopping_enabled good max_rows row errors cfg alloc_ok Hmax Hoe Hfit Hal s (conj Hs Hc)) as [s' [Hd|Hd]].
  - destruct (sy_joinable s) eqn:Hb; [done |]. destruct Hj. by left.
  - intros Hw. destruct Hj. by right.
  - left. unfold ready. destruct Hd as [s Hw Hr|s d Hw Hd|s b t Hw]; rewrite Hw; eauto.
  - right. by eexists.
Qed.

Lemma joining_leads_to k :
  joining k ⇝ (λ s, (∃ j, (j < k)%nat ∧ joining j s) ∨ join_ready s).
Proof.
  apply (seen_via view e _ (λ s, joining k s ∧ ready s)); [| apply joining_ready_leads_to].
  intros n (s & Hs & HJ).
  assert (Hl : (λ s, joining k s ∧ ¬ ready s) ⇝
    (λ s, (joining k s ∧ ready s) ∨ ((∃ j, (j < k)%nat ∧ joining j s) ∨ join_ready s))).
  { apply Hsignal.
    - intros s1 Hs1 [HJ1 Hno]. by destruct (joining_signal s1 k Hs1 HJ1).
    - intros s1 s' Hs1 _ [HJ1 _] Hst. right. eapply joining_drive; [done | exact HJ1 | by right].
    - intros s1 s' Hs1 _ [HJ1 Hr] Hst. destruct (joining_step k s1 s' Hs1 HJ1 Hst) as [HJ'|]; [| by right; right; right].
      apply (joining_weaken _ k) in HJ'; [| apply HJ1]. destruct (ready_dec s'); [by right; left | by left]. }
  destruct (ready_dec s) as [Hr|Hr]; [exists n; split; [done |]; exists s; auto |]. apply Hl. by exists s.
Qed.

Lemma join_leads_to k : joining k ⇝ join_ready.
Proof.
  induction (lt_wf k) as [k _ IH]. apply (seen_via view e _ (λ s, ∃ j, (j < k)%nat ∧ joining j s)).
  - apply joining_leads_to.
  - apply seen_exists. intros j n (s & Hs & Hj & HJ). apply (IH j Hj). by exists s.
Qed.

(** The controlling thread inside [stop]. *)
Inductive ctrl_step : sys E → sys E → Prop :=
  | ct_shutdown s : sy_ctrl s = StopCleared → ctrl_step s (stop_shutdown s)
  | ct_return s : join_ready s → ctrl_step s (stop_return s).

Definition stop_returned (s : sys E) : Prop :=
  sy_ctrl s = CtrlIdle ∧ sy_joinable s = false ∧ sy_running s = false.

(** Inside [stop], other threads do not touch the members it uses. *)
Lemma ctrl_unless s s' :
  sy_ctrl s ≠ CtrlIdle → sstep cfg alloc_ok s s' → ctrl_step s s' ∨ (sy_ctrl s' = sy_ctrl s ∧ (joined s → joined s')).
Proof.
  intros Hc Hst. destruct Hst as [s d Hd|s r Hr'|s s' Hs|s s' Hs|s Hw Hr'|s i|s Hc'|s Hc'|s Hc'|s Hc' Hj'];
    try (by right); try congruence.
  - right. unfold submit_step. by destruct (submit _ _ _) as [[q ps] o].
  - right. by destruct Hs.
  - right. unfold joined. destruct Hs as [s Hw Hr|s d Hw Hd|s b t Hw]; rewrite ?begin_ctrl, ?end_ctrl; (split; [done |]).
    + done.
    + intros [Hj|Hj]; [left | congruence]. unfold begin_iteration. destruct d; [by destruct (sy_running s) |].
      by destruct (validate _ _ _) as [[[|] ?]|?|].
    + intros [Hj|Hj]; [left | congruence]. unfold end_iteration.
      by destruct (execute_batch _ _ _ _ _ _ _ _) as [[? ?] [? []]].
  - left. by apply ct_shutdown.
  - left. by apply ct_return.
Qed.

Lemma observed_stop :
  fair_rule view e reach (sstep cfg alloc_ok) ctrl_step → (λ s, sy_ctrl s ≠ CtrlIdle) ⇝ stop_returned.
Proof.
  intros Hfc.
  assert (Hret : join_ready ⇝ stop_returned).
  { apply Hfc.
    - intros s _ HJ. eexists. by apply ct_return.
    - intros s s' Hs _ [Hc Hj] Hst. destruct Hst as [s Hc'|s _]; [congruence |].
      apply reach_inv, si_ctrl in Hs as (_ & _ & Hrn & _). split_and!; simpl; [done | done |]. apply Hrn. by rewrite Hc.
    - intros s s' Hs _ [Hc Hj] Hst. destruct (ctrl_unless s s') as [Hct|[Hc' Hj']]; [by rewrite Hc | done | right | left].
      + destruct Hct as [s Hc'|s _]; [congruence |]. apply reach_inv, si_ctrl in Hs as (_ & _ & Hrn & _).
        split_and!; simpl; [done | done |]. apply Hrn. by rewrite Hc.
      + split; [by rewrite Hc' | auto]. }
  assert (Hjoin : (λ s, sy_ctrl s = StopJoining) ⇝ stop_returned).
  { etrans; [| exact Hret]. intros n (s & Hs & Hc).
    destruct (decide (joined s)) as [Hj|Hj]; [exists n; split; [done |]; by exists s |].
    apply (join_leads_to (stop_rank s)). by exists s. }
  assert (Hclr : (λ s, sy_ctrl s = StopCleared) ⇝ stop_returned).
  { etrans; [| exact Hjoin]. apply Hfc.
    - intros s _ Hc. eexists. by apply ct_shutdown.
    - intros s s' _ _ Hc Hst. destruct Hst as [s _|s [Hc' _]]; [done | congruence].
    - intros s s' _ _ Hc Hst. destruct (ctrl_unless s s') as [Hct|[Hc' _]]; [by rewrite Hc | done | right | left].
      + destruct Hct as [s _|s [Hc' _]]; [done | congruence].
      + by rewrite Hc'. }
  intros n (s & Hs & Hn). destruct (sy_ctrl s) eqn:Hc; [done | apply Hclr; by exists s | apply Hjoin; by exists s].
Qed.
End Run.

(** ** Fair runs of the system itself *)

Section Fair.
Context (e : nat → sys E) (Hf : fair_run e) (H0 : reach (e 0%nat)).

Lemma run_reach n : reach (e n).
Proof. eapply execution_reachable; [apply Hf | done]. Qed.

Lemma fair_observed : observed_run eq e reach (sstep cfg alloc_ok) (λ s, qs_now (sy_core s)).
Proof. apply itself_observed; [apply Hf | exact run_reach | apply Hf]. Qed.

Lemma fair_fair act : weakly_fair act e → fair_rule eq e reach (sstep cfg alloc_ok) act.
Proof. apply itself_fair; [apply Hf | exact run_reach]. Qed.

Lemma outstanding_leads_to i : leads_to e (outstanding i) (passed i).
Proof.
  apply leads_to_itself, observed_passed; [exact fair_observed | apply fair_fair, Hf | apply fair_fair, Hf |].
  by intros t s s' <- <-.
Qed.

Lemma stop_leads_to : weakly_fair ctrl_step e → leads_to e (λ s, sy_ctrl s ≠ CtrlIdle) stop_returned.
Proof.
  intros Hfc. apply leads_to_itself, observed_stop; [apply fair_fair, Hf | apply fair_fair, Hf | by apply fair_fair].
Qed.
End Fair.
End Liveness.

(** What the theorem on answers says, for use in proofs. *)
Lemma request_answered (E : Type) (HE : IExecutionEngine E) (good : E → Prop)
  (max_rows : Z) (row : list float → list float) (errors : exn → Prop) (cfg : SchedulerConfig) (alloc_ok : nat → bool)
  (e : nat → sys E) (n : nat) (r : InferenceRequest)
  (HC : EngineContract E good max_rows (input_elems cfg) (output_elems cfg) row errors)
  (Hmax : 0 < max_batch_size cfg ≤ max_rows) (Hoe : 0 ≤ output_elems cfg)
  (Hfit : max_rows * output_elems cfg < two64) (Hal : ∀ i, alloc_ok i = true)
  (Hf : fair_run cfg alloc_ok e) (H0 : sreachable cfg alloc_ok good (e 0%nat))
  (Hw : sy_worker (e n) ≠ NotStarted) (Hin : r ∈ qs_accepted (sy_core (e n))) :
  ∃ m f, (n ≤ m)%nat ∧ resolution row errors cfg r f ∧
    ∀ k, (m ≤ k)%nat → state_of (sy_store (e k)) (result_promise r) = Some f.
Proof.
  apply list_elem_of_lookup in Hin as [i Hi].
  assert (Hp : ∃ m, (n ≤ m)%nat ∧ passed i (e m)).
  { destruct (le_lt_dec (served (e n)) i) as [Hle|Hlt]; [| by exists n].
    apply (outstanding_leads_to good max_rows row errors cfg alloc_ok Hmax Hoe Hfit Hal e Hf H0 i).
    split_and!; [done | by eapply lookup_lt_Some | done]. }
  destruct Hp as (m & Hm & Hp).
  assert (Hacc : qs_accepted (sy_core (e m)) !! i = Some r).
  { apply (prefix_lookup_Some _ _ _ _ Hi). clear Hp. induction Hm as [|m Hm IH]; [done |]. etrans; [exact IH |].
    destruct (fr_exec _ _ e Hf m) as [Hs| ->]; [by eapply sstep_accepted | done]. }
  destruct (passed_resolved good max_rows row errors cfg alloc_ok Hmax Hoe Hfit Hal i r (e m)) as (f & Hst & Hres);
    [by eapply execution_reachable; [apply Hf |] | done | done |].
  exists m, f. split_and!; [done | done |]. intros k Hk. induction Hk as [|k Hk IH]; [done |].
  destruct (fr_exec _ _ e Hf k) as [Hs| ->]; [| done]. eapply sstep_store_le; [exact Hs | exact IH |]. by intros ->.
Qed.

(** ** Properties *)

(** Every request is answered. In every fair run of the scheduler, whatever producers,
    resets, [start] and [stop] do meanwhile, a request that was accepted while the worker
    exists is resolved at some point, with the engine's row for its own input or with the
    exception that is due, and its future holds that result for ever after. *)
Theorem every_request_answered (E : Type) (HE : IExecutionEngine E) (good : E → Prop)
  (max_rows : Z) (row : list float → list float) (errors : exn → Prop) (cfg : SchedulerConfig) (alloc_ok : nat → bool)
  (e : nat → sys E) (n : nat) (r : InferenceRequest)
  (HC : EngineContract E good max_rows (input_elems cfg) (output_elems cfg) row errors)
  (Hmax : 0 < max_batch_size cfg ≤ max_rows) (Hoe : 0 ≤ output_elems cfg)
  (Hfit : max_rows * output_elems cfg < two64) (Hal : ∀ i, alloc_ok i = true)
  (Hf : fair_run cfg alloc_ok e) (H0 : sreachable cfg alloc_ok good (e 0%nat))
  (Hw : sy_worker (e n) ≠ NotStarted) (Hin : r ∈ qs_accepted (sy_core (e n))) :
  ∃ m f, (n ≤ m)%nat ∧ resolution row errors cfg r f ∧
    ∀ k, (m ≤ k)%nat → state_of (sy_store (e k)) (result_promise r) = Some f.
Proof. by eapply request_answered. Qed.

(** [stop] returns. In every fair run in which the thread inside [stop] is scheduled
    fairly too, a call of [stop] (from clearing [running_] on) comes back; at that point
    the worker has been joined, and unless it was never started it has left nothing
    behind: the deque is empty and every accepted request is resolved. *)
Theorem stop_returns_eventually (E : Type) (HE : IExecutionEngine E) (good : E → Prop)
  (max_rows : Z) (row : list float → list float) (errors : exn → Prop) (cfg : SchedulerConfig) (alloc_ok : nat → bool)
  (e : nat → sys E) (n : nat)
  (HC : EngineContract E good max_rows (input_elems cfg) (output_elems cfg) row errors)
  (Hmax : 0 < max_batch_size cfg ≤ max_rows) (Hoe : 0 ≤ output_elems cfg)
  (Hfit : max_rows * output_elems cfg < two64) (Hal : ∀ i, alloc_ok i = true)
  (Hf : fair_run cfg alloc_ok e) (Hfc : weakly_fair ctrl_step e)
  (H0 : sreachable cfg alloc_ok good (e 0%nat)) (Hc : sy_ctrl (e n) ≠ CtrlIdle) :
  ∃ m, (n ≤ m)%nat ∧ sy_ctrl (e m) = CtrlIdle ∧ sy_joinable (e m) = false ∧ sy_running (e m) = false ∧
    (sy_worker (e m) = NotStarted ∨
     (sy_worker (e m) = Exited ∧ queue_ (qs_queue (sy_core (e m))) = [] ∧
      Forall (resolved row errors cfg (sy_store (e m))) (qs_accepted (sy_core (e m))))).
Proof.
  destruct (stop_leads_to good max_rows row errors cfg alloc_ok Hmax Hoe Hfit Hal e Hf H0 Hfc n Hc)
    as (m & Hm & H1 & H2 & H3).
  exists m. split_and!; try done.
  apply (stopped_state good max_rows row errors cfg alloc_ok Hmax Hoe Hfit Hal); [| done].
  by eapply execution_reachable; [apply Hf |].
Qed.

(** ** Witnesses: the run of [System]'s demonstration, continued for ever *)

Definition demo_signal (s : sys StubExecutionEngine) : sys StubExecutionEngine :=
  with_core {| qs_queue := qs_queue (sy_core s); qs_now := qs_now (sy_core s);
               qs_consumer := notify (qs_consumer (sy_core s)); qs_signals := pred (qs_signals (sy_core s));
               qs_accepted := qs_accepted (sy_core s); qs_delivered := qs_delivered (sy_core s);
               qs_opened := qs_opened (sy_core s) |} s.

(** Two good requests and a mis-sized one are submitted, served, and the scheduler is
    stopped; then the notifications still under way arrive. *)
Definition demo_path : list (sys StubExecutionEngine) :=
  [start demo_sys0; demo_window; demo_tick 50000000 demo_window; demo_taken; demo_executing; demo_served;
   stop_clear demo_served; demo_joining; demo_run demo_joining; demo_exited; demo_stopped;
   demo_signal demo_stopped; demo_signal (demo_signal demo_stopped);
   demo_signal (demo_signal (demo_signal demo_stopped))].

Definition demo_rest : sys StubExecutionEngine :=
  demo_signal (demo_signal (demo_signal (demo_signal demo_stopped))).

(** From then on only time passes. *)
Definition demo_execution (n : nat) : sys StubExecutionEngine :=
  match demo_path !! n with
  | Some s => s
  | None => demo_tick (Z.of_nat (n - 14)) demo_rest
  end.

Lemma demo_execution_rest n : (14 ≤ n)%nat → demo_execution n = demo_tick (Z.of_nat (n - 14)) demo_rest.
Proof. intros Hn. unfold demo_execution. by rewrite lookup_ge_None_2. Qed.

Lemma demo_tick_tick d d' s : demo_tick d' (demo_tick d s) = demo_tick (d + d') s.
Proof. destruct s as [[] ? ? ? ? ? ? ?]. unfold demo_tick, with_core. simpl. by rewrite Z.add_assoc. Qed.

Lemma demo_signal_step s n : qs_signals (sy_core s) = S n → demo_step s (demo_signal s).
Proof.
  intros Hn. apply st_signal. unfold demo_signal. rewrite Hn. by apply ss_signal.
Qed.

Lemma demo_execution_runs : execution demo_step demo_execution.
Proof.
  intros n. destruct (le_lt_dec 14 n) as [Hn|Hn].
  - left. rewrite !demo_execution_rest by lia.
    replace (Z.of_nat (S n - 14)) with (Z.of_nat (n - 14) + 1) by lia. rewrite <- demo_tick_tick. by apply st_tick.
  - left. destruct n as [|[|[|[|[|[|[|[|[|[|[|[|[|[|n]]]]]]]]]]]]]]; [.. | lia]; unfold demo_execution; simpl lookup; cbv iota.
    + apply st_worker, ws_wait; vm_compute; reflexivity.
    + by apply st_tick.
    + apply st_worker, ws_wait; vm_compute; reflexivity.
    + apply st_worker, ws_begin; vm_compute; reflexivity.
    + apply st_worker, ws_end; vm_compute; reflexivity.
    + apply st_stop_clear; vm_compute; reflexivity.
    + apply st_stop_shutdown; vm_compute; reflexivity.
    + apply st_worker, ws_wait; vm_compute; reflexivity.
    + apply st_worker, ws_begin; vm_compute; reflexivity.
    + apply st_stop_return; [| right]; vm_compute; reflexivity.
    + apply (demo_signal_step _ 3); vm_compute; reflexivity.
    + apply (demo_signal_step _ 2); vm_compute; reflexivity.
    + apply (demo_signal_step _ 1); vm_compute; reflexivity.
    + change (demo_tick (Z.of_nat (14 - 14)) demo_rest) with demo_rest.
      apply (demo_signal_step _ 0); vm_compute; reflexivity.
Qed.

Lemma demo_exited_stays d : sy_worker (demo_tick d demo_rest) = Exited.
Proof. vm_compute. reflexivity. Qed.

Lemma demo_silent d : qs_signals (sy_core (demo_tick d demo_rest)) = 0%nat.
Proof. vm_compute. reflexivity. Qed.

Lemma demo_idle d : sy_ctrl (demo_tick d demo_rest) = CtrlIdle.
Proof. vm_compute. reflexivity. Qed.

Lemma demo_now d : qs_now (sy_core (demo_tick d demo_rest)) = 50000000 + d.
Proof. change (qs_now (sy_core demo_rest) + d = 50000000 + d). by f_equal. Qed.

(** An action that is not possible once everything has stopped is treated fairly. *)
Lemma demo_fair (act : sys StubExecutionEngine → sys StubExecutionEngine → Prop) :
  (∀ d s', ¬ act (demo_tick d demo_rest) s') → weakly_fair act demo_execution.
Proof.
  intros Hno n. exists (Nat.max n 14). split; [lia |]. right. rewrite demo_execution_rest by lia. apply Hno.
Qed.

Lemma demo_fair_run : fair_run demo_cfg (λ _, true) demo_execution.
Proof.
  split.
  - apply demo_execution_runs.
  - apply demo_fair. intros d s' Hs. pose proof (demo_exited_stays d). destruct Hs; congruence.
  - apply demo_fair. intros d s' Hs. pose proof (demo_silent d). destruct Hs; congruence.
  - intros n t. exists (Nat.max n (14 + Z.to_nat t))%nat. split; [lia |].
    rewrite demo_execution_rest, demo_now by lia. lia.
Qed.

Lemma demo_start_reachable :
  sreachable (E := StubExecutionEngine) demo_cfg (λ _, true) (λ _, True) (demo_execution 0).
Proof.
  apply demo_reachable.
  eapply rtc_l; [apply (st_submit _ _ _ (demo_request 1)); reflexivity |].
  eapply rtc_l; [apply (st_submit _ _ _ (demo_request 2)); reflexivity |].
  eapply rtc_l; [apply (st_submit _ _ _ demo_bad); reflexivity |].
  apply rtc_once. by apply st_start.
Qed.

Lemma every_request_answered_witness :
  ∃ m f, (0 ≤ m)%nat ∧ resolution (fit_row 1) (λ _, False) demo_cfg (demo_request 2) f ∧
    ∀ k, (m ≤ k)%nat → state_of (sy_store (demo_execution k)) (result_promise (demo_request 2)) = Some f.
Proof.
  apply (every_request_answered StubExecutionEngine _ (λ _, True) 4 (fit_row 1) (λ _, False) demo_cfg (λ _, true)
    demo_execution 0 (demo_request 2) demo_contract); try done.
  - apply demo_fair_run.
  - apply demo_start_reachable.
  - vm_compute. right. by left.
Defined.

Lemma stop_returns_eventually_witness :
  ∃ m, (6 ≤ m)%nat ∧ sy_ctrl (demo_execution m) = CtrlIdle ∧ sy_joinable (demo_execution m) = false ∧
    sy_running (demo_execution m) = false ∧
    (sy_worker (demo_execution m) = NotStarted ∨
     (sy_worker (demo_execution m) = Exited ∧ queue_ (qs_queue (sy_core (demo_execution m))) = [] ∧
      Forall (resolved (fit_row 1) (λ _, False) demo_cfg (sy_store (demo_execution m)))
        (qs_accepted (sy_core (demo_execution m))))).
Proof.
  apply (stop_returns_eventually StubExecutionEngine _ (λ _, True) 4 (fit_row 1) (λ _, False) demo_cfg (λ _, true)
    demo_execution 6 demo_contract); try done.
  - apply demo_fair_run.
  - apply demo_fair. intros d s' Hs. pose proof (demo_idle d). destruct Hs as [|s []]; congruence.
  - apply demo_start_reachable.
Defined.
