(* ===== verification/FineLiveness.v ===== *)
(** * Liveness of the worker loop access by access

    The theorems of [Liveness] for the system of [Delivery], in which every promise and
    every counter access of [run_loop] is a step of its own: the fair runs of that system
    are runs observed through the matching states of [System], so its arguments apply. *)

From Stdlib Require Import ZArith Lia.
From stdpp Require Import base numbers strings relations gmap list.
From S2P Require Import Prelude Machine Fairness Request RequestQueue Engine Scheduler Counters System.
From S2P Require Import Delivery Accounting Liveness.

Section Fine.
Context {E : Type} `{HE : IExecutionEngine E} (good : E → Prop) (max_rows : Z)
  (row : list float → list float) (errors : exn → Prop) (cfg : SchedulerConfig) (alloc_ok : nat → bool).
Context `{HC : !EngineContract E good max_rows (input_elems cfg) (output_elems cfg) row errors}.
Hypothesis Hmax : 0 < max_batch_size cfg ≤ max_rows.
Hypothesis Hoe : 0 ≤ output_elems cfg.
Hypothesis Hfit : max_rows * output_elems cfg < two64.
Hypothesis Hal : ∀ i, alloc_ok i = true.

Implicit Types (f : fsys E) (s y : sys E).

Abbreviation reach := (sreachable cfg alloc_ok good).
Abbreviation freach := (freachable cfg alloc_ok good).
Abbreviation mtch := (matches cfg alloc_ok).

(** An action of another thread on the scheduler's state. *)
Inductive lifted (act : sys E → sys E → Prop) : fsys E → fsys E → Prop :=
  | lift_act pc y y' : act y y' → lifted act (fine_at pc y) (fine_at pc y').

(** The worker is scheduled fairly and an exchange does not fail for no reason for ever;
    notifications arrive and time passes. *)
Record fair_fine (e : nat → fsys E) : Prop := {
  ff_exec : execution (fstep cfg alloc_ok) e;
  ff_worker : weakly_fair (fworker cfg alloc_ok) e;
  ff_signal : weakly_fair (lifted signal_step) e;
  ff_clock : diverges (λ f, qs_now (sy_core (fy_sys f))) e
}.

(** ** What a state shares with its matching states *)

Lemma handover_now c : qs_now (handover c) = qs_now c.
Proof. unfold handover. by destruct (qs_consumer c). Qed.

Lemma matches_now f s : mtch f s → qs_now (sy_core s) = qs_now (sy_core (fy_sys f)).
Proof.
  intros (st & c & w & ps & -> & Hrel). simpl. destruct (fy_pc f); simpl in Hrel.
  - by destruct Hrel as (-> & _).
  - destruct Hrel as (_ & b' & _ & Hb). destruct b'; destruct Hb as [-> _]; by rewrite ?handover_now.
  - by destruct Hrel as (_ & -> & _).
  - destruct Hrel as (_ & -> & _). apply handover_now.
  - destruct Hrel as (_ & -> & _). apply handover_now.
Qed.

(** The matching states of a state agree on the queue. *)
Lemma matches_core f s s' : mtch f s → mtch f s' → sy_core s = sy_core s'.
Proof.
  intros (st & c & w & ps & -> & Hrel) (st' & c' & w' & ps' & -> & Hrel'). simpl.
  destruct (fy_pc f); simpl in Hrel, Hrel'.
  - destruct Hrel as (-> & _), Hrel' as (-> & _). done.
  - destruct Hrel as (_ & b & Hv & Hb), Hrel' as (_ & b' & Hv' & Hb'). rewrite Hv in Hv'. injection Hv' as <- <-.
    destruct b; destruct Hb as [-> _], Hb' as [-> _]; done.
  - destruct Hrel as (_ & -> & _), Hrel' as (_ & -> & _). done.
  - destruct Hrel as (_ & -> & _), Hrel' as (_ & -> & _). done.
  - destruct Hrel as (_ & -> & _), Hrel' as (_ & -> & _). done.
Qed.

Lemma matches_accepted f s : mtch f s → qs_accepted (sy_core s) = qs_accepted (sy_core (fy_sys f)).
Proof. intros (st & c & w & ps & -> & Hrel). by apply pc_rel_queue in Hrel as [_ Ha]. Qed.

Lemma matches_started f s : mtch f s → sy_worker (fy_sys f) ≠ NotStarted → sy_worker s ≠ NotStarted.
Proof.
  intros (st & c & w & ps & -> & Hrel) Hns. simpl. destruct (fy_pc f); simpl in Hrel.
  - destruct Hrel as (_ & Hm & _). intros ->. by destruct (sy_worker (fy_sys f)).
  - destruct Hrel as (_ & b' & _ & Hb). destruct b'; [by destruct Hb as [_ ->] | by destruct Hb as (_ & t & ->)].
  - by destruct Hrel as (_ & _ & _ & t & ->).
  - by destruct Hrel as (_ & _ & -> & _).
  - by destruct Hrel as (_ & _ & -> & _).
Qed.

Lemma matches_unstarted f s :
  mtch f s → fy_pc f = Between → sy_worker (fy_sys f) = NotStarted → sy_worker s = NotStarted.
Proof.
  intros (st & c & w & ps & -> & Hrel) Hb Hw. rewrite Hb in Hrel. destruct Hrel as (_ & Hm & _). rewrite Hw in Hm.
  by destruct w.
Qed.

(** Between iterations the states are the same, counters apart. *)
Lemma matches_store f s : mtch f s → fy_pc f = Between → sy_store s = sy_store (fy_sys f) ∧ sy_core s = sy_core (fy_sys f).
Proof. intros (st & c & w & ps & -> & Hrel) Hb. rewrite Hb in Hrel. by destruct Hrel as (-> & _ & ->). Qed.

(** What [System]'s worker can do, the worker of the fine system can begin. *)
Lemma between_enabled f s s' :
  mtch f s → in_loop (fy_pc f) = false → worker_step cfg alloc_ok s s' → ∃ f', fworker cfg alloc_ok f f'.
Proof.
  destruct f as [y pc]. simpl. intros HM Hl Hs. destruct pc; try done.
  apply matches_between in HM as (st & w & -> & Hm).
  remember (with_stats st (with_worker w y)) as s eqn:Heq.
  destruct Hs as [s Hw Hr|s d Hw Hd|s b t Hw]; subst s; simpl in *; subst w.
  - eexists. apply (fw_wait cfg alloc_ok y); [by destruct (sy_worker y) | done].
  - assert (Hw' : sy_worker y = Looping) by by destruct (sy_worker y). destruct d as [|r d].
    + eexists. by apply (fw_empty cfg alloc_ok y).
    + eexists. by apply (fw_begin cfg alloc_ok y (r :: d)).
  - destruct (sy_worker y) as [| |b' t'| |] eqn:Hw'; try done. eexists. by apply (fw_engine cfg alloc_ok y b' t').
Qed.

(** Notifications and the controlling thread act on both alike. *)
Lemma signal_matched f f' s :
  mtch f s → lifted signal_step f f' → ∃ s', signal_step s s' ∧ mtch f' s'.
Proof.
  intros HM Hl. destruct Hl as [pc y y' Hy]. pose proof HM as (st & c & w & ps & -> & Hrel). destruct Hy as [y n Hn].
  eexists. split.
  - apply (ss_signal _ n). simpl. by rewrite (pc_rel_signals _ _ _ _ _ _ _ Hrel).
  - exists st, (signal_core n c), w, ps. split; [done |].
    by apply (pc_rel_core cfg alloc_ok (signal_core n)); [apply handover_signal |].
Qed.

Lemma signal_enabled f s s' : mtch f s → signal_step s s' → ∃ f', lifted signal_step f f'.
Proof.
  destruct f as [y pc]. intros (st & c & w & ps & -> & Hrel) Hs. inversion Hs as [s0 n Hn]. simpl in *.
  rewrite (pc_rel_signals _ _ _ _ _ _ _ Hrel) in Hn. eexists. apply (lift_act signal_step pc y). by apply (ss_signal y n).
Qed.

Lemma matches_joined f s : mtch f s → joined s ↔ joined (fy_sys f).
Proof.
  intros (st & c & w & ps & -> & Hrel). unfold joined. simpl. destruct (fy_pc f); simpl in Hrel.
  - destruct Hrel as (_ & Hm & _). destruct w, (sy_worker (fy_sys f)); simpl in Hm; try done; intuition congruence.
  - destruct Hrel as (Hw & b' & _ & Hb). rewrite Hw. destruct b'; [destruct Hb as [_ ->] | destruct Hb as (_ & t & ->)];
      intuition congruence.
  - destruct Hrel as (Hw & _ & _ & t & ->). rewrite Hw. intuition congruence.
  - destruct Hrel as ((b & t & Hw) & _ & -> & _). rewrite Hw. intuition congruence.
  - destruct Hrel as ((b & t & Hw) & _ & -> & _). rewrite Hw. intuition congruence.
Qed.

Lemma matches_ctrl f s : mtch f s → sy_ctrl s = sy_ctrl (fy_sys f).
Proof. by intros (st & c & w & ps & -> & _). Qed.

Lemma ctrl_matched f f' s :
  mtch f s → lifted ctrl_step f f' → ∃ s', ctrl_step s s' ∧ mtch f' s'.
Proof.
  intros HM Hl. destruct Hl as [pc y y' Hy]. pose proof (matches_joined _ _ HM) as Hj. pose proof (matches_ctrl _ _ HM) as Hc.
  pose proof HM as (st & c & w & ps & -> & Hrel). simpl in Hrel, Hj, Hc. destruct Hy as [y Hy|y [Hy HJ]].
  - eexists. split; [by apply ct_shutdown |]. exists st, (core_shutdown c), w, ps. split; [done |].
    apply (pc_rel_core cfg alloc_ok core_shutdown) in Hrel; [| apply handover_shutdown]. by destruct pc.
  - eexists. split; [apply ct_return; split; [done | by apply Hj] |]. exists st, c, w, ps. split; [done |]. by destruct pc.
Qed.

Lemma ctrl_enabled f s s' : mtch f s → ctrl_step s s' → ∃ f', lifted ctrl_step f f'.
Proof.
  destruct f as [y pc]. intros HM Hs. pose proof (matches_joined _ _ HM) as Hj. pose proof (matches_ctrl _ _ HM) as Hc.
  simpl in *. destruct Hs as [s Hs|s [Hs HJ]]; rewrite Hc in Hs; eexists; apply (lift_act ctrl_step pc y).
  - by apply ct_shutdown.
  - apply ct_return. split; [done | by apply Hj].
Qed.

(** ** The rules of [Liveness] *)

Section Run.
Context (e : nat → fsys E) (Hf : fair_fine e) (H0 : freach (e 0%nat)).

Definition view f s : Prop := reach s ∧ mtch f s.

Lemma fine_reach n : freach (e n).
Proof. eapply execution_reachable; [apply Hf | done]. Qed.

Lemma view_step f f' s :
  view f s → fstep cfg alloc_ok f f' → ∃ s', view f' s' ∧ (sstep cfg alloc_ok s s' ∨ s' = s).
Proof.
  intros [Hs HM] Hst.
  destruct (fine_step_matched good max_rows row errors cfg alloc_ok Hmax Hoe Hfit Hal f f' s Hs HM Hst) as (s' & HM' & H).
  exists s'. split; [| done]. split; [| done]. destruct H as [H| ->]; [by eapply reachable_step | done].
Qed.

Lemma view_keeps f f' P Q :
  keeps reach (sstep cfg alloc_ok) P Q → seen view P f → fstep cfg alloc_ok f f' → seen view P f' ∨ seen view Q f'.
Proof.
  intros HK (s & Hv & HP) Hst. destruct (view_step f f' s Hv Hst) as (s' & Hv' & [Hs| ->]); [| left; by exists s].
  destruct (HK s s' (proj1 Hv) (proj1 Hv') HP Hs); [left | right]; by exists s'.
Qed.

Lemma fine_observed : observed_run view e reach (sstep cfg alloc_ok) (λ s, qs_now (sy_core s)).
Proof.
  split.
  - intros n. exact (fine_matched good max_rows row errors cfg alloc_ok Hmax Hoe Hfit Hal (e n) (fine_reach n)).
  - by intros n s [Hs _].
  - intros P Q HK n Hn. destruct (ff_exec e Hf n) as [Hst| ->]; [by eapply view_keeps | by left].
  - intros n t. destruct (ff_clock e Hf n t) as (m & Hm & Ht). exists m. split; [done |].
    intros s [_ HM]. by rewrite (matches_now _ _ HM).
Qed.

(** An action of another thread. *)
Lemma lifted_fair (act : sys E → sys E → Prop) :
  weakly_fair (lifted act) e →
  (∀ f f' s, mtch f s → lifted act f f' → ∃ s', act s s' ∧ mtch f' s') →
  (∀ f s s', mtch f s → act s s' → ∃ f', lifted act f f') →
  (∀ s s', act s s' → sstep cfg alloc_ok s s') →
  fair_rule view e reach (sstep cfg alloc_ok) act.
Proof.
  intros Hfair Hsim Hback Hsub P Q Hen Hact HK.
  apply (unless_leads_to e _ _ (λ m, lifted act (e m) (e (S m)) ∨ ∀ f', ¬ lifted act (e m) f'));
    [by apply (or_unless _ _ _ _ _ fine_observed) | exact Hfair |].
  intros m (s & [Hs HM] & HP) [Hst|Hno].
  - exists (S m). split; [lia |]. destruct (Hsim _ _ s HM Hst) as (s' & Ha & HM').
    assert (Hs' : reach s') by (eapply reachable_step; [exact Hs | by apply Hsub]).
    exists s'. split; [done |]. by apply (Hact s s').
  - destruct (Hen s Hs HP) as [s' Ha]. destruct (Hback (e m) s s' HM Ha) as [f' Hst]. by destruct (Hno f').
Qed.

(** Steps that are not the worker's keep it where it is, or bring it closer to the end of
    its loop. *)
Lemma rank_step f f' :
  freach f → fstep cfg alloc_ok f f' →
  fworker cfg alloc_ok f f' ∨ (loop_rank (fy_pc f') ≤ loop_rank (fy_pc f))%nat.
Proof.
  intros Hr Hst. destruct (in_loop (fy_pc f)) eqn:Hl.
  - destruct (fstep_rank good cfg alloc_ok f f' Hr Hst Hl) as [?|[_ ?]]; auto.
  - destruct Hst as [f f' Hm|pc y i]; [| by right]. destruct Hm as [f f' Hw|f f' Hsp|pc y y' Ho]; [by left | right | by right].
    by destruct Hsp.
Qed.

(** The worker: inside its loops it moves on, between iterations it makes the step. *)
Lemma worker_fair : fair_rule view e reach (sstep cfg alloc_ok) (worker_step cfg alloc_ok).
Proof.
  intros P Q Hen Hact HK.
  assert (Hw : ∀ f f', freach f → seen view P f → fworker cfg alloc_ok f f' →
    (seen view P f' ∧ (loop_rank (fy_pc f') < loop_rank (fy_pc f))%nat) ∨ seen view Q f').
  { intros f f' Hr (s & [Hs HM] & HP) Hst.
    destruct (fworker_matched good max_rows row errors cfg alloc_ok Hmax Hoe Hfit Hal f f' s Hs HM Hst) as (s' & HM' & Hss).
    destruct (in_loop (fy_pc f)) eqn:Hl.
    - subst s'. left. split; [by exists s |]. by eapply fworker_rank.
    - right. assert (Hs' : reach s') by (eapply reachable_step; [exact Hs | by apply st_worker]).
      exists s'. split; [done |]. by apply (Hact s s'). }
  apply (leads_to_measure e _ _ (λ f, loop_rank (fy_pc f))). intros k.
  apply (unless_leads_to e _ _ (λ m, fworker cfg alloc_ok (e m) (e (S m)) ∨ ∀ f', ¬ fworker cfg alloc_ok (e m) f'));
    [| apply Hf |].
  - intros n [HP Hk]. destruct (ff_exec e Hf n) as [Hst| ->]; [| by left].
    destruct (rank_step _ _ (fine_reach n) Hst) as [Hst'|Hle].
    + right. rewrite <- Hk. by apply Hw; [apply fine_reach | |].
    + destruct (view_keeps _ _ P Q HK HP Hst) as [HP'|HQ]; [| by right; right].
      destruct (decide (loop_rank (fy_pc (e (S n))) = k)); [by left | right; left]. split; [done | lia].
  - intros m [HP Hk] [Hst|Hno].
    + exists (S m). split; [lia |]. rewrite <- Hk. by apply Hw; [apply fine_reach | |].
    + destruct (in_loop (fy_pc (e m))) eqn:Hl.
      * destruct (loop_enabled cfg alloc_ok (e m) Hl) as [f' Hst]. by destruct (Hno f').
      * destruct HP as (s & [Hs HM] & HP). destruct (Hen s Hs HP) as [s' Hss].
        destruct (between_enabled (e m) s s' HM Hl Hss) as [f' Hst]. by destruct (Hno f').
Qed.

Lemma signal_fair : fair_rule view e reach (sstep cfg alloc_ok) signal_step.
Proof.
  apply lifted_fair; [apply Hf | apply signal_matched | apply signal_enabled |]. intros s s'. apply st_signal.
Qed.

Lemma fine_ctrl_fair : weakly_fair (lifted ctrl_step) e → fair_rule view e reach (sstep cfg alloc_ok) ctrl_step.
Proof.
  intros Hc. apply lifted_fair; [done | apply ctrl_matched | apply ctrl_enabled |].
  intros s s' Hs. destruct Hs as [s Hs|s [Hs Hj]]; [by apply st_stop_shutdown | by apply st_stop_return].
Qed.

(** The worker comes out of its loops again and again. *)
Lemma between_again n : ∃ m, (n ≤ m)%nat ∧ fy_pc (e m) = Between.
Proof.
  assert (Hb : ∀ f, in_loop (fy_pc f) = false → fy_pc f = Between) by (intros f; by destruct (fy_pc f)).
  destruct (in_loop (fy_pc (e n))) eqn:Hn; [| exists n; auto]. revert n Hn.
  apply (leads_to_measure e (λ f, in_loop (fy_pc f) = true) (λ f, fy_pc f = Between) (λ f, loop_rank (fy_pc f))). intros k.
  assert (Hw : ∀ f f', freach f → in_loop (fy_pc f) = true → fworker cfg alloc_ok f f' →
    (in_loop (fy_pc f') = true ∧ (loop_rank (fy_pc f') < loop_rank (fy_pc f))%nat) ∨ fy_pc f' = Between).
  { intros f f' Hr Hl Hst. destruct (in_loop (fy_pc f')) eqn:Hl'; [left | right; by apply Hb].
    split; [done | by eapply fworker_rank]. }
  apply (unless_leads_to e _ _ (λ m, fworker cfg alloc_ok (e m) (e (S m)) ∨ ∀ f', ¬ fworker cfg alloc_ok (e m) f'));
    [| apply Hf |].
  - intros m [Hl Hk]. destruct (ff_exec e Hf m) as [Hst| ->]; [| by left].
    destruct (fstep_rank good cfg alloc_ok _ _ (fine_reach m) Hst Hl) as [Hst'|[Hl' Hle]].
    + right. rewrite <- Hk. by apply Hw; [apply fine_reach | |].
    + destruct (decide (loop_rank (fy_pc (e (S m))) = k)); [by left | right; left]. split; [done | lia].
  - intros m [Hl Hk] [Hst|Hno].
    + exists (S m). split; [lia |]. rewrite <- Hk. by apply Hw; [apply fine_reach | |].
    + destruct (loop_enabled cfg alloc_ok (e m) Hl) as [f' Hst]. by destruct (Hno f').
Qed.

(** ** Promises along a run *)

Lemma fstep_store_le f f' : fstep cfg alloc_ok f f' → store_le (sy_store (fy_sys f)) (sy_store (fy_sys f')).
Proof.
  intros Hst. destruct Hst as [f f' Hm|pc y i]; [| done]. destruct Hm as [f f' Hw|f f' Hsp|pc y y' Ho].
  - destruct Hw as [y Hw Hr|y Hw Hd|y d Hw Hd Hne|y r rest batch|y batch|y dq i l batch|y dq batch|y batch t0 Hw
      |y out i r rest batch|y out i batch|y x r rest|y x]; simpl; try done.
    + by destruct (sy_running y).
    + unfold validate_step, validate_one. destruct (negb _); simpl; [| done].
      destruct (set_exception _ _ _) as [ps|x|] eqn:Hx; simpl; [by eapply set_exception_le | done | done].
    + by destruct batch.
    + unfold count_step. by destruct (run_instr _ _ _).
    + by destruct dq.
    + unfold engine_returned. destruct (run_inference _ _ _ _ _) as [e' [out|x|]]; [by destruct (negb _) | done | done].
    + unfold resolve_step. destruct (read_range _ _ _) as [row0|x|]; simpl; [| done | done].
      destruct (alloc_ok i); [| done]. destruct (set_value _ _ _) as [ps|x|] eqn:Hx; simpl; [by eapply set_value_le | done | done].
    + unfold fail_step. destruct (set_exception _ _ _) as [ps|x'|] eqn:Hx; simpl; [by eapply set_exception_le | done | done].
  - destruct Hsp as [y Hw Hr|y dq c p v l batch]; [done |]. unfold count_step. by destruct (run_instr _ _ _).
  - destruct Ho as [y d Hd|y r Hr|y y' Hy|y Hc|y Hc|y Hc|y Hc Hj']; try done.
    + by apply submit_step_le.
    + by destruct Hy.
    + simpl. unfold start. by destruct (sy_running y), (sy_joinable y).
Qed.

(** A promise that is resolved in a matching state is resolved in the same way. *)
Lemma settled_leads_to p g :
  g ≠ Pending →
  leads_to e (seen view (λ s, state_of (sy_store s) p = Some g)) (λ f, state_of (sy_store (fy_sys f)) p = Some g).
Proof.
  intros Hg n Hn. destruct (between_again n) as (m & Hm & Hb).
  destruct (unless_until e (seen view (λ s, state_of (sy_store s) p = Some g)) (seen view (λ _, False)) n m)
    as [(s & [_ HM] & Hs)|(k & _ & s & _ & [])]; [| done | done |].
  - apply (or_unless _ _ _ _ _ fine_observed). intros s s' _ _ Hs Hst. left. by apply (sstep_store_le _ _ _ _ Hst _ _ Hs).
  - exists m. split; [done |]. by destruct (matches_store _ _ HM Hb) as [<- _].
Qed.

Lemma settled_stays p g n :
  g ≠ Pending → state_of (sy_store (fy_sys (e n))) p = Some g →
  ∀ k, (n ≤ k)%nat → state_of (sy_store (fy_sys (e k))) p = Some g.
Proof.
  intros Hg Hn k Hk. induction Hk as [|k Hk IH]; [done |].
  destruct (ff_exec e Hf k) as [Hst| ->]; [| done]. by apply (fstep_store_le _ _ Hst).
Qed.

Lemma started_stays n m :
  (n ≤ m)%nat → fy_pc (e m) = Between → sy_worker (fy_sys (e n)) ≠ NotStarted → sy_worker (fy_sys (e m)) ≠ NotStarted.
Proof.
  intros Hm Hpc Hn Hu. destruct (or_view _ _ _ _ _ fine_observed n) as [s Hv].
  destruct (unless_until e (seen view (λ s, sy_worker s ≠ NotStarted)) (seen view (λ _, False)) n m)
    as [(s' & [_ HM] & Hs')|(k & _ & s' & _ & [])]; [| | done |].
  - apply (or_unless _ _ _ _ _ fine_observed). intros s1 s2 _ _ Hs1 Hst. left. by eapply started_step.
  - exists s. split; [done |]. by apply (matches_started (e n)); [apply Hv |].
  - by apply Hs', (matches_unstarted (e m)).
Qed.

Lemma accepted_stays n m :
  (n ≤ m)%nat → qs_accepted (sy_core (fy_sys (e n))) `prefix_of` qs_accepted (sy_core (fy_sys (e m))).
Proof.
  induction 1 as [|m Hm IH]; [done |]. etrans; [exact IH |]. destruct (ff_exec e Hf m) as [Hst| ->]; [| done].
  destruct (or_view _ _ _ _ _ fine_observed m) as [s Hv]. destruct (view_step _ _ s Hv Hst) as (s' & Hv' & Hs).
  rewrite <- (matches_accepted _ _ (proj2 Hv)), <- (matches_accepted _ _ (proj2 Hv')).
  destruct Hs as [Hs| ->]; [by eapply sstep_accepted | done].
Qed.
End Run.
End Fine.

(** ** Properties *)

(** C2: every request is answered, step by step. In every fair run of the scheduler in
    which each promise and each counter access of [run_loop] is a step of its own and
    producers, resets, notifications, [start] and [stop] may come between any two of them,
    a request that was accepted while the worker exists is resolved at some point, with
    the engine's row for its own input or with the exception that is due, and its future
    holds that result for ever after. The batch limit is positive and the copies of result
    rows allocate. *)
Theorem fine_request_answered (E : Type) (HE : IExecutionEngine E) (good : E → Prop)
  (max_rows : Z) (row : list float → list float) (errors : exn → Prop) (cfg : SchedulerConfig) (alloc_ok : nat → bool)
  (e : nat → fsys E) (n : nat) (r : InferenceRequest)
  (HC : EngineContract E good max_rows (input_elems cfg) (output_elems cfg) row errors)
  (Hmax : 0 < max_batch_size cfg ≤ max_rows) (Hoe : 0 ≤ output_elems cfg)
  (Hfit : max_rows * output_elems cfg < two64) (Hal : ∀ i, alloc_ok i = true)
  (Hf : fair_fine cfg alloc_ok e) (H0 : freachable cfg alloc_ok good (e 0%nat))
  (Hw : sy_worker (fy_sys (e n)) ≠ NotStarted) (Hin : r ∈ qs_accepted (sy_core (fy_sys (e n)))) :
  ∃ m g, (n ≤ m)%nat ∧ resolution row errors cfg r g ∧
    ∀ k, (m ≤ k)%nat → state_of (sy_store (fy_sys (e k))) (result_promise r) = Some g.
Proof.
  pose proof (fine_observed good max_rows row errors cfg alloc_ok Hmax Hoe Hfit Hal e Hf H0) as HO.
  apply list_elem_of_lookup in Hin as [i Hi]. destruct (or_view _ _ _ _ _ HO n) as [s [Hs HM]].
  assert (Hp : ∃ m, (n ≤ m)%nat ∧ seen (view good cfg alloc_ok) (passed i) (e m)).
  { destruct (le_lt_dec (served s) i) as [Hle|Hlt]; [| exists n; split; [done |]; by exists s].
    apply (observed_passed good max_rows row errors cfg alloc_ok Hmax Hoe Hfit Hal (view good cfg alloc_ok) e HO
      (worker_fair good max_rows row errors cfg alloc_ok Hmax Hoe Hfit Hal e Hf H0)
      (signal_fair good max_rows row errors cfg alloc_ok Hmax Hoe Hfit Hal e Hf H0)
      (λ f s s' H H', matches_core cfg alloc_ok f s s' (proj2 H) (proj2 H'))).
    exists s. split; [done |]. split_and!; [by eapply matches_started | | done].
    rewrite (matches_accepted _ _ _ _ HM). by eapply lookup_lt_Some. }
  destruct Hp as (m & Hm & s' & [Hs' HM'] & Hp).
  destruct (passed_resolved good max_rows row errors cfg alloc_ok Hmax Hoe Hfit Hal i r s' Hs') as (g & Hg & Hres); [| done |].
  { rewrite (matches_accepted _ _ _ _ HM'). eapply prefix_lookup_Some; [exact Hi |].
    by eapply (accepted_stays good max_rows row errors). }
  assert (Hne : g ≠ Pending) by by intros ->.
  destruct (settled_leads_to good max_rows row errors cfg alloc_ok Hmax Hoe Hfit Hal e Hf H0 (result_promise r) g Hne m)
    as (j & Hj & Hset); [by exists s' |].
  exists j, g. split_and!; [lia | done |]. by eapply settled_stays.
Qed.

(** C9: [stop] returns, step by step. In every fair run of that system in which the thread
    inside [stop] is scheduled fairly too, a call of [stop] (from clearing [running_] on)
    comes back. If a worker had been started, then at that point it has been joined outside
    its loops, the deque is empty and every accepted request is resolved; if none ever was,
    every accepted request is still in the deque and unresolved. *)
Theorem fine_stop_returns (E : Type) (HE : IExecutionEngine E) (good : E → Prop)
  (max_rows : Z) (row : list float → list float) (errors : exn → Prop) (cfg : SchedulerConfig) (alloc_ok : nat → bool)
  (e : nat → fsys E) (n : nat)
  (HC : EngineContract E good max_rows (input_elems cfg) (output_elems cfg) row errors)
  (Hmax : 0 < max_batch_size cfg ≤ max_rows) (Hoe : 0 ≤ output_elems cfg)
  (Hfit : max_rows * output_elems cfg < two64) (Hal : ∀ i, alloc_ok i = true)
  (Hf : fair_fine cfg alloc_ok e) (Hfc : weakly_fair (lifted ctrl_step) e)
  (H0 : freachable cfg alloc_ok good (e 0%nat)) (Hc : sy_ctrl (fy_sys (e n)) ≠ CtrlIdle) :
  ∃ m, (n ≤ m)%nat ∧ fy_pc (e m) = Between ∧
    let y := fy_sys (e m) in
    sy_ctrl y = CtrlIdle ∧ sy_joinable y = false ∧ sy_running y = false ∧
    ((sy_worker y = NotStarted ∧ sy_worker (fy_sys (e n)) = NotStarted ∧
      queue_ (qs_queue (sy_core y)) = qs_accepted (sy_core y) ∧ all_pending (sy_store y) (qs_accepted (sy_core y))) ∨
     (sy_worker y = Exited ∧ queue_ (qs_queue (sy_core y)) = [] ∧
      Forall (resolved row errors cfg (sy_store y)) (qs_accepted (sy_core y)))).
Proof.
  pose proof (fine_observed good max_rows row errors cfg alloc_ok Hmax Hoe Hfit Hal e Hf H0) as HO.
  destruct (or_view _ _ _ _ _ HO n) as [s [Hs HM]].
  destruct (observed_stop good max_rows row errors cfg alloc_ok Hmax Hoe Hfit Hal (view good cfg alloc_ok) e
    (worker_fair good max_rows row errors cfg alloc_ok Hmax Hoe Hfit Hal e Hf H0)
    (signal_fair good max_rows row errors cfg alloc_ok Hmax Hoe Hfit Hal e Hf H0)
    (fine_ctrl_fair good max_rows row errors cfg alloc_ok Hmax Hoe Hfit Hal e Hf H0 Hfc) n)
    as (m & Hm & s' & [Hs' HM'] & H1 & H2 & H3).
  { exists s. split; [done |]. by rewrite (matches_ctrl _ _ _ _ HM). }
  pose proof (fine_reach good cfg alloc_ok e Hf H0 m) as Hr.
  assert (Hj : sy_joinable (fy_sys (e m)) = false) by by destruct HM' as (st & c & w & ps & -> & _).
  destruct (fine_thread good max_rows row errors cfg alloc_ok Hmax Hoe Hfit Hal (e m) Hr) as (_ & _ & Hb).
  destruct (Hb Hj) as [Hpc Hw]. destruct (matches_store _ _ _ _ HM' Hpc) as [Hst Hco].
  exists m. split; [done |]. split; [done |]. simpl. rewrite <- (matches_ctrl _ _ _ _ HM'), <- Hst, <- Hco. split_and!.
  - done.
  - done.
  - by destruct HM' as (st & c & w & ps & -> & _).
  - destruct Hw as [[Hw _]|[Hw _]]; [left | right]; (split; [done |]).
    + assert (Hn : sy_worker s' = NotStarted) by by apply (matches_unstarted _ _ _ _ HM' Hpc).
      split; [| by apply (unstarted_state good max_rows row errors cfg alloc_ok)].
      destruct (decide (sy_worker (fy_sys (e n)) = NotStarted)) as [|Hns]; [done | exfalso].
      by apply (started_stays good max_rows row errors cfg alloc_ok Hmax Hoe Hfit Hal e Hf H0 n m Hm Hpc Hns).
    + destruct (stopped_state good max_rows row errors cfg alloc_ok Hmax Hoe Hfit Hal s' Hs' H2) as [Hn|(_ & Hq & Hres)]; [| done].
      destruct HM' as (st & c & w & ps & -> & Hrel). rewrite Hpc in Hrel. simpl in Hn, Hrel. rewrite Hw, Hn in Hrel.
      by destruct Hrel as (_ & Hx & _).
Qed.

(** ** Witnesses: an executable schedule *)

(** The worker moves whenever it can; else [stop] does, once the queue has been served and
    the worker sleeps; else a notification arrives; else time passes. *)
Definition demo_pause : Z := 50000000.

Definition demo_other (y : sys StubExecutionEngine) : sys StubExecutionEngine :=
  match sy_ctrl y, sy_worker y, sy_running y with
  | StopCleared, _, _ => stop_shutdown y
  | StopJoining, Exited, _ => stop_return y
  | CtrlIdle, Looping, true =>
      match qs_consumer (sy_core y), qs_signals (sy_core y) with
      | Parked _, O => stop_clear y
      | _, O => demo_tick demo_pause y
      | _, S _ => demo_signal y
      end
  | _, _, _ => match qs_signals (sy_core y) with O => demo_tick demo_pause y | S _ => demo_signal y end
  end.

Definition demo_worker (y : sys StubExecutionEngine) : option (fsys StubExecutionEngine) :=
  match sy_worker y with
  | Executing batch t0 => Some (engine_returned demo_cfg batch t0 y)
  | Looping =>
      match qs_consumer (sy_core y) with
      | Drained [] => Some (fine_at Between (begin_iteration demo_cfg [] y))
      | Drained d => Some (fine_at (Validating d []) y)
      | c => if runnable (qs_now (sy_core y)) c then Some (fine_at Between (demo_run y)) else None
      end
  | _ => None
  end.

Definition demo_next (f : fsys StubExecutionEngine) : fsys StubExecutionEngine :=
  let y := fy_sys f in
  match fy_pc f with
  | Between => default (fine_at Between (demo_other y)) (demo_worker y)
  | Validating [] batch => validated batch y
  | Validating (r :: rest) batch => validate_step demo_cfg r rest batch y
  | Counting dq [] batch => counted dq batch y
  | Counting dq (i :: l) batch => count_step false dq i l batch y
  | Resolving out i [] batch => iteration_done y
  | Resolving out i (r :: rest) batch => resolve_step demo_cfg (λ _, true) out i r rest batch y
  | Failing x [] => iteration_done y
  | Failing x (r :: rest) => fail_step x r rest y
  end.

Abbreviation demo_fstep := (fstep (E := StubExecutionEngine) demo_cfg (λ _, true)).

Lemma demo_signal_other y n : qs_signals (sy_core y) = S n → others y (demo_signal y).
Proof. intros Hn. apply ot_signal. unfold demo_signal. rewrite Hn. by apply ss_signal. Qed.

Lemma demo_other_step y : others y (demo_other y).
Proof.
  assert (Hd : others y (match qs_signals (sy_core y) with O => demo_tick demo_pause y | S _ => demo_signal y end)).
  { destruct (qs_signals (sy_core y)) as [|n] eqn:Hn; [by apply ot_tick | by eapply demo_signal_other]. }
  unfold demo_other. destruct (sy_ctrl y) eqn:Hc.
  - destruct (sy_worker y), (sy_running y); try exact Hd.
    destruct (qs_consumer (sy_core y)); try exact Hd.
    destruct (qs_signals (sy_core y)) as [|n] eqn:Hn; [by apply ot_stop_clear | exact Hd].
  - by apply ot_stop_shutdown.
  - destruct (sy_worker y) eqn:Hw; try exact Hd. apply ot_stop_return; auto.
Qed.

Lemma demo_next_step f : demo_fstep f (demo_next f).
Proof.
  apply fs_move. destruct f as [y pc]. unfold demo_next. simpl.
  destruct pc as [|[|r rest] batch|dq [|i l] batch|out i [|r rest] batch|x [|r rest]].
  - destruct (demo_worker y) as [f'|] eqn:Hw; simpl; [apply fm_worker | apply (fm_others demo_cfg _ Between y), demo_other_step].
    unfold demo_worker in Hw. destruct (sy_worker y) as [| |batch t0| |] eqn:Hm; try done.
    + destruct (qs_consumer (sy_core y)) as [|b|d b|[|r d]] eqn:Hc.
      1-3: destruct (runnable _ _) eqn:Hr; [| done]; injection Hw as <-; apply (fw_wait demo_cfg _ y); [done | by rewrite Hc].
      * injection Hw as <-. by apply (fw_empty demo_cfg _ y).
      * injection Hw as <-. by apply (fw_begin demo_cfg _ y).
    + injection Hw as <-. by apply (fw_engine demo_cfg _ y).
  - apply fm_worker, (fw_validated demo_cfg _ y).
  - apply fm_worker, (fw_validate demo_cfg _ y).
  - apply fm_worker, (fw_counted demo_cfg _ y).
  - apply fm_worker, (fw_count demo_cfg _ y).
  - apply fm_worker, (fw_resolved demo_cfg _ y).
  - apply fm_worker, (fw_resolve demo_cfg _ y).
  - apply fm_worker, (fw_failed demo_cfg _ y).
  - apply fm_worker, (fw_fail demo_cfg _ y).
Qed.

(** Three requests have been submitted and the worker started. *)
Definition demo_fine (n : nat) : fsys StubExecutionEngine := Nat.iter n demo_next (fine_at Between (start demo_sys0)).

(** Everything has been served and the scheduler is stopped: only time passes. *)
Record at_rest (f : fsys StubExecutionEngine) : Prop := {
  ar_pc : fy_pc f = Between;
  ar_worker : sy_worker (fy_sys f) = Exited;
  ar_ctrl : sy_ctrl (fy_sys f) = CtrlIdle;
  ar_signals : qs_signals (sy_core (fy_sys f)) = O
}.

Lemma at_rest_next f :
  at_rest f → at_rest (demo_next f) ∧ qs_now (sy_core (fy_sys (demo_next f))) = qs_now (sy_core (fy_sys f)) + demo_pause.
Proof.
  intros [Hpc Hw Hc Hs].
  assert (Hn : demo_next f = fine_at Between (demo_tick demo_pause (fy_sys f))).
  { unfold demo_next, demo_worker, demo_other. by rewrite Hpc, Hw, Hc, Hs. }
  rewrite Hn. by repeat split.
Qed.

Lemma demo_fine_S n : demo_fine (S n) = demo_next (demo_fine n).
Proof. done. Qed.

Lemma demo_fine_rest k :
  at_rest (demo_fine (37 + k)) ∧ Z.of_nat k * demo_pause ≤ qs_now (sy_core (fy_sys (demo_fine (37 + k)))).
Proof.
  induction k as [|k [IH Ht]].
  - split; [split; vm_compute; reflexivity | vm_compute; discriminate].
  - rewrite Nat.add_succ_r, demo_fine_S. destruct (at_rest_next _ IH) as [H ->]. split; [done |]. lia.
Qed.

(** An action that is disabled at rest is taken fairly. *)
Lemma demo_fine_fair (act : fsys StubExecutionEngine → fsys StubExecutionEngine → Prop) :
  (∀ f f', at_rest f → ¬ act f f') → weakly_fair act demo_fine.
Proof.
  intros Hno n. exists (37 + n)%nat. split; [lia |]. right. intros f'. apply Hno, demo_fine_rest.
Qed.

Lemma demo_fine_clock : diverges (λ f, qs_now (sy_core (fy_sys f))) demo_fine.
Proof.
  intros n t. exists (37 + (n + Z.to_nat t))%nat. split; [lia |].
  destruct (demo_fine_rest (n + Z.to_nat t)) as [_ Ht]. unfold demo_pause in Ht. lia.
Qed.

Lemma demo_fine_run : fair_fine demo_cfg (λ _, true) demo_fine.
Proof.
  split.
  - intros n. left. rewrite demo_fine_S. apply demo_next_step.
  - apply demo_fine_fair. intros f f' [Hpc Hw Hc Hs] Hst. destruct Hst; simpl in *; congruence.
  - apply demo_fine_fair. intros f f' [Hpc Hw Hc Hs] Hst. destruct Hst as [pc y y' Hy]. destruct Hy. simpl in *. congruence.
  - apply demo_fine_clock.
Qed.

Lemma demo_fine_ctrl : weakly_fair (lifted ctrl_step) demo_fine.
Proof.
  apply demo_fine_fair. intros f f' [Hpc Hw Hc Hs] Hst. destruct Hst as [pc y y' Hy]. destruct Hy as [y Hy|y [Hy _]]; simpl in *; congruence.
Qed.

Lemma demo_fine_start : freachable (E := StubExecutionEngine) demo_cfg (λ _, true) (λ _, True) (demo_fine 0).
Proof.
  apply fine_moves. unfold fine_new.
  eapply rtc_l; [apply fm_others, (ot_submit _ (demo_request 1)); reflexivity |].
  eapply rtc_l; [apply fm_others, (ot_submit _ (demo_request 2)); reflexivity |].
  eapply rtc_l; [apply fm_others, (ot_submit _ demo_bad); reflexivity |].
  apply rtc_once. change (demo_fine 0) with (fine_at Between (start demo_sys0)). apply fm_others, ot_start. reflexivity.
Qed.

Lemma fine_request_answered_witness :
  ∃ m g, (0 ≤ m)%nat ∧ resolution (fit_row 1) (λ _, False) demo_cfg (demo_request 2) g ∧
    ∀ k, (m ≤ k)%nat → state_of (sy_store (fy_sys (demo_fine k))) (result_promise (demo_request 2)) = Some g.
Proof.
  apply (fine_request_answered StubExecutionEngine _ (λ _, True) 4 (fit_row 1) (λ _, False) demo_cfg (λ _, true)
    demo_fine 0 (demo_request 2) demo_contract); try done.
  - apply demo_fine_run.
  - apply demo_fine_start.
  - vm_compute. right. left.
Defined.

(** [running_] has been cleared in the state after 32 steps. *)
Lemma fine_stop_returns_witness :
  ∃ m, (32 ≤ m)%nat ∧ fy_pc (demo_fine m) = Between ∧
    let y := fy_sys (demo_fine m) in
    sy_ctrl y = CtrlIdle ∧ sy_joinable y = false ∧ sy_running y = false ∧
    sy_worker y = Exited ∧ queue_ (qs_queue (sy_core y)) = [] ∧
    Forall (resolved (fit_row 1) (λ _, False) demo_cfg (sy_store y)) (qs_accepted (sy_core y)).
Proof.
  destruct (fine_stop_returns StubExecutionEngine _ (λ _, True) 4 (fit_row 1) (λ _, False) demo_cfg (λ _, true)
    demo_fine 32 demo_contract) as (m & Hm & Hpc & Hc & Hj & Hr & [(_ & Hx & _)|Hend]).
  1-4: done.
  - apply demo_fine_run.
  - apply demo_fine_ctrl.
  - apply demo_fine_start.
  - vm_compute. discriminate.
  - exfalso. revert Hx. vm_compute. discriminate.
  - exists m. exact (conj Hm (conj Hpc (conj Hc (conj Hj (conj Hr Hend))))).
Defined.
