(* ===== verification/MemoryPool.v ===== *)
(** * The memory pool

    [MemoryPool] and its RAII handle [PooledBuffer] (src/cpp/src/memory/memory_pool.cpp,
    src/cpp/include/cuda_db/memory/memory_pool.hpp). Device and pinned memory come from
    the CUDA runtime, which is not part of the sources: a [CudaHeap] records the blocks
    obtained from it, and the answer of each allocation call is an argument. The free
    lists, the handles (as the C++ objects that hold them, by name), the counters and the
    allocator calls are modelled operation by operation; [pstep] interleaves them. *)

From Stdlib Require Import ZArith Lia.
From stdpp Require Import base numbers strings relations gmap list.
From S2P Require Import Prelude Machine.

(** ** Data *)

(** What the CUDA runtime has handed out and not taken back: pointer to capacity and
    kind ([true] for pinned host memory). *)
Abbreviation CudaHeap := (gmap positive (Z * bool)).

(** A block: pointer, capacity, kind. *)
Abbreviation block := (positive * (Z * bool))%type.

Record PooledBuffer := {
  pool_ : bool; (* attached to a pool *)
  ptr_ : option positive;
  capacity_ : Z;
  requested_ : Z;
  pinned_ : bool
}.

Definition empty_buffer : PooledBuffer :=
  {| pool_ := false; ptr_ := None; capacity_ := 0; requested_ := 0; pinned_ := false |}.

Record MemoryPoolStats := {
  acquisitions : Z;
  cache_hits : Z;
  cudamalloc_calls : Z;
  bytes_in_use : Z;
  bytes_cached : Z;
  live_handles : Z
}.

Definition zero_pool_stats : MemoryPoolStats :=
  {| acquisitions := 0; cache_hits := 0; cudamalloc_calls := 0; bytes_in_use := 0;
     bytes_cached := 0; live_handles := 0 |}.

(** [std::unordered_map<std::size_t, std::vector<void*>>]: [operator[]] creates an empty
    list for a missing bucket. *)
Abbreviation FreeLists := (gmap Z (list positive)).

Record MemoryPool := {
  device_free_ : FreeLists;
  pinned_free_ : FreeLists;
  device_id_ : Z;
  stats_ : MemoryPoolStats
}.

Definition new_MemoryPool (device_id : Z) : MemoryPool :=
  {| device_free_ := ∅; pinned_free_ := ∅; device_id_ := device_id; stats_ := zero_pool_stats |}.

(** ** [bucket_for] *)

Definition kMinBucket : Z := 4096.

(** The doubling loop with [fuel] iterations left; [None] when they do not suffice. *)
Fixpoint bucket_loop (fuel : nat) (bucket bytes : Z) : option Z :=
  if bucket <? bytes then
    match fuel with
    | O => None
    | S fuel => bucket_loop fuel (u64_shl1 bucket) bytes
    end
  else Some bucket.

(** 64 iterations are enough for every input on which the loop ends
    ([bucket_loop_least], [bucket_loop_overflow]). *)
Definition bucket_for (bytes : Z) : option Z :=
  if bytes <=? kMinBucket then Some kMinBucket else bucket_loop 64 kMinBucket bytes.

(** ** The allocator *)

(** What the runtime answers: a pointer, or an error and its text. *)
Abbreviation cuda_answer := (positive + string)%type.

Definition cuda_check {A} (what : string) (answer : A + string) : outcome A :=
  match answer with
  | inl a => Ret a
  | inr msg => Throw (CudaError (what +:+ ": " +:+ msg))
  end.

(** [allocate_block]; [set_device] is the answer of [cudaSetDevice]. *)
Definition allocate_block (capacity : Z) (pinned : bool) (set_device : unit + string)
    (answer : cuda_answer) (h : CudaHeap) : outcome (positive * CudaHeap) :=
  if pinned then
    ptr ← cuda_check "cudaHostAlloc" answer; Ret (ptr, <[ptr := (capacity, pinned)]> h)
  else
    _ ← cuda_check "cudaSetDevice" set_device;
    ptr ← cuda_check "cudaMalloc" answer; Ret (ptr, <[ptr := (capacity, pinned)]> h).

Definition free_block (ptr : positive) (h : CudaHeap) : CudaHeap := delete ptr h.

(** ** [acquire_device] and [acquire_pinned] *)

Definition free_lists (pinned : bool) (p : MemoryPool) : FreeLists :=
  if pinned then pinned_free_ p else device_free_ p.

Definition with_free (pinned : bool) (f : FreeLists) (s : MemoryPoolStats) (p : MemoryPool) : MemoryPool :=
  if pinned
  then {| device_free_ := device_free_ p; pinned_free_ := f; device_id_ := device_id_ p; stats_ := s |}
  else {| device_free_ := f; pinned_free_ := pinned_free_ p; device_id_ := device_id_ p; stats_ := s |}.

Definition count_acquisition (s : MemoryPoolStats) : MemoryPoolStats :=
  {| acquisitions := u64_add (acquisitions s) 1; cache_hits := cache_hits s;
     cudamalloc_calls := cudamalloc_calls s; bytes_in_use := bytes_in_use s;
     bytes_cached := bytes_cached s; live_handles := live_handles s |}.

Definition count_hit (capacity : Z) (s : MemoryPoolStats) : MemoryPoolStats :=
  {| acquisitions := acquisitions s; cache_hits := u64_add (cache_hits s) 1;
     cudamalloc_calls := cudamalloc_calls s; bytes_in_use := bytes_in_use s;
     bytes_cached := u64_sub (bytes_cached s) capacity; live_handles := live_handles s |}.

(** Only device allocations are counted. *)
Definition count_malloc (pinned : bool) (s : MemoryPoolStats) : MemoryPoolStats :=
  {| acquisitions := acquisitions s; cache_hits := cache_hits s;
     cudamalloc_calls := if pinned then cudamalloc_calls s else u64_add (cudamalloc_calls s) 1;
     bytes_in_use := bytes_in_use s; bytes_cached := bytes_cached s; live_handles := live_handles s |}.

Definition count_checkout (capacity : Z) (s : MemoryPoolStats) : MemoryPoolStats :=
  {| acquisitions := acquisitions s; cache_hits := cache_hits s;
     cudamalloc_calls := cudamalloc_calls s; bytes_in_use := u64_add (bytes_in_use s) capacity;
     bytes_cached := bytes_cached s; live_handles := u64_add (live_handles s) 1 |}.

(** The back of a free list and the rest. *)
Definition pop_back (l : list positive) : option (positive * list positive) :=
  match reverse l with
  | [] => None
  | p :: rest => Some (p, reverse rest)
  end.

(** The two functions differ in the free list they use, the allocation call and the
    counting of misses. [None]: the call does not return ([bucket_for] loops). *)
Definition acquire (pinned : bool) (bytes : Z) (set_device : unit + string) (answer : cuda_answer)
    (p : MemoryPool) (h : CudaHeap) : option (MemoryPool * CudaHeap * outcome PooledBuffer) :=
  capacity ← bucket_for bytes;
  let s := count_acquisition (stats_ p) in
  let free_list := default [] (free_lists pinned p !! capacity) in
  let handle ptr := {| pool_ := true; ptr_ := Some ptr; capacity_ := capacity;
                       requested_ := bytes; pinned_ := pinned |} in
  match pop_back free_list with
  | Some (ptr, rest) =>
      Some (with_free pinned (<[capacity := rest]> (free_lists pinned p))
              (count_checkout capacity (count_hit capacity s)) p, h, Ret (handle ptr))
  | None =>
      let f := <[capacity := free_list]> (free_lists pinned p) in
      Some match allocate_block capacity pinned set_device answer h with
           | Ret (ptr, h') =>
               (with_free pinned f (count_checkout capacity (count_malloc pinned s)) p, h', Ret (handle ptr))
           | Throw e => (with_free pinned f s p, h, Throw e)
           | Undefined => (with_free pinned f s p, h, Undefined)
           end
  end.

Definition acquire_device := acquire false.
Definition acquire_pinned := acquire true.

(** ** [release], [trim], [stats], the destructor *)

Definition pool_release (ptr : positive) (capacity : Z) (pinned : bool) (p : MemoryPool) : MemoryPool :=
  let f := free_lists pinned p in
  with_free pinned (<[capacity := default [] (f !! capacity) ++ [ptr]]> f)
    {| acquisitions := acquisitions (stats_ p); cache_hits := cache_hits (stats_ p);
       cudamalloc_calls := cudamalloc_calls (stats_ p);
       bytes_in_use := u64_sub (bytes_in_use (stats_ p)) capacity;
       bytes_cached := u64_add (bytes_cached (stats_ p)) capacity;
       live_handles := u64_sub (live_handles (stats_ p)) 1 |} p.

(** One block of the loops of [trim]: freed and subtracted. *)
Definition trim_block (acc : CudaHeap * MemoryPoolStats) (b : block) : CudaHeap * MemoryPoolStats :=
  let '(h, s) := acc in
  let '(ptr, (capacity, _)) := b in
  (free_block ptr h,
   {| acquisitions := acquisitions s; cache_hits := cache_hits s;
      cudamalloc_calls := cudamalloc_calls s; bytes_in_use := bytes_in_use s;
      bytes_cached := u64_sub (bytes_cached s) capacity; live_handles := live_handles s |}).

(** The cached blocks of one kind, bucket after bucket. *)
Definition tag (pinned : bool) (bucket : Z * list positive) : list block :=
  (λ ptr, (ptr, (bucket.1, pinned))) <$> bucket.2.
Definition free_blocks (pinned : bool) (f : FreeLists) : list block :=
  concat (tag pinned <$> map_to_list f).

(** The buckets stay in the map with empty lists. *)
Definition trim (p : MemoryPool) (h : CudaHeap) : MemoryPool * CudaHeap :=
  let '(h, s) := foldl trim_block (h, stats_ p)
                   (free_blocks false (device_free_ p) ++ free_blocks true (pinned_free_ p)) in
  ({| device_free_ := (λ _, []) <$> device_free_ p; pinned_free_ := (λ _, []) <$> pinned_free_ p;
      device_id_ := device_id_ p; stats_ := s |}, h).

Definition pool_stats (p : MemoryPool) : MemoryPoolStats := stats_ p.

(** [~MemoryPool]: [None] is [std::terminate]. *)
Definition pool_destroy (p : MemoryPool) (h : CudaHeap) : option (MemoryPool * CudaHeap) :=
  if negb (live_handles (stats_ p) =? 0) then None else Some (trim p h).

(** ** PooledBuffer *)

(** [release()]: give the block back, become empty ([pinned_] is left alone). *)
Definition buffer_release (b : PooledBuffer) (p : MemoryPool) : PooledBuffer * MemoryPool :=
  let p' := match pool_ b, ptr_ b with
            | true, Some ptr => pool_release ptr (capacity_ b) (pinned_ b) p
            | _, _ => p
            end in
  ({| pool_ := false; ptr_ := None; capacity_ := 0; requested_ := 0; pinned_ := pinned_ b |}, p').

(** Move construction: the new handle and the moved-from one. *)
Definition buffer_move (other : PooledBuffer) : PooledBuffer * PooledBuffer := (other, empty_buffer).

(** Move assignment between different objects: [this], [other], pool. *)
Definition buffer_move_assign (this other : PooledBuffer) (p : MemoryPool) :
  PooledBuffer * PooledBuffer * MemoryPool :=
  let '(_, p') := buffer_release this p in (other, empty_buffer, p').

Definition size_bytes (b : PooledBuffer) : Z := requested_ b.
Definition capacity_bytes (b : PooledBuffer) : Z := capacity_ b.
Definition buffer_empty (b : PooledBuffer) : bool := match ptr_ b with None => true | _ => false end.

(** ** [bucket_for] computes the least bucket *)

Lemma bucket_loop_least k fuel bytes :
  (k ≤ 51)%nat → (k + fuel = 64)%nat → 4096 * 2 ^ Z.of_nat k < 2 * bytes → bytes ≤ two63 →
  ∃ n, (k ≤ n ≤ 51)%nat ∧ bucket_loop fuel (4096 * 2 ^ Z.of_nat k) bytes = Some (4096 * 2 ^ Z.of_nat n) ∧
    bytes ≤ 4096 * 2 ^ Z.of_nat n < 2 * bytes.
Proof.
  revert k. induction fuel as [|fuel IH]; intros k Hk Hf Hlo Hhi; [lia |]. simpl.
  destruct (Z.ltb_spec (4096 * 2 ^ Z.of_nat k) bytes) as [Hlt|Hge].
  - assert (Hpow : 4096 * 2 ^ Z.of_nat (S k) = 2 * (4096 * 2 ^ Z.of_nat k)).
    { rewrite Nat2Z.inj_succ, Z.pow_succ_r by lia. lia. }
    pose proof (Z.pow_pos_nonneg 2 (Z.of_nat k)).
    rewrite u64_shl1_small, <- Hpow by lia.
    assert (Hk' : k ≠ 51%nat).
    { intros ->. change (4096 * 2 ^ Z.of_nat 51) with two63 in Hlt. lia. }
    destruct (IH (S k)) as (n & Hn & Hb); [lia | lia | lia | lia |]. exists n. split; [lia | done].
  - exists k. split; [lia |]. split; [done | lia].
Qed.

Lemma bucket_for_Some bytes :
  0 ≤ bytes ≤ two63 →
  ∃ n, (n ≤ 51)%nat ∧ bucket_for bytes = Some (kMinBucket * 2 ^ Z.of_nat n) ∧
    bytes ≤ kMinBucket * 2 ^ Z.of_nat n ∧ (n = 0%nat ∨ kMinBucket * 2 ^ Z.of_nat n < 2 * bytes).
Proof.
  intros Hb. unfold bucket_for, kMinBucket. destruct (Z.leb_spec bytes 4096).
  - exists 0%nat. split; [lia |]. split; [done |]. change (2 ^ Z.of_nat 0) with 1. lia.
  - destruct (bucket_loop_least 0 64 bytes) as (n & Hn & Heq & Hlo); [lia | lia | | lia |].
    { change (2 ^ Z.of_nat 0) with 1. lia. }
    exists n. split; [lia |]. split; [exact Heq |]. lia.
Qed.

(** Beyond 2^63 the doubled bucket wraps to zero and stays there. *)
Lemma bucket_loop_zero fuel bytes : 0 < bytes → bucket_loop fuel 0 bytes = None.
Proof.
  intros Hb. induction fuel as [|fuel IH]; simpl; destruct (Z.ltb_spec 0 bytes); try lia; done.
Qed.

Lemma bucket_loop_overflow k fuel bytes :
  (k ≤ 51)%nat → two63 < bytes → bucket_loop fuel (4096 * 2 ^ Z.of_nat k) bytes = None.
Proof.
  intros Hk Hb. revert k Hk. induction fuel as [|fuel IH]; intros k Hk; simpl.
  all: assert (Hle : 2 ^ Z.of_nat k ≤ 2 ^ 51) by (apply Z.pow_le_mono_r; lia).
  all: change (2 ^ 51) with 2251799813685248 in Hle.
  all: destruct (Z.ltb_spec (4096 * 2 ^ Z.of_nat k) bytes); [| lia].
  - done.
  - destruct (decide (k = 51%nat)) as [->|Hne].
    + change (u64_shl1 (4096 * 2 ^ Z.of_nat 51)) with 0. apply bucket_loop_zero. lia.
    + assert (Hpow : 4096 * 2 ^ Z.of_nat (S k) = 2 * (4096 * 2 ^ Z.of_nat k)).
      { rewrite Nat2Z.inj_succ, Z.pow_succ_r by lia. lia. }
      assert (2 ^ Z.of_nat k ≤ 2 ^ 50) by (apply Z.pow_le_mono_r; lia).
      change (2 ^ 50) with 1125899906842624 in *.
      pose proof (Z.pow_pos_nonneg 2 (Z.of_nat k)).
      rewrite u64_shl1_small, <- Hpow by lia. apply IH. lia.
Qed.

(** ** Blocks held by the pool and by the handles *)

Definition caps (l : list block) : Z := foldr (λ b n, b.2.1 + n) 0 l.

#[export] Instance caps_proper : Proper ((≡ₚ) ==> (=)) caps.
Proof. induction 1; simpl; lia. Qed.

#[export] Instance vec_size_proper {A} : Proper ((≡ₚ) ==> (=)) (@vec_size A).
Proof. intros l1 l2 Hl. unfold vec_size. by rewrite Hl. Qed.

Lemma caps_app l1 l2 : caps (l1 ++ l2) = caps l1 + caps l2.
Proof. induction l1 as [|b l1 IH]; simpl; [lia |]. rewrite IH. lia. Qed.

Definition block_of (b : PooledBuffer) : option block :=
  match pool_ b, ptr_ b with
  | true, Some ptr => Some (ptr, (capacity_ b, pinned_ b))
  | _, _ => None
  end.

Abbreviation objects := (gmap positive PooledBuffer).

Definition live (objs : objects) : list block := map_values block_of objs.

Definition cached (p : MemoryPool) : list block :=
  free_blocks false (device_free_ p) ++ free_blocks true (pinned_free_ p).

Lemma free_blocks_insert k f c l :
  free_blocks k (<[c := l]> f) ≡ₚ tag k (c, l) ++ free_blocks k (delete c f).
Proof.
  unfold free_blocks. rewrite <- insert_delete_eq, map_to_list_insert by apply lookup_delete_eq. done.
Qed.

Lemma free_blocks_lookup k f c :
  free_blocks k f ≡ₚ tag k (c, default [] (f !! c)) ++ free_blocks k (delete c f).
Proof.
  destruct (f !! c) as [l|] eqn:Hc; simpl.
  - rewrite <- free_blocks_insert, insert_id; done.
  - by rewrite delete_id.
Qed.

Lemma free_blocks_cleared k (f : FreeLists) : free_blocks k ((λ _, []) <$> f) = [].
Proof.
  unfold free_blocks. rewrite map_to_list_fmap. induction (map_to_list f) as [|[c l] m IH]; [done |].
  exact IH.
Qed.

(** The free lists of the other kind are untouched. *)
Definition other_blocks (k : bool) (p : MemoryPool) : list block :=
  free_blocks (negb k) (free_lists (negb k) p).

Lemma cached_split k p : cached p ≡ₚ free_blocks k (free_lists k p) ++ other_blocks k p.
Proof. unfold cached, other_blocks. destruct k; simpl; [apply Permutation_app_comm | done]. Qed.

Lemma cached_with_free k f s p : cached (with_free k f s p) ≡ₚ free_blocks k f ++ other_blocks k p.
Proof. rewrite (cached_split k). unfold other_blocks. by destruct k. Qed.

Lemma stats_with_free k f s p : stats_ (with_free k f s p) = s.
Proof. by destruct k. Qed.

Lemma live_insert x b objs :
  objs !! x = None → live (<[x := b]> objs) ≡ₚ option_list (block_of b) ++ live objs.
Proof. apply map_values_insert. Qed.

Lemma live_delete x b objs :
  objs !! x = Some b → live objs ≡ₚ option_list (block_of b) ++ live (delete x objs).
Proof. apply map_values_delete. Qed.

Lemma pop_back_Some l p rest : pop_back l = Some (p, rest) ↔ l = rest ++ [p].
Proof.
  unfold pop_back. split.
  - destruct (reverse l) as [|q r] eqn:Hl; intros; simplify_eq.
    rewrite <- (reverse_involutive l), Hl. by rewrite reverse_cons.
  - intros ->. rewrite reverse_app. simpl. by rewrite reverse_involutive.
Qed.

Lemma pop_back_None l : pop_back l = None ↔ l = [].
Proof.
  unfold pop_back. split; [| by intros ->]. destruct (reverse l) eqn:Hl; [| done]. intros _.
  by rewrite <- (reverse_involutive l), Hl.
Qed.

(** ** The pool in use *)

(** The pool, the runtime's heap and the C++ objects of type [PooledBuffer]. *)
Record psys := { py_pool : MemoryPool; py_heap : CudaHeap; py_objs : objects }.

Definition pool_init (device_id : Z) : psys :=
  {| py_pool := new_MemoryPool device_id; py_heap := ∅; py_objs := ∅ |}.

(** The runtime never hands out a pointer that is still allocated. *)
Definition fresh_answer (answer : cuda_answer) (h : CudaHeap) : Prop :=
  ∀ ptr, answer = inl ptr → h !! ptr = None.

Inductive pstep : psys → psys → Prop :=
  | py_acquire s k bytes sd ans p h b x :
      is_u64 bytes → fresh_answer ans (py_heap s) → py_objs s !! x = None →
      acquire k bytes sd ans (py_pool s) (py_heap s) = Some (p, h, Ret b) →
      pstep s {| py_pool := p; py_heap := h; py_objs := <[x := b]> (py_objs s) |}
  | py_acquire_throws s k bytes sd ans p h e :
      is_u64 bytes → acquire k bytes sd ans (py_pool s) (py_heap s) = Some (p, h, Throw e) →
      pstep s {| py_pool := p; py_heap := h; py_objs := py_objs s |}
  | py_default s x : py_objs s !! x = None →
      pstep s {| py_pool := py_pool s; py_heap := py_heap s;
                 py_objs := <[x := empty_buffer]> (py_objs s) |}
  | py_move s x y b : py_objs s !! y = Some b → py_objs s !! x = None →
      pstep s {| py_pool := py_pool s; py_heap := py_heap s;
                 py_objs := <[x := (buffer_move b).1]> (<[y := (buffer_move b).2]> (py_objs s)) |}
  | py_assign s x y bx by_ bx' by' p : x ≠ y → py_objs s !! x = Some bx → py_objs s !! y = Some by_ →
      buffer_move_assign bx by_ (py_pool s) = (bx', by', p) →
      pstep s {| py_pool := p; py_heap := py_heap s; py_objs := <[x := bx']> (<[y := by']> (py_objs s)) |}
  | py_destroy s x b b' p : py_objs s !! x = Some b → buffer_release b (py_pool s) = (b', p) →
      pstep s {| py_pool := p; py_heap := py_heap s; py_objs := delete x (py_objs s) |}
  | py_trim s p h : trim (py_pool s) (py_heap s) = (p, h) →
      pstep s {| py_pool := p; py_heap := h; py_objs := py_objs s |}.

Definition preachable : psys → Prop := reachable (λ s, ∃ d, s = pool_init d) pstep.

(** A handle is detached and empty, or owns a block of the bucket its request maps to. *)
Definition handle_ok (b : PooledBuffer) : Prop :=
  if pool_ b then is_Some (ptr_ b) ∧ bucket_for (requested_ b) = Some (capacity_ b) ∧ is_u64 (requested_ b)
  else ptr_ b = None ∧ capacity_ b = 0 ∧ requested_ b = 0.

Definition counters_ok (p : MemoryPool) (objs : objects) : Prop :=
  bytes_in_use (stats_ p) = u64 (caps (live objs)) ∧
  bytes_cached (stats_ p) = u64 (caps (cached p)) ∧
  live_handles (stats_ p) = u64 (vec_size (live objs)).

(** Every block obtained from the runtime is held by exactly one handle or one free-list
    entry, under its true capacity and kind, and the counters say so. *)
Record pool_inv (s : psys) : Prop := {
  pi_blocks : live (py_objs s) ++ cached (py_pool s) ≡ₚ map_to_list (py_heap s);
  pi_handles : map_Forall (λ _, handle_ok) (py_objs s);
  pi_counters : counters_ok (py_pool s) (py_objs s)
}.

(** *** Preservation *)

Lemma block_of_handle b :
  handle_ok b → option_list (block_of b) = [] ∧ pool_ b = false ∧ ptr_ b = None ∨
  ∃ ptr, block_of b = Some (ptr, (capacity_ b, pinned_ b)) ∧ pool_ b = true ∧ ptr_ b = Some ptr.
Proof.
  unfold handle_ok, block_of. destruct (pool_ b); [| intros (-> & _); by left].
  intros ([ptr ->] & _). right. by exists ptr.
Qed.

(** Giving a block back moves it from the live to the cached blocks. *)
Lemma release_blocks ptr c k p :
  cached (pool_release ptr c k p) ≡ₚ (ptr, (c, k)) :: cached p.
Proof.
  unfold pool_release. rewrite cached_with_free, (cached_split k p).
  rewrite free_blocks_insert, (free_blocks_lookup k (free_lists k p) c). unfold tag. simpl.
  rewrite fmap_app. simpl. rewrite <- !app_assoc. simpl. by rewrite <- Permutation_middle.
Qed.

Lemma release_handle b b' p p' :
  handle_ok b → buffer_release b p = (b', p') →
  handle_ok b' ∧ block_of b' = None ∧ cached p' ≡ₚ option_list (block_of b) ++ cached p ∧
  (∀ rest, bytes_in_use (stats_ p) = u64 (caps (option_list (block_of b) ++ rest)) →
           bytes_in_use (stats_ p') = u64 (caps rest)) ∧
  (bytes_cached (stats_ p) = u64 (caps (cached p)) → bytes_cached (stats_ p') = u64 (caps (cached p'))) ∧
  (∀ rest, live_handles (stats_ p) = u64 (vec_size (option_list (block_of b) ++ rest)) →
           live_handles (stats_ p') = u64 (vec_size rest)).
Proof.
  intros Hok Hrel. unfold buffer_release in Hrel. simplify_eq. split; [done |]. split; [done |].
  destruct (block_of_handle b Hok) as [(Hb & Hp & Hq)|(ptr & Hb & Hp & Hq)]; rewrite Hb, Hp, ?Hq; simpl.
  - done.
  - split; [apply release_blocks |]. rewrite release_blocks. unfold pool_release. rewrite stats_with_free. simpl.
    split_and!.
    + intros rest ->. rewrite u64_sub_u64. f_equal. lia.
    + intros ->. rewrite u64_add_u64. f_equal. lia.
    + intros rest ->. rewrite u64_sub_u64. f_equal. unfold vec_size. simpl. lia.
Qed.

(** What [acquire] does to the blocks: one more live block, taken from the cache or from
    the runtime. *)
Lemma acquire_Ret k bytes sd ans p h p' h' b :
  acquire k bytes sd ans p h = Some (p', h', Ret b) → is_u64 bytes → fresh_answer ans h →
  ∃ blk, block_of b = Some blk ∧ handle_ok b ∧ requested_ b = bytes ∧ pinned_ b = k ∧
    blk :: cached p' ++ map_to_list h ≡ₚ cached p ++ map_to_list h' ∧
    (∀ lv, bytes_in_use (stats_ p) = u64 (caps lv) → bytes_in_use (stats_ p') = u64 (caps (blk :: lv))) ∧
    (bytes_cached (stats_ p) = u64 (caps (cached p)) → bytes_cached (stats_ p') = u64 (caps (cached p'))) ∧
    (∀ lv, live_handles (stats_ p) = u64 (vec_size lv) →
           live_handles (stats_ p') = u64 (vec_size (blk :: lv))).
Proof.
  unfold acquire. intros Hacq Hb Hfresh. destruct (bucket_for bytes) as [c|] eqn:Hc; simpl in Hacq; [| done].
  assert (Huse : ∀ lv : list block, ∀ n, n = u64 (caps lv) → u64_add n c = u64 (c + caps lv)).
  { intros lv n ->. rewrite u64_add_u64. f_equal. lia. }
  assert (Hlive : ∀ lv : list block, ∀ n, n = u64 (vec_size lv) → ∀ blk, u64_add n 1 = u64 (vec_size (blk :: lv))).
  { intros lv n -> blk. rewrite u64_add_u64. f_equal. unfold vec_size. simpl. lia. }
  destruct (pop_back _) as [[ptr rest]|] eqn:Hpop.
  - apply pop_back_Some in Hpop. simplify_eq. eexists. split; [done |].
    assert (Hcached : cached p ≡ₚ (ptr, (c, k)) :: cached (with_free k (<[c := rest]> (free_lists k p))
      (count_checkout c (count_hit c (count_acquisition (stats_ p)))) p)).
    { rewrite cached_with_free, (cached_split k p), free_blocks_insert, (free_blocks_lookup k (free_lists k p) c), Hpop.
      unfold tag. simpl. rewrite fmap_app. simpl. rewrite <- !app_assoc. simpl. by rewrite <- Permutation_middle. }
    split; [by unfold handle_ok; simpl; eauto |]. split; [done |]. split; [done |].
    split; [by rewrite Hcached |]. rewrite stats_with_free. simpl. split; [auto |]. split; [| auto].
    intros ->. rewrite Hcached, u64_sub_u64. f_equal. simpl. lia.
  - apply pop_back_None in Hpop. rewrite Hpop in Hacq.
    assert (Hsame : ∀ s, cached (with_free k (<[c := []]> (free_lists k p)) s p) ≡ₚ cached p).
    { intros s. rewrite cached_with_free, (cached_split k p), free_blocks_insert, (free_blocks_lookup k (free_lists k p) c), Hpop.
      done. }
    destruct (allocate_block _ _ _ _ _) as [[ptr h1]|x|] eqn:Hal; simplify_eq.
    assert (Hh : h' = <[ptr := (c, k)]> h ∧ ans = inl ptr).
    { unfold allocate_block in Hal. destruct k, sd, ans; simpl in Hal; simplify_eq; done. }
    destruct Hh as [-> ->]. eexists. split; [done |].
    split; [by unfold handle_ok; simpl; eauto |]. split; [done |]. split; [done |].
    rewrite stats_with_free. simpl. split; [| split; [auto | split; [| auto]]].
    + rewrite Hsame, map_to_list_insert by by apply Hfresh. by rewrite Permutation_middle.
    + by rewrite Hsame.
Qed.

Lemma acquire_Throw k bytes sd ans p h p' h' e :
  acquire k bytes sd ans p h = Some (p', h', Throw e) →
  h' = h ∧ cached p' ≡ₚ cached p ∧ bytes_in_use (stats_ p') = bytes_in_use (stats_ p) ∧
  bytes_cached (stats_ p') = bytes_cached (stats_ p) ∧ live_handles (stats_ p') = live_handles (stats_ p).
Proof.
  unfold acquire. destruct (bucket_for bytes) as [c|]; simpl; [| done].
  destruct (pop_back _) as [[ptr rest]|] eqn:Hpop; [done |]. apply pop_back_None in Hpop. rewrite Hpop.
  destruct (allocate_block _ _ _ _ _) as [[ptr h1]|x|]; intros Hacq; simplify_eq.
  rewrite stats_with_free. split; [done |]. split; [| done].
  rewrite cached_with_free, (cached_split k p), free_blocks_insert, (free_blocks_lookup k (free_lists k p) c), Hpop.
  done.
Qed.

(** Freeing a list of blocks that are in the heap takes exactly them out. *)
Lemma trim_blocks l h s :
  let '(h', s') := foldl trim_block (h, s) l in
  (∀ lv, lv ++ l ≡ₚ map_to_list h → lv ≡ₚ map_to_list h') ∧
  (∀ n, bytes_cached s = u64 (caps l + n) → bytes_cached s' = u64 n) ∧
  bytes_in_use s' = bytes_in_use s ∧ live_handles s' = live_handles s.
Proof.
  revert h s. induction l as [|[ptr [c k]] l IH]; intros h s; simpl.
  - split; [intros lv; by rewrite app_nil_r | done].
  - specialize (IH (free_block ptr h)
      {| acquisitions := acquisitions s; cache_hits := cache_hits s; cudamalloc_calls := cudamalloc_calls s;
         bytes_in_use := bytes_in_use s; bytes_cached := u64_sub (bytes_cached s) c;
         live_handles := live_handles s |}).
    destruct (foldl trim_block _ l) as [h' s']. destruct IH as (IH1 & IH2 & IH3 & IH4).
    split_and!; [| | done | done].
    + intros lv Hlv. apply IH1. rewrite <- Permutation_middle in Hlv.
      assert (Hin : h !! ptr = Some (c, k)).
      { apply elem_of_map_to_list. rewrite <- Hlv. by left. }
      unfold free_block. apply (Permutation_cons_inv (a := (ptr, (c, k)))).
      by rewrite Hlv, map_to_list_delete.
    + intros n Hn. apply IH2. simpl. rewrite Hn, u64_sub_u64. f_equal. lia.
Qed.

Lemma trim_inv p h p' h' :
  trim p h = (p', h') →
  cached p' = [] ∧ (∀ lv, lv ++ cached p ≡ₚ map_to_list h → lv ≡ₚ map_to_list h') ∧
  (bytes_cached (stats_ p) = u64 (caps (cached p)) → bytes_cached (stats_ p') = 0) ∧
  bytes_in_use (stats_ p') = bytes_in_use (stats_ p) ∧ live_handles (stats_ p') = live_handles (stats_ p).
Proof.
  unfold trim. pose proof (trim_blocks (cached p) h (stats_ p)) as Ht. fold (cached p).
  destruct (foldl trim_block _ _) as [h1 s1]. intros Heq. simplify_eq.
  destruct Ht as (H1 & H2 & H3 & H4). split_and!; simpl; try done.
  - unfold cached. simpl. by rewrite !free_blocks_cleared.
  - intros Hb. apply (H2 0). by rewrite Z.add_0_r.
Qed.

Lemma pool_inv_init d : pool_inv (pool_init d).
Proof. split; [done | apply map_Forall_empty | done]. Qed.

Lemma pool_inv_acquire s k bytes sd ans p h b x :
  pool_inv s → is_u64 bytes → fresh_answer ans (py_heap s) → py_objs s !! x = None →
  acquire k bytes sd ans (py_pool s) (py_heap s) = Some (p, h, Ret b) →
  pool_inv {| py_pool := p; py_heap := h; py_objs := <[x := b]> (py_objs s) |}.
Proof.
  intros [Hb Hh (Hc1 & Hc2 & Hc3)] Hu Hf Hx Hacq.
  destruct (acquire_Ret _ _ _ _ _ _ _ _ _ Hacq Hu Hf) as (blk & Hblk & Hok & _ & _ & Hperm & Huse & Hca & Hlv).
  split; simpl.
  - rewrite live_insert, Hblk by done. simpl.
    apply (Permutation_app_inv_l (cached (py_pool s))). rewrite <- Hperm, <- Hb. solve_Permutation.
  - by apply map_Forall_insert_2.
  - unfold counters_ok. rewrite live_insert, Hblk by done. simpl.
    split_and!; [by apply Huse | by apply Hca | by apply Hlv].
Qed.

Lemma pool_inv_destroy s x b b' p :
  pool_inv s → py_objs s !! x = Some b → buffer_release b (py_pool s) = (b', p) →
  pool_inv {| py_pool := p; py_heap := py_heap s; py_objs := delete x (py_objs s) |}.
Proof.
  intros [Hb Hh (Hc1 & Hc2 & Hc3)] Hx Hrel.
  pose proof (map_Forall_lookup_1 _ _ _ _ Hh Hx) as Hok.
  destruct (release_handle _ _ _ _ Hok Hrel) as (_ & _ & Hca & Huse & Hbc & Hlv).
  split; simpl.
  - rewrite Hca, <- Hb, (live_delete x b (py_objs s)) by done. solve_Permutation.
  - by apply map_Forall_delete.
  - unfold counters_ok. split_and!; [| by apply Hbc |].
    + apply Huse. by rewrite <- live_delete.
    + apply Hlv. by rewrite <- live_delete.
Qed.

Lemma live_overwrite y b b' objs :
  objs !! y = Some b → block_of b' = None →
  live objs ≡ₚ option_list (block_of b) ++ live (<[y := b']> objs).
Proof.
  intros Hy Hb. rewrite <- (insert_delete_eq objs y b'), live_insert, Hb by apply lookup_delete_eq.
  by apply live_delete.
Qed.

Lemma live_move x y b objs :
  objs !! y = Some b → objs !! x = None →
  live (<[x := b]> (<[y := empty_buffer]> objs)) ≡ₚ live objs.
Proof.
  intros Hy Hx. rewrite live_insert; [by rewrite <- live_overwrite |].
  rewrite lookup_insert_ne; [done | congruence].
Qed.

(** Steps that leave the pool and the set of live blocks as they are. *)
Lemma pool_inv_objs s objs :
  pool_inv s → live objs ≡ₚ live (py_objs s) → map_Forall (λ _, handle_ok) objs →
  pool_inv {| py_pool := py_pool s; py_heap := py_heap s; py_objs := objs |}.
Proof.
  intros [Hb Hh (Hc1 & Hc2 & Hc3)] Hl Hok. split; simpl; [by rewrite Hl | done |].
  unfold counters_ok. by rewrite Hl.
Qed.

Lemma pool_inv_move s x y b :
  pool_inv s → py_objs s !! y = Some b → py_objs s !! x = None →
  pool_inv {| py_pool := py_pool s; py_heap := py_heap s;
              py_objs := <[x := b]> (<[y := empty_buffer]> (py_objs s)) |}.
Proof.
  intros HI Hy Hx. apply pool_inv_objs; [done | by apply live_move |].
  destruct HI as [_ Hh _]. apply map_Forall_insert_2; [exact (map_Forall_lookup_1 _ _ _ _ Hh Hy) |].
  by apply map_Forall_insert_2.
Qed.

Lemma pool_inv_assign s x y bx by_ bx' by' p :
  pool_inv s → x ≠ y → py_objs s !! x = Some bx → py_objs s !! y = Some by_ →
  buffer_move_assign bx by_ (py_pool s) = (bx', by', p) →
  pool_inv {| py_pool := p; py_heap := py_heap s; py_objs := <[x := bx']> (<[y := by']> (py_objs s)) |}.
Proof.
  intros HI Hne Hx Hy Has. unfold buffer_move_assign in Has.
  destruct (buffer_release bx (py_pool s)) as [b0 p0] eqn:Hrel. simplify_eq.
  pose proof (pool_inv_destroy _ _ _ _ _ HI Hx Hrel) as HI1.
  apply (pool_inv_move _ x y bx') in HI1; simpl in *.
  - rewrite <- (insert_delete_eq (<[y := empty_buffer]> (py_objs s))).
    by rewrite delete_insert_ne by done.
  - by rewrite lookup_delete_ne.
  - apply lookup_delete_eq.
Qed.

Lemma pool_inv_step s s' : pool_inv s → pstep s s' → pool_inv s'.
Proof.
  intros HI Hstep.
  destruct Hstep as [s k bytes sd ans p h b x Hu Hf Hx Hacq|s k bytes sd ans p h e Hu Hacq|s x Hx
    |s x y b Hy Hx|s x y bx by_ bx' by' p Hne Hx Hy Has|s x b b' p Hx Hrel|s p h Ht].
  - by eapply pool_inv_acquire.
  - apply acquire_Throw in Hacq as (-> & Hca & H1 & H2 & H3).
    destruct HI as [Hb Hh (Hc1 & Hc2 & Hc3)]. split; simpl; [by rewrite Hca | done |].
    unfold counters_ok. rewrite Hca. split_and!; congruence.
  - apply pool_inv_objs; [done | by rewrite live_insert | apply map_Forall_insert_2; [done | by destruct HI]].
  - by apply pool_inv_move.
  - by eapply pool_inv_assign.
  - by eapply pool_inv_destroy.
  - destruct HI as [Hb Hh (Hc1 & Hc2 & Hc3)].
    apply trim_inv in Ht as (Hca & Hl & Hbc & Hu & Hlh). split; simpl.
    + rewrite Hca, app_nil_r. by apply Hl.
    + done.
    + unfold counters_ok. rewrite Hca, Hu, Hlh, Hbc by done. done.
Qed.

Lemma pool_inv_reachable s : preachable s → pool_inv s.
Proof.
  apply invariant_reachable; [intros ? [d ->]; apply pool_inv_init |]. intros ?? HI Hs.
  by eapply pool_inv_step.
Qed.

(** *** What clients of the pool use *)

Lemma bucket_for_fits bytes c : is_u64 bytes → bucket_for bytes = Some c → bytes ≤ c ∧ c mod 4 = 0 ∧ 0 < c.
Proof.
  unfold is_u64. intros Hu Hbu. destruct (Z.leb_spec bytes two63) as [Hle|Hgt].
  - destruct (bucket_for_Some bytes) as (n & _ & Hbn & Hge & _); [lia |]. rewrite Hbn in Hbu. simplify_eq.
    split; [lia |]. unfold kMinBucket. pose proof (Z.pow_pos_nonneg 2 (Z.of_nat n)). split; [| lia].
    replace (4096 * 2 ^ Z.of_nat n) with (1024 * 2 ^ Z.of_nat n * 4) by lia. apply Z.mod_mul. lia.
  - unfold bucket_for, kMinBucket in Hbu. destruct (Z.leb_spec bytes 4096); [lia |].
    by rewrite (bucket_loop_overflow 0 64) in Hbu by lia.
Qed.

(** A non-empty handle owns a live block of its capacity that holds its request. *)
Lemma pool_inv_handle s x b ptr :
  pool_inv s → py_objs s !! x = Some b → ptr_ b = Some ptr →
  py_heap s !! ptr = Some (capacity_ b, pinned_ b) ∧ requested_ b ≤ capacity_ b ∧ capacity_ b mod 4 = 0.
Proof.
  intros [Hb Hh _] Hx Hp. pose proof (map_Forall_lookup_1 _ _ _ _ Hh Hx) as Hok.
  destruct (block_of_handle b Hok) as [(_ & _ & Hq)|(q & Hblk & Hpool & Hq)]; [congruence |]. split.
  - rewrite Hp in Hq. simplify_eq. apply elem_of_map_to_list. rewrite <- Hb.
    rewrite (live_delete x b) by done. rewrite Hblk. by left.
  - unfold handle_ok in Hok. rewrite Hpool in Hok. destruct Hok as (_ & Hbu & Hu).
    by destruct (bucket_for_fits _ _ Hu Hbu) as (? & ? & _).
Qed.

(** Two handles never share a block. *)
Lemma pool_inv_distinct s x y bx b p q :
  pool_inv s → x ≠ y → py_objs s !! x = Some bx → py_objs s !! y = Some b →
  ptr_ bx = Some p → ptr_ b = Some q → p ≠ q.
Proof.
  intros HI Hne Hx Hy Hp Hq ->. pose proof HI as [Hb Hh _].
  assert (Hnd : NoDup (live (py_objs s) ++ cached (py_pool s)).*1).
  { rewrite Hb. apply NoDup_fst_map_to_list. }
  assert (Hblk : ∀ z bz, py_objs s !! z = Some bz → ptr_ bz = Some q → ∃ c, block_of bz = Some (q, c)).
  { intros z bz Hz Hpz. destruct (block_of_handle bz (map_Forall_lookup_1 _ _ _ _ Hh Hz))
      as [(_ & _ & ?)|(r & ? & _ & ?)]; [congruence |]. simplify_eq. eauto. }
  destruct (Hblk _ _ Hx Hp) as [c1 H1]. destruct (Hblk _ _ Hy Hq) as [c2 H2].
  rewrite (live_delete x bx), H1 in Hnd by done.
  rewrite (live_delete y b), H2 in Hnd by by rewrite lookup_delete_ne.
  simpl in Hnd. apply NoDup_cons in Hnd as [Hni _]. apply Hni. by left.
Qed.

(** [acquire] returns or throws for every size that has a bucket, and its block is
    either recycled from the heap or new in it. *)
Lemma acquire_total k bytes sd ans p h :
  0 ≤ bytes ≤ two63 → ∃ p' h' o, acquire k bytes sd ans p h = Some (p', h', o) ∧ o ≠ Undefined.
Proof.
  intros Hb. destruct (bucket_for_Some bytes Hb) as (n & _ & Hc & _). unfold acquire. rewrite Hc. simpl.
  destruct (pop_back _) as [[ptr rest]|]; [by do 3 eexists |].
  destruct (allocate_block _ _ _ _ _) as [[ptr h1]|x|] eqn:Ha; [by do 3 eexists | by do 3 eexists |].
  exfalso. unfold allocate_block, cuda_check in Ha. by destruct k, sd, ans.
Qed.

Lemma acquire_answered k bytes sd ans p h p' h' e ptr :
  acquire k bytes sd ans p h = Some (p', h', Throw e) → sd = inl tt → ans = inl ptr → False.
Proof.
  unfold acquire. intros Hacq -> ->. destruct (bucket_for bytes) as [c|]; simpl in Hacq; [| done].
  destruct (pop_back _) as [[q rest]|]; [done |]. by destruct k.
Qed.

Lemma acquire_heap k bytes sd ans p h p' h' b :
  acquire k bytes sd ans p h = Some (p', h', Ret b) →
  pinned_ b = k ∧ requested_ b = bytes ∧
  ∃ ptr, ptr_ b = Some ptr ∧ (h' = h ∨ (h' = <[ptr := (capacity_ b, k)]> h ∧ ans = inl ptr)).
Proof.
  unfold acquire. destruct (bucket_for bytes) as [c|]; simpl; [| done].
  destruct (pop_back _) as [[ptr rest]|]; [intros; simplify_eq; split_and!; [done | done |]; eexists; eauto |].
  destruct (allocate_block _ _ _ _ _) as [[ptr h1]|x|] eqn:Ha; intros; simplify_eq.
  split_and!; [done | done |]. exists ptr. split; [done |]. right.
  unfold allocate_block, cuda_check in Ha. destruct k, sd, ans; simpl in Ha; simplify_eq; done.
Qed.

(** ** Properties *)

(** C38: [bucket_for] returns the least bucket. For every size up to 2^63 the doubling
    loop ends within its 64 iterations with a power of two times 4 KiB that holds
    [bytes], and the next smaller bucket would not; beyond 2^63 no number of iterations
    suffices: the shifted bucket wraps to zero and the loop never ends. *)
Theorem bucket_for_least (bytes : Z) (Hb : is_u64 bytes) :
  if bytes <=? two63 then
    ∃ n, (n ≤ 51)%nat ∧ bucket_for bytes = Some (kMinBucket * 2 ^ Z.of_nat n) ∧
      bytes ≤ kMinBucket * 2 ^ Z.of_nat n ∧ (n = 0%nat ∨ kMinBucket * 2 ^ Z.of_nat n < 2 * bytes)
  else ∀ fuel, bucket_loop fuel kMinBucket bytes = None.
Proof.
  unfold is_u64 in Hb. destruct (Z.leb_spec bytes two63); [apply bucket_for_Some; lia |].
  intros fuel. apply (bucket_loop_overflow 0); lia.
Qed.

(** C26: no aliasing and no leak. In every reachable state of a pool, the blocks obtained
    from the CUDA runtime are exactly those held by the live handles and those cached in
    the free lists, each once and under its true capacity and kind. Two different handles
    never share a block, and no handle's block is on a free list. *)
Theorem pool_blocks_owned_once (s : psys) (Hr : preachable s) :
  live (py_objs s) ++ cached (py_pool s) ≡ₚ map_to_list (py_heap s) ∧
  NoDup (live (py_objs s) ++ cached (py_pool s)).*1 ∧
  (∀ x b ptr, py_objs s !! x = Some b → ptr_ b = Some ptr →
     py_heap s !! ptr = Some (capacity_ b, pinned_ b) ∧ requested_ b ≤ capacity_ b).
Proof.
  pose proof (pool_inv_reachable s Hr) as HI. pose proof HI as [Hb Hh _].
  split; [done |]. split; [rewrite Hb; apply NoDup_fst_map_to_list |].
  intros x b ptr Hx Hp. by destruct (pool_inv_handle s x b ptr HI Hx Hp) as (? & ? & _).
Qed.

(** C30: the counters are exact. [bytes_in_use], [bytes_cached] and [live_handles] are, at
    every reachable point (failed acquisitions, moves and trims included), the total
    capacity of the checked-out blocks, that of the cached ones and the number of live
    handles, as 64-bit counters. *)
Theorem pool_counters_exact (s : psys) (Hr : preachable s) :
  bytes_in_use (pool_stats (py_pool s)) = u64 (caps (live (py_objs s))) ∧
  bytes_cached (pool_stats (py_pool s)) = u64 (caps (cached (py_pool s))) ∧
  live_handles (pool_stats (py_pool s)) = u64 (vec_size (live (py_objs s))).
Proof. apply (pool_inv_reachable s Hr). Qed.

(** A released block is reused. Acquiring a size of the same bucket and kind right
    after a release returns the very block that was released, whatever the runtime would
    answer (an out-of-memory error included): no allocation is made and the runtime's
    heap is unchanged. *)
Theorem released_block_is_reused (ptr : positive) (capacity bytes : Z) (pinned : bool)
  (set_device : unit + string) (answer : cuda_answer) (p : MemoryPool) (h : CudaHeap)
  (Hb : bucket_for bytes = Some capacity) :
  ∃ p' b, acquire pinned bytes set_device answer (pool_release ptr capacity pinned p) h = Some (p', h, Ret b) ∧
    ptr_ b = Some ptr ∧ size_bytes b = bytes ∧ capacity_bytes b = capacity ∧
    cudamalloc_calls (pool_stats p') = cudamalloc_calls (pool_stats p) ∧
    cache_hits (pool_stats p') = u64_add (cache_hits (pool_stats p)) 1.
Proof.
  unfold acquire. rewrite Hb. simpl.
  assert (Hf : free_lists pinned (pool_release ptr capacity pinned p) !! capacity =
    Some (default [] (free_lists pinned p !! capacity) ++ [ptr])).
  { unfold pool_release. destruct pinned; simpl; by rewrite lookup_insert_eq. }
  rewrite Hf. simpl. rewrite (proj2 (pop_back_Some _ _ _) eq_refl).
  do 2 eexists. split; [done |]. unfold pool_stats. rewrite stats_with_free. simpl.
  unfold pool_release. by rewrite stats_with_free.
Qed.

(** C37: destruction. With every handle gone, [~MemoryPool] returns all memory to the
    runtime: nothing is left allocated. With one handle alive (fewer than 2^64 of them)
    it calls [std::terminate] instead of leaving a dangling pointer. *)
Theorem pool_destructor_frees_all (s : psys) (Hr : preachable s)
  (Hn : vec_size (live (py_objs s)) < two64) :
  match pool_destroy (py_pool s) (py_heap s) with
  | Some (_, h) => live (py_objs s) = [] ∧ h = ∅
  | None => live (py_objs s) ≠ []
  end.
Proof.
  destruct (pool_inv_reachable s Hr) as [Hb _ (_ & _ & Hl)]. unfold pool_destroy.
  pose proof (vec_size_nonneg (live (py_objs s))).
  rewrite Hl, u64_id by (unfold is_u64; lia).
  destruct (Z.eqb_spec (vec_size (live (py_objs s))) 0) as [H0|H0]; simpl.
  - assert (Hnil : live (py_objs s) = []).
    { destruct (live (py_objs s)); [done |]. unfold vec_size in H0. simpl in H0. lia. }
    destruct (trim (py_pool s) (py_heap s)) as [p h] eqn:Ht. split; [done |].
    apply trim_inv in Ht as (_ & Ht & _). rewrite Hnil in *. specialize (Ht [] Hb).
    apply map_to_list_empty_iff, Permutation_nil_r. by symmetry.
  - intros Hnil. by rewrite Hnil in H0.
Qed.

(** ** Witnesses: a device and a pinned block, the device one released *)

Definition demo_pool1 : psys :=
  {| py_pool := {| device_free_ := {[ 8192 := [] ]}; pinned_free_ := ∅; device_id_ := 0;
       stats_ := {| acquisitions := 1; cache_hits := 0; cudamalloc_calls := 1;
                    bytes_in_use := 8192; bytes_cached := 0; live_handles := 1 |} |};
     py_heap := {[ 1%positive := (8192, false) ]};
     py_objs := {[ 1%positive := {| pool_ := true; ptr_ := Some 1%positive; capacity_ := 8192;
                                    requested_ := 5000; pinned_ := false |} ]} |}.

Definition demo_pool2 : psys :=
  {| py_pool := (buffer_release {| pool_ := true; ptr_ := Some 1%positive; capacity_ := 8192;
                                   requested_ := 5000; pinned_ := false |} (py_pool demo_pool1)).2;
     py_heap := py_heap demo_pool1; py_objs := delete 1%positive (py_objs demo_pool1) |}.

Lemma demo_pool1_reachable : preachable demo_pool1.
Proof.
  exists (pool_init 0). split; [by exists 0 |]. apply rtc_once.
  apply (py_acquire (pool_init 0) false 5000 (inl tt) (inl 1%positive) (py_pool demo_pool1)
    (py_heap demo_pool1) {| pool_ := true; ptr_ := Some 1%positive; capacity_ := 8192;
                            requested_ := 5000; pinned_ := false |} 1%positive).
  - done.
  - by intros ptr.
  - done.
  - vm_compute. reflexivity.
Qed.

Lemma demo_pool2_reachable : preachable demo_pool2.
Proof.
  eapply reachable_step; [exact demo_pool1_reachable |].
  eapply (py_destroy demo_pool1 1%positive); reflexivity.
Qed.

Lemma bucket_for_least_witness :
  (∃ n, (n ≤ 51)%nat ∧ bucket_for 602112 = Some (kMinBucket * 2 ^ Z.of_nat n) ∧
     602112 ≤ kMinBucket * 2 ^ Z.of_nat n ∧ (n = 0%nat ∨ kMinBucket * 2 ^ Z.of_nat n < 2 * 602112)) ∧
  (∀ fuel, bucket_loop fuel kMinBucket (two63 + 1) = None).
Proof. split; [exact (bucket_for_least 602112 ltac:(done)) | exact (bucket_for_least (two63 + 1) ltac:(done))]. Defined.

Lemma pool_blocks_owned_once_witness :
  py_heap demo_pool1 !! 1%positive = Some (8192, false) ∧ 5000 ≤ 8192.
Proof. exact (proj2 (proj2 (pool_blocks_owned_once demo_pool1 demo_pool1_reachable)) 1%positive _ _ eq_refl eq_refl). Defined.

Lemma pool_counters_exact_witness :
  bytes_cached (pool_stats (py_pool demo_pool2)) = u64 (caps (cached (py_pool demo_pool2))).
Proof. exact (proj1 (proj2 (pool_counters_exact demo_pool2 demo_pool2_reachable))). Defined.

Lemma released_block_is_reused_witness :
  ∃ p' b, acquire_device 8000 (inl tt) (inr "out of memory") (py_pool demo_pool2) (py_heap demo_pool2) =
      Some (p', py_heap demo_pool2, Ret b) ∧ ptr_ b = Some 1%positive ∧ size_bytes b = 8000 ∧
    capacity_bytes b = 8192 ∧ cudamalloc_calls (pool_stats p') = 1 ∧ cache_hits (pool_stats p') = u64_add 0 1.
Proof.
  exact (released_block_is_reused 1%positive 8192 8000 false (inl tt) (inr "out of memory")
    (py_pool demo_pool1) (py_heap demo_pool2) eq_refl).
Defined.

Lemma pool_destructor_frees_all_witness :
  match pool_destroy (py_pool demo_pool2) (py_heap demo_pool2) with
  | Some (_, h) => live (py_objs demo_pool2) = [] ∧ h = ∅
  | None => live (py_objs demo_pool2) ≠ []
  end.
Proof. exact (pool_destructor_frees_all demo_pool2 demo_pool2_reachable ltac:(done)). Defined.
