(* ===== verification/Buffers.v ===== *)
(** * The raw buffers

    [DeviceBuffer] (src/cpp/include/cuda_db/memory/device_buffer.hpp) and [PinnedBuffer]
    (src/cpp/include/cuda_db/memory/pinned_buffer.hpp): move-only owners of one CUDA
    allocation. The two classes have the same members and differ in the allocation and
    free calls, so the operations are written once over the kind of memory
    ([pinned = true] for [PinnedBuffer]). [bstep] interleaves the operations on any number
    of buffer objects. *)

From Stdlib Require Import ZArith Lia.
From stdpp Require Import base numbers strings relations gmap list.
From S2P Require Import Prelude Machine MemoryPool.

(** ** Data and operations *)

Record RawBuffer := {
  raw_ptr_ : option positive;
  raw_bytes_ : Z;
  raw_pinned : bool
}.

Definition raw_default (pinned : bool) : RawBuffer :=
  {| raw_ptr_ := None; raw_bytes_ := 0; raw_pinned := pinned |}.

Definition alloc_call (pinned : bool) : string := if pinned then "cudaHostAlloc" else "cudaMalloc".

(** [DeviceBuffer(bytes)], [PinnedBuffer(bytes)]: a zero-byte buffer allocates nothing. *)
Definition raw_new (pinned : bool) (bytes : Z) (answer : cuda_answer) (h : CudaHeap) :
  outcome (RawBuffer * CudaHeap) :=
  if 0 <? bytes then
    ptr ← cuda_check (alloc_call pinned) answer;
    Ret ({| raw_ptr_ := Some ptr; raw_bytes_ := bytes; raw_pinned := pinned |},
         <[ptr := (bytes, pinned)]> h)
  else Ret ({| raw_ptr_ := None; raw_bytes_ := bytes; raw_pinned := pinned |}, h).

(** [cudaFree] / [cudaFreeHost]: undefined on a pointer that is not a live allocation of
    that kind. *)
Definition cuda_free (pinned : bool) (ptr : positive) (h : CudaHeap) : outcome CudaHeap :=
  match h !! ptr with
  | Some (_, k) => if Bool.eqb k pinned then Ret (delete ptr h) else Undefined
  | None => Undefined
  end.

(** The destructors. *)
Definition raw_destroy (b : RawBuffer) (h : CudaHeap) : outcome CudaHeap :=
  match raw_ptr_ b with
  | Some ptr => cuda_free (raw_pinned b) ptr h
  | None => Ret h
  end.

(** Move construction: the new object and the moved-from one. *)
Definition raw_move (other : RawBuffer) : RawBuffer * RawBuffer := (other, raw_default (raw_pinned other)).

(** Move assignment between different objects of one class; the guard [this != &other]
    makes a self-assignment do nothing. *)
Definition raw_move_assign (this other : RawBuffer) (h : CudaHeap) :
  outcome (RawBuffer * RawBuffer * CudaHeap) :=
  h' ← raw_destroy this h; Ret (other, raw_default (raw_pinned other), h').

Definition raw_empty (b : RawBuffer) : bool := match raw_ptr_ b with None => true | _ => false end.
Definition raw_size_bytes (b : RawBuffer) : Z := raw_bytes_ b.

(** [copy_from_host_async] and [copy_to_host_async]: the guard, then the runtime's
    answer; [Ret] means the copy was queued. *)
Definition copy_from_host_async (b : RawBuffer) (bytes : Z) (answer : unit + string) : outcome unit :=
  if raw_bytes_ b <? bytes
  then Throw (CudaError "copy_from_host_async: bytes exceeds buffer capacity")
  else cuda_check "cudaMemcpyAsync (H2D)" answer.

Definition copy_to_host_async (b : RawBuffer) (bytes : Z) (answer : unit + string) : outcome unit :=
  if raw_bytes_ b <? bytes
  then Throw (CudaError "copy_to_host_async: bytes exceeds buffer capacity")
  else cuda_check "cudaMemcpyAsync (D2H)" answer.

(** ** Buffers in use *)

Record bsys := { by_heap : CudaHeap; by_objs : gmap positive RawBuffer }.

Inductive bstep : bsys → bsys → Prop :=
  | by_new s k bytes ans b h x :
      fresh_answer ans (by_heap s) → by_objs s !! x = None →
      raw_new k bytes ans (by_heap s) = Ret (b, h) →
      bstep s {| by_heap := h; by_objs := <[x := b]> (by_objs s) |}
  | by_default s k x : by_objs s !! x = None →
      bstep s {| by_heap := by_heap s; by_objs := <[x := raw_default k]> (by_objs s) |}
  | by_move s x y b : by_objs s !! y = Some b → by_objs s !! x = None →
      bstep s {| by_heap := by_heap s;
                 by_objs := <[x := (raw_move b).1]> (<[y := (raw_move b).2]> (by_objs s)) |}
  | by_assign s x y bx b bx' b' h : x ≠ y → by_objs s !! x = Some bx → by_objs s !! y = Some b →
      raw_pinned bx = raw_pinned b →
      raw_move_assign bx b (by_heap s) = Ret (bx', b', h) →
      bstep s {| by_heap := h; by_objs := <[x := bx']> (<[y := b']> (by_objs s)) |}
  | by_destroy s x b h : by_objs s !! x = Some b → raw_destroy b (by_heap s) = Ret h →
      bstep s {| by_heap := h; by_objs := delete x (by_objs s) |}.

Definition breachable : bsys → Prop := reachable (λ s, s = {| by_heap := ∅; by_objs := ∅ |}) bstep.

(** The allocation a buffer owns. *)
Definition raw_block (b : RawBuffer) : option block :=
  (λ ptr, (ptr, (raw_bytes_ b, raw_pinned b))) <$> raw_ptr_ b.

Definition owned (objs : gmap positive RawBuffer) : list block :=
  map_values raw_block objs.

Lemma owned_insert x b objs :
  objs !! x = None → owned (<[x := b]> objs) ≡ₚ option_list (raw_block b) ++ owned objs.
Proof. apply map_values_insert. Qed.

Lemma owned_delete x b objs :
  objs !! x = Some b → owned objs ≡ₚ option_list (raw_block b) ++ owned (delete x objs).
Proof. apply map_values_delete. Qed.

Lemma owned_move x y b objs :
  objs !! y = Some b → objs !! x = None →
  owned (<[x := b]> (<[y := raw_default (raw_pinned b)]> objs)) ≡ₚ owned objs.
Proof.
  intros Hy Hx. rewrite owned_insert by (rewrite lookup_insert_ne; [done | congruence]).
  rewrite <- (insert_delete_eq objs y), owned_insert by apply lookup_delete_eq. simpl.
  by rewrite <- owned_delete.
Qed.

(** Destroying an object frees exactly its own allocation, if it has one. *)
Lemma destroy_owned x b objs h :
  owned objs ≡ₚ map_to_list h → objs !! x = Some b →
  ∃ h', raw_destroy b h = Ret h' ∧ owned (delete x objs) ≡ₚ map_to_list h'.
Proof.
  intros Ho Hx. rewrite (owned_delete x b) in Ho by done. unfold raw_destroy, raw_block in *.
  destruct (raw_ptr_ b) as [ptr|]; simpl in Ho; [| by exists h].
  assert (Hin : h !! ptr = Some (raw_bytes_ b, raw_pinned b)).
  { apply elem_of_map_to_list. rewrite <- Ho. by left. }
  unfold cuda_free. rewrite Hin, Bool.eqb_reflx. eexists. split; [done |].
  apply (Permutation_cons_inv (a := (ptr, (raw_bytes_ b, raw_pinned b)))).
  by rewrite Ho, map_to_list_delete.
Qed.

Lemma assign_owned x y bx b objs h :
  owned objs ≡ₚ map_to_list h → x ≠ y → objs !! x = Some bx → objs !! y = Some b →
  ∃ h', raw_move_assign bx b h = Ret (b, raw_default (raw_pinned b), h') ∧
    owned (<[x := b]> (<[y := raw_default (raw_pinned b)]> objs)) ≡ₚ map_to_list h'.
Proof.
  intros Ho Hne Hx Hy. destruct (destroy_owned x bx objs h Ho Hx) as (h' & Hd & Ho').
  unfold raw_move_assign. rewrite Hd. exists h'. split; [done |]. rewrite <- Ho'.
  rewrite <- (insert_delete_eq (<[y := _]> objs)), delete_insert_ne by done.
  apply owned_move; [by rewrite lookup_delete_ne | apply lookup_delete_eq].
Qed.

Lemma owned_step s s' :
  owned (by_objs s) ≡ₚ map_to_list (by_heap s) → bstep s s' →
  owned (by_objs s') ≡ₚ map_to_list (by_heap s').
Proof.
  intros Ho Hstep.
  destruct Hstep as [s k bytes ans b h x Hf Hx Hn|s k x Hx|s x y b Hy Hx|s x y bx b bx' b' h Hne Hx Hy _ Ha|s x b h Hx Hd];
    simpl.
  - unfold raw_new in Hn. rewrite owned_insert by done. destruct (0 <? bytes); [| by simplify_eq].
    destruct ans as [ptr|msg]; simpl in Hn; simplify_eq. simpl.
    rewrite map_to_list_insert by by apply Hf. by rewrite Ho.
  - by rewrite owned_insert.
  - by rewrite owned_move.
  - destruct (assign_owned x y bx b _ _ Ho Hne Hx Hy) as (h' & Ha' & Ho'). rewrite Ha' in Ha. by simplify_eq.
  - destruct (destroy_owned x b _ _ Ho Hx) as (h' & Hd' & Ho'). rewrite Hd' in Hd. by simplify_eq.
Qed.

Lemma owned_reachable s : breachable s → owned (by_objs s) ≡ₚ map_to_list (by_heap s).
Proof.
  revert s. apply (invariant_reachable _ _ (λ s, owned (by_objs s) ≡ₚ map_to_list (by_heap s))).
  - by intros ? ->.
  - intros s s' Ho Hs. by eapply owned_step.
Qed.

(** ** Properties *)

(** C39: RAII of the raw buffers. In every reachable state the live CUDA allocations are
    exactly those owned by some buffer object, each by one; every destructor and every
    move assignment between distinct objects of a class frees a live allocation of the
    right kind (never twice, never an unknown pointer); and with all objects destroyed
    nothing is left allocated. *)
Theorem raw_buffers_free_exactly_once (s : bsys) (Hr : breachable s) :
  owned (by_objs s) ≡ₚ map_to_list (by_heap s) ∧
  (∀ x b, by_objs s !! x = Some b → returns (raw_destroy b (by_heap s))) ∧
  (∀ x y bx b, x ≠ y → by_objs s !! x = Some bx → by_objs s !! y = Some b →
     returns (raw_move_assign bx b (by_heap s))) ∧
  (by_objs s = ∅ → by_heap s = ∅).
Proof.
  pose proof (owned_reachable s Hr) as Ho. split; [done |]. split; [| split].
  - intros x b Hx. destruct (destroy_owned x b _ _ Ho Hx) as (h' & -> & _). by eexists.
  - intros x y bx b Hne Hx Hy. destruct (assign_owned x y bx b _ _ Ho Hne Hx Hy) as (h' & -> & _). by eexists.
  - intros He. rewrite He in Ho. apply map_to_list_empty_iff, Permutation_nil_r. by symmetry.
Qed.

(** ** Witnesses *)

Definition demo_raw : RawBuffer := {| raw_ptr_ := Some 1%positive; raw_bytes_ := 16; raw_pinned := false |}.
Definition demo_bsys0 : bsys :=
  {| by_heap := <[1%positive := (16, false)]> ∅; by_objs := <[1%positive := demo_raw]> ∅ |}.
Definition demo_bsys : bsys :=
  {| by_heap := by_heap demo_bsys0;
     by_objs := <[2%positive := (raw_move demo_raw).1]> (<[1%positive := (raw_move demo_raw).2]>
                  (by_objs demo_bsys0)) |}.

Lemma demo_bsys_reachable : breachable demo_bsys.
Proof.
  eexists. split; [reflexivity |]. apply (rtc_l _ _ demo_bsys0).
  - by apply (by_new {| by_heap := ∅; by_objs := ∅ |} false 16 (inl 1%positive) demo_raw).
  - apply rtc_once. by apply by_move.
Qed.

Lemma raw_buffers_free_exactly_once_witness : returns (raw_destroy demo_raw (by_heap demo_bsys)).
Proof.
  exact (proj1 (proj2 (raw_buffers_free_exactly_once demo_bsys demo_bsys_reachable)) 2%positive demo_raw eq_refl).
Defined.
