(* ===== verification/StreamPool.v ===== *)
(** * The stream pool

    [CudaStreamPool] (src/cpp/src/kernels/cuda_stream_pool.cpp,
    src/cpp/include/cuda_db/kernels/cuda_stream_pool.hpp). The CUDA runtime's set of live
    streams is threaded through the constructor and the destructor; its answers are
    arguments. *)

From Stdlib Require Import ZArith Lia.
From stdpp Require Import base numbers strings gmap sets list.
From S2P Require Import Prelude Machine MemoryPool.

(** ** Data and operations *)

Record CudaStreamPool := {
  streams_ : list positive;
  stream_device_id_ : Z;
  cursor_ : Z
}.

(** The creation loop. [create i] is the runtime's answer to call [i]; the second
    component is the set of live streams, also when the loop throws. *)
Fixpoint create_streams (create : nat → positive + string) (i n : nat) (acc : list positive)
    (rt : gset positive) : outcome (list positive) * gset positive :=
  match n with
  | O => (Ret acc, rt)
  | S n =>
      match cuda_check "cudaStreamCreateWithFlags" (create i) with
      | Ret stream => create_streams create (S i) n (acc ++ [stream]) ({[ stream ]} ∪ rt)
      | Throw e => (Throw e, rt)
      | Undefined => (Undefined, rt)
      end
  end.

(** The constructor. *)
Definition new_CudaStreamPool (count device_id : Z) (set_device : unit + string)
    (create : nat → positive + string) (rt : gset positive) : outcome CudaStreamPool * gset positive :=
  if count =? 0 then (Throw (InvalidArgument "CudaStreamPool: count must be at least 1"), rt)
  else
    match cuda_check "cudaSetDevice" set_device with
    | Ret _ =>
        let '(o, rt') := create_streams create 0 (Z.to_nat count) [] rt in
        (l ← o; Ret {| streams_ := l; stream_device_id_ := device_id; cursor_ := 0 |}, rt')
    | Throw e => (Throw e, rt)
    | Undefined => (Undefined, rt)
    end.

(** The destructor. *)
Definition destroy_CudaStreamPool (p : CudaStreamPool) (rt : gset positive) : gset positive :=
  foldl (λ rt stream, rt ∖ {[ stream ]}) rt (streams_ p).

(** [next]: the cursor is a [std::atomic<std::size_t>]; indexing out of range is
    undefined. *)
Definition next (p : CudaStreamPool) : CudaStreamPool * outcome positive :=
  let index := cursor_ p mod vec_size (streams_ p) in
  ({| streams_ := streams_ p; stream_device_id_ := stream_device_id_ p;
      cursor_ := u64_add (cursor_ p) 1 |},
   if vec_size (streams_ p) =? 0 then Undefined
   else match streams_ p !! Z.to_nat index with Some s => Ret s | None => Undefined end).

Definition at_ (p : CudaStreamPool) (index : Z) : outcome positive :=
  if vec_size (streams_ p) <=? index then Throw (OutOfRange "CudaStreamPool::at: index out of range")
  else match streams_ p !! Z.to_nat index with Some s => Ret s | None => Undefined end.

Definition stream_count (p : CudaStreamPool) : Z := vec_size (streams_ p).

(** [synchronize_all]: stops at the first stream whose synchronization fails. *)
Definition synchronize_all (sync : positive → unit + string) (p : CudaStreamPool) : outcome unit :=
  fold_outcome (λ _ stream, cuda_check "cudaStreamSynchronize" (sync stream)) tt (streams_ p).

(** [n] consecutive calls of [next] by any callers. *)
Fixpoint next_n (n : nat) (p : CudaStreamPool) : CudaStreamPool * list (outcome positive) :=
  match n with
  | O => (p, [])
  | S n =>
      let '(p1, o) := next p in
      let '(p2, os) := next_n n p1 in (p2, o :: os)
  end.

(** ** Lemmas *)

Lemma create_streams_Ret create i n acc rt l rt' :
  create_streams create i n acc rt = (Ret l, rt') →
  ∃ new, l = acc ++ new ∧ length new = n ∧ rt' = list_to_set new ∪ rt ∧
    (∀ j s, new !! j = Some s → create (i + j)%nat = inl s).
Proof.
  revert i acc rt. induction n as [|n IH]; intros i acc rt; simpl.
  - intros [= <- <-]. exists []. rewrite app_nil_r. split_and!; [done | done | set_solver |].
    intros j s Hj. by rewrite lookup_nil in Hj.
  - destruct (create i) as [s|msg] eqn:Hc; simpl; [| done]. intros H.
    apply IH in H as (new & -> & Hlen & -> & Hcr). exists (s :: new).
    split_and!; [by rewrite <- app_assoc | by simpl; rewrite Hlen | set_solver |].
    intros [|j] s' Hj; simpl in Hj; simplify_eq; [by rewrite Nat.add_0_r |].
    rewrite Nat.add_succ_r. by apply Hcr.
Qed.

(** A failure at call [i + k] leaves the [k] streams created before it alive. *)
Lemma create_streams_fails create i n acc rt k msg :
  (k < n)%nat → create (i + k)%nat = inr msg → (∀ j, (j < k)%nat → ∃ s, create (i + j)%nat = inl s) →
  ∃ new, create_streams create i n acc rt =
      (Throw (CudaError ("cudaStreamCreateWithFlags: " +:+ msg)), list_to_set new ∪ rt) ∧
    length new = k ∧ (∀ j s, new !! j = Some s → create (i + j)%nat = inl s).
Proof.
  revert i n acc rt. induction k as [|k IH]; intros i n acc rt Hk Hf Hok; (destruct n as [|n]; [lia |]); simpl.
  - rewrite Nat.add_0_r in Hf. rewrite Hf. exists []. simpl. split_and!; [f_equal; set_solver | done |].
    intros j s Hj. by rewrite lookup_nil in Hj.
  - destruct (Hok 0%nat) as [s Hs]; [lia |]. rewrite Nat.add_0_r in Hs. rewrite Hs. simpl.
    destruct (IH (S i) n (acc ++ [s]) ({[s]} ∪ rt)) as (new & Heq & Hlen & Hcr).
    + lia.
    + by rewrite <- Hf, Nat.add_succ_r.
    + intros j Hj. destruct (Hok (S j)) as [s' Hs']; [lia |]. exists s'. by rewrite <- Hs', Nat.add_succ_r.
    + exists (s :: new). split_and!; [rewrite Heq; f_equal; set_solver | by simpl; rewrite Hlen |].
      intros [|j] s' Hj; simpl in Hj; simplify_eq; [by rewrite Nat.add_0_r |].
      rewrite Nat.add_succ_r. by apply Hcr.
Qed.

Lemma destroy_streams l (rt : gset positive) :
  foldl (λ rt stream, rt ∖ {[ stream ]}) rt l = rt ∖ list_to_set l.
Proof. revert rt. induction l as [|s l IH]; intros rt; simpl; [set_solver |]. rewrite IH. set_solver. Qed.

(** What a successful construction gives, with fresh streams from the runtime. *)
Lemma stream_ctor_inv count d sd create live p live' :
  0 ≤ count → (∀ i s, create i = inl s → s ∉ live) →
  new_CudaStreamPool count d sd create live = (Ret p, live') →
  vec_size (streams_ p) = count ∧ 0 < count ∧ cursor_ p = 0 ∧ live' = list_to_set (streams_ p) ∪ live ∧
  destroy_CudaStreamPool p live' = live.
Proof.
  intros Hcount Hf Hnew. unfold new_CudaStreamPool in Hnew. destruct (Z.eqb_spec count 0) as [|H0]; [done |].
  destruct sd; simpl in Hnew; [| done].
  destruct (create_streams create 0 (Z.to_nat count) [] live) as [[l|e|] rt1] eqn:Hcr; simpl in Hnew; simplify_eq.
  apply create_streams_Ret in Hcr as (new & -> & Hlen & -> & Hin). simpl.
  split; [unfold vec_size; lia |]. split; [lia |]. split; [done |]. split; [done |].
  unfold destroy_CudaStreamPool. rewrite destroy_streams. simpl.
  assert (Hdisj : ∀ s, s ∈ new → s ∉ live).
  { intros s Hs. apply list_elem_of_lookup in Hs as [j Hj]. by eapply Hf, Hin. }
  set_solver.
Qed.

Lemma stream_ctor_defined count d sd create live live' :
  new_CudaStreamPool count d sd create live ≠ (Undefined, live').
Proof.
  unfold new_CudaStreamPool. destruct (count =? 0); [done |]. destruct sd; simpl; [| done].
  assert (H : ∀ n i acc rt, (create_streams create i n acc rt).1 ≠ Undefined).
  { induction n as [|n IH]; intros i acc rt; simpl; [done |]. by destruct (create i); simpl. }
  specialize (H (Z.to_nat count) 0%nat [] live). destruct (create_streams _ _ _ _ _) as [[l|x|] r]; simpl in *; done.
Qed.

Lemma next_spec p :
  streams_ p ≠ [] → is_u64 (cursor_ p) →
  ∃ s, streams_ p !! Z.to_nat (cursor_ p mod vec_size (streams_ p)) = Some s ∧ (next p).2 = Ret s.
Proof.
  intros Hne Hc. unfold next, is_u64 in *. simpl.
  assert (0 < vec_size (streams_ p)) by (destruct (streams_ p); [done | unfold vec_size; simpl; lia]).
  destruct (Z.eqb_spec (vec_size (streams_ p)) 0); [lia |].
  destruct (lookup_lt_is_Some_2 (streams_ p) (Z.to_nat (cursor_ p mod vec_size (streams_ p)))) as [s Hs].
  { pose proof (Z.mod_pos_bound (cursor_ p) (vec_size (streams_ p))). unfold vec_size in *. lia. }
  exists s. by rewrite Hs.
Qed.

Lemma next_n_length n p : length (next_n n p).2 = n.
Proof. revert p. induction n as [|n IH]; intros p; simpl; [done |]. specialize (IH (next p).1).
  simpl in IH. by destruct (next_n n _) as [p2 os]; simpl in *; f_equal. Qed.

(** Call [j] of a run of calls gets the stream at index [cursor + j] modulo the size. *)
Lemma next_n_lookup n p j :
  streams_ p ≠ [] → is_u64 (cursor_ p) → cursor_ p + Z.of_nat n ≤ two64 → (j < n)%nat →
  ∃ s, streams_ p !! Z.to_nat ((cursor_ p + Z.of_nat j) mod vec_size (streams_ p)) = Some s ∧
    (next_n n p).2 !! j = Some (Ret s).
Proof.
  revert p j. induction n as [|n IH]; intros p j Hne Hc Hn Hj; [lia |]. simpl.
  destruct (next_spec p Hne Hc) as (s & Hs & Hret). destruct (next_n n (next p).1) as [p2 os] eqn:Hos.
  unfold next in Hret, Hos. simpl in Hret, Hos. rewrite Hos. simpl. destruct j as [|j].
  - exists s. rewrite Z.add_0_r. split; [done |]. simpl. by rewrite Hret.
  - destruct (IH (next p).1 j) as (s' & Hs' & Hj'); simpl; [done | | | lia |].
    + apply u64_range.
    + unfold is_u64 in Hc. destruct (decide (cursor_ p + 1 = two64)) as [Heq|Hneq].
      * unfold u64_add. rewrite Heq. change (u64 two64) with 0. lia.
      * rewrite u64_add_small by lia. lia.
    + simpl in *. unfold next in Hj'. simpl in Hj'. rewrite Hos in Hj'. exists s'. split; [| done].
      unfold is_u64 in Hc. rewrite u64_add_small in Hs' by lia.
      by replace (cursor_ p + Z.of_nat (S j)) with (cursor_ p + 1 + Z.of_nat j) by lia.
Qed.

(** Residues of consecutive integers below the modulus are distinct. *)
Lemma mod_window a m i j : 0 < m → 0 ≤ i < m → 0 ≤ j < m → (a + i) mod m = (a + j) mod m → i = j.
Proof.
  intros Hm Hi Hj Heq.
  assert (Hd : (i - j) mod m = 0).
  { replace (i - j) with ((a + i) - (a + j)) by lia. rewrite Zminus_mod, Heq, Z.sub_diag. apply Z.mod_0_l. lia. }
  apply Z.mod_divide in Hd; [| lia]. destruct Hd as [q Hq].
  assert (q = 0) by nia. lia.
Qed.

(** ** Properties *)

(** [next] cycles through all streams. From any cursor position, as long as the
    64-bit cursor does not wrap within the run, [size()] consecutive calls (by any mix of
    threads) return every stream of the pool exactly once, and no call indexes out of
    range. *)
Theorem next_visits_every_stream (p : CudaStreamPool) (Hne : streams_ p ≠ [])
  (Hc : is_u64 (cursor_ p)) (Hw : cursor_ p + stream_count p ≤ two64) :
  (next_n (length (streams_ p)) p).2 ≡ₚ Ret <$> streams_ p.
Proof.
  set (n := length (streams_ p)). assert (Hn : vec_size (streams_ p) = Z.of_nat n) by done.
  assert (Hpos : (0 < n)%nat) by (unfold n; destruct (streams_ p); [done | simpl; lia]).
  set (f := λ j, Z.to_nat ((cursor_ p + Z.of_nat j) mod Z.of_nat n)).
  assert (Hf : ∀ j, (f j < n)%nat).
  { intros j. unfold f. pose proof (Z.mod_pos_bound (cursor_ p + Z.of_nat j) (Z.of_nat n)). lia. }
  assert (Hinj : ∀ i j, (i < n)%nat → (j < n)%nat → f i = f j → i = j).
  { intros i j Hi Hj Hij. unfold f in Hij.
    pose proof (Z.mod_pos_bound (cursor_ p + Z.of_nat i) (Z.of_nat n)).
    pose proof (Z.mod_pos_bound (cursor_ p + Z.of_nat j) (Z.of_nat n)).
    apply Nat2Z.inj, (mod_window (cursor_ p) (Z.of_nat n)); lia. }
  apply (Permutation_reindex _ _ f); rewrite !length_fmap; fold n.
  - apply next_n_length.
  - auto.
  - done.
  - intros j Hj. unfold stream_count in Hw. rewrite Hn in Hw.
    destruct (next_n_lookup n p j) as (s & Hs & ->); try done.
    rewrite Hn in Hs. rewrite list_lookup_fmap. unfold f. by rewrite Hs.
Qed.

(** Construction and destruction balance. With distinct fresh streams from the
    runtime, a constructed pool holds exactly [count] live streams and its destructor
    leaves the runtime as it was before the constructor. *)
Theorem stream_pool_balanced (count device_id : Z) (set_device : unit + string)
  (create : nat → positive + string) (rt rt' : gset positive) (p : CudaStreamPool)
  (Hcount : 0 ≤ count)
  (Hfresh : ∀ i s, create i = inl s → s ∉ rt)
  (Hnew : new_CudaStreamPool count device_id set_device create rt = (Ret p, rt')) :
  stream_count p = count ∧ 0 < count ∧ rt' = list_to_set (streams_ p) ∪ rt ∧
  destroy_CudaStreamPool p rt' = rt.
Proof.
  by destruct (stream_ctor_inv _ _ _ _ _ _ _ Hcount Hfresh Hnew) as (? & ? & _ & ? & ?).
Qed.

(** A failing constructor leaks. When creating stream [k] fails, the constructor
    throws the runtime's error, no destructor runs (the object was never constructed), and
    the [k] streams created before stay alive in the runtime. *)
Theorem stream_pool_ctor_leaks (count device_id : Z) (create : nat → positive + string)
  (rt : gset positive) (k : nat) (msg : string)
  (Hk : Z.of_nat k < count) (Hfail : create k = inr msg)
  (Hok : ∀ j, (j < k)%nat → ∃ s, create j = inl s) :
  ∃ new, new_CudaStreamPool count device_id (inl tt) create rt =
      (Throw (CudaError ("cudaStreamCreateWithFlags: " +:+ msg)), list_to_set new ∪ rt) ∧
    length new = k ∧ ∀ j s, new !! j = Some s → create j = inl s.
Proof.
  unfold new_CudaStreamPool. destruct (Z.eqb_spec count 0); [lia |]. simpl.
  destruct (create_streams_fails create 0 (Z.to_nat count) [] rt k msg) as (new & Heq & Hlen & Hin);
    [lia | done | done |].
  exists new. rewrite Heq. simpl. done.
Qed.

(** ** Witnesses *)

Definition demo_streams : CudaStreamPool :=
  {| streams_ := [1%positive; 2%positive; 3%positive]; stream_device_id_ := 0; cursor_ := 7 |}.

Definition demo_create (i : nat) : positive + string :=
  if (i <? 2)%nat then inl (Pos.of_succ_nat i) else inr "out of memory".

Lemma next_visits_every_stream_witness :
  [Ret 2%positive; Ret 3%positive; Ret 1%positive] ≡ₚ Ret <$> streams_ demo_streams.
Proof. exact (next_visits_every_stream demo_streams ltac:(done) ltac:(done) ltac:(done)). Defined.

Lemma stream_pool_balanced_witness :
  destroy_CudaStreamPool {| streams_ := [1%positive; 2%positive]; stream_device_id_ := 0; cursor_ := 0 |}
    ({[2%positive]} ∪ ({[1%positive]} ∪ {[9%positive]})) = {[9%positive]}.
Proof.
  refine (proj2 (proj2 (proj2 (stream_pool_balanced 2 0 (inl tt) demo_create {[9%positive]} _ _ _ _ eq_refl))));
    [done |].
  intros [|[|i]] s Hs; simpl in Hs; simplify_eq; set_solver.
Defined.

Lemma stream_pool_ctor_leaks_witness :
  ∃ new, new_CudaStreamPool 4 0 (inl tt) demo_create ∅ =
      (Throw (CudaError "cudaStreamCreateWithFlags: out of memory"), list_to_set new ∪ ∅) ∧
    length new = 2%nat ∧ ∀ j s, new !! j = Some s → demo_create j = inl s.
Proof.
  refine (stream_pool_ctor_leaks 4 0 demo_create ∅ 2 "out of memory" _ _ _); [done | done |].
  intros [|[|j]] Hj; [by eexists | by eexists | lia].
Defined.
