(* ===== verification/Normalize.v ===== *)
(** * The normalization kernel

    [normalize_kernel] and [launch_normalize] (src/cpp/src/kernels/normalize.cu). A launch
    is a set of threads, each with the indices its grid-stride loop visits; the device may
    run the iterations of all threads in any interleaving. The result is shown to be the
    element-wise normalization whatever the interleaving, and to act on every row of a
    batch separately. *)

From Stdlib Require Import ZArith Lia.
From stdpp Require Import base numbers strings relations list.
From S2P Require Import Prelude Machine MemoryPool.

(** ** The kernel *)

Definition kBlockSize : Z := 256.
Definition kMaxBlocks : Z := 1024.

(** [long long] arithmetic: overflow is undefined. *)
Definition i64_checked (z : Z) : outcome Z :=
  if (- two63 <=? z) && (z <? two63) then Ret z else Undefined.

(** The indices one thread visits: [for (; idx < total; idx += stride)]. *)
Fixpoint thread_indices (fuel : nat) (stride total idx : Z) : outcome (list Z) :=
  if idx <? total then
    match fuel with
    | O => Undefined
    | S fuel =>
        idx' ← i64_checked (idx + stride);
        l ← thread_indices fuel stride total idx';
        Ret (idx :: l)
    end
  else Ret [].

(** The body of the loop, on the three device arrays. *)
Definition normalize_body (mean stddev : list float) (c hw : Z) (data : list float) (idx : Z) :
  outcome (list float) :=
  let channel := i32 (Z.rem (Z.quot idx hw) c) in
  if (0 <=? idx) && (0 <=? channel) then
    match data !! Z.to_nat idx, mean !! Z.to_nat channel, stddev !! Z.to_nat channel with
    | Some x, Some m, Some s => Ret (<[Z.to_nat idx := f32_div (f32_sub x m) s]> data)
    | _, _, _ => Undefined
    end
  else Undefined.

(** [mapM] over the threads of a grid. *)
Fixpoint map_outcome {A B} (f : A → outcome B) (l : list A) : outcome (list B) :=
  match l with
  | [] => Ret []
  | a :: l => b ← f a; bs ← map_outcome f l; Ret (b :: bs)
  end.

(** All threads of a grid of [blocks] blocks of [kBlockSize] threads; thread [t] of block
    [b] starts at [b * blockDim.x + t]. [total] iterations suffice for each. *)
Definition grid_threads (blocks total : Z) : outcome (list (list Z)) :=
  map_outcome (thread_indices (Z.to_nat total) (kBlockSize * blocks) total)
    (seqZ 0 blocks ≫= λ b, (λ t, b * kBlockSize + t) <$> seqZ 0 kBlockSize).

(** The device runs the next iteration of some thread, until all are done. *)
Inductive interleaves {A} : list (list A) → list A → Prop :=
  | il_done ts : Forall (λ t, t = []) ts → interleaves ts []
  | il_next ts1 x t ts2 order :
      interleaves (ts1 ++ t :: ts2) order → interleaves (ts1 ++ (x :: t) :: ts2) (x :: order).

Definition normalize_kernel (mean stddev : list float) (c hw : Z) (order : list Z)
    (data : list float) : outcome (list float) :=
  fold_outcome (normalize_body mean stddev c hw) data order.

(** ** The launch *)

(** What a launch asks the device for. *)
Record launch := { lc_total : Z; lc_blocks : Z; lc_c : Z; lc_hw : Z }.

(** [launch_normalize]: [nonnull] says whether all three pointers are non-null, [status]
    is [cudaGetLastError]; [Ret None] is the empty batch. *)
Definition launch_normalize (nonnull : bool) (n c hw : Z) (status : unit + string) :
  outcome (option launch) :=
  if (n <? 0) || (c <? 0) || (hw <? 0)
  then Throw (CudaError "launch_normalize: dimensions must be non-negative")
  else if n =? 0 then Ret None
  else if (c =? 0) || (hw =? 0)
  then Throw (CudaError "launch_normalize: c and hw must be non-zero for a non-empty batch")
  else if negb nonnull then Throw (CudaError "launch_normalize: null device pointer")
  else
    nc ← i64_checked (n * c);
    total ← i64_checked (nc * hw);
    padded ← i64_checked (total + kBlockSize - 1);
    let needed := Z.quot padded kBlockSize in
    let blocks := if needed <? kMaxBlocks then needed else kMaxBlocks in
    _ ← cuda_check "normalize_kernel launch" status;
    Ret (Some {| lc_total := total; lc_blocks := blocks; lc_c := c; lc_hw := hw |}).

(** ** What the kernel computes *)

Definition norm_elem (mean stddev : list float) (c hw i : nat) (x : float) : float :=
  let ch := ((i / hw) mod c)%nat in
  match mean !! ch, stddev !! ch with
  | Some m, Some s => f32_div (f32_sub x m) s
  | _, _ => x
  end.

(** The first [total] elements normalized, the others untouched. *)
Definition norm_prefix (mean stddev : list float) (c hw total : nat) (data : list float) : list float :=
  imap (λ i x, if decide (i < total)%nat then norm_elem mean stddev c hw i x else x) data.

(** One row of [c] planes of [hw] elements. *)
Definition norm_row (mean stddev : list float) (c hw : nat) (row : list float) : list float :=
  imap (norm_elem mean stddev c hw) row.

(** ** Every index is visited by exactly one thread *)

Lemma i64_checked_Ret z : - two63 ≤ z < two63 → i64_checked z = Ret z.
Proof. intros. unfold i64_checked. split_if; [done | lia]. Qed.

Lemma map_outcome_Ret {A B} (f : A → outcome B) (g : A → B) l :
  (∀ a, a ∈ l → f a = Ret (g a)) → map_outcome f l = Ret (g <$> l).
Proof.
  induction l as [|a l IH]; intros Hf; simpl; [done |].
  rewrite Hf by by left. simpl. rewrite IH; [done |]. intros b Hb. apply Hf. by right.
Qed.

(** A thread visits the indices congruent to its start, in order, and stops. *)
Lemma thread_indices_spec fuel stride total idx :
  0 < stride → 0 ≤ idx → total + stride < two63 → (Z.to_nat (total - idx) ≤ fuel)%nat →
  ∃ l, thread_indices fuel stride total idx = Ret l ∧ NoDup l ∧
    ∀ i, i ∈ l ↔ idx ≤ i < total ∧ (i - idx) mod stride = 0.
Proof.
  intros Hs. revert idx. induction fuel as [|fuel IH]; intros idx Hidx Hmax Hf; simpl;
    destruct (Z.ltb_spec idx total) as [Hlt|Hge]; try lia.
  1, 3: exists []; split_and!; [done | constructor | intros i; split; [by intros ?%elem_of_nil | lia]].
  rewrite i64_checked_Ret by lia. simpl.
  destruct (IH (idx + stride)) as (l & -> & Hnd & Hl); [lia | lia | lia |]. simpl.
  exists (idx :: l). split; [done |]. split.
  - constructor; [| done]. rewrite Hl. lia.
  - intros i. rewrite elem_of_cons, Hl. split.
    + intros [->|[Hi Hm]].
      * rewrite Z.sub_diag, Z.mod_0_l by lia. lia.
      * split; [lia |]. replace (i - idx) with ((i - (idx + stride)) + 1 * stride) by lia.
        by rewrite Z.mod_add by lia.
    + intros [Hi Hm]. destruct (decide (i = idx)) as [->|Hne]; [by left |]. right.
      apply Z.mod_divide in Hm as [q Hq]; [| lia]. assert (1 ≤ q) by nia. split; [nia |].
      apply Z.mod_divide; [lia |]. exists (q - 1). lia.
Qed.

(** The starting indices of a grid are 0 .. threads-1. *)
Lemma grid_starts blocks i :
  i ∈ (seqZ 0 blocks ≫= λ b, (λ t, b * kBlockSize + t) <$> seqZ 0 kBlockSize) ↔
  0 ≤ i < kBlockSize * blocks.
Proof.
  unfold kBlockSize. rewrite list_elem_of_bind. split.
  - intros (b & Hi & Hb). apply list_elem_of_fmap in Hi as (t & -> & Ht). rewrite elem_of_seqZ in *. lia.
  - intros Hi. exists (i / 256). split.
    + apply list_elem_of_fmap. exists (i mod 256). split; [rewrite Z.mul_comm; apply Z.div_mod; lia |].
      apply elem_of_seqZ. pose proof (Z.mod_pos_bound i 256). lia.
    + apply elem_of_seqZ. split; [apply Z.div_pos; lia |]. apply Z.div_lt_upper_bound; lia.
Qed.

Lemma grid_starts_NoDup blocks :
  NoDup (seqZ 0 blocks ≫= λ b, (λ t, b * kBlockSize + t) <$> seqZ 0 kBlockSize).
Proof.
  unfold kBlockSize. apply NoDup_bind; [| | apply NoDup_seqZ].
  - intros b1 b2 y _ _ H1 H2. apply list_elem_of_fmap in H1 as (t1 & -> & H1).
    apply list_elem_of_fmap in H2 as (t2 & H2 & H3). rewrite elem_of_seqZ in *. lia.
  - intros b _. apply NoDup_fmap_2; [intros ???; lia | apply NoDup_seqZ].
Qed.

Lemma concat_fmap_bind {A B} (f : A → list B) l : concat (f <$> l) = l ≫= f.
Proof. induction l as [|a l IH]; csimpl; [done |]. by rewrite IH. Qed.

Lemma grid_threads_cover blocks total :
  0 < blocks → total + kBlockSize * blocks < two63 →
  ∃ ts, grid_threads blocks total = Ret ts ∧ concat ts ≡ₚ seqZ 0 total.
Proof.
  intros Hb Hmax. set (stride := kBlockSize * blocks). assert (Hst : 0 < stride) by (unfold stride, kBlockSize; lia).
  set (g := λ idx, match thread_indices (Z.to_nat total) stride total idx with Ret l => l | _ => [] end).
  assert (Hg : ∀ idx, 0 ≤ idx → thread_indices (Z.to_nat total) stride total idx = Ret (g idx) ∧ NoDup (g idx) ∧
    ∀ i, i ∈ g idx ↔ idx ≤ i < total ∧ (i - idx) mod stride = 0).
  { intros idx Hidx. destruct (thread_indices_spec (Z.to_nat total) stride total idx) as (l & Hl & Hrest);
      [done | done | lia | lia |]. unfold g. by rewrite Hl. }
  eexists. split.
  - unfold grid_threads. apply (map_outcome_Ret _ g). intros idx Hidx. apply grid_starts in Hidx. apply Hg. lia.
  - rewrite concat_fmap_bind. apply NoDup_Permutation; [| apply NoDup_seqZ |].
    + apply NoDup_bind; [| | apply grid_starts_NoDup].
      * intros t1 t2 y H1%grid_starts H2%grid_starts Hy1 Hy2. fold stride in H1, H2.
        apply Hg in Hy1 as [_ Hy1]; [| lia]. apply Hg in Hy2 as [_ Hy2]; [| lia].
        apply Z.mod_divide in Hy1 as [q1 Hy1]; [| lia]. apply Z.mod_divide in Hy2 as [q2 Hy2]; [| lia]. assert (q1 = q2) by (clearbody stride; nia). subst. lia.
      * intros t Ht%grid_starts. apply Hg. lia.
    + intros i. rewrite list_elem_of_bind, elem_of_seqZ. split.
      * intros (t & Hi & Ht%grid_starts). apply Hg in Hi; lia.
      * intros Hi. exists (i mod stride). pose proof (Z.mod_pos_bound i stride Hst). split; [| by apply grid_starts].
        apply Hg; [lia |]. pose proof (Z.mod_le i stride). split; [lia |].
        rewrite Zminus_mod, Z.mod_mod, Z.sub_diag by lia. apply Z.mod_0_l. lia.
Qed.

Lemma interleaves_Permutation {A} (ts : list (list A)) order : interleaves ts order → order ≡ₚ concat ts.
Proof.
  induction 1 as [ts Hts|ts1 x t ts2 order _ IH].
  - assert (Hc : concat ts = []); [| by rewrite Hc]. induction Hts as [|t ts -> _ IH]; [done | exact IH].
  - rewrite IH, !concat_app. simpl. by rewrite Permutation_middle.
Qed.

(** Some interleaving exists: the threads one after the other. *)
Lemma interleaves_sequential {A} (ts : list (list A)) : interleaves ts (concat ts).
Proof.
  assert (H : ∀ ts1, Forall (λ t, t = []) ts1 → interleaves (ts1 ++ ts) (concat ts)); [| by apply (H [])].
  induction ts as [|t ts IH]; intros ts1 H1; simpl.
  - rewrite app_nil_r. by constructor.
  - induction t as [|x t IHt]; simpl.
    + change ([] :: ts) with ([[]] ++ ts). rewrite app_assoc. apply IH. apply Forall_app. split; [done |].
      by repeat constructor.
    + by constructor.
Qed.

(** ** The body and the whole kernel *)

Section Kernel.
Variables (mean stddev : list float) (c hw : nat).
Hypotheses (Hc : (0 < c)%nat) (Hhw : (0 < hw)%nat) (Hc31 : Z.of_nat c < two31)
  (Hmean : length mean = c) (Hstd : length stddev = c).

Abbreviation body := (normalize_body mean stddev (Z.of_nat c) (Z.of_nat hw)).

Lemma channel_eq (i : nat) :
  i32 (Z.rem (Z.quot (Z.of_nat i) (Z.of_nat hw)) (Z.of_nat c)) = Z.of_nat ((i / hw) mod c)%nat.
Proof.
  pose proof (Nat.mod_upper_bound (i / hw) c).
  rewrite Z.quot_div_nonneg, <- Nat2Z.inj_div by lia. rewrite Z.rem_mod_nonneg, <- Nat2Z.inj_mod by lia.
  apply i32_small. lia.
Qed.

Lemma body_Ret (data : list float) (i : nat) (x : float) :
  data !! i = Some x →
  body data (Z.of_nat i) = Ret (<[i := norm_elem mean stddev c hw i x]> data).
Proof.
  intros Hx. unfold normalize_body. rewrite channel_eq, !Nat2Z.id, Hx.
  assert (Hle : ∀ n : nat, (0 <=? Z.of_nat n) = true) by (intros n; apply Z.leb_le; lia). rewrite !Hle. simpl.
  unfold norm_elem. pose proof (Nat.mod_upper_bound (i / hw) c).
  destruct (lookup_lt_is_Some_2 mean ((i / hw) mod c)) as [m ->]; [lia |].
  destruct (lookup_lt_is_Some_2 stddev ((i / hw) mod c)) as [s ->]; [lia |]. done.
Qed.

(** After the iterations of [order], exactly its elements are normalized. *)
Lemma kernel_order order (data : list float) :
  NoDup order → (∀ i, i ∈ order → 0 ≤ i < vec_size data) →
  fold_outcome body data order =
    Ret (imap (λ i x, if decide (Z.of_nat i ∈ order) then norm_elem mean stddev c hw i x else x) data).
Proof.
  revert data. induction order as [|z order IH]; intros data Hnd Hin; simpl.
  - f_equal. apply list_eq. intros i. rewrite list_lookup_imap. by destruct (data !! i).
  - apply NoDup_cons in Hnd as [Hni Hnd].
    destruct (Hin z) as [Hz1 Hz2]; [by left |]. unfold vec_size in Hz2.
    assert (Hz : z = Z.of_nat (Z.to_nat z)) by lia. set (k := Z.to_nat z) in *. rewrite Hz.
    destruct (lookup_lt_is_Some_2 data k) as [x Hx]; [lia |]. rewrite (body_Ret data k x Hx). simpl.
    rewrite IH; [| done |].
    2: { intros i Hi. unfold vec_size. rewrite length_insert. apply Hin. by right. }
    f_equal. apply list_eq. intros i. rewrite !list_lookup_imap. destruct (decide (i = k)) as [->|Hne].
    + rewrite list_lookup_insert_eq by lia. rewrite Hx. simpl. rewrite <- Hz.
      rewrite decide_False by done. by rewrite decide_True by by left.
    + rewrite list_lookup_insert_ne by done. destruct (data !! i) as [y|]; simpl; [| done].
      do 2 f_equal. destruct (decide (Z.of_nat i ∈ order)) as [Hio|Hio].
      * by rewrite decide_True by by right.
      * rewrite decide_False; [done |]. rewrite elem_of_cons. intros [?|?]; [lia | done].
Qed.

Lemma kernel_covers order total (data : list float) :
  order ≡ₚ seqZ 0 total → total ≤ vec_size data →
  normalize_kernel mean stddev (Z.of_nat c) (Z.of_nat hw) order data =
    Ret (norm_prefix mean stddev c hw (Z.to_nat total) data).
Proof.
  intros Hp Ht. unfold normalize_kernel. rewrite kernel_order.
  - f_equal. unfold norm_prefix. apply list_eq. intros i. rewrite !list_lookup_imap.
    destruct (data !! i) as [x|]; simpl; [| done]. do 2 f_equal.
    destruct (decide (Z.of_nat i ∈ order)) as [Hi|Hi]; rewrite Hp, elem_of_seqZ in Hi.
    + by rewrite decide_True by lia.
    + by rewrite decide_False by lia.
  - rewrite Hp. apply NoDup_seqZ.
  - intros i. rewrite Hp, elem_of_seqZ. lia.
Qed.

(** On a batch of whole rows the kernel acts on each row by itself. *)
Lemma norm_elem_row (k i : nat) x :
  norm_elem mean stddev c hw (k * (c * hw) + i) x = norm_elem mean stddev c hw i x.
Proof.
  unfold norm_elem. assert (H : (((k * (c * hw) + i) / hw) mod c = (i / hw) mod c)%nat); [| by rewrite H].
  replace (k * (c * hw) + i)%nat with (i + (k * c) * hw)%nat by lia.
  rewrite Nat.div_add by lia. apply Nat.Div0.mod_add.
Qed.

Lemma norm_rows (rows : list (list float)) (k : nat) :
  Forall (λ r, length r = c * hw)%nat rows →
  imap (λ i, norm_elem mean stddev c hw (k * (c * hw) + i)) (concat rows) =
  concat (norm_row mean stddev c hw <$> rows).
Proof.
  intros Hr. revert k. induction Hr as [|r rows Hlen Hr IH]; intros k; [done |].
  csimpl. rewrite imap_app. f_equal.
  - unfold norm_row. apply imap_ext. intros i x _. apply norm_elem_row.
  - rewrite <- (IH (S k)). apply imap_ext. intros i x _. simpl. f_equal. lia.
Qed.

Lemma norm_prefix_rows (rows : list (list float)) (tail : list float) :
  Forall (λ r, length r = c * hw)%nat rows →
  norm_prefix mean stddev c hw (length rows * (c * hw)) (concat rows ++ tail) =
  concat (norm_row mean stddev c hw <$> rows) ++ tail.
Proof.
  intros Hr. assert (Hl : length (concat rows) = (length rows * (c * hw))%nat).
  { induction Hr as [|r rows Hlen _ IH]; simpl; [done |]. rewrite length_app, IH. lia. }
  unfold norm_prefix. rewrite imap_app. f_equal.
  - rewrite <- (norm_rows rows 0) by done. apply imap_ext. intros i x Hx.
    apply lookup_lt_Some in Hx. by rewrite decide_True by lia.
  - apply list_eq. intros i. rewrite list_lookup_imap. destruct (tail !! i) as [x|]; simpl; [| done].
    by rewrite decide_False by lia.
Qed.
End Kernel.

(** ** The launch covers the batch *)

(** 2^18 threads at most. *)
Definition max_stride : Z := kBlockSize * kMaxBlocks.

Lemma launch_Ret n c hw :
  0 < n → 0 < c → 0 < hw → n * c * hw + max_stride < two63 →
  ∃ blocks, 0 < blocks ≤ kMaxBlocks ∧
    launch_normalize true n c hw (inl tt) =
      Ret (Some {| lc_total := n * c * hw; lc_blocks := blocks; lc_c := c; lc_hw := hw |}).
Proof.
  intros Hn Hc Hhw Hmax. unfold launch_normalize, max_stride, kBlockSize, kMaxBlocks in *.
  destruct (Z.ltb_spec n 0), (Z.ltb_spec c 0), (Z.ltb_spec hw 0), (Z.eqb_spec n 0), (Z.eqb_spec c 0),
    (Z.eqb_spec hw 0); simpl; try lia.
  assert (n * c ≤ n * c * hw) by nia. assert (0 < n * c) by nia.
  rewrite !i64_checked_Ret by lia. simpl. rewrite i64_checked_Ret by lia. simpl.
  rewrite i64_checked_Ret by lia. simpl. eexists. split; [| done].
  rewrite Z.quot_div_nonneg by lia.
  assert (0 < (n * c * hw + 256 - 1) / 256) by (apply Z.div_str_pos; lia).
  destruct (Z.ltb_spec ((n * c * hw + 256 - 1) / 256) 1024); lia.
Qed.

(** A refused launch throws. *)
Lemma launch_refused n c hw msg :
  0 < n → 0 < c → 0 < hw → n * c * hw + max_stride < two63 →
  ∃ x, launch_normalize true n c hw (inr msg) = Throw x.
Proof.
  intros Hn Hc Hhw Hmax. unfold launch_normalize, max_stride, kBlockSize, kMaxBlocks in *.
  destruct (Z.ltb_spec n 0), (Z.ltb_spec c 0), (Z.ltb_spec hw 0), (Z.eqb_spec n 0), (Z.eqb_spec c 0),
    (Z.eqb_spec hw 0); simpl; try lia.
  assert (n * c ≤ n * c * hw) by nia. assert (0 < n * c) by nia.
  rewrite !i64_checked_Ret by lia. simpl. rewrite i64_checked_Ret by lia. simpl.
  rewrite i64_checked_Ret by lia. simpl. by eexists.
Qed.

(** The two steps together: launch, then any run of the threads. *)
Lemma launched_rows (rows : list (list float)) (tail mean stddev : list float) (c hw : nat) :
  rows ≠ [] → (0 < c)%nat → (0 < hw)%nat → Z.of_nat c < two31 →
  length mean = c → length stddev = c → Forall (λ r, length r = c * hw)%nat rows →
  vec_size rows * Z.of_nat c * Z.of_nat hw + max_stride < two63 →
  ∃ l ts, launch_normalize true (vec_size rows) (Z.of_nat c) (Z.of_nat hw) (inl tt) = Ret (Some l) ∧
    grid_threads (lc_blocks l) (lc_total l) = Ret ts ∧
    ∀ order, interleaves ts order →
      normalize_kernel mean stddev (lc_c l) (lc_hw l) order (concat rows ++ tail) =
        Ret (concat (norm_row mean stddev c hw <$> rows) ++ tail).
Proof.
  intros Hne Hc Hhw Hc31 Hm Hs Hr Hmax.
  assert (Hn : 0 < vec_size rows) by (destruct rows; [done | unfold vec_size; simpl; lia]).
  destruct (launch_Ret (vec_size rows) (Z.of_nat c) (Z.of_nat hw)) as (blocks & Hb & Hl); [lia | lia | lia | done |].
  destruct (grid_threads_cover blocks (vec_size rows * Z.of_nat c * Z.of_nat hw)) as (ts & Hts & Hcov).
  { lia. } { unfold max_stride, kBlockSize, kMaxBlocks in *. lia. }
  eexists _, ts. split; [exact Hl |]. split; [exact Hts |]. intros order Hil. simpl.
  apply interleaves_Permutation in Hil. rewrite Hcov in Hil.
  assert (Hlen : length (concat rows) = (length rows * (c * hw))%nat).
  { clear -Hr. induction Hr as [|r rows Hlen _ IH]; simpl; [done |]. rewrite length_app, IH. lia. }
  rewrite (kernel_covers mean stddev c hw Hc Hhw Hc31 Hm Hs order _ _ Hil).
  - f_equal. rewrite <- norm_prefix_rows by done. f_equal. unfold vec_size. lia.
  - rewrite vec_size_app. unfold vec_size. rewrite Hlen. lia.
Qed.

(** ** Properties *)

(** C27: the normalize kernel is correct for every thread interleaving and acts per row.
    For any batch of rows of [c] planes of [hw] floats, the launch succeeds, every
    thread's grid-stride loop ends, and in whatever order the device interleaves the
    threads' iterations the buffer ends up with each row replaced by
    [(x - mean[channel]) / stddev[channel]] of its own elements, anything behind the batch
    untouched. No access is out of range. *)
Theorem normalize_any_interleaving (rows : list (list float)) (tail mean stddev : list float) (c hw : nat)
  (Hne : rows ≠ []) (Hc : (0 < c)%nat) (Hhw : (0 < hw)%nat) (Hc31 : Z.of_nat c < two31)
  (Hm : length mean = c) (Hs : length stddev = c) (Hr : Forall (λ r, length r = c * hw)%nat rows)
  (Hmax : vec_size rows * Z.of_nat c * Z.of_nat hw + max_stride < two63) :
  ∃ l ts, launch_normalize true (vec_size rows) (Z.of_nat c) (Z.of_nat hw) (inl tt) = Ret (Some l) ∧
    grid_threads (lc_blocks l) (lc_total l) = Ret ts ∧ (∃ order, interleaves ts order) ∧
    ∀ order, interleaves ts order →
      normalize_kernel mean stddev (lc_c l) (lc_hw l) order (concat rows ++ tail) =
        Ret (concat (norm_row mean stddev c hw <$> rows) ++ tail).
Proof.
  destruct (launched_rows rows tail mean stddev c hw) as (l & ts & H1 & H2 & H3); try done.
  exists l, ts. split; [done |]. split; [done |]. split; [eexists; apply interleaves_sequential | done].
Qed.

(** ** Witnesses: two rows of two one-element channels *)

Lemma normalize_any_interleaving_witness :
  ∃ l ts, launch_normalize true 2 2 1 (inl tt) = Ret (Some l) ∧
    grid_threads (lc_blocks l) (lc_total l) = Ret ts ∧ (∃ order, interleaves ts order) ∧
    ∀ order, interleaves ts order →
      normalize_kernel [f32_lit 1 1; f32_lit 2 1] [f32_lit 2 1; f32_lit 4 1] (lc_c l) (lc_hw l) order
        [f32_lit 3 1; f32_lit 6 1; f32_lit 5 1; f32_lit 2 1] =
        Ret [f32_lit 1 1; f32_lit 1 1; f32_lit 2 1; f32_lit 0 1].
Proof.
  exact (normalize_any_interleaving [[f32_lit 3 1; f32_lit 6 1]; [f32_lit 5 1; f32_lit 2 1]] []
    [f32_lit 1 1; f32_lit 2 1] [f32_lit 2 1; f32_lit 4 1] 2 1 ltac:(done) ltac:(lia) ltac:(lia) ltac:(done)
    eq_refl eq_refl ltac:(by repeat constructor) ltac:(done)).
Defined.
