(* ===== verification/CudaEngine.v ===== *)
(** * The CUDA engine

    [CudaExecutionEngine] (src/cpp/src/engine/cuda_execution_engine.cpp,
    src/cpp/include/cuda_db/engine/cuda_execution_engine.hpp): pinned staging, host-to-device
    copy, normalize kernel, device-to-host copy, all queued on one stream and synchronized
    once. Copies and kernels are queued operations; the device may execute any prefix of a
    stream's queue at any time, and must have executed all of it when a synchronization
    returns. The CUDA runtime (allocator, status codes, device progress, thread scheduling)
    is the argument of the model. *)

From Stdlib Require Import ZArith Lia.
From stdpp Require Import base numbers strings gmap list.
From S2P Require Import Prelude Machine Engine MemoryPool Buffers StreamPool Normalize.

(** ** The CUDA runtime *)

Inductive cuda_call := CallSetDevice | CallH2D | CallLaunch | CallD2H | CallSync.

(** What the runtime does in the [n]-th [run_inference]. *)
Record cuda_runtime := {
  rt_malloc : CudaHeap → bool → cuda_answer;
  rt_status : nat → cuda_call → unit + string;
  (* how far the device gets with a stream's queue after each enqueued operation *)
  rt_progress : nat → nat → nat;
  (* the order in which the threads of a kernel run *)
  rt_order : nat → list (list Z) → list Z;
  (* the contents of memory nobody has written *)
  rt_junk : positive → nat → float
}.

(** The documented behaviour the engine relies on. *)
Class RuntimeOk (rt : cuda_runtime) : Prop := {
  malloc_fresh h k ptr : rt_malloc rt h k = inl ptr → h !! ptr = None;
  order_interleaves n ts : interleaves ts (rt_order rt n ts)
}.

(** A runtime in which every call succeeds. *)
Definition healthy (rt : cuda_runtime) : Prop :=
  (∀ n call, rt_status rt n call = inl tt) ∧ (∀ h k, ∃ ptr, rt_malloc rt h k = inl ptr).

(** Operations queued on a stream. *)
Inductive dev_op :=
  | OpCopy (src dst : positive) (floats : Z)
  | OpNormalize (ptr : positive) (l : launch).

(** ** The engine's state *)

Record CudaOptions := {
  opt_mean : list float;
  opt_stddev : list float;
  opt_device_id : Z;
  opt_stream_count : Z
}.

Definition default_CudaOptions : CudaOptions :=
  {| opt_mean := [f32_lit 485 1000; f32_lit 456 1000; f32_lit 406 1000];
     opt_stddev := [f32_lit 229 1000; f32_lit 224 1000; f32_lit 225 1000];
     opt_device_id := 0; opt_stream_count := 2 |}.

(** The members, the memory behind the pool's blocks, the queued operations of each
    stream, and the number of calls made so far. *)
Record CudaExecutionEngine := {
  ce_options : CudaOptions;
  ce_pool : MemoryPool;
  ce_heap : CudaHeap;
  ce_streams : CudaStreamPool;
  ce_mean : list float;
  ce_stddev : list float;
  ce_mem : gmap positive (list float);
  ce_pending : gmap positive (list dev_op);
  ce_calls : nat
}.

Definition channels (e : CudaExecutionEngine) : Z := vec_size (opt_mean (ce_options e)).

Definition with_pool (p : MemoryPool) (h : CudaHeap) (m : gmap positive (list float))
    (e : CudaExecutionEngine) : CudaExecutionEngine :=
  {| ce_options := ce_options e; ce_pool := p; ce_heap := h; ce_streams := ce_streams e;
     ce_mean := ce_mean e; ce_stddev := ce_stddev e; ce_mem := m; ce_pending := ce_pending e;
     ce_calls := ce_calls e |}.

Definition with_mem (m : gmap positive (list float)) (q : gmap positive (list dev_op))
    (e : CudaExecutionEngine) : CudaExecutionEngine :=
  {| ce_options := ce_options e; ce_pool := ce_pool e; ce_heap := ce_heap e; ce_streams := ce_streams e;
     ce_mean := ce_mean e; ce_stddev := ce_stddev e; ce_mem := m; ce_pending := q; ce_calls := ce_calls e |}.

Definition with_streams (s : CudaStreamPool) (e : CudaExecutionEngine) : CudaExecutionEngine :=
  {| ce_options := ce_options e; ce_pool := ce_pool e; ce_heap := ce_heap e; ce_streams := s;
     ce_mean := ce_mean e; ce_stddev := ce_stddev e; ce_mem := ce_mem e; ce_pending := ce_pending e;
     ce_calls := ce_calls e |}.

Definition next_call (e : CudaExecutionEngine) : CudaExecutionEngine :=
  {| ce_options := ce_options e; ce_pool := ce_pool e; ce_heap := ce_heap e; ce_streams := ce_streams e;
     ce_mean := ce_mean e; ce_stddev := ce_stddev e; ce_mem := ce_mem e; ce_pending := ce_pending e;
     ce_calls := S (ce_calls e) |}.

(** Engine code: steps on the engine that may throw. *)
Abbreviation M := (stepM CudaExecutionEngine).

(** ** The constructor *)

(** [std::find(stddev, 0.0F)]. *)
Definition has_zero (l : list float) : bool := existsb (λ x, f32_eqb x f32_zero) l.

Definition check_options (o : CudaOptions) : outcome unit :=
  if vec_size (opt_mean o) =? 0
  then Throw (CudaError "CudaExecutionEngine: mean must have at least one channel")
  else if negb (vec_size (opt_mean o) =? vec_size (opt_stddev o))
  then Throw (CudaError "CudaExecutionEngine: mean and stddev must have the same length")
  else if has_zero (opt_stddev o)
  then Throw (CudaError "CudaExecutionEngine: stddev entries must be non-zero")
  else Ret tt.

(** The runtime's answers during construction. *)
Record ctor_answers := {
  ca_set_device : unit + string;
  ca_create : nat → positive + string;
  ca_mean : cuda_answer;
  ca_stddev : cuda_answer;
  ca_upload_mean : unit + string;
  ca_upload_stddev : unit + string
}.

(** Freeing the members that were constructed, when the constructor throws. *)
Definition destroy_raw (b : RawBuffer) (h : CudaHeap) : CudaHeap :=
  match raw_destroy b h with Ret h' => h' | _ => h end.

(** [CudaExecutionEngine(options)]: members in declaration order, then the checks and the
    uploads. [h] is the runtime's heap of raw buffers, [live] its set of streams. *)
Definition new_CudaExecutionEngine (o : CudaOptions) (a : ctor_answers) (h : CudaHeap)
    (live : gset positive) : outcome CudaExecutionEngine * CudaHeap * gset positive :=
  match new_CudaStreamPool (opt_stream_count o) (opt_device_id o) (ca_set_device a) (ca_create a) live with
  | (Ret streams, live1) =>
      match raw_new false (u64_mul (vec_size (opt_mean o)) 4) (ca_mean a) h with
      | Ret (mean, h1) =>
          match raw_new false (u64_mul (vec_size (opt_stddev o)) 4) (ca_stddev a) h1 with
          | Ret (stddev, h2) =>
              match
                _ ← check_options o;
                _ ← cuda_check "cudaMemcpy (mean)" (ca_upload_mean a);
                cuda_check "cudaMemcpy (stddev)" (ca_upload_stddev a)
              with
              | Ret _ =>
                  (Ret {| ce_options := o; ce_pool := new_MemoryPool (opt_device_id o); ce_heap := ∅;
                          ce_streams := streams; ce_mean := opt_mean o; ce_stddev := opt_stddev o;
                          ce_mem := ∅; ce_pending := ∅; ce_calls := 0 |}, h2, live1)
              | Throw x => (Throw x, destroy_raw mean (destroy_raw stddev h2), destroy_CudaStreamPool streams live1)
              | Undefined => (Undefined, h2, live1)
              end
          | Throw x => (Throw x, destroy_raw mean h1, destroy_CudaStreamPool streams live1)
          | Undefined => (Undefined, h1, live1)
          end
      | Throw x => (Throw x, h, destroy_CudaStreamPool streams live1)
      | Undefined => (Undefined, h, live1)
      end
  | (Throw x, live1) => (Throw x, h, live1)
  | (Undefined, live1) => (Undefined, h, live1)
  end.

(** ** [run_inference] *)

Section Run.
Variable rt : cuda_runtime.
Open Scope engine_scope.

(** Executing queued operations, in order. *)
Definition exec_op (mean stddev : list float) (n : nat) (m : gmap positive (list float)) (op : dev_op) :
  outcome (gmap positive (list float)) :=
  match op with
  | OpCopy src dst floats =>
      match m !! src, m !! dst with
      | Some s, Some d =>
          chunk ← read_range s 0 floats;
          d' ← write_range d 0 chunk;
          Ret (<[dst := d']> m)
      | _, _ => Undefined
      end
  | OpNormalize ptr l =>
      match m !! ptr with
      | Some data =>
          ts ← grid_threads (lc_blocks l) (lc_total l);
          data' ← normalize_kernel mean stddev (lc_c l) (lc_hw l) (rt_order rt n ts) data;
          Ret (<[ptr := data']> m)
      | None => Undefined
      end
  end.

Definition exec_ops (mean stddev : list float) (n : nat) (m : gmap positive (list float)) (ops : list dev_op) :
  outcome (gmap positive (list float)) :=
  fold_outcome (exec_op mean stddev n) m ops.

Definition queue_of (e : CudaExecutionEngine) (stream : positive) : list dev_op :=
  default [] (ce_pending e !! stream).

(** The device executes the first [k] operations of the stream. *)
Definition advance (stream : positive) (k : nat) : M unit := λ e,
  match exec_ops (ce_mean e) (ce_stddev e) (ce_calls e) (ce_mem e) (take k (queue_of e stream)) with
  | Ret m => (with_mem m (<[stream := drop k (queue_of e stream)]> (ce_pending e)) e, Ret tt)
  | _ => (e, Undefined)
  end.

(** A runtime call: its status, by number of the [run_inference] call. *)
Definition checked (what : string) (c : cuda_call) : M unit := λ e,
  (e, cuda_check what (rt_status rt (ce_calls e) c)).

(** Queueing an operation; the device may get to work at once. *)
Definition enqueue (stream : positive) (op : dev_op) : M unit :=
  (λ e, (with_mem (ce_mem e) (<[stream := queue_of e stream ++ [op]]> (ce_pending e)) e, Ret tt)) ;;
  (λ e, advance stream (rt_progress rt (ce_calls e) (length (queue_of e stream))) e).

(** [cudaStreamSynchronize]: on success everything queued has been executed. *)
Definition synchronize (stream : positive) : M unit :=
  checked "cudaStreamSynchronize" CallSync ;;
  (λ e, advance stream (length (queue_of e stream)) e).

(** [pool_.acquire_pinned], [pool_.acquire_device]. A block new from the runtime has
    unspecified contents; a recycled one keeps what was in it. *)
Definition acquire_buffer (pinned : bool) (bytes : Z) : M PooledBuffer := λ e,
  match acquire pinned bytes (rt_status rt (ce_calls e) CallSetDevice) (rt_malloc rt (ce_heap e) pinned)
          (ce_pool e) (ce_heap e) with
  | Some (p, h, o) =>
      let m := match o with
               | Ret b =>
                   match ptr_ b with
                   | Some ptr =>
                       match ce_heap e !! ptr with
                       | Some _ => ce_mem e
                       | None => <[ptr := rt_junk rt ptr <$> seq 0 (Z.to_nat (capacity_ b / 4))]> (ce_mem e)
                       end
                   | None => ce_mem e
                   end
               | _ => ce_mem e
               end in
      (with_pool p h m e, o)
  | None => (e, Undefined)
  end.

(** A local [PooledBuffer]: its destructor runs when the scope is left, also by a throw. *)
Definition scoped {A} (acq : M PooledBuffer) (body : PooledBuffer → M A) : M A := λ e,
  match acq e with
  | (e1, Ret b) =>
      let '(e2, o) := body b e1 in
      (with_pool (buffer_release b (ce_pool e2)).2 (ce_heap e2) (ce_mem e2) e2, o)
  | (e1, Throw x) => (e1, Throw x)
  | (e1, Undefined) => (e1, Undefined)
  end.

(** [std::memcpy] into a block, and reading a block as floats. *)
Definition host_write (ptr : positive) (data : list float) : M unit := λ e,
  match ce_mem e !! ptr with
  | Some old =>
      match write_range old 0 data with
      | Ret new => (with_mem (<[ptr := new]> (ce_mem e)) (ce_pending e) e, Ret tt)
      | _ => (e, Undefined)
      end
  | None => (e, Undefined)
  end.

Definition host_read (ptr : positive) : M (list float) := λ e,
  (e, match ce_mem e !! ptr with Some data => Ret data | None => Undefined end).

Definition next_stream : M positive := λ e,
  let '(s, o) := next (ce_streams e) in (with_streams s e, o).

(** From the staged input to the synchronized result, on blocks [staging] and [device]. *)
Definition round_trip (staging device : positive) (input : list float) (n c hw : Z) : M (list float) :=
  host_write staging input ;;
  stream <- next_stream ;;
  checked "cudaMemcpyAsync (H2D)" CallH2D ;;
  enqueue stream (OpCopy staging device (vec_size input)) ;;
  launched <- (λ e, (e, launch_normalize true (i32 n) (i32 c) (i32 hw) (rt_status rt (ce_calls e) CallLaunch))) ;;
  match launched with
  | Some l => enqueue stream (OpNormalize device l)
  | None => retM tt
  end ;;
  checked "cudaMemcpyAsync (D2H)" CallD2H ;;
  enqueue stream (OpCopy device staging (vec_size input)) ;;
  synchronize stream ;;
  host_read staging.

Definition cuda_run_inference (batched_input : list float) (batch_size input_elems output_elems : Z) :
  M (list float) := λ e0,
  let e := next_call e0 in
  if negb (vec_size batched_input =? u64_mul batch_size input_elems)
  then (e, Throw (InferenceError "batched input size does not match batch_size * input_elems"))
  else if batch_size =? 0 then (e, Ret [])
  else
    let channel_count := channels e in
    if (input_elems =? 0) || negb (input_elems mod channel_count =? 0)
    then (e, Throw (InferenceError "input_elems must be a non-zero multiple of the channel count"))
    else
      let hw := input_elems / channel_count in
      let bytes := u64_mul (vec_size batched_input) 4 in
      scoped (acquire_buffer true bytes) (λ staging,
        scoped (acquire_buffer false bytes) (λ device,
          match ptr_ staging, ptr_ device with
          | Some sp, Some dp =>
              normalized <- round_trip sp dp batched_input batch_size channel_count hw ;;
              batched_output <- liftM (vec_fill (u64_mul batch_size output_elems) f32_zero) ;;
              liftM (copy_rows normalized batch_size input_elems output_elems batched_output)
          | _, _ => liftM Undefined
          end)) e.
End Run.

(** The engine as an implementation of the interface. *)
Definition cuda_IExecutionEngine (rt : cuda_runtime) : IExecutionEngine CudaExecutionEngine :=
  λ e batched_input batch_size input_elems output_elems,
    cuda_run_inference rt batched_input batch_size input_elems output_elems e.

(** ** Queues: whatever the device's progress, the queue's final effect is the same *)

Section Queues.
Variable rt : cuda_runtime.

(** Relative to [e0]: the stream holds operations whose execution ends in memory [m]. *)
Definition queued (e0 : CudaExecutionEngine) (stream : positive) (m : gmap positive (list float))
    (e : CudaExecutionEngine) : Prop :=
  ∃ m1 q, e = with_mem m1 q e0 ∧ (∀ s, s ≠ stream → q !! s = ce_pending e0 !! s) ∧
    exec_ops rt (ce_mean e0) (ce_stddev e0) (ce_calls e0) m1 (default [] (q !! stream)) = Ret m.

Lemma queued_nil e stream : queue_of e stream = [] → queued e stream (ce_mem e) e.
Proof.
  intros Hq. exists (ce_mem e), (ce_pending e). unfold queue_of in Hq. rewrite Hq.
  split; [by destruct e | done].
Qed.

Lemma advance_queued e0 stream m e k :
  queued e0 stream m e → ∃ e', advance rt stream k e = (e', Ret tt) ∧ queued e0 stream m e'.
Proof.
  intros (m1 & q & -> & Hoth & Hex). unfold advance, queue_of. simpl.
  rewrite <- (take_drop k (default [] (q !! stream))) in Hex. unfold exec_ops in *.
  rewrite fold_outcome_app in Hex.
  destruct (fold_outcome _ m1 (take k _)) as [m2|x|]; simpl in Hex; try done.
  eexists. split; [done |]. eexists m2, _. split; [done |].
  split; [intros s Hs; rewrite lookup_insert_ne by done; by apply Hoth | by rewrite lookup_insert_eq].
Qed.

Lemma enqueue_queued e0 stream m e op m' :
  queued e0 stream m e →
  exec_op rt (ce_mean e0) (ce_stddev e0) (ce_calls e0) m op = Ret m' →
  ∃ e', enqueue rt stream op e = (e', Ret tt) ∧ queued e0 stream m' e'.
Proof.
  intros (m1 & q & -> & Hoth & Hex) Hop. unfold enqueue, bindM. simpl.
  apply (advance_queued e0). eexists m1, _. split; [done |].
  split; [intros s Hs; rewrite lookup_insert_ne by done; by apply Hoth |].
  rewrite lookup_insert_eq. simpl. unfold exec_ops, queue_of in *. simpl.
  rewrite fold_outcome_app, Hex. simpl. by rewrite Hop.
Qed.

(** Synchronizing executes what is left. *)
Lemma synchronize_queued e0 stream m e :
  queued e0 stream m e → rt_status rt (ce_calls e0) CallSync = inl tt → queue_of e0 stream = [] →
  ∃ q, synchronize rt stream e = (with_mem m q e0, Ret tt) ∧
    ∀ s, default [] (q !! s) = queue_of e0 s.
Proof.
  intros (m1 & q & -> & Hoth & Hex) Hst Hq0. unfold synchronize, bindM, checked. simpl. rewrite Hst. simpl.
  unfold advance, queue_of. simpl. rewrite firstn_all, drop_all, Hex. simpl. eexists. split; [done |].
  intros s. destruct (decide (s = stream)) as [->|Hne]; [by rewrite lookup_insert_eq |].
  rewrite lookup_insert_ne by done. by rewrite Hoth.
Qed.

Lemma copy_op mean stddev n (m : gmap positive (list float)) src dst data rest d :
  m !! src = Some (data ++ rest) → m !! dst = Some d → vec_size data ≤ vec_size d →
  exec_op rt mean stddev n m (OpCopy src dst (vec_size data)) =
    Ret (<[dst := data ++ drop (length data) d]> m).
Proof.
  intros Hs Hd Hn. simpl. rewrite Hs, Hd. pose proof (vec_size_nonneg data).
  rewrite read_range_Ret by (rewrite ?vec_size_app; pose proof (vec_size_nonneg rest); lia).
  rewrite to_nat_vec_size, drop_0, take_app_length. simpl.
  rewrite write_range_Ret by lia. simpl. done.
Qed.
End Queues.

(** ** The contract *)

Section Contract.
Context (rt : cuda_runtime) `{HR : !RuntimeOk rt}.
Context (mean stddev : list float).

Definition mem_ok (h : CudaHeap) (m : gmap positive (list float)) : Prop :=
  ∀ ptr cap k, h !! ptr = Some (cap, k) → ∃ l, m !! ptr = Some l ∧ vec_size l = cap / 4.

(** The engine between calls ([objs] empty) and inside one ([objs] the local handles). *)
Record eng_inv (objs : objects) (e : CudaExecutionEngine) : Prop := {
  ei_pool : pool_inv {| py_pool := ce_pool e; py_heap := ce_heap e; py_objs := objs |};
  ei_mem : mem_ok (ce_heap e) (ce_mem e);
  ei_streams : streams_ (ce_streams e) ≠ [] ∧ is_u64 (cursor_ (ce_streams e));
  ei_idle : ∀ s, queue_of e s = [];
  ei_consts : opt_mean (ce_options e) = mean ∧ ce_mean e = mean ∧ ce_stddev e = stddev
}.

Definition cuda_good : CudaExecutionEngine → Prop := eng_inv ∅.

(** *** Acquiring a local buffer *)

Lemma mem_ok_acquire e k bytes p h b objs x :
  eng_inv objs e → acquire k bytes (rt_status rt (ce_calls e) CallSetDevice)
    (rt_malloc rt (ce_heap e) k) (ce_pool e) (ce_heap e) = Some (p, h, Ret b) →
  pool_inv {| py_pool := p; py_heap := h; py_objs := <[x := b]> objs |} →
  ∃ m, acquire_buffer rt k bytes e = (with_pool p h m e, Ret b) ∧ mem_ok h m.
Proof.
  intros HI Hacq Hpi. unfold acquire_buffer. rewrite Hacq.
  destruct (acquire_heap _ _ _ _ _ _ _ _ _ Hacq) as (Hk & _ & ptr & Hptr & Hh). rewrite Hptr.
  destruct (pool_inv_handle _ x b ptr Hpi) as (Hlk & _ & _); [apply lookup_insert_eq | done |]. simpl in Hlk.
  pose proof (ei_mem _ _ HI) as Hm. eexists. split; [done |]. destruct Hh as [->|[-> Hans]].
  - by rewrite Hlk.
  - pose proof (malloc_fresh _ _ _ Hans) as Hfr. rewrite Hfr. intros q cap k' Hq.
    destruct (decide (q = ptr)) as [->|Hne].
    + rewrite lookup_insert_eq in *. simplify_eq. eexists. split; [done |].
      destruct (pool_inv_handle _ x b ptr Hpi) as (_ & _ & Hmod); [apply lookup_insert_eq | done |].
      assert (0 ≤ capacity_ b / 4).
      { apply Z.div_pos; [| lia]. destruct Hpi as [_ Hok _]. simpl in Hok.
        pose proof (map_Forall_lookup_1 _ _ _ _ Hok (lookup_insert_eq _ _ _)) as Hb. unfold handle_ok in Hb.
        destruct (pool_ b); [| lia]. destruct Hb as (_ & Hbu & Hu).
        destruct (bucket_for_fits _ _ Hu Hbu) as (_ & _ & ?). lia. }
      unfold vec_size. rewrite length_fmap, length_seq. lia.
    + rewrite lookup_insert_ne in Hq by done. rewrite lookup_insert_ne by done. exact (Hm _ _ _ Hq).
Qed.

Lemma acquire_buffer_spec e k bytes objs x :
  eng_inv objs e → objs !! x = None → 0 ≤ bytes ≤ two63 →
  (∃ b ptr p h m, acquire_buffer rt k bytes e = (with_pool p h m e, Ret b) ∧
     eng_inv (<[x := b]> objs) (with_pool p h m e) ∧ ptr_ b = Some ptr ∧ requested_ b = bytes) ∨
  (∃ p h m y, acquire_buffer rt k bytes e = (with_pool p h m e, Throw y) ∧
     eng_inv objs (with_pool p h m e) ∧ ¬ healthy rt).
Proof.
  intros HI Hx Hb. pose proof HI as [Hpool Hm Hs Hq Hco].
  destruct (acquire_total k bytes (rt_status rt (ce_calls e) CallSetDevice) (rt_malloc rt (ce_heap e) k)
    (ce_pool e) (ce_heap e) Hb) as (p & h & o & Hacq & Ho). destruct o as [b|y|]; [left | right | done].
  - assert (Hpi : pool_inv {| py_pool := p; py_heap := h; py_objs := <[x := b]> objs |}).
    { eapply (pool_inv_acquire _ k bytes _ _ p h b x Hpool); [unfold is_u64; lia | | done | exact Hacq].
      intros ptr Hans. simpl. by eapply malloc_fresh. }
    destruct (mem_ok_acquire e k bytes p h b objs x HI Hacq Hpi) as (m & Hrun & Hm').
    destruct (acquire_heap _ _ _ _ _ _ _ _ _ Hacq) as (_ & Hreq & ptr & Hptr & _).
    exists b, ptr, p, h, m. split; [done |]. split; [by split | done].
  - exists p, h, (ce_mem e), y. unfold acquire_buffer. rewrite Hacq. split; [done |].
    destruct (acquire_Throw _ _ _ _ _ _ _ _ _ Hacq) as (-> & Hca & H1 & H2 & H3).
    destruct Hpool as [Hbl Hh (Hc1 & Hc2 & Hc3)]. simpl in *. split.
    + split; simpl; try done. split; simpl; [by rewrite Hca | done |].
      unfold counters_ok. rewrite Hca. split_and!; congruence.
    + intros [Hst Hma]. destruct (Hma (ce_heap e) k) as [ptr Hptr].
      by eapply acquire_answered in Hacq; [| apply Hst | exact Hptr].
Qed.

(** Leaving the scope gives the block back. *)
Lemma release_spec e objs x b :
  eng_inv (<[x := b]> objs) e → objs !! x = None →
  eng_inv objs (with_pool (buffer_release b (ce_pool e)).2 (ce_heap e) (ce_mem e) e).
Proof.
  intros [Hpool Hm Hs Hq Hco] Hx.
  destruct (buffer_release b (ce_pool e)) as [b' p'] eqn:Hrel. split; simpl; try done.
  pose proof (pool_inv_destroy _ x b b' p' Hpool (lookup_insert_eq _ _ _) Hrel) as Hd. simpl in *.
  rewrite delete_insert_id in Hd by done. exact Hd.
Qed.

(** *** Updates that keep the invariant *)

Lemma mem_ok_insert h m ptr l l' :
  mem_ok h m → m !! ptr = Some l → vec_size l' = vec_size l → mem_ok h (<[ptr := l']> m).
Proof.
  intros Hm Hl Hlen q cap k Hq. destruct (Hm q cap k Hq) as (lq & Hlq & Hsz).
  destruct (decide (q = ptr)) as [->|Hne].
  - rewrite lookup_insert_eq. eexists. split; [done |]. simplify_eq. congruence.
  - rewrite lookup_insert_ne by done. eauto.
Qed.

Lemma eng_inv_mem objs e m q :
  eng_inv objs e → mem_ok (ce_heap e) m → (∀ s, default [] (q !! s) = []) → eng_inv objs (with_mem m q e).
Proof. intros [] Hm Hq. by split. Qed.

Lemma eng_inv_next objs e s o :
  eng_inv objs e → next (ce_streams e) = (s, o) → eng_inv objs (with_streams s e).
Proof.
  intros [Hp Hm [Hs1 Hs2] Hq Hco] Hn. unfold next in Hn. simplify_eq. split; simpl; try done.
  split; [done | apply u64_range].
Qed.

(** *** The round trip *)

Context (c hw : nat) (max_rows oe : Z).
Hypotheses (Hc : (0 < c)%nat) (Hhw : (0 < hw)%nat)
  (Hc31 : Z.of_nat c < two31) (Hhw31 : Z.of_nat hw < two31) (Hn31 : max_rows < two31)
  (Hmean : length mean = c) (Hstd : length stddev = c) (Hoe : 0 ≤ oe)
  (Hin : max_rows * (Z.of_nat c * Z.of_nat hw) ≤ vec_max_size)
  (Hout : max_rows * oe ≤ vec_max_size).
(** The calls made while operations are queued do not fail. *)
Hypothesis (Hlate : ∀ n, rt_status rt n CallLaunch = inl tt ∧ rt_status rt n CallD2H = inl tt ∧
                         rt_status rt n CallSync = inl tt).

Abbreviation ie := (Z.of_nat c * Z.of_nat hw).

Lemma rows_sized (rows : list (list float)) :
  Forall (λ r, vec_size r = ie) rows → Forall (λ r, length r = (c * hw)%nat) rows.
Proof. intros Hr. eapply Forall_impl; [exact Hr |]. intros r. unfold vec_size. lia. Qed.

Lemma rows_fit (rows : list (list float)) :
  vec_size rows ≤ max_rows → vec_size rows * ie ≤ vec_max_size.
Proof. intros Hmax. etrans; [apply Z.mul_le_mono_nonneg_r; [lia | exact Hmax] | exact Hin]. Qed.

(** The three queued operations, one after the other, on the memory. *)
Lemma ops_effect n (m : gmap positive (list float)) sp dp rows ms md :
  sp ≠ dp → rows ≠ [] → vec_size rows ≤ max_rows → Forall (λ r, vec_size r = ie) rows →
  m !! sp = Some (concat rows ++ ms) → m !! dp = Some md → vec_size (concat rows) ≤ vec_size md →
  ∃ l m2 m3 m4 md',
    exec_op rt mean stddev n m (OpCopy sp dp (vec_size (concat rows))) = Ret m2 ∧
    launch_normalize true (vec_size rows) (Z.of_nat c) (Z.of_nat hw) (inl tt) = Ret (Some l) ∧
    exec_op rt mean stddev n m2 (OpNormalize dp l) = Ret m3 ∧
    exec_op rt mean stddev n m3 (OpCopy dp sp (vec_size (concat rows))) = Ret m4 ∧
    m4 = <[sp := concat (norm_row mean stddev c hw <$> rows) ++ ms]> (<[dp := md']> m) ∧
    vec_size md' = vec_size md.
Proof.
  intros Hne Hrn Hmax Hr Hsp Hdp Hfit. set (input := concat rows) in *.
  set (tail := drop (length input) md).
  assert (Hnz : 0 < vec_size rows) by (destruct rows; [done | unfold vec_size; simpl; lia]).
  destruct (launched_rows rows tail mean stddev c hw) as (l & ts & Hl & Hts & Hk); try done.
  { by apply rows_sized. } { unfold max_stride, kBlockSize, kMaxBlocks, vec_max_size in *. nia. }
  set (normed := concat (norm_row mean stddev c hw <$> rows)) in *.
  assert (Hlen : length normed = length input).
  { unfold normed, input. clear. induction rows as [|r rows IH]; csimpl; [done |].
    rewrite !length_app, IH. unfold norm_row. by rewrite length_imap. }
  assert (Hvn : vec_size normed = vec_size input) by (unfold vec_size; by rewrite Hlen).
  assert (Htl : length tail = (length md - length input)%nat) by apply length_drop.
  exists l. eexists _, _, _, (normed ++ tail). split; [by apply (copy_op rt _ _ _ _ _ _ _ ms) |].
  split; [done |]. split.
  { simpl. rewrite lookup_insert_eq, Hts. simpl. rewrite Hk by apply order_interleaves. simpl. reflexivity. }
  rewrite insert_insert_eq. split.
  { rewrite <- Hvn. apply (copy_op rt _ _ _ _ _ _ _ tail); [by rewrite lookup_insert_eq | |].
    - by rewrite lookup_insert_ne.
    - rewrite vec_size_app, Hvn. unfold input. pose proof (vec_size_nonneg ms). lia. }
  split.
  - f_equal. rewrite Hlen. unfold input. by rewrite drop_app_length.
  - unfold vec_size in *. rewrite length_app, Hlen, Htl. lia.
Qed.

(** The part after the stream was chosen, with the input staged. *)
Lemma queued_part objs e sp dp stream rows ms md :
  eng_inv objs e → sp ≠ dp → rows ≠ [] → vec_size rows ≤ max_rows → Forall (λ r, vec_size r = ie) rows →
  ce_mem e !! sp = Some (concat rows ++ ms) → ce_mem e !! dp = Some md →
  vec_size (concat rows) ≤ vec_size md →
  ∃ e', (bindM (enqueue rt stream (OpCopy sp dp (vec_size (concat rows)))) (λ _,
         bindM (λ e, (e, launch_normalize true (i32 (vec_size rows)) (i32 (Z.of_nat c)) (i32 (Z.of_nat hw))
                           (rt_status rt (ce_calls e) CallLaunch))) (λ launched,
         bindM (match launched with Some l => enqueue rt stream (OpNormalize dp l) | None => retM tt end) (λ _,
         bindM (checked rt "cudaMemcpyAsync (D2H)" CallD2H) (λ _,
         bindM (enqueue rt stream (OpCopy dp sp (vec_size (concat rows)))) (λ _,
         bindM (synchronize rt stream) (λ _, host_read sp))))))) e =
      (e', Ret (concat (norm_row mean stddev c hw <$> rows) ++ ms)) ∧
    eng_inv objs e' ∧ ce_pool e' = ce_pool e ∧ ce_heap e' = ce_heap e.
Proof.
  intros HI Hne Hrn Hmax Hr Hsp Hdp Hfit.
  destruct (ops_effect (ce_calls e) (ce_mem e) sp dp rows ms md) as (l & m2 & m3 & m4 & md' & H1 & Hl & H2 & H3 & -> & Hmd);
    try done.
  pose proof (ei_idle _ _ HI) as Hq. destruct (ei_consts _ _ HI) as (_ & Hme & Hsd). 
  rewrite <- Hme in H1, H2, H3. rewrite <- Hsd in H1, H2, H3.
  destruct (Hlate (ce_calls e)) as (L1 & L2 & L3).
  pose proof (vec_size_nonneg rows). rewrite !i32_small by lia.
  destruct (enqueue_queued rt e stream _ e _ _ (queued_nil rt e stream (Hq stream)) H1) as (e1 & E1 & Q1).
  unfold bindM at 1. rewrite E1. unfold bindM at 1.
  assert (Hcalls : ∀ m e', queued rt e stream m e' → ce_calls e' = ce_calls e) by (by intros m e' (? & ? & -> & _)).
  rewrite (Hcalls _ _ Q1), L1, Hl. simpl.
  destruct (enqueue_queued rt e stream _ e1 _ _ Q1 H2) as (e2 & E2 & Q2).
  unfold bindM at 1. rewrite E2. unfold bindM at 1, checked. rewrite (Hcalls _ _ Q2), L2. simpl.
  destruct (enqueue_queued rt e stream _ e2 _ _ Q2 H3) as (e3 & E3 & Q3).
  unfold bindM at 1. rewrite E3. unfold bindM at 1.
  destruct (synchronize_queued rt e stream _ e3 Q3 L3 (Hq stream)) as (q & E4 & Hq4). rewrite E4.
  unfold host_read. simpl. rewrite lookup_insert_eq, Hme, Hsd. eexists. split; [done |]. split; [| done].
  apply eng_inv_mem; [done | | by intros s; rewrite Hq4].
  assert (Hvn : vec_size (concat (norm_row mean stddev c hw <$> rows) ++ ms) =
                vec_size (concat rows ++ ms)).
  { rewrite !vec_size_app. f_equal. unfold vec_size. f_equal. clear. induction rows as [|r rows IH]; csimpl; [done |].
    rewrite !length_app, IH. unfold norm_row. by rewrite length_imap. }
  eapply mem_ok_insert; [eapply mem_ok_insert; [apply HI | exact Hdp | exact Hmd] | | exact Hvn].
  by rewrite lookup_insert_ne.
Qed.

Lemma round_trip_spec objs e x y bs bd sp dp rows :
  eng_inv objs e → x ≠ y → objs !! x = Some bs → objs !! y = Some bd →
  ptr_ bs = Some sp → ptr_ bd = Some dp →
  requested_ bs = vec_size (concat rows) * 4 → requested_ bd = vec_size (concat rows) * 4 →
  rows ≠ [] → vec_size rows ≤ max_rows → Forall (λ r, vec_size r = ie) rows →
  ∃ e' o, round_trip rt sp dp (concat rows) (vec_size rows) (Z.of_nat c) (Z.of_nat hw) e = (e', o) ∧
    eng_inv objs e' ∧
    ((∃ ms, o = Ret (concat (norm_row mean stddev c hw <$> rows) ++ ms)) ∨
     (∃ z, o = Throw z) ∧ ¬ healthy rt).
Proof.
  intros HI Hxy Hx Hy Hps Hpd Hrs Hrd Hrn Hmax Hr. pose proof HI as [Hpool Hm [Hs1 Hs2] Hq Hco].
  destruct (pool_inv_handle _ x bs sp Hpool Hx Hps) as (Hhs & Hcs & Hms4).
  destruct (pool_inv_handle _ y bd dp Hpool Hy Hpd) as (Hhd & Hcd & Hmd4). simpl in Hhs, Hhd.
  pose proof (pool_inv_distinct _ x y bs bd sp dp Hpool Hxy Hx Hy Hps Hpd) as Hne.
  destruct (Hm _ _ _ Hhs) as (ms & Hsp & Hszs). destruct (Hm _ _ _ Hhd) as (md & Hdp & Hszd).
  assert (Hfs : vec_size (concat rows) ≤ vec_size ms).
  { rewrite Hszs. apply Z.div_le_lower_bound; lia. }
  assert (Hfd : vec_size (concat rows) ≤ vec_size md).
  { rewrite Hszd. apply Z.div_le_lower_bound; lia. }
  unfold round_trip. unfold bindM at 1, host_write. rewrite Hsp, write_range_Ret by lia. simpl.
  set (m1 := <[sp := _]> (ce_mem e)).
  assert (Hm1 : mem_ok (ce_heap e) m1).
  { eapply mem_ok_insert; [done | exact Hsp |]. unfold vec_size in *. rewrite length_app, length_drop. lia. }
  assert (HI1 : eng_inv objs (with_mem m1 (ce_pending e) e)) by by apply eng_inv_mem.
  unfold bindM at 1, next_stream.
  destruct (next_spec (ce_streams (with_mem m1 (ce_pending e) e)) Hs1 Hs2) as (stream & _ & Hret).
  destruct (next (ce_streams _)) as [st o] eqn:Hnext. simpl in Hret. subst o.
  pose proof (eng_inv_next _ _ _ _ HI1 Hnext) as HI2. set (e2 := with_streams st _) in *.
  unfold bindM at 1, checked. destruct (rt_status rt (ce_calls e2) CallH2D) as [u|msg] eqn:Hh2d; simpl.
  - destruct (queued_part objs e2 sp dp stream rows (drop (length (concat rows)) ms) md) as (e' & Hrun & HI' & _);
      try done.
    + unfold e2, m1. simpl. by rewrite lookup_insert_eq.
    + unfold e2, m1. simpl. by rewrite lookup_insert_ne.
    + eexists _, _. split; [exact Hrun |]. split; [done |]. left. by eexists.
  - eexists _, _. split; [done |]. split; [done |]. right. split; [by eexists |].
    intros [Hst _]. by rewrite Hst in Hh2d.
Qed.

Definition cuda_row (r : list float) : list float := fit_row oe (norm_row mean stddev c hw r).

(** With both buffers at hand. *)
Lemma with_buffers_spec objs e x y bs bd sp dp rows :
  eng_inv objs e → x ≠ y → objs !! x = Some bs → objs !! y = Some bd →
  ptr_ bs = Some sp → ptr_ bd = Some dp →
  requested_ bs = vec_size (concat rows) * 4 → requested_ bd = vec_size (concat rows) * 4 →
  rows ≠ [] → vec_size rows ≤ max_rows → Forall (λ r, vec_size r = ie) rows →
  ∃ e' o, bindM (round_trip rt sp dp (concat rows) (vec_size rows) (Z.of_nat c) (Z.of_nat hw)) (λ normalized,
            bindM (liftM (vec_fill (u64_mul (vec_size rows) oe) f32_zero)) (λ out,
              liftM (copy_rows normalized (vec_size rows) ie oe out))) e = (e', o) ∧
    eng_inv objs e' ∧ (o = Ret (concat (cuda_row <$> rows)) ∨ (∃ z, o = Throw z) ∧ ¬ healthy rt).
Proof.
  intros HI Hxy Hx Hy Hps Hpd Hrs Hrd Hrn Hmax Hr.
  destruct (round_trip_spec objs e x y bs bd sp dp rows) as (e' & o & Hrun & HI' & Ho); try done.
  unfold bindM at 1. rewrite Hrun. destruct Ho as [[ms ->]|[[z ->] Hnh]]; [| eexists _, _; eauto 10].
  pose proof (vec_size_nonneg rows).
  assert (Hvo : vec_size rows * oe ≤ vec_max_size) by nia.
  pose proof (rows_fit rows Hmax) as Hvi. unfold vec_max_size in *.
  unfold bindM, liftM, vec_fill. rewrite u64_mul_small by lia.
  rewrite (proj2 (Z.ltb_ge _ _)) by (unfold vec_max_size; lia).
  set (nrows := norm_row mean stddev c hw <$> rows).
  assert (Hnr : Forall (λ r, vec_size r = ie) nrows).
  { apply Forall_fmap. eapply Forall_impl; [exact Hr |]. intros r Hrs'. simpl. unfold norm_row, vec_size in *.
    by rewrite length_imap. }
  assert (Hnn : vec_size nrows = vec_size rows) by (unfold nrows, vec_size; by rewrite length_fmap).
  rewrite <- Hnn. rewrite copy_rows_spec by (rewrite ?Hnn; done || lia).
  eexists _, _. split; [done |]. split; [done |]. left. unfold nrows. by rewrite <- list_fmap_compose.
Qed.

Lemma cuda_run_spec e rows e' o :
  cuda_good e → rows ≠ [] → vec_size rows ≤ max_rows → Forall (λ r, vec_size r = ie) rows →
  cuda_run_inference rt (concat rows) (vec_size rows) ie oe e = (e', o) →
  cuda_good e' ∧ (o = Ret (concat (cuda_row <$> rows)) ∨ (∃ x, o = Throw x) ∧ ¬ healthy rt).
Proof.
  intros HG Hrn Hmax Hr Hrun.
  assert (HI : eng_inv ∅ (next_call e)) by by destruct HG.
  assert (Hnz : 0 < vec_size rows) by (destruct rows; [done | unfold vec_size; simpl; lia]).
  pose proof (rows_fit rows Hmax) as Hvi. unfold vec_max_size in *.
  pose proof (vec_size_concat rows ie ltac:(lia) Hr) as Hcat.
  unfold cuda_run_inference in Hrun. rewrite u64_mul_small, <- Hcat, Z.eqb_refl in Hrun by lia. simpl in Hrun.
  rewrite (proj2 (Z.eqb_neq _ _)) in Hrun by lia.
  assert (Hch : channels (next_call e) = Z.of_nat c).
  { destruct (ei_consts _ _ HI) as (Hm & _ & _). unfold channels. rewrite Hm. unfold vec_size. by rewrite Hmean. }
  rewrite Hch in Hrun.
  rewrite (proj2 (Z.eqb_neq ie 0)), (Z.mul_comm (Z.of_nat c)), Z.mod_mul, Z.div_mul in Hrun by lia. simpl in Hrun.
  rewrite (Z.mul_comm (Z.of_nat hw)) in Hrun.
  rewrite u64_mul_small in Hrun by lia.
  set (bytes := vec_size (concat rows) * 4) in *. assert (Hb : 0 ≤ bytes ≤ two63) by lia.
  unfold scoped at 1 in Hrun.
  destruct (acquire_buffer_spec (next_call e) true bytes ∅ 1%positive HI (lookup_empty _) Hb)
    as [(bs & sp & p1 & h1 & m1 & Ha & HI1 & Hps & Hrs)|(p1 & h1 & m1 & z & Ha & HI1 & Hnh)]; rewrite Ha in Hrun.
  2: { simplify_eq. split; [done | eauto]. }
  set (e1 := with_pool p1 h1 m1 (next_call e)) in *. set (objs1 := <[1%positive := bs]> (∅ : objects)) in *.
  assert (H2 : objs1 !! 2%positive = None) by by unfold objs1; rewrite lookup_insert_ne.
  unfold scoped in Hrun.
  destruct (acquire_buffer_spec e1 false bytes objs1 2%positive HI1 H2 Hb)
    as [(bd & dp & p2 & h2 & m2 & Ha2 & HI2 & Hpd & Hrd)|(p2 & h2 & m2 & z & Ha2 & HI2 & Hnh)]; rewrite Ha2 in Hrun.
  2: { simplify_eq. split; [by apply (release_spec _ ∅ 1%positive bs) | eauto]. }
  set (e2 := with_pool p2 h2 m2 e1) in *. rewrite Hps, Hpd in Hrun.
  destruct (with_buffers_spec (<[2%positive := bd]> objs1) e2 1%positive 2%positive bs bd sp dp rows)
    as (e3 & o3 & Hrun3 & HI3 & Ho3); try done.
  rewrite Hrun3 in Hrun. simplify_eq. split; [| done].
  pose proof (release_spec _ objs1 2%positive bd HI3 H2) as HI4.
  exact (release_spec _ ∅ 1%positive bs HI4 (lookup_empty _)).
Qed.

Lemma cuda_contract :
  EngineContract CudaExecutionEngine (H := cuda_IExecutionEngine rt) cuda_good max_rows ie oe cuda_row
    (λ _, ¬ healthy rt).
Proof.
  split.
  - intros r _. by apply fit_row_size.
  - intros e rows e' o HG Hrn Hmax Hr Hrun.
    destruct (cuda_run_spec e rows e' o HG Hrn Hmax Hr Hrun) as [? [?|[[x ?] ?]]]; eauto.
Qed.
End Contract.

(** ** The constructor *)

Lemma raw_new_destroy k bytes ans h b h' :
  raw_new k bytes ans h = Ret (b, h') → fresh_answer ans h → destroy_raw b h' = h.
Proof.
  unfold raw_new, destroy_raw, raw_destroy. destruct (0 <? bytes); [| by intros; simplify_eq].
  destruct ans as [ptr|msg]; simpl; [| done]. intros Hn Hf. simplify_eq. simpl. unfold cuda_free.
  rewrite lookup_insert_eq, Bool.eqb_reflx. apply delete_insert_id. by apply Hf.
Qed.

Lemma raw_new_fresh k bytes ans h b h' ans2 :
  raw_new k bytes ans h = Ret (b, h') → fresh_answer ans2 h → (∀ ptr, ans = inl ptr → ans2 ≠ inl ptr) →
  fresh_answer ans2 h'.
Proof.
  unfold raw_new. destruct (0 <? bytes); [| by intros; simplify_eq].
  destruct ans as [ptr|msg]; simpl; [| done]. intros Hn Hf Hd. simplify_eq. intros q Hq.
  rewrite lookup_insert_ne; [by apply Hf |]. intros <-. by eapply Hd.
Qed.

Lemma check_options_Ret o u :
  check_options o = Ret u →
  opt_mean o ≠ [] ∧ length (opt_mean o) = length (opt_stddev o) ∧ has_zero (opt_stddev o) = false.
Proof.
  unfold check_options. destruct (Z.eqb_spec (vec_size (opt_mean o)) 0) as [|H0]; [done |].
  destruct (Z.eqb_spec (vec_size (opt_mean o)) (vec_size (opt_stddev o))) as [H1|]; simpl; [| done].
  destruct (has_zero _); [done |]. intros _. unfold vec_size in *. split_and!; [| lia | done].
  intros Hnil. by rewrite Hnil in H0.
Qed.

Lemma check_options_safe o : check_options o ≠ Undefined.
Proof. unfold check_options. by repeat split_if. Qed.

Lemma new_pool_inv d : pool_inv {| py_pool := new_MemoryPool d; py_heap := ∅; py_objs := ∅ |}.
Proof. exact (pool_inv_init d). Qed.

(** The answers of the runtime during construction are fresh. *)
Definition fresh_ctor (a : ctor_answers) (h : CudaHeap) (live : gset positive) : Prop :=
  (∀ i s, ca_create a i = inl s → s ∉ live) ∧ fresh_answer (ca_mean a) h ∧ fresh_answer (ca_stddev a) h ∧
  (∀ ptr, ca_mean a = inl ptr → ca_stddev a ≠ inl ptr).

(** ** Properties *)

(** C22: the CUDA engine implements the engine interface as long as no kernel launch, no copy
    back to the host and no stream synchronization fails ([Hlate]; allocations and the
    upload may). On such a runtime, which hands out fresh pointers and runs kernel threads
    in some interleaving, whatever the device's progress on its queues and the junk in its
    memory, a call on a batch of rows returns, row by row in the same order, the normalized
    input row truncated or zero-padded to [output_elems], or throws, the latter only when a
    runtime call failed. Either way all pooled handles are back, no operation is left in
    flight and the engine can serve the next batch. Without [Hlate] that is false of the
    code: [late_failure_releases_in_flight]. *)
Theorem cuda_engine_meets_contract (rt : cuda_runtime) (HR : RuntimeOk rt) (mean stddev : list float)
  (c hw : nat) (max_rows oe : Z)
  (Hc : (0 < c)%nat) (Hhw : (0 < hw)%nat) (Hc31 : Z.of_nat c < two31) (Hhw31 : Z.of_nat hw < two31)
  (Hn31 : max_rows < two31) (Hmean : length mean = c) (Hstd : length stddev = c) (Hoe : 0 ≤ oe)
  (Hin : max_rows * (Z.of_nat c * Z.of_nat hw) ≤ vec_max_size) (Hout : max_rows * oe ≤ vec_max_size)
  (Hlate : ∀ n, rt_status rt n CallLaunch = inl tt ∧ rt_status rt n CallD2H = inl tt ∧
                rt_status rt n CallSync = inl tt) :
  EngineContract CudaExecutionEngine (H := cuda_IExecutionEngine rt) (cuda_good mean stddev) max_rows
    (Z.of_nat c * Z.of_nat hw) oe (cuda_row mean stddev c hw oe) (λ _, ¬ healthy rt).
Proof. by apply cuda_contract. Qed.

(** Construction of the CUDA engine. A constructed engine has at least one channel,
    as many standard deviations as means, none of them zero, and starts in the state the
    contract asks for; a constructor that throws has freed both constant buffers and, once
    its streams were created, destroyed them again. *)
Theorem cuda_engine_construction (o : CudaOptions) (a : ctor_answers) (h : CudaHeap) (live : gset positive)
  (Hcount : 0 ≤ opt_stream_count o) (Hfresh : fresh_ctor a h live) :
  match new_CudaExecutionEngine o a h live with
  | (Ret e, _, _) =>
      opt_mean o ≠ [] ∧ length (opt_mean o) = length (opt_stddev o) ∧ has_zero (opt_stddev o) = false ∧
      cuda_good (opt_mean o) (opt_stddev o) e
  | (Throw x, h', live') =>
      h' = h ∧
      (live' = live ∨ new_CudaStreamPool (opt_stream_count o) (opt_device_id o) (ca_set_device a)
                        (ca_create a) live = (Throw x, live'))
  | (Undefined, _, _) => False
  end.
Proof.
  destruct Hfresh as (Hfs & Hfm & Hfd & Hne). unfold new_CudaExecutionEngine.
  destruct (new_CudaStreamPool _ _ _ _ live) as [[p|x|] live1] eqn:Hsp; [| by auto | by eapply stream_ctor_defined].
  destruct (stream_ctor_inv _ _ _ _ _ _ _ Hcount Hfs Hsp) as (Hp0 & Hp1 & Hp2 & _ & Hp3).
  assert (Hsn : streams_ p ≠ []) by (intros Hn; rewrite Hn in Hp0; unfold vec_size in Hp0; simpl in Hp0; lia).
  destruct (raw_new _ _ (ca_mean a) h) as [[mb h1]|x|] eqn:Hmb; [| by auto |].
  2: { unfold raw_new, cuda_check in Hmb. by destruct (0 <? _), (ca_mean a). }
  pose proof (raw_new_destroy _ _ _ _ _ _ Hmb Hfm) as Hd1.
  pose proof (raw_new_fresh _ _ _ _ _ _ (ca_stddev a) Hmb Hfd Hne) as Hf1.
  destruct (raw_new _ _ (ca_stddev a) h1) as [[sb h2]|x|] eqn:Hsb; [| by auto |].
  2: { unfold raw_new, cuda_check in Hsb. by destruct (0 <? _), (ca_stddev a). }
  pose proof (raw_new_destroy _ _ _ _ _ _ Hsb Hf1) as Hd2.
  destruct (check_options o) as [u|x|] eqn:Hck; simpl; [| by rewrite Hd2; auto | by apply check_options_safe in Hck].
  destruct (check_options_Ret o u Hck) as (Hm & Hl & Hz).
  destruct (ca_upload_mean a); simpl; [| by rewrite Hd2; auto].
  destruct (ca_upload_stddev a); simpl; [| by rewrite Hd2; auto].
  split_and!; try done. split; simpl; [apply new_pool_inv | done | by rewrite Hp2 | done | done].
Qed.

(** ** Witnesses: three channels of one element on a runtime that always succeeds *)

(** The allocator hands out the pointer after the largest one in use. *)
Definition top_ptr (h : CudaHeap) : positive := map_fold (λ p _ q, Pos.max p q) 1%positive h.

Lemma top_ptr_max h p v : h !! p = Some v → (p ≤ top_ptr h)%positive.
Proof.
  unfold top_ptr. revert p v.
  apply (map_fold_weak_ind (λ q (h : CudaHeap), ∀ p v, h !! p = Some v → (p ≤ q)%positive)).
  - intros p v Hp. by rewrite lookup_empty in Hp.
  - intros i x m r _ IH p v Hp. destruct (decide (p = i)) as [->|Hne]; [lia |].
    rewrite lookup_insert_ne in Hp by done. apply IH in Hp. lia.
Qed.

Definition demo_runtime (launch_status : unit + string) : cuda_runtime :=
  {| rt_malloc := λ h _, inl (Pos.succ (top_ptr h));
     rt_status := λ _ call, match call with CallLaunch => launch_status | _ => inl tt end;
     rt_progress := λ _ _, 0%nat; rt_order := λ _ ts, concat ts; rt_junk := λ _ _, f32_zero |}.

#[export] Instance demo_runtime_ok st : RuntimeOk (demo_runtime st).
Proof.
  split.
  - intros h k ptr Hm. simpl in Hm. simplify_eq. destruct (h !! _) as [v|] eqn:Hl; [| done].
    apply top_ptr_max in Hl. lia.
  - intros n ts. apply interleaves_sequential.
Qed.

Definition demo_options : CudaOptions :=
  {| opt_mean := [f32_lit 1 1; f32_lit 2 1; f32_lit 3 1]; opt_stddev := [f32_lit 2 1; f32_lit 2 1; f32_lit 2 1];
     opt_device_id := 0; opt_stream_count := 2 |}.

Definition demo_answers : ctor_answers :=
  {| ca_set_device := inl tt; ca_create := λ i, inl (Pos.of_succ_nat i); ca_mean := inl 1%positive;
     ca_stddev := inl 2%positive; ca_upload_mean := inl tt; ca_upload_stddev := inl tt |}.

Definition demo_engine : CudaExecutionEngine :=
  {| ce_options := demo_options; ce_pool := new_MemoryPool 0; ce_heap := ∅;
     ce_streams := {| streams_ := [1%positive; 2%positive]; stream_device_id_ := 0; cursor_ := 0 |};
     ce_mean := opt_mean demo_options; ce_stddev := opt_stddev demo_options; ce_mem := ∅;
     ce_pending := ∅; ce_calls := 0 |}.

Lemma demo_engine_good : cuda_good (opt_mean demo_options) (opt_stddev demo_options) demo_engine.
Proof. split; simpl; [apply new_pool_inv | done | done | done | done]. Qed.

Lemma cuda_engine_meets_contract_witness :
  EngineContract CudaExecutionEngine (H := cuda_IExecutionEngine (demo_runtime (inl tt)))
    (cuda_good (opt_mean demo_options) (opt_stddev demo_options)) 8 3 2
    (cuda_row (opt_mean demo_options) (opt_stddev demo_options) 3 1 2) (λ _, ¬ healthy (demo_runtime (inl tt))) ∧
  healthy (demo_runtime (inl tt)).
Proof.
  split; [| split; [by intros n [] |]; intros h k; by eexists].
  refine (cuda_engine_meets_contract (demo_runtime (inl tt)) _ (opt_mean demo_options)
    (opt_stddev demo_options) 3 1 8 2 _ _ _ _ _ _ _ _ _ _ _); try done; lia.
Defined.

Lemma cuda_engine_construction_witness :
  opt_mean demo_options ≠ [] ∧ length (opt_mean demo_options) = length (opt_stddev demo_options) ∧
  has_zero (opt_stddev demo_options) = false ∧
  cuda_good (opt_mean demo_options) (opt_stddev demo_options) demo_engine.
Proof.
  refine (cuda_engine_construction demo_options demo_answers ∅ ∅ ltac:(done) _).
  split_and!; [intros; set_solver | by intros ptr | by intros ptr | by intros ptr [= <-]].
Defined.

(** A failure while work is queued. When the launch is refused after the upload was
    queued, [run_inference] throws and its handles go back to the pool, while the upload
    is still queued on the stream: the staging and the device block are on the free lists,
    ready for the next caller, with an operation on them in flight. *)
Theorem late_failure_releases_in_flight (msg : string) :
  let '(e, o) := cuda_run_inference (demo_runtime (inr msg)) [f32_lit 1 1; f32_lit 2 1; f32_lit 3 1] 1 3 3
                   demo_engine in
  o = Throw (CudaError ("normalize_kernel launch: " +:+ msg)) ∧
  live_handles (stats_ (ce_pool e)) = 0 ∧
  queue_of e 1%positive = [OpCopy 2%positive 3%positive 3] ∧
  pinned_free_ (ce_pool e) !! 4096 = Some [2%positive] ∧
  device_free_ (ce_pool e) !! 4096 = Some [3%positive].
Proof. vm_compute. by repeat split. Qed.
