(* ===== verification/CudaThreads.v ===== *)
(** * Concurrent calls into one CUDA engine

    [CudaExecutionEngine::run_inference] (src/cpp/src/engine/cuda_execution_engine.cpp) called
    by any number of threads on one engine, which the header
    (src/cpp/include/cuda_db/engine/cuda_execution_engine.hpp) declares safe. A call is cut at
    its accesses to shared state: the locked pool operations, the fetch-add of the stream
    cursor, each queued operation, the synchronization and the host copies. The calls and
    the device interleave freely; a stream's queue records which call issued an operation.
    Each step may meet a runtime of its own, and each call has its own sizes.

    The definitions cover every failure; the theorems are about runtimes that refuse no
    launch, download or synchronization, the calls made while operations are queued.
    [late_failure_breaks_isolation] shows what is lost otherwise. *)

From Stdlib Require Import ZArith Lia.
From stdpp Require Import base numbers strings relations gmap list.
From S2P Require Import Prelude Machine Engine MemoryPool Buffers StreamPool Normalize CudaEngine.

(** ** State *)

(** The arguments of a call. *)
Record tcall := {
  tc_input : list float;
  tc_batch_size : Z;
  tc_input_elems : Z;
  tc_output_elems : Z
}.

(** Where a call is, with its live locals. *)
Inductive tpc :=
  | AcquireStaging
  | AcquireDevice (staging : PooledBuffer)
  | CopyIn (staging device : PooledBuffer)
  | NextStream (staging device : PooledBuffer)
  (* [k] of the three operations issued; after the third, synchronizing *)
  | Issue (staging device : PooledBuffer) (stream : positive) (k : nat)
  | CopyOut (staging device : PooledBuffer)
  (* leaving the scope with a result or an exception *)
  | DropDevice (staging device : PooledBuffer) (o : outcome (list float))
  | DropStaging (staging : PooledBuffer) (o : outcome (list float))
  | Returned (o : outcome (list float)).

Record thread := { th_call : tcall; th_pc : tpc }.

(** Operations queued on each stream, with the call that issued them. *)
Abbreviation queues := (gmap positive (list (positive * dev_op))).

(** The engine (its own queues stay unused), the queues, the calls by number, and whether
    the device ever accessed memory out of range. *)
Record csys := {
  cs_engine : CudaExecutionEngine;
  cs_queues : queues;
  cs_calls : gmap positive thread;
  cs_fault : bool
}.

(** ** One call *)

(** The checks before any shared state is touched; [None]: go on. *)
Definition entry (channel_count : Z) (call : tcall) : option (outcome (list float)) :=
  if negb (vec_size (tc_input call) =? u64_mul (tc_batch_size call) (tc_input_elems call))
  then Some (Throw (InferenceError "batched input size does not match batch_size * input_elems"))
  else if tc_batch_size call =? 0 then Some (Ret [])
  else if (tc_input_elems call =? 0) || negb (tc_input_elems call mod channel_count =? 0)
  then Some (Throw (InferenceError "input_elems must be a non-zero multiple of the channel count"))
  else None.

(** An exception unwinds through both handles. *)
Definition unwind {A} (staging device : PooledBuffer) (o : outcome A) (go_on : A → tpc) : tpc :=
  match o with
  | Ret a => go_on a
  | Throw x => DropDevice staging device (Throw x)
  | Undefined => Returned Undefined
  end.

Definition push_op (tid stream : positive) (op : dev_op) (q : queues) : queues :=
  <[stream := default [] (q !! stream) ++ [(tid, op)]]> q.

(** No operation of call [tid] is left on the stream. *)
Definition drained (tid stream : positive) (q : queues) : bool :=
  forallb (λ x, negb (bool_decide (x.1 = tid))) (default [] (q !! stream)).

Section Step.
Variable rt : cuda_runtime.

(** Issuing operation [k] of the round trip. *)
Definition issue (tid : positive) (call : tcall) (e : CudaExecutionEngine) (q : queues)
    (staging device : PooledBuffer) (sp dp stream : positive) (k : nat) : option (queues * tpc) :=
  let n := vec_size (tc_input call) in
  let c := channels e in
  match k with
  | 0%nat =>
      match cuda_check "cudaMemcpyAsync (H2D)" (rt_status rt (ce_calls e) CallH2D) with
      | Ret _ => Some (push_op tid stream (OpCopy sp dp n) q, Issue staging device stream 1)
      | o => Some (q, unwind staging device o (λ _, Returned Undefined))
      end
  | 1%nat =>
      match launch_normalize true (i32 (tc_batch_size call)) (i32 c) (i32 (tc_input_elems call / c))
              (rt_status rt (ce_calls e) CallLaunch) with
      | Ret (Some l) => Some (push_op tid stream (OpNormalize dp l) q, Issue staging device stream 2)
      | Ret None => Some (q, Issue staging device stream 2)
      | o => Some (q, unwind staging device o (λ _, Returned Undefined))
      end
  | 2%nat =>
      match cuda_check "cudaMemcpyAsync (D2H)" (rt_status rt (ce_calls e) CallD2H) with
      | Ret _ => Some (push_op tid stream (OpCopy dp sp n) q, Issue staging device stream 3)
      | o => Some (q, unwind staging device o (λ _, Returned Undefined))
      end
  | _ =>
      match cuda_check "cudaStreamSynchronize" (rt_status rt (ce_calls e) CallSync) with
      | Ret _ => if drained tid stream q then Some (q, CopyOut staging device) else None
      | o => Some (q, unwind staging device o (λ _, Returned Undefined))
      end
  end.

(** The rest of the body once the stream is synchronized. *)
Definition copy_out (call : tcall) (normalized : list float) : outcome (list float) :=
  batched_output ← vec_fill (u64_mul (tc_batch_size call) (tc_output_elems call)) f32_zero;
  copy_rows normalized (tc_batch_size call) (tc_input_elems call) (tc_output_elems call) batched_output.

(** The next step of a call; [None]: returned, or waiting for the device. *)
Definition thread_step (tid : positive) (call : tcall) (pc : tpc) (e : CudaExecutionEngine) (q : queues) :
  option (CudaExecutionEngine * queues * tpc) :=
  let bytes := u64_mul (vec_size (tc_input call)) 4 in
  match pc with
  | AcquireStaging =>
      let '(e', o) := acquire_buffer rt true bytes e in
      Some (e', q, match o with Ret b => AcquireDevice b | Throw x => Returned (Throw x) | Undefined => Returned Undefined end)
  | AcquireDevice staging =>
      let '(e', o) := acquire_buffer rt false bytes e in
      Some (e', q, match o with
                   | Ret b => CopyIn staging b
                   | Throw x => DropStaging staging (Throw x)
                   | Undefined => Returned Undefined
                   end)
  | CopyIn staging device =>
      match ptr_ staging with
      | Some sp =>
          let '(e', o) := host_write sp (tc_input call) e in
          Some (e', q, unwind staging device o (λ _, NextStream staging device))
      | None => Some (e, q, Returned Undefined)
      end
  | NextStream staging device =>
      let '(e', o) := next_stream e in
      Some (e', q, unwind staging device o (λ stream, Issue staging device stream 0))
  | Issue staging device stream k =>
      match ptr_ staging, ptr_ device with
      | Some sp, Some dp => (λ r, (e, r.1, r.2)) <$> issue tid call e q staging device sp dp stream k
      | _, _ => Some (e, q, Returned Undefined)
      end
  | CopyOut staging device =>
      match ptr_ staging with
      | Some sp =>
          let o := normalized ← (host_read sp e).2; copy_out call normalized in
          Some (e, q, match o with Undefined => Returned Undefined | _ => DropDevice staging device o end)
      | None => Some (e, q, Returned Undefined)
      end
  | DropDevice staging device o =>
      Some (with_pool (buffer_release device (ce_pool e)).2 (ce_heap e) (ce_mem e) e, q, DropStaging staging o)
  | DropStaging staging o =>
      Some (with_pool (buffer_release staging (ce_pool e)).2 (ce_heap e) (ce_mem e) e, q, Returned o)
  | Returned _ => None
  end.
End Step.

(** ** The system *)

Section System.
Context (runtimes : cuda_runtime → Prop) (calls : tcall → Prop).

(** A call or the device makes a step. *)
Inductive cprogress : csys → csys → Prop :=
  | c_run s rt tid t e q pc :
      runtimes rt → cs_calls s !! tid = Some t →
      thread_step rt tid (th_call t) (th_pc t) (cs_engine s) (cs_queues s) = Some (e, q, pc) →
      cprogress s {| cs_engine := e; cs_queues := q;
                     cs_calls := <[tid := {| th_call := th_call t; th_pc := pc |}]> (cs_calls s);
                     cs_fault := cs_fault s |}
  | c_device s rt stream tid op rest :
      runtimes rt → cs_queues s !! stream = Some ((tid, op) :: rest) →
      cprogress s (match exec_op rt (ce_mean (cs_engine s)) (ce_stddev (cs_engine s)) (ce_calls (cs_engine s))
                           (ce_mem (cs_engine s)) op with
                   | Ret m => {| cs_engine := with_mem m (ce_pending (cs_engine s)) (cs_engine s);
                                 cs_queues := <[stream := rest]> (cs_queues s);
                                 cs_calls := cs_calls s; cs_fault := cs_fault s |}
                   | _ => {| cs_engine := cs_engine s; cs_queues := cs_queues s; cs_calls := cs_calls s;
                             cs_fault := true |}
                   end).

(** New calls arrive at any time; [calls]: which ones among those that pass the entry checks. *)
Inductive cstep : csys → csys → Prop :=
  | c_call s tid call :
      cs_calls s !! tid = None → (entry (channels (cs_engine s)) call = None → calls call) →
      cstep s {| cs_engine := next_call (cs_engine s); cs_queues := cs_queues s;
                 cs_calls := <[tid := {| th_call := call;
                                         th_pc := match entry (channels (cs_engine s)) call with
                                                  | Some o => Returned o
                                                  | None => AcquireStaging
                                                  end |}]> (cs_calls s);
                 cs_fault := cs_fault s |}
  | c_progress s s' : cprogress s s' → cstep s s'.

(** Starting from an engine between calls. *)
Definition creachable (good : CudaExecutionEngine → Prop) : csys → Prop :=
  reachable (λ s, ∃ e, good e ∧ s = {| cs_engine := e; cs_queues := ∅; cs_calls := ∅; cs_fault := false |}) cstep.
End System.

(** ** Queues by call *)

Definition own (q : queues) (tid stream : positive) : list dev_op :=
  snd <$> filter (λ x, x.1 = tid) (default [] (q !! stream)).

Lemma own_push tid stream op q tid' stream' :
  own (push_op tid stream op q) tid' stream' =
    own q tid' stream' ++ (if decide (tid' = tid ∧ stream' = stream) then [op] else []).
Proof.
  unfold own, push_op. destruct (decide (stream' = stream)) as [->|Hs].
  - rewrite lookup_insert_eq. simpl. rewrite filter_app, fmap_app. f_equal.
    destruct (decide (tid' = tid)) as [->|Ht].
    + rewrite filter_cons_True, decide_True by done. done.
    + rewrite filter_cons_False, decide_False by (simpl; intuition congruence). done.
  - rewrite lookup_insert_ne, decide_False by (simpl; intuition congruence). by rewrite app_nil_r.
Qed.

Lemma own_pop q stream tid op rest tid' stream' :
  q !! stream = Some ((tid, op) :: rest) →
  own q tid' stream' = (if decide (tid' = tid ∧ stream' = stream) then [op] else []) ++
                       own (<[stream := rest]> q) tid' stream'.
Proof.
  intros Hq. unfold own. destruct (decide (stream' = stream)) as [->|Hs].
  - rewrite lookup_insert_eq, Hq. simpl. destruct (decide (tid' = tid)) as [->|Ht].
    + rewrite filter_cons_True, decide_True by done. done.
    + rewrite filter_cons_False, decide_False by (simpl; intuition congruence). done.
  - rewrite lookup_insert_ne, decide_False by (simpl; intuition congruence). done.
Qed.

Lemma drained_own tid stream q : drained tid stream q = true → own q tid stream = [].
Proof.
  unfold drained, own. generalize (default [] (q !! stream)) as l. intros l.
  induction l as [|x l IH]; simpl; [done |]. rewrite andb_true_iff, negb_true_iff, bool_decide_eq_false.
  intros [Hx Hl]. rewrite filter_cons_False by done. by apply IH.
Qed.

Lemma own_not_drained tid stream q :
  drained tid stream q = false → ∃ x rest, q !! stream = Some (x :: rest).
Proof.
  unfold drained. destruct (q !! stream) as [[|x rest]|]; simpl; [done | by eexists _, _ | done].
Qed.

(** ** The round trip, operation by operation *)

Definition round_ops (sp dp : positive) (n : Z) (l : launch) : list dev_op :=
  [OpCopy sp dp n; OpNormalize dp l; OpCopy dp sp n].

Definition staging_of (pc : tpc) : option PooledBuffer :=
  match pc with
  | AcquireDevice b | CopyIn b _ | NextStream b _ | Issue b _ _ _ | CopyOut b _ | DropDevice b _ _
  | DropStaging b _ => Some b
  | _ => None
  end.

Definition device_of (pc : tpc) : option PooledBuffer :=
  match pc with
  | CopyIn _ b | NextStream _ b | Issue _ b _ _ | CopyOut _ b | DropDevice _ b _ => Some b
  | _ => None
  end.

(** *** One call *)

Section Call.
Context (runtimes : cuda_runtime → Prop).
Context (mean stddev : list float) (c hw : nat) (max_rows oe : Z).
Hypothesis (Hrt : ∀ rt, runtimes rt → RuntimeOk rt ∧
  ∀ n, rt_status rt n CallLaunch = inl tt ∧ rt_status rt n CallD2H = inl tt ∧ rt_status rt n CallSync = inl tt).
Hypotheses (Hc : (0 < c)%nat) (Hhw : (0 < hw)%nat)
  (Hc31 : Z.of_nat c < two31) (Hhw31 : Z.of_nat hw < two31) (Hn31 : max_rows < two31)
  (Hmean : length mean = c) (Hstd : length stddev = c) (Hoe : 0 ≤ oe)
  (Hin : max_rows * (Z.of_nat c * Z.of_nat hw) ≤ vec_max_size)
  (Hout : max_rows * oe ≤ vec_max_size).

Abbreviation ie := (Z.of_nat c * Z.of_nat hw).
Abbreviation normed rows := (concat (norm_row mean stddev c hw <$> rows)).

(** The call carries the batch [rows]. *)
Definition carries (call : tcall) (rows : list (list float)) : Prop :=
  tc_input call = concat rows ∧ tc_batch_size call = vec_size rows ∧ tc_input_elems call = ie ∧
  tc_output_elems call = oe ∧ rows ≠ [] ∧ vec_size rows ≤ max_rows ∧ Forall (λ r, vec_size r = ie) rows.

(** After [j] of the three operations. *)
Definition stage (j : nat) (sp dp : positive) (rows : list (list float)) (m : gmap positive (list float)) : Prop :=
  (∃ ms, m !! sp = Some ((if decide (j < 3)%nat then concat rows else normed rows) ++ ms)) ∧
  ∃ md, m !! dp = Some md ∧ vec_size (concat rows) ≤ vec_size md ∧
    (j = 1%nat → ∃ tail, md = concat rows ++ tail) ∧ (2 ≤ j → ∃ tail, md = normed rows ++ tail)%nat.

Lemma normed_size rows : vec_size (normed rows) = vec_size (concat rows).
Proof.
  unfold vec_size. f_equal. induction rows as [|r rows IH]; csimpl; [done |].
  rewrite !length_app, IH. unfold norm_row. by rewrite length_imap.
Qed.

Lemma batch_fits {A} (rows : list A) : vec_size rows ≤ max_rows → vec_size rows * ie ≤ vec_max_size.
Proof. intros Hmax. etrans; [apply Z.mul_le_mono_nonneg_r; [lia | exact Hmax] | exact Hin]. Qed.

Lemma stage_frame j sp dp rows m m' :
  stage j sp dp rows m → m' !! sp = m !! sp → m' !! dp = m !! dp → stage j sp dp rows m'.
Proof. unfold stage. by intros ? -> ->. Qed.

(** Block sizes are kept. *)
Definition sizes_kept (m m' : gmap positive (list float)) : Prop :=
  ∀ p l, m !! p = Some l → ∃ l', m' !! p = Some l' ∧ vec_size l' = vec_size l.

Lemma sizes_kept_insert (m : gmap positive (list float)) p l l' :
  m !! p = Some l → vec_size l' = vec_size l → sizes_kept m (<[p := l']> m).
Proof.
  intros Hp Hs p' l1 H1. destruct (decide (p' = p)) as [->|Hne].
  - rewrite lookup_insert_eq. simplify_eq. eauto.
  - rewrite lookup_insert_ne by done. eauto.
Qed.

Lemma mem_ok_sizes h m m' : mem_ok h m → sizes_kept m m' → mem_ok h m'.
Proof.
  intros Hm Hs p cap k Hp. destruct (Hm p cap k Hp) as (l & Hl & Hsz). destruct (Hs p l Hl) as (l' & Hl' & Hsz').
  exists l'. split; [done | congruence].
Qed.

(** Executing operation [j] leads from stage [j] to the next, touching only the call's blocks. *)
Lemma stage_exec rt n j sp dp rows l m op :
  runtimes rt → sp ≠ dp → rows ≠ [] → vec_size rows ≤ max_rows → Forall (λ r, vec_size r = ie) rows →
  launch_normalize true (vec_size rows) (Z.of_nat c) (Z.of_nat hw) (inl tt) = Ret (Some l) →
  round_ops sp dp (vec_size (concat rows)) l !! j = Some op → stage j sp dp rows m →
  ∃ m', exec_op rt mean stddev n m op = Ret m' ∧ stage (S j) sp dp rows m' ∧ sizes_kept m m' ∧
    ∀ p, p ≠ sp → p ≠ dp → m' !! p = m !! p.
Proof.
  intros Hr Hne Hrn Hmax Hsz Hl Hop [[ms Hsp] (md & Hdp & Hfit & H1 & H2)]. destruct (Hrt rt Hr) as [HR _].
  destruct j as [|[|[|j]]]; simpl in Hop; simplify_eq; [| |]; rewrite decide_True in Hsp by lia.
  - eexists. split; [by apply (copy_op rt _ _ _ _ _ _ _ ms) |]. split_and!.
    + split; [exists ms; rewrite lookup_insert_ne by done; by rewrite decide_True by lia |].
      eexists. rewrite lookup_insert_eq. split_and!; [done | rewrite vec_size_app; pose proof (vec_size_nonneg (drop (length (concat rows)) md)); lia | eauto | lia].
    + eapply sizes_kept_insert; [done |]. unfold vec_size in *. rewrite length_app, length_drop. lia.
    + intros p _ Hp. by rewrite lookup_insert_ne.
  - destruct (H1 eq_refl) as [tail ->].
    destruct (launched_rows rows tail mean stddev c hw) as (l' & ts & Hl' & Hts & Hk); try done.
    { eapply Forall_impl; [exact Hsz |]. intros r. unfold vec_size. lia. }
    { pose proof (batch_fits rows Hmax). rewrite <- Z.mul_assoc.
      unfold max_stride, kBlockSize, kMaxBlocks, vec_max_size in *. lia. }
    rewrite Hl in Hl'. injection Hl' as <-.
    eexists. split; [simpl; rewrite Hdp, Hts; simpl; rewrite Hk by apply order_interleaves; reflexivity |]. split_and!.
    + split; [exists ms; rewrite lookup_insert_ne by done; by rewrite decide_True by lia |].
      eexists. rewrite lookup_insert_eq. split_and!; [done | rewrite vec_size_app, normed_size; pose proof (vec_size_nonneg tail); lia | lia | eauto].
    + eapply sizes_kept_insert; [done |]. by rewrite !vec_size_app, normed_size.
    + intros p _ Hp. by rewrite lookup_insert_ne.
  - destruct (H2 ltac:(lia)) as [tail ->]. rewrite <- normed_size.
    eexists. split; [eapply (copy_op rt _ _ _ _ _ _ _ tail); [done | done |] |]; 
      [rewrite vec_size_app, normed_size; pose proof (vec_size_nonneg ms); lia |]. split_and!.
    + split; [eexists; rewrite lookup_insert_eq; by rewrite decide_False by lia |].
      eexists. rewrite lookup_insert_ne by done. split_and!; [done | done | lia | eauto].
    + eapply sizes_kept_insert; [done |]. pose proof (normed_size rows) as Hns. unfold vec_size in *.
      rewrite !length_app, length_drop, length_app. lia.
    + intros p Hp _. by rewrite lookup_insert_ne.
Qed.
(** ** The invariant *)

Definition quiet (q : queues) (tid : positive) : Prop := ∀ stream, own q tid stream = [].

(** What a call may end with. *)
Definition result_ok (rows : list (list float)) (o : outcome (list float)) : Prop :=
  o = Ret (concat (cuda_row mean stddev c hw oe <$> rows)) ∨
  (∃ x, o = Throw x) ∧ ¬ ∀ rt, runtimes rt → healthy rt.

Definition holds (rows : list (list float)) (b : PooledBuffer) (p : positive) : Prop :=
  ptr_ b = Some p ∧ requested_ b = vec_size (concat rows) * 4.

Definition pc_inv (m : gmap positive (list float)) (q : queues) (tid : positive) (rows : list (list float))
    (pc : tpc) : Prop :=
  match pc with
  | AcquireStaging => quiet q tid
  | AcquireDevice staging => quiet q tid ∧ ∃ sp, holds rows staging sp
  | CopyIn staging device => quiet q tid ∧ ∃ sp dp, holds rows staging sp ∧ holds rows device dp
  | NextStream staging device =>
      quiet q tid ∧ ∃ sp dp, holds rows staging sp ∧ holds rows device dp ∧ stage 0 sp dp rows m
  | Issue staging device stream k =>
      ∃ sp dp l j, holds rows staging sp ∧ holds rows device dp ∧ (j ≤ k ≤ 3)%nat ∧
        launch_normalize true (vec_size rows) (Z.of_nat c) (Z.of_nat hw) (inl tt) = Ret (Some l) ∧
        (∀ stream', own q tid stream' =
           if decide (stream' = stream) then drop j (take k (round_ops sp dp (vec_size (concat rows)) l)) else []) ∧
        stage j sp dp rows m
  | CopyOut staging device =>
      quiet q tid ∧ ∃ sp dp, holds rows staging sp ∧ holds rows device dp ∧ stage 3 sp dp rows m
  | DropDevice _ _ o | DropStaging _ o | Returned o => quiet q tid ∧ result_ok rows o
  end.

(** A call is untouched by what others do to their blocks and queue entries. *)
Lemma pc_inv_frame m q m' q' tid rows pc :
  pc_inv m q tid rows pc → (∀ stream, own q' tid stream = own q tid stream) →
  (∀ b p, staging_of pc = Some b ∨ device_of pc = Some b → ptr_ b = Some p → m' !! p = m !! p) →
  pc_inv m' q' tid rows pc.
Proof.
  intros HI Hq Hm. assert (Hquiet : quiet q tid → quiet q' tid) by (intros H st; by rewrite Hq).
  destruct pc; simpl in *; try (destruct HI as [HI ?]); auto.
  - destruct H as (sp & dp & Hs & Hd & Hst). split; [auto |]. exists sp, dp. split_and!; try done.
    eapply stage_frame; [done | eapply Hm; [by left | apply Hs] | eapply Hm; [by right | apply Hd]].
  - destruct H as (dp & l & j & Hs & Hd & Hj & Hl & Hown & Hst). exists HI, dp, l, j. split_and!; try done; try apply Hj.
    + intros st. by rewrite Hq.
    + eapply stage_frame; [done | eapply Hm; [by left | apply Hs] | eapply Hm; [by right | apply Hd]].
  - destruct H as (sp & dp & Hs & Hd & Hst). split; [auto |]. exists sp, dp. split_and!; try done.
    eapply stage_frame; [done | eapply Hm; [by left | apply Hs] | eapply Hm; [by right | apply Hd]].
Qed.

(** *** One step of a call *)

(** What a step of call [tid] from [e], [q] with handles [objs] keeps and establishes. *)
Definition step_ok (tid : positive) (rows : list (list float)) (objs : objects) (e : CudaExecutionEngine)
    (q : queues) (e' : CudaExecutionEngine) (q' : queues) (pc' : tpc) : Prop :=
  (∃ objs', eng_inv mean stddev objs' e' ∧ objs' !! (tid~0)%positive = staging_of pc' ∧
     objs' !! (tid~1)%positive = device_of pc' ∧
     ∀ x, x ≠ (tid~0)%positive → x ≠ (tid~1)%positive → objs' !! x = objs !! x) ∧
  pc_inv (ce_mem e') q' tid rows pc' ∧
  (∀ tid' stream, tid' ≠ tid → own q' tid' stream = own q tid' stream) ∧
  (∀ x b p, x ≠ (tid~0)%positive → x ≠ (tid~1)%positive → objs !! x = Some b → ptr_ b = Some p →
     ce_mem e' !! p = ce_mem e !! p).

Lemma acquire_buffer_mem rt k bytes e e' o p v :
  acquire_buffer rt k bytes e = (e', o) → ce_heap e !! p = Some v → ce_mem e' !! p = ce_mem e !! p.
Proof.
  unfold acquire_buffer. destruct (acquire _ _ _ _ _ _) as [[[p1 h1] o1]|]; intros Ha Hp; [| congruence].
  injection Ha as <- <-. simpl. destruct o1 as [b|x|]; [| done | done]. destruct (ptr_ b) as [q|]; [| done].
  destruct (ce_heap e !! q) eqn:Hq; [done |]. apply lookup_insert_ne. congruence.
Qed.

Lemma handle_in_heap objs e x b p :
  eng_inv mean stddev objs e → objs !! x = Some b → ptr_ b = Some p → ∃ v, ce_heap e !! p = Some v.
Proof. intros HI Hx Hp. destruct (pool_inv_handle _ x b p (ei_pool _ _ _ _ HI) Hx Hp) as [Hh _]. simpl in Hh. eauto. Qed.

Lemma handles_distinct objs e x y bx by_ p p' :
  eng_inv mean stddev objs e → x ≠ y → objs !! x = Some bx → objs !! y = Some by_ →
  ptr_ bx = Some p → ptr_ by_ = Some p' → p ≠ p'.
Proof. intros HI. apply (pool_inv_distinct _ x y bx by_ p p' (ei_pool _ _ _ _ HI)). Qed.

(** The block behind a handle holds the batch. *)
Lemma handle_block objs e x b p rows :
  eng_inv mean stddev objs e → objs !! x = Some b → holds rows b p →
  ∃ l, ce_mem e !! p = Some l ∧ vec_size (concat rows) ≤ vec_size l.
Proof.
  intros HI Hx [Hp Hreq]. destruct (pool_inv_handle _ x b p (ei_pool _ _ _ _ HI) Hx Hp) as (Hh & Hcap & _). simpl in Hh.
  destruct (ei_mem _ _ _ _ HI _ _ _ Hh) as (l & Hl & Hsz). exists l. split; [done |]. rewrite Hsz.
  apply Z.div_le_lower_bound; lia.
Qed.

Lemma carries_bytes call rows :
  carries call rows → u64_mul (vec_size (tc_input call)) 4 = vec_size (concat rows) * 4 ∧
    0 ≤ vec_size (concat rows) * 4 ≤ two63.
Proof.
  intros (-> & _ & _ & _ & _ & Hmax & Hsz). pose proof (batch_fits rows Hmax) as Hfit.
  rewrite (vec_size_concat rows ie) by (lia || done). pose proof (vec_size_nonneg rows).
  unfold vec_max_size in *. rewrite u64_mul_small by lia. lia.
Qed.

Lemma not_healthy rt : runtimes rt → ¬ healthy rt → ¬ ∀ rt, runtimes rt → healthy rt.
Proof. intros Hr Hn Hall. auto. Qed.

(** Acquiring into object [x] of the call. *)
Lemma acquire_step rt k objs e x call rows :
  runtimes rt → eng_inv mean stddev objs e → objs !! x = None → carries call rows →
  ∃ e' o, acquire_buffer rt k (u64_mul (vec_size (tc_input call)) 4) e = (e', o) ∧
    (∀ y b p, objs !! y = Some b → ptr_ b = Some p → ce_mem e' !! p = ce_mem e !! p) ∧
    ((∃ b p, o = Ret b ∧ holds rows b p ∧ eng_inv mean stddev (<[x := b]> objs) e') ∨
     (∃ y, o = Throw y) ∧ eng_inv mean stddev objs e' ∧ ¬ ∀ rt, runtimes rt → healthy rt).
Proof.
  intros Hr HI Hx Hca. destruct (carries_bytes call rows Hca) as [Hb Hrange]. rewrite Hb.
  destruct (Hrt rt Hr) as [HR _]. pose proof (not_healthy rt Hr) as Hnh.
  destruct (acquire_buffer rt k (vec_size (concat rows) * 4) e) as [e' o] eqn:Ha. exists e', o. split; [done |]. split.
  { intros y b p Hy Hp. destruct (handle_in_heap _ _ _ _ _ HI Hy Hp) as [v Hv]. by eapply acquire_buffer_mem. }
  destruct (acquire_buffer_spec rt mean stddev e k _ objs x HI Hx Hrange)
    as [(b & ptr & p & h & m & Ha' & HI' & Hptr & Hreq)|(p & h & m & y & Ha' & HI' & Hn)]; rewrite Ha in Ha';
    injection Ha' as -> ->; [left | right; eauto].
  exists b, ptr. done.
Qed.
Lemma step_acquire_staging rt tid call rows objs e q e' q' pc' :
  runtimes rt → eng_inv mean stddev objs e → objs !! (tid~0)%positive = None → objs !! (tid~1)%positive = None →
  carries call rows → quiet q tid →
  thread_step rt tid call AcquireStaging e q = Some (e', q', pc') → step_ok tid rows objs e q e' q' pc'.
Proof.
  intros Hr HI H0 H1 Hca Hq Hst. unfold thread_step in Hst.
  destruct (acquire_step rt true objs e (tid~0)%positive call rows Hr HI H0 Hca) as (e1 & o & Ha & Hm & Ho).
  rewrite Ha in Hst. destruct Ho as [(b & p & -> & Hh & HI')|((y & ->) & HI' & Hn)]; simplify_eq.
  - split_and!; [| split; [done | eauto] | done | intros; by eapply Hm].
    exists (<[(tid~0)%positive := b]> objs). split_and!; [done | by rewrite lookup_insert_eq | |]; intros; by rewrite lookup_insert_ne.
  - split_and!; [exists objs; done | | done | intros; by eapply Hm]. split; [done | right; eauto].
Qed.

Lemma step_acquire_device rt tid call rows objs e q bs sp e' q' pc' :
  runtimes rt → eng_inv mean stddev objs e → objs !! (tid~0)%positive = Some bs → objs !! (tid~1)%positive = None →
  carries call rows → quiet q tid → holds rows bs sp →
  thread_step rt tid call (AcquireDevice bs) e q = Some (e', q', pc') → step_ok tid rows objs e q e' q' pc'.
Proof.
  intros Hr HI H0 H1 Hca Hq Hsp Hst. unfold thread_step in Hst.
  destruct (acquire_step rt false objs e (tid~1)%positive call rows Hr HI H1 Hca) as (e1 & o & Ha & Hm & Ho).
  rewrite Ha in Hst. destruct Ho as [(b & p & -> & Hh & HI')|((y & ->) & HI' & Hn)]; simplify_eq.
  - split_and!; [| split; [done | eauto] | done | intros; by eapply Hm].
    exists (<[(tid~1)%positive := b]> objs). split_and!; [done | | by rewrite lookup_insert_eq |]; intros; by rewrite lookup_insert_ne.
  - split_and!; [exists objs; done | | done | intros; by eapply Hm]. split; [done | right; eauto].
Qed.

(** Steps that keep the handles. *)
Lemma keep_objs tid rows objs e q e' q' pc' :
  eng_inv mean stddev objs e' → objs !! (tid~0)%positive = staging_of pc' →
  objs !! (tid~1)%positive = device_of pc' → pc_inv (ce_mem e') q' tid rows pc' →
  (∀ tid' stream, tid' ≠ tid → own q' tid' stream = own q tid' stream) →
  (∀ x b p, x ≠ (tid~0)%positive → x ≠ (tid~1)%positive → objs !! x = Some b → ptr_ b = Some p →
     ce_mem e' !! p = ce_mem e !! p) →
  step_ok tid rows objs e q e' q' pc'.
Proof. intros. split_and!; [exists objs | ..]; done. Qed.

Lemma step_copy_in rt tid call rows objs e q bs bd sp dp e' q' pc' :
  eng_inv mean stddev objs e → objs !! (tid~0)%positive = Some bs → objs !! (tid~1)%positive = Some bd →
  carries call rows → quiet q tid → holds rows bs sp → holds rows bd dp →
  thread_step rt tid call (CopyIn bs bd) e q = Some (e', q', pc') → step_ok tid rows objs e q e' q' pc'.
Proof.
  intros HI H0 H1 (Hinp & _) Hq Hsp Hdp Hst. unfold thread_step, host_write in Hst.
  destruct (handle_block _ _ _ _ _ _ HI H0 Hsp) as (ms & Hms & Hfs).
  destruct (handle_block _ _ _ _ _ _ HI H1 Hdp) as (md & Hmd & Hfd).
  assert (Hne : sp ≠ dp) by (eapply handles_distinct; [exact HI | | exact H0 | exact H1 | apply Hsp | apply Hdp]; done).
  rewrite (proj1 Hsp), Hms, Hinp, write_range_Ret in Hst by lia. simpl in Hst. simplify_eq.
  apply keep_objs; try done.
  - apply eng_inv_mem; [done | | apply HI]. eapply mem_ok_insert; [apply HI | exact Hms |].
    unfold vec_size in *. rewrite length_app, length_drop. lia.
  - split; [done |]. exists sp, dp. split_and!; try done. split; simpl.
    + rewrite lookup_insert_eq. by eexists.
    + exists md. rewrite lookup_insert_ne by done. split_and!; [done | done | done | lia].
  - intros x b p Hx0 _ Hx Hp. simpl. apply lookup_insert_ne.
    eapply (handles_distinct _ _ (tid~0)%positive x); [exact HI | done | exact H0 | exact Hx | apply Hsp | done].
Qed.

Lemma step_next_stream rt tid call rows objs e q bs bd sp dp e' q' pc' :
  eng_inv mean stddev objs e → objs !! (tid~0)%positive = Some bs → objs !! (tid~1)%positive = Some bd →
  carries call rows → quiet q tid → holds rows bs sp → holds rows bd dp → stage 0 sp dp rows (ce_mem e) →
  thread_step rt tid call (NextStream bs bd) e q = Some (e', q', pc') → step_ok tid rows objs e q e' q' pc'.
Proof.
  intros HI H0 H1 (_ & _ & _ & _ & Hrn & Hmax & Hsz) Hq Hsp Hdp Hstage Hst. unfold thread_step, next_stream in Hst.
  destruct (ei_streams _ _ _ _ HI) as [Hs1 Hs2]. destruct (next_spec _ Hs1 Hs2) as (stream & _ & Hret).
  destruct (next (ce_streams e)) as [st o] eqn:Hnext. simpl in Hret. subst o. simpl in Hst. simplify_eq.
  pose proof (eng_inv_next _ _ _ _ _ _ HI Hnext) as HI'. apply keep_objs; try done.
  destruct (launched_rows rows [] mean stddev c hw) as (l & ts & Hl & _); try done.
  { eapply Forall_impl; [exact Hsz |]. intros r. unfold vec_size. lia. }
  { pose proof (batch_fits rows Hmax). rewrite <- Z.mul_assoc.
    unfold max_stride, kBlockSize, kMaxBlocks, vec_max_size in *. lia. }
  exists sp, dp, l, 0%nat. split_and!; try done; try lia. intros stream'. rewrite Hq. by destruct (decide _).
Qed.

Lemma step_issue rt tid call rows objs e q bs bd sp dp stream k l j e' q' pc' :
  runtimes rt → eng_inv mean stddev objs e →
  objs !! (tid~0)%positive = Some bs → objs !! (tid~1)%positive = Some bd →
  carries call rows → holds rows bs sp → holds rows bd dp → (j ≤ k ≤ 3)%nat →
  launch_normalize true (vec_size rows) (Z.of_nat c) (Z.of_nat hw) (inl tt) = Ret (Some l) →
  (∀ stream', own q tid stream' =
     if decide (stream' = stream) then drop j (take k (round_ops sp dp (vec_size (concat rows)) l)) else []) →
  stage j sp dp rows (ce_mem e) →
  thread_step rt tid call (Issue bs bd stream k) e q = Some (e', q', pc') → step_ok tid rows objs e q e' q' pc'.
Proof.
  intros Hr HI H0 H1 (Hinp & Hn & Hie & Hoe' & Hrn & Hmax & Hsz) Hsp Hdp Hjk Hl Hown Hstage Hst.
  unfold thread_step in Hst. rewrite (proj1 Hsp), (proj1 Hdp) in Hst.
  destruct (Hrt rt Hr) as [_ Hlate]. destruct (Hlate (ce_calls e)) as (L1 & L2 & L3).
  assert (Hpush : ∀ op, take (S k) (round_ops sp dp (vec_size (concat rows)) l) =
      take k (round_ops sp dp (vec_size (concat rows)) l) ++ [op] → (k < 3)%nat →
      step_ok tid rows objs e q e (push_op tid stream op q) (Issue bs bd stream (S k))).
  { intros op Htake Hk. apply keep_objs; try done.
    - exists sp, dp, l, j. split_and!; try done; try lia. intros stream'. rewrite own_push, Hown.
      destruct (decide (stream' = stream)) as [->|Hne].
      + rewrite decide_True, Htake, drop_app_le by (done || (rewrite length_take; simpl; lia)). done.
      + by rewrite decide_False by intuition congruence.
    - intros tid' stream' Hne. rewrite own_push, decide_False by intuition congruence. by rewrite app_nil_r. }
  destruct k as [|[|[|[|k]]]]; [| | | | lia]; simpl in Hst.
  - destruct (rt_status rt (ce_calls e) CallH2D) as [u|msg] eqn:Hst1; simpl in Hst; simplify_eq.
    + rewrite Hinp. by apply Hpush; [| lia].
    + apply keep_objs; try done. split; [| right; split; [eauto |]].
      * intros stream'. rewrite Hown, firstn_O, drop_nil. by destruct (decide _).
      * apply (not_healthy rt Hr). intros [Hall _]. by rewrite Hall in Hst1.
  - assert (Hch : channels e = Z.of_nat c).
    { destruct (ei_consts _ _ _ _ HI) as (Hm & _). unfold channels. rewrite Hm. unfold vec_size. by rewrite Hmean. }
    pose proof (vec_size_nonneg rows).
    rewrite Hch, Hn, Hie, (Z.mul_comm (Z.of_nat c)), Z.div_mul, !i32_small, L1, Hl in Hst by lia.
    simpl in Hst. simplify_eq. by apply Hpush; [| lia].
  - rewrite L2 in Hst. simpl in Hst. simplify_eq. rewrite Hinp. by apply Hpush; [| lia].
  - rewrite L3 in Hst. simpl in Hst. destruct (drained tid stream q) eqn:Hd; [| done]. simpl in Hst. simplify_eq.
    apply drained_own in Hd. pose proof (Hown stream) as Hs. rewrite Hd, decide_True in Hs by done.
    symmetry in Hs. apply (f_equal length) in Hs. rewrite length_drop, length_take in Hs. simpl in Hs.
    assert (j = 3%nat) as -> by lia.
    apply keep_objs; try done. split; [| by exists sp, dp].
    intros stream'. rewrite Hown. by destruct (decide _).
Qed.
Lemma step_copy_out rt tid call rows objs e q bs bd sp dp e' q' pc' :
  eng_inv mean stddev objs e → objs !! (tid~0)%positive = Some bs → objs !! (tid~1)%positive = Some bd →
  carries call rows → quiet q tid → holds rows bs sp → holds rows bd dp → stage 3 sp dp rows (ce_mem e) →
  thread_step rt tid call (CopyOut bs bd) e q = Some (e', q', pc') → step_ok tid rows objs e q e' q' pc'.
Proof.
  intros HI H0 H1 (_ & Hn & Hie & Hoe' & Hrn & Hmax & Hsz) Hq Hsp Hdp [[ms Hms] _] Hst.
  rewrite decide_False in Hms by lia.
  assert (Hcopy : copy_out call (normed rows ++ ms) = Ret (concat (cuda_row mean stddev c hw oe <$> rows))).
  { unfold copy_out. rewrite Hn, Hie, Hoe'. pose proof (batch_fits rows Hmax) as Hvi. pose proof (vec_size_nonneg rows).
    assert (Hvo : vec_size rows * oe ≤ vec_max_size) by (etrans; [apply Z.mul_le_mono_nonneg_r; [lia | exact Hmax] | exact Hout]).
    unfold vec_max_size in *. unfold vec_fill. rewrite u64_mul_small by nia.
    rewrite (proj2 (Z.ltb_ge _ _)) by (unfold vec_max_size; lia). simpl.
    assert (Hnn : vec_size (norm_row mean stddev c hw <$> rows) = vec_size rows) by (unfold vec_size; by rewrite length_fmap).
    rewrite <- Hnn, copy_rows_spec; rewrite ?Hnn; try lia.
    - by rewrite <- list_fmap_compose.
    - apply Forall_fmap. eapply Forall_impl; [exact Hsz |]. intros r Hrs. simpl. unfold norm_row, vec_size in *.
      by rewrite length_imap. }
  unfold thread_step, host_read in Hst. rewrite (proj1 Hsp), Hms in Hst. simpl in Hst. rewrite Hcopy in Hst. simplify_eq.
  apply keep_objs; try done. split; [done | by left].
Qed.

Lemma step_drop rt tid call rows objs e q pc e' q' pc' :
  eng_inv mean stddev objs e → objs !! (tid~0)%positive = staging_of pc → objs !! (tid~1)%positive = device_of pc →
  pc_inv (ce_mem e) q tid rows pc → (∃ bs bd o, pc = DropDevice bs bd o) ∨ (∃ bs o, pc = DropStaging bs o) →
  thread_step rt tid call pc e q = Some (e', q', pc') → step_ok tid rows objs e q e' q' pc'.
Proof.
  intros HI H0 H1 Hpc [(bs & bd & o & ->)|(bs & o & ->)] Hst; simpl in *; simplify_eq.
  - split_and!; [| done | done | done]. exists (delete (tid~1)%positive objs).
    split_and!; [| by rewrite lookup_delete_ne | by rewrite lookup_delete_eq | by intros; rewrite lookup_delete_ne].
    apply (release_spec _ _ _ _ (tid~1)%positive); [by rewrite insert_delete_id | apply lookup_delete_eq].
  - split_and!; [| done | done | done]. exists (delete (tid~0)%positive objs).
    split_and!; [| by rewrite lookup_delete_eq | by rewrite lookup_delete_ne | by intros; rewrite lookup_delete_ne].
    apply (release_spec _ _ _ _ (tid~0)%positive); [by rewrite insert_delete_id | apply lookup_delete_eq].
Qed.

Lemma thread_step_inv rt tid call rows objs e q pc e' q' pc' :
  runtimes rt → eng_inv mean stddev objs e →
  objs !! (tid~0)%positive = staging_of pc → objs !! (tid~1)%positive = device_of pc →
  carries call rows → pc_inv (ce_mem e) q tid rows pc →
  thread_step rt tid call pc e q = Some (e', q', pc') → step_ok tid rows objs e q e' q' pc'.
Proof.
  intros Hr HI H0 H1 Hca Hpc Hst. destruct pc as [|bs|bs bd|bs bd|bs bd stream k|bs bd|bs bd o|bs o|o]; simpl in H0, H1.
  - by eapply step_acquire_staging.
  - destruct Hpc as [Hq [sp Hsp]]. by eapply step_acquire_device.
  - destruct Hpc as (Hq & sp & dp & Hsp & Hdp). by eapply step_copy_in.
  - destruct Hpc as (Hq & sp & dp & Hsp & Hdp & Hstage). by eapply step_next_stream.
  - destruct Hpc as (sp & dp & l & j & Hsp & Hdp & Hjk & Hl & Hown & Hstage). by eapply step_issue.
  - destruct Hpc as (Hq & sp & dp & Hsp & Hdp & Hstage). by eapply step_copy_out.
  - refine (step_drop rt tid call rows objs e q (DropDevice bs bd o) e' q' pc' HI H0 H1 Hpc _ Hst); eauto.
  - refine (step_drop rt tid call rows objs e q (DropStaging bs o) e' q' pc' HI H0 H1 Hpc _ Hst); eauto.
  - done.
Qed.

End Call.

(** *** All calls *)

Lemma split_rows {A} (n k : nat) (l : list A) :
  length l = (n * k)%nat → ∃ rows, l = concat rows ∧ length rows = n ∧ Forall (λ r, length r = k) rows.
Proof.
  revert l. induction n as [|n IH]; intros l Hl; [exists []; by destruct l |].
  destruct (IH (drop k l)) as (rows & Hd & Hn & Hall); [rewrite length_drop; lia |].
  exists (take k l :: rows). simpl. rewrite <- Hd, take_drop. split; [done |]. split; [by rewrite Hn |].
  constructor; [rewrite length_take; lia | done].
Qed.

Section Concurrent.
Context (runtimes : cuda_runtime → Prop) (mean stddev : list float) (c : nat).
Hypothesis (Hrt : ∀ rt, runtimes rt → RuntimeOk rt ∧
  ∀ n, rt_status rt n CallLaunch = inl tt ∧ rt_status rt n CallD2H = inl tt ∧ rt_status rt n CallSync = inl tt).
Hypotheses (Hc : (0 < c)%nat) (Hc31 : Z.of_nat c < two31) (Hmean : length mean = c) (Hstd : length stddev = c).

(** A geometry whose sizes and products stay in range. *)
Record fits (hw : nat) (rows oe : Z) : Prop := {
  ft_pixels : (0 < hw)%nat;
  ft_pixels31 : Z.of_nat hw < two31;
  ft_rows : rows < two31;
  ft_output : 0 ≤ oe;
  ft_input : rows * (Z.of_nat c * Z.of_nat hw) ≤ vec_max_size;
  ft_result : rows * oe ≤ vec_max_size
}.

(** The calls considered: any geometry and batch size, as long as the sizes and products of
    the call are in the range of the types the code computes them in. *)
Definition sized (call : tcall) : Prop :=
  0 ≤ tc_batch_size call < two31 ∧ 0 ≤ tc_input_elems call ∧ tc_input_elems call < two31 * Z.of_nat c ∧
  0 ≤ tc_output_elems call ∧ tc_batch_size call * tc_input_elems call ≤ vec_max_size ∧
  tc_batch_size call * tc_output_elems call ≤ vec_max_size.

(** Past the entry checks such a call carries a batch of its own geometry. *)
Lemma sized_carries call :
  entry (Z.of_nat c) call = None → sized call →
  ∃ hw rows, fits hw (vec_size rows) (tc_output_elems call) ∧
    carries c hw (vec_size rows) (tc_output_elems call) call rows.
Proof.
  intros He (Hb & Hi & Hi31 & Ho & Hbi & Hbo). unfold entry in He.
  destruct (Z.eqb_spec (vec_size (tc_input call)) (u64_mul (tc_batch_size call) (tc_input_elems call))) as [Hin|]; [simpl in He | done].
  destruct (Z.eqb_spec (tc_batch_size call) 0) as [|Hb0]; [done |].
  destruct (Z.eqb_spec (tc_input_elems call) 0) as [|Hi0]; [done | simpl in He].
  destruct (Z.eqb_spec (tc_input_elems call mod Z.of_nat c) 0) as [Hmod|]; [| done].
  rewrite u64_mul_small in Hin by (unfold vec_max_size in *; nia).
  apply Z.mod_divide in Hmod as [q Hq]; [| lia]. assert (0 < q < two31) by nia.
  assert (Hie : tc_input_elems call = Z.of_nat c * Z.of_nat (Z.to_nat q)) by lia.
  destruct (split_rows (Z.to_nat (tc_batch_size call)) (Z.to_nat (tc_input_elems call)) (tc_input call)) as (rows & Hcat & Hlen & Hall).
  { unfold vec_size in Hin. nia. }
  assert (Hrows : vec_size rows = tc_batch_size call) by (unfold vec_size; lia).
  exists (Z.to_nat q), rows. rewrite Hrows. split; [split; lia || nia |]. split_and!; try done.
  - intros ->. simpl in Hlen. lia.
  - by rewrite Hrows.
  - eapply Forall_impl; [exact Hall |]. intros r Hr. unfold vec_size. simpl in Hr. lia.
Qed.

Definition thread_inv (s : csys) (tid : positive) (t : thread) : Prop :=
  quiet (cs_queues s) tid ∧ th_pc t = Returned (default Undefined (entry (Z.of_nat c) (th_call t))) ∧
    entry (Z.of_nat c) (th_call t) ≠ None ∨
  ∃ hw oe rows, fits hw (vec_size rows) oe ∧ carries c hw (vec_size rows) oe (th_call t) rows ∧
    pc_inv runtimes mean stddev c hw oe (ce_mem (cs_engine s)) (cs_queues s) tid rows (th_pc t).

(** The handles alive are exactly the locals of the calls in progress. *)
Definition locals (calls : gmap positive thread) (objs : objects) : Prop :=
  objs !! 1%positive = None ∧
  ∀ tid, objs !! (tid~0)%positive = (calls !! tid ≫= λ t, staging_of (th_pc t)) ∧
         objs !! (tid~1)%positive = (calls !! tid ≫= λ t, device_of (th_pc t)).

Record cinv (s : csys) : Prop := {
  ci_fault : cs_fault s = false;
  ci_objs : ∃ objs, eng_inv mean stddev objs (cs_engine s) ∧ locals (cs_calls s) objs;
  ci_threads : ∀ tid t, cs_calls s !! tid = Some t → thread_inv s tid t;
  ci_foreign : ∀ tid, cs_calls s !! tid = None → quiet (cs_queues s) tid
}.
(** *** Preservation *)

Lemma run_preserves s rt tid t e q pc :
  cinv s → runtimes rt → cs_calls s !! tid = Some t →
  thread_step rt tid (th_call t) (th_pc t) (cs_engine s) (cs_queues s) = Some (e, q, pc) →
  cinv {| cs_engine := e; cs_queues := q; cs_calls := <[tid := {| th_call := th_call t; th_pc := pc |}]> (cs_calls s);
          cs_fault := cs_fault s |}.
Proof.
  intros [Hf (objs & HI & Hone & Hloc) Hth Hfor] Hr Ht Hst.
  destruct (Hth _ _ Ht) as [(_ & Hpc & _)|(hw & oe & rows & Hfit & Hca & Hpc)]; [by rewrite Hpc in Hst |].
  destruct (Hloc tid) as [H0 H1]. rewrite Ht in H0, H1. simpl in H0, H1.
  destruct Hfit as [F1 F2 F3 F4 F5 F6] eqn:Hfit'. clear Hfit'.
  destruct (thread_step_inv runtimes mean stddev c hw (vec_size rows) oe Hrt Hc F1 Hc31 F2 F3 Hmean Hstd F4 F5 F6
    rt tid _ rows objs _ _ _ _ _ _ Hr HI H0 H1 Hca Hpc Hst)
    as ((objs' & HI' & H0' & H1' & Hoth) & Hpc' & Hown & Hmem).
  split; simpl; [done | | |].
  - exists objs'. split; [done |]. split; [by rewrite Hoth |]. intros tid'. destruct (decide (tid' = tid)) as [->|Hne].
    + by rewrite lookup_insert_eq.
    + rewrite lookup_insert_ne, !Hoth by congruence. apply Hloc.
  - intros tid' t' Ht'. destruct (decide (tid' = tid)) as [->|Hne].
    + rewrite lookup_insert_eq in Ht'. simplify_eq. right. exists hw, oe, rows. split; [by constructor |]. done.
    + rewrite lookup_insert_ne in Ht' by done. destruct (Hth _ _ Ht') as [(Hq & Hp & He)|(hw' & oe' & rows' & Hfit' & Hca' & Hp)]; [left | right].
      * split_and!; [| done | done]. intros stream. simpl. by rewrite Hown.
      * exists hw', oe', rows'. split; [done |]. split; [done |]. eapply pc_inv_frame; [exact Hp | intros; by apply Hown |].
        destruct (Hloc tid') as [L0 L1]. rewrite Ht' in L0, L1. simpl in L0, L1.
        intros b p [Hb|Hb] Hbp; simpl; [apply (Hmem (tid'~0)%positive b) | apply (Hmem (tid'~1)%positive b)]; congruence.
  - intros tid' Ht'. destruct (decide (tid' = tid)) as [->|Hne]; [by rewrite lookup_insert_eq in Ht' |].
    rewrite lookup_insert_ne in Ht' by done. intros stream. rewrite Hown by done. by apply Hfor.
Qed.

(** The operation at the head of a queue is the next one of its call. *)
Lemma head_of_queue s stream tid op rest :
  cinv s → cs_queues s !! stream = Some ((tid, op) :: rest) →
  ∃ hw oe t rows bs bd k sp dp l j, cs_calls s !! tid = Some t ∧
    fits hw (vec_size rows) oe ∧ carries c hw (vec_size rows) oe (th_call t) rows ∧
    th_pc t = Issue bs bd stream k ∧ holds rows bs sp ∧ holds rows bd dp ∧ (j < k ≤ 3)%nat ∧
    launch_normalize true (vec_size rows) (Z.of_nat c) (Z.of_nat hw) (inl tt) = Ret (Some l) ∧
    round_ops sp dp (vec_size (concat rows)) l !! j = Some op ∧
    (∀ stream', own (<[stream := rest]> (cs_queues s)) tid stream' =
       if decide (stream' = stream) then drop (S j) (take k (round_ops sp dp (vec_size (concat rows)) l)) else []) ∧
    stage mean stddev c hw j sp dp rows (ce_mem (cs_engine s)).
Proof.
  intros [_ _ Hth Hfor] Hhd. pose proof (own_pop _ _ _ _ _ tid stream Hhd) as Hpop. rewrite decide_True in Hpop by done.
  assert (Hnq : ¬ quiet (cs_queues s) tid) by (intros Hq; by rewrite Hq in Hpop).
  destruct (cs_calls s !! tid) as [t|] eqn:Ht; [| by apply Hfor in Ht].
  destruct (Hth _ _ Ht) as [(Hq & _)|(hw & oe & rows & Hfit & Hca & Hpc)]; [done |].
  destruct (th_pc t) as [|bs|bs bd|bs bd|bs bd stream' k|bs bd|bs bd o|bs o|o] eqn:Hp;
    simpl in Hpc; try (by destruct Hpc as [Hq _]); [done |].
  destruct Hpc as (sp & dp & l & j & Hsp & Hdp & Hjk & Hl & Hown & Hstage).
  rewrite Hown in Hpop. destruct (decide (stream = stream')) as [<-|]; [| done].
  assert (Hj : (j < k)%nat).
  { destruct (decide (j < k)%nat); [done |]. rewrite drop_ge in Hpop; [done |]. rewrite length_take. simpl. lia. }
  assert (Hop : take k (round_ops sp dp (vec_size (concat rows)) l) !! j = Some op).
  { by rewrite <- (Nat.add_0_r j), <- lookup_drop, Hpop. }
  rewrite (drop_S _ op j Hop) in Hpop. injection Hpop as Hpop. rewrite lookup_take_lt in Hop by lia.
  exists hw, oe, t, rows, bs, bd, k, sp, dp, l, j. split_and!; try done; try lia.
  intros stream'. destruct (decide (stream' = stream)) as [->|Hne]; [done |].
  pose proof (own_pop _ _ _ _ _ tid stream' Hhd) as Hpop'. rewrite decide_False in Hpop' by intuition congruence.
  simpl in Hpop'. rewrite <- Hpop', Hown. by rewrite decide_False.
Qed.

Lemma device_preserves s rt stream tid op rest :
  cinv s → runtimes rt → cs_queues s !! stream = Some ((tid, op) :: rest) →
  ∃ m, exec_op rt (ce_mean (cs_engine s)) (ce_stddev (cs_engine s)) (ce_calls (cs_engine s))
         (ce_mem (cs_engine s)) op = Ret m ∧
    cinv {| cs_engine := with_mem m (ce_pending (cs_engine s)) (cs_engine s);
            cs_queues := <[stream := rest]> (cs_queues s); cs_calls := cs_calls s; cs_fault := cs_fault s |}.
Proof.
  intros Hinv Hr Hhd.
  destruct (head_of_queue s stream tid op rest Hinv Hhd)
    as (hw & oe & t & rows & bs & bd & k & sp & dp & l & j & Ht & Hfit & Hca & Hp & Hsp & Hdp & Hj & Hl & Hop & Hown & Hstage).
  destruct Hinv as [Hf (objs & HI & Hone & Hloc) Hth Hfor]. pose proof Hca as (_ & _ & _ & _ & Hrn & Hmax & Hsz).
  pose proof (Hloc tid) as [H0 H1]. rewrite Ht in H0, H1. simpl in H0, H1. rewrite Hp in H0, H1. simpl in H0, H1.
  assert (Hne : sp ≠ dp) by (eapply handles_distinct; [exact HI | | exact H0 | exact H1 | apply Hsp | apply Hdp]; done).
  destruct (ei_consts _ _ _ _ HI) as (_ & -> & ->).
  destruct Hfit as [F1 F2 F3 F4 F5 F6].
  destruct (stage_exec runtimes mean stddev c hw (vec_size rows) Hrt Hc F1 Hc31 Hmean Hstd F5
    rt (ce_calls (cs_engine s)) j sp dp rows l _ op Hr Hne Hrn Hmax Hsz Hl Hop Hstage)
    as (m & Hex & Hstage' & Hkept & Hframe).
  exists m. split; [done |]. split; simpl; [done | | |].
  - exists objs. split; [| done]. apply eng_inv_mem; [done | | apply HI]. eapply mem_ok_sizes; [apply HI | done].
  - intros tid' t' Ht'. destruct (decide (tid' = tid)) as [->|Htid].
    + rewrite Ht in Ht'. simplify_eq. right. exists hw, oe, rows. split; [by constructor |]. split; [done |]. rewrite Hp. simpl.
      exists sp, dp, l, (S j). split_and!; try done; lia.
    + assert (Hoth : ∀ stream', own (<[stream := rest]> (cs_queues s)) tid' stream' = own (cs_queues s) tid' stream').
      { intros stream'. rewrite (own_pop _ _ _ _ _ tid' stream' Hhd), decide_False by intuition congruence. done. }
      destruct (Hth _ _ Ht') as [(Hq & Hp' & He)|(hw' & oe' & rows' & Hfit' & Hca' & Hp')]; [left | right].
      * split_and!; [| done | done]. intros stream'. simpl. by rewrite Hoth.
      * exists hw', oe', rows'. split; [done |]. split; [done |]. eapply pc_inv_frame; [exact Hp' | exact Hoth |]. simpl.
        destruct (Hloc tid') as [L0 L1]. rewrite Ht' in L0, L1. simpl in L0, L1.
        assert (Hx : ∀ x b p, x ≠ (tid~0)%positive → x ≠ (tid~1)%positive → objs !! x = Some b → ptr_ b = Some p → m !! p = ce_mem (cs_engine s) !! p).
        { intros x b p Hx0 Hx1 Hx Hbp. apply Hframe; apply not_eq_sym.
          - eapply (handles_distinct _ _ _ _ (tid~0)%positive x); [exact HI | done | exact H0 | exact Hx | apply Hsp | done].
          - eapply (handles_distinct _ _ _ _ (tid~1)%positive x); [exact HI | done | exact H1 | exact Hx | apply Hdp | done]. }
        intros b p [Hb|Hb] Hbp; [apply (Hx (tid'~0)%positive b) | apply (Hx (tid'~1)%positive b)]; congruence.
  - intros tid' Ht'. assert (Htid : tid' ≠ tid) by congruence. intros stream'.
    pose proof (own_pop _ _ _ _ _ tid' stream' Hhd) as Hpop. rewrite decide_False in Hpop by intuition congruence.
    rewrite <- (Hfor tid' Ht' stream'), Hpop. done.
Qed.

Lemma call_preserves s tid call :
  cinv s → cs_calls s !! tid = None → (entry (channels (cs_engine s)) call = None → sized call) →
  cinv {| cs_engine := next_call (cs_engine s); cs_queues := cs_queues s;
          cs_calls := <[tid := {| th_call := call;
                                  th_pc := match entry (channels (cs_engine s)) call with
                                           | Some o => Returned o
                                           | None => AcquireStaging
                                           end |}]> (cs_calls s);
          cs_fault := cs_fault s |}.
Proof.
  intros [Hf (objs & HI & Hone & Hloc) Hth Hfor] Ht Hcall.
  assert (Hch : channels (cs_engine s) = Z.of_nat c).
  { destruct (ei_consts _ _ _ _ HI) as (Hm & _). unfold channels. rewrite Hm. unfold vec_size. by rewrite Hmean. }
  rewrite Hch in *. split; simpl; [done | | |].
  - exists objs. split; [by destruct HI |]. split; [done |]. intros tid'. destruct (decide (tid' = tid)) as [->|Hne].
    + rewrite lookup_insert_eq. destruct (Hloc tid) as [H0 H1]. rewrite Ht in H0, H1. rewrite H0, H1. simpl.
      by destruct (entry _ _).
    + rewrite lookup_insert_ne by done. apply Hloc.
  - intros tid' t' Ht'. destruct (decide (tid' = tid)) as [->|Hne].
    + rewrite lookup_insert_eq in Ht'. injection Ht' as <-. simpl. specialize (Hfor tid Ht).
      unfold thread_inv. simpl. destruct (entry (Z.of_nat c) call) as [o|] eqn:He; [left; done | right].
      destruct (sized_carries call He (Hcall eq_refl)) as (hw & rows & Hfit & Hca). by exists hw, (tc_output_elems call), rows.
    + rewrite lookup_insert_ne in Ht' by done. exact (Hth _ _ Ht').
  - intros tid' Ht'. apply Hfor. destruct (decide (tid' = tid)) as [->|Hne]; [done |]. by rewrite lookup_insert_ne in Ht'.
Qed.

Lemma progress_preserves s s' : cinv s → cprogress runtimes s s' → cinv s'.
Proof.
  intros HI Hs. destruct Hs as [s rt tid t e q pc Hr Ht Hst|s rt stream tid op rest Hr Hq].
  - by eapply run_preserves.
  - destruct (device_preserves s rt stream tid op rest HI Hr Hq) as (m & -> & HI'). exact HI'.
Qed.

Lemma cinv_reachable s :
  creachable runtimes sized (cuda_good mean stddev) s → cinv s.
Proof.
  revert s. apply invariant_reachable.
  - intros s (e & He & ->). split; simpl; [done | | by intros tid t; rewrite lookup_empty | done].
    exists ∅. split; [done |]. split; [done |]. intros tid. by rewrite !lookup_empty.
  - intros s s' HI Hs. destruct Hs as [s tid call Ht Hcall|s s' Hs]; [by apply call_preserves |].
    by apply (progress_preserves s).
Qed.

(** ** Quiescence and progress *)

Definition all_returned (s : csys) : Prop := ∀ tid t, cs_calls s !! tid = Some t → ∃ o, th_pc t = Returned o.

Lemma quiescent s :
  cinv s → all_returned s → (∀ stream, default [] (cs_queues s !! stream) = []) ∧ cuda_good mean stddev (cs_engine s).
Proof.
  intros HI Hret. split.
  - intros stream. destruct (cs_queues s !! stream) as [[|[tid op] rest]|] eqn:Hq; [done | | done].
    destruct (head_of_queue s stream tid op rest HI Hq) as (hw & oe & t & rows & bs & bd & k & sp & dp & l & j & Ht & _ & _ & Hp & _).
    destruct (Hret _ _ Ht) as [o Ho]. congruence.
  - destruct HI as [_ (objs & HI & Hone & Hloc) _ _]. replace objs with (∅ : objects) in HI; [done |].
    symmetry. apply map_empty. intros [tid|tid|]; [| | done].
    + rewrite (proj2 (Hloc tid)). destruct (cs_calls s !! tid) as [t|] eqn:Ht; [| done]. simpl.
      by destruct (Hret _ _ Ht) as [o ->].
    + rewrite (proj1 (Hloc tid)). destruct (cs_calls s !! tid) as [t|] eqn:Ht; [| done]. simpl.
      by destruct (Hret _ _ Ht) as [o ->].
Qed.

(** A call that has not returned can step, or waits for an operation the device can execute. *)
Lemma some_step s rt tid t :
  cinv s → runtimes rt → cs_calls s !! tid = Some t → (∀ o, th_pc t ≠ Returned o) → ∃ s', cprogress runtimes s s'.
Proof.
  intros HI Hr Ht Hpc.
  destruct (thread_step rt tid (th_call t) (th_pc t) (cs_engine s) (cs_queues s)) as [[[e q] pc]|] eqn:Hst.
  { eexists. by eapply c_run. }
  assert (Hw : ∃ stream x rest, cs_queues s !! stream = Some (x :: rest)).
  { destruct (ci_threads _ HI _ _ Ht) as [(_ & Hp & _)|(hw & oe & rows & _ & _ & Hp)]; [by rewrite Hp in Hpc; specialize (Hpc _ eq_refl) |].
    unfold thread_step in Hst. destruct (th_pc t) as [|bs|bs bd|bs bd|bs bd stream k|bs bd|bs bd o|bs o|o];
      repeat case_match; simplify_eq; try by specialize (Hpc _ eq_refl).
    exists stream. apply own_not_drained with tid. unfold issue in Hst.
    destruct (drained tid stream (cs_queues s)); [| done]. repeat case_match; simplify_eq. }
  destruct Hw as (stream & [tid' op] & rest & Hq). eexists. by eapply c_device.
Qed.
End Concurrent.

(** ** Work left *)

(** Sum of a measure over a map. *)
Definition total {A} (f : A → nat) (m : gmap positive A) : nat := map_fold (λ _ x n, f x + n)%nat 0%nat m.

Lemma total_insert_fresh {A} (f : A → nat) m i (x : A) : m !! i = None → total f (<[i := x]> m) = (f x + total f m)%nat.
Proof. intros Hi. unfold total. rewrite map_fold_insert_L; [done | intros; lia | done]. Qed.

Lemma total_insert {A} (f : A → nat) m i (x : A) :
  (total f (<[i := x]> m) + from_option f 0 (m !! i) = total f m + f x)%nat.
Proof.
  rewrite <- insert_delete_eq, total_insert_fresh by apply lookup_delete_eq.
  destruct (m !! i) as [y|] eqn:Hi; simpl.
  - rewrite <- (insert_delete_id m i y Hi) at 2. rewrite total_insert_fresh by apply lookup_delete_eq. lia.
  - rewrite delete_id by done. lia.
Qed.

(** Steps a call has left, counting two for an operation still to be issued. *)
Definition rank (pc : tpc) : nat :=
  match pc with
  | AcquireStaging => 14
  | AcquireDevice _ => 13
  | CopyIn _ _ => 12
  | NextStream _ _ => 11
  | Issue _ _ _ k => 4 + 2 * (3 - k)
  | CopyOut _ _ => 3
  | DropDevice _ _ _ => 2
  | DropStaging _ _ => 1
  | Returned _ => 0
  end.

Definition queued_ops (q : queues) : nat := total length q.
Definition work (s : csys) : nat := (total (λ t, rank (th_pc t)) (cs_calls s) + queued_ops (cs_queues s))%nat.

Lemma queued_push tid stream op q : queued_ops (push_op tid stream op q) = S (queued_ops q).
Proof.
  unfold queued_ops, push_op.
  pose proof (total_insert length q stream (default [] (q !! stream) ++ [(tid, op)])) as H.
  rewrite length_app in H. destruct (q !! stream); simpl in *; lia.
Qed.

Lemma thread_step_rank rt tid call pc e q e' q' pc' :
  thread_step rt tid call pc e q = Some (e', q', pc') → (rank pc' + queued_ops q' < rank pc + queued_ops q)%nat.
Proof.
  unfold thread_step, issue, unwind. intros Hst.
  destruct pc as [|bs|bs bd|bs bd|bs bd stream k|bs bd|bs bd o|bs o|o]; [| | | | | | | | done].
  all: repeat (case_match; simpl in Hst; simplify_eq; simpl; rewrite ?queued_push; try lia).
  all: try (destruct o; simpl; lia).
  all: try (simplify_eq; simpl; lia).
  destruct (_ ≫= _); simpl; lia.
Qed.

(** ** Properties *)

Section Properties.
Context (runtimes : cuda_runtime → Prop) (mean stddev : list float) (c : nat).

(** The engine's constants, and the condition on the runtime: allocations and uploads may
    fail at any call, but launches, downloads and synchronizations, which are issued behind
    queued operations, do not. After such a failure the code gives back blocks the device
    still works on, and isolation is lost (see [late_failure_breaks_isolation]). *)
Record concurrent_setting : Prop := {
  cc_runtimes : ∀ rt, runtimes rt → RuntimeOk rt ∧
    ∀ n, rt_status rt n CallLaunch = inl tt ∧ rt_status rt n CallD2H = inl tt ∧ rt_status rt n CallSync = inl tt;
  cc_channels : (0 < c)%nat ∧ Z.of_nat c < two31 ∧ length mean = c ∧ length stddev = c
}.

Definition concurrent_reachable : csys → Prop := creachable runtimes (sized c) (cuda_good mean stddev).

Lemma setting_inv s : concurrent_setting → concurrent_reachable s → cinv runtimes mean stddev c s.
Proof. intros [Hr (?&?&?&?)] Hs. by apply cinv_reachable. Qed.

Lemma work_decreases s s' :
  cinv runtimes mean stddev c s → concurrent_setting → cprogress runtimes s s' → (work s' < work s)%nat.
Proof.
  intros HI Hset Hs. destruct Hs as [s rt tid t e q pc Hr Ht Hst|s rt stream tid op rest Hr Hq].
  - apply thread_step_rank in Hst. unfold work. simpl.
    pose proof (total_insert (λ t, rank (th_pc t)) (cs_calls s) tid {| th_call := th_call t; th_pc := pc |}) as H.
    rewrite Ht in H. simpl in H. lia.
  - destruct Hset as [Hrt (?&?&?&?)].
    destruct (device_preserves runtimes mean stddev c) with s rt stream tid op rest as (m & -> & _); try done.
    unfold work, queued_ops. simpl. pose proof (total_insert length (cs_queues s) stream rest) as H'.
    rewrite Hq in H'. simpl in H'. lia.
Qed.
End Properties.

(** C24: concurrent calls are isolated, as long as no launch, download or synchronization
    fails (allocations and uploads may). However any number of [run_inference] calls on one
    engine, each with its own geometry and batch size within the range of the types,
    interleave with each other and with the device, also when several share a stream or
    reuse each other's pooled blocks, the device never accesses memory out of range, and a
    call that returns has the result of its own arguments: what its entry checks say, or
    the normalized rows of its own batch; an exception only when a runtime call failed. *)
Theorem concurrent_calls_isolated (runtimes : cuda_runtime → Prop) (mean stddev : list float) (c : nat)
  (s : csys) (tid : positive) (t : thread) (o : outcome (list float))
  (Hset : concurrent_setting runtimes mean stddev c) (Hs : concurrent_reachable runtimes mean stddev c s)
  (Ht : cs_calls s !! tid = Some t) (Ho : th_pc t = Returned o) :
  cs_fault s = false ∧
  (entry (Z.of_nat c) (th_call t) = Some o ∨
   ∃ hw rows, carries c hw (vec_size rows) (tc_output_elems (th_call t)) (th_call t) rows ∧
     (o = Ret (concat (cuda_row mean stddev c hw (tc_output_elems (th_call t)) <$> rows)) ∨
      (∃ x, o = Throw x) ∧ ¬ ∀ rt, runtimes rt → healthy rt)).
Proof.
  apply setting_inv in Hs as [Hf _ Hth _]; [| done]. split; [done |].
  destruct (Hth _ _ Ht) as [(_ & Hp & He)|(hw & oe & rows & _ & Hca & Hp)]; rewrite Ho in Hp.
  - left. injection Hp as ->. by destruct (entry _ _).
  - right. pose proof Hca as (_ & _ & _ & Hoe & _). exists hw, rows. rewrite Hoe. split; [done |]. by destruct Hp as [_ Hp].
Qed.

(** C25: concurrent calls terminate and clean up, as long as no launch, download or
    synchronization fails. Without new calls, every run of the calls and the device has at
    most [work s] steps; as long as a call has not returned some step is possible, so no
    interleaving deadlocks; and once all calls have returned, no operation is queued on any
    stream, every pooled block is back and the engine is ready for the next call. *)
Theorem concurrent_calls_finish (runtimes : cuda_runtime → Prop) (mean stddev : list float) (c : nat) (s : csys)
  (Hset : concurrent_setting runtimes mean stddev c) (Hrt : ∃ rt, runtimes rt)
  (Hs : concurrent_reachable runtimes mean stddev c s) :
  (∀ n s', nsteps (cprogress runtimes) n s s' → (n ≤ work s)%nat) ∧
  (∀ tid t, cs_calls s !! tid = Some t → (∀ o, th_pc t ≠ Returned o) → ∃ s', cprogress runtimes s s') ∧
  (all_returned s →
     (∀ stream, default [] (cs_queues s !! stream) = []) ∧ cuda_good mean stddev (cs_engine s)).
Proof.
  apply setting_inv in Hs as HI; [| done]. split_and!.
  - intros n s' Hn. clear Hs. induction Hn as [|n s1 s2 s3 H12 _ IH]; [lia |].
    pose proof (work_decreases _ _ _ _ _ _ HI Hset H12) as Hw.
    assert (HI2 : cinv runtimes mean stddev c s2).
    { destruct Hset as [Hrts (?&?&?&?)]. by eapply progress_preserves. }
    specialize (IH HI2). lia.
  - intros tid t Ht Hpc. destruct Hrt as [rt Hr]. by eapply some_step.
  - destruct Hset as [Hrts (?&?&?&?)]. by apply (quiescent runtimes mean stddev c).
Qed.

(** ** Witnesses: three calls over two streams, interleaved *)

(** An executable schedule. *)
Inductive choice :=
  | DoCall (tid : positive) (call : tcall)
  | DoRun (tid : positive)
  | DoDevice (stream : positive).

Definition exec_choice (rt : cuda_runtime) (s : csys) (ch : choice) : option csys :=
  match ch with
  | DoCall tid call =>
      match cs_calls s !! tid with
      | Some _ => None
      | None =>
          Some {| cs_engine := next_call (cs_engine s); cs_queues := cs_queues s;
                  cs_calls := <[tid := {| th_call := call;
                                          th_pc := match entry (channels (cs_engine s)) call with
                                                   | Some o => Returned o
                                                   | None => AcquireStaging
                                                   end |}]> (cs_calls s);
                  cs_fault := cs_fault s |}
      end
  | DoRun tid =>
      t ← cs_calls s !! tid;
      r ← thread_step rt tid (th_call t) (th_pc t) (cs_engine s) (cs_queues s);
      let '(e, q, pc) := r in
      Some {| cs_engine := e; cs_queues := q;
              cs_calls := <[tid := {| th_call := th_call t; th_pc := pc |}]> (cs_calls s);
              cs_fault := cs_fault s |}
  | DoDevice stream =>
      match cs_queues s !! stream with
      | Some ((tid, op) :: rest) =>
          Some (match exec_op rt (ce_mean (cs_engine s)) (ce_stddev (cs_engine s)) (ce_calls (cs_engine s))
                        (ce_mem (cs_engine s)) op with
                | Ret m => {| cs_engine := with_mem m (ce_pending (cs_engine s)) (cs_engine s);
                              cs_queues := <[stream := rest]> (cs_queues s);
                              cs_calls := cs_calls s; cs_fault := cs_fault s |}
                | _ => {| cs_engine := cs_engine s; cs_queues := cs_queues s; cs_calls := cs_calls s;
                          cs_fault := true |}
                end)
      | _ => None
      end
  end.

Fixpoint exec_schedule (rt : cuda_runtime) (s : csys) (l : list choice) : option csys :=
  match l with
  | [] => Some s
  | ch :: l => s' ← exec_choice rt s ch; exec_schedule rt s' l
  end.

Lemma exec_choice_sound (runtimes : cuda_runtime → Prop) (calls : tcall → Prop) rt s ch s' :
  runtimes rt → (∀ tid call, ch = DoCall tid call → calls call) → exec_choice rt s ch = Some s' →
  cstep runtimes calls s s'.
Proof.
  intros Hr Hcalls Hex. destruct ch as [tid call|tid|stream]; simpl in Hex.
  - destruct (cs_calls s !! tid) eqn:Ht; simplify_eq. apply c_call; [done |]. intros _. by eapply Hcalls.
  - destruct (cs_calls s !! tid) as [t|] eqn:Ht; simpl in Hex; [| done].
    destruct (thread_step _ _ _ _ _ _) as [[[e q] pc]|] eqn:Hst; simpl in Hex; simplify_eq.
    apply c_progress. by eapply c_run.
  - destruct (cs_queues s !! stream) as [[|[tid op] rest]|] eqn:Hq; simplify_eq.
    apply c_progress. by eapply c_device.
Qed.

Lemma exec_schedule_sound (runtimes : cuda_runtime → Prop) (calls : tcall → Prop) rt l s s' :
  runtimes rt → Forall (λ ch, match ch with DoCall _ call => calls call | _ => True end) l →
  exec_schedule rt s l = Some s' → rtc (cstep runtimes calls) s s'.
Proof.
  intros Hr Hl. revert s. induction Hl as [|ch l Hch _ IH]; intros s Hex; simpl in Hex; [simplify_eq; apply rtc_refl |].
  destruct (exec_choice rt s ch) as [s1|] eqn:H1; simpl in Hex; [| done].
  eapply rtc_l; [| by apply IH]. eapply exec_choice_sound; [done | | done]. by intros tid call ->.
Qed.

Definition demo_call (x : Z) : tcall :=
  {| tc_input := [f32_lit x 1; f32_lit x 1; f32_lit x 1]; tc_batch_size := 1; tc_input_elems := 3; tc_output_elems := 2 |}.

(** Two rows of two pixels, all channels wanted back. *)
Definition demo_wide : tcall :=
  {| tc_input := (λ n, f32_lit n 1) <$> [1; 2; 3; 4; 5; 6; 7; 8; 9; 10; 11; 12]; tc_batch_size := 2; tc_input_elems := 6;
     tc_output_elems := 6 |}.

Definition demo_schedule : list choice :=
  [DoCall 1 (demo_call 5); DoCall 2 demo_wide; DoRun 1; DoRun 2; DoRun 1; DoRun 1; DoRun 1; DoRun 1;
   DoRun 2; DoRun 2; DoRun 2; DoCall 3 (demo_call 9); DoRun 3; DoRun 3; DoRun 3; DoRun 3; DoRun 3;
   DoDevice 1; DoRun 1; DoRun 3; DoDevice 1; DoRun 2; DoRun 1; DoRun 2; DoRun 2; DoDevice 2; DoDevice 1; DoRun 3;
   DoDevice 1; DoDevice 1; DoRun 1; DoRun 1; DoRun 1; DoRun 1; DoDevice 1; DoDevice 2; DoDevice 2;
   DoRun 3; DoRun 3; DoRun 2; DoRun 2; DoRun 3; DoRun 2; DoRun 3; DoRun 2]%positive.

Definition demo_start : csys :=
  {| cs_engine := demo_engine; cs_queues := ∅; cs_calls := ∅; cs_fault := false |}.

Definition demo_end : csys := default demo_start (exec_schedule (demo_runtime (inl tt)) demo_start demo_schedule).

Definition demo_runtimes (rt : cuda_runtime) : Prop := rt = demo_runtime (inl tt).

Lemma demo_setting : concurrent_setting demo_runtimes (opt_mean demo_options) (opt_stddev demo_options) 3.
Proof. split; [intros rt ->; split; [apply _ | done] | split_and!; done || lia]. Qed.

Lemma demo_sized x : sized 3 (demo_call x).
Proof. unfold sized, vec_max_size. simpl. lia. Qed.

Lemma demo_wide_sized : sized 3 demo_wide.
Proof. unfold sized, vec_max_size. simpl. lia. Qed.

Lemma demo_end_reachable :
  concurrent_reachable demo_runtimes (opt_mean demo_options) (opt_stddev demo_options) 3 demo_end.
Proof.
  exists demo_start. split; [exists demo_engine; split; [apply demo_engine_good | done] |].
  apply (exec_schedule_sound _ _ (demo_runtime (inl tt)) demo_schedule); [done | |].
  - repeat (apply Forall_cons; split; [first [exact I | apply demo_sized | apply demo_wide_sized] |]). by apply Forall_nil.
  - unfold demo_end. destruct (exec_schedule _ _ _) eqn:He; [done |]. by vm_compute in He.
Qed.

Definition demo_thread (tid : positive) : thread :=
  default {| th_call := demo_call 0; th_pc := Returned Undefined |} (cs_calls demo_end !! tid).

(** Call 3 shared a stream with call 1. *)
Lemma concurrent_calls_isolated_witness :
  cs_calls demo_end !! 3%positive = Some (demo_thread 3) ∧
  th_pc (demo_thread 3) = Returned (Ret [f32_lit 4 1; f32_div (f32_lit 7 1) (f32_lit 2 1)]) ∧
  cs_fault demo_end = false.
Proof.
  assert (Ht : cs_calls demo_end !! 3%positive = Some (demo_thread 3)) by (vm_compute; reflexivity).
  assert (Ho : th_pc (demo_thread 3) = Returned (Ret [f32_lit 4 1; f32_div (f32_lit 7 1) (f32_lit 2 1)]))
    by (vm_compute; reflexivity).
  split; [done |]. split; [done |].
  exact (proj1 (concurrent_calls_isolated demo_runtimes (opt_mean demo_options) (opt_stddev demo_options) 3
    demo_end 3%positive (demo_thread 3) _ demo_setting demo_end_reachable Ht Ho)).
Defined.

Lemma concurrent_calls_finish_witness :
  live_handles (stats_ (ce_pool (cs_engine demo_end))) = 0 ∧ cuda_good (opt_mean demo_options) (opt_stddev demo_options) (cs_engine demo_end).
Proof.
  split; [vm_compute; reflexivity |].
  refine (proj2 (proj2 (proj2 (concurrent_calls_finish demo_runtimes (opt_mean demo_options) (opt_stddev demo_options)
    3 demo_end demo_setting (ex_intro _ _ eq_refl) demo_end_reachable)) _)).
  intros tid t Ht. apply elem_of_map_to_list in Ht.
  assert (Hall : Forall (λ x, match th_pc x.2 with Returned _ => True | _ => False end) (map_to_list (cs_calls demo_end))).
  { vm_compute. by repeat constructor. }
  eapply Forall_forall in Hall; [| exact Ht]. simpl in Hall. destruct (th_pc t); try done. eauto.
Defined.

(** ** Without the condition on late failures *)

(** The first call's launch is refused. *)
Definition flaky_runtime : cuda_runtime :=
  {| rt_malloc := rt_malloc (demo_runtime (inl tt));
     rt_status := λ n call, match call with CallLaunch => if (n =? 1)%nat then inr "refused"%string else inl tt | _ => inl tt end;
     rt_progress := rt_progress (demo_runtime (inl tt)); rt_order := rt_order (demo_runtime (inl tt));
     rt_junk := rt_junk (demo_runtime (inl tt)) |}.

Definition stale_schedule : list choice :=
  [DoCall 1 (demo_call 5); DoRun 1; DoRun 1; DoRun 1; DoRun 1; DoRun 1; DoRun 1; DoRun 1; DoRun 1;
   DoCall 2 (demo_call 9); DoRun 2; DoRun 2; DoRun 2; DoRun 2; DoRun 2; DoRun 2; DoRun 2;
   DoDevice 2; DoDevice 2; DoDevice 1; DoDevice 2; DoRun 2; DoRun 2; DoRun 2; DoRun 2]%positive.

Definition stale_end : csys := default demo_start (exec_schedule flaky_runtime demo_start stale_schedule).

(** What is lost after a late failure. The launch of the first call is refused when its
    upload is already queued; the call throws and gives its blocks back, the second call
    gets them, and the stale upload then overwrites the rows the second call has already
    normalized: it returns its input as it was. *)
Theorem late_failure_breaks_isolation :
  creachable (λ rt, rt = flaky_runtime) (sized 3) (cuda_good (opt_mean demo_options) (opt_stddev demo_options)) stale_end ∧
  (th_pc <$> cs_calls stale_end !! 1%positive) = Some (Returned (Throw (CudaError "normalize_kernel launch: refused"))) ∧
  (th_pc <$> cs_calls stale_end !! 2%positive) = Some (Returned (Ret [f32_lit 9 1; f32_lit 9 1])) ∧
  cuda_row (opt_mean demo_options) (opt_stddev demo_options) 3 1 2 [f32_lit 9 1; f32_lit 9 1; f32_lit 9 1] =
    [f32_lit 4 1; f32_div (f32_lit 7 1) (f32_lit 2 1)].
Proof.
  split; [| vm_compute; by repeat split].
  exists demo_start. split; [exists demo_engine; split; [apply demo_engine_good | done] |].
  apply (exec_schedule_sound _ _ flaky_runtime stale_schedule); [done | |].
  - repeat (apply Forall_cons; split; [first [exact I | apply demo_sized] |]). by apply Forall_nil.
  - unfold stale_end. destruct (exec_schedule _ _ _) eqn:He; [done |]. by vm_compute in He.
Qed.
