(* ===== verification/OnnxImpl.v ===== *)
(** * The ONNX engine's resources

    [OnnxExecutionEngine::Impl] and [allocate_device_buffers]
    (src/cpp/src/engine/onnx_execution_engine.cpp) as far as CUDA resources are concerned: the
    six buffer members, the stream, the sequence of calls that fills them, what a failure at
    any of them leaves behind, and the destructor. The options
    (src/cpp/include/cuda_db/engine/onnx_execution_engine.hpp) are declared here. *)

From Stdlib Require Import ZArith Lia.
From stdpp Require Import base numbers strings gmap sets list.
From S2P Require Import Prelude Machine MemoryPool Buffers.

(** ** Options *)

(** Elements per row of the fixed input shape {batch, 3, 224, 224}. *)
Definition image_elems : Z := 3 * 224 * 224.

Record OnnxOptions := {
  ox_model_path : string;
  ox_device_id : Z;
  ox_batch_buckets : list Z;
  ox_warm_buckets : bool;
  ox_input_elems : Z;
  ox_output_elems : Z;
  ox_use_io_binding : bool;
  ox_normalize_on_device : bool;
  ox_mean : list float;
  ox_stddev : list float;
  ox_require_cuda : bool
}.

Definition default_OnnxOptions : OnnxOptions :=
  {| ox_model_path := ""; ox_device_id := 0; ox_batch_buckets := [8]; ox_warm_buckets := true;
     ox_input_elems := image_elems; ox_output_elems := 1000; ox_use_io_binding := true;
     ox_normalize_on_device := false;
     ox_mean := [f32_lit 485 1000; f32_lit 456 1000; f32_lit 406 1000];
     ox_stddev := [f32_lit 229 1000; f32_lit 224 1000; f32_lit 225 1000];
     ox_require_cuda := true |}.

(** ** State *)

(** The buffer members of [Impl], in declaration order. *)
Definition host_input : nat := 0.
Definition host_output : nat := 1.
Definition device_input : nat := 2.
Definition device_output : nat := 3.
Definition device_mean : nat := 4.
Definition device_stddev : nat := 5.

(** [Impl] with the runtime's heap and live streams. *)
Record Impl := {
  im_buffers : list RawBuffer;
  im_stream : option positive;
  im_cuda_memory_info : bool;
  im_heap : CudaHeap;
  im_streams : gset positive
}.

Definition new_Impl (h : CudaHeap) (streams : gset positive) : Impl :=
  {| im_buffers := [raw_default true; raw_default true; raw_default false; raw_default false;
                    raw_default false; raw_default false];
     im_stream := None; im_cuda_memory_info := false; im_heap := h; im_streams := streams |}.

(** The runtime's answers: allocations by number and heap. *)
Record buffer_answers := {
  ba_set_device : unit + string;
  ba_stream : positive + string;
  ba_malloc : nat → CudaHeap → cuda_answer;
  ba_copy_mean : unit + string;
  ba_copy_stddev : unit + string;
  ba_memory_info : unit + string
}.

(** ** [allocate_device_buffers] *)

Section Allocate.
Variable a : buffer_answers.
Local Open Scope engine_scope.

(** [member = PinnedBuffer{bytes}] or [member = DeviceBuffer{bytes}]: a temporary is
    constructed, moved into the member and destroyed. *)
Definition assign_buffer (member : nat) (pinned : bool) (bytes : Z) : stepM Impl unit := λ s,
  match im_buffers s !! member with
  | Some this =>
      match raw_new pinned bytes (ba_malloc a member (im_heap s)) (im_heap s) with
      | Ret (temporary, h) =>
          match
            r ← raw_move_assign this temporary h;
            let '(this', temporary', h1) := r in
            h2 ← raw_destroy temporary' h1;
            Ret (this', h2)
          with
          | Ret (this', h2) =>
              ({| im_buffers := <[member := this']> (im_buffers s); im_stream := im_stream s;
                  im_cuda_memory_info := im_cuda_memory_info s; im_heap := h2; im_streams := im_streams s |}, Ret tt)
          | Throw x => (s, Throw x)
          | Undefined => (s, Undefined)
          end
      | Throw x => (s, Throw x)
      | Undefined => (s, Undefined)
      end
  | None => (s, Undefined)
  end.

Definition create_stream : stepM Impl unit := λ s,
  match cuda_check "cudaStreamCreateWithFlags" (ba_stream a) with
  | Ret stream =>
      ({| im_buffers := im_buffers s; im_stream := Some stream; im_cuda_memory_info := im_cuda_memory_info s;
          im_heap := im_heap s; im_streams := {[ stream ]} ∪ im_streams s |}, Ret tt)
  | Throw x => (s, Throw x)
  | Undefined => (s, Undefined)
  end.

(** [Ort::MemoryInfo("Cuda", ...)]. *)
Definition describe_memory : stepM Impl unit := λ s,
  match ba_memory_info a with
  | inl _ =>
      ({| im_buffers := im_buffers s; im_stream := im_stream s; im_cuda_memory_info := true;
          im_heap := im_heap s; im_streams := im_streams s |}, Ret tt)
  | inr msg => (s, Throw (OrtException msg))
  end.

Definition upload_constants (o : OnnxOptions) : stepM Impl unit :=
  if ox_normalize_on_device o then
    let bytes := u64_mul (vec_size (ox_mean o)) 4 in
    assign_buffer device_mean false bytes ;;
    assign_buffer device_stddev false bytes ;;
    liftM (cuda_check "cudaMemcpy (mean)" (ba_copy_mean a)) ;;
    liftM (cuda_check "cudaMemcpy (stddev)" (ba_copy_stddev a))
  else retM tt.

(** The [try] block, up to [io_binding_active_ = true]. *)
Definition allocate_buffers (o : OnnxOptions) : stepM Impl unit :=
  let max_batch := default 1 (last (ox_batch_buckets o)) in
  let input_floats := u64_mul max_batch (ox_input_elems o) in
  let output_floats := u64_mul max_batch (ox_output_elems o) in
  liftM (cuda_check "cudaSetDevice" (ba_set_device a)) ;;
  create_stream ;;
  assign_buffer host_input true (u64_mul input_floats 4) ;;
  assign_buffer host_output true (u64_mul output_floats 4) ;;
  assign_buffer device_input false (u64_mul input_floats 4) ;;
  assign_buffer device_output false (u64_mul output_floats 4) ;;
  upload_constants o ;;
  describe_memory.

(** With the handler: whether the bound path is active, or the exception that leaves. *)
Definition try_allocate (o : OnnxOptions) (s : Impl) : Impl * outcome bool :=
  match allocate_buffers o s with
  | (s', Ret _) => (s', Ret true)
  | (s', Throw x) => (s', if ox_normalize_on_device o then Throw x else Ret false)
  | (s', Undefined) => (s', Undefined)
  end.
End Allocate.

(** [~Impl]: the stream, then the members in reverse order of declaration. *)
Definition destroy_Impl (s : Impl) : outcome (CudaHeap * gset positive) :=
  h ← fold_outcome (λ h b, raw_destroy b h) (im_heap s) (reverse (im_buffers s));
  Ret (h, match im_stream s with Some stream => im_streams s ∖ {[ stream ]} | None => im_streams s end).

(** ** What the members own *)

(** The heap is what was there before and what the members own; the stream is new. *)
Definition owns (h0 : CudaHeap) (st0 : gset positive) (s : Impl) : Prop :=
  omap raw_block (im_buffers s) ++ map_to_list h0 ≡ₚ map_to_list (im_heap s) ∧
  match im_stream s with
  | Some stream => (stream ∉ st0) ∧ (im_streams s = {[ stream ]} ∪ st0)
  | None => im_streams s = st0
  end.

(** Members still in their default state. *)
Definition unset (from : nat) (s : Impl) : Prop :=
  length (im_buffers s) = 6%nat ∧ ∀ i b, (from ≤ i)%nat → im_buffers s !! i = Some b → raw_ptr_ b = None.

Definition fresh_answers (a : buffer_answers) (streams : gset positive) : Prop :=
  (∀ i h ptr, ba_malloc a i h = inl ptr → h !! ptr = None) ∧
  (∀ stream, ba_stream a = inl stream → stream ∉ streams).

Lemma omap_insert (l : list RawBuffer) i b b' :
  l !! i = Some b → raw_block b = None →
  omap raw_block (<[i := b']> l) ≡ₚ option_list (raw_block b') ++ omap raw_block l.
Proof.
  intros Hi Hb. rewrite insert_take_drop by by eapply lookup_lt_Some.
  rewrite <- (take_drop_middle l i b Hi) at 3. rewrite !omap_app. csimpl. rewrite Hb.
  destruct (raw_block b'); simpl; [| done]. by rewrite Permutation_middle.
Qed.

Lemma omap_reverse_perm (l : list RawBuffer) : omap raw_block (reverse l) ≡ₚ omap raw_block l.
Proof.
  induction l as [|b l IH]; csimpl; [done |]. rewrite reverse_cons, omap_app, IH. csimpl.
  destruct (raw_block b); simpl; [| by rewrite app_nil_r]. by rewrite Permutation_app_comm.
Qed.

Section Owns.
Context (a : buffer_answers) (h0 : CudaHeap) (st0 : gset positive) (Hfresh : fresh_answers a st0).

(** A step keeps ownership, throws or returns, and sets member [i] only. *)
Definition keeps {A} (n : nat) (m : stepM Impl A) (n' : nat) : Prop :=
  ∀ s, owns h0 st0 s → unset n s →
    ∃ s' o, m s = (s', o) ∧ owns h0 st0 s' ∧ o ≠ Undefined ∧ (∀ r, o = Ret r → unset n' s').

Lemma keeps_bind {A B} n n' n'' (m : stepM Impl A) (f : A → stepM Impl B) :
  keeps n m n' → (∀ x, keeps n' (f x) n'') → keeps n (bindM m f) n''.
Proof.
  intros Hm Hf s HO HU. unfold bindM. destruct (Hm s HO HU) as (s1 & o & -> & HO1 & Ho & HU1).
  destruct o as [x|e|]; [| | done].
  - apply Hf; [done | by eapply HU1].
  - exists s1, (Throw e). by split_and!.
Qed.

Lemma keeps_check {A} n what (answer : A + string) : keeps n (liftM (cuda_check what answer)) n.
Proof. intros s HO HU. exists s. unfold cuda_check. destruct answer; eexists; split_and!; done. Qed.

Lemma keeps_assign i pinned bytes : (i < 6)%nat → keeps i (assign_buffer a i pinned bytes) (S i).
Proof.
  intros Hi s HO HU. pose proof HU as [Hlen Hnone].
  destruct (lookup_lt_is_Some_2 (im_buffers s) i) as [b Hb]; [lia |].
  assert (Hp : raw_ptr_ b = None) by by eapply Hnone.
  assert (Hblk : raw_block b = None) by (unfold raw_block; by rewrite Hp).
  unfold assign_buffer. rewrite Hb.
  destruct (raw_new pinned bytes (ba_malloc a i (im_heap s)) (im_heap s)) as [[tmp h]|x|] eqn:Hnew.
  - unfold raw_move_assign, raw_destroy. rewrite Hp. simpl. eexists _, (Ret tt). split; [done |].
    destruct HO as [HO Hst]. split_and!; [split; [| done] | done |].
    + simpl. rewrite (omap_insert _ _ b) by done. unfold raw_new in Hnew. destruct (0 <? bytes); simplify_eq; [| done].
      destruct (ba_malloc a i (im_heap s)) as [ptr|msg] eqn:Hm; simpl in Hnew; simplify_eq. simpl.
      rewrite HO. rewrite map_to_list_insert; [done |]. by eapply (proj1 Hfresh).
    + intros r _. split; simpl; [by rewrite length_insert |]. intros j b' Hj Hb'.
      rewrite list_lookup_insert_ne in Hb' by lia. eapply Hnone; [| exact Hb']. lia.
  - exists s, (Throw x). split_and!; try done. 
  - exfalso. unfold raw_new, cuda_check in Hnew. by destruct (0 <? bytes), (ba_malloc a i (im_heap s)).
Qed.

Lemma keeps_stream n : ∀ s, im_stream s = None → owns h0 st0 s → unset n s →
  ∃ s' o, create_stream a s = (s', o) ∧ owns h0 st0 s' ∧ o ≠ Undefined ∧ (∀ r, o = Ret r → unset n s').
Proof.
  intros s Hn [HO Hst] HU. unfold create_stream, cuda_check. rewrite Hn in Hst.
  destruct (ba_stream a) as [stream|msg] eqn:Hb; eexists _, _; (split; [done |]).
  - split_and!; [| done | done]. split; [done |]. simpl. split; [by apply (proj2 Hfresh) | by rewrite Hst].
  - split_and!; [| done | done]. split; [done |]. by rewrite Hn.
Qed.

Lemma keeps_describe n : keeps n (describe_memory a) n.
Proof.
  intros s [HO Hst] HU. unfold describe_memory. destruct (ba_memory_info a); eexists _, _; (split; [done |]);
    by split_and!.
Qed.

Lemma keeps_weaken {A} n n' n'' (m : stepM Impl A) : (n' ≤ n'')%nat → keeps n m n' → keeps n m n''.
Proof.
  intros Hn Hm s HO HU. destruct (Hm s HO HU) as (s' & o & H1 & H2 & H3 & H4). exists s', o. split_and!; try done.
  intros r Hr. destruct (H4 r Hr) as [Hl Hu]. split; [done |]. intros i b Hi. apply Hu. lia.
Qed.

Lemma keeps_upload o : keeps 4 (upload_constants a o) 6.
Proof.
  unfold upload_constants. destruct (ox_normalize_on_device o).
  - apply (keeps_bind _ 5); [apply (keeps_assign 4); lia | intros _].
    apply (keeps_bind _ 6); [apply (keeps_assign 5); lia | intros _].
    apply (keeps_bind _ 6); [apply keeps_check | intros _; apply keeps_check].
  - apply (keeps_weaken _ 4); [lia |]. intros s HO HU. eexists s, (Ret tt). by split_and!.
Qed.

Lemma allocate_owns o s :
  im_stream s = None → owns h0 st0 s → unset 0 s →
  ∃ s' r, allocate_buffers a o s = (s', r) ∧ owns h0 st0 s' ∧ r ≠ Undefined.
Proof.
  intros Hn HO HU. unfold allocate_buffers.
  set (max_batch := default 1 _). set (ifl := u64_mul _ (ox_input_elems o)). set (ofl := u64_mul _ (ox_output_elems o)).
  unfold bindM at 1, liftM at 1, cuda_check at 1. destruct (ba_set_device a) as [u|msg]; [| by eexists _, _].
  unfold bindM at 1. destruct (keeps_stream 0 s Hn HO HU) as (s1 & r & -> & HO1 & Hr & HU1).
  destruct r as [u1|x|]; [| by eexists _, _ | done]. specialize (HU1 u1 eq_refl).
  assert (Hk : keeps 0 (bindM (assign_buffer a host_input true (u64_mul ifl 4)) (λ _,
      bindM (assign_buffer a host_output true (u64_mul ofl 4)) (λ _,
      bindM (assign_buffer a device_input false (u64_mul ifl 4)) (λ _,
      bindM (assign_buffer a device_output false (u64_mul ofl 4)) (λ _,
      bindM (upload_constants a o) (λ _, describe_memory a)))))) 6).
  { apply (keeps_bind _ 1); [apply (keeps_assign 0); lia | intros _].
    apply (keeps_bind _ 2); [apply (keeps_assign 1); lia | intros _].
    apply (keeps_bind _ 3); [apply (keeps_assign 2); lia | intros _].
    apply (keeps_bind _ 4); [apply (keeps_assign 3); lia | intros _].
    apply (keeps_bind _ 6); [apply keeps_upload | intros _; apply keeps_describe]. }
  destruct (Hk s1 HO1 HU1) as (s2 & r2 & H2 & HO2 & Hr2 & _). by exists s2, r2.
Qed.

(** Destroying the members one after the other frees exactly what they own. *)
Lemma destroy_members l h :
  omap raw_block l ++ map_to_list h0 ≡ₚ map_to_list h → fold_outcome (λ h b, raw_destroy b h) h l = Ret h0.
Proof.
  revert h. induction l as [|b l IH]; intros h Hp; csimpl in *.
  - f_equal. symmetry. by apply map_to_list_inj.
  - destruct (raw_ptr_ b) as [ptr|] eqn:Hptr.
    + assert (Hb : raw_block b = Some (ptr, (raw_bytes_ b, raw_pinned b))) by (unfold raw_block; by rewrite Hptr).
      rewrite Hb in Hp. simpl in Hp.
      assert (Hl : h !! ptr = Some (raw_bytes_ b, raw_pinned b)).
      { apply elem_of_map_to_list. rewrite <- Hp. by left. }
      assert (Hd : raw_destroy b h = Ret (delete ptr h)).
      { unfold raw_destroy, cuda_free. by rewrite Hptr, Hl, eqb_reflx. }
      rewrite Hd. simpl. apply IH.
      rewrite <- (insert_delete_id h ptr _ Hl) in Hp. rewrite map_to_list_insert in Hp by apply lookup_delete_eq.
      by apply Permutation_cons_inv in Hp.
    + assert (Hb : raw_block b = None) by (unfold raw_block; by rewrite Hptr).
      assert (Hd : raw_destroy b h = Ret h) by (unfold raw_destroy; by rewrite Hptr).
      rewrite Hd. simpl. apply IH. by rewrite Hb in Hp.
Qed.

Lemma destroy_owns s : owns h0 st0 s → destroy_Impl s = Ret (h0, st0).
Proof.
  intros [HO Hst]. unfold destroy_Impl. rewrite destroy_members.
  - simpl. f_equal. f_equal. destruct (im_stream s) as [stream|]; [| done]. destruct Hst as [Hn ->].
    by rewrite difference_union_distr_l_L, difference_diag_L, union_empty_l_L, difference_disjoint_L by set_solver.
  - rewrite <- HO. f_equiv. apply omap_reverse_perm.
Qed.
End Owns.

(** ** What a successful allocation leaves *)

Lemma bindM_Ret {S A B} (m : stepM S A) (f : A → stepM S B) s s' b :
  bindM m f s = (s', Ret b) → ∃ s1 x, m s = (s1, Ret x) ∧ f x s1 = (s', Ret b).
Proof. unfold bindM. destruct (m s) as [s1 [x|e|]]; [by eauto | done | done]. Qed.

(** [s'] is [s] with the sizes [sizes] in the members from [i] on. *)
Definition sets (i : nat) (sizes : list Z) (s s' : Impl) : Prop :=
  im_stream s' = im_stream s ∧ length (im_buffers s') = length (im_buffers s) ∧
  ∀ j, raw_bytes_ <$> im_buffers s' !! j =
       match (if decide (i ≤ j)%nat then sizes !! (j - i)%nat else None) with
       | Some bytes => Some bytes
       | None => raw_bytes_ <$> im_buffers s !! j
       end.

Lemma assign_buffer_sets a i k bytes s s' u :
  assign_buffer a i k bytes s = (s', Ret u) → sets i [bytes] s s'.
Proof.
  unfold assign_buffer. destruct (im_buffers s !! i) as [b|] eqn:Hi; [| done].
  destruct (raw_new _ _ _ _) as [[tmp h]|x|] eqn:Hnew; [| done | done].
  assert (Hb : raw_bytes_ tmp = bytes).
  { unfold raw_new, cuda_check in Hnew. destruct (0 <? bytes); [destruct (ba_malloc a i (im_heap s)) |];
      simpl in Hnew; by simplify_eq. }
  unfold raw_move_assign. destruct (raw_destroy b h) as [h1|x|]; simpl; [| done | done]. intros H. simplify_eq.
  split_and!; [done | apply length_insert |]. intros j. simpl. destruct (decide (j = i)) as [->|Hne].
  - rewrite list_lookup_insert_eq by by eapply lookup_lt_Some. rewrite decide_True by lia. by rewrite Nat.sub_diag.
  - rewrite list_lookup_insert_ne by done. destruct (decide (i ≤ j)%nat); [| done].
    by destruct (j - i)%nat eqn:?; [lia |].
Qed.

Lemma sets_app i l1 l2 s1 s2 s3 : sets i l1 s1 s2 → sets (i + length l1) l2 s2 s3 → sets i (l1 ++ l2) s1 s3.
Proof.
  intros (H1 & H2 & H3) (G1 & G2 & G3). split_and!; [congruence | congruence |]. intros j. rewrite G3, H3.
  destruct (decide (i ≤ j)%nat); [| by rewrite decide_False by lia].
  destruct (decide (i + length l1 ≤ j)%nat).
  - rewrite lookup_app_r by lia. replace (j - (i + length l1))%nat with (j - i - length l1)%nat by lia.
    destruct (l2 !! _); [done |]. by rewrite lookup_ge_None_2 by lia.
  - by rewrite lookup_app_l by lia.
Qed.

Lemma allocate_sizes a o s s' u :
  allocate_buffers a o s = (s', Ret u) →
  let max_batch := default 1 (last (ox_batch_buckets o)) in
  let input_bytes := u64_mul (u64_mul max_batch (ox_input_elems o)) 4 in
  let output_bytes := u64_mul (u64_mul max_batch (ox_output_elems o)) 4 in
  im_cuda_memory_info s' = true ∧ is_Some (im_stream s') ∧
  ∃ sizes, length sizes ∈ [0; 2]%nat ∧
    ∀ j, raw_bytes_ <$> im_buffers s' !! j =
         match ([input_bytes; output_bytes; input_bytes; output_bytes] ++ sizes) !! j with
         | Some bytes => Some bytes
         | None => raw_bytes_ <$> im_buffers s !! j
         end.
Proof.
  unfold allocate_buffers. cbv zeta. set (ib := u64_mul _ 4). set (ob := u64_mul _ 4). intros H.
  apply bindM_Ret in H as (s1 & x1 & Hsd & H). unfold liftM in Hsd. injection Hsd as <- _.
  apply bindM_Ret in H as (s2 & x2 & Hcs & H).
  unfold create_stream, cuda_check in Hcs. destruct (ba_stream a) as [stream|]; simplify_eq.
  apply bindM_Ret in H as (s3 & x3 & Ha1%assign_buffer_sets & H).
  apply bindM_Ret in H as (s4 & x4 & Ha2%assign_buffer_sets & H).
  apply bindM_Ret in H as (s5 & x5 & Ha3%assign_buffer_sets & H).
  apply bindM_Ret in H as (s6 & x6 & Ha4%assign_buffer_sets & H).
  pose proof (sets_app _ _ _ _ _ _ (sets_app _ _ _ _ _ _ (sets_app _ _ _ _ _ _ Ha1 Ha2) Ha3) Ha4) as Hs4.
  apply bindM_Ret in H as (s7 & x7 & Hup & Hd).
  assert (Hs6 : ∃ sizes, length sizes ∈ [0; 2]%nat ∧ sets 4 sizes s6 s7).
  { unfold upload_constants in Hup. destruct (ox_normalize_on_device o).
    - apply bindM_Ret in Hup as (t1 & y1 & Hb1%assign_buffer_sets & Hup).
      apply bindM_Ret in Hup as (t2 & y2 & Hb2%assign_buffer_sets & Hup).
      apply bindM_Ret in Hup as (t3 & y3 & Hc & Hup). unfold liftM in Hc, Hup. injection Hc as <- _. injection Hup as <- _.
      eexists. split; [| exact (sets_app _ _ _ _ _ _ Hb1 Hb2)]. simpl. set_solver.
    - unfold retM in Hup. simplify_eq. exists []. split; [set_solver |]. split_and!; [done | done |].
      intros j. by destruct (decide _). }
  destruct Hs6 as (sizes & Hlen & Hs6). pose proof (sets_app _ _ _ _ _ _ Hs4 Hs6) as (Hst & _ & Hsz).
  unfold describe_memory in Hd. destruct (ba_memory_info a); simplify_eq. simpl.
  split_and!; [done | by rewrite Hst; eexists |]. exists sizes. split; [done |]. intros j. rewrite Hsz.
  unfold host_input. rewrite decide_True, Nat.sub_0_r by lia. done.
Qed.

(** Falling back takes a device that does not normalize. *)
Lemma try_allocate_false a o s : (try_allocate a o s).2 = Ret false → ox_normalize_on_device o = false.
Proof.
  unfold try_allocate. destruct (allocate_buffers a o s) as [s' [u|x|]]; simpl; [done | | done].
  by destruct (ox_normalize_on_device o).
Qed.

Lemma new_Impl_unset h streams : unset 0 (new_Impl h streams).
Proof. split; [done |]. intros i b _ Hb. do 6 (destruct i as [|i]; [by injection Hb as <- |]). done. Qed.

Lemma try_allocate_defined a o h streams :
  fresh_answers a streams → (try_allocate a o (new_Impl h streams)).2 ≠ Undefined.
Proof.
  intros Hf. destruct (allocate_owns a h streams Hf o (new_Impl h streams)) as (s & r & Hal & _ & Hr);
    [done | by split | apply new_Impl_unset |].
  unfold try_allocate. rewrite Hal. destruct r; [done | by destruct (ox_normalize_on_device o) | done].
Qed.

(** ** Properties *)

(** C32: the bound path's resources are balanced. Whatever call fails while the buffers of
    the bound path are set up, and also when none does, destroying [Impl] frees every
    buffer exactly once and destroys the stream: the runtime's heap and streams are what
    they were. The bound path is reported active exactly when the whole sequence succeeded;
    then the stream exists and the staging and device buffers have the size of the largest
    bucket. A failure falls back to the host path, or leaves as an exception when the device
    normalizes. *)
Theorem onnx_buffers_balanced (a : buffer_answers) (o : OnnxOptions) (h : CudaHeap) (streams : gset positive)
  (Hfresh : fresh_answers a streams) :
  let '(s, r) := try_allocate a o (new_Impl h streams) in
  destroy_Impl s = Ret (h, streams) ∧
  match r with
  | Ret true =>
      im_cuda_memory_info s = true ∧ is_Some (im_stream s) ∧
      let max_batch := default 1 (last (ox_batch_buckets o)) in
      let input_bytes := u64_mul (u64_mul max_batch (ox_input_elems o)) 4 in
      let output_bytes := u64_mul (u64_mul max_batch (ox_output_elems o)) 4 in
      raw_bytes_ <$> im_buffers s !! host_input = Some input_bytes ∧
      raw_bytes_ <$> im_buffers s !! host_output = Some output_bytes ∧
      raw_bytes_ <$> im_buffers s !! device_input = Some input_bytes ∧
      raw_bytes_ <$> im_buffers s !! device_output = Some output_bytes
  | Ret false => ox_normalize_on_device o = false
  | Throw _ => ox_normalize_on_device o = true
  | Undefined => False
  end.
Proof.
  destruct (allocate_owns a h streams Hfresh o (new_Impl h streams)) as (s & r & Hal & HO & Hr);
    [done | by split | apply new_Impl_unset |].
  unfold try_allocate. rewrite Hal. destruct r as [u|x|]; [| | done]; (split; [by eapply destroy_owns |]).
  - destruct (allocate_sizes _ _ _ _ _ Hal) as (Hm & Hst & sizes & _ & Hsz).
    split_and!; [done | done | ..]; by rewrite Hsz.
  - by destruct (ox_normalize_on_device o).
Qed.

(** ** Witness: the fifth allocation fails *)

Definition demo_buffer_answers (fail : nat) : buffer_answers :=
  {| ba_set_device := inl tt; ba_stream := inl 1%positive;
     ba_malloc := λ i h, if (i =? fail)%nat then inr "out of memory"%string else inl (fresh (dom h));
     ba_copy_mean := inl tt; ba_copy_stddev := inl tt; ba_memory_info := inl tt |}.

Lemma demo_answers_fresh fail : fresh_answers (demo_buffer_answers fail) ∅.
Proof.
  split; [| by intros stream [= <-]]. intros i h ptr Hm. simpl in Hm. destruct (i =? fail)%nat; simplify_eq.
  apply not_elem_of_dom, is_fresh.
Qed.

Definition demo_impl (fail : nat) (normalize : bool) : Impl * outcome bool :=
  try_allocate (demo_buffer_answers fail)
    {| ox_model_path := "model.onnx"; ox_device_id := 0; ox_batch_buckets := [2]; ox_warm_buckets := true;
       ox_input_elems := image_elems; ox_output_elems := 2; ox_use_io_binding := true;
       ox_normalize_on_device := normalize; ox_mean := [f32_lit 1 1]; ox_stddev := [f32_lit 1 1];
       ox_require_cuda := true |} (new_Impl ∅ ∅).

Lemma onnx_buffers_balanced_witness :
  (demo_impl 4 true).2 = Throw (CudaError "cudaMalloc: out of memory") ∧
  destroy_Impl (demo_impl 4 true).1 = Ret (∅, ∅).
Proof.
  split; [vm_compute; reflexivity |].
  pose proof (onnx_buffers_balanced (demo_buffer_answers 4)
    {| ox_model_path := "model.onnx"; ox_device_id := 0; ox_batch_buckets := [2]; ox_warm_buckets := true;
       ox_input_elems := image_elems; ox_output_elems := 2; ox_use_io_binding := true;
       ox_normalize_on_device := true; ox_mean := [f32_lit 1 1]; ox_stddev := [f32_lit 1 1];
       ox_require_cuda := true |} ∅ ∅ (demo_answers_fresh 4)) as H.
  fold (demo_impl 4 true) in H. destruct (demo_impl 4 true) as [s r]. exact (proj1 H).
Defined.
