(* ===== verification/OnnxEngine.v ===== *)
(** * The ONNX engine

    [OnnxExecutionEngine] (src/cpp/src/engine/onnx_execution_engine.cpp,
    src/cpp/include/cuda_db/engine/onnx_execution_engine.hpp): bucket padding, the host path
    and the device-resident path through preallocated buffers, optional normalization on
    the device, warm-up and construction; the options and the setup of the CUDA resources
    are in [OnnxImpl]. ONNX Runtime and the CUDA runtime are arguments
    of the model ([onnx_runtime]). Copies and kernels of the bound path take effect at
    once: they run in order on the engine's own stream, which is synchronized before the
    session and the host read what they wrote. *)

From Stdlib Require Import ZArith Lia.
From stdpp Require Import base numbers strings pretty gmap sorting list.
From S2P Require Import Prelude Machine Engine MemoryPool Normalize CudaEngine OnnxImpl.

(** ** ONNX Runtime and CUDA *)

Inductive onnx_call := BoundH2D | BoundLaunch | BoundPreSync | BoundD2H | BoundPostSync.

Record onnx_runtime := {
  (* creating the session for a model path *)
  ort_load : string → unit + string;
  (* the execution providers compiled in *)
  ort_available : list string;
  (* querying the input and output names *)
  ort_names : unit + string;
  (* [Session::Run] in call [n], for a batch dimension and the input elements: the output
     elements ([None]: no output tensor), or the text of an [Ort::Exception] *)
  ort_run : nat → Z → list float → option (list float) + string;
  (* what ORT says when a bound output does not fit or a tensor is built over too little data *)
  ort_bound_message : string;
  ort_space_message : string;
  (* setting up the buffers of the bound path, and what the runtime has handed out before *)
  ort_answers : buffer_answers;
  ort_heap : CudaHeap;
  ort_streams : gset positive;
  (* CUDA calls of the bound path, by call number *)
  ort_cuda : nat → onnx_call → unit + string;
  ort_order : nat → list (list Z) → list Z;
  ort_junk : nat → float
}.

(** ** State *)

(** The members; the four preallocated buffers by their contents. *)
Record OnnxExecutionEngine := {
  oe_options : OnnxOptions;
  oe_providers : list string;
  oe_io_binding_active : bool;
  oe_host_input : list float;
  oe_host_output : list float;
  oe_device_input : list float;
  oe_device_output : list float;
  oe_calls : nat
}.

Definition with_buffers (hi ho di dout : list float) (e : OnnxExecutionEngine) : OnnxExecutionEngine :=
  {| oe_options := oe_options e; oe_providers := oe_providers e;
     oe_io_binding_active := oe_io_binding_active e; oe_host_input := hi; oe_host_output := ho;
     oe_device_input := di; oe_device_output := dout; oe_calls := oe_calls e |}.

Definition count_call (e : OnnxExecutionEngine) : OnnxExecutionEngine :=
  {| oe_options := oe_options e; oe_providers := oe_providers e;
     oe_io_binding_active := oe_io_binding_active e; oe_host_input := oe_host_input e;
     oe_host_output := oe_host_output e; oe_device_input := oe_device_input e;
     oe_device_output := oe_device_output e; oe_calls := S (oe_calls e) |}.

(** ** [translate_ort_errors] *)

Definition translate_ort_errors {A} (what : string) (o : outcome A) : outcome A :=
  match o with
  | Throw (OrtException msg) => Throw (InferenceError (what +:+ ": " +:+ msg))
  | _ => o
  end.

Definition ort_check {A} (answer : A + string) : outcome A :=
  match answer with inl a => Ret a | inr msg => Throw (OrtException msg) end.

(** ** [bucket_for] *)

Fixpoint onnx_bucket_for (buckets : list Z) (batch_size : Z) : Z :=
  match buckets with
  | [] => batch_size
  | bucket :: rest => if batch_size <=? bucket then bucket else onnx_bucket_for rest batch_size
  end.

(** ** The two paths *)

Section Run.
Variable rt : onnx_runtime.

(** [Ort::Value::CreateTensor] over the input: refused when the buffer is smaller than
    the shape, else the tensor has the elements of the shape. *)
Definition create_tensor (data : list float) (elems : Z) : outcome (list float) :=
  if vec_size data <? elems then Throw (OrtException (ort_space_message rt))
  else Ret (take (Z.to_nat elems) data).

(** The session on [padded_batch] images. *)
Definition session_run (n : nat) (padded_batch : Z) (data : list float) : outcome (option (list float)) :=
  tensor ← create_tensor data (padded_batch * image_elems);
  ort_check (ort_run rt n padded_batch tensor).

(** [run_host]. *)
Definition padded_input (input : list float) (batch_size padded_batch input_elems : Z) : outcome (list float) :=
  if padded_batch =? batch_size then Ret input
  else
    zeros ← vec_fill (u64_mul padded_batch input_elems) f32_zero;
    write_range zeros 0 input.

Definition run_host (e : OnnxExecutionEngine) (input : list float) (batch_size padded_batch : Z) :
  outcome (list float) :=
  let o := oe_options e in
  data ← padded_input input batch_size padded_batch (ox_input_elems o);
  translate_ort_errors "ONNX Runtime inference failed" (
    outputs ← session_run (oe_calls e) padded_batch (take (Z.to_nat (u64_mul padded_batch (ox_input_elems o))) data);
    match outputs with
    | None => Throw (InferenceError "ONNX Runtime returned no output tensor")
    | Some out =>
        if negb (vec_size out =? u64_mul padded_batch (ox_output_elems o))
        then Throw (InferenceError ("model produced " +:+ pretty (vec_size out) +:+ " elements, expected " +:+
                                    pretty (u64_mul padded_batch (ox_output_elems o))))
        else read_range out 0 (u64_mul batch_size (ox_output_elems o))
    end).

(** The normalization step of [run_bound]. *)
Definition normalize_step (e : OnnxExecutionEngine) (padded_batch : Z) (data : list float) : outcome (list float) :=
  let o := oe_options e in
  if ox_normalize_on_device o then
    let channels := vec_size (ox_mean o) in
    launched ← launch_normalize true (i32 padded_batch) (i32 channels) (i32 (ox_input_elems o / channels))
                 (ort_cuda rt (oe_calls e) BoundLaunch);
    match launched with
    | Some l =>
        ts ← grid_threads (lc_blocks l) (lc_total l);
        normalize_kernel (ox_mean o) (ox_stddev o) (lc_c l) (lc_hw l) (ort_order rt (oe_calls e) ts) data
    | None => Ret data
    end
  else Ret data.

(** [run_bound], up to the session: the staged input, the device input and how it got
    there. The pinned buffer keeps its rows beyond the batch. *)
Definition bound_upload (e : OnnxExecutionEngine) (input : list float) (padded_batch : Z) :
  outcome (list float * list float) :=
  staged ← write_range (oe_host_input e) 0 input;
  _ ← cuda_check "cudaMemcpyAsync (H2D)" (ort_cuda rt (oe_calls e) BoundH2D);
  chunk ← read_range staged 0 (u64_mul padded_batch (ox_input_elems (oe_options e)));
  device ← write_range (oe_device_input e) 0 chunk;
  Ret (staged, device).

(** The session over the bound tensors and the readback. A failing session leaves its two
    output buffers as they were: whatever it wrote there is overwritten by the next session
    and copy before anything reads it. *)
Definition bound_session (e : OnnxExecutionEngine) (device : list float) (batch_size padded_batch : Z) :
  outcome (list float * list float * list float) :=
  let o := oe_options e in
  let output_floats := u64_mul padded_batch (ox_output_elems o) in
  translate_ort_errors "ONNX Runtime inference failed (bound)" (
    outputs ← session_run (oe_calls e) padded_batch
                (take (Z.to_nat (u64_mul padded_batch (ox_input_elems o))) device);
    match outputs with
    | Some out =>
        if negb (vec_size out =? output_floats) then Throw (OrtException (ort_bound_message rt))
        else
          dout ← write_range (oe_device_output e) 0 out;
          _ ← cuda_check "cudaMemcpyAsync (D2H)" (ort_cuda rt (oe_calls e) BoundD2H);
          chunk ← read_range dout 0 output_floats;
          hout ← write_range (oe_host_output e) 0 chunk;
          _ ← cuda_check "cudaStreamSynchronize (post-Run)" (ort_cuda rt (oe_calls e) BoundPostSync);
          result ← read_range hout 0 (u64_mul batch_size (ox_output_elems o));
          Ret (dout, hout, result)
    | None => Throw (OrtException (ort_bound_message rt))
    end).

Definition run_bound (e : OnnxExecutionEngine) (input : list float) (batch_size padded_batch : Z) :
  OnnxExecutionEngine * outcome (list float) :=
  match bound_upload e input padded_batch with
  | Ret (staged, device) =>
      let e1 := with_buffers staged (oe_host_output e) device (oe_device_output e) e in
      match
        device' ← normalize_step e padded_batch device;
        _ ← cuda_check "cudaStreamSynchronize (pre-Run)" (ort_cuda rt (oe_calls e) BoundPreSync);
        Ret device'
      with
      | Ret device' =>
          let e2 := with_buffers staged (oe_host_output e) device' (oe_device_output e) e in
          match bound_session e2 device' batch_size padded_batch with
          | Ret (dout, hout, result) => (with_buffers staged hout device' dout e, Ret result)
          | Throw x => (e2, Throw x)
          | Undefined => (e2, Undefined)
          end
      | Throw x => (e1, Throw x)
      | Undefined => (e1, Undefined)
      end
  | Throw x =>
      (* the input may have been staged already *)
      (match write_range (oe_host_input e) 0 input with
       | Ret staged => with_buffers staged (oe_host_output e) (oe_device_input e) (oe_device_output e) e
       | _ => e
       end, Throw x)
  | Undefined => (e, Undefined)
  end.

(** ** [run_inference] *)

Definition onnx_run_inference (e0 : OnnxExecutionEngine) (input : list float)
    (batch_size input_elems output_elems : Z) : OnnxExecutionEngine * outcome (list float) :=
  let e := count_call e0 in
  let o := oe_options e in
  if negb (vec_size input =? u64_mul batch_size input_elems)
  then (e, Throw (InferenceError "batched input size does not match batch_size * input_elems"))
  else if batch_size =? 0 then (e, Ret [])
  else if negb (input_elems =? ox_input_elems o) || negb (output_elems =? ox_output_elems o)
  then (e, Throw (InferenceError "run_inference called with input/output_elems that differ from the configured geometry"))
  else
    let padded_batch := onnx_bucket_for (ox_batch_buckets o) batch_size in
    let fits_preallocated :=
      match last (ox_batch_buckets o) with
      | Some back => padded_batch <=? back
      | None => false
      end in
    if oe_io_binding_active e && fits_preallocated
    then run_bound e input batch_size padded_batch
    else (e, run_host e input batch_size padded_batch).

(** ** Warm-up and construction *)

(** [warm_buckets]: every [std::exception] is swallowed. *)
Definition warm_one (e : OnnxExecutionEngine) (bucket : Z) : OnnxExecutionEngine :=
  if bucket =? 0 then e
  else
    match vec_fill (u64_mul bucket (ox_input_elems (oe_options e))) f32_zero with
    | Ret input =>
        (onnx_run_inference e input bucket (ox_input_elems (oe_options e)) (ox_output_elems (oe_options e))).1
    | _ => e
    end.

Definition warm_buckets (e : OnnxExecutionEngine) : OnnxExecutionEngine :=
  foldl warm_one e (ox_batch_buckets (oe_options e)).

(** [allocate_device_buffers]: the calls of [OnnxImpl.try_allocate], then the contents of
    the four buffers, as many floats as their bytes hold, the pinned input zeroed. After a fallback
    the host path uses none of the buffers that were allocated, so their contents are not
    kept here. *)
Definition allocate_device_buffers (e : OnnxExecutionEngine) : outcome OnnxExecutionEngine :=
  let o := oe_options e in
  let max_batch := default 1 (last (ox_batch_buckets o)) in
  let input_floats := Z.to_nat (u64_mul (u64_mul max_batch (ox_input_elems o)) 4 / 4) in
  let output_floats := Z.to_nat (u64_mul (u64_mul max_batch (ox_output_elems o)) 4 / 4) in
  match (try_allocate (ort_answers rt) o (new_Impl (ort_heap rt) (ort_streams rt))).2 with
  | Ret true =>
      Ret {| oe_options := o; oe_providers := oe_providers e; oe_io_binding_active := true;
             oe_host_input := replicate input_floats f32_zero;
             oe_host_output := ort_junk rt <$> seq 0 output_floats;
             oe_device_input := ort_junk rt <$> seq 0 input_floats;
             oe_device_output := ort_junk rt <$> seq 0 output_floats;
             oe_calls := oe_calls e |}
  | Ret false =>
      Ret {| oe_options := o; oe_providers := oe_providers e; oe_io_binding_active := false;
             oe_host_input := oe_host_input e; oe_host_output := oe_host_output e;
             oe_device_input := oe_device_input e; oe_device_output := oe_device_output e;
             oe_calls := oe_calls e |}
  | Throw x => Throw x
  | Undefined => Undefined
  end.

(** [std::is_sorted]. *)
Fixpoint is_sorted (l : list Z) : bool :=
  match l with
  | a :: ((b :: _) as rest) => (a <=? b) && is_sorted rest
  | _ => true
  end.

Definition check_normalization (o : OnnxOptions) : outcome unit :=
  if ox_normalize_on_device o then
    if negb (ox_use_io_binding o)
    then Throw (InferenceError "OnnxExecutionEngine: normalize_on_device requires use_io_binding")
    else if (vec_size (ox_mean o) =? 0) || negb (vec_size (ox_mean o) =? vec_size (ox_stddev o))
    then Throw (InferenceError "OnnxExecutionEngine: mean and stddev must be non-empty and equal length")
    else if has_zero (ox_stddev o)
    then Throw (InferenceError "OnnxExecutionEngine: stddev entries must be non-zero")
    else if negb (ox_input_elems o mod vec_size (ox_mean o) =? 0)
    then Throw (InferenceError "OnnxExecutionEngine: input_elems must divide evenly by the channel count")
    else Ret tt
  else Ret tt.

Definition no_cuda_error : exn :=
  InferenceError ("ONNX Runtime resolved no CUDAExecutionProvider; the build is CPU-only. " +:+
                  "Set require_cuda=false to run anyway, but note every latency number " +:+
                  "would then be a CPU number.").

(** [std::find] of the CUDA provider. *)
Definition has_cuda (providers : list string) : bool :=
  existsb (String.eqb "CUDAExecutionProvider") providers.

Definition new_OnnxExecutionEngine (o : OnnxOptions) : outcome OnnxExecutionEngine :=
  if String.eqb (ox_model_path o) "" then Throw (InferenceError "OnnxExecutionEngine: model_path is empty")
  else
    _ ← translate_ort_errors "failed to initialize ONNX Runtime session" (ort_check (ort_load rt (ox_model_path o)));
    if ox_require_cuda o && negb (has_cuda (ort_available rt))
    then Throw no_cuda_error
    else if negb (is_sorted (ox_batch_buckets o))
    then Throw (InferenceError "OnnxExecutionEngine: batch_buckets must be ascending")
    else
      _ ← check_normalization o;
      _ ← translate_ort_errors "failed to query model input/output names" (ort_check (ort_names rt));
      let e := {| oe_options := o; oe_providers := ort_available rt; oe_io_binding_active := false;
                  oe_host_input := []; oe_host_output := []; oe_device_input := []; oe_device_output := [];
                  oe_calls := 0 |} in
      e1 ← (if ox_use_io_binding o then allocate_device_buffers e else Ret e);
      Ret (if ox_warm_buckets o then warm_buckets e1 else e1).
End Run.

Definition onnx_IExecutionEngine (rt : onnx_runtime) : IExecutionEngine OnnxExecutionEngine :=
  λ e input batch_size input_elems output_elems,
    onnx_run_inference rt e input batch_size input_elems output_elems.

(** ** Buckets *)

Lemma is_sorted_spec l : is_sorted l = true ↔ Sorted Z.le l.
Proof.
  induction l as [|a [|b l] IH]; simpl in *; [by split; constructor | by split; repeat constructor |].
  rewrite andb_true_iff, IH, Z.leb_le. split.
  - intros [H1 H2]. constructor; [done | by constructor].
  - intros H. apply Sorted_inv in H as [H1 H2]. split; [| done]. by inversion H2.
Qed.

Lemma sorted_head_le a l b : Sorted Z.le (a :: l) → b ∈ l → a ≤ b.
Proof.
  intros Hs Hb. apply Sorted_StronglySorted in Hs; [| intros ???; lia].
  inversion Hs as [|?? _ Hall]; subst. by eapply Forall_forall in Hall.
Qed.

(** The least bucket that holds the batch, or the batch itself when none does. *)
Lemma onnx_bucket_for_spec buckets n :
  Sorted Z.le buckets →
  let padded := onnx_bucket_for buckets n in
  n ≤ padded ∧ (padded ∈ buckets ∨ padded = n) ∧ (∀ b, b ∈ buckets → n ≤ b → padded ≤ b).
Proof.
  induction buckets as [|b rest IH]; intros Hs; simpl.
  - split_and!; [lia | by right | by intros ? ?%elem_of_nil].
  - destruct (Z.leb_spec n b) as [Hle|Hgt].
    + split_and!; [done | left; by left |]. intros b' Hb' Hn.
      apply elem_of_cons in Hb' as [->|Hb']; [lia |]. by eapply sorted_head_le.
    + apply Sorted_inv in Hs as [Hs _]. destruct (IH Hs) as (H1 & H2 & H3).
      split_and!; [done | destruct H2; [left; by right | by right] |].
      intros b' Hb' Hn. apply elem_of_cons in Hb' as [->|Hb']; [lia | by apply H3].
Qed.

Lemma bucket_within_last buckets n back :
  Sorted Z.le buckets → last buckets = Some back →
  onnx_bucket_for buckets n ≤ Z.max n back ∧ (onnx_bucket_for buckets n ≤ back ↔ n ≤ back).
Proof.
  intros Hs Hl. destruct (onnx_bucket_for_spec buckets n Hs) as (H1 & H2 & H3).
  assert (Hback : back ∈ buckets) by by apply last_Some_elem_of.
  assert (Hmax : ∀ b, b ∈ buckets → b ≤ back).
  { clear -Hs Hl. apply last_Some in Hl as [l' ->]. intros b Hb. apply elem_of_app in Hb as [Hb|Hb].
    - apply Sorted_StronglySorted in Hs; [| intros ???; lia]. apply StronglySorted_app in Hs as (H & _).
      apply (H b back); [done | by left].
    - apply list_elem_of_singleton in Hb. lia. }
  split; [destruct H2 as [H2|H2]; [apply Hmax in H2; lia | lia] |].
  split; [lia | intros Hn; by apply H3].
Qed.

(** ** Rows and padding *)

(** [n] rows padded with [k] further rows of any content. *)
Lemma padded_rows (f : list float → list float) (rows pad : list (list float)) (oe : Z) :
  0 ≤ oe → (∀ r, r ∈ rows ++ pad → vec_size (f r) = oe) →
  vec_size (concat (f <$> (rows ++ pad))) = vec_size (rows ++ pad) * oe ∧
  read_range (concat (f <$> (rows ++ pad))) 0 (vec_size rows * oe) = Ret (concat (f <$> rows)).
Proof.
  intros Hoe Hf.
  assert (Hsz : ∀ l, (∀ r, r ∈ l → vec_size (f r) = oe) → vec_size (concat (f <$> l)) = vec_size l * oe).
  { intros l Hl. rewrite (vec_size_concat (f <$> l) oe Hoe).
    - unfold vec_size. by rewrite length_fmap.
    - apply Forall_fmap, Forall_forall. exact Hl. }
  split; [by apply Hsz |].
  pose proof (Hsz (rows ++ pad) Hf) as Hall.
  assert (Hr : vec_size (concat (f <$> rows)) = vec_size rows * oe).
  { apply Hsz. intros r Hr. apply Hf, elem_of_app. by left. }
  rewrite vec_size_app in Hall. pose proof (vec_size_nonneg rows). pose proof (vec_size_nonneg pad).
  rewrite read_range_Ret by nia. f_equal. rewrite drop_0, fmap_app, concat_app.
  rewrite <- Hr, to_nat_vec_size. apply take_app_length.
Qed.

(** Staging [rows] in a buffer of whole rows leaves the old rows behind them. *)
Lemma staged_rows (rows : list (list float)) (buffer : list float) (ie : nat) (padded total : nat) :
  Forall (λ r, length r = ie) rows → length buffer = (total * ie)%nat →
  (length rows ≤ padded ≤ total)%nat →
  ∃ stale rest, concat rows ++ drop (length rows * ie) buffer = concat (rows ++ stale) ++ rest ∧
    Forall (λ r, length r = ie) stale ∧ length stale = (padded - length rows)%nat ∧
    stale = slices (padded - length rows) ie (take ((padded - length rows) * ie) (drop (length rows * ie) buffer)).
Proof.
  intros Hr Hlen Hp. set (k := (padded - length rows)%nat). set (old := drop (length rows * ie) buffer).
  assert (Hold : (k * ie ≤ length old)%nat) by (unfold old, k; rewrite length_drop; nia).
  assert (Htk : length (take (k * ie) old) = (k * ie)%nat) by (rewrite length_take; lia).
  eexists _, (drop (k * ie) old). split_and!; [| | | reflexivity].
  - rewrite concat_app, concat_slices by done. rewrite <- app_assoc. f_equal. symmetry. apply take_drop.
  - auto with serving.
  - auto with serving.
Qed.

(** ** The contract *)

(** A model that treats the rows of a batch independently, and whose session may fail. *)
Class SessionOk (rt : onnx_runtime) (model : list float → list float) (oe : Z) : Prop := {
  session_rows n rows :
    Forall (λ r, vec_size r = image_elems) rows →
    ort_run rt n (vec_size rows) (concat rows) = inl (Some (concat (model <$> rows))) ∨
    ∃ msg, ort_run rt n (vec_size rows) (concat rows) = inr msg;
  model_row_size r : vec_size r = image_elems → vec_size (model r) = oe;
  kernel_order_ok n ts : interleaves ts (ort_order rt n ts)
}.

(** A runtime in which neither the session nor a CUDA call of the bound path ever fails. *)
Definition onnx_healthy (rt : onnx_runtime) : Prop :=
  (∀ n batch data msg, ort_run rt n batch data ≠ inr msg) ∧ (∀ n c msg, ort_cuda rt n c ≠ inr msg).

(** A call that threw, which takes a failure of the runtime. *)
Definition thrown {A} (rt : onnx_runtime) (r : outcome A) : Prop := ¬ onnx_healthy rt ∧ ∃ x, r = Throw x.

(** Closes [thrown] from the runtime's answer in the context. *)
Ltac solve_thrown :=
  split; [let H1 := fresh in let H2 := fresh in
          intros [H1 H2]; first [eapply H1; eassumption | eapply H2; eassumption] | by eexists].

Section OnnxContract.
Context (rt : onnx_runtime) (model : list float → list float) (o : OnnxOptions).
Context `{HS : !SessionOk rt model (ox_output_elems o)}.
Hypotheses (Hie : ox_input_elems o = image_elems) (Hoe : 0 ≤ ox_output_elems o)
  (Hsorted : is_sorted (ox_batch_buckets o) = true) (Hnorm : check_normalization o = Ret tt).

Abbreviation oe := (ox_output_elems o).
Abbreviation sized := (Forall (λ r, vec_size r = image_elems)).

(** Room of the preallocated buffers, in rows. *)
Definition capacity_rows : Z := default 1 (last (ox_batch_buckets o)).

Definition onnx_good (e : OnnxExecutionEngine) : Prop :=
  oe_options e = o ∧
  (ox_normalize_on_device o = true → oe_io_binding_active e = true) ∧
  (oe_io_binding_active e = true →
     vec_size (oe_host_input e) = capacity_rows * image_elems ∧
     vec_size (oe_device_input e) = capacity_rows * image_elems ∧
     vec_size (oe_host_output e) = capacity_rows * oe ∧
     vec_size (oe_device_output e) = capacity_rows * oe).

(** What the session sees of a row. *)
Definition onnx_pre (r : list float) : list float :=
  if ox_normalize_on_device o
  then norm_row (ox_mean o) (ox_stddev o) (length (ox_mean o)) (Z.to_nat image_elems / length (ox_mean o)) r
  else r.

Lemma onnx_pre_size r : vec_size (onnx_pre r) = vec_size r.
Proof. unfold onnx_pre. split_if; [| done]. unfold norm_row, vec_size. by rewrite length_imap. Qed.

Lemma sized_nat (rows : list (list float)) : sized rows → Forall (λ r, length r = Z.to_nat image_elems) rows.
Proof. intros Hr. by apply uniform_nat. Qed.

Lemma session_run_rows n (rows : list (list float)) :
  sized rows →
  session_run rt n (vec_size rows) (concat rows) = Ret (Some (concat (model <$> rows))) ∨
  ¬ onnx_healthy rt ∧ ∃ msg, session_run rt n (vec_size rows) (concat rows) = Throw (OrtException msg).
Proof.
  intros Hr. unfold session_run, create_tensor.
  pose proof (vec_size_concat rows image_elems ltac:(done) Hr) as Hc.
  rewrite (proj2 (Z.ltb_ge _ _)) by lia. simpl.
  rewrite <- Hc, to_nat_vec_size, firstn_all.
  destruct (session_rows n rows Hr) as [->|[msg Hmsg]]; [by left | right]. rewrite Hmsg. solve_thrown.
Qed.

(** The host path. *)
Lemma run_host_spec e (rows : list (list float)) padded :
  oe_options e = o → sized rows → vec_size rows ≤ padded → padded * image_elems ≤ vec_max_size →
  padded * oe < two64 →
  run_host rt e (concat rows) (vec_size rows) padded = Ret (concat (model <$> rows)) ∨
  thrown rt (run_host rt e (concat rows) (vec_size rows) padded).
Proof.
  intros He Hr Hn Hin Hout. unfold run_host. rewrite He, Hie.
  pose proof (vec_size_nonneg rows) as Hn0. unfold vec_max_size, image_elems in Hin.
  rewrite !u64_mul_small by (unfold image_elems; nia).
  set (pad := replicate (Z.to_nat (padded - vec_size rows)) (replicate (Z.to_nat image_elems) f32_zero)).
  assert (Hpad : sized pad).
  { apply Forall_replicate. by rewrite vec_size_replicate. }
  assert (Hall : sized (rows ++ pad)) by (apply Forall_app; done).
  assert (Hlen : vec_size (rows ++ pad) = padded).
  { rewrite vec_size_app. unfold pad. rewrite vec_size_replicate; lia. }
  assert (Hdata : padded_input (concat rows) (vec_size rows) padded image_elems = Ret (concat (rows ++ pad))).
  { unfold padded_input. destruct (Z.eqb_spec padded (vec_size rows)) as [Heq|Hne].
    - unfold pad. replace (padded - vec_size rows) with 0 by lia. simpl. by rewrite app_nil_r.
    - unfold vec_fill. rewrite u64_mul_small by (unfold image_elems; lia).
      rewrite (proj2 (Z.ltb_ge _ _)) by (unfold vec_max_size, image_elems; lia). simpl.
      pose proof (vec_size_concat rows image_elems ltac:(done) Hr) as Hc.
      rewrite write_range_Ret by (rewrite ?vec_size_replicate; unfold image_elems in *; lia). simpl.
      rewrite concat_app. do 2 f_equal. unfold pad.
      rewrite drop_replicate. clear -Hc Hn Hn0. unfold vec_size, image_elems in *.
      replace (Z.to_nat (padded * (3 * 224 * 224)) - length (concat rows))%nat
        with (Z.to_nat (padded - Z.of_nat (length rows)) * Z.to_nat (3 * 224 * 224))%nat by lia.
      generalize (Z.to_nat (3 * 224 * 224)) as w. intros w.
      induction (Z.to_nat (padded - Z.of_nat (length rows))) as [|k IH]; simpl; [done |].
      by rewrite replicate_add, IH. }
  rewrite Hdata. simpl.
  pose proof (vec_size_concat (rows ++ pad) image_elems ltac:(done) Hall) as Hcat. rewrite Hlen in Hcat.
  rewrite <- Hcat, to_nat_vec_size, firstn_all.
  destruct (session_run_rows (oe_calls e) (rows ++ pad) Hall) as [Hs|[Hh [msg Hs]]]; rewrite Hlen in Hs; rewrite Hs; simpl.
  2: { right. split; [done | by eexists]. }
  destruct (padded_rows model rows pad oe Hoe) as [Hsz Hread].
  { intros r Hin'. apply model_row_size. by eapply Forall_forall in Hall. }
  rewrite Hlen in Hsz. rewrite Hsz, Z.eqb_refl. simpl. rewrite Hread. by left.
Qed.

(** *** Normalization on the device *)

Lemma image_nat : Z.of_nat (Z.to_nat image_elems) = image_elems.
Proof. apply Z2Nat.id. unfold image_elems. lia. Qed.

Lemma normalization_channels :
  ox_normalize_on_device o = true →
  (0 < length (ox_mean o))%nat ∧ length (ox_stddev o) = length (ox_mean o) ∧
  (length (ox_mean o) * (Z.to_nat image_elems / length (ox_mean o)) = Z.to_nat image_elems)%nat ∧
  (length (ox_mean o) ≤ Z.to_nat image_elems)%nat.
Proof.
  intros Hon. unfold check_normalization in Hnorm. rewrite Hon, Hie in Hnorm.
  destruct (ox_use_io_binding o); simpl in Hnorm; [| done].
  destruct (Z.eqb_spec (vec_size (ox_mean o)) 0) as [|H0]; [done |].
  destruct (Z.eqb_spec (vec_size (ox_mean o)) (vec_size (ox_stddev o))) as [H1|]; simpl in Hnorm; [| done].
  destruct (has_zero _); [done |].
  destruct (Z.eqb_spec (image_elems mod vec_size (ox_mean o)) 0) as [Hd|]; simpl in Hnorm; [| done].
  unfold vec_size in *. set (c := length (ox_mean o)) in *.
  assert (Hc : (0 < c)%nat) by lia. split; [done |]. split; [lia |].
  assert (Hm : (Z.to_nat image_elems mod c = 0)%nat).
  { apply Nat2Z.inj. rewrite Nat2Z.inj_mod, Z2Nat.id by done. exact Hd. }
  assert (Hmul : (c * (Z.to_nat image_elems / c) = Z.to_nat image_elems)%nat).
  { pose proof (Nat.div_mod_eq (Z.to_nat image_elems) c). lia. }
  split; [done |]. rewrite <- Hmul.
  assert (Z.to_nat image_elems / c ≠ 0)%nat by (intros Hz; rewrite Hz in Hmul; pose proof image_nat; unfold image_elems in *; lia).
  nia.
Qed.

Lemma normalize_step_spec e (rows : list (list float)) rest :
  oe_options e = o → rows ≠ [] → sized rows → vec_size rows < two31 →
  normalize_step rt e (vec_size rows) (concat rows ++ rest) = Ret (concat (onnx_pre <$> rows) ++ rest) ∨
  thrown rt (normalize_step rt e (vec_size rows) (concat rows ++ rest)).
Proof.
  intros He Hne Hr Hn.
  assert (Hpos : 0 < vec_size rows) by (destruct rows; [done | unfold vec_size; simpl; lia]).
  unfold normalize_step, onnx_pre. rewrite He, Hie.
  destruct (ox_normalize_on_device o) eqn:Hon; [| left; by rewrite list_fmap_id].
  destruct (normalization_channels Hon) as (Hc & Hstd & Hmul & Hle).
  set (c := length (ox_mean o)) in *. set (hw := (Z.to_nat image_elems / c)%nat) in *.
  pose proof image_nat as Himg. change image_elems with 150528 in Himg at 2.
  assert (Hhw : (0 < hw)%nat) by (destruct hw; lia).
  change (vec_size (ox_mean o)) with (Z.of_nat c).
  assert (Hdiv : image_elems / Z.of_nat c = Z.of_nat hw).
  { unfold hw. by rewrite Nat2Z.inj_div, Z2Nat.id. }
  assert (Hchw : Z.of_nat c * Z.of_nat hw = 150528) by lia.
  assert (Hrn : Forall (λ r, length r = (c * hw)%nat) rows).
  { eapply Forall_impl; [exact Hr |]. intros r Hsz. unfold vec_size in Hsz. rewrite Hmul. lia. }
  assert (Hc31 : Z.of_nat c < two31) by lia. clear Hle Hmul Himg. clearbody hw.
  rewrite Hdiv, !i32_small by nia.
  destruct (ort_cuda rt (oe_calls e) BoundLaunch) as [[]|msg] eqn:Hst.
  - left. destruct (launched_rows rows rest (ox_mean o) (ox_stddev o) c hw Hne Hc Hhw Hc31 eq_refl Hstd Hrn)
      as (l & ts & -> & Hts & Hk).
    + unfold max_stride, kBlockSize, kMaxBlocks. nia.
    + simpl. rewrite Hts. simpl. apply Hk, kernel_order_ok.
  - right. destruct (launch_refused (vec_size rows) (Z.of_nat c) (Z.of_nat hw) msg) as [x ->]; [lia | lia | lia | |].
    + unfold max_stride, kBlockSize, kMaxBlocks. nia.
    + solve_thrown.
Qed.

(** *** The bound path *)

Lemma with_buffers_good e hi ho di dout :
  onnx_good e → vec_size hi = vec_size (oe_host_input e) → vec_size ho = vec_size (oe_host_output e) →
  vec_size di = vec_size (oe_device_input e) → vec_size dout = vec_size (oe_device_output e) →
  onnx_good (with_buffers hi ho di dout e).
Proof. intros (H1 & H2 & H3) E1 E2 E3 E4. split_and!; [done | done |]. simpl. rewrite E1, E2, E3, E4. done. Qed.

Lemma write_range_size {A} (l src l' : list A) off : write_range l off src = Ret l' → vec_size l' = vec_size l.
Proof. intros Hw. unfold vec_size. f_equal. by eapply write_range_length. Qed.

(** Upload: the device sees the batch's rows followed by rows of earlier batches. *)
Lemma bound_upload_spec e (rows : list (list float)) padded :
  onnx_good e → oe_io_binding_active e = true → sized rows → vec_size rows ≤ padded ≤ capacity_rows →
  capacity_rows * image_elems ≤ vec_max_size →
  (∃ staged device stale rest, bound_upload rt e (concat rows) padded = Ret (staged, device) ∧
     sized stale ∧ vec_size (rows ++ stale) = padded ∧ device = concat (rows ++ stale) ++ rest ∧
     vec_size staged = vec_size (oe_host_input e) ∧ vec_size device = vec_size (oe_device_input e)) ∨
  thrown rt (bound_upload rt e (concat rows) padded).
Proof.
  intros (He & _ & Hbuf) Hact Hr [Hn Hp] Hmax. destruct (Hbuf Hact) as (Hhi & Hdi & _ & _).
  pose proof (vec_size_nonneg rows) as Hn0. unfold bound_upload. rewrite He, Hie.
  pose proof (vec_size_concat rows image_elems ltac:(done) Hr) as Hc.
  assert (H0 : 0 ≤ image_elems) by done. unfold vec_max_size in Hmax.
  rewrite write_range_Ret by nia. simpl.
  destruct (ort_cuda rt (oe_calls e) BoundH2D) as [u|msg] eqn:Hck; simpl; [left | right; solve_thrown].
  destruct (staged_rows rows (oe_host_input e) (Z.to_nat image_elems) (Z.to_nat padded) (Z.to_nat capacity_rows))
    as (stale & rest & Hst & Hsz & Hlen & _); [by apply sized_nat | | |].
  { unfold vec_size in Hhi. rewrite <- Z2Nat.inj_mul by lia. lia. } { unfold vec_size in *. lia. }
  assert (Hdrop : drop (length (concat rows)) (oe_host_input e) = drop (length rows * Z.to_nat image_elems) (oe_host_input e)).
  { f_equal. unfold vec_size in Hc. nia. }
  rewrite Hdrop, Hst.
  assert (Hss : sized stale).
  { eapply Forall_impl; [exact Hsz |]. intros r Hl. simpl in Hl. unfold vec_size. rewrite Hl. apply image_nat. }
  assert (Hall : vec_size (rows ++ stale) = padded) by (rewrite vec_size_app; unfold vec_size in *; lia).
  assert (Hcs : vec_size (concat (rows ++ stale)) = padded * image_elems).
  { rewrite <- Hall. apply vec_size_concat; [done |]. apply Forall_app. done. }
  rewrite u64_mul_small by nia. rewrite read_range_Ret by (rewrite ?vec_size_app; pose proof (vec_size_nonneg rest); nia).
  rewrite drop_0, <- Hcs, to_nat_vec_size, take_app_length. simpl.
  rewrite write_range_Ret by nia. simpl.
  eexists _, _, stale, (drop (length (concat (rows ++ stale))) (oe_device_input e)).
  split; [done |]. split_and!; [done | done | done | |].
  - rewrite <- Hst. unfold vec_size in *. rewrite length_app, length_drop. nia.
  - unfold vec_size in *. rewrite length_app, length_drop. nia.
Qed.

(** Session and readback: the rows of the batch come back, the padding is dropped. *)
Lemma bound_session_spec e (rows pad : list (list float)) rest :
  onnx_good e → oe_io_binding_active e = true → sized (rows ++ pad) →
  vec_size (rows ++ pad) ≤ capacity_rows → capacity_rows * image_elems ≤ vec_max_size →
  capacity_rows * oe ≤ vec_max_size →
  (∃ dout hout, bound_session rt e (concat (rows ++ pad) ++ rest) (vec_size rows) (vec_size (rows ++ pad)) =
       Ret (dout, hout, concat (model <$> rows)) ∧
     vec_size dout = vec_size (oe_device_output e) ∧ vec_size hout = vec_size (oe_host_output e)) ∨
  thrown rt (bound_session rt e (concat (rows ++ pad) ++ rest) (vec_size rows) (vec_size (rows ++ pad))).
Proof.
  intros (He & _ & Hbuf) Hact Hr Hp Hmi Hmo. destruct (Hbuf Hact) as (_ & _ & Hho & Hdo).
  pose proof (vec_size_nonneg rows) as Hn0. pose proof (vec_size_nonneg pad) as Hp0.
  pose proof (vec_size_app rows pad) as Happ. unfold bound_session. rewrite He, Hie.
  assert (H0 : 0 ≤ image_elems) by done. unfold vec_max_size in *.
  pose proof (vec_size_concat (rows ++ pad) image_elems H0 Hr) as Hc.
  assert (Hbo : vec_size (rows ++ pad) * oe ≤ capacity_rows * oe) by (apply Z.mul_le_mono_nonneg_r; lia).
  assert (Hbi : vec_size (rows ++ pad) * image_elems ≤ capacity_rows * image_elems)
    by (apply Z.mul_le_mono_nonneg_r; lia).
  assert (Hro : vec_size rows * oe ≤ vec_size (rows ++ pad) * oe) by (apply Z.mul_le_mono_nonneg_r; lia).
  assert (Hr0 : 0 ≤ vec_size rows * oe) by (apply Z.mul_nonneg_nonneg; lia).
  rewrite !u64_mul_small by lia. rewrite <- Hc, to_nat_vec_size, take_app_length.
  destruct (session_run_rows (oe_calls e) (rows ++ pad) Hr) as [Hs|[Hh [msg Hs]]]; rewrite Hs; simpl;
    [| right; split; [done | by eexists]].
  destruct (padded_rows model rows pad oe Hoe) as [Hsz Hread].
  { intros r Hin'. apply model_row_size. by eapply Forall_forall in Hr. }
  rewrite Hsz, Z.eqb_refl. simpl. rewrite write_range_Ret by lia. simpl.
  destruct (ort_cuda rt (oe_calls e) BoundD2H) as [u|msg] eqn:Hd2h; simpl; [| right; solve_thrown].
  set (out := concat (model <$> rows ++ pad)) in *.
  rewrite read_range_Ret by (rewrite ?vec_size_app; pose proof (vec_size_nonneg (drop (length out) (oe_device_output e))); lia).
  rewrite drop_0, <- Hsz, to_nat_vec_size, take_app_length. simpl.
  rewrite write_range_Ret by lia. simpl.
  destruct (ort_cuda rt (oe_calls e) BoundPostSync) as [u'|msg] eqn:Hps; simpl; [| right; solve_thrown].
  assert (Hr2 : ∀ tail, read_range (out ++ tail) 0 (vec_size rows * oe) = Ret (concat (model <$> rows))).
  { intros tail. rewrite read_range_Ret in Hread by lia. simplify_eq.
    rewrite read_range_Ret by (rewrite ?vec_size_app; pose proof (vec_size_nonneg tail); lia). f_equal.
    rewrite drop_0 in *. rewrite take_app_le; [done |]. unfold vec_size in *. lia. }
  rewrite Hr2. left. eexists _, _. split; [done |].
  split; unfold vec_size in *; rewrite length_app, length_drop; lia.
Qed.

Lemma run_bound_spec e (rows : list (list float)) padded e' r :
  onnx_good e → oe_io_binding_active e = true → rows ≠ [] → sized rows → vec_size rows ≤ padded ≤ capacity_rows →
  capacity_rows * image_elems ≤ vec_max_size → capacity_rows * oe ≤ vec_max_size → capacity_rows < two31 →
  run_bound rt e (concat rows) (vec_size rows) padded = (e', r) →
  onnx_good e' ∧ (r = Ret (concat ((λ x, model (onnx_pre x)) <$> rows)) ∨ thrown rt r).
Proof.
  intros HG Hact Hne Hr Hp Hmi Hmo H31 Hrun. unfold run_bound in Hrun.
  destruct (bound_upload_spec e rows padded HG Hact Hr Hp Hmi)
    as [(staged & device & stale & rest & Hup & Hst & Hall & -> & Hs1 & Hs2)|[Hh [x Hup]]]; rewrite Hup in Hrun.
  2: { destruct (write_range _ _ _) as [staged|?|] eqn:Hw; simplify_eq; (split; [| right; split; eauto]); try done.
       apply with_buffers_good; try done. by eapply write_range_size. }
  assert (Hsz : sized (rows ++ stale)) by (apply Forall_app; done).
  assert (Hn : vec_size (rows ++ stale) < two31) by lia.
  assert (Hne' : rows ++ stale ≠ []) by by destruct rows.
  rewrite <- Hall in Hrun.
  destruct (normalize_step_spec e (rows ++ stale) rest (proj1 HG) Hne' Hsz Hn) as [Hns|[Hh [x Hns]]];
    rewrite Hns in Hrun; simpl in Hrun.
  2: { simplify_eq. split; [by apply with_buffers_good | right; split; eauto]. }
  destruct (ort_cuda rt (oe_calls e) BoundPreSync) as [u|msg] eqn:Hpre0; simpl in Hrun.
  2: { simplify_eq. split; [by apply with_buffers_good | right; solve_thrown]. }
  set (device' := concat (onnx_pre <$> rows ++ stale) ++ rest) in *.
  assert (Hd' : vec_size device' = vec_size (oe_device_input e)).
  { rewrite <- Hs2. unfold device'. rewrite !vec_size_app. f_equal.
    rewrite !(vec_size_concat _ image_elems); try done; [unfold vec_size; by rewrite length_fmap |].
    apply Forall_fmap. eapply Forall_impl; [exact Hsz |]. intros y Hy. simpl. by rewrite onnx_pre_size. }
  set (e2 := with_buffers staged (oe_host_output e) device' (oe_device_output e) e) in *.
  assert (HG2 : onnx_good e2) by by apply with_buffers_good.
  assert (Hpre : sized ((onnx_pre <$> rows) ++ (onnx_pre <$> stale))).
  { rewrite <- fmap_app. apply Forall_fmap. eapply Forall_impl; [exact Hsz |]. intros y Hy. simpl.
    by rewrite onnx_pre_size. }
  assert (Hl1 : vec_size (onnx_pre <$> rows) = vec_size rows) by (unfold vec_size; by rewrite length_fmap).
  assert (Hl2 : vec_size ((onnx_pre <$> rows) ++ (onnx_pre <$> stale)) = vec_size (rows ++ stale)).
  { rewrite <- fmap_app. unfold vec_size. by rewrite length_fmap. }
  destruct (bound_session_spec e2 (onnx_pre <$> rows) (onnx_pre <$> stale) rest HG2 Hact Hpre)
    as [(dout & hout & Hbs & Hd & Hh)|[Hh [x Hbs]]]; [lia | done | done | |];
    rewrite Hl1, Hl2, <- fmap_app in Hbs; fold device' in Hbs; rewrite Hbs in Hrun; simplify_eq.
  - split; [by apply with_buffers_good |]. left. by rewrite <- list_fmap_compose.
  - split; [done | right; split; eauto].
Qed.

(** *** [run_inference] *)

Definition onnx_row (r : list float) : list float := model (onnx_pre r).

(** Rows the engine may be asked for: any number the sizes allow, but with device
    normalization no more than the last bucket. *)
Variable max_rows : Z.
Hypotheses (Hmi : Z.max max_rows capacity_rows * image_elems ≤ vec_max_size)
  (Hmo : Z.max max_rows capacity_rows * oe ≤ vec_max_size) (H31 : capacity_rows < two31)
  (Hover : ox_normalize_on_device o = true →
           ∃ back, last (ox_batch_buckets o) = Some back ∧ max_rows ≤ back).

Lemma padded_within_capacity n :
  n ≤ max_rows → onnx_bucket_for (ox_batch_buckets o) n ≤ Z.max max_rows capacity_rows.
Proof.
  intros Hn. apply is_sorted_spec in Hsorted as Hs.
  unfold capacity_rows. destruct (last (ox_batch_buckets o)) as [back|] eqn:Hl.
  - destruct (bucket_within_last _ n back Hs Hl) as [Hw _]. simpl. lia.
  - apply last_None in Hl. rewrite Hl. simpl. lia.
Qed.

(** Without device normalization the host path computes the engine's rows. *)
Lemma run_host_rows e (rows : list (list float)) padded :
  oe_options e = o → sized rows → vec_size rows ≤ padded → padded * image_elems ≤ vec_max_size →
  padded * oe < two64 → ox_normalize_on_device o = false →
  run_host rt e (concat rows) (vec_size rows) padded = Ret (concat (onnx_row <$> rows)) ∨
  thrown rt (run_host rt e (concat rows) (vec_size rows) padded).
Proof.
  intros He Hr Hp Hi Ho Hoff. destruct (run_host_spec e rows padded He Hr Hp Hi Ho) as [Hh|Hh]; [| by right].
  left. rewrite Hh. f_equal. f_equal. apply list_fmap_ext. intros i x _. unfold onnx_row, onnx_pre. by rewrite Hoff.
Qed.

Lemma onnx_run_spec e (rows : list (list float)) e' r :
  onnx_good e → rows ≠ [] → vec_size rows ≤ max_rows → sized rows →
  onnx_run_inference rt e (concat rows) (vec_size rows) image_elems oe = (e', r) →
  onnx_good e' ∧ (r = Ret (concat (onnx_row <$> rows)) ∨ thrown rt r).
Proof.
  intros HG Hne Hn Hr Hrun. assert (HG1 : onnx_good (count_call e)) by by destruct HG as (? & ? & ?).
  pose proof HG1 as (He & Hact & _).
  assert (Hpos : 0 < vec_size rows) by (destruct rows; [done | unfold vec_size; simpl; lia]).
  assert (H0 : 0 < image_elems) by done. unfold vec_max_size in *.
  pose proof (vec_size_concat rows image_elems ltac:(done) Hr) as Hc.
  assert (Hb1 : vec_size rows * image_elems ≤ Z.max max_rows capacity_rows * image_elems)
    by (apply Z.mul_le_mono_nonneg_r; lia).
  unfold onnx_run_inference in Hrun. rewrite He, Hie, Hc, u64_mul_small, !Z.eqb_refl in Hrun by lia. simpl in Hrun.
  rewrite (proj2 (Z.eqb_neq _ _)) in Hrun by lia.
  apply is_sorted_spec in Hsorted as Hs.
  set (padded := onnx_bucket_for _ _) in *.
  destruct (onnx_bucket_for_spec (ox_batch_buckets o) (vec_size rows) Hs) as (Hp1 & _). fold padded in Hp1.
  pose proof (padded_within_capacity _ Hn) as Hcap. fold padded in Hcap.
  assert (Hc1 : padded * image_elems ≤ Z.max max_rows capacity_rows * image_elems)
    by (apply Z.mul_le_mono_nonneg_r; lia).
  assert (Hc2 : padded * oe ≤ Z.max max_rows capacity_rows * oe) by (apply Z.mul_le_mono_nonneg_r; lia).
  assert (Hm1 : capacity_rows * image_elems ≤ Z.max max_rows capacity_rows * image_elems)
    by (apply Z.mul_le_mono_nonneg_r; lia).
  assert (Hm2 : capacity_rows * oe ≤ Z.max max_rows capacity_rows * oe) by (apply Z.mul_le_mono_nonneg_r; lia).
  pose proof (λ H, conj HG1 (run_host_rows (count_call e) rows padded He Hr Hp1 ltac:(unfold vec_max_size; lia)
    ltac:(lia) H)) as Hhost.
  destruct (oe_io_binding_active e) eqn:Hio; simpl in Hrun.
  - destruct (last (ox_batch_buckets o)) as [back|] eqn:Hl.
    + destruct (Z.leb_spec padded back) as [Hfit|Hbig].
      * assert (Hcr : capacity_rows = back) by (unfold capacity_rows; by rewrite Hl).
        refine (run_bound_spec (count_call e) rows padded e' r HG1 Hio Hne Hr _ _ _ H31 Hrun);
          [rewrite Hcr; lia | unfold vec_max_size; lia | unfold vec_max_size; lia].
      * destruct (ox_normalize_on_device o) eqn:Hon; [| injection Hrun as <- <-; by apply Hhost].
        destruct (Hover eq_refl) as (b & Hb & Hle). injection Hb as <-.
        destruct (bucket_within_last _ (vec_size rows) back Hs Hl) as [_ Hiff]. fold padded in Hiff. lia.
    + destruct (ox_normalize_on_device o) eqn:Hon; [| injection Hrun as <- <-; by apply Hhost].
      by destruct (Hover eq_refl) as (b & Hb & _).
  - destruct (ox_normalize_on_device o) eqn:Hon; [| injection Hrun as <- <-; by apply Hhost].
    specialize (Hact eq_refl). simpl in Hact. congruence.
Qed.

Lemma onnx_contract :
  EngineContract OnnxExecutionEngine (H := onnx_IExecutionEngine rt) onnx_good max_rows image_elems oe onnx_row
    (λ _, ¬ onnx_healthy rt).
Proof.
  split.
  - intros r Hr. unfold onnx_row. apply model_row_size. by rewrite onnx_pre_size.
  - intros e rows e' r HG Hne Hn Hr Hrun. destruct (onnx_run_spec _ _ _ _ HG Hne Hn Hr Hrun) as (? & [?|[? [x ?]]]); eauto.
Qed.

End OnnxContract.

(** ** Buffer sizes never change *)

Lemma normalize_body_length mean stddev c hw data idx data' :
  normalize_body mean stddev c hw data idx = Ret data' → length data' = length data.
Proof.
  unfold normalize_body. intros Hb. repeat case_match; simplify_eq. apply length_insert.
Qed.

Lemma normalize_kernel_length mean stddev c hw order data data' :
  normalize_kernel mean stddev c hw order data = Ret data' → length data' = length data.
Proof.
  unfold normalize_kernel. revert data. induction order as [|i order IH]; intros data; simpl; [by intros [= ->] |].
  destruct (normalize_body _ _ _ _ data i) as [d|x|] eqn:Hb; simpl; try done. intros Hf.
  apply IH in Hf. apply normalize_body_length in Hb. congruence.
Qed.

Lemma normalize_step_size rt e padded data data' :
  normalize_step rt e padded data = Ret data' → vec_size data' = vec_size data.
Proof.
  unfold normalize_step. destruct (ox_normalize_on_device _); [| by intros [= ->]].
  destruct (launch_normalize _ _ _ _ _) as [[l|]|x|]; simpl; try done; [| by intros [= ->]].
  destruct (grid_threads _ _) as [ts|x|]; simpl; try done. intros Hk. apply normalize_kernel_length in Hk.
  unfold vec_size. by rewrite Hk.
Qed.

Lemma bound_upload_size rt e input padded staged device :
  bound_upload rt e input padded = Ret (staged, device) →
  vec_size staged = vec_size (oe_host_input e) ∧ vec_size device = vec_size (oe_device_input e).
Proof.
  unfold bound_upload. destruct (write_range _ 0 input) as [st|x|] eqn:H1; simpl; try done.
  destruct (cuda_check _ _); simpl; try done. destruct (read_range st _ _) as [ch|x|]; simpl; try done.
  destruct (write_range _ 0 ch) as [dv|x|] eqn:H2; simpl; try done. intros [= <- <-].
  split; by eapply write_range_size.
Qed.

Lemma translate_Ret {A} what (m : outcome A) a : translate_ort_errors what m = Ret a → m = Ret a.
Proof. unfold translate_ort_errors. by destruct m as [?|[]|]. Qed.

Lemma bound_session_size rt e device n padded dout hout r :
  bound_session rt e device n padded = Ret (dout, hout, r) →
  vec_size dout = vec_size (oe_device_output e) ∧ vec_size hout = vec_size (oe_host_output e).
Proof.
  unfold bound_session. intros H%translate_Ret.
  destruct (session_run _ _ _ _) as [[out|]|x|]; simpl in H; try done. destruct (negb _); [done |].
  destruct (write_range _ 0 out) as [d1|x|] eqn:H1; simpl in H; try done.
  destruct (cuda_check _ (ort_cuda _ _ BoundD2H)); simpl in H; try done.
  destruct (read_range d1 _ _) as [ch|x|]; simpl in H; try done.
  destruct (write_range _ 0 ch) as [h1|x|] eqn:H2; simpl in H; try done.
  destruct (cuda_check _ _); simpl in H; try done. destruct (read_range h1 _ _); simpl in H; simplify_eq.
  split; by eapply write_range_size.
Qed.

Lemma run_bound_good rt o e input n padded : onnx_good o e → onnx_good o (run_bound rt e input n padded).1.
Proof.
  intros HG. unfold run_bound. destruct (bound_upload rt e input padded) as [[staged device]|x|] eqn:Hup; [| | done].
  - apply bound_upload_size in Hup as [H1 H2].
    destruct (normalize_step rt e padded device) as [device'|x|] eqn:Hns; simpl; [| by apply with_buffers_good..].
    apply normalize_step_size in Hns.
    destruct (cuda_check _ _); simpl; [| by apply with_buffers_good..].
    destruct (bound_session _ _ _ _ _) as [[[dout hout] r]|x|] eqn:Hbs; simpl;
      [apply bound_session_size in Hbs as [H3 H4] | |]; apply with_buffers_good; try done; congruence.
  - destruct (write_range _ 0 input) as [staged|?|] eqn:Hw; [| done..]. apply with_buffers_good; try done.
    by eapply write_range_size.
Qed.

Lemma onnx_run_good rt o e input n ie oe : onnx_good o e → onnx_good o (onnx_run_inference rt e input n ie oe).1.
Proof.
  intros HG. assert (HG1 : onnx_good o (count_call e)) by by destruct HG as (? & ? & ?).
  unfold onnx_run_inference. destruct (negb _); [done |]. destruct (n =? 0); [done |].
  destruct (_ || _); [done |]. destruct (_ && _); [by apply run_bound_good | done].
Qed.

(** Every call counts once. *)
Lemma onnx_run_calls rt e input n ie oe : oe_calls (onnx_run_inference rt e input n ie oe).1 = S (oe_calls e).
Proof.
  unfold onnx_run_inference. destruct (negb _); [done |]. destruct (n =? 0); [done |].
  destruct (_ || _); [done |]. destruct (_ && _); [| done]. unfold run_bound.
  destruct (bound_upload _ _ _ _) as [[staged device]|x|]; [| by destruct (write_range _ _ _) | done].
  destruct (_ ← _; _) as [device'|x|]; [| done | done].
  by destruct (bound_session _ _ _ _ _) as [[[dout hout] r]|x|].
Qed.

Lemma warm_buckets_good rt o e : onnx_good o e → onnx_good o (warm_buckets rt e).
Proof.
  unfold warm_buckets. generalize (ox_batch_buckets (oe_options e)) as l. intros l. revert e.
  induction l as [|b l IH]; intros e HG; simpl; [done |]. apply IH. unfold warm_one.
  destruct (b =? 0); [done |]. destruct (vec_fill _ _); [by apply onnx_run_good | done..].
Qed.

Lemma allocate_good rt o e e' :
  oe_options e = o → oe_io_binding_active e = false → ox_input_elems o = image_elems → 0 ≤ ox_output_elems o →
  0 ≤ capacity_rows o → capacity_rows o * image_elems ≤ vec_max_size → capacity_rows o * ox_output_elems o ≤ vec_max_size →
  allocate_device_buffers rt e = Ret e' → onnx_good o e'.
Proof.
  intros He Hact Hie Hoe Hcap H1 H2. unfold allocate_device_buffers. rewrite He, Hie. fold (capacity_rows o).
  assert (H0 : 0 ≤ image_elems) by done.
  unfold vec_max_size in *. rewrite (u64_mul_small _ image_elems), (u64_mul_small _ (ox_output_elems o)) by nia.
  rewrite !u64_mul_small, !Z.div_mul by nia. destruct (try_allocate _ _ _).2 as [[]|x|] eqn:Hta; [| | done | done].
  - intros [= <-]. split_and!; [done | done |]. simpl. intros _. unfold vec_size.
    rewrite length_replicate, !length_fmap, !length_seq. split_and!; nia.
  - apply try_allocate_false in Hta. intros [= <-]. split_and!; simpl; congruence.
Qed.

(** What a successful construction establishes. *)
Lemma onnx_constructed rt o e :
  ox_input_elems o = image_elems → 0 ≤ ox_output_elems o → 0 ≤ capacity_rows o →
  capacity_rows o * image_elems ≤ vec_max_size → capacity_rows o * ox_output_elems o ≤ vec_max_size →
  new_OnnxExecutionEngine rt o = Ret e →
  ox_model_path o ≠ ""%string ∧ is_sorted (ox_batch_buckets o) = true ∧ check_normalization o = Ret tt ∧
  (ox_require_cuda o = true → "CUDAExecutionProvider"%string ∈ ort_available rt) ∧ onnx_good o e.
Proof.
  intros Hie Hoe Hcap Hi Ho Hnew.
  unfold new_OnnxExecutionEngine in Hnew. destruct (String.eqb_spec (ox_model_path o) "") as [|Hm]; [done |].
  destruct (translate_ort_errors _ (ort_check (ort_load _ _))); simpl in Hnew; try done.
  destruct (ox_require_cuda o && _) eqn:Hcuda; [done |].
  destruct (is_sorted (ox_batch_buckets o)); simpl in Hnew; [| done].
  destruct (check_normalization o) as [[]|x|] eqn:Hck; simpl in Hnew; try done.
  destruct (translate_ort_errors _ (ort_check (ort_names _))); simpl in Hnew; try done.
  split_and!; try done.
  - intros Hreq. rewrite Hreq, andb_true_l in Hcuda. apply negb_false_iff, existsb_exists in Hcuda as (p & Hp & Heq).
    apply String.eqb_eq in Heq as <-. by apply list_elem_of_In.
  - destruct (ox_use_io_binding o) eqn:Hio; simpl in Hnew.
    + destruct (allocate_device_buffers _ _) as [e1|x|] eqn:Hal; simpl in Hnew; try done.
      eapply allocate_good in Hal; try done. destruct (ox_warm_buckets o); simplify_eq; [by apply warm_buckets_good | done].
    + set (e1 := {| oe_options := o |}) in Hnew. assert (HG : onnx_good o e1).
      { split_and!; simpl; try done. intros Hon. unfold check_normalization in Hck. by rewrite Hon, Hio in Hck. }
      destruct (ox_warm_buckets o); simplify_eq; [by apply warm_buckets_good | done].
Qed.

Lemma onnx_constructed_good rt o e :
  ox_input_elems o = image_elems → 0 ≤ ox_output_elems o → 0 ≤ capacity_rows o →
  capacity_rows o * image_elems ≤ vec_max_size → capacity_rows o * ox_output_elems o ≤ vec_max_size →
  new_OnnxExecutionEngine rt o = Ret e → onnx_good o e.
Proof. intros. by eapply onnx_constructed. Qed.

(** ** Properties *)

(** C23: the ONNX engine implements the engine interface, on both of its paths. For a
    model that treats the rows of a batch independently, a call on a batch of images
    returns, in order, the model's row of every request's own input (normalized first when
    the device does it), or throws, the latter only when the session or a CUDA call of the
    bound path failed: the padding up to the bucket, on the bound
    path also the rows earlier batches left behind it, never reaches a result. Every
    access stays inside the preallocated buffers. With device normalization the batch
    must not exceed the last bucket. *)
Theorem onnx_engine_meets_contract (rt : onnx_runtime) (model : list float → list float) (o : OnnxOptions)
  (max_rows : Z) (HS : SessionOk rt model (ox_output_elems o))
  (Hie : ox_input_elems o = image_elems) (Hoe : 0 ≤ ox_output_elems o)
  (Hsorted : is_sorted (ox_batch_buckets o) = true) (Hnorm : check_normalization o = Ret tt)
  (Hmi : Z.max max_rows (capacity_rows o) * image_elems ≤ vec_max_size)
  (Hmo : Z.max max_rows (capacity_rows o) * ox_output_elems o ≤ vec_max_size)
  (H31 : capacity_rows o < two31)
  (Hover : ox_normalize_on_device o = true →
           ∃ back, last (ox_batch_buckets o) = Some back ∧ max_rows ≤ back) :
  EngineContract OnnxExecutionEngine (H := onnx_IExecutionEngine rt) (onnx_good o) max_rows image_elems
    (ox_output_elems o) (onnx_row model o) (λ _, ¬ onnx_healthy rt).
Proof. by apply onnx_contract. Qed.



(** The padding is not zero. After a batch [old] was staged, uploading a smaller
    batch [new] padded to the same bucket sends the session the new rows followed by the
    remaining rows of [old]: the padded tail of the pinned buffer holds what earlier
    batches left there. *)
Theorem stale_rows_reach_session (rt : onnx_runtime) (o : OnnxOptions) (e : OnnxExecutionEngine)
  (old new : list (list float)) (staged1 device1 : list float)
  (HG : onnx_good o e) (Hact : oe_io_binding_active e = true) (Hie : ox_input_elems o = image_elems)
  (Hold : Forall (λ r, vec_size r = image_elems) old) (Hnew : Forall (λ r, vec_size r = image_elems) new)
  (Hn : vec_size new ≤ vec_size old ≤ capacity_rows o)
  (Hmax : capacity_rows o * image_elems ≤ vec_max_size)
  (Hok : ort_cuda rt (oe_calls e) BoundH2D = inl tt)
  (Hup : bound_upload rt e (concat old) (vec_size old) = Ret (staged1, device1)) :
  ∃ staged rest, bound_upload rt (with_buffers staged1 (oe_host_output e) device1 (oe_device_output e) e)
                   (concat new) (vec_size old) =
    Ret (staged, concat (new ++ drop (length new) old) ++ rest).
Proof.
  pose proof HG as (He & _ & Hbuf). destruct (Hbuf Hact) as (Hhi & Hdi & _ & _).
  pose proof (vec_size_nonneg new). assert (H0 : 0 ≤ image_elems) by done.
  destruct (bound_upload_size _ _ _ _ _ _ Hup) as [Hs1 Hs2]. unfold vec_max_size in Hmax.
  pose proof (vec_size_concat old image_elems H0 Hold) as Hco.
  pose proof (vec_size_concat new image_elems H0 Hnew) as Hcn.
  assert (Hb1 : vec_size new * image_elems ≤ vec_size old * image_elems) by (apply Z.mul_le_mono_nonneg_r; lia).
  assert (Hb2 : vec_size old * image_elems ≤ capacity_rows o * image_elems) by (apply Z.mul_le_mono_nonneg_r; lia).
  unfold bound_upload in Hup. rewrite write_range_Ret in Hup by lia. simpl in Hup. rewrite Hok in Hup. simpl in Hup.
  destruct (read_range _ _ _) as [ch|x|]; simpl in Hup; try done.
  destruct (write_range _ _ ch) as [dv|x|]; simpl in Hup; try done. injection Hup as Hst Hdv.
  set (behind := drop (length (concat old)) (oe_host_input e)) in *.
  assert (Hsplit : drop (length (concat new)) staged1 = concat (drop (length new) old) ++ behind).
  { rewrite <- Hst, <- (take_drop (length new) old) at 1. rewrite concat_app, <- app_assoc.
    assert (Hlen : length (concat (take (length new) old)) = length (concat new)).
    { assert (Hsz : vec_size (concat (take (length new) old)) = vec_size (take (length new) old) * image_elems).
      { apply vec_size_concat; [done |]. by apply Forall_take. }
      unfold vec_size in *. rewrite length_take in Hsz. nia. }
    rewrite <- Hlen. apply drop_app_length. }
  unfold bound_upload. simpl. rewrite He, Hie.
  rewrite write_range_Ret by lia. simpl. rewrite Hok, Hsplit. simpl.
  assert (Hall : vec_size (concat new ++ concat (drop (length new) old)) = vec_size old * image_elems).
  { rewrite <- concat_app, (vec_size_concat _ image_elems); [| done | apply Forall_app; split; [done | by apply Forall_drop]].
    f_equal. unfold vec_size in *. rewrite length_app, length_drop. lia. }
  rewrite app_assoc, u64_mul_small by lia.
  rewrite read_range_Ret by (rewrite ?vec_size_app in *; pose proof (vec_size_nonneg behind); lia).
  rewrite drop_0, <- Hall, to_nat_vec_size, take_app_length. simpl.
  rewrite write_range_Ret by lia. simpl. eexists _, _. rewrite concat_app. reflexivity.
Qed.

(** An oversize batch is served un-normalized. With device normalization configured
    and a batch larger than every bucket, the call takes the host path: the session is
    given the raw rows, and unless the runtime fails the result is the model's row of the
    un-normalized input. *)
Theorem oversize_batch_skips_normalization (rt : onnx_runtime) (model : list float → list float) (o : OnnxOptions)
  (e : OnnxExecutionEngine) (rows : list (list float))
  (HS : SessionOk rt model (ox_output_elems o)) (Hie : ox_input_elems o = image_elems)
  (Hoe : 0 ≤ ox_output_elems o) (HG : onnx_good o e) (Hsorted : is_sorted (ox_batch_buckets o) = true)
  (Hon : ox_normalize_on_device o = true)
  (Hbig : ∀ b, b ∈ ox_batch_buckets o → b < vec_size rows) (Hne : rows ≠ [])
  (Hr : Forall (λ r, vec_size r = image_elems) rows)
  (Hmi : vec_size rows * image_elems ≤ vec_max_size) (Hmo : vec_size rows * ox_output_elems o < two64) :
  (onnx_run_inference rt e (concat rows) (vec_size rows) image_elems (ox_output_elems o)).2 =
    Ret (concat (model <$> rows)) ∨
  thrown rt (onnx_run_inference rt e (concat rows) (vec_size rows) image_elems (ox_output_elems o)).2.
Proof.
  assert (HG1 : onnx_good o (count_call e)) by by destruct HG as (? & ? & ?). pose proof HG1 as (He & _ & _).
  assert (Hpos : 0 < vec_size rows) by (destruct rows; [done | unfold vec_size; simpl; lia]).
  assert (H0 : 0 < image_elems) by done. unfold vec_max_size in Hmi.
  pose proof (vec_size_concat rows image_elems ltac:(done) Hr) as Hc.
  apply is_sorted_spec in Hsorted as Hs.
  destruct (onnx_bucket_for_spec (ox_batch_buckets o) (vec_size rows) Hs) as (_ & Hin & _).
  assert (Hb : onnx_bucket_for (ox_batch_buckets o) (vec_size rows) = vec_size rows).
  { destruct Hin as [Hin|]; [| done]. specialize (Hbig _ Hin).
    destruct (onnx_bucket_for_spec (ox_batch_buckets o) (vec_size rows) Hs) as (Hle & _). lia. }
  unfold onnx_run_inference. rewrite He, Hie, Hc, u64_mul_small, !Z.eqb_refl by lia. simpl.
  rewrite (proj2 (Z.eqb_neq _ _)) by lia. rewrite Hb.
  assert (Hfit : match last (ox_batch_buckets o) with Some back => vec_size rows <=? back | None => false end = false).
  { destruct (last (ox_batch_buckets o)) as [back|] eqn:Hl; [| done]. apply last_Some_elem_of, Hbig in Hl.
    apply Z.leb_gt. lia. }
  rewrite Hfit, andb_false_r. simpl.
  by apply (run_host_spec rt model o).
Qed.

(** ** Witnesses: a model that returns the first two elements of each image *)

Definition demo_model (r : list float) : list float := take 2 r.

Definition demo_onnx_rt : onnx_runtime :=
  {| ort_load := λ _, inl tt; ort_available := ["CUDAExecutionProvider"; "CPUExecutionProvider"];
     ort_names := inl tt;
     ort_run := λ _ b data, inl (Some (concat (demo_model <$> slices (Z.to_nat b) (Z.to_nat image_elems) data)));
     ort_bound_message := "bound output"; ort_space_message := "not enough space";
     ort_answers := demo_buffer_answers 6; ort_heap := ∅; ort_streams := ∅; ort_cuda := λ _ _, inl tt; ort_order := λ _ ts, concat ts;
     ort_junk := λ _, f32_zero |}.

Lemma image_pos : 0 ≤ image_elems.
Proof. done. Qed.

#[export] Instance demo_session : SessionOk demo_onnx_rt demo_model 2.
Proof.
  split.
  - intros n rows Hr. left. simpl. rewrite to_nat_vec_size, slices_concat; [done |].
    by apply uniform_nat; [apply image_pos |].
  - intros r Hr. unfold demo_model, vec_size in *. rewrite length_take. unfold image_elems in Hr. lia.
  - intros n ts. apply interleaves_sequential.
Qed.

Definition demo_onnx_options (buckets : list Z) (normalize : bool) : OnnxOptions :=
  {| ox_model_path := "model.onnx"; ox_device_id := 0; ox_batch_buckets := buckets; ox_warm_buckets := true;
     ox_input_elems := image_elems; ox_output_elems := 2; ox_use_io_binding := true;
     ox_normalize_on_device := normalize; ox_mean := [f32_lit 1 1; f32_lit 2 1; f32_lit 3 1];
     ox_stddev := [f32_lit 2 1; f32_lit 2 1; f32_lit 2 1]; ox_require_cuda := true |}.

Definition demo_image (x : float) : list float := replicate (Z.to_nat image_elems) x.

Lemma demo_image_size x : vec_size (demo_image x) = image_elems.
Proof. apply vec_size_replicate, image_pos. Qed.

(** An engine whose buffers hold [n] images. *)
Definition demo_onnx (n : Z) (o : OnnxOptions) : OnnxExecutionEngine :=
  {| oe_options := o; oe_providers := []; oe_io_binding_active := true;
     oe_host_input := replicate (Z.to_nat (n * image_elems)) f32_zero;
     oe_host_output := replicate (Z.to_nat (n * 2)) f32_zero;
     oe_device_input := replicate (Z.to_nat (n * image_elems)) f32_zero;
     oe_device_output := replicate (Z.to_nat (n * 2)) f32_zero; oe_calls := 0 |}.

Lemma demo_onnx_good n buckets normalize :
  0 ≤ n → default 1 (last buckets) = n →
  onnx_good (demo_onnx_options buckets normalize) (demo_onnx n (demo_onnx_options buckets normalize)).
Proof.
  intros Hn Hl. split_and!; [done | done |]. intros _. unfold capacity_rows. simpl. rewrite Hl.
  pose proof image_pos. rewrite !vec_size_replicate by lia. done.
Qed.

Lemma onnx_engine_meets_contract_witness :
  EngineContract OnnxExecutionEngine (H := onnx_IExecutionEngine demo_onnx_rt)
    (onnx_good (demo_onnx_options [1; 4] true)) 4 image_elems 2 (onnx_row demo_model (demo_onnx_options [1; 4] true))
    (λ _, ¬ onnx_healthy demo_onnx_rt) ∧ onnx_healthy demo_onnx_rt.
Proof.
  split; [| done].
  refine (onnx_engine_meets_contract demo_onnx_rt demo_model (demo_onnx_options [1; 4] true) 4 demo_session
    eq_refl _ eq_refl _ _ _ _ _); try done; try by vm_compute.
  intros _. by exists 4.
Defined.


Lemma demo_rows_sized : Forall (λ r, vec_size r = image_elems) [demo_image (f32_lit 1 1)].
Proof. apply Forall_singleton, demo_image_size. Qed.


Definition demo_old : list (list float) := [demo_image (f32_lit 1 1); demo_image (f32_lit 2 1)].
Definition demo_new : list (list float) := [demo_image (f32_lit 3 1)].

Lemma demo_old_sized : Forall (λ r, vec_size r = image_elems) demo_old.
Proof. apply Forall_cons. split; [apply demo_image_size |]. apply Forall_singleton, demo_image_size. Qed.

Lemma demo_new_sized : Forall (λ r, vec_size r = image_elems) demo_new.
Proof. apply Forall_singleton, demo_image_size. Qed.

Definition ret_or {A} (d : A) (m : outcome A) : A := match m with Ret a => a | _ => d end.
Definition is_ret {A} (m : outcome A) : bool := match m with Ret _ => true | _ => false end.

Lemma is_ret_or {A} (d : A) (m : outcome A) : is_ret m = true → m = Ret (ret_or d m).
Proof. by destruct m. Qed.

Definition demo_upload : list float * list float :=
  ret_or ([], []) (bound_upload demo_onnx_rt (demo_onnx 2 (demo_onnx_options [2] false)) (concat demo_old) 2).

Lemma demo_upload_Ret :
  bound_upload demo_onnx_rt (demo_onnx 2 (demo_onnx_options [2] false)) (concat demo_old) (vec_size demo_old) =
    Ret (demo_upload.1, demo_upload.2).
Proof.
  change (vec_size demo_old) with 2. rewrite <- surjective_pairing. apply is_ret_or. vm_compute. reflexivity.
Qed.

Lemma stale_rows_reach_session_witness :
  ∃ staged rest, bound_upload demo_onnx_rt
      (with_buffers demo_upload.1 (replicate (Z.to_nat (2 * 2)) f32_zero) demo_upload.2
         (replicate (Z.to_nat (2 * 2)) f32_zero) (demo_onnx 2 (demo_onnx_options [2] false)))
      (concat demo_new) (vec_size demo_old) =
    Ret (staged, concat (demo_new ++ [demo_image (f32_lit 2 1)]) ++ rest).
Proof.
  exact (stale_rows_reach_session demo_onnx_rt (demo_onnx_options [2] false)
    (demo_onnx 2 (demo_onnx_options [2] false)) demo_old demo_new demo_upload.1 demo_upload.2
    (demo_onnx_good 2 [2] false ltac:(done) eq_refl) eq_refl eq_refl demo_old_sized demo_new_sized
    ltac:(done) ltac:(done) eq_refl demo_upload_Ret).
Defined.

Lemma oversize_batch_skips_normalization_witness :
  (onnx_run_inference demo_onnx_rt (demo_onnx 1 (demo_onnx_options [1] true)) (concat demo_old) 2 image_elems 2).2 =
    Ret (concat (demo_model <$> demo_old)).
Proof.
  assert (Hh : onnx_healthy demo_onnx_rt) by done.
  refine (or_ind (λ H, H) (λ H, False_ind _ (proj1 H Hh)) (oversize_batch_skips_normalization demo_onnx_rt demo_model (demo_onnx_options [1] true)
    (demo_onnx 1 (demo_onnx_options [1] true)) demo_old demo_session eq_refl _
    (demo_onnx_good 1 [1] true _ eq_refl) eq_refl eq_refl _ _ demo_old_sized _ _));
    [done | done | | done | done | done].
  intros b Hb. simpl in Hb. apply list_elem_of_singleton in Hb as ->. done.
Defined.

(** A model that returns the first thousand elements of each image. *)
Definition demo_logits (r : list float) : list float := take 1000 r.

Definition demo_logits_rt : onnx_runtime :=
  {| ort_load := λ _, inl tt; ort_available := ["CUDAExecutionProvider"];
     ort_names := inl tt;
     ort_run := λ _ b data, inl (Some (concat (demo_logits <$> slices (Z.to_nat b) (Z.to_nat image_elems) data)));
     ort_bound_message := "bound output"; ort_space_message := "not enough space";
     ort_answers := demo_buffer_answers 6; ort_heap := ∅; ort_streams := ∅; ort_cuda := λ _ _, inl tt; ort_order := λ _ ts, concat ts;
     ort_junk := λ _, f32_zero |}.

#[export] Instance demo_logits_session : SessionOk demo_logits_rt demo_logits 1000.
Proof.
  split.
  - intros n rows Hr. left. simpl. rewrite to_nat_vec_size, slices_concat; [done |].
    by apply uniform_nat; [apply image_pos |].
  - intros r Hr. unfold demo_logits, vec_size, image_elems in *. rewrite length_take. lia.
  - intros n ts. apply interleaves_sequential.
Qed.

Lemma demo_logits_healthy : onnx_healthy demo_logits_rt.
Proof. split; intros; discriminate. Qed.

(** Construction succeeds when no call fails. *)
Lemma demo_logits_built o :
  check_normalization o = Ret tt → String.eqb (ox_model_path o) "" = false → is_sorted (ox_batch_buckets o) = true →
  (try_allocate (demo_buffer_answers 6) o (new_Impl ∅ ∅)).2 = Ret true →
  ∃ e, new_OnnxExecutionEngine demo_logits_rt o = Ret e.
Proof.
  intros Hn Hp Hs Hta. unfold new_OnnxExecutionEngine. rewrite Hp. simpl. rewrite andb_false_r, Hs, Hn. simpl.
  destruct (ox_use_io_binding o); cbv beta iota delta [mbind outcome_bind]; [| by eexists].
  unfold allocate_device_buffers. change (oe_options _) with o. cbn [ort_answers ort_heap ort_streams demo_logits_rt].
  rewrite Hta. by eexists.
Qed.
