(* ===== verification/Binding.v ===== *)
(** * The Python binding

    [RuntimeConfig] and [InferenceRuntime] (src/cpp/src/bindings/module.cpp): the choice of
    the engine, the construction that starts the scheduler, and [predict], which any number
    of Python threads call concurrently, as steps of a transition system over the running
    scheduler; and end to end, the binding over the ONNX engine. The GIL is the subject of
    [PythonCalls]; the conversions of pybind11 are not modelled. *)

From Stdlib Require Import ZArith Lia.
From stdpp Require Import base numbers strings pretty relations gmap sorting list.
From S2P Require Import Prelude Machine Request RequestQueue Engine Scheduler System OnnxImpl OnnxEngine.

(** ** Configuration *)

Record RuntimeConfig := {
  rc_max_batch_size : Z;
  rc_max_wait_ms : Z;
  rc_input_elems : Z;
  rc_output_elems : Z;
  rc_model_path : string
}.

Definition default_RuntimeConfig : RuntimeConfig :=
  {| rc_max_batch_size := 8; rc_max_wait_ms := 5; rc_input_elems := 3 * 224 * 224;
     rc_output_elems := 1000; rc_model_path := "" |}.

(** [RuntimeConfig(...)] from Python; [None]: the argument is left out. *)
Definition RuntimeConfig_init (max_batch_size max_wait_ms input_elems output_elems : option Z)
    (model_path : option string) : RuntimeConfig :=
  {| rc_max_batch_size := default 8 max_batch_size; rc_max_wait_ms := default 5 max_wait_ms;
     rc_input_elems := default (3 * 224 * 224) input_elems; rc_output_elems := default 1000 output_elems;
     rc_model_path := default ""%string model_path |}.

Definition to_scheduler_config (config : RuntimeConfig) : SchedulerConfig :=
  {| max_batch_size := rc_max_batch_size config; max_wait := rc_max_wait_ms config;
     input_elems := rc_input_elems config; output_elems := rc_output_elems config |}.

(** ** The engine *)

(** [std::shared_ptr<IExecutionEngine>]: one of the two engines the binding can choose. *)
Definition AnyEngine : Type := StubExecutionEngine + OnnxExecutionEngine.

(** Calls dispatch on the engine; [build] is ONNX Runtime when the build has it
    ([CUDA_DB_ENABLE_ONNX]). *)
Definition any_run (build : option onnx_runtime) (e : AnyEngine) (input : list float)
    (batch_size input_elems output_elems : Z) : AnyEngine * outcome (list float) :=
  match e, build with
  | inl s, _ =>
      let '(s', o) := run_inference s input batch_size input_elems output_elems in (inl s', o)
  | inr x, Some rt =>
      let '(x', o) := onnx_run_inference rt x input batch_size input_elems output_elems in (inr x', o)
  | inr _, None => (e, Undefined)
  end.

Definition any_IExecutionEngine (build : option onnx_runtime) : IExecutionEngine AnyEngine := any_run build.

Definition no_onnx_error : exn :=
  RuntimeError ("model_path was set but this build has no ONNX Runtime support; " +:+
                "reconfigure with -DCUDA_DB_ENABLE_ONNX=ON").

(** The options of the ONNX engine: the model path, one bucket, defaults otherwise. *)
Definition engine_options (config : RuntimeConfig) : OnnxOptions :=
  {| ox_model_path := rc_model_path config;
     ox_device_id := ox_device_id default_OnnxOptions;
     ox_batch_buckets := [rc_max_batch_size config];
     ox_warm_buckets := ox_warm_buckets default_OnnxOptions;
     ox_input_elems := ox_input_elems default_OnnxOptions;
     ox_output_elems := ox_output_elems default_OnnxOptions;
     ox_use_io_binding := ox_use_io_binding default_OnnxOptions;
     ox_normalize_on_device := ox_normalize_on_device default_OnnxOptions;
     ox_mean := ox_mean default_OnnxOptions; ox_stddev := ox_stddev default_OnnxOptions;
     ox_require_cuda := ox_require_cuda default_OnnxOptions |}.

Definition make_engine (build : option onnx_runtime) (config : RuntimeConfig) : outcome AnyEngine :=
  if String.eqb (rc_model_path config) "" then Ret (inl stub_engine)
  else
    match build with
    | Some rt => e ← new_OnnxExecutionEngine rt (engine_options config); Ret (inr e)
    | None => Throw no_onnx_error
    end.

(** ** [InferenceRuntime] *)

Record InferenceRuntime (E : Type) := {
  ir_scheduler : sys E;
  ir_input_elems : Z;
  ir_engine_name : string;
  ir_next_request_id : Z
}.
Arguments ir_scheduler {E} _.
Arguments ir_input_elems {E} _.
Arguments ir_engine_name {E} _.
Arguments ir_next_request_id {E} _.

(** The constructor, once the engine is made: the scheduler is started at once. *)
Definition new_InferenceRuntime {E} (now : Z) (engine : E) (config : RuntimeConfig) : InferenceRuntime E :=
  {| ir_scheduler := start (new_scheduler now engine);
     ir_input_elems := rc_input_elems config;
     ir_engine_name := if String.eqb (rc_model_path config) "" then "stub" else "onnx";
     ir_next_request_id := 0 |}.

Definition with_scheduler {E} (s : sys E) (next : Z) (r : InferenceRuntime E) : InferenceRuntime E :=
  {| ir_scheduler := s; ir_input_elems := ir_input_elems r; ir_engine_name := ir_engine_name r;
     ir_next_request_id := next |}.

(** The local [request] of a [predict] call before [submit]; its promise has not been used
    yet and is named when it first is. *)
Record prepared := {
  pr_request_id : Z;
  pr_input_data : list float;
  pr_arrival_time : Z
}.

(** [predict] up to the release of the GIL: the size check, the id and the arrival time. *)
Definition predict_prepare {E} (input : list float) (r : InferenceRuntime E) :
  InferenceRuntime E * outcome prepared :=
  if negb (vec_size input =? ir_input_elems r)
  then (r, Throw (ValueError ("expected " +:+ pretty (ir_input_elems r) +:+ " input elements, got " +:+
                              pretty (vec_size input))))
  else
    (with_scheduler (ir_scheduler r) (u64_add (ir_next_request_id r) 1) r,
     Ret {| pr_request_id := ir_next_request_id r; pr_input_data := input;
            pr_arrival_time := qs_now (sy_core (ir_scheduler r)) |}).

Definition to_request (p : positive) (c : prepared) : InferenceRequest :=
  {| request_id := pr_request_id c; input_data := pr_input_data c; arrival_time := pr_arrival_time c;
     result_promise := p |}.

(** The call of [submit], without the GIL; [p] is the request's promise. *)
Definition predict_submit {E} (p : positive) (c : prepared) (r : InferenceRuntime E) :
  InferenceRuntime E * outcome InferenceRequest :=
  let '(s, o) := submit_step (to_request p c) (ir_scheduler r) in
  (with_scheduler s (ir_next_request_id r) r, _ ← o; Ret (to_request p c)).

(** [future.get()] and the returned tuple; [None] while the call blocks. *)
Definition predict_get (request : InferenceRequest) (ps : pstore) : option (outcome (Z * list float)) :=
  (λ o, result ← o; Ret (request_id request, logits result)) <$> future_get (result_promise request) ps.

(** [stats()]: the dictionary. The counters are read one by one ([cells i] is what the
    [i]-th read finds), the queue [q] is the one at the time of the last read. *)
Record stats_dict := {
  sd_engine : string;
  sd_total_batches : Z;
  sd_total_requests : Z;
  sd_max_batch_size_seen : Z;
  sd_queue_depth : Z;
  sd_avg_queue_wait_ms : double;
  sd_max_queue_wait_ms : double;
  sd_avg_exec_ms : double
}.

Definition runtime_stats {E} (cells : nat → SchedulerStats) (q : RequestQueue) (r : InferenceRuntime E) :
  stats_dict :=
  let snapshot := stats cells in
  {| sd_engine := ir_engine_name r; sd_total_batches := total_batches snapshot;
     sd_total_requests := total_requests snapshot;
     sd_max_batch_size_seen := max_batch_size_seen snapshot;
     sd_queue_depth := size q;
     sd_avg_queue_wait_ms := avg_queue_wait_ms snapshot; sd_max_queue_wait_ms := max_queue_wait_ms snapshot;
     sd_avg_exec_ms := avg_exec_ms snapshot |}.

(** ** The runtime in use *)

Section RuntimeSystem.
Context {E : Type} `{HE : IExecutionEngine E} (config : RuntimeConfig) (alloc_ok : nat → bool).

Abbreviation cfg := (to_scheduler_config config).

(** The runtime, the calls that have their request but have not submitted it yet, and the
    number of ids handed out so far. *)
Record rsys := {
  ry_runtime : InferenceRuntime E;
  ry_inflight : list prepared;
  ry_ids : Z
}.

Definition ry_init (now : Z) (e : E) : rsys :=
  {| ry_runtime := new_InferenceRuntime now e config; ry_inflight := []; ry_ids := 0 |}.

Definition ry_accepted (s : rsys) : list InferenceRequest :=
  qs_accepted (sy_core (ir_scheduler (ry_runtime s))).

(** Python threads prepare their requests and submit them in any order; the scheduler's
    threads, [shutdown] and [reset_stats] run as they can. Requests enter only through
    [predict]. *)
Inductive rstep : rsys → rsys → Prop :=
  | rs_prepare s input r' c : predict_prepare input (ry_runtime s) = (r', Ret c) →
      rstep s {| ry_runtime := r'; ry_inflight := c :: ry_inflight s; ry_ids := ry_ids s + 1 |}
  | rs_prepare_throws s input r' e : predict_prepare input (ry_runtime s) = (r', Throw e) →
      rstep s {| ry_runtime := r'; ry_inflight := ry_inflight s; ry_ids := ry_ids s |}
  | rs_submit s l1 c l2 p r' o : ry_inflight s = l1 ++ c :: l2 →
      sy_store (ir_scheduler (ry_runtime s)) !! p = None → predict_submit p c (ry_runtime s) = (r', o) →
      rstep s {| ry_runtime := r'; ry_inflight := l1 ++ l2; ry_ids := ry_ids s |}
  | rs_scheduler s y : sstep cfg alloc_ok (ir_scheduler (ry_runtime s)) y →
      qs_accepted (sy_core y) = ry_accepted s →
      rstep s {| ry_runtime := with_scheduler y (ir_next_request_id (ry_runtime s)) (ry_runtime s);
                 ry_inflight := ry_inflight s; ry_ids := ry_ids s |}.

Definition rreachable (good : E → Prop) : rsys → Prop :=
  reachable (λ s, ∃ now e, good e ∧ s = ry_init now e) rstep.

(** What the submission does to the scheduler. *)
Lemma predict_submit_cases p c (r r' : InferenceRuntime E) o :
  sy_store (ir_scheduler r) !! p = None → predict_submit p c r = (r', o) →
  sstep cfg alloc_ok (ir_scheduler r) (ir_scheduler r') ∧
  ir_next_request_id r' = ir_next_request_id r ∧ ir_input_elems r' = ir_input_elems r ∧
  (o = Ret (to_request p c) ∧
     qs_accepted (sy_core (ir_scheduler r')) = qs_accepted (sy_core (ir_scheduler r)) ++ [to_request p c] ∨
   o = Throw stopped_error ∧ qs_accepted (sy_core (ir_scheduler r')) = qs_accepted (sy_core (ir_scheduler r))).
Proof.
  intros Hp. unfold predict_submit.
  destruct (submit_step (to_request p c) (ir_scheduler r)) as [s o'] eqn:Hs.
  intros [= <- <-]. simpl. split; [change s with (s, o').1; rewrite <- Hs; by apply st_submit |].
  split; [done |]. split; [done |].
  unfold submit_step, submit, get_future, new_promise in Hs. rewrite lookup_insert_eq in Hs. simpl in Hs.
  destruct (push _ (to_request p c)) as [q [|]]; simpl in Hs; injection Hs as <- <-; simpl; [left | right]; done.
Qed.

Lemma predict_prepare_cases input (r r' : InferenceRuntime E) o :
  predict_prepare input r = (r', o) →
  ir_scheduler r' = ir_scheduler r ∧ ir_input_elems r' = ir_input_elems r ∧
  match o with
  | Ret c => vec_size (pr_input_data c) = ir_input_elems r ∧ pr_request_id c = ir_next_request_id r ∧
             ir_next_request_id r' = u64_add (ir_next_request_id r) 1
  | _ => ir_next_request_id r' = ir_next_request_id r
  end.
Proof.
  unfold predict_prepare. destruct (Z.eqb_spec (vec_size input) (ir_input_elems r)); by intros [= <- <-].
Qed.

Lemma rreachable_sreachable good s :
  rreachable good s → sreachable cfg alloc_ok good (ir_scheduler (ry_runtime s)).
Proof.
  revert s. apply (invariant_reachable _ _ (λ s, sreachable cfg alloc_ok good (ir_scheduler (ry_runtime s)))).
  - intros ? (now & e & He & ->). simpl. eapply reachable_step; [| by apply st_start].
    apply reachable_init. by exists now, e.
  - intros s s' Hr Hs. destruct Hs as [s input r' c Hc|s input r' e Hc|s l1 c l2 p r' o Hl Hp Hps|s y Hs _]; simpl.
    + by apply predict_prepare_cases in Hc as (-> & _).
    + by apply predict_prepare_cases in Hc as (-> & _).
    + apply predict_submit_cases in Hps as (Hs & _); [| done]. by eapply reachable_step.
    + by eapply reachable_step.
Qed.

(** The ids of all calls so far that are accepted or still to be submitted. *)
Definition used_ids (s : rsys) : list Z := (request_id <$> ry_accepted s) ++ (pr_request_id <$> ry_inflight s).

(** Every request has the configured size; ids are handed out once. *)
Definition ids_inv (s : rsys) : Prop :=
  ir_input_elems (ry_runtime s) = rc_input_elems config ∧ 0 ≤ ry_ids s ∧
  ir_next_request_id (ry_runtime s) = u64 (ry_ids s) ∧
  Forall (λ c, vec_size (pr_input_data c) = rc_input_elems config) (ry_inflight s) ∧
  Forall (well_sized cfg) (ry_accepted s) ∧
  (ry_ids s ≤ two64 → NoDup (used_ids s) ∧ Forall (λ i, i < ry_ids s) (used_ids s)).

Lemma ids_inv_prepare s input r' c :
  ids_inv s → predict_prepare input (ry_runtime s) = (r', Ret c) →
  ids_inv {| ry_runtime := r'; ry_inflight := c :: ry_inflight s; ry_ids := ry_ids s + 1 |}.
Proof.
  intros (Hie & Hn & Hid & Hf & Hws & Hs) (Hsch & Hie' & Hsz & Hc & Hnext)%predict_prepare_cases.
  unfold ids_inv, used_ids, ry_accepted in *. simpl. rewrite Hsch, Hie', Hnext, Hid, u64_add_u64.
  split; [done |]. split; [lia |]. split; [done |]. split; [constructor; [by rewrite Hsz | done] |].
  split; [done |]. intros Hmax. destruct Hs as [Hs1 Hs2]; [lia |].
  rewrite Hc, Hid, u64_id by (unfold is_u64; lia). rewrite <- Permutation_middle. split.
  - apply NoDup_cons. split; [| done]. intros Hin. rewrite Forall_forall in Hs2.
    specialize (Hs2 _ Hin). lia.
  - constructor; [lia |]. eapply Forall_impl; [exact Hs2 |]. simpl. lia.
Qed.

Lemma ids_inv_submit s l1 c l2 p r' o :
  ids_inv s → ry_inflight s = l1 ++ c :: l2 → sy_store (ir_scheduler (ry_runtime s)) !! p = None →
  predict_submit p c (ry_runtime s) = (r', o) →
  ids_inv {| ry_runtime := r'; ry_inflight := l1 ++ l2; ry_ids := ry_ids s |}.
Proof.
  intros (Hie & Hn & Hid & Hf & Hws & Hs) Hl Hp (_ & Hnext & Hie' & Hacc)%predict_submit_cases; [| done].
  rewrite Hl in Hf. apply Forall_app in Hf as [Hf1 [Hc Hf2]%Forall_cons].
  assert (Hu : used_ids s ≡ₚ pr_request_id c :: (request_id <$> ry_accepted s) ++ (pr_request_id <$> l1 ++ l2)).
  { unfold used_ids. rewrite Hl, !fmap_app, fmap_cons, <- Permutation_middle. by rewrite <- Permutation_middle. }
  unfold ids_inv. simpl. rewrite Hie', Hnext. split; [done |]. split; [done |]. split; [done |].
  split; [by apply Forall_app |]. setoid_rewrite Hu in Hs. unfold used_ids. unfold ry_accepted in *. simpl.
  destruct Hacc as [[_ ->]|[_ ->]].
  - split; [apply Forall_app; split; [done |]; by apply Forall_singleton |]. intros Hmax.
    rewrite fmap_app, <- (assoc_L (++)). simpl. rewrite <- Permutation_middle. by apply Hs.
  - split; [done |]. intros [Hs1 Hs2]%Hs. by apply NoDup_cons in Hs1 as [_ ?]; apply Forall_cons in Hs2 as [_ ?].
Qed.

Lemma ids_inv_reachable good s : rreachable good s → ids_inv s.
Proof.
  revert s. apply (invariant_reachable _ _ ids_inv).
  - intros ? (now & e & _ & ->). unfold ids_inv, used_ids. simpl.
    split_and!; [done | lia | done | constructor | constructor |]. intros _. split; constructor.
  - intros s s' HI Hs. destruct Hs as [s input r' c Hc|s input r' e Hc|s l1 c l2 p r' o Hl Hp Hps|s y _ Hacc].
    + by eapply ids_inv_prepare.
    + apply predict_prepare_cases in Hc as (Hsch & Hie & Hnext).
      unfold ids_inv, used_ids, ry_accepted in *. simpl. by rewrite Hsch, Hie, Hnext.
    + by eapply ids_inv_submit.
    + unfold ids_inv, used_ids, ry_accepted in *. simpl. by rewrite Hacc.
Qed.
End RuntimeSystem.
Arguments ry_runtime {E} _.
Arguments ry_inflight {E} _.
Arguments ry_ids {E} _.
Arguments ry_accepted {E} _.

(** ** The engine the binding makes *)

(** What one request's row becomes under a configuration. *)
Definition served_row (model : list float → list float) (config : RuntimeConfig) : list float → list float :=
  if String.eqb (rc_model_path config) "" then fit_row (rc_output_elems config)
  else onnx_row model (engine_options config).

Definition any_good (config : RuntimeConfig) (e : AnyEngine) : Prop :=
  match e with
  | inl _ => rc_model_path config = ""%string
  | inr x => rc_model_path config ≠ ""%string ∧ onnx_good (engine_options config) x
  end.

(** A configuration the runtime can serve: bounded sizes, and with a model the geometry
    the ONNX engine is built for. *)
Definition servable (config : RuntimeConfig) : Prop :=
  0 < rc_max_batch_size config < two31 ∧
  (0 ≤ rc_input_elems config ∧ rc_max_batch_size config * rc_input_elems config < two64) ∧
  (0 ≤ rc_output_elems config ∧ rc_max_batch_size config * rc_output_elems config ≤ vec_max_size) ∧
  (rc_model_path config ≠ ""%string → rc_input_elems config = image_elems ∧ rc_output_elems config = 1000).

(** The deployed configuration: a model path and the default geometry. *)
Lemma deployed_servable b w path :
  0 < default 8 b < two31 → path ≠ ""%string → servable (RuntimeConfig_init b w None None (Some path)).
Proof. intros Hb Hp. split; [done |]. unfold vec_max_size. simpl. split_and!; try lia. done. Qed.

Lemma deployed_row model b w path r :
  path ≠ ""%string → served_row model (RuntimeConfig_init b w None None (Some path)) r = model r.
Proof. intros Hp. unfold served_row. simpl. by destruct (String.eqb_spec path ""). Qed.

Section Made.
Context (rt : onnx_runtime) (model : list float → list float) `{HS : !SessionOk rt model 1000}.
Context (config : RuntimeConfig) (Hsv : servable config).

Lemma made_good e : make_engine (Some rt) config = Ret e → any_good config e.
Proof.
  destruct Hsv as (Hb & _ & _ & _). unfold make_engine.
  destruct (String.eqb_spec (rc_model_path config) "") as [Hp|Hp]; [by intros [= <-] |].
  destruct (new_OnnxExecutionEngine rt (engine_options config)) as [x|y|] eqn:Hnew; simpl; [| done | done].
  intros [= <-]. split; [done |].
  assert (Himg : image_elems = 150528) by reflexivity.
  eapply onnx_constructed_good; [reflexivity | done | .. | exact Hnew]; unfold capacity_rows, vec_max_size; simpl; lia.
Qed.

Lemma made_contract :
  EngineContract AnyEngine (H := any_IExecutionEngine (Some rt)) (any_good config) (rc_max_batch_size config)
    (rc_input_elems config) (rc_output_elems config) (served_row model config) (λ _, ¬ onnx_healthy rt).
Proof.
  destruct Hsv as (Hb & Hi & Ho & Hgeo). unfold served_row.
  destruct (String.eqb_spec (rc_model_path config) "") as [Hp|Hp].
  - assert (HC := stub_contract (rc_max_batch_size config) (rc_input_elems config) (rc_output_elems config)).
    destruct HC as [Hrow Hrun]; [lia | lia | lia | lia |]. split; [done |].
    intros [x|x] rows e' o Hg Hne Hn Hf Hr; [| by destruct Hg]. unfold run_inference, any_IExecutionEngine, any_run in Hr.
    destruct (run_inference x (concat rows) (vec_size rows) (rc_input_elems config) (rc_output_elems config))
      as [x' o'] eqn:Hx. injection Hr as <- <-.
    destruct (Hrun x rows x' o' I Hne Hn Hf Hx) as [_ [->|(y & _ & [])]]. split; [done | by left].
  - destruct (Hgeo Hp) as [-> ->]. assert (Himg : image_elems = 150528) by reflexivity.
    assert (Hcap : capacity_rows (engine_options config) = rc_max_batch_size config) by reflexivity.
    destruct (onnx_contract rt model (engine_options config) eq_refl ltac:(done) eq_refl eq_refl
      (rc_max_batch_size config)) as [Hrow Hrun]; [rewrite Hcap; unfold vec_max_size; simpl; lia.. | done |].
    split; [done |]. intros [x|x] rows e' o Hg Hne Hn Hf Hr; [done |]. destruct Hg as [_ Hg].
    unfold run_inference, any_IExecutionEngine, any_run in Hr.
    destruct (onnx_run_inference rt x _ _ _ _) as [x' o'] eqn:Hx. injection Hr as <- <-.
    destruct (Hrun x rows x' o' Hg Hne Hn Hf Hx) as [Hg' Ho']. done.
Qed.
End Made.

(** ** Own rows *)

(** What the future of an accepted request holds. *)
Lemma predict_own_answer (E : Type) (HE : IExecutionEngine E) (good : E → Prop) (max_rows : Z)
  (row : list float → list float) (errors : exn → Prop) (config : RuntimeConfig) (alloc_ok : nat → bool)
  (s : rsys (E := E)) (request : InferenceRequest)
  (HC : EngineContract E good max_rows (rc_input_elems config) (rc_output_elems config) row errors)
  (Hmax : 0 < rc_max_batch_size config ≤ max_rows) (Hoe : 0 ≤ rc_output_elems config)
  (Hfit : max_rows * rc_output_elems config < two64) (Hal : ∀ i, alloc_ok i = true)
  (Hr : rreachable config alloc_ok good s) (Hin : request ∈ ry_accepted s) :
  well_sized (to_scheduler_config config) request ∧
  match predict_get request (sy_store (ir_scheduler (ry_runtime s))) with
  | Some (Ret (id, out)) => id = request_id request ∧ out = row (input_data request)
  | Some (Throw x) => errors x
  | Some Undefined => False
  | None => request ∈ pending_list (ir_scheduler (ry_runtime s))
  end.
Proof.
  destruct (ids_inv_reachable config alloc_ok good s Hr) as (_ & _ & _ & _ & Hws & _).
  assert (Hsz : well_sized (to_scheduler_config config) request) by (rewrite Forall_forall in Hws; by apply Hws).
  split; [exact Hsz |]. apply rreachable_sreachable in Hr.
  destruct (sys_inv_reachable good max_rows row errors (to_scheduler_config config) alloc_ok Hmax Hoe Hfit Hal _ Hr)
    as [Hsplit _ Hdone Hpend _ _ _].
  unfold ry_accepted in Hin. rewrite <- Hsplit in Hin. unfold predict_get, future_get. apply elem_of_app in Hin as [Hin|Hin].
  - rewrite Forall_forall in Hdone. destruct (Hdone request Hin) as (f & Hf & Hres). unfold state_of in Hf. rewrite Hf.
    destruct f as [|v|e]; simpl in *; [done | by destruct Hres as [_ ->] |]. by rewrite decide_True in Hres.
  - unfold all_pending in Hpend. rewrite Forall_forall in Hpend. pose proof (Hpend request Hin) as Hp.
    unfold pending, state_of in Hp. by rewrite Hp.
Qed.

Lemma predict_own_row (E : Type) (HE : IExecutionEngine E) (good : E → Prop) (max_rows : Z)
  (row : list float → list float) (errors : exn → Prop) (config : RuntimeConfig) (alloc_ok : nat → bool)
  (s : rsys (E := E)) (request : InferenceRequest)
  (HC : EngineContract E good max_rows (rc_input_elems config) (rc_output_elems config) row errors)
  (Hmax : 0 < rc_max_batch_size config ≤ max_rows) (Hoe : 0 ≤ rc_output_elems config)
  (Hfit : max_rows * rc_output_elems config < two64) (Hal : ∀ i, alloc_ok i = true)
  (Hr : rreachable config alloc_ok good s) (Hn : ry_ids s ≤ two64) (Hin : request ∈ ry_accepted s) :
  vec_size (input_data request) = rc_input_elems config ∧
  NoDup ((request_id <$> ry_accepted s) ++ (pr_request_id <$> ry_inflight s)) ∧
  match predict_get request (sy_store (ir_scheduler (ry_runtime s))) with
  | Some (Ret (id, out)) => id = request_id request ∧ out = row (input_data request)
  | Some (Throw x) => errors x
  | Some Undefined => False
  | None => request ∈ pending_list (ir_scheduler (ry_runtime s))
  end.
Proof.
  destruct (predict_own_answer E HE good max_rows row errors config alloc_ok s request HC Hmax Hoe Hfit Hal Hr Hin)
    as [Hsz Hget].
  split; [exact Hsz |]. split; [| exact Hget]. by apply (ids_inv_reachable config alloc_ok good s Hr).
Qed.

(** ** Properties *)

(** C5: [predict] answers each caller with its own result. In every reachable state of
    the runtime, whatever the order in which Python threads take their ids and submit and
    however they interleave with the scheduler, every accepted call has the configured
    input size, no two calls share an id (for up to 2^64 calls), and a call whose future
    is ready returns its own id with the engine's row for its own input, or raises an
    exception of the engine; one whose future is not ready is still held by the scheduler. *)
Theorem predict_returns_own_row (E : Type) (HE : IExecutionEngine E) (good : E → Prop) (max_rows : Z)
  (row : list float → list float) (errors : exn → Prop) (config : RuntimeConfig) (alloc_ok : nat → bool)
  (s : rsys (E := E)) (request : InferenceRequest)
  (HC : EngineContract E good max_rows (rc_input_elems config) (rc_output_elems config) row errors)
  (Hmax : 0 < rc_max_batch_size config ≤ max_rows) (Hoe : 0 ≤ rc_output_elems config)
  (Hfit : max_rows * rc_output_elems config < two64) (Hal : ∀ i, alloc_ok i = true)
  (Hr : rreachable config alloc_ok good s) (Hn : ry_ids s ≤ two64) (Hin : request ∈ ry_accepted s) :
  vec_size (input_data request) = rc_input_elems config ∧
  NoDup ((request_id <$> ry_accepted s) ++ (pr_request_id <$> ry_inflight s)) ∧
  match predict_get request (sy_store (ir_scheduler (ry_runtime s))) with
  | Some (Ret (id, out)) => id = request_id request ∧ out = row (input_data request)
  | Some (Throw x) => errors x
  | Some Undefined => False
  | None => request ∈ pending_list (ir_scheduler (ry_runtime s))
  end.
Proof. by eapply predict_own_row. Qed.


(** A non-default geometry fails every request. [make_engine] does not pass
    [input_elems] and [output_elems] on to the ONNX engine; with a model path and any other
    geometry than 3 x 224 x 224 inputs and 1000 outputs, construction may succeed but every
    batch the scheduler runs is refused with the geometry error. *)
Theorem custom_geometry_fails_every_batch (rt : onnx_runtime) (config : RuntimeConfig) (e : OnnxExecutionEngine)
  (rows : list (list float)) (Hp : rc_model_path config ≠ ""%string)
  (He : make_engine (Some rt) config = Ret (inr e))
  (Hbad : rc_input_elems config ≠ 150528 ∨ rc_output_elems config ≠ 1000)
  (Hcap : 0 ≤ rc_max_batch_size config ∧ rc_max_batch_size config * 150528 ≤ vec_max_size)
  (Hne : rows ≠ []) (Hie : 0 ≤ rc_input_elems config) (Hin : vec_size rows * rc_input_elems config < two64)
  (Hr : Forall (λ r, vec_size r = rc_input_elems config) rows) :
  (any_run (Some rt) (inr e) (concat rows) (vec_size rows) (rc_input_elems config) (rc_output_elems config)).2 =
    Throw (InferenceError "run_inference called with input/output_elems that differ from the configured geometry").
Proof.
  unfold make_engine in He. destruct (String.eqb_spec (rc_model_path config) ""); [done |].
  destruct (new_OnnxExecutionEngine rt (engine_options config)) as [e1|x|] eqn:Hnew; simpl in He; simplify_eq.
  apply (onnx_constructed_good rt (engine_options config)) in Hnew as (Hopt & _);
    [| done | done | unfold capacity_rows, image_elems, vec_max_size in *; simpl; lia.. ].
  assert (Hpos : 0 < vec_size rows) by (destruct rows; [done | unfold vec_size; simpl; lia]).
  simpl. unfold onnx_run_inference. simpl. rewrite Hopt. simpl.
  rewrite (vec_size_concat rows _ Hie Hr), u64_mul_small, Z.eqb_refl by lia. simpl.
  rewrite (proj2 (Z.eqb_neq _ _)) by lia. change image_elems with 150528.
  destruct (Z.eqb_spec (rc_input_elems config) 150528), (Z.eqb_spec (rc_output_elems config) 1000); simpl;
    try done; destruct Hbad; contradiction.
Qed.

(** ** Witnesses *)

Definition demo_rc : RuntimeConfig :=
  {| rc_max_batch_size := 4; rc_max_wait_ms := 50; rc_input_elems := 1; rc_output_elems := 1; rc_model_path := "" |}.

Definition demo_req : InferenceRequest :=
  {| request_id := 0; input_data := [f32_lit 7 1]; arrival_time := 0; result_promise := 2%positive |}.

Definition demo_call : prepared :=
  {| pr_request_id := 0; pr_input_data := [f32_lit 7 1]; pr_arrival_time := 0 |}.

Abbreviation demo_rsys := (rsys (E := StubExecutionEngine)).

Definition demo_r0 : demo_rsys := ry_init demo_rc 0 stub_engine.
Definition demo_ra : demo_rsys :=
  {| ry_runtime := (predict_prepare [f32_lit 7 1] (ry_runtime demo_r0)).1; ry_inflight := [demo_call]; ry_ids := 1 |}.
Definition demo_r1 : demo_rsys :=
  {| ry_runtime := (predict_submit 2%positive demo_call (ry_runtime demo_ra)).1; ry_inflight := []; ry_ids := 1 |}.

Definition demo_then (f : sys StubExecutionEngine → sys StubExecutionEngine) (s : demo_rsys) : demo_rsys :=
  {| ry_runtime := with_scheduler (f (ir_scheduler (ry_runtime s))) (ir_next_request_id (ry_runtime s)) (ry_runtime s);
     ry_inflight := ry_inflight s; ry_ids := ry_ids s |}.

Definition demo_r2 := demo_then demo_run demo_r1.
Definition demo_r3 := demo_then (demo_tick 50000000) demo_r2.
Definition demo_r4 := demo_then demo_run demo_r3.
Definition demo_r5 := demo_then (begin_iteration demo_cfg [demo_req]) demo_r4.
Definition demo_r6 := demo_then (end_iteration demo_cfg (λ _, true) [demo_req] 50000000) demo_r5.

Lemma demo_then_step f s :
  sstep demo_cfg (λ _, true) (ir_scheduler (ry_runtime s)) (f (ir_scheduler (ry_runtime s))) →
  qs_accepted (sy_core (f (ir_scheduler (ry_runtime s)))) = ry_accepted s →
  rstep demo_rc (λ _, true) s (demo_then f s).
Proof. intros Hs Ha. by apply (rs_scheduler demo_rc (λ _, true)). Qed.

Lemma demo_r6_reachable : rreachable (E := StubExecutionEngine) demo_rc (λ _, true) (λ _, True) demo_r6.
Proof.
  exists demo_r0. split; [by exists 0, stub_engine |].
  apply (rtc_l _ _ demo_ra); [by apply (rs_prepare demo_rc _ demo_r0 [f32_lit 7 1]) |].
  apply (rtc_l _ _ demo_r1).
  { by apply (rs_submit demo_rc _ demo_ra [] demo_call [] 2%positive _ (Ret demo_req)). }
  apply (rtc_l _ _ demo_r2); [apply demo_then_step; [by apply st_worker, ws_wait | done] |].
  apply (rtc_l _ _ demo_r3); [apply demo_then_step; [by apply st_tick | done] |].
  apply (rtc_l _ _ demo_r4).
  { apply demo_then_step; [apply st_worker, ws_wait; vm_compute; reflexivity | done]. }
  apply (rtc_l _ _ demo_r5).
  { apply demo_then_step; [apply st_worker, ws_begin; vm_compute; reflexivity | vm_compute; reflexivity]. }
  apply rtc_once, demo_then_step; [apply st_worker, ws_end; vm_compute; reflexivity | vm_compute; reflexivity].
Qed.

Lemma predict_returns_own_row_witness :
  match predict_get demo_req (sy_store (ir_scheduler (ry_runtime demo_r6))) with
  | Some (Ret (id, out)) => id = 0 ∧ out = fit_row 1 [f32_lit 7 1]
  | Some (Throw _) => False
  | Some Undefined => False
  | None => demo_req ∈ pending_list (ir_scheduler (ry_runtime demo_r6))
  end.
Proof.
  refine (proj2 (proj2 (predict_returns_own_row StubExecutionEngine _ (λ _, True) 4 (fit_row 1) (λ _, False) demo_rc (λ _, true)
    demo_r6 demo_req (stub_contract 4 1 1 _ _ _ _) _ _ _ _ demo_r6_reachable _ _))); try done.
  vm_compute. by left.
Defined.

Definition demo_geometry : RuntimeConfig :=
  {| rc_max_batch_size := 1; rc_max_wait_ms := 5; rc_input_elems := 4; rc_output_elems := 2;
     rc_model_path := "model.onnx" |}.

Definition demo_geometry_engine : OnnxExecutionEngine :=
  warm_buckets demo_onnx_rt
    {| oe_options := engine_options demo_geometry; oe_providers := ort_available demo_onnx_rt;
       oe_io_binding_active := true;
       oe_host_input := replicate (Z.to_nat (u64_mul (u64_mul 1 image_elems) 4 / 4)) f32_zero;
       oe_host_output := ort_junk demo_onnx_rt <$> seq 0 (Z.to_nat (u64_mul (u64_mul 1 1000) 4 / 4));
       oe_device_input := ort_junk demo_onnx_rt <$> seq 0 (Z.to_nat (u64_mul (u64_mul 1 image_elems) 4 / 4));
       oe_device_output := ort_junk demo_onnx_rt <$> seq 0 (Z.to_nat (u64_mul (u64_mul 1 1000) 4 / 4)); oe_calls := 0 |}.

Lemma demo_geometry_made :
  make_engine (Some demo_onnx_rt) demo_geometry = Ret (inr demo_geometry_engine).
Proof.
  cbv beta iota delta [make_engine demo_geometry_engine new_OnnxExecutionEngine allocate_device_buffers].
  reflexivity.
Qed.

Lemma custom_geometry_fails_every_batch_witness :
  (any_run (Some demo_onnx_rt) (inr demo_geometry_engine)
     (concat [[f32_lit 1 1; f32_lit 2 1; f32_lit 3 1; f32_lit 4 1]]) 1 4 2).2 =
    Throw (InferenceError "run_inference called with input/output_elems that differ from the configured geometry").
Proof.
  refine (custom_geometry_fails_every_batch demo_onnx_rt demo_geometry demo_geometry_engine
    [[f32_lit 1 1; f32_lit 2 1; f32_lit 3 1; f32_lit 4 1]] _ demo_geometry_made _ _ _ _ _ _);
    [done | by left | done | done | done | done | by apply Forall_singleton].
Defined.

(** A runtime serving [demo_logits] that has accepted one image. *)
Definition demo_deployed : RuntimeConfig := RuntimeConfig_init (Some 2) None None None (Some "model.onnx"%string).

Lemma demo_deployed_made : ∃ e, make_engine (Some demo_logits_rt) demo_deployed = Ret e.
Proof.
  destruct (demo_logits_built (engine_options demo_deployed) eq_refl eq_refl eq_refl) as [e He].
  { vm_compute. reflexivity. }
  exists (inr e). unfold make_engine. simpl String.eqb. cbv iota. by rewrite He.
Qed.

