(* ===== verification/PythonCalls.v ===== *)
(** * Python threads, the GIL and the binding's calls

    The methods of [InferenceRuntime] as Python threads call them (src/cpp/src/bindings/
    module.cpp, the class and its registration): a thread runs Python code and enters a
    method only while it holds the global interpreter lock; [predict] and [shutdown] give
    the lock up while they block ([py::gil_scoped_release]) and take it again on the way
    out, by return or by exception; [__exit__] calls [shutdown] of the class and keeps it.
    The scheduler's own threads never need the lock.

    Each thread has its place in the call it makes ([call_pc]); [act] is what a thread
    inside a call does next, [pymove] adds the interpreter (threads appear, take and give
    up the lock between bytecodes, and make calls) and the scheduler's threads. [stats],
    [reset_stats] and [__enter__] do not block and run with the lock held.

    The theorems are about programs whose calls that stop the scheduler do not overlap
    ([pystep]: [pymove] with [stops_apart]). The binding does not enforce that
    ([shutdowns_can_overlap]) but relies on it: [Lifecycle] shows the race otherwise. *)

From Stdlib Require Import ZArith Lia.
From stdpp Require Import base numbers strings pretty relations gmap sorting list.
From S2P Require Import Prelude Machine Fairness Request RequestQueue Engine Scheduler System Liveness.
From S2P Require Import OnnxImpl OnnxEngine Binding.

(** ** Threads and the lock *)

(** Where a Python thread is: in Python code; in [predict] with its request made, after
    the lock was released, in [future.get()], leaving the block and waiting for the lock
    with the result or the exception, or returning it; inside [stop] (with or without the
    lock, before or after its first store); or waiting for the lock after [stop]. *)
Inductive call_pc :=
  | InPython
  | Prepared (c : prepared)
  | Submitting (c : prepared)
  | Blocked (c : prepared) (p : positive)
  | Reacquiring (c : prepared) (o : outcome (Z * list float))
  | Returning (c : prepared) (o : outcome (Z * list float))
  | InStop (held begun : bool)
  | StopReacquiring.

(** Places where the thread holds the lock, and those where it waits for it. *)
Definition holds_gil (pc : call_pc) : bool :=
  match pc with Prepared _ | Returning _ _ | InStop true _ => true | _ => false end.

Definition wants_gil (pc : call_pc) : bool :=
  match pc with InPython | Reacquiring _ _ | StopReacquiring => true | _ => false end.

(** The request a call carries until it is submitted. *)
Definition unsubmitted (pc : call_pc) : option prepared :=
  match pc with Prepared c | Submitting c => Some c | _ => None end.

Section Python.
Context {E : Type} `{HE : IExecutionEngine E} (config : RuntimeConfig) (alloc_ok : nat → bool).

Abbreviation cfg := (to_scheduler_config config).

Record pysys := {
  py_runtime : InferenceRuntime E;
  py_threads : gmap positive call_pc;
  py_gil : option positive
}.

Definition py_sched (s : pysys) : sys E := ir_scheduler (py_runtime s).

(** Thread [t] moves to [pc]; the runtime and the lock are then as given. *)
Definition goto (t : positive) (pc : call_pc) (r : InferenceRuntime E) (gil : option positive) (s : pysys) : pysys :=
  {| py_runtime := r; py_threads := <[t := pc]> (py_threads s); py_gil := gil |}.

Definition set_sched (y : sys E) (r : InferenceRuntime E) : InferenceRuntime E :=
  with_scheduler y (ir_next_request_id r) r.

(** The constructor has returned to the thread [main]. *)
Definition py_init (now : Z) (e : E) (main : positive) : pysys :=
  {| py_runtime := new_InferenceRuntime now e config; py_threads := {[main := InPython]}; py_gil := Some main |}.

(** ** Steps *)

(** What [predict] does after [submit]: wait for the future, or leave with the exception. *)
Definition after_submit (c : prepared) (p : positive) (o : outcome InferenceRequest) : call_pc :=
  match o with
  | Ret _ => Blocked c p
  | Throw x => Reacquiring c (Throw x)
  | Undefined => Reacquiring c Undefined
  end.

(** After [predict]'s checks: the request is made, or [ValueError] is raised. *)
Definition after_prepare (o : outcome prepared) : call_pc :=
  match o with Ret c => Prepared c | _ => InPython end.

(** A thread inside a call. *)
Inductive act (t : positive) (s : pysys) : pysys → Prop :=
  | act_release c : py_threads s !! t = Some (Prepared c) →
      act t s (goto t (Submitting c) (py_runtime s) None s)
  | act_submit c p r o : py_threads s !! t = Some (Submitting c) → sy_store (py_sched s) !! p = None →
      predict_submit p c (py_runtime s) = (r, o) →
      act t s (goto t (after_submit c p o) r (py_gil s) s)
  | act_get c p o : py_threads s !! t = Some (Blocked c p) →
      predict_get (to_request p c) (sy_store (py_sched s)) = Some o →
      act t s (goto t (Reacquiring c o) (py_runtime s) (py_gil s) s)
  | act_return c o : py_threads s !! t = Some (Returning c o) →
      act t s (goto t InPython (py_runtime s) (py_gil s) s)
  | act_stop_clear held : py_threads s !! t = Some (InStop held false) →
      act t s (goto t (InStop held true) (set_sched (stop_clear (py_sched s)) (py_runtime s)) (py_gil s) s)
  | act_stop_shutdown held : py_threads s !! t = Some (InStop held true) → sy_ctrl (py_sched s) = StopCleared →
      act t s (goto t (InStop held true) (set_sched (stop_shutdown (py_sched s)) (py_runtime s)) (py_gil s) s)
  | act_stop_return held : py_threads s !! t = Some (InStop held true) → join_ready (py_sched s) →
      act t s (goto t (if held then InPython else StopReacquiring)
                 (set_sched (stop_return (py_sched s)) (py_runtime s)) (py_gil s) s).

(** A waiting thread takes the free lock. *)
Definition acquired (pc : call_pc) : call_pc :=
  match pc with Reacquiring c o => Returning c o | _ => InPython end.

Inductive take_gil (t : positive) (s : pysys) : pysys → Prop :=
  | acquire_gil pc : py_threads s !! t = Some pc → wants_gil pc = true → py_gil s = None →
      take_gil t s (goto t (acquired pc) (py_runtime s) (Some t) s).

(** The interpreter takes the lock from a thread that runs Python code. *)
Inductive yield_gil (t : positive) (s : pysys) : pysys → Prop :=
  | yield_python : py_threads s !! t = Some InPython → py_gil s = Some t →
      yield_gil t s {| py_runtime := py_runtime s; py_threads := py_threads s; py_gil := None |}.

(** The scheduler's threads and time. *)
Inductive background (y : sys E) : sys E → Prop :=
  | bg_worker y' : worker_step cfg alloc_ok y y' → background y y'
  | bg_signal y' : signal_step y y' → background y y'
  | bg_tick d : 0 ≤ d →
      background y (with_core {| qs_queue := qs_queue (sy_core y); qs_now := qs_now (sy_core y) + d;
                                 qs_consumer := qs_consumer (sy_core y);
                                 qs_signals := qs_signals (sy_core y);
                                 qs_accepted := qs_accepted (sy_core y);
                                 qs_delivered := qs_delivered (sy_core y);
                                 qs_opened := qs_opened (sy_core y) |} y)
  | bg_spurious : sy_worker y = Looping → runnable (qs_now (sy_core y)) (qs_consumer (sy_core y)) = false →
      background y (with_core (run_consumer (max_batch_size cfg) (max_wait cfg) (sy_core y)) y).

(** All the steps of the program. Nothing in the binding keeps a thread from calling
    [shutdown] or [__exit__] while another one is inside [stop]. *)
Inductive pymove (s : pysys) : pysys → Prop :=
  | ps_act t s' : act t s s' → pymove s s'
  | ps_acquire t s' : take_gil t s s' → pymove s s'
  | ps_yield t s' : yield_gil t s s' → pymove s s'
  | ps_spawn t : py_threads s !! t = None → pymove s (goto t InPython (py_runtime s) (py_gil s) s)
  | ps_predict t input r o : py_threads s !! t = Some InPython → py_gil s = Some t →
      predict_prepare input (py_runtime s) = (r, o) →
      pymove s (goto t (after_prepare o) r (Some t) s)
  | ps_shutdown t : py_threads s !! t = Some InPython → py_gil s = Some t →
      pymove s (goto t (InStop false false) (py_runtime s) None s)
  | ps_exit t : py_threads s !! t = Some InPython → py_gil s = Some t →
      pymove s (goto t (InStop true false) (py_runtime s) (Some t) s)
  | ps_reset t i : py_threads s !! t = Some InPython → py_gil s = Some t →
      pymove s {| py_runtime := set_sched (with_stats (reset_store i (sy_stats (py_sched s))) (py_sched s)) (py_runtime s);
                  py_threads := py_threads s; py_gil := py_gil s |}
  | ps_background y : background (py_sched s) y →
      pymove s {| py_runtime := set_sched y (py_runtime s); py_threads := py_threads s; py_gil := py_gil s |}.

(** The user's part: no two threads are inside [stop] at the same time. Two that are race
    on [worker_] ([Lifecycle.overlapping_calls_break]), and the program has no meaning
    from there on. *)
Definition stops_apart (s : pysys) : Prop :=
  ∀ t u h b h' b', py_threads s !! t = Some (InStop h b) → py_threads s !! u = Some (InStop h' b') → t = u.

(** The steps of a program that keeps to it; the theorems below are about these. *)
Definition pystep (s s' : pysys) : Prop := pymove s s' ∧ stops_apart s'.

Definition pyreachable (good : E → Prop) : pysys → Prop :=
  reachable (λ s, ∃ now e main, good e ∧ s = py_init now e main) pystep.

(** ** Every step is one of the runtime's *)

Lemma background_sstep y y' : background y y' → sstep cfg alloc_ok y y' ∧ qs_accepted (sy_core y') = qs_accepted (sy_core y).
Proof.
  destruct (handover_closed (sy_core y)) as [_ Hh].
  destruct (run_closed (max_batch_size cfg) (max_wait cfg) (sy_core y)) as [_ Hr].
  destruct 1 as [y' Hs|y' Hs|d Hd|Hw Hn].
  - split; [by apply st_worker |]. destruct Hs as [y Hw Hr'|y d Hw Hd|y b t Hw]; [done | |].
    + unfold begin_iteration. destruct d; [by destruct (sy_running y) |].
      by destruct (validate _ _ _) as [[[|] ?]|?|].
    + unfold end_iteration. by destruct (execute_batch _ _ _ _ _ _ _ _) as [[? ?] [? []]].
  - split; [by apply st_signal | by destruct Hs].
  - split; [by apply st_tick | done].
  - split; [by apply st_spurious | done].
Qed.

(** The runtime behind the threads: the same runtime, with the calls not yet submitted. *)
Definition simulates (good : E → Prop) (s : pysys) (rs : rsys (E := E)) : Prop :=
  rreachable config alloc_ok good rs ∧ ry_runtime rs = py_runtime s ∧
  ry_inflight rs ≡ₚ map_values unsubmitted (py_threads s).

Lemma simulates_goto good s rs t pc pc' gil :
  simulates good s rs → py_threads s !! t = Some pc → unsubmitted pc' = unsubmitted pc →
  simulates good (goto t pc' (py_runtime s) gil s) rs.
Proof.
  intros (Hr & Hrt & Hin) Ht Hu. split_and!; [done | done |]. simpl.
  by rewrite map_values_update, Hu, <- map_values_delete.
Qed.

(** A step of the scheduler that accepts nothing new. *)
Lemma simulates_sched good s rs y :
  simulates good s rs → sstep cfg alloc_ok (py_sched s) y →
  qs_accepted (sy_core y) = qs_accepted (sy_core (py_sched s)) →
  ∃ rs', simulates good {| py_runtime := set_sched y (py_runtime s); py_threads := py_threads s; py_gil := py_gil s |} rs'.
Proof.
  intros (Hr & Hrt & Hin) Hs Ha. unfold py_sched in *. rewrite <- Hrt in Hs, Ha.
  eexists. split_and!; [eapply reachable_step; [exact Hr | by apply rs_scheduler] | simpl; by rewrite Hrt | done].
Qed.

Lemma simulates_stop good s rs y t pc pc' :
  simulates good s rs → sstep cfg alloc_ok (py_sched s) y →
  qs_accepted (sy_core y) = qs_accepted (sy_core (py_sched s)) →
  py_threads s !! t = Some pc → unsubmitted pc' = unsubmitted pc →
  ∃ rs', simulates good (goto t pc' (set_sched y (py_runtime s)) (py_gil s) s) rs'.
Proof.
  intros Hsim Hs Ha Ht Hu. destruct (simulates_sched good s rs y Hsim Hs Ha) as [rs' Hsim'].
  exists rs'. by apply (simulates_goto good _ rs' t pc pc' (py_gil s)) in Hsim'.
Qed.

Lemma simulates_submit good s rs t c p r o gil :
  simulates good s rs → py_threads s !! t = Some (Submitting c) →
  sy_store (py_sched s) !! p = None → predict_submit p c (py_runtime s) = (r, o) →
  ∃ rs', simulates good (goto t (after_submit c p o) r gil s) rs'.
Proof.
  intros (Hr & Hrt & Hin) Ht Hp Hs. pose proof Hin as Hin0. rewrite (map_values_delete _ t (Submitting c)) in Hin by done.
  assert (Hc : c ∈ ry_inflight rs) by (rewrite Hin; by left).
  apply list_elem_of_split in Hc as (l1 & l2 & Hl). unfold py_sched in *. rewrite <- Hrt in Hs, Hp.
  eexists. split_and!; [eapply reachable_step; [exact Hr | by eapply rs_submit] | done |].
  rewrite Hl in Hin. simpl in *. rewrite <- Permutation_middle in Hin. apply Permutation_cons_inv in Hin.
  rewrite map_values_update, Hin. by destruct o.
Qed.

Lemma simulates_prepare good s rs t input r o gil :
  simulates good s rs → py_threads s !! t = Some InPython → predict_prepare input (py_runtime s) = (r, o) →
  ∃ rs', simulates good (goto t (after_prepare o) r gil s) rs'.
Proof.
  intros (Hr & Hrt & Hin) Ht Hs. rewrite (map_values_delete _ t InPython) in Hin by done. rewrite <- Hrt in Hs.
  destruct o as [c|x|].
  - eexists. split_and!; [eapply reachable_step; [exact Hr | by eapply rs_prepare] | done |]. simpl.
    by rewrite map_values_update, Hin.
  - eexists. split_and!; [eapply reachable_step; [exact Hr | by eapply rs_prepare_throws] | done |]. simpl.
    by rewrite map_values_update, Hin.
  - exfalso. unfold predict_prepare in Hs. by destruct (negb _).
Qed.

(** ** The lock and the stopping thread *)

Record gil_inv (s : pysys) : Prop := {
  gi_holder t : py_gil s = Some t →
    ∃ pc, py_threads s !! t = Some pc ∧ (holds_gil pc = true ∨ pc = InPython);
  gi_held t pc : py_threads s !! t = Some pc → holds_gil pc = true → py_gil s = Some t
}.

Record stop_inv (s : pysys) : Prop := {
  sp_begun t held begun : py_threads s !! t = Some (InStop held begun) →
    if begun : bool then sy_ctrl (py_sched s) ≠ CtrlIdle else sy_ctrl (py_sched s) = CtrlIdle;
  sp_unique t u h b h' b' : py_threads s !! t = Some (InStop h b) → py_threads s !! u = Some (InStop h' b') → t = u;
  sp_ctrl : sy_ctrl (py_sched s) ≠ CtrlIdle → ∃ t held, py_threads s !! t = Some (InStop held true)
}.

(** A thread that goes from one place to another, with the lock following it. *)
Lemma gil_inv_goto s t pc r gil :
  gil_inv s →
  (gil = Some t → holds_gil pc = true ∨ pc = InPython) →
  (holds_gil pc = true → gil = Some t) →
  (gil = py_gil s ∨ (gil = None ∧ py_gil s = Some t) ∨ (gil = Some t ∧ py_gil s = None)) →
  gil_inv (goto t pc r gil s).
Proof.
  intros [Hh Hd] Hgt Hpc Hgil. split; simpl.
  - intros u Hu. destruct (decide (u = t)) as [->|Hne]; [exists pc; rewrite lookup_insert_eq; auto |].
    rewrite lookup_insert_ne by done. apply Hh. destruct Hgil as [->|[[-> ?]|[-> ?]]]; congruence.
  - intros u pu Hu Hpu. apply lookup_insert_Some in Hu as [[<- <-]|[Hne Hu]]; [by apply Hpc |].
    specialize (Hd u pu Hu Hpu). destruct Hgil as [->|[[-> ?]|[-> ?]]]; congruence.
Qed.

Lemma gil_inv_same s s' :
  gil_inv s → py_threads s' = py_threads s → py_gil s' = py_gil s → gil_inv s'.
Proof. intros [Hh Hd] Ht Hg. split; rewrite Ht, Hg; done. Qed.

Lemma gil_inv_step s s' : gil_inv s → pystep s s' → gil_inv s'.
Proof.
  intros HI [Hs _]. pose proof HI as [Hh Hd].
  assert (Hout : ∀ t pc, py_threads s !! t = Some pc → holds_gil pc = false → pc ≠ InPython → py_gil s ≠ Some t).
  { intros t pc Ht Hno Hne Hg. destruct (Hh t Hg) as (pc' & Ht' & Hpc).
    rewrite Ht in Ht'. injection Ht' as <-. rewrite Hno in Hpc. by destruct Hpc. }
  destruct Hs as [t s' Ha|t s' Ha|t s' Ha|t Ht|t input r o Ht Hg Hp|t Ht Hg|t Ht Hg|t i Ht Hg|y Hb].
  - destruct Ha as [c Ht|c p r o Ht Hf Hs|c p o Ht Ho|c o Ht|h Ht|h Ht Hc|h Ht Hj];
      apply gil_inv_goto; try done; try (by left); try (by right; left; auto); simpl.
    + right; left. split; [done |]. by eapply Hd.
    + intros Hg. by destruct (Hout t _ Ht eq_refl ltac:(done)).
    + by destruct o.
    + intros Hg. by destruct (Hout t _ Ht eq_refl ltac:(done)).
    + intros _. by right.
    + intros Hg. left. destruct h; [done |]. by destruct (Hout t _ Ht eq_refl ltac:(done)).
    + intros Hh'. by apply (Hd t _ Ht).
    + intros Hg. left. destruct h; [done |]. by destruct (Hout t _ Ht eq_refl ltac:(done)).
    + intros Hh'. by apply (Hd t _ Ht).
    + intros Hg. destruct h; [by right |]. by destruct (Hout t _ Ht eq_refl ltac:(done)).
    + by destruct h.
  - destruct Ha as [pc Ht Hw Hg]. apply gil_inv_goto; try done; [| by right; right].
    destruct pc; try done; simpl; auto.
  - destruct Ha as [Ht Hg]. split; simpl; [done |]. intros u pu Hu Hpu.
    pose proof (Hd u pu Hu Hpu) as Hg'. rewrite Hg in Hg'. injection Hg' as <-. rewrite Ht in Hu. by injection Hu as <-.
  - apply gil_inv_goto; try done; [| by left]. intros Hg. by right.
  - apply gil_inv_goto; try done; [| by left]. intros _. destruct o; simpl; auto.
  - apply gil_inv_goto; try done. by right; left.
  - apply gil_inv_goto; try done; [| by left]. by left.
  - by apply (gil_inv_same s).
  - by apply (gil_inv_same s).
Qed.

(** Only the calls of [stop] change the controlling thread's place. *)
Lemma background_ctrl y y' : background y y' → sy_ctrl y' = sy_ctrl y.
Proof.
  destruct 1 as [y' Hs|y' Hs|d Hd|Hw Hn]; try done; destruct Hs; simpl; by rewrite ?begin_ctrl, ?end_ctrl.
Qed.

Lemma predict_submit_ctrl p c (r r' : InferenceRuntime E) o :
  predict_submit p c r = (r', o) → sy_ctrl (ir_scheduler r') = sy_ctrl (ir_scheduler r).
Proof.
  unfold predict_submit, submit_step. destruct (submit _ _ _) as [[q ps] x]. by intros [= <- <-].
Qed.

(** A thread that is not and does not get inside [stop]. *)
Lemma stop_inv_goto s t pc r gil :
  stop_inv s → (∀ h b, py_threads s !! t ≠ Some (InStop h b)) → (∀ h b, pc ≠ InStop h b) →
  sy_ctrl (ir_scheduler r) = sy_ctrl (py_sched s) → stop_inv (goto t pc r gil s).
Proof.
  intros [Hb Hu Hc] Ht Hpc Hctrl. split; unfold py_sched in *; simpl; rewrite ?Hctrl.
  - intros u h b H. apply lookup_insert_Some in H as [[_ H]|[_ H]]; [by destruct (Hpc h b) | by apply (Hb u h)].
  - intros u v h b h' b' H1 H2. apply lookup_insert_Some in H1 as [[_ H1]|[_ H1]]; [by destruct (Hpc h b) |].
    apply lookup_insert_Some in H2 as [[_ H2]|[_ H2]]; [by destruct (Hpc h' b') | by eapply Hu].
  - intros H. destruct (Hc H) as (u & h & Hx). exists u, h. rewrite lookup_insert_ne; [done |]. intros ->.
    by destruct (Ht h true).
Qed.

(** The thread inside [stop] is alone there. *)
Lemma stop_inv_own s t h b pc r gil :
  stop_inv s → py_threads s !! t = Some (InStop h b) →
  match pc with
  | InStop _ b' => if b' then sy_ctrl (ir_scheduler r) ≠ CtrlIdle else sy_ctrl (ir_scheduler r) = CtrlIdle
  | _ => sy_ctrl (ir_scheduler r) = CtrlIdle
  end → stop_inv (goto t pc r gil s).
Proof.
  intros [Hb Hu Hc] Ht Hpc.
  assert (Hother : ∀ u h' b', <[t := pc]> (py_threads s) !! u = Some (InStop h' b') → u = t ∧ pc = InStop h' b').
  { intros u h' b' H. apply lookup_insert_Some in H as [[<- <-]|[Hne H]]; [done |].
    destruct Hne. by eapply Hu. }
  split; unfold py_sched; simpl.
  - intros u h' b' H. apply Hother in H as [_ ->]. done.
  - intros u v h1 b1 h2 b2 H1 H2. apply Hother in H1 as [-> _]. by apply Hother in H2 as [-> _].
  - intros H. destruct pc as [| | | | | |h' [|]|]; try done. exists t, h'. by rewrite lookup_insert_eq.
Qed.

Lemma stop_inv_enter s t h gil :
  stop_inv s → (∀ u h b, py_threads s !! u ≠ Some (InStop h b)) →
  stop_inv (goto t (InStop h false) (py_runtime s) gil s).
Proof.
  intros [Hb Hu Hc] Hn.
  assert (Hidle : sy_ctrl (py_sched s) = CtrlIdle).
  { destruct (sy_ctrl (py_sched s)) eqn:Hx; [done | ..];
      (destruct Hc as (u & h' & Hx'); [done | by destruct (Hn u h' true)]). }
  assert (Hother : ∀ u h' b', <[t := InStop h false]> (py_threads s) !! u = Some (InStop h' b') → u = t ∧ b' = false).
  { intros u h' b' H. apply lookup_insert_Some in H as [[<- [= <- <-]]|[Hne H]]; [done |]. by destruct (Hn u h' b'). }
  split; unfold py_sched; simpl.
  - intros u h' b' H. by apply Hother in H as [_ ->].
  - intros u v h1 b1 h2 b2 H1 H2. apply Hother in H1 as [-> _]. by apply Hother in H2 as [-> _].
  - done.
Qed.

Lemma entering_alone s t h b r gil :
  py_threads s !! t = Some InPython → stops_apart (goto t (InStop h b) r gil s) →
  ∀ u h' b', py_threads s !! u ≠ Some (InStop h' b').
Proof.
  intros Ht Hap u h' b' Hu. assert (Hne : t ≠ u) by congruence. apply Hne.
  apply (Hap t u h b h' b'); simpl; [apply lookup_insert_eq | by rewrite lookup_insert_ne].
Qed.

Lemma stop_inv_same s s' :
  stop_inv s → py_threads s' = py_threads s → sy_ctrl (py_sched s') = sy_ctrl (py_sched s) → stop_inv s'.
Proof. intros [Hb Hu Hc] Ht Hg. split; rewrite ?Ht, ?Hg; done. Qed.

Lemma stop_inv_step s s' : stop_inv s → pystep s s' → stop_inv s'.
Proof.
  intros HI [Hs Hap].
  destruct Hs as [t s' Ha|t s' Ha|t s' Ha|t Ht|t input r o Ht Hg Hp|t Ht Hg|t Ht Hg|t i Ht Hg|y Hb].
  - destruct Ha as [c Ht|c p r o Ht Hf Hs|c p o Ht Ho|c o Ht|h Ht|h Ht Hc|h Ht Hj];
      try (eapply stop_inv_own; [done | done |]; by try destruct h);
      apply stop_inv_goto; try done; try (by rewrite Ht).
    + by destruct o.
    + by apply predict_submit_ctrl in Hs.
  - destruct Ha as [pc Ht Hw Hg]. apply stop_inv_goto; try done; [| by destruct pc].
    intros h b. rewrite Ht. by intros [= ->].
  - destruct Ha. by apply (stop_inv_same s).
  - apply stop_inv_goto; try done. by rewrite Ht.
  - apply stop_inv_goto; try done; [by rewrite Ht | by destruct o |].
    apply predict_prepare_cases in Hp as (Hp & _). unfold py_sched. by rewrite Hp.
  - apply stop_inv_enter; [done |]. by eapply entering_alone.
  - apply stop_inv_enter; [done |]. by eapply entering_alone.
  - by apply (stop_inv_same s).
  - apply (stop_inv_same s); [done | done |]. by apply background_ctrl.
Qed.

(** ** The runtime's theorems apply *)

Definition py_accepted (s : pysys) : list InferenceRequest := qs_accepted (sy_core (py_sched s)).

Definition blocked_inv (s : pysys) : Prop :=
  ∀ t c p, py_threads s !! t = Some (Blocked c p) → to_request p c ∈ py_accepted s.

Lemma blocked_inv_goto s t pc r gil :
  blocked_inv s → (∀ x, x ∈ py_accepted s → x ∈ qs_accepted (sy_core (ir_scheduler r))) →
  match pc with Blocked c p => to_request p c ∈ qs_accepted (sy_core (ir_scheduler r)) | _ => True end →
  blocked_inv (goto t pc r gil s).
Proof.
  intros HB Hacc Hpc u c p H. simpl in H. apply lookup_insert_Some in H as [[_ ->]|[_ H]]; [done |].
  apply Hacc. by eapply HB.
Qed.

Lemma blocked_inv_step s s' : blocked_inv s → pystep s s' → blocked_inv s'.
Proof.
  intros HB [Hs _].
  destruct Hs as [t s' Ha|t s' Ha|t s' Ha|t Ht|t input r o Ht Hg Hp|t Ht Hg|t Ht Hg|t i Ht Hg|y Hb];
    try (by apply blocked_inv_goto).
  - destruct Ha as [c Ht|c p r o Ht Hf Hs|c p o Ht Ho|c o Ht|h Ht|h Ht Hc|h Ht Hj]; apply blocked_inv_goto; try done.
    + apply (predict_submit_cases config alloc_ok) in Hs as (_ & _ & _ & [[_ ->]|[_ ->]]); [| done | done].
      intros x Hx. apply elem_of_app. by left.
    + apply (predict_submit_cases config alloc_ok) in Hs as (_ & _ & _ & [[-> ->]|[-> _]]); [| done | done].
      simpl. apply elem_of_app. right. by left.
    + by destruct h.
  - destruct Ha as [pc Ht Hw Hg]. apply blocked_inv_goto; try done. by destruct pc.
  - destruct Ha. done.
  - apply predict_prepare_cases in Hp as (Hp & _). apply blocked_inv_goto; [done | by rewrite Hp | by destruct o].
  - exact HB.
  - apply background_sstep in Hb as [_ Hb]. intros t c p Ht. unfold py_accepted, py_sched in *. simpl in *.
    rewrite Hb. by eapply HB.
Qed.

Lemma simulates_step good s s' :
  stop_inv s → (∃ rs, simulates good s rs) → pystep s s' → ∃ rs, simulates good s' rs.
Proof.
  intros [Hbg _ _] [rs Hsim] [Hs _].
  destruct Hs as [t s' Ha|t s' Ha|t s' Ha|t Ht|t input r o Ht Hg Hp|t Ht Hg|t Ht Hg|t i Ht Hg|y Hb].
  - destruct Ha as [c Ht|c p r o Ht Hf Hs|c p o Ht Ho|c o Ht|h Ht|h Ht Hc|h Ht [Hc Hj]];
      try (exists rs; by eapply simulates_goto).
    + by eapply simulates_submit.
    + eapply simulates_stop; [done | apply st_stop_clear; exact (Hbg _ _ _ Ht) | done | done | done].
    + eapply simulates_stop; [done | by apply st_stop_shutdown | done | done | done].
    + eapply simulates_stop; [done | by apply st_stop_return | done | done | by destruct h].
  - destruct Ha as [pc Ht Hw Hg]. exists rs. eapply simulates_goto; [done | done | by destruct pc].
  - destruct Ha as [Ht Hg]. by exists rs.
  - exists rs. destruct Hsim as (Hr & Hrt & Hin). split_and!; [done | done |]. simpl. by rewrite map_values_insert.
  - by eapply simulates_prepare.
  - exists rs. by eapply simulates_goto.
  - exists rs. by eapply simulates_goto.
  - by eapply simulates_sched; [| apply st_reset |].
  - apply background_sstep in Hb as [Hb Ha]. by eapply simulates_sched.
Qed.

Record py_inv (good : E → Prop) (s : pysys) : Prop := {
  pi_gil : gil_inv s;
  pi_stop : stop_inv s;
  pi_sim : ∃ rs, simulates good s rs;
  pi_blocked : blocked_inv s
}.

Lemma py_inv_reachable good s : pyreachable good s → py_inv good s.
Proof.
  revert s. apply (invariant_reachable _ _ (py_inv good)).
  - intros ? (now & e & main & He & ->). split.
    + split; simpl; [intros t [= <-]; exists InPython; split; [by rewrite lookup_singleton_eq | by right] |].
      intros t pc Ht. apply lookup_singleton_Some in Ht as [_ <-]. done.
    + split; simpl; [| | done].
      * intros t h b Ht. apply lookup_singleton_Some in Ht as [_ Ht]. done.
      * intros t u h b h' b' Ht. apply lookup_singleton_Some in Ht as [_ Ht]. done.
    + exists (ry_init config now e). split_and!; [apply reachable_init; by exists now, e | done |]. simpl.
      unfold map_values. by rewrite map_to_list_singleton.
    + intros t c p Ht. simpl in Ht. apply lookup_singleton_Some in Ht as [_ Ht]. done.
  - intros s s' [H1 H2 H3 H4] Hs.
    split; [by eapply gil_inv_step | by eapply stop_inv_step | by eapply simulates_step | by eapply blocked_inv_step].
Qed.

Lemma py_sched_reachable good s : pyreachable good s → sreachable cfg alloc_ok good (py_sched s).
Proof.
  intros Hr. destruct (pi_sim _ _ (py_inv_reachable good s Hr)) as (rs & Hrs & Hrt & _).
  unfold py_sched. rewrite <- Hrt. by apply (rreachable_sreachable config).
Qed.
End Python.
Arguments pysys : clear implicits.
Arguments py_runtime {E} _.
Arguments py_threads {E} _.
Arguments py_gil {E} _.

(** ** Answers *)

Section Answers.
Context {E : Type} `{HE : IExecutionEngine E} (good : E → Prop) (max_rows : Z)
  (row : list float → list float) (errors : exn → Prop) (config : RuntimeConfig) (alloc_ok : nat → bool).
Context `{HC : !EngineContract E good max_rows (rc_input_elems config) (rc_output_elems config) row errors}.
Hypothesis Hmax : 0 < rc_max_batch_size config ≤ max_rows.
Hypothesis Hoe : 0 ≤ rc_output_elems config.
Hypothesis Hfit : max_rows * rc_output_elems config < two64.
Hypothesis Hal : ∀ i, alloc_ok i = true.

Abbreviation cfg := (to_scheduler_config config).
Abbreviation reach := (pyreachable config alloc_ok good).
Abbreviation step := (pystep config alloc_ok).

(** What a call of [predict] may come back with: its own id and row, an exception of the
    engine, or the exception of a stopped scheduler. *)
Definition answer (c : prepared) (o : outcome (Z * list float)) : Prop :=
  match o with
  | Ret (id, out) => id = pr_request_id c ∧ out = row (pr_input_data c)
  | Throw x => errors x ∨ x = stopped_error
  | Undefined => False
  end.

Definition answered (pc : call_pc) : Prop :=
  match pc with Reacquiring c o | Returning c o => answer c o | _ => True end.

Definition answers_inv (s : pysys E) : Prop := map_Forall (λ _, answered) (py_threads s).

Lemma answers_inv_step s s' : py_inv config alloc_ok good s → answers_inv s → step s s' → answers_inv s'.
Proof.
  intros [_ _ (rs & Hrs & Hrt & _) HB] HA [Hs _]. unfold answers_inv in *.
  destruct Hs as [t s' Ha|t s' Ha|t s' Ha|t Ht|t input r o Ht Hg Hp|t Ht Hg|t Ht Hg|t i Ht Hg|y Hb]; simpl;
    try done; try (by apply map_Forall_insert_2).
  - destruct Ha as [c Ht|c p r o Ht Hf Hs|c p o Ht Ho|c o Ht|h Ht|h Ht Hc|h Ht Hj]; simpl;
      apply map_Forall_insert_2; try done.
    + apply (predict_submit_cases config alloc_ok) in Hs as (_ & _ & _ & [[-> _]|[-> _]]); [done | | done]. by right.
    + pose proof (HB t c p Ht) as Hin. unfold py_accepted, py_sched in Hin, Ho. rewrite <- Hrt in Hin, Ho.
      destruct (predict_own_answer E HE good max_rows row errors config alloc_ok rs (to_request p c) HC Hmax Hoe Hfit Hal
        Hrs Hin) as [_ Hget].
      rewrite Ho in Hget. destruct o as [[id out]|x|]; simpl in *; [done | by left | done].
    + by destruct h.
  - destruct Ha as [pc Ht Hw Hg]. simpl. apply map_Forall_insert_2; [| done]. apply HA in Ht. by destruct pc.
  - by destruct Ha.
  - apply map_Forall_insert_2; [by destruct o | done].
Qed.

Lemma answers_reachable s : reach s → answers_inv s.
Proof.
  apply (invariant_reachable_strong _ _ (py_inv config alloc_ok good)).
  - apply py_inv_reachable.
  - intros ? (now & e & main & _ & ->). unfold answers_inv. simpl. by apply map_Forall_singleton.
  - intros s1 s2 HI _ HA Hs. by eapply answers_inv_step.
Qed.

(** ** Threads move by their own steps *)

Lemma thread_moves t pc s s' :
  step s s' → py_threads s !! t = Some pc → pc ≠ InPython →
  py_threads s' !! t = Some pc ∨ act t s s' ∨ take_gil t s s'.
Proof.
  intros [Hs _] Ht Hpc.
  assert (Hother : ∀ u pc' r gil, u ≠ t → py_threads (goto u pc' r gil s) !! t = Some pc)
    by (intros; simpl; by rewrite lookup_insert_ne).
  destruct Hs as [u s' Ha|u s' Ha|u s' Ha|u Hu|u input r o Hu Hg Hp|u Hu Hg|u Hu Hg|u i Hu Hg|y Hb];
    try (left; apply Hother; congruence); try (by left).
  - destruct (decide (u = t)) as [->|Hne]; [by right; left | left]. destruct Ha; by apply Hother.
  - destruct (decide (u = t)) as [->|Hne]; [by right; right | left]. destruct Ha; by apply Hother.
  - left. by destruct Ha.
Qed.

(** The lock passes from hand to hand only through being free. *)
Lemma gil_moves u s s' : step s s' → py_gil s = Some u → py_gil s' = Some u ∨ py_gil s' = None.
Proof.
  intros [Hs _] Hg. destruct Hs as [t s' Ha|t s' Ha|t s' Ha|t Ht|t input r o Ht Hg' Hp|t Ht Hg'|t Ht Hg'|t i Ht Hg'|y Hb];
    simpl; try (by left); try (by right); try (left; congruence).
  - destruct Ha; simpl; auto.
  - destruct Ha; congruence.
  - destruct Ha. by right.
Qed.

(** Seen from the scheduler, every step is one of its own or none. *)
Lemma pystep_sched s s' :
  stop_inv s → step s s' → sstep cfg alloc_ok (py_sched s) (py_sched s') ∨ py_sched s' = py_sched s.
Proof.
  intros [Hbg _ _] [Hs _]. unfold py_sched in *.
  destruct Hs as [t s' Ha|t s' Ha|t s' Ha|t Ht|t input r o Ht Hg Hp|t Ht Hg|t Ht Hg|t i Ht Hg|y Hb]; simpl; try (by right).
  - destruct Ha as [c Ht|c p r o Ht Hf Hs|c p o Ht Ho|c o Ht|h Ht|h Ht Hc|h Ht [Hc Hj]]; simpl; try (by right); left.
    + by apply (predict_submit_cases config alloc_ok) in Hs as (Hs & _).
    + apply st_stop_clear. exact (Hbg _ _ _ Ht).
    + by apply st_stop_shutdown.
    + by apply st_stop_return.
  - destruct Ha. by right.
  - destruct Ha. by right.
  - apply predict_prepare_cases in Hp as (-> & _). by right.
  - left. apply st_reset.
  - left. by apply background_sstep in Hb as [Hb _].
Qed.

(** ** Fair runs *)

(** The scheduler's threads are scheduled fairly, notifications arrive and time passes; a
    Python thread inside a call gets its turn; the interpreter takes the lock from running
    Python code again and again, and a thread that waits for a lock that is free again and
    again gets it. *)
Record fair_python (e : nat → pysys E) : Prop := {
  fp_exec : execution step e;
  fp_worker : weakly_fair (worker_step cfg alloc_ok) (λ n, py_sched (e n));
  fp_signal : weakly_fair signal_step (λ n, py_sched (e n));
  fp_clock : diverges (λ y, qs_now (sy_core y)) (λ n, py_sched (e n));
  fp_act t : weakly_fair (act t) e;
  fp_yield t : strongly_fair (yield_gil t) e;
  fp_acquire t : strongly_fair (take_gil t) e
}.

Section Run.
Context (e : nat → pysys E) (Hf : fair_python e) (H0 : reach (e 0%nat)).

Lemma py_run_reach n : reach (e n).
Proof. eapply execution_reachable; [apply Hf | done]. Qed.

Lemma py_run_inv n : py_inv config alloc_ok good (e n).
Proof. apply py_inv_reachable, py_run_reach. Qed.

Lemma sched_fair : fair_run cfg alloc_ok (λ n, py_sched (e n)).
Proof.
  split; [| apply Hf..]. intros n. destruct (fp_exec e Hf n) as [Hs|Hs]; [| right; by rewrite Hs].
  apply pystep_sched; [apply py_run_inv | done].
Qed.

Lemma sched_start : sreachable cfg alloc_ok good (py_sched (e 0%nat)).
Proof. by apply py_sched_reachable. Qed.

Definition at_pc (t : positive) (pc : call_pc) (s : pysys E) : Prop := py_threads s !! t = Some pc.

(** A place a thread leaves only by its own action. *)
Lemma act_unless t pc Q :
  pc ≠ InPython → wants_gil pc = false →
  (∀ s s', py_inv config alloc_ok good s → at_pc t pc s → act t s s' → at_pc t pc s' ∨ Q s') →
  unless e (at_pc t pc) Q.
Proof.
  intros Hpc Hw Hact. apply (execution_unless step (py_inv config alloc_ok good) e (fp_exec e Hf) py_run_inv).
  intros s s' Hs _ Ht Hst. destruct (thread_moves t pc s s' Hst Ht Hpc) as [?|[Ha|Ha]]; [by left | by apply (Hact s) |].
  destruct Ha as [pc' Ht' Hw' _]. unfold at_pc in Ht. congruence.
Qed.

(** A place where the action is always possible is left. *)
Lemma act_leads_to t pc Q :
  pc ≠ InPython → wants_gil pc = false →
  (∀ s, py_inv config alloc_ok good s → at_pc t pc s → ∃ s', act t s s') →
  (∀ s s', py_inv config alloc_ok good s → at_pc t pc s → act t s s' → Q s') →
  leads_to e (at_pc t pc) Q.
Proof.
  intros Hpc Hw Hen Hact.
  apply (ensures_leads_to step (py_inv config alloc_ok good) e (fp_exec e Hf) py_run_inv (act t) _ _ (fp_act e Hf t) Hen).
  - intros s s' Hs _ Ht Ha. by eapply Hact.
  - intros s s' Hs _ Ht Hst. destruct (thread_moves t pc s s' Hst Ht Hpc) as [?|[Ha|Ha]]; [by left | right; by eapply Hact |].
    destruct Ha as [pc' Ht' Hw' _]. unfold at_pc in Ht. congruence.
Qed.

Ltac act_cases Ht Ha :=
  unfold at_pc in *; destruct Ha; simplify_eq; simpl in *; rewrite ?lookup_insert_eq; eauto.

Lemma prepared_leads_to t c : leads_to e (at_pc t (Prepared c)) (at_pc t (Submitting c)).
Proof.
  apply act_leads_to; [done | done | |].
  - intros s _ Ht. eexists. by apply act_release.
  - intros s s' _ Ht Ha. act_cases Ht Ha.
Qed.

Lemma submitting_leads_to t c :
  leads_to e (at_pc t (Submitting c)) (λ s, (∃ p, at_pc t (Blocked c p) s) ∨ (∃ o, at_pc t (Reacquiring c o) s)).
Proof.
  apply act_leads_to; [done | done | |].
  - intros s _ Ht. set (p := fresh (dom (sy_store (py_sched s)))).
    destruct (predict_submit p c (py_runtime s)) as [r o] eqn:Hs. eexists. eapply act_submit; [exact Ht | | exact Hs].
    apply not_elem_of_dom, is_fresh.
  - intros s s' _ Ht Ha. act_cases Ht Ha. destruct o; simpl; eauto.
Qed.

Lemma returning_leads_to t c o : leads_to e (at_pc t (Returning c o)) (at_pc t InPython).
Proof.
  apply act_leads_to; [done | done | |].
  - intros s _ Ht. eexists. by eapply act_return.
  - intros s s' _ Ht Ha. act_cases Ht Ha.
Qed.

(** The worker was started by the constructor. *)
Lemma py_started n : sy_worker (py_sched (e n)) ≠ NotStarted.
Proof.
  assert (H : ∀ s, reach s → sy_worker (py_sched s) ≠ NotStarted).
  { apply (invariant_reachable_strong _ _ (py_inv config alloc_ok good)).
    - apply py_inv_reachable.
    - by intros ? (now & x & main & _ & ->).
    - intros s s' HI _ Hw Hs. destruct (pystep_sched s s' (pi_stop _ _ _ _ HI) Hs) as [Hs'| ->]; [| done].
      by eapply started_step. }
  apply H, py_run_reach.
Qed.

(** A blocked call: its future becomes ready for good, and [get] returns. *)
Lemma blocked_leads_to t c p : leads_to e (at_pc t (Blocked c p)) (λ s, ∃ o, at_pc t (Reacquiring c o) s).
Proof.
  assert (HU : unless e (at_pc t (Blocked c p)) (λ s, ∃ o, at_pc t (Reacquiring c o) s)).
  { apply act_unless; [done | done |]. intros s s' _ Ht Ha. act_cases Ht Ha. }
  intros n Hn. pose proof (pi_blocked _ _ _ _ (py_run_inv n) t c p Hn) as Hin.
  destruct (request_answered E HE good max_rows row errors cfg alloc_ok (λ n, py_sched (e n)) n (to_request p c) HC
    Hmax Hoe Hfit Hal sched_fair sched_start (py_started n) Hin) as (m & f & Hm & Hres & Hst).
  destruct (unless_until e _ _ n m HU Hn Hm) as [Hb|(k & Hk & HQ)]; [| exists k; split; [lia | done]].
  destruct (fp_act e Hf t m) as (k & Hk & Hact).
  destruct (unless_until e _ _ m k HU Hb Hk) as [Hb'|(j & Hj & HQ)]; [| exists j; split; [lia | done]].
  destruct Hact as [Ha|Hno].
  - exists (S k). split; [lia |]. act_cases Hb' Ha.
  - assert (Hget : ∃ o, predict_get (to_request p c) (sy_store (py_sched (e k))) = Some o).
    { specialize (Hst k Hk). simpl in Hst. unfold predict_get, future_get, state_of in *. simpl in *. rewrite Hst.
      destruct f; simpl in *; [done | eauto..]. }
    destruct Hget as [o Ho]. edestruct Hno. by eapply act_get.
Qed.

(** *** Stopping *)

(** Where a thread goes on when [stop] has returned. *)
Definition after_stop (held : bool) : call_pc := if held then InPython else StopReacquiring.

Lemma in_stop_unless t held : unless e (at_pc t (InStop held true)) (at_pc t (after_stop held)).
Proof.
  apply act_unless; [by destruct held | by destruct held |]. intros s s' _ Ht Ha. act_cases Ht Ha.
Qed.

Lemma act_in_stop t held s s' :
  at_pc t (InStop held true) s → act t s s' → ctrl_step (py_sched s) (py_sched s').
Proof.
  unfold at_pc. intros Ht Ha. destruct Ha; simplify_eq; [by apply ct_shutdown | by apply ct_return].
Qed.

(** The thread inside [stop] gets its turn, so the controlling steps of the scheduler are
    taken. *)
Lemma ctrl_fair : weakly_fair ctrl_step (λ n, py_sched (e n)).
Proof.
  intros n. set (enabled k := sy_ctrl (py_sched (e k)) = StopCleared ∨ join_ready (py_sched (e k))).
  assert (Hdec : enabled n ∨ ∀ y', ¬ ctrl_step (py_sched (e n)) y').
  { unfold enabled. destruct (sy_ctrl (py_sched (e n))) eqn:Hc; [right | by left; left |].
    - intros y' Hy. destruct Hy as [z Hz|z [Hz _]]; congruence.
    - destruct (decide (joined (py_sched (e n)))) as [Hj|Hj]; [by left; right | right].
      intros y' Hy. destruct Hy as [z Hz|z [_ Hz]]; [congruence | done]. }
  destruct Hdec as [Hen|Hno]; [| by exists n; auto].
  assert (Hni : ∀ k, enabled k → sy_ctrl (py_sched (e k)) ≠ CtrlIdle) by (intros k [Hc|[Hc _]]; by rewrite Hc).
  destruct (sp_ctrl _ (pi_stop _ _ _ _ (py_run_inv n)) (Hni n Hen)) as (t & held & Ht).
  assert (HP : ∀ k, at_pc t (InStop held true) (e k) ∧ enabled k →
    (at_pc t (InStop held true) (e (S k)) ∧ enabled (S k)) ∨ ctrl_step (py_sched (e k)) (py_sched (e (S k)))).
  { intros k [Hpc Hc]. destruct (fp_exec e Hf k) as [Hs|Hs]; [| left; unfold enabled; by rewrite Hs].
    destruct (thread_moves t _ _ _ Hs Hpc) as [Hpc'|[Ha|[pc' Hpc' Hw _]]]; [done | | right; by eapply act_in_stop |].
    2: { unfold at_pc in Hpc. rewrite Hpc in Hpc'. by injection Hpc' as <-. }
    destruct (pystep_sched _ _ (pi_stop _ _ _ _ (py_run_inv k)) Hs) as [Hs'|Hs']; [| left; unfold enabled; by rewrite Hs'].
    destruct (ctrl_unless cfg alloc_ok _ _ (Hni k Hc) Hs') as [|[Hk Hj]]; [by right | left]. split; [done |].
    destruct Hc as [Hc|[Hc Hd]]; [left | right; split; [| auto]]; by rewrite Hk. }
  destruct (fp_act e Hf t n) as (m & Hm & Hact).
  destruct (persists _ _ n m HP (conj Ht Hen) Hm) as [[Hpc Hen']|(k & Hk & Hc)]; [| exists k; split; [lia | by left]].
  exists m. split; [done |]. left. destruct Hact as [Ha|Hno]; [by eapply act_in_stop |]. exfalso.
  destruct Hen' as [Hc|Hj]; [by eapply Hno, act_stop_shutdown | by eapply Hno, act_stop_return].
Qed.

Lemma in_stop_leads_to t held begun : leads_to e (at_pc t (InStop held begun)) (at_pc t (after_stop held)).
Proof.
  assert (Htrue : leads_to e (at_pc t (InStop held true)) (at_pc t (after_stop held))).
  { intros n Hn. pose proof (sp_begun _ (pi_stop _ _ _ _ (py_run_inv n)) t held true Hn) as Hc. simpl in Hc.
    destruct (stop_leads_to good max_rows row errors cfg alloc_ok Hmax Hoe Hfit Hal _ sched_fair sched_start ctrl_fair n Hc)
      as (m & Hm & Hidle & _).
    destruct (unless_until e _ _ n m (in_stop_unless t held) Hn Hm) as [Hpc|(k & Hk & HQ)]; [| exists k; split; [lia | done]].
    by destruct (sp_begun _ (pi_stop _ _ _ _ (py_run_inv m)) t held true Hpc). }
  destruct begun; [done |]. etrans; [| exact Htrue]. apply act_leads_to; [done | done | |].
  - intros s _ Ht. eexists. by apply act_stop_clear.
  - intros s s' _ Ht Ha. act_cases Ht Ha.
Qed.

(** *** The lock is always given up again *)

Lemma gil_freed n : ∃ m, (n ≤ m)%nat ∧ py_gil (e m) = None.
Proof.
  destruct (py_gil (e n)) as [u|] eqn:Hg; [| by exists n].
  assert (HU : unless e (λ s, py_gil s = Some u) (λ s, py_gil s = None)).
  { intros k Hk. destruct (fp_exec e Hf k) as [Hs| ->]; [| by left]. by eapply gil_moves. }
  destruct (fp_yield e Hf u n) as (m & Hm & Hy).
  destruct (unless_until e _ _ n m HU Hg Hm) as [Hg'|(k & Hk & HQ)]; [| exists k; split; [lia | done]].
  destruct Hy as [Hy|Hno].
  { exists (S m). split; [lia |]. by destruct Hy. }
  (* from [m] on the holder is never in Python code with the lock *)
  assert (Hpy : ∀ pc, leads_to e (at_pc u pc) (at_pc u InPython) → at_pc u pc (e m) → ∃ k, (n ≤ k)%nat ∧ py_gil (e k) = None).
  { intros pc Hl Hpc. destruct (Hl m Hpc) as (k & Hk & Hin).
    destruct (unless_until e _ _ m k HU Hg' Hk) as [Hgk|(j & Hj & HQ)]; [| exists j; split; [lia | done]].
    edestruct Hno; [exact Hk |]. by apply yield_python. }
  destruct (gi_holder _ (pi_gil _ _ _ _ (py_run_inv m)) u Hg') as (pc & Hpc & Hholds).
  destruct pc as [|c| | | |c o|held begun|]; try (destruct Hholds; discriminate).
  - by apply (Hpy InPython).
  - destruct (prepared_leads_to u c m Hpc) as (k & Hk & Hsub).
    destruct (unless_until e _ _ m k HU Hg' Hk) as [Hgk|(j & Hj & HQ)]; [| exists j; split; [lia | done]].
    destruct (gi_holder _ (pi_gil _ _ _ _ (py_run_inv k)) u Hgk) as (pc & Hpc' & Hh). unfold at_pc in Hsub.
    rewrite Hsub in Hpc'. injection Hpc' as <-. by destruct Hh.
  - by apply (Hpy (Returning c o)); [apply returning_leads_to |].
  - destruct held; [| by destruct Hholds]. by apply (Hpy (InStop true begun)); [apply (in_stop_leads_to u true) |].
Qed.

(** A thread that waits for the lock gets it. *)
Lemma acquire_leads_to t pc :
  pc ≠ InPython → wants_gil pc = true → leads_to e (at_pc t pc) (λ s, at_pc t (acquired pc) s ∧ py_gil s = Some t).
Proof.
  intros Hpc Hw.
  assert (HU : unless e (at_pc t pc) (λ s, at_pc t (acquired pc) s ∧ py_gil s = Some t)).
  { intros k Hk. destruct (fp_exec e Hf k) as [Hs| ->]; [| by left].
    destruct (thread_moves t pc _ _ Hs Hk Hpc) as [?|[Ha|Ha]]; [by left | |].
    - exfalso. unfold at_pc in Hk. destruct Ha; simplify_eq.
    - right. unfold at_pc in *. destruct Ha; simplify_eq. simpl. by rewrite lookup_insert_eq. }
  intros n Hn. destruct (fp_acquire e Hf t n) as (m & Hm & Ha).
  destruct (unless_until e _ _ n m HU Hn Hm) as [Hpc'|(k & Hk & HQ)]; [| exists k; split; [lia | done]].
  destruct Ha as [Ha|Hno].
  - exists (S m). split; [lia |]. unfold at_pc in *. destruct Ha; simplify_eq. simpl. by rewrite lookup_insert_eq.
  - destruct (gil_freed m) as (k & Hk & Hg).
    destruct (unless_until e _ _ m k HU Hpc' Hk) as [Hpck|(j & Hj & HQ)]; [| exists j; split; [lia | done]].
    edestruct Hno; [exact Hk |]. by eapply acquire_gil.
Qed.

(** A call of [predict] that has made its request. *)
Definition in_predict (t : positive) (c : prepared) (s : pysys E) : Prop :=
  at_pc t (Prepared c) s ∨ at_pc t (Submitting c) s ∨ (∃ p, at_pc t (Blocked c p) s) ∨ (∃ o, at_pc t (Reacquiring c o) s).

Lemma predict_leads_to t c :
  leads_to e (in_predict t c) (λ s, ∃ o, at_pc t (Returning c o) s ∧ py_gil s = Some t).
Proof.
  assert (H4 : leads_to e (λ s, ∃ o, at_pc t (Reacquiring c o) s) (λ s, ∃ o, at_pc t (Returning c o) s ∧ py_gil s = Some t)).
  { apply leads_to_exists. intros o. etrans; [by apply acquire_leads_to |]. apply leads_to_impl. eauto. }
  assert (H3 : leads_to e (λ s, ∃ p, at_pc t (Blocked c p) s) (λ s, ∃ o, at_pc t (Returning c o) s ∧ py_gil s = Some t)).
  { apply leads_to_exists. intros p. etrans; [apply blocked_leads_to | exact H4]. }
  assert (H2 : leads_to e (at_pc t (Submitting c)) (λ s, ∃ o, at_pc t (Returning c o) s ∧ py_gil s = Some t)).
  { etrans; [apply submitting_leads_to |]. by apply leads_to_or. }
  unfold in_predict. repeat apply leads_to_or; try done. etrans; [apply prepared_leads_to | exact H2].
Qed.
End Run.
End Answers.

(** ** Runs that end in idling

    For the witnesses: a finite run after which the worker has exited, nothing is under way
    and one thread is left, in Python code, is continued for ever: the lock is free, taken,
    free again, and time passes. Such a run is fair. *)

(** A program with one thread keeps its calls of [stop] apart. *)
Section Alone.
Context {E : Type} `{HE : IExecutionEngine E} (config : RuntimeConfig) (alloc_ok : nat → bool).

Definition alone (s : pysys E) : Prop := ∃ pc, py_threads s = {[1%positive := pc]}.

Lemma alone_goto s pc r gil : alone s → alone (goto 1%positive pc r gil s).
Proof. intros [pc' Hs]. exists pc. simpl. by rewrite Hs, insert_singleton_eq. Qed.

Lemma alone_same s s' : alone s → py_threads s' = py_threads s → alone s'.
Proof. intros [pc Hs] Heq. exists pc. by rewrite Heq. Qed.

Lemma alone_step s s' : pymove config alloc_ok s s' → alone s' → pystep config alloc_ok s s'.
Proof.
  intros Hm [pc Hs]. split; [done |]. intros t u h b h' b'. rewrite Hs.
  by intros [<- _]%lookup_singleton_Some [<- _]%lookup_singleton_Some.
Qed.
End Alone.

Section Idling.
Context {E : Type} `{HE : IExecutionEngine E} (config : RuntimeConfig) (alloc_ok : nat → bool).
Context (path : list (pysys E)) (last : pysys E).

Definition pass_time (d : Z) (y : sys E) : sys E :=
  with_core {| qs_queue := qs_queue (sy_core y); qs_now := qs_now (sy_core y) + d;
               qs_consumer := qs_consumer (sy_core y); qs_signals := qs_signals (sy_core y);
               qs_accepted := qs_accepted (sy_core y); qs_delivered := qs_delivered (sy_core y);
               qs_opened := qs_opened (sy_core y) |} y.

Definition idle (gil : option positive) (d : Z) : pysys E :=
  {| py_runtime := set_sched (pass_time d (py_sched last)) (py_runtime last); py_threads := py_threads last;
     py_gil := gil |}.

Definition idle_at (q r : nat) : pysys E := idle (if decide (r = 1%nat) then Some 1%positive else None) (Z.of_nat q).

Definition idling (n : nat) : pysys E :=
  match path !! n with
  | Some s => s
  | None => idle_at ((n - length path) / 3) ((n - length path) mod 3)
  end.

Abbreviation step := (pystep config alloc_ok).

Hypothesis Hpath : ∀ n s s', path !! n = Some s → path !! S n = Some s' → pymove config alloc_ok s s'.
Hypothesis Hlast : ∀ s, path !! pred (length path) = Some s → pymove config alloc_ok s (idle None 0).
Hypothesis Halone : Forall alone path.
Hypothesis Hthread : py_threads last = {[1%positive := InPython]}.
Hypothesis Hexited : sy_worker (py_sched last) = Exited.
Hypothesis Hsilent : qs_signals (sy_core (py_sched last)) = 0%nat.

Lemma idling_cycle q r : (r < 3)%nat → idling (length path + (3 * q + r)) = idle_at q r.
Proof.
  intros Hr. unfold idling. rewrite lookup_ge_None_2 by lia.
  replace (length path + (3 * q + r) - length path)%nat with (r + q * 3)%nat by lia.
  by rewrite Nat.div_add, Nat.Div0.mod_add, Nat.div_small, Nat.mod_small by lia.
Qed.

Lemma cycle_index n : (length path ≤ n)%nat → ∃ q r, (r < 3)%nat ∧ n = (length path + (3 * q + r))%nat.
Proof.
  intros Hn. exists ((n - length path) / 3)%nat, ((n - length path) mod 3)%nat.
  split; [by apply Nat.mod_upper_bound |]. pose proof (Nat.div_mod_eq (n - length path) 3). lia.
Qed.

Lemma idle_yield d : yield_gil 1%positive (idle (Some 1%positive) d) (idle None d).
Proof. apply (yield_python 1%positive (idle (Some 1%positive) d)); [exact (f_equal (.!! 1%positive) Hthread) | done]. Qed.

Lemma idle_acquire d : take_gil 1%positive (idle None d) (idle (Some 1%positive) d).
Proof.
  replace (idle (Some 1%positive) d) with
    (goto 1%positive (acquired InPython) (py_runtime (idle None d)) (Some 1%positive) (idle None d)).
  - apply acquire_gil; [exact (f_equal (.!! 1%positive) Hthread) | done | done].
  - unfold goto, idle. simpl. by rewrite Hthread.
Qed.

Lemma pass_time_twice d d' y : pass_time d' (pass_time d y) = pass_time (d + d') y.
Proof. destruct y as [[] ? ? ? ? ? ? ?]. unfold pass_time, with_core. simpl. by rewrite Z.add_assoc. Qed.

Lemma idle_alone gil d : alone (idle gil d).
Proof. by exists InPython. Qed.

Lemma idle_tick d : step (idle None d) (idle None (d + 1)).
Proof.
  apply alone_step; [| apply idle_alone]. unfold idle. rewrite <- pass_time_twice. apply (ps_background config alloc_ok (idle None d)). by apply bg_tick.
Qed.

Lemma idling_runs : execution step idling.
Proof.
  intros n. left. destruct (le_lt_dec (length path) n) as [Hn|Hn].
  - apply cycle_index in Hn as (q & r & Hr & ->). rewrite idling_cycle by done.
    destruct r as [|[|[|r]]]; [| | | lia].
    + replace (S (length path + (3 * q + 0)))%nat with (length path + (3 * q + 1))%nat by lia.
      rewrite idling_cycle by lia. apply alone_step; [| apply idle_alone]. apply (ps_acquire config alloc_ok _ 1%positive), idle_acquire.
    + replace (S (length path + (3 * q + 1)))%nat with (length path + (3 * q + 2))%nat by lia.
      rewrite idling_cycle by lia. apply alone_step; [| apply idle_alone]. apply (ps_yield config alloc_ok _ 1%positive), idle_yield.
    + replace (S (length path + (3 * q + 2)))%nat with (length path + (3 * S q + 0))%nat by lia.
      rewrite idling_cycle by lia. unfold idle_at. simpl decide. cbv iota. rewrite Nat2Z.inj_succ. apply idle_tick.
  - destruct (lookup_lt_is_Some_2 path n Hn) as [s Hs]. destruct (path !! S n) as [s'|] eqn:Hs'.
    + unfold idling. rewrite Hs, Hs'. apply alone_step; [by eapply Hpath |].
      exact (proj1 (Forall_lookup _ _) Halone _ _ Hs').
    + apply lookup_ge_None_1 in Hs'. assert (Hnl : n = pred (length path)) by lia.
      replace (S n) with (length path + (3 * 0 + 0))%nat by lia. rewrite idling_cycle by lia.
      unfold idling. rewrite Hs. apply alone_step; [| apply idle_alone]. apply Hlast. by rewrite <- Hnl.
Qed.

Lemma idling_disabled (act : pysys E → pysys E → Prop) :
  (∀ gil d s', ¬ act (idle gil d) s') → weakly_fair act idling.
Proof.
  intros Hno n. exists (length path + (3 * n + 0))%nat. split; [lia |]. right. rewrite idling_cycle by lia. apply Hno.
Qed.

Lemma idling_sched_disabled (act : sys E → sys E → Prop) :
  (∀ d y', ¬ act (pass_time d (py_sched last)) y') → weakly_fair act (λ n, py_sched (idling n)).
Proof.
  intros Hno n. exists (length path + (3 * n + 0))%nat. split; [lia |]. right. rewrite idling_cycle by lia. apply Hno.
Qed.

(** Threads other than [1] do not exist in the end. *)
Lemma idle_no_thread t gil d pc : t ≠ 1%positive → py_threads (idle gil d) !! t ≠ Some pc.
Proof. intros Hne. simpl. by rewrite Hthread, lookup_singleton_ne by done. Qed.

(** An action that one of the moments of the cycle takes, or that no thread can take. *)
Lemma idling_strongly_fair t (act : pysys E → pysys E → Prop) r :
  (r < 3)%nat →
  (t = 1%positive → ∀ q, act (idling (length path + (3 * q + r))) (idling (S (length path + (3 * q + r))))) →
  (t ≠ 1%positive → ∀ gil d s', ¬ act (idle gil d) s') → strongly_fair act idling.
Proof.
  intros Hr Htake Hno n. destruct (decide (t = 1%positive)) as [Ht|Ht].
  - exists (length path + (3 * n + r))%nat. split; [lia |]. left. by apply Htake.
  - exists (length path + (3 * n + 0))%nat. split; [lia |]. right. intros k Hk.
    destruct (cycle_index k) as (q & r' & Hr' & ->); [lia |]. rewrite idling_cycle by done. by apply Hno.
Qed.

Lemma idling_fair : fair_python config alloc_ok idling.
Proof.
  split.
  - apply idling_runs.
  - apply idling_sched_disabled. intros d y' Hy. remember (pass_time d (py_sched last)) as y eqn:Hyd.
    assert (sy_worker y = Exited) by by rewrite Hyd. destruct Hy; congruence.
  - apply idling_sched_disabled. intros d y' Hy. remember (pass_time d (py_sched last)) as y eqn:Hyd.
    assert (qs_signals (sy_core y) = 0%nat) by by rewrite Hyd. destruct Hy; congruence.
  - intros n t. set (k := Nat.max n (Z.to_nat (t - qs_now (sy_core (py_sched last))))).
    exists (length path + (3 * k + 0))%nat. split; [lia |]. rewrite idling_cycle by lia.
    change (t ≤ qs_now (sy_core (py_sched last)) + Z.of_nat k). lia.
  - intros t. apply idling_disabled. intros gil d s' Ha.
    assert (Hth : py_threads (idle gil d) = {[1%positive := InPython]}) by exact Hthread.
    destruct Ha as [c Ht|c p r o Ht|c p o Ht|c o Ht|h Ht|h Ht|h Ht]; rewrite Hth in Ht;
      by apply lookup_singleton_Some in Ht as [_ Ht].
  - intros t. apply (idling_strongly_fair t _ 1); [lia | |].
    + intros -> q. replace (S (length path + (3 * q + 1)))%nat with (length path + (3 * q + 2))%nat by lia.
      rewrite !idling_cycle by lia. apply idle_yield.
    + intros Hne gil d s' [Ht _]. by eapply idle_no_thread.
  - intros t. apply (idling_strongly_fair t _ 0); [lia | |].
    + intros -> q. replace (S (length path + (3 * q + 0)))%nat with (length path + (3 * q + 1))%nat by lia.
      rewrite !idling_cycle by lia. apply idle_acquire.
    + intros Hne gil d s' [pc Ht _ _]. by eapply idle_no_thread.
Qed.
End Idling.

(** ** Properties *)

(** C15: the lock discipline of the binding. In every reachable state of any number of Python
    threads calling into one runtime, whose calls of [shutdown] and [__exit__] do not
    overlap each other: a thread at a place that needs the lock (making the
    request, building the result, inside [__exit__]) holds it, so no two threads are at such
    places; the thread that holds the lock is at such a place or in Python code, so it is
    never blocked in [submit], in [future.get()] or in the join of [shutdown]; and a result
    on its way back to Python is the caller's own id and row, an exception of the engine, or
    the exception of a stopped scheduler. *)
Theorem python_lock_discipline (E : Type) (HE : IExecutionEngine E) (good : E → Prop) (max_rows : Z)
  (row : list float → list float) (errors : exn → Prop) (config : RuntimeConfig) (alloc_ok : nat → bool)
  (s : pysys E)
  (HC : EngineContract E good max_rows (rc_input_elems config) (rc_output_elems config) row errors)
  (Hmax : 0 < rc_max_batch_size config ≤ max_rows) (Hoe : 0 ≤ rc_output_elems config)
  (Hfit : max_rows * rc_output_elems config < two64) (Hal : ∀ i, alloc_ok i = true)
  (Hr : pyreachable config alloc_ok good s) :
  (∀ t pc, py_threads s !! t = Some pc → holds_gil pc = true → py_gil s = Some t) ∧
  (∀ t, py_gil s = Some t → ∃ pc, py_threads s !! t = Some pc ∧ (holds_gil pc = true ∨ pc = InPython)) ∧
  (∀ t c o, py_threads s !! t = Some (Reacquiring c o) ∨ py_threads s !! t = Some (Returning c o) →
     answer row errors c o).
Proof.
  destruct (py_inv_reachable config alloc_ok good s Hr) as [[Hh Hd] _ _ _]. split; [exact Hd |]. split; [exact Hh |].
  pose proof (answers_reachable good max_rows row errors config alloc_ok Hmax Hoe Hfit Hal s Hr) as HA.
  intros t c o [Ht|Ht]; exact (HA t _ Ht).
Qed.


(** C16: the binding cannot deadlock on the lock, provided that calls that stop the scheduler
    ([shutdown], [__exit__]) do not overlap each other, which the code leaves to its user
    ([stops_apart], part of [pystep]; overlapping ones race on [worker_]). In every fair run
    of such a program in which the copies of result rows allocate, the lock is free again
    and again, although [__exit__] joins the worker while holding it (the worker never
    needs it), and every call of [shutdown] and [__exit__] gets out of [stop]. *)
Theorem python_never_deadlocks (E : Type) (HE : IExecutionEngine E) (good : E → Prop) (max_rows : Z)
  (row : list float → list float) (errors : exn → Prop) (config : RuntimeConfig) (alloc_ok : nat → bool)
  (e : nat → pysys E) (n : nat)
  (HC : EngineContract E good max_rows (rc_input_elems config) (rc_output_elems config) row errors)
  (Hmax : 0 < rc_max_batch_size config ≤ max_rows) (Hoe : 0 ≤ rc_output_elems config)
  (Hfit : max_rows * rc_output_elems config < two64) (Hal : ∀ i, alloc_ok i = true)
  (Hf : fair_python config alloc_ok e) (H0 : pyreachable config alloc_ok good (e 0%nat)) :
  (∃ m, (n ≤ m)%nat ∧ py_gil (e m) = None) ∧
  (∀ t held begun, py_threads (e n) !! t = Some (InStop held begun) →
     ∃ m, (n ≤ m)%nat ∧ py_threads (e m) !! t = Some (after_stop held)).
Proof.
  split.
  - exact (gil_freed good max_rows row errors config alloc_ok Hmax Hoe Hfit Hal e Hf H0 n).
  - intros t held begun Ht.
    exact (in_stop_leads_to good max_rows row errors config alloc_ok Hmax Hoe Hfit Hal e Hf H0 t held begun n Ht).
Qed.

(** Nothing but the user's discipline keeps calls of [stop] apart: [shutdown] gives the lock
    up, so a second thread can enter it while the first is still inside. *)
Lemma shutdowns_can_overlap (E : Type) (HE : IExecutionEngine E) (config : RuntimeConfig) (alloc_ok : nat → bool)
  (now : Z) (e : E) (t u : positive) :
  t ≠ u → ∃ s, rtc (pymove config alloc_ok) (py_init config now e t) s ∧
    py_threads s !! t = Some (InStop false false) ∧ py_threads s !! u = Some (InStop false false) ∧ ¬ stops_apart s.
Proof.
  intros Hne. set (s0 := py_init config now e t). set (s1 := goto u InPython (py_runtime s0) (Some t) s0).
  set (s2 := goto t (InStop false false) (py_runtime s1) None s1).
  set (s3 := goto u InPython (py_runtime s2) (Some u) s2).
  set (s4 := goto u (InStop false false) (py_runtime s3) None s3).
  assert (Hu1 : py_threads s1 !! u = Some InPython) by apply lookup_insert_eq.
  assert (Hu2 : py_threads s2 !! u = Some InPython) by (simpl; rewrite lookup_insert_ne by done; apply Hu1).
  assert (Ht : py_threads s4 !! t = Some (InStop false false))
    by (simpl; rewrite !(lookup_insert_ne _ u t) by done; apply lookup_insert_eq).
  assert (Hu : py_threads s4 !! u = Some (InStop false false)) by apply lookup_insert_eq.
  exists s4. split; [| split_and!; [done | done |]; intros Hap; by apply Hne, (Hap t u false false false false)].
  apply (rtc_l _ _ s1); [apply (ps_spawn _ _ s0 u); simpl; by rewrite lookup_singleton_ne |].
  apply (rtc_l _ _ s2); [apply (ps_shutdown _ _ s1 t); [| done]; simpl; rewrite lookup_insert_ne by done; apply lookup_singleton_eq |].
  apply (rtc_l _ _ s3); [apply (ps_acquire _ _ s2 u), (acquire_gil u s2 InPython); done |].
  apply rtc_once. apply (ps_shutdown _ _ s3 u); [apply lookup_insert_eq | done].
Qed.

(** ** Witnesses: one thread predicts, leaves its [with] block, and idles for ever *)

Abbreviation demo_pysys := (pysys StubExecutionEngine).

Definition bg (f : sys StubExecutionEngine → sys StubExecutionEngine) (s : demo_pysys) : demo_pysys :=
  {| py_runtime := set_sched (f (py_sched s)) (py_runtime s); py_threads := py_threads s; py_gil := py_gil s |}.

Definition py0 : demo_pysys := py_init demo_rc 0 stub_engine 1%positive.
Definition py1 : demo_pysys :=
  goto 1%positive (Prepared demo_call) (predict_prepare [f32_lit 7 1] (py_runtime py0)).1 (Some 1%positive) py0.
Definition py2 : demo_pysys := goto 1%positive (Submitting demo_call) (py_runtime py1) None py1.
Definition py3 : demo_pysys :=
  goto 1%positive (Blocked demo_call 2%positive) (predict_submit 2%positive demo_call (py_runtime py2)).1 None py2.
Definition py4 : demo_pysys := bg demo_run py3.
Definition py5 : demo_pysys := bg (demo_tick 50000000) py4.
Definition py6 : demo_pysys := bg demo_run py5.
Definition py7 : demo_pysys := bg (begin_iteration demo_cfg [demo_req]) py6.
Definition py8 : demo_pysys := bg (end_iteration demo_cfg (λ _, true) [demo_req] 50000000) py7.
Definition demo_answer : outcome (Z * list float) := Ret (0, [f32_lit 7 1]).
Definition py9 : demo_pysys := goto 1%positive (Reacquiring demo_call demo_answer) (py_runtime py8) None py8.
Definition py10 : demo_pysys :=
  goto 1%positive (Returning demo_call demo_answer) (py_runtime py9) (Some 1%positive) py9.
Definition py11 : demo_pysys := goto 1%positive InPython (py_runtime py10) (Some 1%positive) py10.
Definition py12 : demo_pysys := goto 1%positive (InStop true false) (py_runtime py11) (Some 1%positive) py11.
Definition py13 : demo_pysys :=
  goto 1%positive (InStop true true) (set_sched (stop_clear (py_sched py12)) (py_runtime py12)) (Some 1%positive) py12.
Definition py14 : demo_pysys :=
  goto 1%positive (InStop true true) (set_sched (stop_shutdown (py_sched py13)) (py_runtime py13)) (Some 1%positive) py13.
Definition py15 : demo_pysys := bg demo_run py14.
Definition py16 : demo_pysys := bg (begin_iteration demo_cfg []) py15.
Definition py17 : demo_pysys :=
  goto 1%positive InPython (set_sched (stop_return (py_sched py16)) (py_runtime py16)) (Some 1%positive) py16.
Definition py18 : demo_pysys := bg demo_signal py17.
Definition py19 : demo_pysys := bg demo_signal py18.

Definition demo_pypath : list demo_pysys :=
  [py0; py1; py2; py3; py4; py5; py6; py7; py8; py9; py10; py11; py12; py13; py14; py15; py16; py17; py18; py19].

Definition demo_pyexec : nat → demo_pysys := idling demo_pypath py19.

Abbreviation demo_pymove := (pymove (E := StubExecutionEngine) demo_rc (λ _, true)).

Lemma bg_step (f : sys StubExecutionEngine → sys StubExecutionEngine) s :
  background demo_rc (λ _, true) (py_sched s) (f (py_sched s)) → demo_pymove s (bg f s).
Proof. apply (ps_background demo_rc (λ _, true) s). Qed.

Lemma demo_run_step s :
  sy_worker (py_sched s) = Looping →
  runnable (qs_now (sy_core (py_sched s))) (qs_consumer (sy_core (py_sched s))) = true → demo_pymove s (bg demo_run s).
Proof. intros Hw Hr. apply bg_step, bg_worker. by apply (ws_wait demo_cfg). Qed.

Lemma demo_begin_step d s :
  sy_worker (py_sched s) = Looping → qs_consumer (sy_core (py_sched s)) = Drained d →
  demo_pymove s (bg (begin_iteration demo_cfg d) s).
Proof. intros Hw Hd. apply bg_step, bg_worker. by apply (ws_begin demo_cfg). Qed.

Lemma demo_end_step b t0 s :
  sy_worker (py_sched s) = Executing b t0 → demo_pymove s (bg (end_iteration demo_cfg (λ _, true) b t0) s).
Proof. intros Hw. apply bg_step, bg_worker. by apply (ws_end demo_cfg). Qed.

Lemma demo_bgsignal_step n s : qs_signals (sy_core (py_sched s)) = S n → demo_pymove s (bg demo_signal s).
Proof.
  intros Hn. apply bg_step, bg_signal. unfold demo_signal. rewrite Hn. by apply (ss_signal (py_sched s) n).
Qed.

Lemma py19_thread : py_threads py19 = {[1%positive := InPython]}.
Proof. vm_compute. reflexivity. Qed.

Lemma demo_pypath_steps n s s' :
  (n < 19)%nat → demo_pypath !! n = Some s → demo_pypath !! S n = Some s' → demo_pymove s s'.
Proof.
  intros Hn. do 19 (destruct n as [|n]; [intros [= <-] [= <-]; clear Hn; shelve |]). lia.
  Unshelve.
  - apply (ps_predict demo_rc _ py0 1%positive [f32_lit 7 1] _ (Ret demo_call)); [reflexivity | reflexivity | reflexivity].
  - apply (ps_act demo_rc _ py1 1%positive), act_release. reflexivity.
  - apply (ps_act demo_rc _ py2 1%positive).
    apply (act_submit 1%positive py2 demo_call 2%positive _ (Ret demo_req)); reflexivity.
  - apply demo_run_step; vm_compute; reflexivity.
  - by apply bg_step, bg_tick.
  - apply demo_run_step; vm_compute; reflexivity.
  - apply demo_begin_step; vm_compute; reflexivity.
  - apply demo_end_step; vm_compute; reflexivity.
  - apply (ps_act demo_rc _ py8 1%positive). apply (act_get 1%positive py8 demo_call 2%positive); vm_compute; reflexivity.
  - apply (ps_acquire demo_rc _ py9 1%positive).
    apply (acquire_gil 1%positive py9 (Reacquiring demo_call demo_answer)); vm_compute; reflexivity.
  - apply (ps_act demo_rc _ py10 1%positive). apply (act_return 1%positive py10 demo_call demo_answer). vm_compute. reflexivity.
  - apply (ps_exit demo_rc _ py11 1%positive); [vm_compute; reflexivity | reflexivity].
  - apply (ps_act demo_rc _ py12 1%positive). apply (act_stop_clear 1%positive py12 true). vm_compute. reflexivity.
  - apply (ps_act demo_rc _ py13 1%positive). apply (act_stop_shutdown 1%positive py13 true); vm_compute; reflexivity.
  - apply demo_run_step; vm_compute; reflexivity.
  - apply demo_begin_step; vm_compute; reflexivity.
  - apply (ps_act demo_rc _ py16 1%positive). apply (act_stop_return 1%positive py16 true); [vm_compute; reflexivity |].
    split; [vm_compute; reflexivity |]. right. vm_compute. reflexivity.
  - apply (demo_bgsignal_step 1). vm_compute. reflexivity.
  - apply (demo_bgsignal_step 0). vm_compute. reflexivity.
Qed.

Lemma demo_path_alone : Forall alone demo_pypath.
Proof.
  repeat (apply Forall_cons; split;
    [match goal with |- alone ?s => exists (default InPython (py_threads s !! 1%positive)) end; vm_compute; reflexivity |]).
  by apply Forall_nil.
Qed.

Lemma demo_fair_python : fair_python demo_rc (λ _, true) demo_pyexec.
Proof.
  apply idling_fair.
  - intros n s s' Hs Hs'. assert (Hn : (n < 19)%nat) by (apply lookup_lt_Some in Hs'; simpl in Hs'; lia).
    by eapply demo_pypath_steps.
  - intros s [= <-]. apply (ps_yield demo_rc _ py19 1%positive).
    replace (idle py19 None 0) with ({| py_runtime := py_runtime py19; py_threads := py_threads py19; py_gil := None |} : demo_pysys)
      by (vm_compute; reflexivity).
    apply (yield_python 1%positive py19); vm_compute; reflexivity.
  - apply demo_path_alone.
  - apply py19_thread.
  - vm_compute. reflexivity.
  - vm_compute. reflexivity.
Qed.

Lemma demo_py_reachable : pyreachable demo_rc (λ _, true) (λ _, True) (demo_pyexec 0).
Proof. apply reachable_init. by exists 0, stub_engine, 1%positive. Qed.

Lemma demo_py_contract :
  EngineContract StubExecutionEngine (λ _, True) 4 (rc_input_elems demo_rc) (rc_output_elems demo_rc) (fit_row 1) (λ _, False).
Proof. by apply (stub_contract 4 1 1). Qed.

Lemma python_lock_discipline_witness : py_gil py10 = Some 1%positive.
Proof.
  refine (proj1 (python_lock_discipline StubExecutionEngine _ (λ _, True) 4 (fit_row 1) (λ _, False) demo_rc (λ _, true)
    py10 demo_py_contract _ _ _ _ _) 1%positive (Returning demo_call demo_answer) _ _); try done.
  change (pyreachable demo_rc (λ _, true) (λ _, True) (demo_pyexec 10)).
  apply (execution_reachable _ _ _ (fp_exec _ _ _ demo_fair_python) demo_py_reachable).
Defined.


Lemma python_never_deadlocks_witness :
  ∃ m, (12 ≤ m)%nat ∧ py_threads (demo_pyexec m) !! 1%positive = Some InPython.
Proof.
  refine (proj2 (python_never_deadlocks StubExecutionEngine _ (λ _, True) 4 (fit_row 1) (λ _, False) demo_rc (λ _, true)
    demo_pyexec 12 demo_py_contract _ _ _ _ demo_fair_python demo_py_reachable) 1%positive true false _); try done.
Defined.
