(* ===== verification/Deployed.v ===== *)
(** * The deployed server, end to end

    Python threads, the GIL, the binding, the scheduler with its queue and the ONNX engine
    composed ([PythonCalls] over [Binding] over [System] over [OnnxEngine]): what a client
    of the deployed configuration, a model path and the default geometry, can count on. *)

From Stdlib Require Import ZArith Lia.
From stdpp Require Import base numbers strings pretty relations gmap sorting list.
From S2P Require Import Prelude Machine Fairness Request RequestQueue Engine Scheduler System Liveness.
From S2P Require Import OnnxImpl OnnxEngine Binding PythonCalls.

(** The configurations considered: a model, the geometry at the defaults of
    [RuntimeConfig], the batching parameters given or left at theirs. *)
Definition deployed_config (max_batch_size max_wait_ms : option Z) (model_path : string) : RuntimeConfig :=
  RuntimeConfig_init max_batch_size max_wait_ms None None (Some model_path).

(** ** Property *)


(** ** Witness: a call that finds the scheduler stopped *)

Section StoppedRun.
Context {E : Type} `{HE : IExecutionEngine E} (config : RuntimeConfig) (alloc_ok : nat → bool) (e : E) (input : list float).
Hypothesis Hsize : vec_size input = rc_input_elems config.

Abbreviation step := (pymove config alloc_ok).

Definition late_call : prepared := {| pr_request_id := 0; pr_input_data := input; pr_arrival_time := 0 |}.

Definition sched_to (y : sys E) (s : pysys E) : pysys E :=
  {| py_runtime := set_sched y (py_runtime s); py_threads := py_threads s; py_gil := py_gil s |}.

(** The thread leaves its [with] block, and calls [predict] once more. *)
Definition late0 : pysys E := py_init config 0 e 1%positive.
Definition late1 : pysys E := goto 1%positive (InStop true false) (py_runtime late0) (Some 1%positive) late0.
Definition late2 : pysys E :=
  goto 1%positive (InStop true true) (set_sched (stop_clear (py_sched late1)) (py_runtime late1)) (py_gil late1) late1.
Definition late3 : pysys E :=
  goto 1%positive (InStop true true) (set_sched (stop_shutdown (py_sched late2)) (py_runtime late2)) (py_gil late2) late2.
Definition late4 : pysys E :=
  sched_to (with_core (run_consumer (rc_max_batch_size config) (rc_max_wait_ms config) (sy_core (py_sched late3))) (py_sched late3))
    late3.
Definition late5 : pysys E := sched_to (begin_iteration (to_scheduler_config config) [] (py_sched late4)) late4.
Definition late6 : pysys E :=
  goto 1%positive InPython (set_sched (stop_return (py_sched late5)) (py_runtime late5)) (py_gil late5) late5.
Definition late7 : pysys E :=
  sched_to (with_core {| qs_queue := qs_queue (sy_core (py_sched late6)); qs_now := qs_now (sy_core (py_sched late6));
                         qs_consumer := notify (qs_consumer (sy_core (py_sched late6))); qs_signals := 0;
                         qs_accepted := qs_accepted (sy_core (py_sched late6));
                         qs_delivered := qs_delivered (sy_core (py_sched late6));
                         qs_opened := qs_opened (sy_core (py_sched late6)) |} (py_sched late6)) late6.
Definition late8 : pysys E :=
  goto 1%positive (Prepared late_call) (with_scheduler (py_sched late7) (u64_add 0 1) (py_runtime late7)) (Some 1%positive) late7.
Definition late9 : pysys E := goto 1%positive (Submitting late_call) (py_runtime late8) None late8.
Definition late10 : pysys E :=
  goto 1%positive (Reacquiring late_call (Throw stopped_error)) (predict_submit 1%positive late_call (py_runtime late9)).1
    (py_gil late9) late9.
Definition late11 : pysys E :=
  goto 1%positive (Returning late_call (Throw stopped_error)) (py_runtime late10) (Some 1%positive) late10.
Definition late12 : pysys E := goto 1%positive InPython (py_runtime late11) (py_gil late11) late11.

Definition late_path : list (pysys E) :=
  [late0; late1; late2; late3; late4; late5; late6; late7; late8; late9; late10; late11; late12].

Lemma act_submit_stopped t c p (s : pysys E) :
  py_threads s !! t = Some (Submitting c) → sy_store (py_sched s) !! p = None →
  stop_requested_ (qs_queue (sy_core (py_sched s))) = true →
  act t s (goto t (Reacquiring c (Throw stopped_error)) (predict_submit p c (py_runtime s)).1 (py_gil s) s).
Proof.
  intros Ht Hp Hs.
  assert (Ho : (predict_submit p c (py_runtime s)).2 = Throw stopped_error).
  { unfold predict_submit, submit_step, submit, get_future, new_promise, push, py_sched in *.
    rewrite lookup_insert_eq. simpl. by rewrite Hs. }
  destruct (predict_submit p c (py_runtime s)) as [r o] eqn:E0. simpl in *. subst o.
  by apply (act_submit t s c p r (Throw stopped_error)).
Qed.

Lemma late_steps n s s' : late_path !! n = Some s → late_path !! S n = Some s' → step s s'.
Proof.
  do 12 (destruct n as [|n]; [intros [= <-] [= <-]; shelve |]). intros _ Hs. apply lookup_lt_Some in Hs. simpl in Hs. lia.
  Unshelve.
  - by apply (ps_exit config alloc_ok late0 1%positive).
  - apply (ps_act config alloc_ok late1 1%positive), (act_stop_clear 1%positive late1 true). done.
  - by apply (ps_act config alloc_ok late2 1%positive), (act_stop_shutdown 1%positive late2 true).
  - apply (ps_background config alloc_ok late3), bg_worker. by apply (ws_wait (to_scheduler_config config)).
  - apply (ps_background config alloc_ok late4), bg_worker. by apply (ws_begin (to_scheduler_config config)).
  - apply (ps_act config alloc_ok late5 1%positive), (act_stop_return 1%positive late5 true); [done |].
    split; [done | by right].
  - apply (ps_background config alloc_ok late6), bg_signal. by apply (ss_signal (py_sched late6) 0).
  - apply (ps_predict config alloc_ok late7 1%positive input _ (Ret late_call)); [done | done |].
    unfold predict_prepare. change (ir_input_elems (py_runtime late7)) with (rc_input_elems config).
    by rewrite Hsize, Z.eqb_refl.
  - by apply (ps_act config alloc_ok late8 1%positive), (act_release 1%positive late8).
  - apply (ps_act config alloc_ok late9 1%positive). by apply (act_submit_stopped 1%positive late_call 1%positive late9).
  - apply (ps_acquire config alloc_ok late10 1%positive).
    by apply (acquire_gil 1%positive late10 (Reacquiring late_call (Throw stopped_error))).
  - apply (ps_act config alloc_ok late11 1%positive).
    by apply (act_return 1%positive late11 late_call (Throw stopped_error)).
Qed.

Lemma yield_last (s : pysys E) :
  py_threads s !! 1%positive = Some InPython → py_gil s = Some 1%positive → step s (idle s None 0).
Proof.
  intros Ht Hg. apply (ps_yield config alloc_ok s 1%positive).
  replace (idle s None 0) with {| py_runtime := py_runtime s; py_threads := py_threads s; py_gil := None |}.
  - by apply yield_python.
  - unfold idle. f_equal. unfold set_sched, pass_time, with_core, with_scheduler, py_sched.
    destruct (py_runtime s) as [[[] ? ? ? ? ? ? ?] ? ? ?]. simpl. by rewrite Z.add_0_r.
Qed.

Lemma late_alone : Forall alone late_path.
Proof. repeat (apply Forall_cons; split; [eexists; reflexivity |]). by apply Forall_nil. Qed.

Lemma late_fair : fair_python config alloc_ok (idling late_path late12).
Proof.
  apply idling_fair; [exact late_steps | | exact late_alone | done | done | done].
  intros s Hs. assert (s = late12) as -> by (symmetry; exact (Some_inj _ _ Hs)).
  apply yield_last; reflexivity.
Qed.

Lemma late_prepared : in_predict 1%positive late_call (idling late_path late12 8).
Proof. left. reflexivity. Qed.

Lemma late_first : idling late_path late12 0%nat = py_init config 0 e 1%positive.
Proof. reflexivity. Qed.
End StoppedRun.

