(* ===== verification/BenchTool.v ===== *)
(** * The engine benchmark tool

    src/cpp/tools/bench_engine.cpp: the parser of the bucket list, the median, and the
    measurement program [main] over the ONNX engine. Argument strings are parsed with the
    semantics of [std::stoul]; the clock and the random batch sizes are arguments; what is
    printed is kept as values, not as formatted text. *)

From Stdlib Require Import ZArith Lia Ascii SpecFloat.
From stdpp Require Import base numbers strings pretty sorting list.
From S2P Require Import Prelude Machine Doubles Engine Normalize OnnxImpl OnnxEngine.

(** ** [std::string] *)

Fixpoint find_char (c : ascii) (s : string) : option nat :=
  match s with
  | EmptyString => None
  | String a rest => if Ascii.eqb a c then Some 0%nat else S <$> find_char c rest
  end.

Fixpoint str_drop (n : nat) (s : string) : string :=
  match n, s with
  | S n, String _ rest => str_drop n rest
  | _, _ => s
  end.

Fixpoint str_take (n : nat) (s : string) : string :=
  match n, s with
  | S n, String a rest => String a (str_take n rest)
  | _, _ => EmptyString
  end.

(** [s.find(c, start)]; [None] is [npos]. *)
Definition str_find (s : string) (c : ascii) (start : nat) : option nat :=
  Nat.add start <$> find_char c (str_drop start s).

(** [s.substr(pos, n)]; [None] for [npos]. *)
Definition str_substr (s : string) (pos : nat) (n : option nat) : outcome string :=
  if (String.length s <? pos)%nat then Throw (OutOfRange "basic_string::substr")
  else Ret (match n with Some n => str_take n (str_drop pos s) | None => str_drop pos s end).

(** ** [std::stoul] *)

Definition is_space (c : ascii) : bool :=
  let n := N_of_ascii c in ((n =? 32) || ((9 <=? n) && (n <=? 13)))%N.

Definition digit_value (c : ascii) : option Z :=
  let n := Z.of_N (N_of_ascii c) in if (48 <=? n) && (n <=? 57) then Some (n - 48) else None.

Fixpoint skip_space (s : string) : string :=
  match s with
  | String c rest => if is_space c then skip_space rest else s
  | EmptyString => s
  end.

(** The number a string of digits starts with; what follows the digits is ignored. *)
Fixpoint read_digits (acc : Z) (s : string) : Z :=
  match s with
  | String c rest =>
      match digit_value c with
      | Some d => read_digits (acc * 10 + d) rest
      | None => acc
      end
  | EmptyString => acc
  end.

(** Base 10: white space, an optional sign, digits. A number that does not fit throws; a
    negated one wraps around. *)
Definition stoul (token : string) : outcome Z :=
  let s := skip_space token in
  let '(neg, body) := match s with
                      | String c rest =>
                          if Ascii.eqb c "-" then (true, rest)
                          else if Ascii.eqb c "+" then (false, rest) else (false, s)
                      | EmptyString => (false, s)
                      end in
  match body with
  | String c _ =>
      match digit_value c with
      | Some _ =>
          let v := read_digits 0 body in
          if two64 <=? v then Throw (OutOfRange "stoul") else Ret (if neg : bool then u64 (- v) else v)
      | None => Throw (InvalidArgument "stoul")
      end
  | EmptyString => Throw (InvalidArgument "stoul")
  end.

(** ** [parse_buckets] *)

(** The loop from [start] on; [None] when [fuel] iterations do not suffice. *)
Fixpoint parse_loop (fuel : nat) (spec : string) (start : nat) (buckets : list Z) :
  option (outcome (list Z)) :=
  if (String.length spec <? start)%nat then Some (Ret buckets)
  else
    match fuel with
    | O => None
    | S fuel =>
        let comma := str_find spec "," start in
        match
          token ← str_substr spec start ((λ c, c - start)%nat <$> comma);
          if String.eqb token "" then Ret buckets
          else bucket ← stoul token; Ret (buckets ++ [bucket])
        with
        | Ret buckets' =>
            match comma with
            | None => Some (Ret buckets')
            | Some c => parse_loop fuel spec (c + 1) buckets'
            end
        | o => Some o
        end
    end.

(** Every iteration but the last consumes a comma. *)
Definition parse_buckets (spec : string) : option (outcome (list Z)) :=
  parse_loop (S (String.length spec)) spec 0 [].

(** ** [median_ms] *)

(** [std::sort] needs an ordering of the samples, which a NaN spoils. Zeros of either sign
    compare equal, so their order is not specified; this is one that is allowed. *)
Definition median_ms (samples : list double) : outcome double :=
  if existsb is_nan samples then Undefined
  else
    match merge_sort not_after samples !! (length samples / 2)%nat with
    | Some median => Ret median
    | None => Undefined
    end.

(** ** [main] *)

Definition kInputElems : Z := 3 * 224 * 224.
Definition kOutputElems : Z := 1000.
Definition kWarmupIters : nat := 10.
Definition kTimedIters : nat := 30.

(** What is printed, as values; lines of constant text are left out. *)
Inductive bench_line :=
  | Buckets (bucket_spec path : string)
  | Loading (model_path : string)
  | IoBindingActive (active : bool)
  | BatchRow (batch : Z) (batch_ms per_request_ms req_per_s : double)
  | Baseline (per_request_ms ceiling : double)
  | ChurnMedian (ms : double)
  | ChurnPerRequest (ms : double)
  | ChurnThroughput (req_per_s : double).

(** The locals that live through the run: the engine, how often the clock was read, and
    what was printed. *)
Record bench := {
  bn_engine : OnnxExecutionEngine;
  bn_ticks : nat;
  bn_out : list bench_line
}.

(** [std::chrono::duration<double, std::milli>] of a duration in nanoseconds. *)
Definition duration_ms (ns : Z) : double := f64_div (f64_of_u64 ns) (f64_of_u64 1000000).

Section Main.
Context (rt : onnx_runtime).
(** [steady_clock::now()] by reading, in nanoseconds, and [pick(rng)] by draw. *)
Context (clock : nat → Z) (pick : nat → Z).
Local Open Scope engine_scope.

Definition now : stepM bench Z := λ s,
  ({| bn_engine := bn_engine s; bn_ticks := S (bn_ticks s); bn_out := bn_out s |}, Ret (clock (bn_ticks s))).

Definition print (line : bench_line) : stepM bench unit := λ s,
  ({| bn_engine := bn_engine s; bn_ticks := bn_ticks s; bn_out := bn_out s ++ [line] |}, Ret tt).

Definition engine_run (input : list float) (batch : Z) : stepM bench (list float) := λ s,
  let '(e, o) := onnx_run_inference rt (bn_engine s) input batch kInputElems kOutputElems in
  ({| bn_engine := e; bn_ticks := bn_ticks s; bn_out := bn_out s |}, o).

(** [std::vector<float> input(batch * kInputElems, 0.5F)]. *)
Definition batch_input (batch : Z) : outcome (list float) :=
  vec_fill (u64_mul batch kInputElems) (f32_lit 1 2).

(** A call between two readings of the clock. *)
Definition timed_run (input : list float) (batch : Z) : stepM bench double :=
  start <- now ;;
  engine_run input batch ;;
  stop <- now ;;
  retM (duration_ms (stop - start)).

Definition warm (iters : nat) (input : list float) (batch : Z) : stepM bench unit :=
  foldS (λ _ _, engine_run input batch ;; retM tt) tt (seq 0 iters).

(** One row of the fixed-shape table; carries [baseline_per_request]. *)
Definition fixed_shape (baseline_per_request : double) (batch : Z) : stepM bench double :=
  input <- liftM (batch_input batch) ;;
  warm kWarmupIters input batch ;;
  samples <- foldS (λ samples _, sample <- timed_run input batch ;; retM (samples ++ [sample]))
               [] (seq 0 kTimedIters) ;;
  batch_ms <- liftM (median_ms samples) ;;
  let per_request_ms := f64_div batch_ms (f64_of_u64 batch) in
  print (BatchRow batch batch_ms per_request_ms (f64_div (f64_of_u64 1000) per_request_ms)) ;;
  retM (if batch =? 1 then per_request_ms else baseline_per_request).

Definition print_baseline (baseline_per_request : double) : stepM bench unit :=
  if f64_ltb f64_zero baseline_per_request
  then print (Baseline baseline_per_request (f64_div (f64_of_u64 1000) baseline_per_request))
  else retM tt.

Definition prewarm (batch : Z) : stepM bench unit :=
  input <- liftM (batch_input batch) ;;
  warm 3 input batch.

(** One call of the churn phase; carries [churn_samples] and [churn_requests]. *)
Definition churn_one (acc : list double * double) (i : nat) : stepM bench (list double * double) :=
  let '(churn_samples, churn_requests) := acc in
  let batch := pick i in
  input <- liftM (batch_input batch) ;;
  sample <- timed_run input batch ;;
  retM (churn_samples ++ [sample], f64_add churn_requests (f64_of_u64 batch)).

Definition churn_report (churn_samples : list double) (churn_requests : double) : stepM bench unit :=
  let churn_total := foldl f64_add f64_zero churn_samples in
  median <- liftM (median_ms churn_samples) ;;
  print (ChurnMedian median) ;;
  print (ChurnPerRequest (f64_div churn_total churn_requests)) ;;
  print (ChurnThroughput (f64_div (f64_mul (f64_of_u64 1000) churn_requests) churn_total)).

(** From the construction of the engine on. *)
Definition measure : stepM bench Z :=
  (λ s, print (IoBindingActive (oe_io_binding_active (bn_engine s))) s) ;;
  baseline_per_request <- foldS fixed_shape f64_zero [1; 2; 4; 8; 16] ;;
  print_baseline baseline_per_request ;;
  foldS (λ _ batch, prewarm batch) tt [1; 2; 3; 4; 5; 6; 7; 8] ;;
  churn <- foldS churn_one ([], f64_zero) (seq 0 60) ;;
  churn_report churn.1 churn.2 ;;
  retM 0.

Definition bench_options (model_path : string) (batch_buckets : list Z) (path : string) : OnnxOptions :=
  {| ox_model_path := model_path; ox_device_id := ox_device_id default_OnnxOptions;
     ox_batch_buckets := batch_buckets; ox_warm_buckets := ox_warm_buckets default_OnnxOptions;
     ox_input_elems := ox_input_elems default_OnnxOptions; ox_output_elems := ox_output_elems default_OnnxOptions;
     ox_use_io_binding := negb (String.eqb path "host");
     ox_normalize_on_device := ox_normalize_on_device default_OnnxOptions;
     ox_mean := ox_mean default_OnnxOptions; ox_stddev := ox_stddev default_OnnxOptions;
     ox_require_cuda := ox_require_cuda default_OnnxOptions |}.

(** What was printed, the engine once there is one, and the exit code; an exception leaves
    [main]. *)
Definition main (argv : list string) : list bench_line * option OnnxExecutionEngine * outcome Z :=
  let model_path := default "models/resnet50.onnx"%string (argv !! 1%nat) in
  let bucket_spec := default "1,2,4,8"%string (argv !! 2%nat) in
  let path := default "bound"%string (argv !! 3%nat) in
  match default Undefined (parse_buckets bucket_spec) with
  | Ret batch_buckets =>
      let out := [Buckets bucket_spec path; Loading model_path] in
      match new_OnnxExecutionEngine rt (bench_options model_path batch_buckets path) with
      | Ret engine =>
          let '(s, o) := measure {| bn_engine := engine; bn_ticks := 0; bn_out := out |} in
          (bn_out s, Some (bn_engine s), o)
      | Throw x => (out, None, Throw x)
      | Undefined => (out, None, Undefined)
      end
  | Throw x => ([], None, Throw x)
  | Undefined => ([], None, Undefined)
  end.
End Main.

(** *** Reference: split at the commas, convert the non-empty pieces *)

Fixpoint split_on (c : ascii) (s : string) : list string :=
  match s with
  | EmptyString => [EmptyString]
  | String a rest =>
      if Ascii.eqb a c then EmptyString :: split_on c rest
      else match split_on c rest with
           | piece :: pieces => String a piece :: pieces
           | [] => [String a EmptyString]
           end
  end.

Fixpoint parse_tokens (tokens : list string) : outcome (list Z) :=
  match tokens with
  | [] => Ret []
  | token :: rest =>
      if String.eqb token "" then parse_tokens rest
      else bucket ← stoul token; buckets ← parse_tokens rest; Ret (bucket :: buckets)
  end.

Definition print_buckets (buckets : list Z) : string := String.concat "," (pretty <$> buckets).

(** *** Strings *)

Lemma str_drop_app pre s : str_drop (String.length pre) (pre +:+ s) = s.
Proof. by induction pre. Qed.

Lemma str_length_app s1 s2 : String.length (s1 +:+ s2) = (String.length s1 + String.length s2)%nat.
Proof. induction s1; simpl; [done | by f_equal]. Qed.

Lemma str_app_assoc s1 s2 s3 : (s1 +:+ s2) +:+ s3 = s1 +:+ (s2 +:+ s3).
Proof. induction s1 as [|a s1 IH]; [done |]. exact (f_equal (String a) IH). Qed.

Lemma split_on_nonempty c s : split_on c s ≠ [].
Proof. destruct s as [|a s]; simpl; [done |]. by destruct (Ascii.eqb a c), (split_on c s). Qed.

(** One step of the loop is one piece of the split. *)
Lemma split_on_find c s :
  match find_char c s with
  | None => split_on c s = [s]
  | Some i => split_on c s = str_take i s :: split_on c (str_drop (S i) s) ∧
              s = str_take i s +:+ String c (str_drop (S i) s) ∧ String.length (str_take i s) = i
  end.
Proof.
  induction s as [|a s IH]; simpl; [done |].
  destruct (Ascii.eqb_spec a c) as [->|Hne]; simpl; [done |].
  destruct (find_char c s) as [i|]; simpl.
  - destruct IH as (-> & Hs & Hl). split_and!; [done | exact (f_equal (String a) Hs) | by rewrite Hl].
  - by rewrite IH.
Qed.

Lemma parse_loop_split fuel pre rest buckets :
  (String.length rest < fuel)%nat →
  parse_loop fuel (pre +:+ rest) (String.length pre) buckets =
    Some (bs ← parse_tokens (split_on "," rest); Ret (buckets ++ bs)).
Proof.
  revert pre rest buckets. induction fuel as [|fuel IH]; intros pre rest buckets Hf; [lia |]. simpl.
  rewrite str_length_app, (proj2 (Nat.ltb_ge _ _)) by lia.
  unfold str_find, str_substr. rewrite str_length_app, (proj2 (Nat.ltb_ge _ _)), str_drop_app by lia.
  pose proof (split_on_find "," rest) as Hs. destruct (find_char "," rest) as [i|]; simpl.
  - destruct Hs as (Hsplit & Hrest & Hlen). rewrite Hsplit. rewrite Nat.add_comm, Nat.add_sub.
    set (token := str_take i rest) in *. set (rest' := str_drop (S i) rest) in *. simpl.
    assert (Hstep : ∀ bs, parse_loop fuel (pre +:+ rest) (i + String.length pre + 1) bs =
        Some (bs' ← parse_tokens (split_on "," rest'); Ret (bs ++ bs'))).
    { intros bs. rewrite Hrest. change (String "," rest') with ("," +:+ rest').
      rewrite <- !str_app_assoc. replace (i + _ + 1)%nat with (String.length ((pre +:+ token) +:+ ","))
        by (rewrite !str_length_app, Hlen; simpl; lia).
      apply IH. rewrite Hrest, str_length_app in Hf. simpl in Hf. lia. }
    destruct (String.eqb token ""); simpl; [by rewrite Hstep |].
    destruct (stoul token) as [b|x|]; simpl; [| done | done]. rewrite Hstep.
    destruct (parse_tokens _); simpl; [| done | done]. by rewrite <- (assoc_L (++)).
  - rewrite Hs. simpl. destruct (String.eqb rest ""); simpl; [by rewrite app_nil_r |].
    by destruct (stoul rest).
Qed.

Lemma parse_buckets_split spec : parse_buckets spec = Some (parse_tokens (split_on "," spec)).
Proof.
  unfold parse_buckets. pose proof (parse_loop_split (S (String.length spec)) "" spec [] ltac:(lia)) as H.
  change ("" +:+ spec) with spec in H. change (String.length "") with 0%nat in H. rewrite H.
  by destruct (parse_tokens (split_on "," spec)).
Qed.

Lemma stoul_defined token : stoul token ≠ Undefined.
Proof. unfold stoul. by repeat case_match. Qed.

Lemma parse_tokens_defined tokens : parse_tokens tokens ≠ Undefined.
Proof.
  induction tokens as [|token rest IH]; simpl; [done |]. destruct (String.eqb token ""); [done |].
  pose proof (stoul_defined token). destruct (stoul token); simpl; [| done | done]. by destruct (parse_tokens rest).
Qed.

(** *** Printed numbers *)

Definition all_digits (s : string) : Prop := Forall (λ c, is_Some (digit_value c)) (String.list_ascii_of_string s).

Lemma digit_value_char (d : N) : (d < 10)%N → digit_value (pretty_N_char d) = Some (Z.of_N d).
Proof.
  intros Hd. destruct d as [|p]; [done |].
  assert (p ∈ [1; 2; 3; 4; 5; 6; 7; 8; 9]%positive) as Hp.
  { rewrite !elem_of_cons. lia. }
  by repeat (apply elem_of_cons in Hp as [-> | Hp]; [done |]); apply elem_of_nil in Hp.
Qed.

Lemma digit_not_special c : is_Some (digit_value c) →
  is_space c = false ∧ Ascii.eqb c "-" = false ∧ Ascii.eqb c "+" = false ∧ Ascii.eqb c "," = false.
Proof. intros [d Hd]. destruct c as [[] [] [] [] [] [] [] []]; done. Qed.

(** Printing [x] in front of [s] and reading the digits back shifts what was read before
    and adds [x]. *)
Lemma pretty_go_spec x :
  (∀ s, all_digits s → all_digits (pretty_N_go x s)) ∧
  (∀ s, s ≠ ""%string ∨ (0 < x)%N → pretty_N_go x s ≠ ""%string) ∧
  ∃ k, ∀ acc s, read_digits acc (pretty_N_go x s) = read_digits (acc * 10 ^ Z.of_nat k + Z.of_N x) s.
Proof.
  induction (N.lt_wf_0 x) as [x _ IH].
  destruct (decide (x = 0%N)) as [->|Hx].
  { split_and!; [done | intros s [?|?]; [done | lia] |]. exists 0%nat. intros acc s. rewrite pretty_N_go_0. f_equal. lia. }
  destruct (IH (x `div` 10)%N) as (IH1 & IH2 & k & IHk); [apply N.div_lt; lia |].
  assert (Hm : (x `mod` 10 < 10)%N) by (apply N.mod_lt; lia).
  pose proof (digit_value_char _ Hm) as Hc.
  split_and!; [intros s Hs | intros s _ | exists (S k); intros acc s]; rewrite pretty_N_go_step by lia.
  - apply IH1. constructor; [by rewrite Hc | done].
  - apply IH2. by left.
  - rewrite IHk. simpl. rewrite Hc. f_equal. rewrite Nat2Z.inj_succ, Z.pow_succ_r by lia.
    pose proof (N.div_mod x 10 ltac:(lia)) as Hd. apply (f_equal Z.of_N) in Hd.
    rewrite N2Z.inj_add, N2Z.inj_mul in Hd. lia.
Qed.

Lemma pretty_digits z :
  0 ≤ z → all_digits (pretty z) ∧ pretty z ≠ ""%string ∧ read_digits 0 (pretty z) = z.
Proof.
  intros Hz. destruct z as [|p|p]; [| | lia].
  { split_and!; [by repeat econstructor | done | done]. }
  change (pretty (Z.pos p)) with (pretty_N_go (N.pos p) "").
  destruct (pretty_go_spec (N.pos p)) as (H1 & H2 & k & H3). split_and!.
  - apply H1. constructor.
  - apply H2. by right.
  - rewrite H3. simpl. lia.
Qed.

Lemma stoul_pretty z : is_u64 z → stoul (pretty z) = Ret z.
Proof.
  intros [Hz Hm]. destruct (pretty_digits z Hz) as (Hd & Hne & Hr).
  destruct (pretty z) as [|c s]; [done |].
  assert (Hc : is_Some (digit_value c)) by by apply Forall_inv in Hd.
  destruct (digit_not_special c Hc) as (H1 & H2 & H3 & _).
  unfold stoul. simpl skip_space. rewrite H1, H2, H3. destruct Hc as [d ->]. rewrite Hr.
  by rewrite (proj2 (Z.leb_gt _ _)).
Qed.

Lemma digits_no_comma s : all_digits s → find_char "," s = None.
Proof.
  induction s as [|c s IH]; intros Hd; [done |]. apply Forall_cons in Hd as [Hc Hd]. simpl.
  destruct (digit_not_special c Hc) as (_ & _ & _ & ->). by rewrite IH.
Qed.

Lemma find_char_app c s t : find_char c s = None → find_char c (s +:+ String c t) = Some (String.length s).
Proof.
  induction s as [|a s IH]; intros Hs; [by change (find_char c (String c t) = Some 0%nat); simpl; rewrite Ascii.eqb_refl |].
  change (String a s +:+ String c t) with (String a (s +:+ String c t)). simpl in *.
  destruct (Ascii.eqb a c); [done |]. destruct (find_char c s); [done |]. by rewrite IH.
Qed.

Lemma str_take_app s t : str_take (String.length s) (s +:+ t) = s.
Proof. induction s as [|a s IH]; [by destruct t |]. exact (f_equal (String a) IH). Qed.

Lemma str_drop_sep c s t : str_drop (S (String.length s)) (s +:+ String c t) = t.
Proof. induction s as [|a s IH]; [by destruct t | exact IH]. Qed.

(** Splitting undoes joining, for pieces without commas. *)
Lemma split_on_concat (pieces : list string) :
  pieces ≠ [] → Forall (λ s, find_char "," s = None) pieces → split_on "," (String.concat "," pieces) = pieces.
Proof.
  induction pieces as [|s pieces IH]; intros Hne Hf; [done |]. apply Forall_cons in Hf as [Hs Hf].
  destruct pieces as [|t pieces].
  - simpl. pose proof (split_on_find "," s) as H. by rewrite Hs in H.
  - change (String.concat "," (s :: t :: pieces)) with (s +:+ String "," (String.concat "," (t :: pieces))).
    pose proof (split_on_find "," (s +:+ String "," (String.concat "," (t :: pieces)))) as H.
    rewrite find_char_app in H by done. destruct H as (-> & _ & _). rewrite str_take_app. f_equal.
    rewrite str_drop_sep. by apply IH.
Qed.

Lemma parse_tokens_pretty (buckets : list Z) :
  Forall is_u64 buckets → parse_tokens (pretty <$> buckets) = Ret buckets.
Proof.
  induction 1 as [|b bs Hb Hbs IH]; csimpl; [done |].
  destruct (String.eqb_spec (pretty b) ""); [by destruct (pretty_digits b) as (_ & ? & _); [destruct Hb |] |].
  rewrite stoul_pretty by done. simpl. by rewrite IH.
Qed.

(** *** The median *)

Definition median_of (samples : list double) : double :=
  default f64_zero (merge_sort not_after samples !! (length samples / 2)%nat).

Lemma not_after_refl x : not_after x x.
Proof. by destruct (not_after_total x x). Qed.

(** Sorting orders all pairs where the order is transitive. *)
Lemma sorted_no_nan l :
  Forall (λ x, is_nan x = false) l → Sorted not_after l → StronglySorted not_after l.
Proof.
  induction l as [|x l IH]; intros Hn Hs; [constructor |].
  apply Forall_cons in Hn as [Hx Hn]. apply Sorted_inv in Hs as [Hs Hh]. specialize (IH Hn Hs).
  constructor; [done |]. destruct Hh as [|y l Hxy]; [constructor |].
  apply Forall_cons in Hn as [Hy Hn]. apply StronglySorted_inv in IH as [_ Hall]. constructor; [done |].
  rewrite Forall_forall in Hall, Hn |- *. intros z Hz. eapply not_after_trans; eauto.
Qed.

Lemma filter_all {A} (P : A → Prop) `{!∀ x, Decision (P x)} l : Forall P l → filter P l = l.
Proof. induction 1 as [|x l Hx _ IH]; [done |]. by rewrite filter_cons_True, IH. Qed.

(** In a sorted list, position [k] bounds the elements before and after it. *)
Lemma sorted_rank l k m :
  StronglySorted not_after l → l !! k = Some m →
  (k + 1 ≤ length (filter (λ x, not_after x m) l))%nat ∧
  (length l - k ≤ length (filter (λ x, not_after m x) l))%nat.
Proof.
  intros Hs Hk. pose proof (lookup_lt_Some _ _ _ Hk) as Hlt.
  rewrite <- (take_drop_middle l k m Hk) in Hs |- *.
  apply StronglySorted_app in Hs as (Hle & _ & Hr). apply StronglySorted_inv in Hr as [_ Hge].
  rewrite !filter_app, !length_app. split.
  - rewrite (filter_all _ (take k l)), filter_cons_True, length_take; [simpl; lia | apply not_after_refl |].
    apply Forall_forall. intros x Hx. by apply Hle; [| left].
  - rewrite (filter_all _ (m :: _)); [simpl; rewrite ?length_take, ?length_drop; lia |].
    constructor; [apply not_after_refl | done].
Qed.

Lemma no_nan_existsb samples : existsb is_nan samples = false ↔ Forall (λ x, is_nan x = false) samples.
Proof.
  induction samples as [|x l IH]; simpl; [done |]. rewrite orb_false_iff, IH, Forall_cons. done.
Qed.

Lemma median_lookup samples :
  samples ≠ [] → merge_sort not_after samples !! (length samples / 2)%nat = Some (median_of samples).
Proof.
  intros Hne. unfold median_of. destruct (lookup_lt_is_Some_2 (merge_sort not_after samples) (length samples / 2)) as [m ->]; [| done].
  rewrite merge_sort_Permutation. apply Nat.div_lt; [destruct samples; [done | simpl; lia] | lia].
Qed.

Lemma median_ms_Ret samples :
  samples ≠ [] → Forall (λ x, is_nan x = false) samples → median_ms samples = Ret (median_of samples).
Proof. intros Hne Hn. unfold median_ms. rewrite (proj2 (no_nan_existsb _) Hn). by rewrite median_lookup. Qed.

Lemma median_of_rank samples :
  samples ≠ [] → Forall (λ x, is_nan x = false) samples →
  median_of samples ∈ samples ∧
  (length samples / 2 + 1 ≤ length (filter (λ x, not_after x (median_of samples)) samples))%nat ∧
  (length samples - length samples / 2 ≤ length (filter (λ x, not_after (median_of samples) x) samples))%nat.
Proof.
  intros Hne Hn. pose proof (merge_sort_Permutation not_after samples) as Hp.
  pose proof (median_lookup samples Hne) as Hl. split.
  { rewrite <- Hp at 2. by apply list_elem_of_lookup_2 in Hl. }
  rewrite <- Hp in Hn. apply sorted_no_nan in Hn; [| apply Sorted_merge_sort, _].
  destruct (sorted_rank _ _ _ Hn Hl) as [H1 H2]. by rewrite Hp in H1, H2.
Qed.

(** ** What a run prints, from the clock and the draws alone *)

Section Reference.
Context (clock : nat → Z) (pick : nat → Z).

(** The [n] samples taken from reading [t] of the clock on. *)
Definition samples_from (t n : nat) : list double :=
  (λ i, duration_ms (clock (t + 2 * i + 1)%nat - clock (t + 2 * i)%nat)) <$> seq 0 n.

Definition row_at (t : nat) (batch : Z) : bench_line :=
  let batch_ms := median_of (samples_from t 30) in
  let per_request_ms := f64_div batch_ms (f64_of_u64 batch) in
  BatchRow batch batch_ms per_request_ms (f64_div (f64_of_u64 1000) per_request_ms).

Definition baseline_line : list bench_line :=
  let baseline := f64_div (median_of (samples_from 0 30)) (f64_of_u64 1) in
  if f64_ltb f64_zero baseline then [Baseline baseline (f64_div (f64_of_u64 1000) baseline)] else [].

Definition churn_lines : list bench_line :=
  let samples := samples_from 300 60 in
  let requests := foldl (λ sum i, f64_add sum (f64_of_u64 (pick i))) f64_zero (seq 0 60) in
  let total := foldl f64_add f64_zero samples in
  [ChurnMedian (median_of samples); ChurnPerRequest (f64_div total requests);
   ChurnThroughput (f64_div (f64_mul (f64_of_u64 1000) requests) total)].

Definition bench_report (active : bool) : list bench_line :=
  IoBindingActive active ::
  [row_at 0 1; row_at 60 2; row_at 120 4; row_at 180 8; row_at 240 16] ++ baseline_line ++ churn_lines.
End Reference.

(** ** The run against the reference *)

Section Measure.
Context (rt : onnx_runtime) (model : list float → list float) (o : OnnxOptions).
Context (clock : nat → Z) (pick : nat → Z).
Context (HC : EngineContract OnnxExecutionEngine (H := onnx_IExecutionEngine rt) (onnx_good o) 16 image_elems
                kOutputElems (onnx_row model o) (λ _, ¬ onnx_healthy rt)).
Hypothesis (Hpick : ∀ i, 1 ≤ pick i ≤ 8).

(** From reading [t] of the clock on, [m] reads it [k] times, calls the engine [c] times,
    prints [lines] and returns [a]; or the runtime fails and part of [lines] is printed. *)
Definition runs {A} (t : nat) (m : stepM bench A) (k c : nat) (a : A) (lines : list bench_line) : Prop :=
  ∀ s, onnx_good o (bn_engine s) → bn_ticks s = t →
    (∃ e, onnx_good o e ∧ oe_calls e = (oe_calls (bn_engine s) + c)%nat ∧
          m s = ({| bn_engine := e; bn_ticks := t + k; bn_out := bn_out s ++ lines |}, Ret a)) ∨
    (¬ onnx_healthy rt ∧ ∃ s' x printed, m s = (s', Throw x) ∧ bn_out s' = bn_out s ++ printed ∧ printed `prefix_of` lines).

Lemma runs_ret {A} t (a : A) : runs t (retM a) 0 0 a [].
Proof.
  intros [e n out] HG Ht. simpl in *. subst n. left. exists e. rewrite !Nat.add_0_r, app_nil_r. done.
Qed.

Lemma runs_bind {A B} t m k c (a : A) l (f : A → stepM bench B) k' c' b l' :
  runs t m k c a l → runs (t + k) (f a) k' c' b l' → runs t (bindM m f) (k + k') (c + c') b (l ++ l').
Proof.
  intros H1 H2 s HG Ht. unfold bindM. destruct (H1 s HG Ht) as [(e & HGe & Hc & ->)|(Hh & s' & x & pr & -> & Hout & Hp)].
  - destruct (H2 {| bn_engine := e; bn_ticks := t + k; bn_out := bn_out s ++ l |} HGe eq_refl)
      as [(e' & HGe' & Hc' & ->)|(Hh & s' & x & pr & -> & Hout & Hp)]; simpl in *.
    + left. exists e'. split_and!; [done | lia |]. rewrite Nat.add_assoc, (assoc_L (++)). done.
    + right. split; [done |]. exists s', x, (l ++ pr). rewrite Hout, (assoc_L (++)). split_and!; try done. by apply prefix_app.
  - right. split; [done |]. exists s', x, pr. split_and!; [done | done |]. by apply prefix_app_r.
Qed.

Lemma bindM_at {A B} (m m' : stepM bench A) (f : A → stepM bench B) s : m s = m' s → bindM m f s = bindM m' f s.
Proof. unfold bindM. by intros ->. Qed.

Lemma runs_lift {A B} t (a : A) (f : A → stepM bench B) k c b l :
  runs t (f a) k c b l → runs t (bindM (liftM (Ret a)) f) k c b l.
Proof. done. Qed.

Lemma runs_print t line : runs t (print line) 0 0 tt [line].
Proof. intros [e n out] HG Ht. simpl in *. subst n. left. exists e. by rewrite !Nat.add_0_r. Qed.

Lemma runs_now t : runs t (now clock) 1 0 (clock t) [].
Proof.
  intros [e n out] HG Ht. simpl in *. subst n. left. exists e.
  rewrite Nat.add_0_r, app_nil_r, Nat.add_1_r. done.
Qed.

(** The value and the lines of a loop whose iterations each read the clock [k] times. *)
Fixpoint fold_at {A B} (k : nat) (g : nat → A → B → A) (t : nat) (a : A) (l : list B) : A :=
  match l with [] => a | b :: l => fold_at k g (t + k) (g t a b) l end.

Fixpoint lines_at {B} (k : nat) (ln : nat → B → list bench_line) (t : nat) (l : list B) : list bench_line :=
  match l with [] => [] | b :: l => ln t b ++ lines_at k ln (t + k) l end.

Lemma runs_fold {A B} (f : A → B → stepM bench A) k c g ln (l : list B) :
  (∀ t a b, b ∈ l → runs t (f a b) k c (g t a b) (ln t b)) →
  ∀ t a, runs t (foldS f a l) (length l * k) (length l * c) (fold_at k g t a l) (lines_at k ln t l).
Proof.
  induction l as [|b l IH]; intros Hf t a; simpl; [apply runs_ret |].
  eapply runs_bind; [apply Hf; by left |]. apply IH. intros. apply Hf. by right.
Qed.

(** *** The engine *)

Lemma replicate_rows {A} n w (x : A) : replicate (n * w) x = concat (replicate n (replicate w x)).
Proof. induction n as [|n IH]; simpl; [done |]. by rewrite replicate_add, IH. Qed.

Lemma batch_input_rows batch :
  1 ≤ batch ≤ 16 →
  ∃ rows, batch_input batch = Ret (concat rows) ∧ vec_size rows = batch ∧
    Forall (λ r, vec_size r = image_elems) rows.
Proof.
  intros Hb. exists (replicate (Z.to_nat batch) (demo_image (f32_lit 1 2))). split_and!.
  - unfold batch_input, vec_fill. change kInputElems with image_elems.
    assert (H0 : image_elems = 150528) by reflexivity.
    rewrite u64_mul_small by lia. rewrite (proj2 (Z.ltb_ge _ _)) by (unfold vec_max_size; lia).
    unfold demo_image. rewrite <- replicate_rows. f_equal. f_equal. lia.
  - apply vec_size_replicate. lia.
  - apply Forall_replicate, demo_image_size.
Qed.

Lemma runs_engine t batch input :
  1 ≤ batch ≤ 16 → batch_input batch = Ret input →
  ∃ out, runs t (engine_run rt input batch) 0 1 out [].
Proof.
  intros Hb Hin. destruct (batch_input_rows batch Hb) as (rows & Hrows & Hsz & Hrow).
  rewrite Hrows in Hin. injection Hin as <-. clear Hrows. exists (concat (onnx_row model o <$> rows)).
  intros [e n out] HG Ht. simpl in *. subst n. unfold engine_run. simpl.
  destruct (onnx_run_inference _ _ _ _ _ _) as [e' r] eqn:Hrun.
  pose proof (onnx_run_calls rt e (concat rows) batch kInputElems kOutputElems) as Hcalls. rewrite Hrun in Hcalls.
  destruct (@run_sound _ _ _ _ _ _ _ _ HC e rows e' r HG) as [HG' [->|(x & -> & Hx)]]; [| lia | done | by rewrite Hsz | |].
  - intros ->. unfold vec_size in Hsz. simpl in Hsz. lia.
  - left. exists e'. rewrite Nat.add_0_r, app_nil_r. simpl in Hcalls. split_and!; [done | lia | done].
  - right. split; [done |]. eexists _, x, []. by rewrite app_nil_r.
Qed.

Lemma runs_warm t iters batch input :
  1 ≤ batch ≤ 16 → batch_input batch = Ret input → runs t (warm rt iters input batch) 0 iters tt [].
Proof.
  intros Hb Hin. unfold warm.
  assert (Hf : ∀ l t a, runs t (foldS (λ (_ : unit) (_ : nat), bindM (engine_run rt input batch) (λ _, retM tt)) a l)
                 (length l * 0) (length l * 1) (fold_at 0 (λ _ _ _, tt) t a l) (lines_at 0 (λ _ _, []) t l)).
  { intros l. apply runs_fold. intros t' [] b _. destruct (runs_engine t' batch input Hb Hin) as [out Hr].
    exact (runs_bind _ _ 0 1 _ [] (λ _, retM tt) 0 0 tt [] Hr (runs_ret _ tt)). }
  specialize (Hf (seq 0 iters) t tt). rewrite length_seq, Nat.mul_0_r, Nat.mul_1_r in Hf.
  assert (Hl : ∀ (l : list nat) t, lines_at 0 (λ _ _, []) t l = []) by (induction l; simpl; auto).
  rewrite Hl in Hf. by destruct (fold_at _ _ _ _ _).
Qed.

Lemma runs_timed t batch input :
  1 ≤ batch ≤ 16 → batch_input batch = Ret input →
  runs t (timed_run rt clock input batch) 2 1 (duration_ms (clock (t + 1)%nat - clock t)) [].
Proof.
  intros Hb Hin. destruct (runs_engine (t + 1) batch input Hb Hin) as [out Hr].
  refine (runs_bind _ _ 1 0 _ [] _ 1 1 _ [] (runs_now t) _).
  refine (runs_bind _ _ 0 1 _ [] _ 1 0 _ [] Hr _). rewrite Nat.add_0_r.
  refine (runs_bind _ _ 1 0 _ [] _ 0 0 _ [] (runs_now _) _). apply runs_ret.
Qed.

(** *** The loops that collect samples *)

Lemma samples_from_S t n :
  samples_from clock t (S n) = duration_ms (clock (t + 1)%nat - clock t) :: samples_from clock (t + 2) n.
Proof.
  unfold samples_from. rewrite <- cons_seq, <- fmap_S_seq, fmap_cons, <- list_fmap_compose.
  rewrite Nat.mul_0_r, Nat.add_0_r. f_equal.
  apply list_fmap_ext. intros i x _. cbn [compose].
  by replace (t + 2 + 2 * x)%nat with (t + 2 * S x)%nat by lia.
Qed.

Lemma samples_no_nan t n : Forall (λ x, is_nan x = false) (samples_from clock t n).
Proof.
  apply Forall_fmap, Forall_forall. intros i _. apply f64_div_not_nan; [apply f64_of_u64_not_nan | by apply f64_of_u64_finite].
Qed.

Lemma median_samples t n : median_ms (samples_from clock t (S n)) = Ret (median_of (samples_from clock t (S n))).
Proof. apply median_ms_Ret; [by rewrite samples_from_S | apply samples_no_nan]. Qed.

Lemma fold_at_samples t (acc : list double) (l : list nat) :
  fold_at 2 (λ t acc _, acc ++ [duration_ms (clock (t + 1)%nat - clock t)]) t acc l =
    acc ++ samples_from clock t (length l).
Proof.
  revert t acc. induction l as [|x l IH]; intros t acc; simpl; [by rewrite app_nil_r |].
  by rewrite IH, samples_from_S, <- (assoc_L (++)).
Qed.

Lemma fold_at_churn t (acc : list double * double) (l : list nat) :
  fold_at 2 (λ t acc i, (acc.1 ++ [duration_ms (clock (t + 1)%nat - clock t)], f64_add acc.2 (f64_of_u64 (pick i))))
    t acc l =
  (acc.1 ++ samples_from clock t (length l), foldl (λ sum i, f64_add sum (f64_of_u64 (pick i))) acc.2 l).
Proof.
  revert t acc. induction l as [|x l IH]; intros t acc; simpl; [by rewrite app_nil_r, <- surjective_pairing |].
  rewrite IH, samples_from_S. simpl. by rewrite <- (assoc_L (++)).
Qed.

Lemma lines_at_nil {B} k t (l : list B) : lines_at k (λ _ _, []) t l = [].
Proof. revert t. induction l; simpl; auto. Qed.

Lemma runs_samples t n batch input :
  1 ≤ batch ≤ 16 → batch_input batch = Ret input →
  runs t (foldS (λ samples (_ : nat), bindM (timed_run rt clock input batch) (λ sample, retM (samples ++ [sample])))
            [] (seq 0 n)) (n * 2) n (samples_from clock t n) [].
Proof.
  intros Hb Hin. rewrite <- (length_seq n 0) at 2 3 4. rewrite <- (app_nil_l (samples_from _ _ _)), <- fold_at_samples.
  rewrite <- (Nat.mul_1_r (length (seq 0 n))) at 2. rewrite <- (lines_at_nil 2 t (seq 0 n)).
  apply runs_fold. intros t' acc i _.
  refine (runs_bind _ _ 2 1 _ [] _ 0 0 _ [] (runs_timed t' batch input Hb Hin) _). apply runs_ret.
Qed.

(** *** The phases *)

Lemma runs_fixed_shape t baseline batch :
  1 ≤ batch ≤ 16 →
  runs t (fixed_shape rt clock baseline batch) 60 40
    (if batch =? 1 then f64_div (median_of (samples_from clock t 30)) (f64_of_u64 batch) else baseline)
    [row_at clock t batch].
Proof.
  intros Hb. unfold fixed_shape. destruct (batch_input_rows batch Hb) as (rows & Hin & _). rewrite Hin. apply runs_lift.
  refine (runs_bind _ _ 0 10 tt [] _ 60 30 _ _ (runs_warm t 10 batch _ Hb Hin) _). rewrite Nat.add_0_r.
  refine (runs_bind _ _ 60 30 _ [] _ 0 0 _ _ (runs_samples t 30 batch _ Hb Hin) _).
  rewrite median_samples. apply runs_lift.
  refine (runs_bind _ _ 0 0 _ [_] _ 0 0 _ [] (runs_print _ _) _). apply runs_ret.
Qed.

Lemma runs_prewarm t batch : 1 ≤ batch ≤ 16 → runs t (prewarm rt batch) 0 3 tt [].
Proof.
  intros Hb. unfold prewarm. destruct (batch_input_rows batch Hb) as (rows & Hin & _). rewrite Hin. apply runs_lift.
  by apply runs_warm.
Qed.

Lemma runs_churn_one t acc i :
  runs t (churn_one rt clock pick acc i) 2 1
    (acc.1 ++ [duration_ms (clock (t + 1)%nat - clock t)], f64_add acc.2 (f64_of_u64 (pick i))) [].
Proof.
  destruct acc as [samples requests]. unfold churn_one. assert (Hb : 1 ≤ pick i ≤ 16) by (specialize (Hpick i); lia).
  destruct (batch_input_rows _ Hb) as (rows & Hin & _). rewrite Hin. apply runs_lift.
  refine (runs_bind _ _ 2 1 _ [] _ 0 0 _ [] (runs_timed t _ _ Hb Hin) _). apply runs_ret.
Qed.

Lemma runs_baseline t :
  runs t (print_baseline (f64_div (median_of (samples_from clock 0 30)) (f64_of_u64 1))) 0 0 tt (baseline_line clock).
Proof. unfold print_baseline, baseline_line. destruct (f64_ltb _ _); [apply runs_print | apply runs_ret]. Qed.

Lemma runs_table :
  runs 0 (foldS (fixed_shape rt clock) f64_zero [1; 2; 4; 8; 16]) 300 200
    (f64_div (median_of (samples_from clock 0 30)) (f64_of_u64 1))
    [row_at clock 0 1; row_at clock 60 2; row_at clock 120 4; row_at clock 180 8; row_at clock 240 16].
Proof.
  refine (runs_fold _ 60 40 (λ t baseline batch, if batch =? 1 then f64_div (median_of (samples_from clock t 30))
    (f64_of_u64 batch) else baseline) (λ t batch, [row_at clock t batch]) _ _ 0 f64_zero).
  intros t a batch Hb. apply runs_fixed_shape. rewrite !elem_of_cons, elem_of_nil in Hb. lia.
Qed.

Lemma runs_prewarm_all t : runs t (foldS (λ _ batch, prewarm rt batch) tt [1; 2; 3; 4; 5; 6; 7; 8]) 0 24 tt [].
Proof.
  refine (runs_fold _ 0 3 (λ _ _ _, tt) (λ _ _, []) _ _ t tt).
  intros t' a batch Hb. apply runs_prewarm. rewrite !elem_of_cons, elem_of_nil in Hb. lia.
Qed.

Lemma runs_churn t :
  runs t (foldS (churn_one rt clock pick) ([], f64_zero) (seq 0 60)) 120 60
    (samples_from clock t 60, foldl (λ sum i, f64_add sum (f64_of_u64 (pick i))) f64_zero (seq 0 60)) [].
Proof.
  pose proof (runs_fold _ 2 1 _ (λ _ _, []) (seq 0 60) (λ t a i _, runs_churn_one t a i) t ([], f64_zero)) as H.
  rewrite fold_at_churn, lines_at_nil, length_seq in H. exact H.
Qed.

Lemma runs_churn_report t samples requests :
  median_ms samples = Ret (median_of samples) →
  let total := foldl f64_add f64_zero samples in
  runs t (churn_report samples requests) 0 0 tt
    [ChurnMedian (median_of samples); ChurnPerRequest (f64_div total requests);
     ChurnThroughput (f64_div (f64_mul (f64_of_u64 1000) requests) total)].
Proof.
  intros Hm total. unfold churn_report. rewrite Hm. apply runs_lift. fold total.
  refine (runs_bind _ _ 0 0 _ [_] _ 0 0 _ [_; _] (runs_print _ _) _).
  refine (runs_bind _ _ 0 0 _ [_] _ 0 0 _ [_] (runs_print _ _) _). apply runs_print.
Qed.

(** After the first line, which shows the engine's state. *)
Lemma runs_measure (m : stepM bench Z) active :
  m = bindM (print (IoBindingActive active)) (λ _,
      bindM (foldS (fixed_shape rt clock) f64_zero [1; 2; 4; 8; 16]) (λ baseline,
      bindM (print_baseline baseline) (λ _,
      bindM (foldS (λ _ batch, prewarm rt batch) tt [1; 2; 3; 4; 5; 6; 7; 8]) (λ _,
      bindM (foldS (churn_one rt clock pick) ([], f64_zero) (seq 0 60)) (λ churn,
      bindM (churn_report churn.1 churn.2) (λ _, retM 0)))))) →
  runs 0 m 420 284 0 (bench_report clock pick active).
Proof.
  intros ->. refine (runs_bind _ _ 0 0 _ [_] _ 420 284 _ _ (runs_print _ _) _).
  refine (runs_bind _ _ 300 200 _ [_; _; _; _; _] _ 120 84 _ _ runs_table _).
  refine (runs_bind _ _ 0 0 _ _ _ 120 84 _ (churn_lines clock pick) (runs_baseline _) _).
  refine (runs_bind _ _ 0 24 _ [] _ 120 60 _ _ (runs_prewarm_all _) _).
  refine (runs_bind _ _ 120 60 _ [] _ 0 0 _ _ (runs_churn _) _).
  pose proof (median_samples 300 59) as Hm. unfold churn_lines. cbn [fst snd Nat.add].
  generalize dependent (samples_from clock 300 60). generalize (foldl (λ sum i, f64_add sum (f64_of_u64 (pick i))) f64_zero (seq 0 60)).
  intros requests samples Hm.
  refine (runs_bind _ _ 0 0 _ [_; _; _] _ 0 0 _ [] (runs_churn_report _ _ _ Hm) _). apply runs_ret.
Qed.

Lemma measure_runs s :
  onnx_good o (bn_engine s) → bn_ticks s = 0%nat →
  let report := bench_report clock pick (oe_io_binding_active (bn_engine s)) in
  (∃ e, onnx_good o e ∧ oe_calls e = (oe_calls (bn_engine s) + 284)%nat ∧
        measure rt clock pick s = ({| bn_engine := e; bn_ticks := 420; bn_out := bn_out s ++ report |}, Ret 0)) ∨
  (¬ onnx_healthy rt ∧ ∃ s' x printed,
     measure rt clock pick s = (s', Throw x) ∧ bn_out s' = bn_out s ++ printed ∧ printed `prefix_of` report).
Proof.
  intros HG Ht report. pose proof (runs_measure _ (oe_io_binding_active (bn_engine s)) eq_refl s HG Ht) as H.
  fold report in H. erewrite bindM_at in H; [exact H |]. reflexivity.
Qed.
End Measure.

Lemma new_engine_defined rt o :
  fresh_answers (ort_answers rt) (ort_streams rt) → new_OnnxExecutionEngine rt o ≠ Undefined.
Proof.
  intros Hf. unfold new_OnnxExecutionEngine. destruct (String.eqb _ _); [done |].
  destruct (ort_load rt _) as [u|msg]; simpl; [| done]. destruct (_ && _); [done |]. destruct (negb _); [done |].
  assert (Hn : check_normalization o ≠ Undefined).
  { unfold check_normalization. by repeat destruct (if _ then _ else _) eqn:?; repeat case_match. }
  destruct (check_normalization o) as [?|?|]; simpl; [| done | done].
  destruct (ort_names rt) as [?|?]; simpl; [| done]. destruct (ox_use_io_binding o); simpl; [| done].
  unfold allocate_device_buffers. pose proof (try_allocate_defined _ o (ort_heap rt) _ Hf) as Hd.
  by destruct (try_allocate _ _ _).2 as [[]|x|].
Qed.

(** The tool's options satisfy what the engine relies on when the buckets are not absurd. *)
Lemma bench_contract rt model model_path buckets path e :
  SessionOk rt model kOutputElems → Forall (λ b, 0 ≤ b < two31) buckets →
  let o := bench_options model_path buckets path in
  new_OnnxExecutionEngine rt o = Ret e →
  onnx_good o e ∧
  EngineContract OnnxExecutionEngine (H := onnx_IExecutionEngine rt) (onnx_good o) 16 image_elems
    kOutputElems (onnx_row model o) (λ _, ¬ onnx_healthy rt).
Proof.
  intros HS Hb o Hnew.
  assert (Hcap : 0 ≤ capacity_rows o < two31).
  { unfold capacity_rows. simpl. destruct (last buckets) as [back|] eqn:Hl; simpl; [| lia].
    apply last_Some_elem_of in Hl. by eapply Forall_forall in Hb. }
  assert (Hout : ox_output_elems o = 1000) by reflexivity. assert (Himg : image_elems = 150528) by reflexivity.
  destruct (onnx_constructed rt o e) as (_ & Hs & Hn & _ & HG); try done; try (rewrite ?Hout, ?Himg; unfold vec_max_size; lia).
  split; [done |].
  refine (onnx_contract rt model o eq_refl _ Hs Hn 16 _ _ _ _); try (rewrite ?Hout, ?Himg; unfold vec_max_size; lia).
  done.
Qed.

(** ** Properties *)

(** C35: the bucket parser terminates and is the split at commas. On every argument string
    the loop ends within one iteration more than the string has characters, without an
    access out of range, and yields the numbers of the non-empty pieces between commas, in
    order; the first piece that is not a number, or one that does not fit 64 bits, is the
    exception [std::stoul] throws for it. *)
Theorem parse_buckets_is_split (spec : string) : parse_buckets spec = Some (parse_tokens (split_on "," spec)).
Proof. apply parse_buckets_split. Qed.

(** C36: printing and parsing bucket sets. A list of 64-bit bucket sizes written in decimal
    and separated by commas is parsed back to the same list. *)
Theorem parse_buckets_roundtrip (buckets : list Z) (Hb : Forall is_u64 buckets) :
  parse_buckets (print_buckets buckets) = Some (Ret buckets).
Proof.
  destruct buckets as [|b bs]; [reflexivity |].
  rewrite parse_buckets_split. unfold print_buckets.
  rewrite split_on_concat, parse_tokens_pretty; [done | done | done |].
  apply Forall_fmap, Forall_forall. intros x Hx. apply digits_no_comma, pretty_digits.
  by eapply Forall_forall in Hb as [? _].
Qed.

(** The median is a median. For samples without NaN, and at least one, [median_ms]
    returns one of the samples; at least [n / 2 + 1] of the samples are not above it and at
    least [n - n / 2] are not below it, so it is the upper median for even [n]. *)
Theorem median_ms_is_median (samples : list double)
  (Hne : samples ≠ []) (Hnan : Forall (λ x, is_nan x = false) samples) :
  ∃ m, median_ms samples = Ret m ∧ m ∈ samples ∧
    (length samples / 2 + 1 ≤ length (filter (λ x, not_after x m) samples))%nat ∧
    (length samples - length samples / 2 ≤ length (filter (λ x, not_after m x) samples))%nat.
Proof.
  exists (median_of samples). split; [by apply median_ms_Ret | by apply median_of_rank].
Qed.

(** C34: what the benchmark prints. [main] prints nothing and throws the parser's exception
    when the bucket argument is malformed. When it lists bucket sizes below 2^31 (beyond,
    buffer sizes can wrap: [bench_huge_bucket_undefined]), [main] throws the constructor's
    exception after two lines when the engine cannot be built; and otherwise
    returns 0 after exactly 284 engine calls, having printed exactly the report computed
    from the clock readings around the timed calls (rows for batches 1, 2, 4, 8 and 16, the
    batch-1 baseline, and the churn figures), or stops part-way with an exception when the
    runtime fails. With such buckets no run accesses memory out of range or sorts a NaN. *)
Theorem bench_main_report (rt : onnx_runtime) (model : list float → list float) (clock pick : nat → Z)
  (argv : list string) (HS : SessionOk rt model kOutputElems)
  (Hfresh : fresh_answers (ort_answers rt) (ort_streams rt)) (Hpick : ∀ i, 1 ≤ pick i ≤ 8) :
  let model_path := default "models/resnet50.onnx"%string (argv !! 1%nat) in
  let bucket_spec := default "1,2,4,8"%string (argv !! 2%nat) in
  let path := default "bound"%string (argv !! 3%nat) in
  let start := [Buckets bucket_spec path; Loading model_path] in
  match parse_tokens (split_on "," bucket_spec) with
  | Ret buckets =>
      Forall (λ b, 0 ≤ b < two31) buckets →
      match new_OnnxExecutionEngine rt (bench_options model_path buckets path) with
      | Ret engine =>
          let report := start ++ bench_report clock pick (oe_io_binding_active engine) in
          (∃ engine', main rt clock pick argv = (report, Some engine', Ret 0) ∧
                      oe_calls engine' = (oe_calls engine + 284)%nat) ∨
          (¬ onnx_healthy rt ∧ ∃ printed engine' x,
             main rt clock pick argv = (printed, Some engine', Throw x) ∧ printed `prefix_of` report)
      | Throw x => main rt clock pick argv = (start, None, Throw x)
      | Undefined => False
      end
  | Throw x => main rt clock pick argv = ([], None, Throw x)
  | Undefined => False
  end.
Proof.
  intros model_path bucket_spec path start. unfold main. fold model_path bucket_spec path.
  rewrite (parse_buckets_split bucket_spec). cbv beta iota delta [default from_option id].
  destruct (parse_tokens _) as [buckets|x|] eqn:Hp; [| done | by apply (parse_tokens_defined _ Hp)].
  intros Hb. pose proof (new_engine_defined rt (bench_options model_path buckets path) Hfresh) as Hdef.
  destruct (new_OnnxExecutionEngine rt _) as [engine|x|] eqn:Hnew; [| done | done].
  destruct (bench_contract rt model model_path buckets path engine HS Hb Hnew) as [HG HC].
  pose proof (measure_runs rt model _ clock pick HC Hpick
    {| bn_engine := engine; bn_ticks := 0; bn_out := start |} HG eq_refl) as Hm. cbn [bn_engine bn_out] in Hm. fold start.
  destruct Hm as [(e & _ & Hc & ->)|(Hh & s' & x & printed & -> & Hout & Hpre)].
  - left. by exists e.
  - right. split; [done |]. exists (bn_out s'), (bn_engine s'), x. split; [done |]. rewrite Hout. by apply prefix_app.
Qed.

(** With the default buckets and the bound path active, a batch of 16 is run by the host
    path: the table's last row is not measured on the path the tool reports. *)
Lemma bench_batch16_on_host (rt : onnx_runtime) (e : OnnxExecutionEngine) (input : list float) (path : string) :
  oe_options e = bench_options "models/resnet50.onnx" [1; 2; 4; 8] path → vec_size input = 16 * kInputElems →
  oe_io_binding_active e = true →
  onnx_run_inference rt e input 16 kInputElems kOutputElems = (count_call e, run_host rt (count_call e) input 16 16).
Proof.
  intros Ho Hsz Hact. unfold onnx_run_inference. simpl oe_options. rewrite Ho, Hsz. simpl. by rewrite Hact.
Qed.

(** Bucket sizes are not bounded by the tool or by the engine: with 2^62 the sizes of the
    bound path's buffers wrap to 0 bytes, the allocations succeed, and the first call
    copies its input past the end of the pinned buffer. *)
Theorem bench_huge_bucket_undefined :
  let run := main demo_logits_rt Z.of_nat (λ _, 3) ["bench_engine"; "m.onnx"; "4611686018427387904"]%string in
  run.1.1 = [Buckets "4611686018427387904" "bound"; Loading "m.onnx"; IoBindingActive true] ∧ run.2 = Undefined.
Proof. vm_compute. by split. Qed.

(** ** Witnesses *)

Lemma parse_buckets_roundtrip_witness :
  parse_buckets "1,8,18446744073709551615" = Some (Ret [1; 8; 18446744073709551615]).
Proof.
  refine (parse_buckets_roundtrip [1; 8; 18446744073709551615] _).
  repeat (apply Forall_cons; split; [by vm_compute |]). by apply Forall_nil.
Defined.

Example parse_buckets_examples :
  parse_buckets "8," = Some (Ret [8]) ∧ parse_buckets " 4x,,+2" = Some (Ret [4; 2]) ∧
  parse_buckets "-1" = Some (Ret [18446744073709551615]) ∧
  parse_buckets "1,x" = Some (Throw (InvalidArgument "stoul")) ∧
  parse_buckets "18446744073709551616" = Some (Throw (OutOfRange "stoul")).
Proof. by vm_compute. Qed.

Definition demo_samples : list double := f64_of_u64 <$> [3; 1; 4; 2].

Lemma median_ms_is_median_witness : ∃ m, median_ms demo_samples = Ret m ∧ m ∈ demo_samples ∧
  (3 ≤ length (filter (λ x, not_after x m) demo_samples))%nat ∧
  (2 ≤ length (filter (λ x, not_after m x) demo_samples))%nat.
Proof.
  refine (median_ms_is_median demo_samples _ _); [done |].
  by apply no_nan_existsb.
Defined.

Example median_of_four : median_ms demo_samples = Ret (f64_of_u64 3).
Proof. by vm_compute. Qed.

Definition demo_bench_options : OnnxOptions := bench_options "models/resnet50.onnx" [1; 2; 4; 8] "bound".

Lemma demo_never_fails : (try_allocate (demo_buffer_answers 6) demo_bench_options (new_Impl ∅ ∅)).2 = Ret true.
Proof. vm_compute. reflexivity. Qed.

Lemma bench_main_report_witness :
  ∃ printed engine, main demo_logits_rt Z.of_nat (λ _, 3) ["bench_engine"%string] = (printed, Some engine, Ret 0).
Proof.
  pose proof (bench_main_report demo_logits_rt demo_logits Z.of_nat (λ _, 3) ["bench_engine"%string]
    demo_logits_session (demo_answers_fresh 6) ltac:(done)) as H.
  destruct (demo_logits_built demo_bench_options eq_refl eq_refl eq_refl demo_never_fails) as [e He].
  unfold demo_bench_options in He.
  assert (Hp : parse_tokens (split_on "," "1,2,4,8") = Ret [1; 2; 4; 8]) by reflexivity.
  cbv zeta in H. change (["bench_engine"%string] !! 1%nat) with (@None string) in H.
  change (["bench_engine"%string] !! 2%nat) with (@None string) in H.
  change (["bench_engine"%string] !! 3%nat) with (@None string) in H.
  cbv beta iota delta [default from_option id] in H. rewrite Hp in H.
  specialize (H ltac:(repeat (apply Forall_cons; split; [lia |]); apply Forall_nil; exact I)).
  rewrite He in H. revert H. intros [(e' & Hm & _)|(Hh & _)]; [| destruct (Hh demo_logits_healthy)].
  eexists _, e'. exact Hm.
Defined.
